(* ===== verification/_CoqProject ===== *)
-Q . S2P
Prelude.v
Wire.v
Errors.v
Hash.v
Traits.v
Policy.v
State.v
Registry.v
Store.v
Events.v
Assembly.v
AssemblySpec.v
Work.v
Runs.v
Units.v
Steps.v
Kernel.v
Invariant.v
StoreInv.v
EventSpec.v
Evolve.v
UnitSpec.v
NoPanic.v
RunTheorems.v
FailTheorems.v
Typing.v
StoreTheorems.v
DataTheorems.v
FwErrors.v
Presentation.v
Storage.v
Memo.v
FwPolicy.v
KernelApi.v
KernelLaws.v
Cut.v
CutSpec.v
Liveness.v
CutValid.v
FwPolicySpec.v
Host.v
HostSpec.v
HostTermination.v
MemoSpec.v
StorageSpec.v
HostPipeline.v
HostUnit.v
HostWave.v
HostResume.v
FwTheorems.v
Example.v
FwExample.v
Findings.v
FwFindings.v
Witnesses.v
FwWitnesses.v
