(* ===== verification/Prelude.v ===== *)
(** * srcport-substrate: a verification development

    The repository is a substrate for modules that exchange content-addressed
    artifacts: a kernel that stores, records and schedules
    ([src/kernel/sdk/rust/src/lib.rs]) and a framework that runs module
    plugins on top of it ([src/framework/sdk/rust/src/]).  This library is a
    model of the Rust code of both, written definition by definition from the
    source, and the theorems that make it correct.

    ** How the program is modelled

    [MemoryKernel] keeps one [State] behind one lock, and every method holds
    the lock from its first read to its last write.  A method is therefore a
    function from a state to an outcome and a state ([M] below): the outcome is
    [Ok], [Err] with what was written kept, or [Panic] where an [unwrap] or
    [expect] would abort.  The clock is an argument, read where the code reads
    it.  A [HashMap] or [HashSet] is a [gmap] or [gset] and its iteration order
    comes from the class [HashOrder] below, of which nothing is known but that it
    is a permutation; a [BTreeMap] iterates in byte order ([btree_iter]).
    Integers are [Z] with the wrap-around, saturation or cast of the code
    written out ([u64], [u32], [as_i64], [i64_sat_add]); bytes are
    [Byte.byte]; strings are byte strings.  SHA-256, the protobuf encoding and
    the [Debug] form of strings come from crates and generated code: they are the
    parameters of the class [Wire.Platform], whose only law is the digest's length.
    A theorem that needs two messages not to collide says so, for the messages at
    hand ([collision_free]).

    The [Host] of the framework is a state monad over a kernel, a table backend
    and a memo store, which are what the traits of the code make them: the classes
    [KernelApi], [StorageBackend] and [MemoStore].  [MemoryKernel], with the answers
    its environment will give at each call (the clock and the iteration order), is
    an instance of the first ([LiveKernel]).  A plugin is a record of functions,
    each call of which takes a ticket no other call gets, so that plugins with a
    state of their own, and threads in any order, are some function of the ticket.
    The values of [serde_json] and the JSON form of a presentation are parameters.

    ** The files, and what they model of [src/kernel/sdk/rust/src/lib.rs]

    - [Prelude]: outcomes, the method monad, integers, byte strings, sorting,
      iteration order, the [for] loops that may leave early, tactics and hints.
    - [Wire]: the messages and enums of [substrate.proto] and their getters.
    - [Errors]: [KernelError], its messages and its portable form.
    - [Hash]: the byte strings that are hashed, ids and digests, [verify_chain].
    - [Traits]: constructors, projection and merge of trait bags.
    - [Policy]: [normalize_store_policy] and the store law.
    - [State]: [State] and its parts, [append_locked], deadlines, idempotency.
    - [Registry], [Store], [Events]: modules, lifecycle and contracts; artifacts
      and blobs; the bus with its bounded channels.
    - [Assembly]: [validate_assembly] with its depth-first search, and
      [materialize_assembly].
    - [Work]: inputs, firing policy, unit keys, readiness, output validation.
    - [Runs]: [start_run], [inject_input], [claim_ready], [heartbeat],
      [fail_work], [commit], [cancel_run] and the reaping of leases.
    - [Kernel]: the [KernelApi] dispatch ([exec]) and the [reachable] states.

    And of [src/framework/sdk/rust/src/]:

    - [FwErrors]: [FrameworkError] ([lib.rs]).
    - [Presentation]: [presentation.rs], stages, presentations and legacy views.
    - [Storage]: [storage.rs], plans, schemas, physical names, [MemoryStorage].
    - [Memo]: [memo.rs], keys, records and [MemoryMemo].
    - [FwPolicy]: [policy.rs], plans and what they compile to.
    - [KernelApi]: the trait the host is written against, and its instance.
    - [Cut]: [cut.rs], the nodes a plan keeps, seeds, and the searches.
    - [Host]: [lib.rs], plugins and the host that claims, executes and commits.

    ** The specifications and the proofs

    - [AssemblySpec]: [assembly_ok], a declarative reading of the validator, and
      the correctness of the search.
    - [Units]: which keys and work ids a node can give rise to.
    - [Steps]: the few shapes a change of state can take ([kstep], and
      [slot_step] for one run); every method is a sequence of them, so an invariant
      is proved per shape and holds of every method.
    - [Invariant], [StoreInv], [EventSpec], [Typing]: the invariants of runs, of
      the store and the ledger, of the bus, and of what flows along bindings.
    - [Evolve]: what may change between two states of one kernel.
    - [UnitSpec]: the abstract machine of one work unit that the kernel refines.
    - [NoPanic]: no [unwrap] fails.
    - [FailTheorems]: what [fail_work] answers and leaves behind on each path.
    - [Liveness]: an invariant of the data flow of a run, and that a run that
      closes never waits for something that cannot come.
    - [RunTheorems], [StoreTheorems], [DataTheorems]: the properties, each a
      few lines over the above.
    - [KernelLaws]: what the host needs of a kernel ([KernelProgress]), which
      the kernel's theorems discharge for [MemoryKernel].
    - [CutSpec], [CutValid]: reachability, the declarative cut ([cut_with]), and
      that a cut seeded from a run is valid again.
    - [FwPolicySpec]: what a compiled policy means to the kernel.
    - [HostSpec]: relations every host operation respects ([HostRel]), one lemma
      per operation; [HostTermination], [MemoSpec] and [HostPipeline] are
      instances of it: progress of the drive loop, the memo store, the kernel
      and the setup of a pipeline.
    - [HostUnit]: one work unit through the host, over a kernel that has the
      laws of [KernelLaws]: what is committed, and what is shown of it.
    - [HostWave]: the units of a wave, on threads or one after the other, and of
      a whole drive, as lists of what was done for each ([worked], [drove]).
    - [HostResume]: starting a pipeline, and what a resumed one reads of the
      earlier run.
    - [StorageSpec]: writing rows as operations on keyed rows.
    - [FwTheorems] (and [policy_compiled], [resumed_assembly_valid]): the
      properties of the framework.
    - [Example], [FwExample], [Witnesses], [FwWitnesses]: a concrete kernel and
      a concrete host taken through runs, and the properties applied to them.
    - [Findings], [FwFindings]: inputs at which the code does less than its
      documents say.

    ** Bounds and fuel

    [visit], the depth-first search of the cycle check, has fuel [visit_fuel],
    one more than the number of nodes: the set of nodes being visited grows with
    every level, so the search never gets that deep ([cycle_check_correct],
    [validate_assembly_correct]).  The two breadth-first searches of [cut.rs] have
    [search_fuel], two more than the number of bindings: a node is queued once
    and is an end of a binding ([materialize_cut_correct]).  [drive_until_idle]
    takes its fuel as an argument, and [max_steps] of the run and one more is enough
    ([drive_terminates], for a host whose context carries no request key): every wave
    but the last takes a step of the run or ends the loop.

    ** What is not modelled

    Poisoning of the lock (a panic while it is held; [kernel_never_panics] shows
    there is none), exhaustion of memory, and the calls between which
    [put_artifact_with_blob] gives up the lock (it takes it twice; it is one call
    of the model).  Of the host: other users of the same kernel between two of
    its calls, panics in a plugin's hooks other than [execute], and memo stores
    shared between hosts through a clone.  The accessors that only borrow a field
    are the projections of the records.  The Go and Python SDKs implement the same
    contract and are not modelled; nor are the generated code and the build script.

    ** Conditions that recur

    A run is plain ([plain_slot]) when no node id begins like a unit key, with
    "key:" or "always:": the validator takes any id, and two units can then share
    a work id ([Findings.work_id_collision]).  A host is sound ([sound_host])
    when its kernel is in a reachable state and its context carries no request key:
    with one, every commit replays the first ([FwFindings.host_request_key_replays]).
    Encodings that separate fields by a byte are faithful when the fields do not
    contain it ([bag_framed], [entry_well_framed], [slash_free]).

    ** Plan

    To come: the retention of per-run tables over the life of a run, and what
    [try_step] and [inject] leave on every path. *)
From stdpp Require Export base gmap sets list strings sorting relations ssreflect.
From Stdlib Require Export ZArith Lia.
From Stdlib Require Import Strings.Byte NArith.

Local Open Scope Z_scope.

(** ** Outcomes, and the state monad of a method that holds the kernel lock *)

(** What a Rust call can do: return [Ok], return [Err], or panic (an
    [unwrap]/[expect] on the wrong variant). *)
Inductive outcome (E A : Type) : Type :=
  | Ok (a : A)
  | Err (e : E)
  | Panic.
Arguments Ok {E A} a.
Arguments Err {E A} e.
Arguments Panic {E A}.

Definition is_ok {E A} (o : outcome E A) : bool :=
  match o with Ok _ => true | _ => false end.

#[export] Instance outcome_ret {E} : MRet (outcome E) := λ A a, Ok a.
#[export] Instance outcome_bind {E} : MBind (outcome E) := λ A B k o,
  match o with Ok a => k a | Err e => Err e | Panic => Panic end.

(** [ok_or e o] is [Option::ok_or]; [unwrap o] is [Option::unwrap]. *)
Definition ok_or {E A} (e : E) (o : option A) : outcome E A :=
  match o with Some a => Ok a | None => Err e end.
Definition unwrap {E A} (o : option A) : outcome E A :=
  match o with Some a => Ok a | None => Panic end.
(** [guard_err b e]: [if b { return Err(e) }]. *)
Definition err_if {E} (b : bool) (e : E) : outcome E unit :=
  if b then Err e else Ok tt.

(** A [for] loop whose body may leave the function early. *)
Fixpoint for_each {E A B} (f : B → A → outcome E B) (b : B) (l : list A)
    : outcome E B :=
  match l with
  | [] => Ok b
  | x :: l => b ← f b x; for_each f b l
  end.

(** A method body running under the lock: the state is changed in place and
    what was changed stays changed when the method then returns [Err]. *)
Definition M (S E A : Type) : Type := S → outcome E A * S.

#[export] Instance M_ret {S E} : MRet (M S E) := λ A a s, (Ok a, s).
#[export] Instance M_bind {S E} : MBind (M S E) := λ A B k m s,
  match m s with
  | (Ok a, s') => k a s'
  | (Err e, s') => (Err e, s')
  | (Panic, s') => (Panic, s')
  end.

Definition get {S E} : M S E S := λ s, (Ok s, s).
Definition put {S E} (s' : S) : M S E unit := λ _, (Ok tt, s').
Definition modify {S E} (f : S → S) : M S E unit := λ s, (Ok tt, f s).
Definition lift {S E A} (o : outcome E A) : M S E A := λ s, (o, s).
Definition fail {S E A} (e : E) : M S E A := λ s, (Err e, s).

Fixpoint for_each_M {S E A} (f : A → M S E unit) (l : list A) : M S E unit :=
  match l with
  | [] => mret tt
  | x :: l => f x ;; for_each_M f l
  end.

(** Running a bind whose first part is known. *)
Lemma run_bind {S E A B} (m : M S E A) (k : A → M S E B) s a s' r :
  m s = (Ok a, s') → k a s' = r → (m ≫= k) s = r.
Proof. rw /mbind /M_bind. by intros ->. Qed.
Lemma run_get {S E B} (k : S → M S E B) s r : k s s = r → (get ≫= k) s = r.
Proof. done. Qed.
Lemma run_lift {S E A B} (o : outcome E A) a (k : A → M S E B) s r :
  o = Ok a → k a s = r → (lift o ≫= k) s = r.
Proof. by intros ->. Qed.
Lemma run_put {S E B} s' (k : () → M S E B) s r : k tt s' = r → (put s' ≫= k) s = r.
Proof. done. Qed.

(** ... and taking a successful run apart. *)
Lemma bind_ok_inv {S E A B} (m : M S E A) (k : A → M S E B) s b s'' :
  (m ≫= k) s = (Ok b, s'') → ∃ a s', m s = (Ok a, s') ∧ k a s' = (Ok b, s'').
Proof. rw /mbind /M_bind. destruct (m s) as [[] ?]; eauto; done. Qed.
Lemma lift_ok_inv {S E A B} (o : outcome E A) (k : A → M S E B) s b s' :
  (lift o ≫= k) s = (Ok b, s') → ∃ a, o = Ok a ∧ k a s = (Ok b, s').
Proof. rw /mbind /M_bind /lift. destruct o; eauto; done. Qed.

Lemma lift_bind {S E A B} (o : outcome E A) (k : A → M S E B) s :
  (lift o ≫= k) s = match o with Ok a => k a s | Err e => (Err e, s) | Panic => (Panic, s) end.
Proof. by destruct o. Qed.

(** [m] leaves the value [v] of [f] as it is. *)
Definition leaves {S E A T} (f : S → T) (v : T) (m : M S E A) : Prop := ∀ s, f s = v → f (m s).2 = v.
Section leaves.
Context {S E T : Type} (f : S → T) (v : T).
Lemma leaves_ret {A} (a : A) : leaves (E:=E) f v (mret a).
Proof. by intros s. Qed.
Lemma leaves_lift {A} (o : outcome E A) : leaves f v (lift o).
Proof. by intros s. Qed.
Lemma leaves_bind {A C} (m : M S E A) (k : A → M S E C) :
  leaves f v m → (∀ a, leaves f v (k a)) → leaves f v (m ≫= k).
Proof.
  intros Hm Hk s Hs. specialize (Hm s Hs). rw /mbind /M_bind. destruct (m s) as [[a|e|] s']; [|done..].
  by apply Hk.
Qed.
Lemma leaves_get {C} (k : S → M S E C) : (∀ s, f s = v → leaves f v (k s)) → leaves f v (get ≫= k).
Proof. intros Hk s Hs. by apply (Hk s Hs). Qed.
Lemma leaves_put s' : f s' = v → leaves (E:=E) f v (put s').
Proof. by intros Hs s _. Qed.
Lemma leaves_modify g : (∀ s, f (g s) = f s) → leaves (E:=E) f v (modify g).
Proof. intros Hg s <-. apply Hg. Qed.
End leaves.

Lemma bind_err_inv {S E A B} (m : M S E A) (k : A → M S E B) s e s'' :
  (m ≫= k) s = (Err e, s'') →
  m s = (Err e, s'') ∨ ∃ a s', m s = (Ok a, s') ∧ k a s' = (Err e, s'').
Proof. rw /mbind /M_bind. destruct (m s) as [[] ?]; intros Hk; simplify_eq; eauto. Qed.
Lemma lift_err_inv {S E A B} (o : outcome E A) (k : A → M S E B) s e s'' :
  (lift o ≫= k) s = (Err e, s'') → s'' = s ∨ ∃ a, o = Ok a ∧ k a s = (Err e, s'').
Proof. rw /mbind /M_bind /lift. destruct o; intros Hk; simplify_eq; eauto. Qed.

(** ** Machine integers *)
Definition u64_max : Z := 2^64 - 1.
(** Wrapping of a [u64] result. *)
Definition u64 (z : Z) : Z := z mod 2^64.
Definition u32 (z : Z) : Z := z mod 2^32.
(** [x as i64] for [x : u64]. *)
Definition as_i64 (z : Z) : Z := if z <? 2^63 then z else z - 2^64.
Definition i64_max : Z := 2^63 - 1.
Definition i64_min : Z := - 2^63.
(** [i64::saturating_add]; [u64::saturating_add]. *)
Definition i64_sat_add (a b : Z) : Z := Z.max i64_min (Z.min i64_max (a + b)).
Definition u64_sat_add (a b : Z) : Z := Z.min u64_max (a + b).
Definition u64_sat_sub (a b : Z) : Z := Z.max 0 (a - b).

Definition u64_ok (z : Z) : Prop := 0 ≤ z < 2^64.
Definition u32_ok (z : Z) : Prop := 0 ≤ z < 2^32.
#[export] Instance u64_ok_dec z : Decision (u64_ok z).
Proof. unfold u64_ok. apply _. Defined.
#[export] Instance u32_ok_dec z : Decision (u32_ok z).
Proof. unfold u32_ok. apply _. Defined.

Lemma u64_id z : 0 ≤ z < 2^64 → u64 z = z.
Proof. apply Z.mod_small. Qed.
Lemma u32_id z : 0 ≤ z < 2^32 → u32 z = z.
Proof. apply Z.mod_small. Qed.
Lemma u64_bound z : 0 ≤ u64 z < 2^64.
Proof. apply Z.mod_pos_bound. lia. Qed.

(** [len v] is [v.len()] read as an integer. *)
Definition len {A} (l : list A) : Z := Z.of_nat (length l).

(** ** Bytes and strings *)
Definition bytes := list byte.
Definition SEP : byte := "000"%byte.
(** [s.as_bytes()]: strings are UTF-8 byte sequences. *)
Definition as_bytes (s : string) : bytes := String.list_byte_of_string s.
#[export] Instance byte_eq_dec : EqDecision byte := Byte.byte_eq_dec.

Lemma as_bytes_inj s1 s2 : as_bytes s1 = as_bytes s2 → s1 = s2.
Proof.
  intros Heq. rw -(String.string_of_list_byte_of_string s1).
  rw -(String.string_of_list_byte_of_string s2). by f_equal.
Qed.

(** [s.is_empty()] *)
Definition str_is_empty (s : string) : bool := bool_decide (s = "").
Definition str_eqb (s t : string) : bool := bool_decide (s = t).
(** [s.starts_with(p)] *)
Definition starts_with (p s : string) : bool := String.prefix p s.
Definition list_is_empty {A} (l : list A) : bool :=
  match l with [] => true | _ => false end.

(** [byte_of_Z z] is [z as u8]. *)
Definition byte_of_Z (z : Z) : byte :=
  match Byte.of_N (Z.to_N (z mod 256)) with Some b => b | None => "000"%byte end.
Definition Z_of_byte (b : byte) : Z := Z.of_N (Byte.to_N b).

(** [x.to_be_bytes()] for [x : u64]. *)
Definition u64_be (x : Z) : bytes :=
  byte_of_Z <$> [Z.shiftr x 56; Z.shiftr x 48; Z.shiftr x 40; Z.shiftr x 32;
                 Z.shiftr x 24; Z.shiftr x 16; Z.shiftr x 8; x].

Lemma Z_of_byte_bound b : 0 ≤ Z_of_byte b < 256.
Proof. rw /Z_of_byte. pose proof (Byte.to_N_bounded b). lia. Qed.
Lemma Z_of_byte_of_Z z : Z_of_byte (byte_of_Z z) = z mod 256.
Proof.
  rw /byte_of_Z /Z_of_byte.
  pose proof (Z.mod_pos_bound z 256 ltac:(lia)) as Hb.
  destruct (Byte.of_N _) as [b|] eqn:Hof.
  - apply Byte.to_of_N in Hof. rw Hof. lia.
  - apply Byte.of_N_None_iff in Hof. lia.
Qed.
Lemma byte_of_Z_inj z1 z2 : byte_of_Z z1 = byte_of_Z z2 → z1 mod 256 = z2 mod 256.
Proof. intros Heq. by rw -!Z_of_byte_of_Z Heq. Qed.

Lemma length_u64_be x : length (u64_be x) = 8%nat.
Proof. done. Qed.
(** Two numbers that agree below [2^k] and on the next byte agree below
    [2^(k+8)]. *)
Lemma mod_byte_step k x y : 0 ≤ k →
  x mod 2^k = y mod 2^k → Z.shiftr x k mod 256 = Z.shiftr y k mod 256 →
  x mod 2^(k + 8) = y mod 2^(k + 8).
Proof.
  intros Hk. rw !Z.shiftr_div_pow2 // => Hlow Hbyte.
  rw Z.pow_add_r; [|lia..]. change (2^8) with 256.
  rw !Z.rem_mul_r; [|lia..]. by rw Hlow Hbyte.
Qed.
Lemma u64_be_inj x y : 0 ≤ x < 2^64 → 0 ≤ y < 2^64 → u64_be x = u64_be y → x = y.
Proof.
  intros Hx Hy Heq.
  injection Heq as H7 H6 H5 H4 H3 H2 H1 H0; apply byte_of_Z_inj in H0, H1, H2, H3, H4, H5, H6, H7.
  rw -(Z.mod_small x (2^64)) // -(Z.mod_small y (2^64)) //.
  apply (mod_byte_step 56); [lia| |done]. apply (mod_byte_step 48); [lia| |done].
  apply (mod_byte_step 40); [lia| |done]. apply (mod_byte_step 32); [lia| |done].
  apply (mod_byte_step 24); [lia| |done]. apply (mod_byte_step 16); [lia| |done].
  by apply (mod_byte_step 8).
Qed.

(** *** Zero-separated framing *)
Definition nul_free (l : bytes) : Prop := SEP ∉ l.
Definition str_nul_free (s : string) : Prop := nul_free (as_bytes s).
#[export] Instance nul_free_dec l : Decision (nul_free l).
Proof. unfold nul_free. apply _. Defined.
#[export] Instance str_nul_free_dec s : Decision (str_nul_free s).
Proof. unfold str_nul_free. apply _. Defined.

(** A zero-terminated, zero-free prefix can be read back. *)
Lemma frame_inj (a b r r' : bytes) :
  nul_free a → nul_free b → a ++ SEP :: r = b ++ SEP :: r' → a = b ∧ r = r'.
Proof.
  rw /nul_free. revert b. induction a as [|x a IH]; intros [|y b] Ha Hb; simpl.
  - by intros [= ->].
  - intros [= <- _]. destruct Hb. by left.
  - intros [= -> _]. destruct Ha. by left.
  - intros [= -> Heq]. apply not_elem_of_cons in Ha as [_ Ha]. apply not_elem_of_cons in Hb as [_ Hb].
    by destruct (IH b Ha Hb Heq) as [-> ->].
Qed.
(** ... and so can a zero-free suffix. *)
Lemma frame_inj_r (a b r r' : bytes) :
  nul_free a → nul_free b → r ++ SEP :: a = r' ++ SEP :: b → r = r' ∧ a = b.
Proof.
  intros Ha Hb Heq. apply (f_equal reverse) in Heq.
  rw !reverse_app !reverse_cons -!(assoc_L (++)) /= in Heq.
  apply frame_inj in Heq as [H1 H2]; [|rw /nul_free elem_of_reverse //..].
  by apply (inj reverse) in H1, H2.
Qed.

(** ** Sorting *)
(** [sort_by key l] is [l.sort_by(|a, b| key(a).cmp(key(b)))]: a stable sort
    in UTF-8 byte order of the keys. *)
Section sort_by.
Context {A : Type} (key : A → string).

Fixpoint insert_by (x : A) (l : list A) : list A :=
  match l with
  | [] => [x]
  | y :: l => if String.leb (key x) (key y) then x :: y :: l
              else y :: insert_by x l
  end.
Definition sort_by : list A → list A := foldr insert_by [].

Definition key_le (x y : A) : Prop := String.le (key x) (key y).

Lemma insert_by_perm x l : insert_by x l ≡ₚ x :: l.
Proof.
  induction l as [|y l IH]; simpl; [done|]. destruct (String.leb _ _); [done|].
  rw IH. apply Permutation_swap.
Qed.
Lemma sort_by_perm l : sort_by l ≡ₚ l.
Proof. induction l as [|x l IH]; simpl; [done|]. by rw insert_by_perm IH. Qed.
Lemma elem_of_sort_by x l : x ∈ sort_by l ↔ x ∈ l.
Proof. by rw sort_by_perm. Qed.

Lemma insert_by_sorted x l :
  StronglySorted key_le l → StronglySorted key_le (insert_by x l).
Proof.
  induction l as [|y l IH]; simpl; intros Hs; [by repeat constructor|].
  apply StronglySorted_cons in Hs as [Hy Hs].
  destruct (String.leb (key x) (key y)) eqn:Hle.
  - apply StronglySorted_cons; split; [|by apply StronglySorted_cons].
    assert (key_le x y) as Hxy by (rw /key_le /String.le; by rw Hle).
    constructor; [done|]. eapply Forall_impl; [done|].
    intros z Hz. rw /key_le in Hz Hxy |- *. by etrans.
  - apply StronglySorted_cons; split; [|by apply IH].
    rw insert_by_perm. constructor; [|done].
    rw /key_le. destruct (total String.le (key x) (key y)) as [H|H]; [|done].
    rw /String.le Hle in H. done.
Qed.
Lemma sort_by_sorted l : StronglySorted key_le (sort_by l).
Proof. induction l; simpl; [constructor|by apply insert_by_sorted]. Qed.

(** With distinct keys the sorted order is canonical. *)
Lemma sort_by_canonical l1 l2 :
  NoDup (key <$> l1) → l1 ≡ₚ l2 → sort_by l1 = sort_by l2.
Proof.
  intros Hnd Hperm. eapply StronglySorted_unique_strong; [|apply sort_by_sorted..|].
  - intros x1 x2 Hx1 Hx2 H1 H2. rw elem_of_sort_by in Hx1.
    rw elem_of_sort_by -Hperm in Hx2.
    assert (key x1 = key x2) as Hk by (by apply (anti_symm String.le)).
    apply list_elem_of_lookup in Hx1 as [i Hi]. apply list_elem_of_lookup in Hx2 as [j Hj].
    assert (i = j) as ->; [|by simplify_eq].
    eapply NoDup_lookup; [done| |]; rw list_lookup_fmap ?Hi ?Hj //=. by rw Hk.
  - by rw !sort_by_perm.
Qed.
End sort_by.

(** [v.sort()] on a [Vec<String>]. *)
Definition sort_strings (l : list string) : list string := sort_by id l.
Lemma insert_by_head {A} (key : A → string) x l :
  Forall (key_le key x) l → insert_by key x l = x :: l.
Proof. destruct 1 as [|y l Hy _]; simpl; [done|]. rw /key_le /String.le in Hy. by destruct (String.leb _ _). Qed.
Lemma sort_by_idem {A} (key : A → string) l : sort_by key (sort_by key l) = sort_by key l.
Proof.
  pose proof (sort_by_sorted key l) as Hs. revert Hs. generalize (sort_by key l). clear l.
  induction 1 as [|x l Hl IH Hx]; simpl; [done|]. fold (sort_by key l). rw IH. by apply insert_by_head.
Qed.
Lemma sort_strings_idem l : sort_strings (sort_strings l) = sort_strings l.
Proof. apply sort_by_idem. Qed.

(** ** Maps *)
(** Iterating a [BTreeMap<String, _>]: ascending byte order of the keys. *)
Definition btree_iter {A} (m : gmap string A) : list (string * A) :=
  sort_by fst (map_to_list m).

Lemma btree_iter_perm {A} (m : gmap string A) : btree_iter m ≡ₚ map_to_list m.
Proof. apply sort_by_perm. Qed.
Lemma elem_of_btree_iter {A} (m : gmap string A) k x :
  (k, x) ∈ btree_iter m ↔ m !! k = Some x.
Proof. by rw btree_iter_perm elem_of_map_to_list. Qed.
Lemma btree_iter_nodup {A} (m : gmap string A) : NoDup (btree_iter m).*1.
Proof. rw btree_iter_perm. apply NoDup_fst_map_to_list. Qed.
Lemma btree_iter_inj {A} (m1 m2 : gmap string A) : btree_iter m1 = btree_iter m2 → m1 = m2.
Proof.
  intros Heq. apply map_to_list_inj. by rw -!btree_iter_perm Heq.
Qed.

Lemma sort_by_fmap {A B} (f : A → B) (ka : A → string) (kb : B → string) l :
  (∀ x, kb (f x) = ka x) → sort_by kb (f <$> l) = f <$> sort_by ka l.
Proof.
  intros Hk. rw /sort_by. induction l as [|x l IH]; simpl; [done|]. rw {}IH.
  generalize (foldr (insert_by ka) [] l). intros l'.
  induction l' as [|y l' IH]; simpl; [done|]. rw !Hk.
  destruct (String.leb _ _); simpl; by rw ?IH.
Qed.
Lemma btree_iter_fmap {A B} (f : A → B) (m : gmap string A) :
  btree_iter (f <$> m) = prod_map id f <$> btree_iter m.
Proof.
  rw /btree_iter -(sort_by_fmap (prod_map id f) fst fst); [|by intros []].
  by rw map_to_list_fmap.
Qed.

(** Iterating a [HashMap<String, _>] or a [HashSet<String>]: every entry
    once, in an order the program cannot rely on.  One instance is one order;
    the theorems hold for all of them. *)
Class HashOrder := {
  hm_iter : ∀ {A}, gmap string A → list (string * A);
  hm_iter_perm : ∀ {A} (m : gmap string A), hm_iter m ≡ₚ map_to_list m;
}.
Definition hs_iter `{HashOrder} (s : gset string) : list string :=
  (hm_iter (gset_to_gmap tt s)).*1.

(** The order a particular run happened to use, for examples. *)
Definition list_order : HashOrder :=
  {| hm_iter A m := map_to_list m; hm_iter_perm A m := Permutation_refl _ |}.

Section hash_order.
Context `{HashOrder}.
Lemma elem_of_hm_iter {A} (m : gmap string A) k x :
  (k, x) ∈ hm_iter m ↔ m !! k = Some x.
Proof. by rw hm_iter_perm elem_of_map_to_list. Qed.
Lemma hm_iter_nodup {A} (m : gmap string A) : NoDup (hm_iter m).*1.
Proof. rw hm_iter_perm. apply NoDup_fst_map_to_list. Qed.
Lemma elem_of_hs_iter s x : x ∈ hs_iter s ↔ x ∈ s.
Proof.
  rw /hs_iter list_elem_of_fmap. split.
  - intros [[k []] [-> Hk]]. apply elem_of_hm_iter, lookup_gset_to_gmap_Some in Hk. by destruct Hk.
  - intros Hx. exists (x, tt); split; [done|]. apply elem_of_hm_iter.
    by apply lookup_gset_to_gmap_Some.
Qed.
End hash_order.

(** [m.values().any(f)] and the like do not depend on the order. *)
Definition map_any {K A} `{Countable K} (f : A → bool) (m : gmap K A) : bool :=
  existsb (λ kv, f kv.2) (map_to_list m).
Lemma map_any_true {K A} `{Countable K} (f : A → bool) (m : gmap K A) :
  map_any f m = true ↔ ∃ k x, m !! k = Some x ∧ f x = true.
Proof.
  rw /map_any existsb_exists. split.
  - intros [[k x] [Hin Hf]]. exists k, x. split; [|done].
    apply elem_of_map_to_list. by apply list_elem_of_In.
  - intros (k & x & Hkx & Hf). exists (k, x). split; [|done].
    apply list_elem_of_In. by apply elem_of_map_to_list.
Qed.
Lemma map_any_false {K A} `{Countable K} (f : A → bool) (m : gmap K A) :
  map_any f m = false ↔ ∀ k x, m !! k = Some x → f x = false.
Proof.
  rw -not_true_iff_false map_any_true. split.
  - intros Hn k x Hkx. apply not_true_iff_false. intros Hf. apply Hn. eauto.
  - intros Hall (k & x & Hkx & Hf). rw (Hall _ _ Hkx) in Hf. done.
Qed.

Lemma size_insert_le {K A} `{Countable K} (m : gmap K A) k x :
  (size (<[k := x]> m) ≤ S (size m))%nat.
Proof. rw map_size_insert. destruct (m !! k); simpl; lia. Qed.

Lemma filter_true {A} (P : A → Prop) `{!∀ x, Decision (P x)} l : Forall P l → filter P l = l.
Proof. induction 1 as [|x l Hx _ IH]; [done|]. by rw filter_cons_True // IH. Qed.
Lemma filter_false {A} (P : A → Prop) `{!∀ x, Decision (P x)} l :
  Forall (λ x, ¬ P x) l → filter P l = [].
Proof. induction 1 as [|x l Hx _ IH]; [done|]. by rw filter_cons_False. Qed.
Lemma nodup_fmap_filter {A B} (f : A → B) (P : A → Prop) `{∀ x, Decision (P x)} l :
  NoDup (f <$> l) → NoDup (f <$> filter P l).
Proof.
  induction l as [|x l IH]; simpl; [done|]. intros [Hx Hnd]%NoDup_cons.
  rw filter_cons. case_decide; simpl; [|by apply IH]. apply NoDup_cons. split; [|by apply IH].
  rw !list_elem_of_fmap in Hx |- *. intros (y & Hy & Hin). apply Hx. exists y.
  by apply list_elem_of_filter in Hin as [_ Hin].
Qed.

(** ** Loops *)
Section loops.
Context {E A : Type}.
(** A check that only rejects: the loop accepts iff every step does. *)
Lemma for_each_check (f : A → outcome E unit) l :
  for_each (λ _, f) tt l = Ok tt ↔ Forall (λ x, f x = Ok tt) l.
Proof.
  induction l as [|x l IH]; simpl; [by split|].
  rw Forall_cons -IH. destruct (f x) as [[]| |] eqn:Hf; naive_solver.
Qed.
Lemma for_each_app {B} (f : B → A → outcome E B) b l1 l2 :
  for_each f b (l1 ++ l2) = (b' ← for_each f b l1; for_each f b' l2).
Proof.
  revert b. induction l1 as [|x l1 IH]; intros b; simpl; [done|].
  destruct (f b x); simpl; [apply IH|done..].
Qed.
Lemma for_each_inv {B} (I : B → Prop) (f : B → A → outcome E B) l b b' :
  (∀ b x b', x ∈ l → I b → f b x = Ok b' → I b') → I b → for_each f b l = Ok b' → I b'.
Proof.
  revert b. induction l as [|x l IH]; intros b Hstep Hb; simpl; [by intros [= <-]|].
  destruct (f b x) as [b1| |] eqn:Hf; simpl; [|done..].
  apply IH; [|eapply Hstep; [left|done..]].
  intros. eapply Hstep; [by right|done..].
Qed.
End loops.

(** Inverting a successful bind in the outcome monad. *)
Lemma bind_ok {E A B} (m : outcome E A) (k : A → outcome E B) b :
  (m ≫= k) = Ok b ↔ ∃ a, m = Ok a ∧ k a = Ok b.
Proof. destruct m; naive_solver. Qed.
Lemma mret_ok {E A} (a b : A) : (mret a : outcome E A) = Ok b → a = b.
Proof. by intros [= ->]. Qed.
Lemma err_if_ok {E} (b : bool) (e : E) u : err_if b e = Ok u ↔ b = false.
Proof. destruct b, u; naive_solver. Qed.
Lemma ok_or_ok {E A} (e : E) (o : option A) a : ok_or e o = Ok a ↔ o = Some a.
Proof. destruct o; naive_solver. Qed.
Lemma unwrap_ok {E A} (o : option A) a : unwrap (E:=E) o = Ok a ↔ o = Some a.
Proof. destruct o; naive_solver. Qed.

(** *** Calls that do not panic *)
Lemma bind_no_panic {E A B} (m : outcome E A) (k : A → outcome E B) :
  m ≠ Panic → (∀ a, m = Ok a → k a ≠ Panic) → (m ≫= k) ≠ Panic.
Proof. destruct m; simpl; auto. Qed.
Lemma err_if_no_panic {E} (b : bool) (e : E) : err_if b e ≠ Panic.
Proof. by destruct b. Qed.
Lemma ok_or_no_panic {E A} (e : E) (o : option A) : ok_or e o ≠ Panic.
Proof. by destruct o. Qed.
Lemma unwrap_no_panic {E A} (o : option A) : is_Some o → unwrap (E:=E) o ≠ Panic.
Proof. by intros [x ->]. Qed.
Lemma for_each_no_panic {E A B} (f : B → A → outcome E B) b l :
  (∀ b x, x ∈ l → f b x ≠ Panic) → for_each f b l ≠ Panic.
Proof.
  revert b. induction l as [|x l IH]; intros b Hf; simpl; [done|].
  apply bind_no_panic; [apply Hf; left|]. intros b' _. apply IH. intros. apply Hf. by right.
Qed.
Create HintDb no_panic.
#[export] Hint Resolve err_if_no_panic ok_or_no_panic : no_panic.

Lemma str_eqb_true s t : str_eqb s t = true ↔ s = t.
Proof. apply bool_decide_eq_true. Qed.
Lemma str_eqb_false s t : str_eqb s t = false ↔ s ≠ t.
Proof. apply bool_decide_eq_false. Qed.
Lemma str_is_empty_true s : str_is_empty s = true ↔ s = "".
Proof. apply bool_decide_eq_true. Qed.
Lemma str_is_empty_false s : str_is_empty s = false ↔ s ≠ "".
Proof. apply bool_decide_eq_false. Qed.

(** Rewriting with these turns what a guard computed into what it says. *)
Create Rewrite HintDb guards.
#[export] Hint Rewrite @bind_ok @err_if_ok @ok_or_ok @unwrap_ok str_eqb_true str_eqb_false
  str_is_empty_true str_is_empty_false andb_true_iff andb_false_iff orb_true_iff
  orb_false_iff negb_true_iff negb_false_iff bool_decide_eq_true bool_decide_eq_false : guards.

(** [inv_oks]: invert every successful chain of binds and guards in the
    context. *)
Ltac inv_ok_step :=
  match goal with
  | H : (_ ≫= _) = Ok _ |- _ => apply bind_ok in H as (? & ? & ?)
  | H : err_if _ _ = Ok _ |- _ => apply err_if_ok in H
  | H : ok_or _ _ = Ok _ |- _ => apply ok_or_ok in H
  | H : unwrap _ = Ok _ |- _ => apply unwrap_ok in H
  | H : mret _ = Ok _ |- _ => apply mret_ok in H; try subst
  | H : Ok _ = Ok _ |- _ => injection H as H; try subst
  | H : str_eqb _ _ = true |- _ => apply str_eqb_true in H
  | H : str_eqb _ _ = false |- _ => apply str_eqb_false in H
  | H : str_is_empty _ = true |- _ => apply str_is_empty_true in H
  | H : str_is_empty _ = false |- _ => apply str_is_empty_false in H
  | H : (_ && _)%bool = true |- _ => apply andb_true_iff in H as [? ?]
  | H : (_ || _)%bool = false |- _ => apply orb_false_iff in H as [? ?]
  | H : negb _ = true |- _ => apply negb_true_iff in H
  | H : negb _ = false |- _ => apply negb_false_iff in H
  | u : unit |- _ => destruct u
  end.
Ltac inv_oks := repeat inv_ok_step; simplify_eq/=.
