(* ===== verification/Wire.v ===== *)
(** * Wire: the message types of [substrate.proto]

    The records are the proto3 messages as the generated Rust structs hold
    them: an enum field is the raw [i32] (a [Z]), a [map<>] is a [gmap], a
    sub-message is an [option], [uint64]/[int64]/[uint32] are [Z] at their
    width.  [X_i32] is [X as i32], [X_try_from] is [X::try_from(i32)].  What is
    generated or third party (the protobuf encoder, SHA-256, the [{:?}]
    rendering of a string) is the class [Platform]. *)
From S2P Require Import Prelude.
Local Open Scope Z_scope.

(** ** Enums *)
Inductive Lifecycle := LcUnspecified | LcRegistered | LcLoaded | LcActive | LcDeactivated.
Inductive Firing := FiUnspecified | FiOnce | FiAlways | FiOncePerKey.
Inductive Closure := ClUnspecified | ClFirstTerminal | ClOpen.
Inductive RunState := RsUnspecified | RsRunning | RsCompleted | RsStalled | RsFailed | RsCancelled.
Inductive BlobIngestMode := BimUnspecified | BimCopyVerify.
Inductive StoreDurability := SdUnspecified | SdEphemeral | SdDurable.
Inductive ErrorCode := EcUnspecified | EcNotFound | EcInvalid | EcConflict
  | EcFailedPrecondition | EcResourceExhausted | EcBlobIntegrity.

#[export] Instance Lifecycle_eq_dec : EqDecision Lifecycle.
Proof. solve_decision. Defined.
#[export] Instance Firing_eq_dec : EqDecision Firing.
Proof. solve_decision. Defined.
#[export] Instance Closure_eq_dec : EqDecision Closure.
Proof. solve_decision. Defined.
#[export] Instance RunState_eq_dec : EqDecision RunState.
Proof. solve_decision. Defined.
#[export] Instance BlobIngestMode_eq_dec : EqDecision BlobIngestMode.
Proof. solve_decision. Defined.
#[export] Instance StoreDurability_eq_dec : EqDecision StoreDurability.
Proof. solve_decision. Defined.

Definition Lifecycle_i32 (l : Lifecycle) : Z :=
  match l with LcUnspecified => 0 | LcRegistered => 1 | LcLoaded => 2 | LcActive => 3
             | LcDeactivated => 4 end.
Definition Lifecycle_try_from (z : Z) : option Lifecycle :=
  match z with 0 => Some LcUnspecified | 1 => Some LcRegistered | 2 => Some LcLoaded
             | 3 => Some LcActive | 4 => Some LcDeactivated | _ => None end.
Definition Firing_i32 (f : Firing) : Z :=
  match f with FiUnspecified => 0 | FiOnce => 1 | FiAlways => 2 | FiOncePerKey => 3 end.
Definition Firing_try_from (z : Z) : option Firing :=
  match z with 0 => Some FiUnspecified | 1 => Some FiOnce | 2 => Some FiAlways
             | 3 => Some FiOncePerKey | _ => None end.
Definition Closure_i32 (c : Closure) : Z :=
  match c with ClUnspecified => 0 | ClFirstTerminal => 1 | ClOpen => 2 end.
Definition Closure_try_from (z : Z) : option Closure :=
  match z with 0 => Some ClUnspecified | 1 => Some ClFirstTerminal | 2 => Some ClOpen
             | _ => None end.
Definition RunState_i32 (r : RunState) : Z :=
  match r with RsUnspecified => 0 | RsRunning => 1 | RsCompleted => 2 | RsStalled => 3
             | RsFailed => 4 | RsCancelled => 5 end.
Definition RunState_try_from (z : Z) : option RunState :=
  match z with 0 => Some RsUnspecified | 1 => Some RsRunning | 2 => Some RsCompleted
             | 3 => Some RsStalled | 4 => Some RsFailed | 5 => Some RsCancelled
             | _ => None end.
Definition BlobIngestMode_i32 (m : BlobIngestMode) : Z :=
  match m with BimUnspecified => 0 | BimCopyVerify => 1 end.
Definition BlobIngestMode_try_from (z : Z) : option BlobIngestMode :=
  match z with 0 => Some BimUnspecified | 1 => Some BimCopyVerify | _ => None end.
Definition StoreDurability_i32 (d : StoreDurability) : Z :=
  match d with SdUnspecified => 0 | SdEphemeral => 1 | SdDurable => 2 end.
Definition StoreDurability_try_from (z : Z) : option StoreDurability :=
  match z with 0 => Some SdUnspecified | 1 => Some SdEphemeral | 2 => Some SdDurable
             | _ => None end.
Definition ErrorCode_i32 (c : ErrorCode) : Z :=
  match c with EcUnspecified => 0 | EcNotFound => 1 | EcInvalid => 2 | EcConflict => 3
             | EcFailedPrecondition => 4 | EcResourceExhausted => 5 | EcBlobIntegrity => 6 end.

(** [{state:?}] of the derived [Debug]. *)
Definition RunState_debug (r : RunState) : string :=
  match r with RsUnspecified => "Unspecified" | RsRunning => "Running"
             | RsCompleted => "Completed" | RsStalled => "Stalled" | RsFailed => "Failed"
             | RsCancelled => "Cancelled" end.

Lemma Lifecycle_try_from_i32 l : Lifecycle_try_from (Lifecycle_i32 l) = Some l.
Proof. by destruct l. Qed.
Lemma RunState_try_from_i32 r : RunState_try_from (RunState_i32 r) = Some r.
Proof. by destruct r. Qed.
Lemma Firing_try_from_i32 f : Firing_try_from (Firing_i32 f) = Some f.
Proof. by destruct f. Qed.

(** ** 1. Module *)
Record Port := mkPort {
  port_name : string; port_multiple : bool; port_optional : bool; port_key : bool;
  port_traits : list string }.
Record Capability := mkCapability {
  cap_name : string; cap_inputs : list Port; cap_outputs : list Port; cap_firing : Z }.
Record ModuleManifest := mkManifest {
  mm_name : string; mm_version : string; mm_provides : list Capability;
  mm_requires : list string }.

(** ** 2. Artifact and blob store *)
Record BlobRef := mkBlobRef { br_digest : string; br_byte_count : Z; br_namespace : string }.
Record ObjectRef := mkObjectRef { or_digest : string; or_byte_count : Z; or_namespace : string }.
Record Trait := mkTrait { tr_body : bytes; tr_object : option ObjectRef }.
Record Artifact := mkArtifact {
  art_id : string; art_meta : gmap string string; art_produced_by : string;
  art_traits : gmap string Trait; art_entity_id : string; art_supersedes : string }.
Record ArtifactRef := mkArtifactRef { ar_id : string }.
Record ArtifactStorePolicy := mkStorePolicy {
  sp_max_inline_bytes : Z; sp_max_blob_bytes : Z; sp_ingest_mode : Z; sp_durability : Z }.
Record PutBlobRequest := mkPutBlob { pb_namespace : string; pb_data : bytes }.
Record GetBlobRequest := mkGetBlob { gb_digest : string; gb_namespace : string }.
Record BlobData := mkBlobData {
  bd_digest : string; bd_byte_count : Z; bd_namespace : string; bd_data : bytes }.
Record HasBlobRequest := mkHasBlob { hb_digest : string; hb_namespace : string }.
Record HasBlobResponse := mkHasBlobResp { hbr_exists : bool; hbr_byte_count : Z }.

(** ** 3. Contract *)
Record Contract := mkContract {
  con_ref : string; con_schema : string; con_media_type : string; con_version : string;
  con_digest : string; con_compatible_with : list string }.

(** ** 4. Event *)
Record Event := mkEvent {
  ev_id : string; ev_topic : string; ev_type : string; ev_source : string; ev_seq : Z;
  ev_run_id : string; ev_artifacts : list ArtifactRef }.
Record Subscription := mkSubscription { sub_module : string; sub_topics : list string }.
Record PublishAck := mkPublishAck { pa_seq : Z }.

(** ** 5. Ledger *)
Record LedgerEntry := mkEntry {
  le_seq : Z; le_kind : string; le_subject : string; le_detail : bytes;
  le_prev_hash : string; le_hash : string }.
Record AppendRequest := mkAppend { ap_kind : string; ap_subject : string; ap_detail : bytes }.

(** ** 6. Registry *)
Record RegistrySnapshot := mkSnapshot {
  snap_modules : list ModuleManifest; snap_capabilities : list Capability;
  snap_contracts : list Contract; snap_store_policy : option ArtifactStorePolicy }.
Record RegisterAck := mkRegisterAck { ra_state : Z }.
Record TransitionRequest := mkTransition { treq_module : string; treq_to : Z }.
Record TransitionAck := mkTransitionAck { ta_state : Z }.

(** ** 7. Run *)
Record NamedArtifact := mkNamed { na_name : string; na_artifact : option ArtifactRef }.
Record AssemblyNode := mkNode {
  an_id : string; an_module : string; an_module_version : string; an_capability : string }.
Record Binding := mkBinding {
  b_to_node : string; b_to_port : string; b_from_node : string; b_from_port : string;
  b_input : string }.
Record NodeOutput := mkNodeOutput { no_node : string; no_port : string }.
Record Limits := mkLimits {
  lim_max_steps : Z; lim_max_in_flight : Z; lim_default_lease_ms : Z; lim_max_attempts : Z }.
Record ExecutionPolicy := mkPolicy {
  ep_default : Z; ep_by_node : gmap string Z; ep_closure : Z }.
Record Assembly := mkAssembly {
  as_id : string; as_nodes : list AssemblyNode; as_bindings : list Binding;
  as_terminal : option NodeOutput }.
Record RunRequest := mkRunRequest {
  rr_id : string; rr_assembly : option Assembly; rr_inputs : list NamedArtifact;
  rr_limits : option Limits; rr_include_nodes : list string;
  rr_policy : option ExecutionPolicy }.
Record Run := mkRun {
  run_id : string; run_assembly : option Assembly; run_inputs : list NamedArtifact;
  run_state_i32 : Z; run_answer : option ArtifactRef; run_steps : Z; run_max_steps : Z;
  run_reason : string; run_policy : option ExecutionPolicy }.
Record RunRef := mkRunRef { rref_id : string }.
Record InjectInputRequest := mkInject { ii_run_id : string; ii_input : option NamedArtifact }.
Record ClaimRequest := mkClaim {
  cr_run_id : string; cr_module : string; cr_node_ids : list string; cr_max_items : Z;
  cr_modules : list string }.
Record WorkItem := mkWorkItem {
  wi_id : string; wi_run_id : string; wi_node_id : string; wi_module : string;
  wi_module_version : string; wi_capability : string; wi_inputs : list NamedArtifact;
  wi_unit_key : string; wi_attempt : Z; wi_lease_until_unix_ms : Z }.
Record ClaimResponse := mkClaimResponse { cresp_items : list WorkItem }.
Record HeartbeatRequest := mkHeartbeat {
  hr_run_id : string; hr_work_ids : list string; hr_extend_lease_ms : Z }.
Record HeartbeatResponse := mkHeartbeatResponse {
  hresp_renewed : list string; hresp_lost : list string }.
Record FailWorkRequest := mkFailWork {
  fw_run_id : string; fw_work_id : string; fw_reason : string; fw_terminal : bool }.
Record WorkFailure := mkWorkFailure {
  wf_run_id : string; wf_work_id : string; wf_unit_key : string; wf_reason : string;
  wf_terminal : bool; wf_attempt : Z }.
Record Derivation := mkDerivation {
  d_id : string; d_run_id : string; d_work_id : string; d_node_id : string;
  d_module : string; d_module_version : string; d_capability : string;
  d_inputs : list NamedArtifact; d_outputs : list NamedArtifact }.
Record DerivationList := mkDerivationList { dl_derivations : list Derivation }.

(** ** Envelope *)
Record RequestContext := mkContext {
  ctx_caller : string; ctx_request_key : string; ctx_deadline_unix_ms : Z;
  ctx_correlation_id : string }.
Definition default_context : RequestContext := mkContext "" "" 0 "".
Record Error := mkError {
  err_code : Z; err_message : string; err_retryable : bool; err_conflict_subject : string;
  err_failed_precondition : string }.

(** [r.state()], [c.firing()], [p.default()], [p.closure()]: the generated
    getters answer the zero variant for an unknown wire value. *)
Definition run_state (r : Run) : RunState := default RsUnspecified (RunState_try_from (run_state_i32 r)).
Definition cap_firing_enum (c : Capability) : Firing := default FiUnspecified (Firing_try_from (cap_firing c)).
Definition ep_default_enum (p : ExecutionPolicy) : Firing := default FiUnspecified (Firing_try_from (ep_default p)).
Definition ep_closure_enum (p : ExecutionPolicy) : Closure := default ClUnspecified (Closure_try_from (ep_closure p)).

(** Field updates of a [Run]. *)
Definition run_with_state (st : RunState) (r : Run) : Run :=
  mkRun (run_id r) (run_assembly r) (run_inputs r) (RunState_i32 st) (run_answer r) (run_steps r)
    (run_max_steps r) (run_reason r) (run_policy r).
Definition run_with_reason (reason : string) (r : Run) : Run :=
  mkRun (run_id r) (run_assembly r) (run_inputs r) (run_state_i32 r) (run_answer r) (run_steps r)
    (run_max_steps r) reason (run_policy r).
Definition run_with_inputs (inputs : list NamedArtifact) (r : Run) : Run :=
  mkRun (run_id r) (run_assembly r) inputs (run_state_i32 r) (run_answer r) (run_steps r)
    (run_max_steps r) (run_reason r) (run_policy r).
Definition run_with_answer (a : option ArtifactRef) (r : Run) : Run :=
  mkRun (run_id r) (run_assembly r) (run_inputs r) (run_state_i32 r) a (run_steps r)
    (run_max_steps r) (run_reason r) (run_policy r).
Definition run_with_steps (n : Z) (r : Run) : Run :=
  mkRun (run_id r) (run_assembly r) (run_inputs r) (run_state_i32 r) (run_answer r) n
    (run_max_steps r) (run_reason r) (run_policy r).

Lemma run_state_with_state st r : run_state (run_with_state st r) = st.
Proof. by destruct st. Qed.
Lemma run_state_with_reason reason r : run_state (run_with_reason reason r) = run_state r.
Proof. done. Qed.

(** ** What is not source code of this repository *)
Class Platform := {
  (** crate [sha2]: one digest of 32 bytes per message *)
  sha256 : bytes → bytes;
  sha256_length : ∀ m, length (sha256 m) = 32%nat;
  (** [{:?}] of a string, used in messages for humans *)
  debug_str : string → string;
  (** [encode_to_vec] of the generated types *)
  encode_ModuleManifest : ModuleManifest → bytes;
  encode_Artifact : Artifact → bytes;
  encode_BlobRef : BlobRef → bytes;
  encode_Contract : Contract → bytes;
  encode_Event : Event → bytes;
  encode_Run : Run → bytes;
  encode_NamedArtifact : NamedArtifact → bytes;
  encode_WorkItem : WorkItem → bytes;
  encode_WorkFailure : WorkFailure → bytes;
  encode_Derivation : Derivation → bytes;
}.

(** A concrete platform, for evaluating the model on examples: a checksum in
    place of SHA-256 and empty encodings. *)
Definition sum_digest (m : bytes) : bytes :=
  replicate 24 SEP ++
  u64_be (u64 (foldl (λ acc b, acc * 131 + Z_of_byte b + 1) 7 m)).
Lemma sum_digest_length m : length (sum_digest m) = 32%nat.
Proof. done. Qed.
Definition sum_platform : Platform := {|
  sha256 := sum_digest; sha256_length := sum_digest_length; debug_str s := s;
  encode_ModuleManifest _ := []; encode_Artifact _ := []; encode_BlobRef _ := [];
  encode_Contract _ := []; encode_Event _ := []; encode_Run _ := [];
  encode_NamedArtifact _ := []; encode_WorkItem _ := []; encode_WorkFailure _ := [];
  encode_Derivation _ := [] |}.
