(* ===== verification/Errors.v ===== *)
(** * Errors: [KernelError] and its portable form

    Every failure of the ABI, its message, its [ErrorCode] and the [Error]
    message a caller sees across the wire. *)
From S2P Require Import Prelude Wire.

Inductive KernelError :=
  | NotFound (id : string)
  | Invalid (reason : string)
  | Conflict (reason : string)
  | RunClosed (state : RunState)
  | FailedPrecondition (reason : string)
  | BlobIntegrity (reason : string)
  | ResourceExhausted (reason : string).

#[export] Instance KernelError_eq_dec : EqDecision KernelError.
Proof. solve_decision. Defined.

(** [Result<T>] of the kernel, and a method body under the lock. *)
Abbreviation Result := (outcome KernelError).

(** [impl Display] *)
Definition KernelError_display (e : KernelError) : string :=
  match e with
  | NotFound id => "not found: " +:+ id
  | Invalid reason => "invalid: " +:+ reason
  | Conflict reason => "conflict: " +:+ reason
  | RunClosed state => "run is closed: " +:+ RunState_debug state
  | FailedPrecondition reason => "failed precondition: " +:+ reason
  | BlobIntegrity reason => "blob integrity: " +:+ reason
  | ResourceExhausted reason => "resource exhausted: " +:+ reason
  end.

Definition code (e : KernelError) : ErrorCode :=
  match e with
  | NotFound _ => EcNotFound
  | Invalid _ => EcInvalid
  | Conflict _ => EcConflict
  | RunClosed _ | FailedPrecondition _ => EcFailedPrecondition
  | BlobIntegrity _ => EcBlobIntegrity
  | ResourceExhausted _ => EcResourceExhausted
  end.

Definition retryable (e : KernelError) : bool := false.

Definition to_proto (e : KernelError) : Error :=
  let base := mkError (ErrorCode_i32 (code e)) (KernelError_display e) (retryable e) "" "" in
  match e with
  | Conflict subject =>
      mkError (err_code base) (err_message base) (err_retryable base) subject ""
  | RunClosed state =>
      mkError (err_code base) (err_message base) (err_retryable base) ""
        ("run closed: " +:+ RunState_debug state)
  | FailedPrecondition reason | BlobIntegrity reason =>
      mkError (err_code base) (err_message base) (err_retryable base) "" reason
  | _ => base
  end.

(** Taking a message apart: the portable [Error] of two failures agrees only
    when the failures do, so nothing is lost across the wire. *)
Lemma RunState_debug_inj s t : RunState_debug s = RunState_debug t → s = t.
Proof. by destruct s, t. Qed.
Lemma to_proto_inj e1 e2 : to_proto e1 = to_proto e2 → e1 = e2.
Proof.
  destruct e1, e2; simpl; intros Heq; simplify_eq/=; try done.
  f_equal. by apply RunState_debug_inj.
Qed.
Lemma code_specified e : code e ≠ EcUnspecified.
Proof. by destruct e. Qed.

(** The only code shared by two constructors is [FAILED_PRECONDITION]; the
    precondition text tells them apart. *)
Theorem error_portable e1 e2 :
  (code e1 ≠ EcUnspecified ∧ err_code (to_proto e1) = ErrorCode_i32 (code e1)) ∧
  (to_proto e1 = to_proto e2 ↔ e1 = e2).
Proof.
  split; [split; [apply code_specified|by destruct e1]|].
  split; [apply to_proto_inj|by intros ->].
Qed.
