(* ===== verification/Hash.v ===== *)
(** * Hash: content addressing and the ledger hash chain

    The byte strings the kernel hashes (blobs, trait bags, contracts, ledger
    entries), the ids made of the digests, and [verify_chain].  The theorems
    say when the zero-separated encodings can be read back, hence what the
    digests pin down, and what they do not. *)
From S2P Require Import Prelude Wire.
From Stdlib Require Import Strings.Ascii Strings.Byte NArith.
Local Open Scope Z_scope.

(** ** Hexadecimal digests *)
Definition hex_table : list ascii := String.list_ascii_of_string "0123456789abcdef".
Definition hex_digit (n : N) : ascii := nth (N.to_nat n) hex_table zero.
Fixpoint hex (bs : bytes) : string :=
  match bs with
  | [] => ""
  | b :: bs =>
      String (hex_digit (N.shiftr (Byte.to_N b) 4))
        (String (hex_digit (N.land (Byte.to_N b) 15)) (hex bs))
  end.
Definition is_hex_char (c : ascii) : bool :=
  (Ascii.leb "0" c && Ascii.leb c "9") || (Ascii.leb "a" c && Ascii.leb c "f").
Definition is_sha256_digest (d : string) : bool :=
  bool_decide (String.length d = 71%nat) && starts_with "sha256:" d &&
  forallb is_hex_char (String.list_ascii_of_string (String.substring 7 (String.length d - 7) d)).

(** All 256 bytes, to settle facts about a byte by evaluation. *)
Definition all_bytes : bytes := (λ n, byte_of_Z (Z.of_nat n)) <$> seq 0 256.
Lemma elem_of_all_bytes b : b ∈ all_bytes.
Proof.
  apply list_elem_of_fmap. exists (N.to_nat (Byte.to_N b)). pose proof (Byte.to_N_bounded b).
  split; [|apply elem_of_seq; lia].
  rw N_nat_Z /byte_of_Z Z.mod_small; [|lia]. by rw N2Z.id Byte.of_to_N.
Qed.
Lemma byte_forall (f : byte → bool) : forallb f all_bytes = true → ∀ b, f b = true.
Proof. intros Hf b. rw forallb_forall in Hf. apply Hf, list_elem_of_In, elem_of_all_bytes. Qed.

Lemma hex_char_ok b :
  is_hex_char (hex_digit (N.shiftr (Byte.to_N b) 4)) = true ∧
  is_hex_char (hex_digit (N.land (Byte.to_N b) 15)) = true.
Proof.
  apply andb_true_iff.
  refine (byte_forall (λ b, is_hex_char (hex_digit (N.shiftr (Byte.to_N b) 4)) &&
    is_hex_char (hex_digit (N.land (Byte.to_N b) 15))) _ b).
  by vm_compute.
Qed.
(** A byte is recovered from its two digits. *)
Definition unhex_digit (c : ascii) : N :=
  let n := N_of_ascii c in if (n <? 58)%N then (n - 48)%N else (n - 87)%N.
Lemma unhex_byte b :
  (unhex_digit (hex_digit (N.shiftr (Byte.to_N b) 4)) * 16 +
   unhex_digit (hex_digit (N.land (Byte.to_N b) 15)))%N = Byte.to_N b.
Proof.
  apply N.eqb_eq.
  refine (byte_forall (λ b, N.eqb (unhex_digit (hex_digit (N.shiftr (Byte.to_N b) 4)) * 16 +
   unhex_digit (hex_digit (N.land (Byte.to_N b) 15)))%N (Byte.to_N b)) _ b).
  by vm_compute.
Qed.
Lemma byte_to_N_inj b c : Byte.to_N b = Byte.to_N c → b = c.
Proof.
  intros Heq. pose proof (Byte.of_to_N b) as Hb. pose proof (Byte.of_to_N c) as Hc.
  rw Heq in Hb. by simplify_eq.
Qed.
Lemma hex_inj x y : hex x = hex y → x = y.
Proof.
  revert y. induction x as [|b x IH]; intros [|c y]; simpl; try done.
  intros [= Hhi Hlo Hxy]. f_equal; [|by apply IH].
  apply byte_to_N_inj. by rw -(unhex_byte b) -(unhex_byte c) Hhi Hlo.
Qed.
Lemma hex_length x : String.length (hex x) = (2 * length x)%nat.
Proof. induction x; simpl; lia. Qed.
Lemma hex_chars x : forallb is_hex_char (String.list_ascii_of_string (hex x)) = true.
Proof.
  induction x as [|b x IH]; simpl; [done|].
  destruct (hex_char_ok b) as [-> ->]. done.
Qed.

(** ** Strings as bytes *)
Lemma as_bytes_app s t : as_bytes (s +:+ t) = as_bytes s ++ as_bytes t.
Proof.
  rw /as_bytes /String.list_byte_of_string. induction s as [|c s IH]; simpl; [done|].
  by rw IH.
Qed.
Lemma as_bytes_elem c s : In c (String.list_ascii_of_string s) ↔ In (byte_of_ascii c) (as_bytes s).
Proof.
  rw /as_bytes /String.list_byte_of_string in_map_iff. split; [by eexists|].
  intros (c' & Heq & Hin). apply (f_equal ascii_of_byte) in Heq.
  by rw !ascii_of_byte_of_ascii in Heq; subst.
Qed.
Lemma hex_nul_free x : str_nul_free (hex x).
Proof.
  rw /str_nul_free /nul_free list_elem_of_In. intros Hin.
  change SEP with (byte_of_ascii zero) in Hin. apply as_bytes_elem in Hin.
  pose proof (hex_chars x) as Hx. rw forallb_forall in Hx. by apply Hx in Hin.
Qed.
Lemma prefixed_hex_nul_free x : str_nul_free ("sha256:" +:+ hex x).
Proof.
  rw /str_nul_free /nul_free as_bytes_app elem_of_app. intros [Hin|Hin].
  - vm_compute in Hin. repeat (apply elem_of_cons in Hin as [Hin|Hin]; [done|]).
    by apply elem_of_nil in Hin.
  - by apply (hex_nul_free x).
Qed.

Section hashing.
Context `{Platform}.

(** ** Addresses *)
Definition sha256_address (m : bytes) : string := "sha256:" +:+ hex (sha256 m).

Definition blob_id (data : bytes) : string := "sha256:" +:+ hex (sha256 data).

Definition object_ref_bytes (object : ObjectRef) : bytes :=
  as_bytes (or_digest object) ++ [SEP] ++ u64_be (or_byte_count object) ++ [SEP] ++
  as_bytes (or_namespace object).

Definition trait_has_external (tr : Trait) : bool :=
  match tr_object tr with Some o => negb (str_is_empty (or_digest o)) | None => false end.

Definition trait_content (tr : Trait) : bytes :=
  match tr_object tr with
  | Some obj => if negb (str_is_empty (or_digest obj)) then object_ref_bytes obj else tr_body tr
  | None => tr_body tr
  end.

Definition canonical_entry (kf : string * Trait) : bytes :=
  as_bytes kf.1 ++ [SEP] ++ trait_content kf.2 ++ [SEP].
Definition artifact_canonical_bytes (artifact : Artifact) : bytes :=
  concat (canonical_entry <$> btree_iter (art_traits artifact)).

Definition artifact_id_of (artifact : Artifact) : string :=
  "sha256:" +:+ hex (sha256 (artifact_canonical_bytes artifact)).

Definition contract_bytes (media_type schema version : string) (compatible_with : list string)
    : bytes :=
  as_bytes media_type ++ [SEP] ++ as_bytes schema ++ [SEP] ++ as_bytes version ++ [SEP] ++
  concat ((λ c, as_bytes c ++ [SEP]) <$> compatible_with).
Definition contract_digest (media_type schema version : string) (compatible_with : list string)
    : string :=
  "sha256:" +:+ hex (sha256 (contract_bytes media_type schema version compatible_with)).
Definition contract_digest_of (c : Contract) : string :=
  contract_digest (con_media_type c) (con_schema c) (con_version c)
    (sort_strings (con_compatible_with c)).
Definition is_contract_placeholder (c : Contract) : bool :=
  str_is_empty (con_media_type c) && str_is_empty (con_schema c) &&
  str_is_empty (con_version c) && list_is_empty (con_compatible_with c).

(** ** The ledger chain *)
Definition ledger_bytes (seq : Z) (kind subject : string) (detail : bytes) (prev_hash : string)
    : bytes :=
  u64_be seq ++ [SEP] ++ as_bytes kind ++ [SEP] ++ as_bytes subject ++ [SEP] ++ detail ++
  [SEP] ++ as_bytes prev_hash.
Definition ledger_hash (seq : Z) (kind subject : string) (detail : bytes) (prev_hash : string)
    : string :=
  hex (sha256 (ledger_bytes seq kind subject detail prev_hash)).

Fixpoint verify_from (i : Z) (prev : string) (entries : list LedgerEntry) : bool :=
  match entries with
  | [] => true
  | e :: entries =>
      if negb (Z.eqb (le_seq e) i) || negb (str_eqb (le_prev_hash e) prev) then false
      else
        let recomputed :=
          ledger_hash (le_seq e) (le_kind e) (le_subject e) (le_detail e) (le_prev_hash e) in
        if negb (str_eqb recomputed (le_hash e)) then false
        else verify_from (i + 1) (le_hash e) entries
  end.
Definition verify_chain (entries : list LedgerEntry) : bool := verify_from 0 "" entries.

(** ** Derivation ids *)
Definition named_bytes (v : NamedArtifact) : bytes :=
  as_bytes (na_name v) ++ [SEP] ++
  match na_artifact v with Some r => as_bytes (ar_id r) | None => [] end ++ [SEP].
Definition derivation_bytes (d : Derivation) : bytes :=
  concat ((λ value, as_bytes value ++ [SEP]) <$>
    [d_run_id d; d_work_id d; d_node_id d; d_module d; d_module_version d; d_capability d]) ++
  concat (named_bytes <$> d_inputs d ++ d_outputs d).
Definition derivation_id (d : Derivation) : string :=
  "sha256:" +:+ hex (sha256 (derivation_bytes d)).
End hashing.

(** ** What the encodings pin down *)

(** [collision_free ms]: the digest has no collision among the messages [ms]
    (the ones the statement at hand hashes). *)
Definition collision_free `{Platform} (ms : list bytes) : Prop :=
  ∀ x y, x ∈ ms → y ∈ ms → sha256 x = sha256 y → x = y.

Section framing.
Context `{Platform}.

Lemma address_inj x y : "sha256:" +:+ hex (sha256 x) = "sha256:" +:+ hex (sha256 y) →
  sha256 x = sha256 y.
Proof. intros Heq. apply hex_inj. by apply (inj (String.app "sha256:")) in Heq. Qed.

(** A list of zero-terminated, zero-free strings can be read back. *)
Lemma terminated_concat_inj (l1 l2 : list string) :
  Forall str_nul_free l1 → Forall str_nul_free l2 →
  concat ((λ c, as_bytes c ++ [SEP]) <$> l1) = concat ((λ c, as_bytes c ++ [SEP]) <$> l2) →
  l1 = l2.
Proof.
  intros H1. revert l2. induction H1 as [|c l1 Hc H1 IH]; intros l2 H2; destruct H2 as [|d l2 Hd H2];
    simpl; intros Heq; [done|by destruct (as_bytes d)|by destruct (as_bytes c)|].
  rw -!(assoc_L (++)) /= in Heq. apply frame_inj in Heq as [Hcd Heq]; [|done..].
  f_equal; [by apply as_bytes_inj|by apply IH].
Qed.

Definition entry_framed (kf : string * Trait) : Prop :=
  str_nul_free kf.1 ∧ nul_free (trait_content kf.2).

Lemma canonical_concat_inj (l1 l2 : list (string * Trait)) :
  Forall entry_framed l1 → Forall entry_framed l2 →
  concat (canonical_entry <$> l1) = concat (canonical_entry <$> l2) →
  (λ kf, (kf.1, trait_content kf.2)) <$> l1 = (λ kf, (kf.1, trait_content kf.2)) <$> l2.
Proof.
  intros H1. revert l2.
  induction H1 as [|[k f] l1 [Hk Hf] H1 IH]; intros l2 H2; destruct H2 as [|[k' f'] l2 [Hk' Hf'] H2];
    simpl; rw /canonical_entry /=; intros Heq; [done|by destruct (as_bytes k')|by destruct (as_bytes k)|].
  rw -!(assoc_L (++)) /= in Heq. apply frame_inj in Heq as [Hkk Heq]; [|done..].
  rw -!(assoc_L (++)) /= in Heq. apply frame_inj in Heq as [Hff Heq]; [|done..].
  apply as_bytes_inj in Hkk as ->. rw Hff. f_equal. by apply IH.
Qed.

(** The content of a bag: what its traits hash to, key by key. *)
Definition bag_contents (a : Artifact) : gmap string bytes := trait_content <$> art_traits a.
Definition bag_framed (a : Artifact) : Prop :=
  map_Forall (λ k f, str_nul_free k ∧ nul_free (trait_content f)) (art_traits a).

Lemma bag_framed_iter a : bag_framed a → Forall entry_framed (btree_iter (art_traits a)).
Proof.
  intros Ha. apply Forall_forall. intros [k f] Hin. apply elem_of_btree_iter in Hin.
  by apply Ha in Hin.
Qed.
Lemma bag_contents_iter a :
  (λ kf, (kf.1, trait_content kf.2)) <$> btree_iter (art_traits a) = btree_iter (bag_contents a).
Proof. rw /bag_contents btree_iter_fmap. apply list_fmap_ext. by intros ? []. Qed.
Lemma artifact_canonical_bytes_inj a b : bag_framed a → bag_framed b →
  artifact_canonical_bytes a = artifact_canonical_bytes b → bag_contents a = bag_contents b.
Proof.
  intros Ha Hb Heq. apply canonical_concat_inj in Heq; [|by apply bag_framed_iter..].
  apply btree_iter_inj. by rw -!bag_contents_iter.
Qed.
(** Equal content gives equal bytes: the address is a function of the bag. *)
Lemma artifact_canonical_bytes_contents a :
  artifact_canonical_bytes a =
  concat ((λ kc, as_bytes kc.1 ++ [SEP] ++ kc.2 ++ [SEP]) <$> btree_iter (bag_contents a)).
Proof.
  by rw -bag_contents_iter -list_fmap_compose.
Qed.
Lemma artifact_id_of_contents a b : bag_contents a = bag_contents b → artifact_id_of a = artifact_id_of b.
Proof. intros Heq. by rw /artifact_id_of !artifact_canonical_bytes_contents Heq. Qed.

Lemma contract_bytes_inj mt mt' sc sc' v v' cs cs' :
  Forall str_nul_free (mt :: sc :: v :: cs) → Forall str_nul_free (mt' :: sc' :: v' :: cs') →
  contract_bytes mt sc v cs = contract_bytes mt' sc' v' cs' →
  mt = mt' ∧ sc = sc' ∧ v = v' ∧ cs = cs'.
Proof.
  rw !Forall_cons. intros (? & ? & ? & ?) (? & ? & ? & ?). rw /contract_bytes /=.
  intros Heq. apply frame_inj in Heq as [Hm Heq]; [|done..].
  apply frame_inj in Heq as [Hs Heq]; [|done..]. apply frame_inj in Heq as [Hv Heq]; [|done..].
  apply terminated_concat_inj in Heq; [|done..]. split_and!; [by apply as_bytes_inj..|done].
Qed.

(** *** Ledger entries *)
Definition ledger_message (e : LedgerEntry) : bytes :=
  ledger_bytes (le_seq e) (le_kind e) (le_subject e) (le_detail e) (le_prev_hash e).
Definition entry_well_framed (e : LedgerEntry) : Prop :=
  0 ≤ le_seq e < 2^64 ∧ str_nul_free (le_kind e) ∧ str_nul_free (le_subject e).

Lemma ledger_bytes_inj e1 e2 :
  entry_well_framed e1 → entry_well_framed e2 →
  str_nul_free (le_prev_hash e1) → str_nul_free (le_prev_hash e2) →
  ledger_message e1 = ledger_message e2 →
  le_seq e1 = le_seq e2 ∧ le_kind e1 = le_kind e2 ∧ le_subject e1 = le_subject e2 ∧
  le_detail e1 = le_detail e2 ∧ le_prev_hash e1 = le_prev_hash e2.
Proof.
  intros (Hs1 & Hk1 & Hj1) (Hs2 & Hk2 & Hj2) Hp1 Hp2. rw /ledger_message /ledger_bytes.
  intros Heq. apply app_inj_1 in Heq as [Hseq Heq]; [|done].
  apply u64_be_inj in Hseq; [|done..]. simpl in Heq. injection Heq as Heq.
  apply frame_inj in Heq as [Hk Heq]; [|done..]. apply frame_inj in Heq as [Hj Heq]; [|done..].
  apply frame_inj_r in Heq as [Hd Hp]; [|done..].
  split_and!; [done|by apply as_bytes_inj..|done|by apply as_bytes_inj].
Qed.

Definition last_hash (prev : string) (es : list LedgerEntry) : string :=
  match last es with Some e => le_hash e | None => prev end.

Lemma verify_from_app i prev es1 es2 :
  verify_from i prev (es1 ++ es2) =
  verify_from i prev es1 && verify_from (i + len es1) (last_hash prev es1) es2.
Proof.
  revert i prev. induction es1 as [|e es1 IH]; intros i prev; simpl.
  { by rw /len /= Z.add_0_r. }
  destruct (_ || _); [done|]. destruct (negb _); [done|]. rw IH.
  replace (i + 1 + len es1) with (i + len (e :: es1)) by (rw /len /=; lia).
  replace (last_hash (le_hash e) es1) with (last_hash prev (e :: es1)); [done|].
  rw /last_hash. destruct es1 as [|e' es1]; [done|].
  change (last (e :: e' :: es1)) with (last (e' :: es1)).
  destruct (last (e' :: es1)) eqn:Hl; [done|]. by apply last_None in Hl.
Qed.
Lemma verify_one i prev e :
  verify_from i prev [e] = true ↔
  le_seq e = i ∧ le_prev_hash e = prev ∧ le_hash e = hex (sha256 (ledger_message e)).
Proof.
  simpl. rw /ledger_hash. fold (ledger_message e).
  destruct (Z.eqb_spec (le_seq e) i); simpl; [|naive_solver].
  destruct (str_eqb (le_prev_hash e) prev) eqn:Hp; inv_oks; [|naive_solver].
  destruct (str_eqb _ _) eqn:Hh; inv_oks; naive_solver.
Qed.
Lemma verify_chain_snoc es e :
  verify_chain (es ++ [e]) = true ↔
  verify_chain es = true ∧ le_seq e = len es ∧ le_prev_hash e = last_hash "" es ∧
  le_hash e = hex (sha256 (ledger_message e)).
Proof. rw /verify_chain verify_from_app andb_true_iff verify_one. naive_solver. Qed.

Lemma last_hash_snoc prev es e : last_hash prev (es ++ [e]) = le_hash e.
Proof. by rw /last_hash last_snoc. Qed.
Lemma verify_chain_last_nul_free es : verify_chain es = true → str_nul_free (last_hash "" es).
Proof.
  destruct es as [|e es _] using rev_ind; [intros _; by apply (bool_decide_unpack _)|].
  rw verify_chain_snoc last_hash_snoc. intros (_ & _ & _ & ->). apply hex_nul_free.
Qed.

(** A verified chain is determined by the hash of its last entry. *)
Lemma chain_unique es1 es2 :
  Forall entry_well_framed es1 → Forall entry_well_framed es2 →
  collision_free (ledger_message <$> es1 ++ es2) →
  verify_chain es1 = true → verify_chain es2 = true →
  last_hash "" es1 = last_hash "" es2 → es1 = es2.
Proof.
  revert es2. induction es1 as [|e1 es1 IH] using rev_ind; intros es2 H1 H2 Hcf.
  { intros _. destruct es2 as [|e2 es2 _] using rev_ind; [done|].
    rw verify_chain_snoc last_hash_snoc. intros (_ & _ & _ & ->) Hbad.
    apply (f_equal String.length) in Hbad. rw hex_length sha256_length in Hbad. done. }
  destruct es2 as [|e2 es2 _] using rev_ind.
  { rw verify_chain_snoc last_hash_snoc. intros (_ & _ & _ & ->) _ Hbad.
    apply (f_equal String.length) in Hbad. rw hex_length sha256_length in Hbad. done. }
  apply Forall_app in H1 as [H1 He1], H2 as [H2 He2]. rw Forall_singleton in He1. rw Forall_singleton in He2.
  rw !verify_chain_snoc !last_hash_snoc. intros (Hv1 & Hs1 & Hp1 & Hh1) (Hv2 & Hs2 & Hp2 & Hh2) Hh.
  assert (ledger_message e1 = ledger_message e2) as Hm.
  { apply Hcf; [set_solver..|]. apply hex_inj. by rw -Hh1 -Hh2. }
  assert (str_nul_free (le_prev_hash e1) ∧ str_nul_free (le_prev_hash e2)) as [Hn1 Hn2].
  { rw Hp1 Hp2. split; by apply verify_chain_last_nul_free. }
  apply ledger_bytes_inj in Hm as (Hseq & Hk & Hj & Hd & Hp); [|done..].
  assert (es1 = es2) as ->.
  { apply IH; try done; [|by rw -Hp1 -Hp2].
    intros x y Hx Hy. apply Hcf; set_solver. }
  f_equal. destruct e1, e2. naive_solver.
Qed.
End framing.

#[export] Hint Resolve hex_nul_free prefixed_hex_nul_free : core.
