(* ===== verification/Traits.v ===== *)
(** * Traits: building, testing, projecting and merging trait bags *)
From S2P Require Import Prelude Wire Errors Hash.

(** [..Default::default()] of an [Artifact] holding the bag [traits]. *)
Definition artifact_of_bag (traits : gmap string Trait) : Artifact :=
  mkArtifact "" ∅ "" traits "" "".

Definition artifact_with_trait (contract : string) (body : bytes) : Artifact :=
  artifact_of_bag {[ contract := mkTrait body None ]}.
Definition artifact_with_external_trait (contract : string) (object : ObjectRef) : Artifact :=
  artifact_of_bag {[ contract := mkTrait [] (Some object) ]}.
(** The loop inserts in order, a later pair replacing an earlier one. *)
Definition artifact_with_traits (pairs : list (string * bytes)) : Artifact :=
  artifact_of_bag (foldl (λ traits '(c, body), <[c := mkTrait body None]> traits) ∅ pairs).

Definition artifact_id_single `{Platform} (contract : string) (content : bytes) : string :=
  artifact_id_of (artifact_with_trait contract content).

Definition has_key {A} (k : string) (m : gmap string A) : bool :=
  match m !! k with Some _ => true | None => false end.

Definition has_traits (artifact : Artifact) (required : list string) : bool :=
  forallb (λ r, has_key r (art_traits artifact)) required.
Definition trait_set_covers (have need : list string) : bool :=
  forallb (λ n, existsb (λ h, str_eqb h n) have) need.
Definition get_trait (artifact : Artifact) (contract : string) : option Trait :=
  art_traits artifact !! contract.
Definition has_external_object (artifact : Artifact) : bool :=
  map_any trait_has_external (art_traits artifact).

Definition project_traits (artifact : Artifact) (contracts : list string) : Result Artifact :=
  traits ← for_each (λ traits c,
      f ← ok_or (Invalid ("artifact missing trait " +:+ c)) (art_traits artifact !! c);
      mret (<[c := f]> traits)) ∅ contracts;
  mret (mkArtifact "" (art_meta artifact) (art_produced_by artifact) traits
          (art_entity_id artifact) (art_supersedes artifact)).
Definition project_trait (artifact : Artifact) (contract : string) : Result Artifact :=
  project_traits artifact [contract].

Definition merge_traits (base add : Artifact) : Artifact :=
  let traits := foldl (λ m '(k, v), <[k := v]> m) (art_traits base) (btree_iter (art_traits add)) in
  let entity_id :=
    if negb (str_is_empty (art_entity_id add)) then art_entity_id add else art_entity_id base in
  let supersedes :=
    if negb (str_is_empty (art_id base)) then art_id base else art_supersedes add in
  mkArtifact "" (art_meta add) (art_produced_by add) traits entity_id supersedes.

(** ** What they compute *)
Lemma has_key_true {A} k (m : gmap string A) : has_key k m = true ↔ is_Some (m !! k).
Proof. rw /has_key. destruct (m !! k); split; try done; by intros [? ?]. Qed.
Lemma has_traits_true a required :
  has_traits a required = true ↔ Forall (λ r, r ∈ dom (art_traits a)) required.
Proof.
  rw /has_traits forallb_forall Forall_forall. setoid_rewrite has_key_true.
  setoid_rewrite elem_of_dom. by setoid_rewrite list_elem_of_In.
Qed.
Lemma trait_set_covers_true have need :
  trait_set_covers have need = true ↔ need ⊆ have.
Proof.
  rw /trait_set_covers forallb_forall. setoid_rewrite existsb_exists.
  setoid_rewrite str_eqb_true. setoid_rewrite <-list_elem_of_In.
  split.
  - intros Hall x Hx. by destruct (Hall x Hx) as (y & Hy & ->).
  - intros Hsub x Hx. exists x. eauto.
Qed.

(** Structural inclusion composes: an artifact that carries what the source
    port guarantees carries what a compatible target port requires. *)
Lemma covers_has_traits a have need :
  trait_set_covers have need = true → has_traits a have = true → has_traits a need = true.
Proof.
  rw trait_set_covers_true !has_traits_true !Forall_forall. intros Hsub Hall x Hx.
  by apply Hall, Hsub.
Qed.

Lemma foldl_insert_lookup {A} (l : list (string * A)) (m : gmap string A) k :
  NoDup l.*1 →
  foldl (λ m '(k, v), <[k := v]> m) m l !! k =
  match (list_to_map l : gmap string A) !! k with Some v => Some v | None => m !! k end.
Proof.
  revert m. induction l as [|[k' v] l IH]; intros m; simpl; [done|].
  intros [Hk' Hnd]%NoDup_cons. rw IH //. destruct (decide (k' = k)) as [->|Hne].
  - rw !lookup_insert_eq. by rw not_elem_of_list_to_map_1.
  - by rw !lookup_insert_ne.
Qed.
(** [merge_traits] is the left-biased union with [add] first. *)
Lemma merge_traits_union base add :
  art_traits (merge_traits base add) = art_traits add ∪ art_traits base.
Proof.
  apply map_eq. intros k. rw /merge_traits /= foldl_insert_lookup; [|apply btree_iter_nodup].
  rw (list_to_map_proper _ (map_to_list (art_traits add)));
    [|apply btree_iter_nodup|apply btree_iter_perm].
  rw list_to_map_to_list lookup_union. by destruct (art_traits add !! k), (art_traits base !! k).
Qed.

(** A projection holds exactly the traits asked for, unchanged. *)
Lemma project_loop a contracts m traits :
  for_each (λ (traits : gmap string Trait) c,
      f ← ok_or (Invalid ("artifact missing trait " +:+ c)) (art_traits a !! c);
      mret (<[c := f]> traits)) m contracts = Ok traits →
  Forall (λ c, c ∈ dom (art_traits a)) contracts ∧
  ∀ k, traits !! k = if decide (k ∈ contracts) then art_traits a !! k else m !! k.
Proof.
  revert m. induction contracts as [|c cs IH]; intros m; simpl.
  { by intros [= <-]. }
  intros H. inv_oks.
  match goal with Hc : art_traits a !! c = Some _, Hl : for_each _ _ _ = _ |- _ =>
    rename Hc into Hc, Hl into Hloop end.
  apply IH in Hloop as [Hall Hl]. split.
  { constructor; [|done]. by apply elem_of_dom. }
  intros k. rw Hl. destruct (decide (k ∈ cs)) as [Hin|Hin].
  - by rw decide_True; [|by right].
  - destruct (decide (k = c)) as [->|Hne].
    + rw decide_True; [by rw lookup_insert_eq|by left].
    + rw decide_False; [by rw lookup_insert_ne|]. by intros [?|?]%elem_of_cons.
Qed.
Lemma project_traits_ok a contracts p :
  project_traits a contracts = Ok p →
  has_traits a contracts = true ∧
  (∀ k, get_trait p k = if decide (k ∈ contracts) then get_trait a k else None).
Proof.
  rw /project_traits. intros H. inv_oks.
  match goal with Hl : for_each _ _ _ = _ |- _ => rename Hl into Hloop end.
  apply project_loop in Hloop as [Hall Hl]. split; [by apply has_traits_true|].
  intros k. rw /get_trait /= Hl. case_decide; [done|by rw lookup_empty].
Qed.
Lemma project_traits_total a contracts :
  has_traits a contracts = true → is_ok (project_traits a contracts) = true.
Proof.
  rw has_traits_true /project_traits. generalize (∅ : gmap string Trait).
  intros m Hall. revert m. induction Hall as [|c cs Hc Hall IH]; intros m; simpl; [done|].
  apply elem_of_dom in Hc as [f ->]. simpl. apply IH.
Qed.
