(* ===== verification/Policy.v ===== *)
(** * Policy: the artifact store law

    [normalize_store_policy] (run once at construction) and the checks that
    enforce the frozen policy on artifacts and blobs. *)
From S2P Require Import Prelude Wire Errors Hash.
From stdpp Require Import pretty.
Local Open Scope Z_scope.

Definition MAX_INLINE_ARTIFACT_BYTES : Z := 1048576.
Definition SUBSCRIBER_BUFFER : Z := 1024.
Definition DEFAULT_LEASE_MS : Z := 60000.
Definition DEFAULT_MAX_ATTEMPTS : Z := 3.

Definition BlobIngestMode_debug (m : BlobIngestMode) : string :=
  match m with BimUnspecified => "Unspecified" | BimCopyVerify => "CopyVerify" end.

Definition normalize_store_policy (policy : ArtifactStorePolicy) : Result ArtifactStorePolicy :=
  let max_inline :=
    if sp_max_inline_bytes policy =? 0 then MAX_INLINE_ARTIFACT_BYTES
    else sp_max_inline_bytes policy in
  let mode := default BimUnspecified (BlobIngestMode_try_from (sp_ingest_mode policy)) in
  ingest ←
    (if bool_decide (mode = BimUnspecified) || bool_decide (mode = BimCopyVerify)
     then Ok (BlobIngestMode_i32 BimCopyVerify)
     else Err (Invalid ("unsupported BlobIngestMode: " +:+ BlobIngestMode_debug mode +:+
                        " (only COPY_VERIFY in v2)")));
  let durability :=
    match default SdUnspecified (StoreDurability_try_from (sp_durability policy)) with
    | SdUnspecified => StoreDurability_i32 SdEphemeral
    | SdEphemeral | SdDurable => sp_durability policy
    end in
  mret (mkStorePolicy max_inline (sp_max_blob_bytes policy) ingest durability).

(** [ArtifactStorePolicy::default()], and [.expect("default policy is valid")]. *)
Definition zero_policy : ArtifactStorePolicy := mkStorePolicy 0 0 0 0.
Definition default_store_policy : Result ArtifactStorePolicy :=
  match normalize_store_policy zero_policy with Ok p => Ok p | _ => Panic end.

Definition enforce_blob_size (policy : ArtifactStorePolicy) (n : Z) : Result unit :=
  let max := sp_max_blob_bytes policy in
  err_if ((max >? 0) && (n >? max))
    (ResourceExhausted ("blob size " +:+ pretty n +:+ " exceeds max_blob_bytes " +:+ pretty max)).

Definition validate_trait (max_inline : Z) (contract : string) (tr : Trait) : Result unit :=
  err_if (str_is_empty contract) (Invalid "trait contract ref must be non-empty");;
  let has_obj := trait_has_external tr in
  let has_body := negb (list_is_empty (tr_body tr)) in
  err_if (has_obj && has_body)
    (Invalid ("trait " +:+ contract +:+ " must not set both body and object"));;
  err_if (has_body && (len (tr_body tr) >? max_inline))
    (ResourceExhausted ("trait " +:+ contract +:+ ": body size " +:+ pretty (len (tr_body tr)) +:+
                        " exceeds max_inline_bytes " +:+ pretty max_inline));;
  match tr_object tr with
  | Some obj =>
      err_if (str_is_empty (or_digest obj) &&
              (negb (or_byte_count obj =? 0) || negb (str_is_empty (or_namespace obj))))
        (Invalid ("trait " +:+ contract +:+ ": object.digest is required when object is set"));;
      err_if (has_obj && negb (is_sha256_digest (or_digest obj)))
        (Invalid ("trait " +:+ contract +:+ ": object.digest must be sha256:<hex>"))
  | None => Ok tt
  end.

Definition validate_artifact_content (artifact : Artifact) (policy : ArtifactStorePolicy)
    : Result unit :=
  err_if (list_is_empty (btree_iter (art_traits artifact)))
    (Invalid "artifact must have at least one trait");;
  for_each (λ _ '(contract, tr), validate_trait (sp_max_inline_bytes policy) contract tr)
    tt (btree_iter (art_traits artifact)).

(** ** What the checks accept *)
(** A trait the store accepts: a named, single-valued trait within the size
    limit, whose external value carries a well-formed digest. *)
Definition trait_acceptable (max_inline : Z) (contract : string) (tr : Trait) : Prop :=
  contract ≠ "" ∧
  match tr_object tr with
  | None => len (tr_body tr) ≤ max_inline
  | Some obj =>
      if str_is_empty (or_digest obj)
      then len (tr_body tr) ≤ max_inline ∧ or_byte_count obj = 0 ∧ or_namespace obj = ""
      else tr_body tr = [] ∧ is_sha256_digest (or_digest obj) = true
  end.

Lemma body_size_check (body : bytes) max_inline :
  0 ≤ max_inline →
  negb (list_is_empty body) && (len body >? max_inline) = false ↔ len body ≤ max_inline.
Proof.
  rw /len Z.gtb_ltb. destruct body as [|b body]; simpl; [naive_solver lia|]. by rw Z.ltb_ge.
Qed.

Lemma validate_trait_ok max_inline contract tr :
  0 ≤ max_inline →
  validate_trait max_inline contract tr = Ok tt ↔ trait_acceptable max_inline contract tr.
Proof.
  intros Hmax. rw /validate_trait /trait_acceptable /trait_has_external.
  pose proof (body_size_check (tr_body tr) max_inline Hmax) as Hsize.
  destruct (str_is_empty contract) eqn:Hc; simpl; inv_oks; [split; [done|by intros []]|].
  destruct (negb (list_is_empty (tr_body tr)) && (len (tr_body tr) >? max_inline)) eqn:Hs;
  destruct (tr_object tr) as [obj|]; simpl;
    try destruct (str_is_empty (or_digest obj)) eqn:Hd; simpl;
    rw ?andb_false_r ?andb_false_l ?andb_true_r ?andb_true_l /=.
  all: try (split; [done|intros [_ ?]; exfalso; naive_solver]).
  - destruct (tr_body tr); simpl in *; [done|]. by split; [|intros (_ & ? & _)].
  - destruct (Z.eqb_spec (or_byte_count obj) 0), (str_is_empty (or_namespace obj)) eqn:Hn;
      simpl; inv_oks; naive_solver.
  - destruct (tr_body tr); simpl; [|by split; [done|intros (_ & ? & _)]].
    destruct (is_sha256_digest _); simpl; naive_solver.
  - naive_solver.
Qed.

Lemma validate_artifact_content_ok artifact policy :
  0 ≤ sp_max_inline_bytes policy →
  validate_artifact_content artifact policy = Ok tt ↔
  art_traits artifact ≠ ∅ ∧
  map_Forall (trait_acceptable (sp_max_inline_bytes policy)) (art_traits artifact).
Proof.
  intros Hmax. rw /validate_artifact_content bind_ok. setoid_rewrite err_if_ok.
  assert (list_is_empty (btree_iter (art_traits artifact)) = false ↔ art_traits artifact ≠ ∅) as Hne.
  { rw -map_to_list_empty_iff -(Permutation_nil_r (map_to_list _)) -btree_iter_perm Permutation_nil_r.
    by destruct (btree_iter _). }
  setoid_rewrite Hne.
  assert (for_each (λ _ '(contract, tr), validate_trait (sp_max_inline_bytes policy) contract tr)
      tt (btree_iter (art_traits artifact)) = Ok tt ↔
    map_Forall (trait_acceptable (sp_max_inline_bytes policy)) (art_traits artifact)) as Hall.
  { rw (for_each_check (λ '(contract, tr), validate_trait (sp_max_inline_bytes policy) contract tr)).
    rw Forall_forall. split.
    - intros Hall k tr Hk. apply elem_of_btree_iter in Hk. apply Hall in Hk.
      by apply validate_trait_ok.
    - intros Hall [k tr] Hk. apply elem_of_btree_iter in Hk. apply validate_trait_ok; [done|].
      by apply Hall. }
  naive_solver.
Qed.

(** Normalisation is total, fills the defaults and is idempotent. *)
Lemma normalize_store_policy_total p : ∃ q, normalize_store_policy p = Ok q.
Proof.
  rw /normalize_store_policy. by destruct (default _ (BlobIngestMode_try_from _)); eexists.
Qed.
Lemma normalize_store_policy_spec p q : normalize_store_policy p = Ok q →
  sp_max_inline_bytes q =
    (if sp_max_inline_bytes p =? 0 then MAX_INLINE_ARTIFACT_BYTES else sp_max_inline_bytes p) ∧
  sp_max_blob_bytes q = sp_max_blob_bytes p ∧
  sp_ingest_mode q = BlobIngestMode_i32 BimCopyVerify ∧
  (sp_durability q = StoreDurability_i32 SdEphemeral ∨
   sp_durability q = StoreDurability_i32 SdDurable).
Proof.
  rw /normalize_store_policy. intros H. inv_oks.
  split_and!; [done|done| |].
  - by destruct (default _ _); simplify_eq/=.
  - destruct (StoreDurability_try_from (sp_durability p)) as [[]|] eqn:Hd; simpl; try by left.
    + left. destruct (sp_durability p) as [|[[]|[]|]|]; simplify_eq/=; done.
    + right. destruct (sp_durability p) as [|[[]|[]|]|]; simplify_eq/=; done.
Qed.
