(* ===== verification/State.v ===== *)
(** * State: what the kernel owns behind its lock

    The [State] struct and its parts, the setters the operations use, the only
    function that creates ledger entries, the deadline check and the
    idempotency cache.  A subscriber's [sync_channel] is a [Chan] of the
    state: the [SyncSender] in a [Sub] and the [Receiver] a caller holds are
    both its index. *)
From S2P Require Import Prelude Wire Errors Hash.
From Stdlib Require Import Strings.Ascii.
Local Open Scope Z_scope.

Record Chan := mkChan { ch_queue : list Event; ch_connected : bool }.
Record Sub := mkSub { s_topics : list string; s_tx : nat }.
Record ModuleSlot := mkModuleSlot { ms_manifest : ModuleManifest; ms_lifecycle : Lifecycle }.
Record ClaimedSlot := mkClaimedSlot {
  cs_work : WorkItem; cs_unit_key : string; cs_lease_until_ms : Z; cs_attempt : Z }.
Record RunSlot := mkRunSlot {
  rs_run : Run;
  rs_claimed : gmap string ClaimedSlot;
  rs_latest : gmap string Derivation;
  rs_done_units : gset string;
  rs_claim_attempts : gmap string Z;
  rs_input_epochs : gmap string Z;
  rs_node_commits : gmap string Z;
  rs_max_in_flight : Z;
  rs_default_lease_ms : Z;
  rs_max_attempts : Z }.
Record BlobSlot := mkBlobSlot { bs_data : bytes; bs_ref : BlobRef }.
Inductive IdempotentResult :=
  | IdemArtifactRef (r : ArtifactRef)
  | IdemRun (r : Run).

Record State := mkState {
  st_modules : list ModuleSlot;
  st_capabilities : list Capability;
  st_contracts : gmap string Contract;
  st_artifacts : gmap string Artifact;
  st_blobs : gmap (string * string) BlobSlot;
  st_subs : list Sub;
  st_ledger : list LedgerEntry;
  st_runs : gmap string RunSlot;
  st_derivations : list Derivation;
  st_event_seq : Z;
  st_idempotency : gmap string IdempotentResult;
  st_chans : list Chan }.

(** [State::default()] *)
Definition empty_state : State := mkState [] [] ∅ ∅ ∅ [] [] ∅ [] 0 ∅ [].

(** A method body that runs under the lock. *)
Abbreviation Method := (M State KernelError).

(** ** Setters *)
Definition set_modules x (s : State) := mkState x (st_capabilities s) (st_contracts s)
  (st_artifacts s) (st_blobs s) (st_subs s) (st_ledger s) (st_runs s) (st_derivations s)
  (st_event_seq s) (st_idempotency s) (st_chans s).
Definition set_capabilities x (s : State) := mkState (st_modules s) x (st_contracts s)
  (st_artifacts s) (st_blobs s) (st_subs s) (st_ledger s) (st_runs s) (st_derivations s)
  (st_event_seq s) (st_idempotency s) (st_chans s).
Definition set_contracts x (s : State) := mkState (st_modules s) (st_capabilities s) x
  (st_artifacts s) (st_blobs s) (st_subs s) (st_ledger s) (st_runs s) (st_derivations s)
  (st_event_seq s) (st_idempotency s) (st_chans s).
Definition set_artifacts x (s : State) := mkState (st_modules s) (st_capabilities s)
  (st_contracts s) x (st_blobs s) (st_subs s) (st_ledger s) (st_runs s) (st_derivations s)
  (st_event_seq s) (st_idempotency s) (st_chans s).
Definition set_blobs x (s : State) := mkState (st_modules s) (st_capabilities s)
  (st_contracts s) (st_artifacts s) x (st_subs s) (st_ledger s) (st_runs s) (st_derivations s)
  (st_event_seq s) (st_idempotency s) (st_chans s).
Definition set_subs x (s : State) := mkState (st_modules s) (st_capabilities s)
  (st_contracts s) (st_artifacts s) (st_blobs s) x (st_ledger s) (st_runs s) (st_derivations s)
  (st_event_seq s) (st_idempotency s) (st_chans s).
Definition set_ledger x (s : State) := mkState (st_modules s) (st_capabilities s)
  (st_contracts s) (st_artifacts s) (st_blobs s) (st_subs s) x (st_runs s) (st_derivations s)
  (st_event_seq s) (st_idempotency s) (st_chans s).
Definition set_runs x (s : State) := mkState (st_modules s) (st_capabilities s)
  (st_contracts s) (st_artifacts s) (st_blobs s) (st_subs s) (st_ledger s) x (st_derivations s)
  (st_event_seq s) (st_idempotency s) (st_chans s).
Definition set_derivations x (s : State) := mkState (st_modules s) (st_capabilities s)
  (st_contracts s) (st_artifacts s) (st_blobs s) (st_subs s) (st_ledger s) (st_runs s) x
  (st_event_seq s) (st_idempotency s) (st_chans s).
Definition set_event_seq x (s : State) := mkState (st_modules s) (st_capabilities s)
  (st_contracts s) (st_artifacts s) (st_blobs s) (st_subs s) (st_ledger s) (st_runs s)
  (st_derivations s) x (st_idempotency s) (st_chans s).
Definition set_idempotency x (s : State) := mkState (st_modules s) (st_capabilities s)
  (st_contracts s) (st_artifacts s) (st_blobs s) (st_subs s) (st_ledger s) (st_runs s)
  (st_derivations s) (st_event_seq s) x (st_chans s).
Definition set_chans x (s : State) := mkState (st_modules s) (st_capabilities s)
  (st_contracts s) (st_artifacts s) (st_blobs s) (st_subs s) (st_ledger s) (st_runs s)
  (st_derivations s) (st_event_seq s) (st_idempotency s) x.

Definition put_run_slot (id : string) (slot : RunSlot) (s : State) : State :=
  set_runs (<[id := slot]> (st_runs s)) s.

Definition slot_with_run (r : Run) (sl : RunSlot) := mkRunSlot r (rs_claimed sl) (rs_latest sl)
  (rs_done_units sl) (rs_claim_attempts sl) (rs_input_epochs sl) (rs_node_commits sl)
  (rs_max_in_flight sl) (rs_default_lease_ms sl) (rs_max_attempts sl).
Definition slot_with_claimed c (sl : RunSlot) := mkRunSlot (rs_run sl) c (rs_latest sl)
  (rs_done_units sl) (rs_claim_attempts sl) (rs_input_epochs sl) (rs_node_commits sl)
  (rs_max_in_flight sl) (rs_default_lease_ms sl) (rs_max_attempts sl).
Definition slot_with_latest l (sl : RunSlot) := mkRunSlot (rs_run sl) (rs_claimed sl) l
  (rs_done_units sl) (rs_claim_attempts sl) (rs_input_epochs sl) (rs_node_commits sl)
  (rs_max_in_flight sl) (rs_default_lease_ms sl) (rs_max_attempts sl).
Definition slot_with_done d (sl : RunSlot) := mkRunSlot (rs_run sl) (rs_claimed sl) (rs_latest sl)
  d (rs_claim_attempts sl) (rs_input_epochs sl) (rs_node_commits sl)
  (rs_max_in_flight sl) (rs_default_lease_ms sl) (rs_max_attempts sl).
Definition slot_with_attempts a (sl : RunSlot) := mkRunSlot (rs_run sl) (rs_claimed sl)
  (rs_latest sl) (rs_done_units sl) a (rs_input_epochs sl) (rs_node_commits sl)
  (rs_max_in_flight sl) (rs_default_lease_ms sl) (rs_max_attempts sl).
Definition slot_with_epochs e (sl : RunSlot) := mkRunSlot (rs_run sl) (rs_claimed sl)
  (rs_latest sl) (rs_done_units sl) (rs_claim_attempts sl) e (rs_node_commits sl)
  (rs_max_in_flight sl) (rs_default_lease_ms sl) (rs_max_attempts sl).
Definition slot_with_commits c (sl : RunSlot) := mkRunSlot (rs_run sl) (rs_claimed sl)
  (rs_latest sl) (rs_done_units sl) (rs_claim_attempts sl) (rs_input_epochs sl) c
  (rs_max_in_flight sl) (rs_default_lease_ms sl) (rs_max_attempts sl).

(** ** Deadline and idempotency *)
(** [now] is what the system clock reads, in milliseconds of the epoch. *)
Definition check_deadline (ctx : RequestContext) (now : Z) : Result unit :=
  if ctx_deadline_unix_ms ctx <=? 0 then Ok tt
  else err_if (now >? ctx_deadline_unix_ms ctx) (FailedPrecondition "deadline exceeded").

Definition NUL : string := String zero "".
Definition idempotency_key (op : string) (ctx : RequestContext) : option string :=
  if str_is_empty (ctx_request_key ctx) then None
  else Some (op +:+ NUL +:+ ctx_caller ctx +:+ NUL +:+ ctx_request_key ctx).
Definition idempotent_get (s : State) (op : string) (ctx : RequestContext)
    : option IdempotentResult :=
  key ← idempotency_key op ctx; st_idempotency s !! key.
Definition idempotent_put (op : string) (ctx : RequestContext) (value : IdempotentResult)
    : Method unit :=
  match idempotency_key op ctx with
  | Some key =>
      modify (λ s, match st_idempotency s !! key with
                   | Some _ => s
                   | None => set_idempotency (<[key := value]> (st_idempotency s)) s
                   end)
  | None => mret tt
  end.

Section append.
Context `{Platform}.

(** The entry [append_locked] commits next. *)
Definition next_entry (ledger : list LedgerEntry) (kind subject : string) (detail : bytes)
    : LedgerEntry :=
  let seq := len ledger in
  let prev_hash := match last ledger with Some e => le_hash e | None => "" end in
  mkEntry seq kind subject detail prev_hash (ledger_hash seq kind subject detail prev_hash).

Definition append_locked (kind subject : string) (detail : bytes) : Method LedgerEntry := λ s,
  let entry := next_entry (st_ledger s) kind subject detail in
  (Ok entry, set_ledger (st_ledger s ++ [entry]) s).

(** The chain stays verified, whatever is appended. *)
Lemma verify_next_entry ledger kind subject detail :
  verify_chain ledger = true →
  verify_chain (ledger ++ [next_entry ledger kind subject detail]) = true.
Proof. intros Hv. by apply verify_chain_snoc. Qed.
End append.

(** ** The idempotency key *)
Lemma idempotency_key_inj op1 op2 c1 c2 k :
  Forall str_nul_free [op1; op2; ctx_caller c1; ctx_caller c2] →
  idempotency_key op1 c1 = Some k → idempotency_key op2 c2 = Some k →
  op1 = op2 ∧ ctx_caller c1 = ctx_caller c2 ∧ ctx_request_key c1 = ctx_request_key c2.
Proof.
  rw !Forall_cons. intros (Ho1 & Ho2 & Hc1 & Hc2 & _). rw /idempotency_key.
  destruct (str_is_empty (ctx_request_key c1)), (str_is_empty (ctx_request_key c2)); try done.
  intros [= <-] [= Heq]. apply (f_equal as_bytes) in Heq.
  rw !as_bytes_app in Heq. change (as_bytes NUL) with [SEP] in Heq. simpl in Heq.
  apply frame_inj in Heq as [Ho Heq]; [|done..]. apply frame_inj in Heq as [Hc Hr]; [|done..].
  split_and!; by apply as_bytes_inj.
Qed.
