(* ===== verification/Registry.v ===== *)
(** * Registry: modules, their lifecycle, contracts and discovery

    [register], [transition], [put_contract] and [snapshot] of [MemoryKernel]. *)
From S2P Require Import Prelude Wire Errors Hash State.
Local Open Scope Z_scope.

Definition lifecycle_verb (l : Lifecycle) : string :=
  match l with
  | LcUnspecified => "unspecified"
  | LcRegistered => "registered"
  | LcLoaded => "loaded"
  | LcActive => "activated"
  | LcDeactivated => "deactivated"
  end.

Section registry.
Context `{Platform}.

(** ** Register *)
Definition contract_placeholder (ref : string) : Contract :=
  mkContract ref "" "" "" (contract_digest "" "" "" []) [].
Definition ensure_contract_placeholder (s : State) (ref : string) : State :=
  if str_is_empty ref then s
  else match st_contracts s !! ref with
       | Some _ => s
       | None => set_contracts (<[ref := contract_placeholder ref]> (st_contracts s)) s
       end.
Definition register_capability (s : State) (cap : Capability) : State :=
  let s := set_capabilities (st_capabilities s ++ [cap]) s in
  foldl (λ s port, foldl ensure_contract_placeholder s (port_traits port)) s
    (cap_inputs cap ++ cap_outputs cap).

Definition register_ctx (manifest : ModuleManifest) (ctx : RequestContext)
    : Method RegisterAck :=
  modify (λ s, foldl register_capability s (mm_provides manifest));;
  let detail := encode_ModuleManifest manifest in
  modify (λ s, set_modules (st_modules s ++ [mkModuleSlot manifest LcRegistered]) s);;
  append_locked "module.registered" (mm_name manifest) detail;;
  mret (mkRegisterAck (Lifecycle_i32 LcRegistered)).
Definition register (manifest : ModuleManifest) : Method RegisterAck :=
  register_ctx manifest default_context.

(** ** Transition *)
(** [state.modules.iter_mut().find(|m| m.manifest.name == name)] *)
Definition find_module (modules : list ModuleSlot) (name : string) : option (nat * ModuleSlot) :=
  list_find (λ m, mm_name (ms_manifest m) = name) modules.

Definition transition_req (req : TransitionRequest) (ctx : RequestContext) (now : Z)
    : Method TransitionAck :=
  lift (check_deadline ctx now);;
  s ← get;
  '(i, slot) ← lift (ok_or (NotFound (treq_module req)) (find_module (st_modules s) (treq_module req)));
  let to := default LcUnspecified (Lifecycle_try_from (treq_to req)) in
  (if Lifecycle_i32 to =? Lifecycle_i32 (ms_lifecycle slot) + 1 then
     put (set_modules (<[i := mkModuleSlot (ms_manifest slot) to]> (st_modules s)) s);;
     append_locked ("module." +:+ lifecycle_verb to) (treq_module req) [];;
     mret tt
   else mret tt);;
  s ← get;
  '(_, m) ← lift (unwrap (find_module (st_modules s) (treq_module req)));
  mret (mkTransitionAck (Lifecycle_i32 (ms_lifecycle m))).

Definition transition (module : string) (to : Lifecycle) (now : Z) : Method Lifecycle :=
  ack ← transition_req (mkTransition module (Lifecycle_i32 to)) default_context now;
  mret (default LcUnspecified (Lifecycle_try_from (ta_state ack))).

(** ** Contracts *)
Definition put_contract (contract : Contract) : Method Contract :=
  lift (err_if (str_is_empty (con_ref contract)) (Invalid "contract ref is required"));;
  let compat := sort_strings (con_compatible_with contract) in
  let digest :=
    contract_digest (con_media_type contract) (con_schema contract) (con_version contract) compat in
  lift (err_if (negb (str_is_empty (con_digest contract)) &&
                negb (str_eqb (con_digest contract) digest))
          (Invalid "contract digest mismatch"));;
  let contract := mkContract (con_ref contract) (con_schema contract) (con_media_type contract)
                    (con_version contract) digest compat in
  s ← get;
  match st_contracts s !! con_ref contract with
  | Some existing =>
      if str_eqb (con_digest existing) (con_digest contract) then mret existing
      else if is_contract_placeholder existing && negb (is_contract_placeholder contract) then
        let detail := encode_Contract contract in
        put (set_contracts (<[con_ref contract := contract]> (st_contracts s)) s);;
        append_locked "contract.registered" (con_ref contract) detail;;
        mret contract
      else fail (Conflict ("contract " +:+ con_ref contract +:+
                           " already registered with different content"))
  | None =>
      let detail := encode_Contract contract in
      put (set_contracts (<[con_ref contract := contract]> (st_contracts s)) s);;
      append_locked "contract.registered" (con_ref contract) detail;;
      mret contract
  end.

(** ** Snapshot *)
Definition snapshot `{HashOrder} (store_policy : ArtifactStorePolicy) : Method RegistrySnapshot :=
  s ← get;
  mret (mkSnapshot (ms_manifest <$> st_modules s) (st_capabilities s)
          (hm_iter (st_contracts s)).*2 (Some store_policy)).
End registry.
