(* ===== verification/Store.v ===== *)
(** * Store: artifacts and blobs

    [put_artifact], [get_artifact], [put_blob], [get_blob], [has_blob] and
    [put_artifact_with_blob] of [MemoryKernel]. *)
From S2P Require Import Prelude Wire Errors Hash Traits Policy State.
From stdpp Require Import pretty.
Local Open Scope Z_scope.

Section store.
Context `{Platform}.
Variable store_policy : ArtifactStorePolicy.

(** ** Blobs *)
Definition put_blob (req : PutBlobRequest) : Method BlobRef :=
  lift (enforce_blob_size store_policy (len (pb_data req)));;
  lift (err_if (negb (sp_ingest_mode store_policy =? BlobIngestMode_i32 BimCopyVerify))
          (Invalid "unsupported BlobIngestMode (only COPY_VERIFY)"));;
  let digest := blob_id (pb_data req) in
  let ref := mkBlobRef digest (u64 (len (pb_data req))) (pb_namespace req) in
  let key := (pb_namespace req, digest) in
  s ← get;
  match st_blobs s !! key with
  | None =>
      let detail := encode_BlobRef ref in
      put (set_blobs (<[key := mkBlobSlot (pb_data req) ref]> (st_blobs s)) s);;
      append_locked "blob.put" digest detail;;
      mret ref
  | Some _ => mret ref
  end.

Definition get_blob (req : GetBlobRequest) : Method BlobData :=
  s ← get;
  slot ← lift (ok_or (NotFound ("blob " +:+ gb_digest req))
                 (st_blobs s !! (gb_namespace req, gb_digest req)));
  lift (err_if (negb (str_eqb (blob_id (bs_data slot)) (br_digest (bs_ref slot))) ||
                negb (u64 (len (bs_data slot)) =? br_byte_count (bs_ref slot)))
          (BlobIntegrity "stored blob corrupted"));;
  mret (mkBlobData (br_digest (bs_ref slot)) (br_byte_count (bs_ref slot))
          (br_namespace (bs_ref slot)) (bs_data slot)).

Definition has_blob (req : HasBlobRequest) : Method HasBlobResponse :=
  s ← get;
  match st_blobs s !! (hb_namespace req, hb_digest req) with
  | Some slot => mret (mkHasBlobResp true (br_byte_count (bs_ref slot)))
  | None => mret (mkHasBlobResp false 0)
  end.

Definition verify_object_ref_locked (s : State) (object : ObjectRef) : Result unit :=
  slot ← ok_or (NotFound ("blob " +:+ or_digest object +:+ " (namespace " +:+
                          debug_str (or_namespace object) +:+ ")"))
           (st_blobs s !! (or_namespace object, or_digest object));
  err_if (negb (br_byte_count (bs_ref slot) =? or_byte_count object))
    (BlobIntegrity ("object.byte_count " +:+ pretty (or_byte_count object) +:+ " != stored " +:+
                    pretty (br_byte_count (bs_ref slot))));;
  err_if (negb (str_eqb (blob_id (bs_data slot)) (or_digest object)) ||
          negb (u64 (len (bs_data slot)) =? or_byte_count object))
    (BlobIntegrity "blob does not match object ref").

(** ** Artifacts *)
Definition art_with_id (id : string) (a : Artifact) : Artifact :=
  mkArtifact id (art_meta a) (art_produced_by a) (art_traits a) (art_entity_id a)
    (art_supersedes a).
(** What is encoded into the ledger: bodies of external traits cleared. *)
Definition clear_external_bodies (a : Artifact) : Artifact :=
  mkArtifact (art_id a) (art_meta a) (art_produced_by a)
    ((λ f, if trait_has_external f then mkTrait [] (tr_object f) else f) <$> art_traits a)
    (art_entity_id a) (art_supersedes a).

Definition verify_external_trait (s : State) (tr : Trait) : Result unit :=
  if trait_has_external tr then
    o ← unwrap (tr_object tr); verify_object_ref_locked s o
  else mret tt.

Definition put_artifact_ctx (artifact : Artifact) (ctx : RequestContext) (now : Z)
    : Method ArtifactRef :=
  lift (check_deadline ctx now);;
  lift (validate_artifact_content artifact store_policy);;
  s ← get;
  match idempotent_get s "put_artifact" ctx with
  | Some (IdemArtifactRef r) => mret r
  | _ =>
      lift (for_each (λ _ '(_, tr), verify_external_trait s tr) tt
              (btree_iter (art_traits artifact)));;
      let id := artifact_id_of artifact in
      let artifact := art_with_id id artifact in
      (if has_key id (st_artifacts s) then mret tt
       else
         let detail := encode_Artifact (clear_external_bodies artifact) in
         put (set_artifacts (<[id := artifact]> (st_artifacts s)) s);;
         append_locked "artifact.put" id detail;;
         mret tt);;
      let r := mkArtifactRef id in
      idempotent_put "put_artifact" ctx (IdemArtifactRef r);;
      mret r
  end.
Definition put_artifact (artifact : Artifact) (now : Z) : Method ArtifactRef :=
  put_artifact_ctx artifact default_context now.

Definition get_artifact (ref : ArtifactRef) : Method Artifact :=
  s ← get;
  lift (ok_or (NotFound (ar_id ref)) (st_artifacts s !! ar_id ref)).

(** Takes the lock twice: a blob put, then an artifact put. *)
Definition put_artifact_with_blob (contract namespace : string) (data : bytes)
    (produced_by : string) (now : Z) : Method (ArtifactRef * BlobRef) :=
  blob ← put_blob (mkPutBlob namespace data);
  let object := mkObjectRef (br_digest blob) (br_byte_count blob) (br_namespace blob) in
  let traits := {[ contract := mkTrait [] (Some object) ]} in
  artifact ← put_artifact (mkArtifact "" ∅ produced_by traits "" "") now;
  mret (artifact, blob).
End store.
