(* ===== verification/Events.v ===== *)
(** * Events: the bus

    [subscribe] and [publish] of [MemoryKernel], and what the holder of a
    [Receiver] can do to its end of the channel. *)
From S2P Require Import Prelude Wire Errors Hash Policy State.
Local Open Scope Z_scope.

Definition event_with_seq (seq : Z) (e : Event) : Event :=
  mkEvent (ev_id e) (ev_topic e) (ev_type e) (ev_source e) seq (ev_run_id e) (ev_artifacts e).

(** [SyncSender::try_send]: refused when the buffer is full or the receiver
    is gone. *)
Definition try_send (c : Chan) (e : Event) : option Chan :=
  if ch_connected c && (len (ch_queue c) <? SUBSCRIBER_BUFFER)
  then Some (mkChan (ch_queue c ++ [e]) (ch_connected c))
  else None.

Definition topic_matches (sub : Sub) (e : Event) : bool :=
  existsb (λ t, str_eqb t (ev_topic e)) (s_topics sub).

(** [state.subs.retain(..)]: one pass over the subscribers in order. *)
Fixpoint deliver (event : Event) (subs : list Sub) (chans : list Chan) : list Sub * list Chan :=
  match subs with
  | [] => ([], chans)
  | sub :: subs =>
      if topic_matches sub event then
        match chans !! s_tx sub ≫= λ c, try_send c event with
        | Some c' =>
            let '(kept, chans) := deliver event subs (<[s_tx sub := c']> chans) in
            (sub :: kept, chans)
        | None => deliver event subs chans
        end
      else
        let '(kept, chans) := deliver event subs chans in (sub :: kept, chans)
  end.

Section events.
Context `{Platform}.

(** Returns the receiver's end of a fresh bounded channel. *)
Definition subscribe (sub : Subscription) : Method nat :=
  s ← get;
  let rx := length (st_chans s) in
  put (set_subs (st_subs s ++ [mkSub (sub_topics sub) rx])
         (set_chans (st_chans s ++ [mkChan [] true]) s));;
  mret rx.

Definition publish (event : Event) : Method PublishAck :=
  modify (λ s, set_event_seq (u64 (st_event_seq s + 1)) s);;
  s ← get;
  let seq := st_event_seq s in
  let event := event_with_seq seq event in
  let '(subs, chans) := deliver event (st_subs s) (st_chans s) in
  put (set_subs subs (set_chans chans s));;
  let detail := encode_Event event in
  append_locked "event.published" (ev_topic event) detail;;
  mret (mkPublishAck seq).
End events.

(** The receiver's side: [rx.try_recv()] and dropping the [Receiver]. *)
Definition receive (rx : nat) : Method (option Event) := λ s,
  match st_chans s !! rx with
  | Some (mkChan (e :: q) c) => (Ok (Some e), set_chans (<[rx := mkChan q c]> (st_chans s)) s)
  | _ => (Ok None, s)
  end.
Definition drop_receiver (rx : nat) : Method unit := λ s,
  match st_chans s !! rx with
  | Some c => (Ok tt, set_chans (<[rx := mkChan [] false]> (st_chans s)) s)
  | None => (Ok tt, s)
  end.
