(* ===== verification/AssemblySpec.v ===== *)
(** * AssemblySpec: what [validate_assembly] accepts

    A declarative description of a valid assembly ([assembly_ok]), the
    correctness of the depth-first cycle check, and the equivalence of the
    two: the validation loop accepts exactly the valid assemblies, whatever
    order the node map iterates in, and never runs out of fuel. *)
From S2P Require Import Prelude Wire Errors Hash Traits State Assembly.
Local Open Scope Z_scope.

(** ** Loops that collect entries under distinct keys *)
Section keyed.
Context {A B : Type} (key : A → string) (ok : A → Prop).
Context (ins : A → B → B) (mem : B → string → Prop) (f : B → A → Result B).
Hypothesis mem_ins : ∀ x b k, mem (ins x b) k ↔ k = key x ∨ mem b k.
Hypothesis f_ok : ∀ b x b', f b x = Ok b' ↔ b' = ins x b ∧ ¬ mem b (key x) ∧ ok x.

Lemma for_each_keyed b l b' :
  for_each f b l = Ok b' ↔
  b' = foldl (λ b x, ins x b) b l ∧ NoDup (key <$> l) ∧ Forall (λ x, ¬ mem b (key x)) l ∧
  Forall ok l.
Proof.
  revert b. induction l as [|x l IH]; intros b; simpl.
  { split; [intros [= <-]; by repeat constructor|by intros (-> & _)]. }
  rw bind_ok NoDup_cons !Forall_cons. setoid_rewrite f_ok. split.
  - intros (b1 & (-> & Hx & Hok) & (-> & Hnd & Hall & Hok')%IH).
    rw Forall_forall in Hall. setoid_rewrite mem_ins in Hall.
    split_and!; [done| |done|done| |done|done].
    + rw list_elem_of_fmap. intros (y & Hxy & Hy). apply (Hall y Hy). by left.
    + apply Forall_forall. intros y Hy Hm. apply (Hall y Hy). by right.
  - intros (-> & [Hnin Hnd] & [Hx Hall] & [Hok Hok']). exists (ins x b). split; [done|].
    apply IH. split_and!; [done|done| |done]. apply Forall_forall. intros y Hy.
    rw Forall_forall in Hall. rw mem_ins. intros [Heq|Hm]; [|by apply (Hall y)].
    apply Hnin, list_elem_of_fmap. by exists y.
Qed.
End keyed.

(** The map such a loop builds: the entries by their key. *)
Definition by_key {A} (key : A → string) (l : list A) : gmap string A :=
  foldl (λ m x, <[key x := x]> m) ∅ l.
Lemma by_key_lookup {A} (key : A → string) (l : list A) k x :
  NoDup (key <$> l) → by_key key l !! k = Some x ↔ x ∈ l ∧ key x = k.
Proof.
  intros Hnd. rw /by_key.
  assert (∀ m : gmap string A, (∀ y, y ∈ l → m !! key y = None) →
    foldl (λ m x, <[key x := x]> m) m l !! k = Some x ↔ (x ∈ l ∧ key x = k) ∨ m !! k = Some x) as Hg.
  { induction l as [|y l IH]; intros m Hm; simpl; [set_solver|].
    apply NoDup_cons in Hnd as [Hy Hnd]. rw IH //.
    - rw lookup_insert_Some elem_of_cons. specialize (Hm y ltac:(left)). split.
      + intros [[? ?]|[[<- <-]|[? ?]]]; [left; by split; [right|]|left; by split; [left|]|by right].
      + intros [[[->|Hx] <-]|Hmk]; [right; by left|by left; split|].
        right. right. split; [|done]. intros <-. congruence.
    - intros z Hz. rw lookup_insert_ne; [apply Hm; by right|].
      intros Heq. apply Hy, list_elem_of_fmap. by exists z. }
  rw Hg; [set_solver|done].
Qed.

(** An element of a list is known by a key without duplicates. *)
Lemma fmap_unique {A B} (f : A → B) (l : list A) x y :
  NoDup (f <$> l) → x ∈ l → y ∈ l → f x = f y → x = y.
Proof.
  intros Hnd [i Hi]%list_elem_of_lookup [j Hj]%list_elem_of_lookup Heq.
  assert (i = j) as ->; [|congruence].
  eapply NoDup_lookup; [exact Hnd| |]; rw list_lookup_fmap ?Hi ?Hj //=. by rw Heq.
Qed.

(** ** Valid assemblies *)
Section spec.
Context `{Platform}.
Variable s : State.

Definition port_ok (p : Port) : Prop :=
  port_name p ≠ "" ∧ port_traits p ≠ [] ∧ Forall (λ t, t ≠ "") (port_traits p).
Definition ports_ok (ports : list Port) : Prop :=
  NoDup (port_name <$> ports) ∧ Forall port_ok ports.
(** The node names one capability of one registered module version, whose
    ports are well typed. *)
Definition node_ok (node : AssemblyNode) : Prop :=
  an_id node ≠ "" ∧
  ∃ cap, capability_for_node s node = Ok cap ∧ ports_ok (cap_inputs cap) ∧ ports_ok (cap_outputs cap).
Definition input_ok (i : NamedArtifact) : Prop :=
  na_name i ≠ "" ∧ ∃ r, na_artifact i = Some r ∧ ar_id r ∈ dom (st_artifacts s).

Definition has_port (nodes : list AssemblyNode) (ports : Capability → list Port)
    (id name : string) (p : Port) : Prop :=
  ∃ node cap, node ∈ nodes ∧ an_id node = id ∧ capability_for_node s node = Ok cap ∧
    port (ports cap) name = Some p.
Definition terminal_ok (nodes : list AssemblyNode) (t : NodeOutput) : Prop :=
  ∃ p, has_port nodes cap_outputs (no_node t) (no_port t) p ∧ port_multiple p = false.

(** A binding feeds an existing input port from exactly one source whose
    traits cover what the port requires. *)
Definition binding_ok (nodes : list AssemblyNode) (inputs : list NamedArtifact) (b : Binding)
    : Prop :=
  ∃ target, has_port nodes cap_inputs (b_to_node b) (b_to_port b) target ∧
  ((b_input b ≠ "" ∧ b_from_node b = "" ∧ b_from_port b = "" ∧
    ∃ i r art, i ∈ inputs ∧ na_name i = b_input b ∧ na_artifact i = Some r ∧
      st_artifacts s !! ar_id r = Some art ∧ has_traits art (port_traits target) = true) ∨
   (b_input b = "" ∧ (b_from_node b ≠ "" ∨ b_from_port b ≠ "") ∧
    ∃ source, has_port nodes cap_outputs (b_from_node b) (b_from_port b) source ∧
      trait_set_covers (port_traits source) (port_traits target) = true)).

Definition fan_in (bindings : list Binding) (node p : string) : nat :=
  length (filter (λ b, b_to_node b = node ∧ b_to_port b = p) bindings).
Definition fan_in_ok (bindings : list Binding) (node : AssemblyNode) : Prop :=
  ∃ cap, capability_for_node s node = Ok cap ∧
    Forall (λ p, (fan_in bindings (an_id node) (port_name p) = 0%nat → port_optional p = true) ∧
                 ((1 < fan_in bindings (an_id node) (port_name p))%nat → port_multiple p = true))
      (cap_inputs cap).

Definition edge (bindings : list Binding) : relation string := λ x y,
  ∃ b, b ∈ bindings ∧ b_input b = "" ∧ b_from_node b = x ∧ b_to_node b = y.
Definition acyclic (R : relation string) : Prop := ∀ x, ¬ tc R x x.

Record assembly_ok (a : Assembly) (inputs : list NamedArtifact) : Prop := mkAssemblyOk {
  ao_id : as_id a ≠ "";
  ao_nonempty : as_nodes a ≠ [];
  ao_terminal : ∃ t, as_terminal a = Some t ∧ terminal_ok (as_nodes a) t;
  ao_ids : NoDup (an_id <$> as_nodes a);
  ao_nodes : Forall node_ok (as_nodes a);
  ao_input_names : NoDup (na_name <$> inputs);
  ao_inputs : Forall input_ok inputs;
  ao_bindings : Forall (binding_ok (as_nodes a) inputs) (as_bindings a);
  ao_fan_in : Forall (fan_in_ok (as_bindings a)) (as_nodes a);
  ao_acyclic : acyclic (edge (as_bindings a));
}.
End spec.

(** ** The depth-first search *)
Section dfs.
Variable edges : gmap string (list string).
Definition succ_rel : relation string := λ x y, y ∈ successors edges x.

(** No infinite path, hence no cycle, starts at a finished node. *)
Definition finished (done : gset string) : Prop := ∀ x, x ∈ done → Acc (flip succ_rel) x.

Lemma acc_no_cycle x : Acc (flip succ_rel) x → ¬ tc succ_rel x x.
Proof.
  induction 1 as [x _ IH]. intros Hcyc.
  assert (∃ y, succ_rel x y ∧ tc succ_rel y y) as (y & Hy & Hcy); [|by apply (IH y)].
  inversion Hcyc as [? ? Hx|? y ? Hx Hy]; subst; [by exists x|].
  exists y. split; [done|]. by eapply tc_r.
Qed.

Variable nodes : gset string.
Hypothesis Hclosed : ∀ x y, succ_rel x y → y ∈ nodes.

(** What a visit answers: it ran to the end; if it accepts, the path is as
    it was and the node is finished; if it refuses, there is a cycle. *)
Definition visit_post (visiting done : gset string) (targets : list string)
    (r : option (bool * gset string * gset string)) : Prop :=
  ∃ ok visiting' done', r = Some (ok, visiting', done') ∧
    if (ok : bool)
    then visiting' = visiting ∧ done ⊆ done' ∧ Forall (λ x, x ∈ done') targets ∧ finished done'
    else ∃ x, tc succ_rel x x.

Lemma visit_each_spec f nexts visiting done :
  (∀ next done, next ∈ nexts → finished done → visit_post visiting done [next] (f next visiting done)) →
  finished done → visit_post visiting done nexts (visit_each f nexts visiting done).
Proof.
  revert done. induction nexts as [|next nexts IH]; intros done Hf Hfin; simpl.
  { by eexists _, _, _. }
  destruct (Hf next done ltac:(left) Hfin) as (ok & v & d & -> & Hok). simpl.
  destruct ok; simpl; [|by eexists _, _, _].
  destruct Hok as (-> & Hsub & Hnext & Hfin'). rw Forall_singleton in Hnext.
  destruct (IH d) as (ok & v & d' & -> & Hok); [intros; apply Hf; [by right|done]|done|].
  eexists _, _, _. split; [done|]. destruct ok; [|done].
  destruct Hok as (-> & Hsub' & Hall & Hfin''). split_and!; [done|by etrans| |done].
  constructor; [by apply Hsub'|done].
Qed.
Lemma visit_spec fuel node visiting done :
  node ∈ nodes → visiting ⊆ nodes → (size (nodes ∖ visiting) < fuel)%nat →
  (∀ x, x ∈ visiting → tc succ_rel x node) → finished done →
  visit_post visiting done [node] (visit edges fuel node visiting done).
Proof.
  revert node visiting done. induction fuel as [|fuel IH]; intros node visiting done Hn Hv Hfuel Hpath Hfin;
    [lia|]. simpl.
  case_bool_decide as Hdone.
  { eexists _, _, _. split; [done|]. by split_and!; [| |apply Forall_singleton|]. }
  case_bool_decide as Hvis.
  { eexists _, _, _. split; [done|]. exists node. by apply Hpath. }
  destruct (visit_each_spec (visit edges fuel) (successors edges node) ({[node]} ∪ visiting) done)
    as (ok & v & d & -> & Hok); [|done|].
  { intros next d Hnext Hfin'. apply IH; [by eapply Hclosed| | | |done].
    - by apply union_least; [apply singleton_subseteq_l|].
    - assert (size (nodes ∖ ({[node]} ∪ visiting)) < size (nodes ∖ visiting))%nat; [|lia].
      apply subset_size. clear -Hn Hvis. set_solver.
    - intros x [->%elem_of_singleton|Hx]%elem_of_union; [by apply tc_once|].
      eapply tc_r; [by apply Hpath|done]. }
  simpl. destruct ok; simpl; [|by eexists _, _, _].
  destruct Hok as (-> & Hsub & Hall & Hfin'). rw Forall_forall in Hall.
  eexists _, _, _. split; [done|].
  split_and!; [clear -Hvis; set_solver|clear -Hsub; set_solver|apply Forall_singleton; clear; set_solver|].
  intros x [->%elem_of_singleton|Hx]%elem_of_union; [|by apply Hfin'].
  constructor. intros y Hy. by apply Hfin', Hall.
Qed.

(** The search over all roots decides acyclicity, with any fuel above the
    number of nodes. *)
Lemma check_acyclic_spec fuel roots done :
  Forall (λ x, x ∈ nodes) roots → (size nodes < fuel)%nat → finished done →
  (check_acyclic fuel edges roots ∅ done = Ok tt ∧ ∀ x, x ∈ roots → Acc (flip succ_rel) x) ∨
  (check_acyclic fuel edges roots ∅ done = Err (Invalid "assembly contains a cycle") ∧
   ∃ x, tc succ_rel x x).
Proof.
  intros Hroots Hfuel. revert done. induction Hroots as [|node roots Hn Hroots IH]; intros done Hfin; simpl.
  { left. split; [done|]. by intros x Hx%elem_of_nil. }
  destruct (visit_spec fuel node ∅ done) as (ok & v & d & -> & Hok);
    [done|apply empty_subseteq| |by intros x Hx%not_elem_of_empty|done|].
  { by rw difference_empty_L. }
  simpl. destruct ok; simpl; [|by right].
  destruct Hok as (-> & _ & Hnd & Hfin'). rw Forall_singleton in Hnd.
  destruct (IH d Hfin') as [[-> Hacc]|Hc]; [left|by right]. split; [done|].
  intros x [->|Hx]%elem_of_cons; [by apply Hfin'|by apply Hacc].
Qed.
End dfs.

(** ** The loops of [validate_assembly] *)
Section loops.
Context `{Platform, HashOrder}.
Variable s : State.

Lemma list_is_empty_false {A} (l : list A) : list_is_empty l = false ↔ l ≠ [].
Proof. by destruct l. Qed.
Lemma existsb_empty (l : list string) : existsb str_is_empty l = false ↔ Forall (λ t, t ≠ "") l.
Proof.
  induction l as [|x l IH]; simpl; [by repeat split|].
  by rw orb_false_iff IH Forall_cons str_is_empty_false.
Qed.
Lemma has_key_false {A} k (m : gmap string A) : has_key k m = false ↔ k ∉ dom m.
Proof. rw -not_true_iff_false has_key_true. by rw -elem_of_dom. Qed.

Lemma check_port_ok node names p names' :
  check_port node names p = Ok names' ↔
  names' = {[port_name p]} ∪ names ∧ ¬ port_name p ∈ names ∧ port_ok p.
Proof.
  rw /check_port /port_ok. split.
  - intros Hc. inv_oks.
    repeat match goal with
    | H : list_is_empty _ = false |- _ => apply list_is_empty_false in H
    | H : existsb _ _ = false |- _ => apply existsb_empty in H
    | H : bool_decide _ = false |- _ => apply bool_decide_eq_false in H
    end. done.
  - intros (-> & Hn & Hne%str_is_empty_false & Ht%list_is_empty_false & Hts%existsb_empty).
    rw Hne Ht Hts bool_decide_eq_false_2 //.
Qed.
Lemma check_ports_ok node ports :
  is_ok (for_each (check_port node) ∅ ports) = true ↔ ports_ok ports.
Proof.
  assert (∀ b', for_each (check_port node) ∅ ports = Ok b' ↔
    b' = foldl (λ b p, {[port_name p]} ∪ b) ∅ ports ∧ NoDup (port_name <$> ports) ∧
    Forall (λ p, ¬ port_name p ∈ (∅ : gset string)) ports ∧ Forall port_ok ports) as Hk'.
  { intros b'. apply (for_each_keyed port_name port_ok (λ p b, {[port_name p]} ∪ b) (λ b k, k ∈ b));
      [intros; set_solver|apply check_port_ok]. }
  split.
  - destruct (for_each _ _ _) as [names| |]; simpl; [intros _|done..].
    destruct (Hk' names) as [Hf _]. by destruct (Hf eq_refl) as (_ & ? & _ & ?).
  - intros [Hnd Hall]. destruct (Hk' (foldl (λ b p, {[port_name p]} ∪ b) ∅ ports)) as [_ ->]; [done|].
    split_and!; [done|done| |done]. apply Forall_forall. set_solver.
Qed.

Lemma check_node_ok m node m' :
  check_node s m node = Ok m' ↔
  m' = <[an_id node := node]> m ∧ ¬ an_id node ∈ dom m ∧ node_ok s node.
Proof.
  rw /check_node /node_ok. split.
  - intros Hc. inv_oks.
    match goal with H : has_key (_ _) _ = false |- _ => apply has_key_false in H end. split_and!; [done|done|done|].
    eexists. split; [done|]. split; apply (check_ports_ok node).
    + match goal with H : for_each _ _ (cap_inputs _) = _ |- _ => by rw H end.
    + match goal with H : for_each _ _ (cap_outputs _) = _ |- _ => by rw H end.
  - intros (-> & Hd & Hid & cap & Hcap & Hin & Hout).
    apply (check_ports_ok node) in Hin, Hout.
    rw Hcap. apply str_is_empty_false in Hid as ->. apply has_key_false in Hd as ->. simpl.
    destruct (for_each _ _ (cap_inputs cap)); [simpl|done..].
    by destruct (for_each _ _ (cap_outputs cap)).
Qed.
Lemma check_nodes_ok nodes m :
  for_each (check_node s) ∅ nodes = Ok m ↔
  m = by_key an_id nodes ∧ NoDup (an_id <$> nodes) ∧ Forall (node_ok s) nodes.
Proof.
  rw (for_each_keyed an_id (node_ok s) (λ n m, <[an_id n := n]> m) (λ m k, k ∈ dom m)).
  - split; [by intros (? & ? & _ & ?)|]. intros (? & ? & ?). split_and!; [done|done| |done].
    apply Forall_forall. set_solver.
  - intros. rw dom_insert. set_solver.
  - apply check_node_ok.
Qed.

Lemma check_input_ok m i m' :
  check_input s m i = Ok m' ↔ m' = <[na_name i := i]> m ∧ ¬ na_name i ∈ dom m ∧ input_ok s i.
Proof.
  rw /check_input /input_ok. split.
  - intros Hc. inv_oks.
    match goal with H : has_key (_ _) _ = false |- _ => apply has_key_false in H end. split_and!; [done|done|done|].
    eexists. split; [done|]. by apply elem_of_dom, has_key_true.
  - intros (-> & Hd & Hid & r & Hr & Hart). rw Hr.
    apply str_is_empty_false in Hid as ->. apply has_key_false in Hd as ->. simpl.
    apply elem_of_dom, has_key_true in Hart as ->. done.
Qed.
Lemma check_inputs_ok inputs m :
  for_each (check_input s) ∅ inputs = Ok m ↔
  m = by_key na_name inputs ∧ NoDup (na_name <$> inputs) ∧ Forall (input_ok s) inputs.
Proof.
  rw (for_each_keyed na_name (input_ok s) (λ n m, <[na_name n := n]> m) (λ m k, k ∈ dom m)).
  - split; [by intros (? & ? & _ & ?)|]. intros (? & ? & ?). split_and!; [done|done| |done].
    apply Forall_forall. set_solver.
  - intros. rw dom_insert. set_solver.
  - apply check_input_ok.
Qed.
End loops.

Section bindings.
Context `{Platform, HashOrder}.
Variable s : State.
Context (nodes : list AssemblyNode) (inputs : list NamedArtifact).
Hypothesis Hnodes : NoDup (an_id <$> nodes).
Hypothesis Hnames : NoDup (na_name <$> inputs).
Let node_map := by_key an_id nodes.
Let named := by_key na_name inputs.

Lemma has_port_lookup ports id name p :
  has_port s nodes ports id name p ↔
  ∃ node cap, node_map !! id = Some node ∧ capability_for_node s node = Ok cap ∧
    port (ports cap) name = Some p.
Proof.
  split; intros (node & cap & Hrest); exists node, cap.
  - destruct Hrest as (? & ? & ?). rw /node_map by_key_lookup //.
  - rw /node_map by_key_lookup // in Hrest. naive_solver.
Qed.

Lemma check_terminal_ok t : check_terminal s node_map t = Ok tt ↔ terminal_ok s nodes t.
Proof.
  rw /check_terminal /terminal_ok. setoid_rewrite has_port_lookup. split.
  - intros Hc. inv_oks. destruct (port _ _) as [p|] eqn:Hp; [|done]. inv_oks.
    exists p. split; [|done]. eexists _, _. done.
  - intros (p & (node & cap & -> & Hcap & Hp) & Hm). simpl. by rw Hcap /= Hp Hm.
Qed.

(** *** Bindings *)
Definition binding_counts (counts : gmap (string * string) nat) (b : Binding) :=
  bump (b_to_node b, b_to_port b) counts.
Definition binding_edges (edges : gmap string (list string)) (b : Binding) :=
  if str_is_empty (b_input b) then push_edge (b_from_node b) (b_to_node b) edges else edges.
Lemma check_binding_ok acc b acc' :
  check_binding s node_map named acc b = Ok acc' ↔
  acc' = (binding_counts acc.1 b, binding_edges acc.2 b) ∧ binding_ok s nodes inputs b.
Proof.
  rw /check_binding /binding_ok /binding_edges /binding_counts. destruct acc as [counts edges].
  setoid_rewrite has_port_lookup. split.
  - intros Hc. inv_oks.
    match goal with H : eqb _ _ = false |- _ => apply eqb_false_iff in H; rename H into Hxor end.
    destruct (str_is_empty (b_input b)) eqn:Hin; simpl in *; inv_oks.
    + split; [done|]. eexists. split; [by eexists _, _|]. right.
      split; [done|]. split; [|eexists; split; [by eexists _, _|done]].
      destruct (str_is_empty (b_from_node b)) eqn:Hf1, (str_is_empty (b_from_port b)) eqn:Hf2;
        simpl in Hxor; try done; inv_oks; auto.
    + split; [done|]. eexists. split; [by eexists _, _|]. left. split; [done|].
      match goal with H : named !! _ = Some _ |- _ =>
        apply by_key_lookup in H as [? ?]; [|done] end.
      destruct (str_is_empty (b_from_node b)) eqn:Hf1, (str_is_empty (b_from_port b)) eqn:Hf2;
        simpl in Hxor; try done; inv_oks.
      split; [done|]. split; [done|]. eexists _, _, _. done.
  - intros (-> & target & (tn & tc & Htn & Htc & Ht) & Hsrc). rw Htn /= Htc /= Ht /=.
    destruct Hsrc as [(Hin & -> & -> & i & r & art & Hi & Hname & Hr & Hart & Htr)|
      (-> & Hfrom & source & (sn & sc & Hsn & Hsc & Hs) & Hcov)].
    + apply str_is_empty_false in Hin. rw Hin /=.
      rw (_ : named !! b_input b = Some i); [|by apply by_key_lookup]. by rw /= Hr /= Hart /= Htr.
    + assert (negb (str_is_empty (b_from_node b)) || negb (str_is_empty (b_from_port b)) = true) as ->.
      { apply orb_true_iff. rw !negb_true_iff !str_is_empty_false. done. }
      simpl. by rw Hsn /= Hsc /= Hs /= Hcov.
Qed.
Lemma check_bindings_ok bs acc acc' :
  for_each (check_binding s node_map named) acc bs = Ok acc' ↔
  acc' = (foldl binding_counts acc.1 bs, foldl binding_edges acc.2 bs) ∧
  Forall (binding_ok s nodes inputs) bs.
Proof.
  revert acc. induction bs as [|b bs IH]; intros acc; simpl.
  { destruct acc. split; [by intros [= <-]|by intros [-> _]]. }
  rw bind_ok Forall_cons. split.
  - intros (acc1 & [-> Hb]%check_binding_ok & [-> Hbs]%IH). done.
  - intros (-> & Hb & Hbs). eexists. split; [by apply check_binding_ok|]. by apply IH.
Qed.

(** *** What the two accumulators hold *)
Lemma binding_counts_lookup bs node p :
  default 0%nat (foldl binding_counts ∅ bs !! (node, p)) = fan_in bs node p.
Proof.
  rw /fan_in -{1}(Nat.add_0_l (length _)).
  assert (∀ m, default 0%nat (foldl binding_counts m bs !! (node, p)) =
    (default 0%nat (m !! (node, p)) +
     length (filter (λ b, b_to_node b = node ∧ b_to_port b = p) bs))%nat) as Hg.
  { induction bs as [|b bs IH]; intros m; simpl; [lia|].
    rw IH filter_cons /binding_counts /bump. case_decide as Hb.
    - destruct Hb as [-> ->]. rw lookup_insert_eq /=. lia.
    - rw lookup_insert_ne; [done|]. intros [= Hb1 Hb2]. by apply Hb. }
  by rw Hg lookup_empty.
Qed.
Lemma binding_edges_succ bs x y :
  succ_rel (foldl binding_edges ∅ bs) x y ↔ edge bs x y.
Proof.
  rw /succ_rel /successors /edge.
  assert (∀ m, y ∈ default [] (foldl binding_edges m bs !! x) ↔
    y ∈ default [] (m !! x) ∨
    ∃ b, b ∈ bs ∧ b_input b = "" ∧ b_from_node b = x ∧ b_to_node b = y) as Hg.
  { induction bs as [|b bs IH]; intros m; simpl; [split; [by left|intros [?|(?&?%elem_of_nil&_)]; done]|].
    rw IH. setoid_rewrite elem_of_cons. rw /binding_edges /push_edge.
    destruct (str_is_empty (b_input b)) eqn:Hin; inv_oks.
    - destruct (decide (b_from_node b = x)) as [<-|Hne].
      + rw lookup_insert_eq /= elem_of_app list_elem_of_singleton. naive_solver.
      + rw lookup_insert_ne //. naive_solver.
    - naive_solver. }
  rw Hg lookup_empty /= elem_of_nil. naive_solver.
Qed.

Lemma check_node_inputs_ok bs node :
  check_node_inputs s (foldl binding_counts ∅ bs) node = Ok tt ↔ fan_in_ok s bs node.
Proof.
  rw /check_node_inputs /fan_in_ok bind_ok. split; intros (cap & Hcap & Hall); exists cap;
    (split; [done|]); [apply for_each_check in Hall|apply for_each_check];
    (eapply Forall_impl; [done|]); simpl; intros p; rw /check_fan_in binding_counts_lookup.
  - intros ([] & H1 & H2)%bind_ok. apply err_if_ok, andb_false_iff in H1, H2.
    rw !bool_decide_eq_false !negb_false_iff in H1 H2. naive_solver.
  - intros [H1 H2]. destruct (decide (fan_in bs (an_id node) (port_name p) = 0%nat)) as [Hz|Hz].
    + rw (bool_decide_eq_true_2 (_ = 0%nat)) // H1 // bool_decide_eq_false_2 //. lia.
    + rw (bool_decide_eq_false_2 (_ = 0%nat)) //=.
      case_bool_decide; [by rw H2|done].
Qed.
End bindings.

(** ** Acceptance *)
Section accept.
Context `{Platform, HashOrder}.
Variable s : State.

Lemma tc_in_range (R : relation string) (P : string → Prop) x y :
  (∀ x y, R x y → P x) → tc R x y → P x.
Proof. intros HR. destruct 1; eauto. Qed.

(** The search over the node map decides whether the bindings form a cycle. *)
Lemma check_acyclic_ok nodes inputs bs :
  NoDup (an_id <$> nodes) → NoDup (na_name <$> inputs) →
  Forall (binding_ok s nodes inputs) bs →
  let node_map := by_key an_id nodes in
  let r := check_acyclic (visit_fuel node_map) (foldl binding_edges ∅ bs) (hm_iter node_map).*1 ∅ ∅ in
  r ≠ Panic ∧ (r = Ok tt ↔ acyclic (edge bs)).
Proof.
  intros Hnd Hnm Hbs node_map r. set edges := foldl binding_edges ∅ bs in r |- *.
  assert (∀ x, x ∈ (hm_iter node_map).*1 ↔ x ∈ dom node_map) as Hroots.
  { intros x. rw list_elem_of_fmap elem_of_dom. split.
    - intros ([k n] & -> & Hin%elem_of_hm_iter). by eexists.
    - intros [n Hn]. exists (x, n). split; [done|]. by apply elem_of_hm_iter. }
  assert (∀ x y, edge bs x y → x ∈ dom node_map ∧ y ∈ dom node_map) as Hedge.
  { intros x y (b & Hb & Hin & <- & <-). rw Forall_forall in Hbs.
    destruct (Hbs _ Hb) as (target & Ht & [(Hne & _)|(_ & _ & source & Hs & _)]); [done|].
    rw !elem_of_dom.
    apply (has_port_lookup s nodes Hnd) in Ht as (? & ? & Ht & _), Hs as (? & ? & Hs & _).
    by split; eexists. }
  destruct (check_acyclic_spec edges (dom node_map)) with (visit_fuel node_map) (hm_iter node_map).*1
    (∅ : gset string) as [[Hr Hacc]|[Hr [x Hx]]].
  - intros x y. rw binding_edges_succ. by intros [_ ?]%Hedge.
  - apply Forall_forall. by intros x Hx%Hroots.
  - rw /visit_fuel size_dom. lia.
  - by intros x Hx%not_elem_of_empty.
  - rw /r Hr. split; [done|]. split; [intros _ x Hx|done].
    assert (x ∈ dom node_map) as Hd.
    { eapply (tc_in_range (edge bs) (λ x, x ∈ dom node_map)); [|done]. by intros ?? [? _]%Hedge. }
    apply (acc_no_cycle edges x); [by apply Hacc, Hroots|].
    eapply tc_congruence with (f := id); [|done]. intros ??. by rw /= /id binding_edges_succ.
  - rw /r Hr. split; [done|]. split; [done|]. intros Hac. exfalso. apply (Hac x).
    eapply tc_congruence with (f := id); [|done]. intros ??. by rw /= /id binding_edges_succ.
Qed.

Lemma validate_assembly_spec a inputs :
  validate_assembly s a inputs = Ok tt ↔ assembly_ok s a inputs.
Proof.
  rw /validate_assembly. split.
  - intros ([] & Hid & Hv)%bind_ok. apply bind_ok in Hv as ([] & Hne & Hv).
    apply bind_ok in Hv as (t & Ht & Hv). apply bind_ok in Hv as (m & Hn & Hv).
    apply bind_ok in Hv as ([] & Hterm & Hv). apply bind_ok in Hv as (named & Hi & Hv).
    apply bind_ok in Hv as ([counts edges] & Hb & Hv). apply bind_ok in Hv as ([] & Hf & Hac).
    apply check_nodes_ok in Hn as (-> & Hnd & Hn). apply check_inputs_ok in Hi as (-> & Hnm & Hi).
    apply check_bindings_ok in Hb as [[= -> ->] Hb]; [|done..]. apply for_each_check in Hf.
    inv_oks. constructor; try done.
    + by apply list_is_empty_false.
    + exists t. split; [done|]. by apply check_terminal_ok in Hterm.
    + eapply Forall_impl; [done|]. simpl. intros node. by rw check_node_inputs_ok.
    + destruct (check_acyclic_ok _ _ _ Hnd Hnm Hb) as [_ Hc]. by apply Hc.
  - intros [Hid Hne (t & Ht & Hterm) Hnd Hn Hnm Hi Hb Hf Hac].
    apply str_is_empty_false in Hid as ->. apply list_is_empty_false in Hne as ->. rw Ht.
    cbn [err_if mbind outcome_bind ok_or].
    rw (_ : for_each (check_node s) ∅ (as_nodes a) = Ok (by_key an_id (as_nodes a)));
      [|by apply check_nodes_ok]. cbn [mbind outcome_bind].
    apply (check_terminal_ok s (as_nodes a) Hnd) in Hterm as ->. cbn [mbind outcome_bind].
    rw (_ : for_each (check_input s) ∅ inputs = Ok (by_key na_name inputs));
      [|by apply check_inputs_ok]. cbn [mbind outcome_bind].
    rw (_ : for_each (check_binding s _ _) _ (as_bindings a) =
      Ok (foldl binding_counts ∅ (as_bindings a), foldl binding_edges ∅ (as_bindings a)));
      [|by apply check_bindings_ok]. cbn [mbind outcome_bind fst snd].
    rw (_ : for_each _ tt (as_nodes a) = Ok tt).
    + destruct (check_acyclic_ok _ _ _ Hnd Hnm Hb) as [_ Hc]. by apply Hc.
    + apply for_each_check. eapply Forall_impl; [done|]. simpl. intros node.
      by rw check_node_inputs_ok.
Qed.

(** *** No check panics *)
Lemma capability_no_panic node : capability_for_node s node ≠ Panic.
Proof. rw /capability_for_node. by destruct (node_providers s node) as [|? []]. Qed.
Lemma check_node_no_panic m node : check_node s m node ≠ Panic.
Proof.
  apply bind_no_panic; [auto with no_panic|]. intros [] _.
  apply bind_no_panic; [apply capability_no_panic|]. intros cap _.
  assert (∀ ports, for_each (check_port node) ∅ ports ≠ Panic) as Hports.
  { intros ports. apply for_each_no_panic. intros names p _.
    apply bind_no_panic; [auto with no_panic|]. intros. by apply bind_no_panic; [auto with no_panic|]. }
  apply bind_no_panic; [apply Hports|]. intros. by apply bind_no_panic; [apply Hports|].
Qed.
Lemma check_binding_no_panic inputs m acc b :
  NoDup (na_name <$> inputs) → Forall (input_ok s) inputs →
  check_binding s m (by_key na_name inputs) acc b ≠ Panic.
Proof.
  intros Hnm Hi. rw /check_binding. destruct acc as [counts edges].
  apply bind_no_panic; [auto with no_panic|]. intros tn _.
  apply bind_no_panic; [apply capability_no_panic|]. intros tc _.
  apply bind_no_panic; [auto with no_panic|]. intros target _. cbv zeta.
  apply bind_no_panic; [auto with no_panic|]. intros [] _.
  destruct (negb (str_is_empty (b_input b))).
  - apply bind_no_panic; [auto with no_panic|]. intros i Hin. apply ok_or_ok in Hin.
    apply by_key_lookup in Hin as [Hin _]; [|done]. rw Forall_forall in Hi.
    destruct (Hi _ Hin) as (_ & r & -> & [art Hart]%elem_of_dom). simpl. rw Hart /=.
    by destruct (has_traits _ _).
  - apply bind_no_panic; [auto with no_panic|]. intros sn _.
    apply bind_no_panic; [apply capability_no_panic|]. intros sc _.
    apply bind_no_panic; [auto with no_panic|]. intros source _.
    by destruct (trait_set_covers _ _).
Qed.
Lemma validate_assembly_no_panic a inputs : validate_assembly s a inputs ≠ Panic.
Proof.
  rw /validate_assembly.
  apply bind_no_panic; [auto with no_panic|]. intros [] _.
  apply bind_no_panic; [auto with no_panic|]. intros [] _.
  apply bind_no_panic; [auto with no_panic|]. intros t _.
  apply bind_no_panic; [apply for_each_no_panic; intros; apply check_node_no_panic|]. intros m Hn.
  apply check_nodes_ok in Hn as (-> & Hnd & Hn).
  apply bind_no_panic.
  { apply bind_no_panic; [auto with no_panic|]. intros node _.
    apply bind_no_panic; [apply capability_no_panic|]. intros cap _.
    destruct (port _ _); auto with no_panic. }
  intros [] _. apply bind_no_panic.
  { apply for_each_no_panic. intros named i _. apply bind_no_panic; [auto with no_panic|]. intros [] _.
    apply bind_no_panic; [auto with no_panic|]. intros r _. by apply bind_no_panic; [auto with no_panic|]. }
  intros named Hi. apply check_inputs_ok in Hi as (-> & Hnm & Hi).
  apply bind_no_panic; [apply for_each_no_panic; intros; by apply check_binding_no_panic|].
  intros [counts edges] Hb. apply check_bindings_ok in Hb as [[= -> ->] Hb]; [|done..].
  apply bind_no_panic; [|intros; by apply (check_acyclic_ok _ _ _ Hnd Hnm Hb)].
  apply for_each_no_panic. intros [] node _. apply bind_no_panic; [apply capability_no_panic|].
  intros cap _. apply for_each_no_panic. intros [] p _. apply bind_no_panic; auto with no_panic.
Qed.
End accept.

(** ** Restriction to [include_nodes] *)
Lemma size_list_to_set_le (l : list string) : (size (list_to_set l : gset string) ≤ length l)%nat.
Proof.
  induction l as [|x l IH]; simpl; [done|].
  destruct (decide (x ∈ (list_to_set l : gset string))) as [Hin|Hnin].
  - rw subseteq_union_1_L; [lia|set_solver].
  - rw size_union; [|set_solver]. rw size_singleton. lia.
Qed.
Lemma size_list_to_set_nodup (l : list string) :
  size (list_to_set l : gset string) = length l ↔ NoDup l.
Proof.
  split; [|apply size_list_to_set].
  induction l as [|x l IH]; simpl; [constructor|]. intros Hs.
  pose proof (size_list_to_set_le l) as Hle.
  assert (x ∉ l) as Hx.
  { intros Hx. rw subseteq_union_1_L in Hs; [lia|set_solver]. }
  constructor; [done|]. apply IH. rw size_union in Hs; [|set_solver]. rw size_singleton in Hs. lia.
Qed.

(** The sub-assembly on the nodes of [include]: a binding stays when its
    target stays and its source, if a node, does. *)
Definition restricted (a : Assembly) (include : list string) : Assembly :=
  mkAssembly (as_id a) (filter (λ n, an_id n ∈ include) (as_nodes a))
    (filter (λ b, b_to_node b ∈ include ∧ (b_input b ≠ "" ∨ b_from_node b ∈ include)) (as_bindings a))
    (as_terminal a).
Definition include_ok (a : Assembly) (include : list string) : Prop :=
  NoDup include ∧ include ⊆ (an_id <$> as_nodes a) ∧
  ∃ t, as_terminal a = Some t ∧ no_node t ∈ include.

Section materialize.
Context `{HashOrder}.

Lemma restricted_filters a include :
  mkAssembly (as_id a) (filter (λ n, an_id n ∈ (list_to_set include : gset string)) (as_nodes a))
    (filter (λ b, b_to_node b ∈ (list_to_set include : gset string) ∧
               (b_input b ≠ "" ∨ b_from_node b ∈ (list_to_set include : gset string))) (as_bindings a))
    (as_terminal a) = restricted a include.
Proof.
  rw /restricted. f_equal; apply list_filter_iff; intros x; by rw !elem_of_list_to_set.
Qed.
Lemma include_known_ok a include :
  for_each (λ _ id, err_if (negb (bool_decide (id ∈ (list_to_set (an_id <$> as_nodes a) : gset string))))
      (Invalid ("include_nodes references unknown node " +:+ id)))
    tt (hs_iter (list_to_set include)) = Ok tt ↔ include ⊆ (an_id <$> as_nodes a).
Proof.
  rw (for_each_check (λ id, err_if (negb (bool_decide
      (id ∈ (list_to_set (an_id <$> as_nodes a) : gset string))))
      (Invalid ("include_nodes references unknown node " +:+ id)))) Forall_forall.
  split; intros Hall x Hx.
  - assert (x ∈ hs_iter (list_to_set include)) as Hin by (apply elem_of_hs_iter; set_solver).
    apply Hall, err_if_ok, negb_false_iff, bool_decide_eq_true in Hin. set_solver.
  - apply elem_of_hs_iter in Hx. apply err_if_ok, negb_false_iff, bool_decide_eq_true. set_solver.
Qed.
Lemma materialize_spec a include a' :
  materialize_assembly a include = Ok a' ↔
  (include = [] ∧ a' = a) ∨ (include ≠ [] ∧ include_ok a include ∧ a' = restricted a include).
Proof.
  rw /materialize_assembly. destruct include as [|x include]; cbn [list_is_empty].
  { split; [intros [= <-]; by left|by intros [[_ ->]|[? _]]]. }
  set l := x :: include. cbv zeta. rw restricted_filters. split.
  - intros ([] & Hnd & Hm)%bind_ok. apply bind_ok in Hm as ([] & Hk & Hm).
    apply bind_ok in Hm as (t & Ht & Hm). apply bind_ok in Hm as ([] & Hin & Hm).
    right. apply err_if_ok, negb_false_iff, bool_decide_eq_true, size_list_to_set_nodup in Hnd.
    apply include_known_ok in Hk. apply ok_or_ok in Ht.
    apply err_if_ok, negb_false_iff, bool_decide_eq_true in Hin. injection Hm as <-.
    split; [done|]. split; [|done]. split_and!; [done|done|]. exists t. split; [done|set_solver].
  - intros [[? _]|(_ & (Hnd & Hsub & t & Ht & Hin) & ->)]; [done|].
    apply size_list_to_set_nodup in Hnd. rw (bool_decide_eq_true_2 _ Hnd).
    apply include_known_ok in Hsub. cbn [negb err_if mbind outcome_bind]. rw Hsub.
    cbn [mbind outcome_bind]. rw Ht. cbn [ok_or mbind outcome_bind].
    rw bool_decide_eq_true_2; [done|set_solver].
Qed.
End materialize.
