(* ===== verification/Work.v ===== *)
(** * Work: which work units exist and which are ready

    Input resolution, firing policy, unit keys, readiness, claim filters and
    output validation: the read-only helpers of the run operations. *)
From S2P Require Import Prelude Wire Errors Hash Traits State Assembly.
Local Open Scope Z_scope.

(** ** Inputs *)
Definition binding_artifact (slot : RunSlot) (b : Binding) : option ArtifactRef :=
  if negb (str_is_empty (b_input b)) then
    '(_, i) ← list_find (λ i, na_name i = b_input b) (run_inputs (rs_run slot));
    na_artifact i
  else
    d ← rs_latest slot !! b_from_node b;
    '(_, o) ← list_find (λ o, na_name o = b_from_port b) (d_outputs d);
    na_artifact o.
Definition bindings_to (assembly : Assembly) (node : AssemblyNode) : list Binding :=
  filter (λ b, b_to_node b = an_id node) (as_bindings assembly).
Definition resolve_inputs (slot : RunSlot) (node : AssemblyNode) : option (list NamedArtifact) :=
  assembly ← run_assembly (rs_run slot);
  mapM (λ b, artifact ← binding_artifact slot b; mret (mkNamed (b_to_port b) (Some artifact)))
    (bindings_to assembly node).

(** ** Firing *)
Definition is_open_closure (slot : RunSlot) : bool :=
  match run_policy (rs_run slot) with
  | Some p => bool_decide (ep_closure_enum p = ClOpen)
  | None => false
  end.

Definition node_override (policy : option ExecutionPolicy) (node : AssemblyNode) : option Firing :=
  p ← policy;
  f ← ep_by_node p !! an_id node;
  if f =? Firing_i32 FiUnspecified then None else Some (default FiOnce (Firing_try_from f)).
Definition effective_firing (slot : RunSlot) (node : AssemblyNode) (cap : Capability) : Firing :=
  let policy := run_policy (rs_run slot) in
  match node_override policy node with
  | Some f => f
  | None =>
      if negb (bool_decide (cap_firing_enum cap = FiUnspecified)) then cap_firing_enum cap
      else match policy with
           | Some p => if negb (bool_decide (ep_default_enum p = FiUnspecified))
                       then ep_default_enum p else FiOnce
           | None => FiOnce
           end
  end.

Section work.
Context `{Platform}.

(** ** Unit keys *)
Definition key_ports (cap : Capability) : list string :=
  port_name <$> filter (λ p, port_key p = true) (cap_inputs cap).
Definition input_key_bytes (cap : Capability) (inputs : list NamedArtifact) : bytes :=
  let marked := key_ports cap in
  let pairs := omap (λ i, r ← na_artifact i;
                          if list_is_empty marked || existsb (λ n, str_eqb n (na_name i)) marked
                          then Some (na_name i, ar_id r) else None) inputs in
  concat ((λ '(name, id), as_bytes name ++ [SEP] ++ as_bytes id ++ [SEP]) <$> sort_by fst pairs).
Definition input_key (cap : Capability) (inputs : list NamedArtifact) : string :=
  hex (sha256 (input_key_bytes cap inputs)).

Definition source_epoch (slot : RunSlot) (b : Binding) : Z :=
  if negb (str_is_empty (b_input b)) then default 0 (rs_input_epochs slot !! b_input b)
  else default 0 (rs_node_commits slot !! b_from_node b).
Definition fingerprint_row (slot : RunSlot) (inputs : list NamedArtifact) (b : Binding)
    : option (string * string * Z) :=
  '(_, art) ← list_find (λ i, na_name i = b_to_port b) inputs;
  r ← na_artifact art;
  mret (b_to_port b, ar_id r, source_epoch slot b).
Definition row_bytes (row : string * string * Z) : bytes :=
  let '(port, id, epoch) := row in
  as_bytes port ++ [SEP] ++ as_bytes id ++ [SEP] ++ u64_be epoch ++ [SEP].
Definition delivery_rows (slot : RunSlot) (node : AssemblyNode) (inputs : list NamedArtifact)
    : option (list (string * string * Z)) :=
  assembly ← run_assembly (rs_run slot);
  mapM (fingerprint_row slot inputs) (bindings_to assembly node).
Definition delivery_fingerprint (slot : RunSlot) (node : AssemblyNode)
    (inputs : list NamedArtifact) : option string :=
  rows ← delivery_rows slot node inputs;
  mret (hex (sha256 (concat (row_bytes <$> sort_by (λ row, row.1.1) rows)))).

Definition work_unit_key (slot : RunSlot) (node : AssemblyNode) (cap : Capability)
    (firing : Firing) (inputs : list NamedArtifact) : option string :=
  match firing with
  | FiAlways =>
      fp ← delivery_fingerprint slot node inputs;
      mret ("always:" +:+ an_id node +:+ ":" +:+ fp)
  | FiOncePerKey => Some ("key:" +:+ an_id node +:+ ":" +:+ input_key cap inputs)
  | FiOnce | FiUnspecified => Some ("once:" +:+ an_id node)
  end.

(** ** Readiness *)
Definition unit_is_claimed (slot : RunSlot) (unit_key : string) : bool :=
  map_any (λ c, str_eqb (cs_unit_key c) unit_key) (rs_claimed slot).

(** One round of the readiness loops: the [continue]s are the [None]s. *)
Definition ready_unit (s : State) (slot : RunSlot) (node : AssemblyNode)
    : option (list NamedArtifact * string) :=
  inputs ← resolve_inputs slot node;
  match capability_for_node s node with
  | Ok cap =>
      let firing := effective_firing slot node cap in
      unit_key ← work_unit_key slot node cap firing inputs;
      if bool_decide (unit_key ∈ rs_done_units slot) then None
      else if unit_is_claimed slot unit_key then None
      else Some (inputs, unit_key)
  | _ => None
  end.

Definition assembly_any_ready (s : State) (slot : RunSlot) : bool :=
  match run_assembly (rs_run slot) with
  | Some assembly =>
      existsb (λ node, match ready_unit s slot node with Some _ => true | None => false end)
        (as_nodes assembly)
  | None => false
  end.

(** ** Claim limits and filters *)
Definition in_flight_capacity (slot : RunSlot) : Z :=
  if rs_max_in_flight slot =? 0 then u64_max
  else u64_sat_sub (rs_max_in_flight slot) (Z.of_nat (size (rs_claimed slot))).

Definition node_matches_claim_filter (req : ClaimRequest) (node : AssemblyNode) : bool :=
  if negb (str_is_empty (cr_module req)) && negb (str_eqb (an_module node) (cr_module req))
  then false
  else if negb (list_is_empty (cr_modules req)) &&
          negb (existsb (λ m, str_eqb m (an_module node)) (cr_modules req)) then false
  else if negb (list_is_empty (cr_node_ids req)) &&
          negb (existsb (λ n, str_eqb n (an_id node)) (cr_node_ids req)) then false
  else true.

Definition ledger_work_item (w : WorkItem) : WorkItem :=
  mkWorkItem (wi_id w) (wi_run_id w) (wi_node_id w) (wi_module w) (wi_module_version w)
    (wi_capability w) (wi_inputs w) (wi_unit_key w) (wi_attempt w) 0.

(** ** Outputs of a commit *)
Definition check_expected_output (outputs : list NamedArtifact) (expected : Port) : Result unit :=
  let matching := filter (λ o, na_name o = port_name expected) outputs in
  err_if (list_is_empty matching && negb (port_optional expected))
    (Invalid ("required output " +:+ port_name expected +:+ " is absent"));;
  err_if (bool_decide (1 < length matching)%nat && negb (port_multiple expected))
    (Invalid ("output " +:+ port_name expected +:+ " is not multiple")).
Definition check_output (s : State) (cap : Capability) (output : NamedArtifact) : Result unit :=
  expected ← ok_or (Invalid ("undeclared output " +:+ na_name output))
               (port (cap_outputs cap) (na_name output));
  r ← ok_or (Invalid ("output " +:+ na_name output +:+ " has no artifact")) (na_artifact output);
  artifact ← ok_or (NotFound (ar_id r)) (st_artifacts s !! ar_id r);
  err_if (negb (has_traits artifact (port_traits expected)))
    (Invalid ("output " +:+ na_name output +:+ " missing required traits " +:+
              debug_strings (port_traits expected) +:+ "; have " +:+
              debug_strings (btree_iter (art_traits artifact)).*1)).
Definition validate_outputs (s : State) (cap : Capability) (outputs : list NamedArtifact)
    : Result unit :=
  for_each (λ _, check_expected_output outputs) tt (cap_outputs cap);;
  for_each (λ _, check_output s cap) tt outputs.
End work.
