(* ===== verification/Runs.v ===== *)
(** * Runs: starting, claiming, renewing, failing and committing work

    The run operations of [MemoryKernel].  Each is split where the code has a
    block of its own: what a block does to the [RunSlot] is a function on
    slots, the operation around it looks the slot up, checks, writes it back
    and appends the ledger entries. *)
From S2P Require Import Prelude Wire Errors Hash Traits Policy State Assembly Work.
Local Open Scope Z_scope.

Definition stall_reason : string := "no node is ready and no work is in flight".

(** A field of [Limits] with its default for an absent message or a zero. *)
Definition limit_or (field : Limits → Z) (limits : option Limits) (dflt : Z) : Z :=
  let v := match limits with Some l => field l | None => 0 end in
  if v =? 0 then dflt else v.

Definition inputs_at_epoch_zero (inputs : list NamedArtifact) : gmap string Z :=
  foldl (λ m i, <[na_name i := 0]> m) ∅ inputs.

(** ** What the operations do to a slot *)
Definition slot_closed (st : RunState) (reason : string) (slot : RunSlot) : RunSlot :=
  slot_with_run (run_with_reason reason (run_with_state st (rs_run slot))) slot.

Definition lease_expired (now : Z) (c : ClaimedSlot) : bool :=
  (cs_lease_until_ms c >? 0) && (cs_lease_until_ms c <=? now).

(** Reaping one expired unit. *)
Definition reap_slot (slot : RunSlot) (kc : string * ClaimedSlot) : RunSlot :=
  let '(id, claimed) := kc in
  let slot' := slot_with_claimed (delete id (rs_claimed slot)) slot in
  if cs_attempt claimed >=? rs_max_attempts slot
  then slot_with_done ({[cs_unit_key claimed]} ∪ rs_done_units slot') slot'
  else slot'.

(** Claiming one ready candidate. *)
Definition starts_once (unit_key : string) : bool := starts_with "once:" unit_key.
Definition work_id_of (run_id node_id unit_key : string) : string :=
  if starts_once unit_key then "work:" +:+ run_id +:+ "/" +:+ node_id
  else "work:" +:+ run_id +:+ "/" +:+ unit_key.
Definition claim_slot (run_id : string) (now : Z)
    (acc : RunSlot * list WorkItem) (cand : AssemblyNode * list NamedArtifact * string)
    : RunSlot * list WorkItem :=
  let '(slot, claimed_now) := acc in
  let '(node, inputs, unit_key) := cand in
  let attempt := u32 (default 0 (rs_claim_attempts slot !! unit_key) + 1) in
  let slot := slot_with_attempts (<[unit_key := attempt]> (rs_claim_attempts slot)) slot in
  let work_id := work_id_of run_id (an_id node) unit_key in
  let lease_until := i64_sat_add now (as_i64 (rs_default_lease_ms slot)) in
  let work := mkWorkItem work_id run_id (an_id node) (an_module node) (an_module_version node)
                (an_capability node) inputs unit_key attempt lease_until in
  (slot_with_claimed
     (<[work_id := mkClaimedSlot work unit_key lease_until attempt]> (rs_claimed slot)) slot,
   claimed_now ++ [work]).

(** Renewing one lease. *)
Definition renew (until : Z) (c : ClaimedSlot) : ClaimedSlot :=
  let w := cs_work c in
  mkClaimedSlot (mkWorkItem (wi_id w) (wi_run_id w) (wi_node_id w) (wi_module w)
                   (wi_module_version w) (wi_capability w) (wi_inputs w) (wi_unit_key w)
                   (wi_attempt w) until)
    (cs_unit_key c) until (cs_attempt c).
Definition renew_slot (until : Z) (acc : RunSlot * list string * list string) (id : string)
    : RunSlot * list string * list string :=
  let '(slot, renewed, lost) := acc in
  match rs_claimed slot !! id with
  | Some c => (slot_with_claimed (<[id := renew until c]> (rs_claimed slot)) slot,
               renewed ++ [id], lost)
  | None => (slot, renewed, lost ++ [id])
  end.

(** Injecting a named input: replace the first of that name or append. *)
Definition replace_input (input : NamedArtifact) (inputs : list NamedArtifact)
    : list NamedArtifact :=
  match list_find (λ i, na_name i = na_name input) inputs with
  | Some (k, _) => <[k := input]> inputs
  | None => inputs ++ [input]
  end.
Definition inject_slot (input : NamedArtifact) (slot : RunSlot) : RunSlot :=
  let epoch := default 0 (rs_input_epochs slot !! na_name input) in
  slot_with_epochs (<[na_name input := u64_sat_add epoch 1]> (rs_input_epochs slot))
    (slot_with_run (run_with_inputs (replace_input input (run_inputs (rs_run slot))) (rs_run slot))
       slot).

(** Committing: everything up to the stall check.  The flag is [closed]. *)
Definition record_commit (claimed : ClaimedSlot) (derivation : Derivation) (slot : RunSlot)
    : RunSlot :=
  let work := cs_work claimed in
  let slot := slot_with_claimed (delete (wi_id work) (rs_claimed slot)) slot in
  let slot := slot_with_done ({[cs_unit_key claimed]} ∪ rs_done_units slot) slot in
  let slot := slot_with_latest (<[wi_node_id work := derivation]> (rs_latest slot)) slot in
  let n := default 0 (rs_node_commits slot !! wi_node_id work) in
  let slot := slot_with_commits (<[wi_node_id work := u64 (n + 1)]> (rs_node_commits slot)) slot in
  slot_with_run (run_with_steps (u64 (run_steps (rs_run slot) + 1)) (rs_run slot)) slot.
Definition terminal_answer (terminal : NodeOutput) (derivation : Derivation)
    : option ArtifactRef :=
  '(_, o) ← list_find (λ o, na_name o = no_port terminal) (d_outputs derivation);
  na_artifact o.
Definition close_on_terminal (terminal : NodeOutput) (node_id : string) (derivation : Derivation)
    (slot : RunSlot) : RunSlot * bool :=
  if str_eqb (no_node terminal) node_id then
    match terminal_answer terminal derivation with
    | Some answer =>
        let slot' := slot_with_run (run_with_answer (Some answer) (rs_run slot)) slot in
        if negb (is_open_closure slot)
        then (slot_with_run (run_with_state RsCompleted (rs_run slot')) slot', true)
        else (slot', false)
    | None => (slot, false)
    end
  else (slot, false).
Definition close_on_max_steps (acc : RunSlot * bool) : RunSlot * bool :=
  let '(slot, closed) := acc in
  if negb closed && (run_steps (rs_run slot) >=? run_max_steps (rs_run slot))
  then (slot_closed RsFailed "max_steps exhausted before the terminal output" slot, true)
  else (slot, closed).

Section runs.
Context `{Platform, HashOrder}.

(** ** StartRun *)
Definition start_run_ctx (req : RunRequest) (ctx : RequestContext) (now : Z) : Method Run :=
  lift (check_deadline ctx now);;
  s ← get;
  match idempotent_get s "start_run" ctx with
  | Some (IdemRun r) => mret r
  | _ =>
      lift (err_if (str_is_empty (rr_id req)) (Invalid "run id is required"));;
      lift (err_if (has_key (rr_id req) (st_runs s))
              (Conflict ("run " +:+ rr_id req +:+ " already exists")));;
      assembly ← lift (ok_or (Invalid "assembly is required") (rr_assembly req));
      assembly ← lift (materialize_assembly assembly (rr_include_nodes req));
      lift (validate_assembly s assembly (rr_inputs req));;
      let limits := rr_limits req in
      let max_steps := limit_or lim_max_steps limits (len (as_nodes assembly)) in
      lift (err_if (max_steps =? 0) (Invalid "max_steps must be positive"));;
      let max_in_flight := match limits with Some l => lim_max_in_flight l | None => 0 end in
      let default_lease_ms := limit_or lim_default_lease_ms limits DEFAULT_LEASE_MS in
      let max_attempts := limit_or lim_max_attempts limits DEFAULT_MAX_ATTEMPTS in
      let run := mkRun (rr_id req) (Some assembly) (rr_inputs req) (RunState_i32 RsRunning) None 0
                   max_steps "" (rr_policy req) in
      put (put_run_slot (run_id run)
             (mkRunSlot run ∅ ∅ ∅ ∅ (inputs_at_epoch_zero (rr_inputs req)) ∅ max_in_flight
                default_lease_ms max_attempts) s);;
      append_locked "run.started" (run_id run) (encode_Run run);;
      idempotent_put "start_run" ctx (IdemRun run);;
      mret run
  end.
Definition start_run (req : RunRequest) (now : Z) : Method Run :=
  start_run_ctx req default_context now.

(** ** InjectInput *)
Definition inject_input_ctx (req : InjectInputRequest) (ctx : RequestContext) (now : Z)
    : Method Run :=
  lift (check_deadline ctx now);;
  s ← get;
  input ← lift (ok_or (Invalid "input is required") (ii_input req));
  lift (err_if (str_is_empty (na_name input)) (Invalid "input name is required"));;
  r ← lift (ok_or (Invalid ("input " +:+ na_name input +:+ " has no artifact")) (na_artifact input));
  lift (err_if (negb (has_key (ar_id r) (st_artifacts s))) (NotFound (ar_id r)));;
  slot ← lift (ok_or (NotFound (ii_run_id req)) (st_runs s !! ii_run_id req));
  lift (err_if (negb (bool_decide (run_state (rs_run slot) = RsRunning)))
          (RunClosed (run_state (rs_run slot))));;
  let used := match run_assembly (rs_run slot) with
              | Some a => existsb (λ b, str_eqb (b_input b) (na_name input)) (as_bindings a)
              | None => false
              end in
  lift (err_if (negb used)
          (Invalid ("run input " +:+ na_name input +:+ " is not bound in the assembly")));;
  let slot := inject_slot input slot in
  put (put_run_slot (ii_run_id req) slot s);;
  append_locked "run.input_injected" (run_id (rs_run slot)) (encode_NamedArtifact input);;
  mret (rs_run slot).
Definition inject_input (req : InjectInputRequest) (now : Z) : Method Run :=
  inject_input_ctx req default_context now.

(** ** Leases *)
Definition cleared_lease (w : WorkItem) : WorkItem := ledger_work_item w.
Definition reap_events (run_id : string) (max_attempts : Z) (kc : string * ClaimedSlot)
    : list (string * string * bytes) :=
  let '(id, claimed) := kc in
  ("work.expired", id, encode_WorkItem (cleared_lease (cs_work claimed))) ::
  if cs_attempt claimed >=? max_attempts then
    [("work.failed", id,
      encode_WorkFailure (mkWorkFailure run_id id (cs_unit_key claimed)
        "lease expired; max_attempts exhausted" true (cs_attempt claimed)))]
  else [].
Definition expired_claims (slot : RunSlot) (now : Z) : list (string * ClaimedSlot) :=
  filter (λ kc, lease_expired now kc.2 = true) (hm_iter (rs_claimed slot)).
Definition append_event (ev : string * string * bytes) : Method unit :=
  let '(kind, subject, detail) := ev in append_locked kind subject detail;; mret tt.
Definition reap_expired_locked (run_id : string) (now : Z) : Method unit :=
  s ← get;
  match st_runs s !! run_id with
  | None => mret tt
  | Some slot =>
      let expired := expired_claims slot now in
      put (put_run_slot run_id (foldl reap_slot slot expired) s);;
      for_each_M append_event (mjoin (reap_events run_id (rs_max_attempts slot) <$> expired))
  end.

(** Closing an idle run, common to [claim_ready] and [fail_work]. *)
Definition close_stalled (id : string) : Method Run :=
  s ← get;
  slot ← lift (unwrap (st_runs s !! id));
  let slot := slot_closed RsStalled stall_reason slot in
  put (put_run_slot id slot s);;
  append_locked "run.stalled" (run_id (rs_run slot)) (encode_Run (rs_run slot));;
  mret (rs_run slot).

(** The lookup and the state check every claim-side operation starts with. *)
Definition running_slot (id : string) : Method RunSlot :=
  s ← get;
  slot ← lift (ok_or (NotFound id) (st_runs s !! id));
  lift (err_if (negb (bool_decide (run_state (rs_run slot) = RsRunning)))
          (RunClosed (run_state (rs_run slot))));;
  mret slot.

(** ** ClaimReady *)
Definition ready_candidate (s : State) (slot : RunSlot) (req : ClaimRequest)
    (node : AssemblyNode) : option (AssemblyNode * list NamedArtifact * string) :=
  if negb (node_matches_claim_filter req node) then None
  else '(inputs, unit_key) ← ready_unit s slot node; mret (node, inputs, unit_key).
Definition ready_candidates (s : State) (slot : RunSlot) (req : ClaimRequest)
    (assembly : Assembly) : list (AssemblyNode * list NamedArtifact * string) :=
  omap (ready_candidate s slot req) (as_nodes assembly).
Definition claim_want (slot : RunSlot) (req : ClaimRequest) : Z :=
  let max_items := if cr_max_items req =? 0 then 1 else cr_max_items req in
  Z.min max_items (in_flight_capacity slot).
Definition append_claimed (work : WorkItem) : Method unit :=
  append_locked "work.claimed" (wi_id work) (encode_WorkItem (ledger_work_item work));; mret tt.

Definition claim_ready (req : ClaimRequest) (now : Z) : Method ClaimResponse :=
  running_slot (cr_run_id req);;
  reap_expired_locked (cr_run_id req) now;;
  s ← get;
  slot ← lift (unwrap (st_runs s !! cr_run_id req));
  assembly ← lift (unwrap (run_assembly (rs_run slot)));
  let want := claim_want slot req in
  items ← (if want >? 0 then
      let ready := ready_candidates s slot req assembly in
      let '(slot, claimed_now) :=
        foldl (claim_slot (cr_run_id req) now) (slot, []) (take (Z.to_nat want) ready) in
      put (put_run_slot (cr_run_id req) slot s);;
      for_each_M append_claimed claimed_now;;
      mret claimed_now
    else mret []);
  s ← get;
  slot ← lift (unwrap (st_runs s !! cr_run_id req));
  (if list_is_empty items && negb (assembly_any_ready s slot) &&
      bool_decide (rs_claimed slot = ∅) && negb (is_open_closure slot)
   then close_stalled (cr_run_id req);; mret tt
   else mret tt);;
  mret (mkClaimResponse items).

(** ** Heartbeat *)
Definition heartbeat (req : HeartbeatRequest) (now : Z) : Method HeartbeatResponse :=
  slot ← running_slot (hr_run_id req);
  let extend := if hr_extend_lease_ms req =? 0 then rs_default_lease_ms slot
                else hr_extend_lease_ms req in
  let until := i64_sat_add now (as_i64 extend) in
  let '(slot, renewed, lost) := foldl (renew_slot until) (slot, [], []) (hr_work_ids req) in
  modify (put_run_slot (hr_run_id req) slot);;
  reap_expired_locked (hr_run_id req) now;;
  mret (mkHeartbeatResponse renewed lost).

(** ** FailWork *)
Definition fail_work (req : FailWorkRequest) (now : Z) : Method Run :=
  running_slot (fw_run_id req);;
  reap_expired_locked (fw_run_id req) now;;
  s ← get;
  slot ← lift (unwrap (st_runs s !! fw_run_id req));
  claimed ← lift (ok_or (Conflict "work was not claimed") (rs_claimed slot !! fw_work_id req));
  let slot := slot_with_claimed (delete (fw_work_id req) (rs_claimed slot)) slot in
  let terminal := fw_terminal req || (cs_attempt claimed >=? rs_max_attempts slot) in
  let failure := mkWorkFailure (fw_run_id req) (fw_work_id req) (cs_unit_key claimed)
                   (if str_is_empty (fw_reason req) then "failed" else fw_reason req)
                   terminal (cs_attempt claimed) in
  let slot := if terminal
              then slot_with_done ({[cs_unit_key claimed]} ∪ rs_done_units slot) slot
              else slot in
  put (put_run_slot (fw_run_id req) slot s);;
  append_locked "work.failed" (fw_work_id req) (encode_WorkFailure failure);;
  s ← get;
  slot ← lift (unwrap (st_runs s !! fw_run_id req));
  if negb (is_open_closure slot) && bool_decide (rs_claimed slot = ∅) &&
     negb (assembly_any_ready s slot)
  then close_stalled (fw_run_id req)
  else mret (rs_run slot).

(** ** Commit *)
Definition derivation_of (work : WorkItem) (outputs : list NamedArtifact) : Derivation :=
  let d := mkDerivation "" (wi_run_id work) (wi_id work) (wi_node_id work) (wi_module work)
             (wi_module_version work) (wi_capability work) (wi_inputs work) outputs in
  mkDerivation (derivation_id d) (wi_run_id work) (wi_id work) (wi_node_id work) (wi_module work)
    (wi_module_version work) (wi_capability work) (wi_inputs work) outputs.
Definition commit_slot (s : State) (claimed : ClaimedSlot) (terminal : NodeOutput)
    (derivation : Derivation) (slot : RunSlot) : RunSlot :=
  let '(slot, closed) :=
    close_on_max_steps
      (close_on_terminal terminal (wi_node_id (cs_work claimed)) derivation
         (record_commit claimed derivation slot)) in
  if negb closed && negb (is_open_closure slot) && bool_decide (rs_claimed slot = ∅) &&
     negb (assembly_any_ready s slot)
  then slot_closed RsStalled stall_reason slot
  else slot.
Definition run_event_kind (st : RunState) : string :=
  match st with
  | RsCompleted => "run.completed"
  | RsStalled => "run.stalled"
  | RsFailed => "run.failed"
  | _ => "run.progressed"
  end.

(** The clock is read twice: [t0] for the deadline, [now] for the leases. *)
Definition commit_ctx (submitted : Derivation) (ctx : RequestContext) (t0 now : Z) : Method Run :=
  lift (check_deadline ctx t0);;
  s ← get;
  match idempotent_get s "commit" ctx with
  | Some (IdemRun r) => mret r
  | _ =>
      running_slot (d_run_id submitted);;
      reap_expired_locked (d_run_id submitted) now;;
      s ← get;
      slot ← lift (unwrap (st_runs s !! d_run_id submitted));
      claimed ← lift (ok_or (Conflict "work was not claimed")
                        (rs_claimed slot !! d_work_id submitted));
      let work := cs_work claimed in
      lift (err_if (negb (str_is_empty (d_node_id submitted)) &&
                    negb (str_eqb (d_node_id submitted) (wi_node_id work)))
              (Invalid "node_id does not match the claim"));;
      lift (err_if (run_steps (rs_run slot) >=? run_max_steps (rs_run slot)) (RunClosed RsFailed));;
      cap ← lift (capability_for_work s work);
      lift (validate_outputs s cap (d_outputs submitted));;
      let derivation := derivation_of work (d_outputs submitted) in
      slot ← lift (unwrap (st_runs s !! wi_run_id work));
      assembly ← lift (unwrap (run_assembly (rs_run slot)));
      terminal ← lift (unwrap (as_terminal assembly));
      let slot := commit_slot s claimed terminal derivation slot in
      put (set_derivations (st_derivations s ++ [derivation]) (put_run_slot (wi_run_id work) slot s));;
      append_locked "derivation.committed" (d_id derivation) (encode_Derivation derivation);;
      append_locked (run_event_kind (run_state (rs_run slot))) (run_id (rs_run slot))
        (encode_Run (rs_run slot));;
      idempotent_put "commit" ctx (IdemRun (rs_run slot));;
      mret (rs_run slot)
  end.
Definition commit (submitted : Derivation) (t0 now : Z) : Method Run :=
  commit_ctx submitted default_context t0 now.

(** ** Reading and cancelling *)
Definition get_run (r : RunRef) : Method Run :=
  s ← get;
  slot ← lift (ok_or (NotFound (rref_id r)) (st_runs s !! rref_id r));
  mret (rs_run slot).
Definition cancel_run (r : RunRef) : Method Run :=
  slot ← running_slot (rref_id r);
  let slot := slot_with_claimed ∅ (slot_closed RsCancelled "cancelled" slot) in
  modify (put_run_slot (rref_id r) slot);;
  append_locked "run.cancelled" (run_id (rs_run slot)) (encode_Run (rs_run slot));;
  mret (rs_run slot).
Definition derivations : Method (list Derivation) := s ← get; mret (st_derivations s).
Definition list_derivations (r : RunRef) : Method DerivationList :=
  s ← get;
  lift (err_if (negb (has_key (rref_id r) (st_runs s))) (NotFound (rref_id r)));;
  mret (mkDerivationList (filter (λ d, d_run_id d = rref_id r) (st_derivations s))).
End runs.
