(* ===== verification/Units.v ===== *)
(** * Units: the identity of a work unit

    A unit key names one firing of one node, and a work id names the claim of a
    unit.  Which node a key belongs to can be read off the key; a work id
    determines its unit as long as no node id looks like a key
    ([plain_node_id]), because a ONCE unit is claimed under the node id itself. *)
From S2P Require Import Prelude Wire Errors Hash Traits State Assembly Work Runs.
Local Open Scope Z_scope.

(** ** Strings by length *)
Lemma length_as_bytes s : length (as_bytes s) = String.length s.
Proof.
  rw /as_bytes /String.list_byte_of_string length_map.
  induction s; simpl; congruence.
Qed.
Lemma str_app_inj_2 (a b c d : string) :
  String.length b = String.length d → a +:+ b = c +:+ d → a = c ∧ b = d.
Proof.
  intros Hl Heq. apply (f_equal as_bytes) in Heq. rw !as_bytes_app in Heq.
  apply app_inj_2 in Heq as [Ha Hb]; [|by rw !length_as_bytes].
  split; by apply as_bytes_inj.
Qed.

(** ** Unit keys *)
Definition unit_key_shape (node_id key : string) : Prop :=
  key = "once:" +:+ node_id ∨
  ∃ h, String.length h = 64%nat ∧
    (key = "key:" +:+ node_id +:+ ":" +:+ h ∨ key = "always:" +:+ node_id +:+ ":" +:+ h).

(** No node id starts with the prefix of a multi-fire unit key. *)
Definition plain_node_id (n : string) : Prop :=
  starts_with "key:" n = false ∧ starts_with "always:" n = false.
#[export] Instance plain_node_id_dec n : Decision (plain_node_id n).
Proof. unfold plain_node_id. apply _. Defined.


#[local] Transparent String.prefix.
Lemma starts_with_app p s : starts_with p (p +:+ s) = true.
Proof.
  rw /starts_with. induction p as [|c p IH]; simpl; [by destruct s|].
  by destruct (Ascii.ascii_dec c c).
Qed.
#[local] Opaque String.prefix.

Lemma unit_key_shape_once n key : unit_key_shape n key →
  starts_once key = bool_decide (key = "once:" +:+ n).
Proof.
  rw /starts_once. intros [->|(h & _ & [->| ->])].
  - rw starts_with_app. by rw bool_decide_eq_true_2.
  - by rw bool_decide_eq_false_2.
  - by rw bool_decide_eq_false_2.
Qed.
(** The node a key belongs to is part of the key. *)
Lemma unit_key_shape_inj n1 n2 key : unit_key_shape n1 key → unit_key_shape n2 key → n1 = n2.
Proof.
  intros [->|(h1 & Hl1 & [->| ->])] [Heq|(h2 & Hl2 & [Heq|Heq])]; try done;
    simpl in Heq; simplify_eq/=; try done.
  all: apply str_app_inj_2 in Heq as [? _]; [done|]; change (S (String.length h1) = S (String.length h2)); lia.
Qed.
(** A work id of one run determines the unit. *)
Lemma work_id_inj run n1 n2 k1 k2 :
  plain_node_id n1 → plain_node_id n2 → unit_key_shape n1 k1 → unit_key_shape n2 k2 →
  work_id_of run n1 k1 = work_id_of run n2 k2 → k1 = k2.
Proof.
  intros [Hp1 Hp1'] [Hp2 Hp2'] H1 H2. rw /work_id_of.
  rw (unit_key_shape_once n1 k1) // (unit_key_shape_once n2 k2) //.
  assert (∀ n k, k ≠ "once:" +:+ n → unit_key_shape n k →
    starts_with "key:" k = true ∨ starts_with "always:" k = true) as Hother.
  { intros n k Hne [->|(h & _ & [->| ->])]; [done|left|right]; apply starts_with_app. }
  case_bool_decide as Ho1; case_bool_decide as Ho2; simpl; intros Heq; simplify_eq/=.
  - done.
  - destruct (Hother n2 k2); [done..| |]; congruence.
  - destruct (Hother n1 n2); [done..| |]; congruence.
  - done.
Qed.
(** Within a run a unit key is claimed under one work id. *)
Lemma work_id_functional run n1 n2 key :
  unit_key_shape n1 key → unit_key_shape n2 key → work_id_of run n1 key = work_id_of run n2 key.
Proof. intros H1 H2. by rw (unit_key_shape_inj n1 n2 key). Qed.

Section units.
Context `{Platform}.

Lemma work_unit_key_shape slot node cap firing inputs key :
  work_unit_key slot node cap firing inputs = Some key → unit_key_shape (an_id node) key.
Proof.
  assert (∀ m, String.length (hex (sha256 m)) = 64%nat) as Hl.
  { intros m. by rw hex_length sha256_length. }
  rw /work_unit_key. destruct firing; intros Hk; simplify_eq; try by left.
  - right. destruct (delivery_fingerprint _ _ _) as [fp|] eqn:Hfp; simplify_eq/=.
    injection Hk as <-. exists fp. split; [|by right]. rw /delivery_fingerprint in Hfp.
    destruct (delivery_rows _ _ _); [|done]. injection Hfp as <-. apply Hl.
  - right. eexists. split; [|by left]. apply Hl.
Qed.

(** ** Readiness *)
Lemma unit_is_claimed_false slot key :
  unit_is_claimed slot key = false ↔
  ∀ wid c, rs_claimed slot !! wid = Some c → cs_unit_key c ≠ key.
Proof. rw /unit_is_claimed map_any_false. by setoid_rewrite str_eqb_false. Qed.
Lemma ready_unit_Some s slot node inputs key :
  ready_unit s slot node = Some (inputs, key) ↔
  resolve_inputs slot node = Some inputs ∧
  (∃ cap, capability_for_node s node = Ok cap ∧
     work_unit_key slot node cap (effective_firing slot node cap) inputs = Some key) ∧
  (key ∉ rs_done_units slot) ∧ unit_is_claimed slot key = false.
Proof.
  rw /ready_unit. destruct (resolve_inputs slot node) as [i|]; simpl;
    [|by split; [|intros (? & _)]].
  destruct (capability_for_node s node) as [cap|e|]; simpl;
    [|by split; [|intros (_ & (? & ? & _) & _)]..].
  destruct (work_unit_key _ _ _ _ _) as [k|] eqn:Hk; simpl;
    [|split; [done|intros ([= <-] & (? & [= <-] & ?) & _); congruence]].
  assert (∀ cap' k', Ok (E:=KernelError) cap = Ok cap' →
    work_unit_key slot node cap' (effective_firing slot node cap') i = Some k' → k' = k) as Hsame.
  { intros ? k' [= <-]. congruence. }
  case_bool_decide; [|destruct (unit_is_claimed slot k) eqn:Hc].
  - split; [done|]. intros ([= <-] & (cap' & Hc & Hk') & Hn & _). by rw (Hsame cap' key) in Hn.
  - split; [done|]. intros ([= <-] & (cap' & Hc' & Hk') & _ & Hn). rw (Hsame cap' key) in Hn; congruence.
  - split; [intros [= <- <-]; eauto 6|].
    intros ([= <-] & (cap' & Hc' & Hk') & _ & _). by rw (Hsame cap' key).
Qed.
Lemma ready_unit_shape s slot node inputs key :
  ready_unit s slot node = Some (inputs, key) → unit_key_shape (an_id node) key.
Proof. intros (_ & (cap & _ & Hk) & _)%ready_unit_Some. by eapply work_unit_key_shape. Qed.

(** Claiming one unit leaves the others ready. *)
Lemma ready_unit_claim s slot node inputs key run now node' inputs' key' :
  ready_unit s slot node = Some (inputs, key) → key' ≠ key →
  ready_unit s (claim_slot run now (slot, []) (node', inputs', key')).1 node = Some (inputs, key).
Proof.
  rw !ready_unit_Some !unit_is_claimed_false. intros (Hr & Hk & Hd & Hc) Hne.
  split_and!; [done|done|done|]. simpl. intros wid c. rw lookup_insert_Some.
  intros [[_ <-]|[_ Hwc]]; [done|by eapply Hc].
Qed.

(** Readiness reads the registry and the slot, nothing else. *)
Lemma ready_unit_modules s s' slot node :
  st_modules s' = st_modules s → ready_unit s' slot node = ready_unit s slot node.
Proof. intros Hm. by rw /ready_unit /capability_for_node /node_providers Hm. Qed.
Lemma assembly_any_ready_modules s s' slot :
  st_modules s' = st_modules s → assembly_any_ready s' slot = assembly_any_ready s slot.
Proof.
  intros Hm. rw /assembly_any_ready. destruct (run_assembly _) as [a|]; [|done].
  induction (as_nodes a) as [|n l IH]; simpl; [done|]. by rw (ready_unit_modules s s') // IH.
Qed.
Lemma ready_candidates_modules s s' slot req a :
  st_modules s' = st_modules s → ready_candidates s' slot req a = ready_candidates s slot req a.
Proof.
  intros Hm. rw /ready_candidates. apply list_omap_ext. apply Forall2_same_length_lookup_2; [done|].
  intros i x y Hx Hy. simplify_eq. by rw /ready_candidate (ready_unit_modules s s').
Qed.
End units.
