(* ===== verification/Steps.v ===== *)
(** * Steps: the atomic transitions of the kernel, as a relation

    [slot_step] lists what can happen to one run slot and [kstep] what can
    happen to the kernel state: one constructor per mutation the code makes
    while it holds the lock.  Every operation is a sequence of these
    transitions ([..._steps] lemmas), so an invariant is proved once per transition by
    rule induction and holds of every operation. *)
From S2P Require Import Prelude Wire Errors Hash Traits Policy State Registry Store Events Assembly Work Runs.
From S2P Require Import Units.
Local Open Scope Z_scope.

Definition running (slot : RunSlot) : Prop := run_state (rs_run slot) = RsRunning.

(** What [fail_work] leaves of a slot. *)
Definition fail_slot (wid : string) (claimed : ClaimedSlot) (terminal : bool) (slot : RunSlot)
    : RunSlot :=
  let slot := slot_with_claimed (delete wid (rs_claimed slot)) slot in
  if terminal then slot_with_done ({[cs_unit_key claimed]} ∪ rs_done_units slot) slot else slot.
Definition cancel_slot (slot : RunSlot) : RunSlot :=
  slot_with_claimed ∅ (slot_closed RsCancelled "cancelled" slot).

(** Which operation a cached result belongs to. *)
Definition idem_of (op : string) (value : IdempotentResult) : Prop :=
  match value with
  | IdemArtifactRef _ => op = "put_artifact"
  | IdemRun _ => op = "start_run" ∨ op = "commit"
  end.

Section steps.
Context `{Platform}.
Variable store_policy : ArtifactStorePolicy.

(** ** One run slot *)
Inductive slot_step (s : State) (id : string) (slot : RunSlot) : RunSlot → Prop :=
  | ss_reap now wid c :
      rs_claimed slot !! wid = Some c → lease_expired now c = true →
      slot_step s id slot (reap_slot slot (wid, c))
  | ss_claim now assembly node inputs key :
      run_assembly (rs_run slot) = Some assembly → node ∈ as_nodes assembly →
      ready_unit s slot node = Some (inputs, key) →
      (rs_max_in_flight slot ≠ 0 → Z.of_nat (size (rs_claimed slot)) < rs_max_in_flight slot) →
      slot_step s id slot (claim_slot id now (slot, []) (node, inputs, key)).1
  | ss_renew until wid c :
      rs_claimed slot !! wid = Some c →
      slot_step s id slot (slot_with_claimed (<[wid := renew until c]> (rs_claimed slot)) slot)
  | ss_fail wid c terminal :
      rs_claimed slot !! wid = Some c →
      ((cs_attempt c >=? rs_max_attempts slot) = true → terminal = true) →
      slot_step s id slot (fail_slot wid c terminal slot)
  | ss_inject input r :
      na_artifact input = Some r → ar_id r ∈ dom (st_artifacts s) →
      slot_step s id slot (inject_slot input slot)
  | ss_stall :
      rs_claimed slot = ∅ → assembly_any_ready s slot = false → is_open_closure slot = false →
      slot_step s id slot (slot_closed RsStalled stall_reason slot)
  | ss_cancel : slot_step s id slot (cancel_slot slot).

(** The first state of a run. *)
Inductive fresh_slot (s : State) (id : string) : RunSlot → Prop :=
  | fresh_slot_intro order assembly inputs max_steps max_in_flight lease max_attempts policy :
      @validate_assembly _ order s assembly inputs = Ok tt →
      id ≠ "" → max_steps ≠ 0 → lease ≠ 0 → max_attempts ≠ 0 →
      (0 ≤ max_steps < 2^64 ∧ u64_ok max_in_flight ∧ u64_ok lease ∧ u32_ok max_attempts) →
      fresh_slot s id
        (mkRunSlot (mkRun id (Some assembly) inputs (RunState_i32 RsRunning) None 0 max_steps ""
                      policy)
           ∅ ∅ ∅ ∅ (inputs_at_epoch_zero inputs) ∅ max_in_flight lease max_attempts).

(** ** The kernel state *)
Inductive kstep (s : State) : State → Prop :=
  | k_append kind subject detail :
      kstep s (set_ledger (st_ledger s ++ [next_entry (st_ledger s) kind subject detail]) s)
  | k_capability cap : kstep s (set_capabilities (st_capabilities s ++ [cap]) s)
  | k_placeholder ref :
      ref ≠ "" → st_contracts s !! ref = None →
      kstep s (set_contracts (<[ref := contract_placeholder ref]> (st_contracts s)) s)
  | k_module m : kstep s (set_modules (st_modules s ++ [mkModuleSlot m LcRegistered]) s)
  | k_lifecycle i slot to :
      st_modules s !! i = Some slot → Lifecycle_i32 to = Lifecycle_i32 (ms_lifecycle slot) + 1 →
      kstep s (set_modules (<[i := mkModuleSlot (ms_manifest slot) to]> (st_modules s)) s)
  | k_contract c :
      con_ref c ≠ "" → con_digest c = contract_digest_of c →
      con_compatible_with c = sort_strings (con_compatible_with c) →
      (∀ e, st_contracts s !! con_ref c = Some e →
         is_contract_placeholder e = true ∧ is_contract_placeholder c = false) →
      kstep s (set_contracts (<[con_ref c := c]> (st_contracts s)) s)
  | k_artifact a :
      st_artifacts s !! artifact_id_of a = None →
      validate_artifact_content a store_policy = Ok tt →
      (∀ k tr, art_traits a !! k = Some tr → verify_external_trait s tr = Ok tt) →
      kstep s (set_artifacts
                 (<[artifact_id_of a := art_with_id (artifact_id_of a) a]> (st_artifacts s)) s)
  | k_blob ns data :
      st_blobs s !! (ns, blob_id data) = None →
      enforce_blob_size store_policy (len data) = Ok tt →
      kstep s (set_blobs (<[(ns, blob_id data) :=
                 mkBlobSlot data (mkBlobRef (blob_id data) (u64 (len data)) ns)]> (st_blobs s)) s)
  | k_subscribe topics :
      kstep s (set_subs (st_subs s ++ [mkSub topics (length (st_chans s))])
                 (set_chans (st_chans s ++ [mkChan [] true]) s))
  | k_publish e :
      let seq := u64 (st_event_seq s + 1) in
      let r := deliver (event_with_seq seq e) (st_subs s) (st_chans s) in
      kstep s (set_ledger (st_ledger s ++ [next_entry (st_ledger s) "event.published" (ev_topic e)
                             (encode_Event (event_with_seq seq e))])
                 (set_subs r.1 (set_chans r.2 (set_event_seq seq s))))
  | k_receive rx e q c :
      st_chans s !! rx = Some (mkChan (e :: q) c) →
      kstep s (set_chans (<[rx := mkChan q c]> (st_chans s)) s)
  | k_drop rx c :
      st_chans s !! rx = Some c →
      kstep s (set_chans (<[rx := mkChan [] false]> (st_chans s)) s)
  | k_start id slot :
      st_runs s !! id = None → fresh_slot s id slot → kstep s (put_run_slot id slot s)
  | k_slot id slot slot' :
      st_runs s !! id = Some slot → running slot → slot_step s id slot slot' →
      kstep s (put_run_slot id slot' s)
  | k_commit rid slot0 wid c slot cap outputs assembly terminal :
      st_runs s !! rid = Some slot0 → running slot0 → rs_claimed slot0 !! wid = Some c →
      run_steps (rs_run slot0) < run_max_steps (rs_run slot0) →
      capability_for_work s (cs_work c) = Ok cap → validate_outputs s cap outputs = Ok tt →
      st_runs s !! wi_run_id (cs_work c) = Some slot →
      run_assembly (rs_run slot) = Some assembly → as_terminal assembly = Some terminal →
      let derivation := derivation_of (cs_work c) outputs in
      kstep s (set_derivations (st_derivations s ++ [derivation])
                 (put_run_slot (wi_run_id (cs_work c)) (commit_slot s c terminal derivation slot) s))
  | k_idem op ctx key value :
      idempotency_key op ctx = Some key → idem_of op value →
      st_idempotency s !! key = None →
      kstep s (set_idempotency (<[key := value]> (st_idempotency s)) s).

Definition ksteps : relation State := rtc kstep.
#[global] Instance ksteps_preorder : PreOrder ksteps := _.
Lemma ksteps_refl s : ksteps s s.
Proof. apply rtc_refl. Qed.
#[local] Hint Resolve ksteps_refl : core.

(** ** Sequencing *)
(** From [s], the method makes a sequence of transitions. *)
Definition steps_from {A} (s : State) (m : Method A) : Prop := ksteps s (m s).2.

Lemma steps_pure {A} s (m : Method A) : (m s).2 = s → steps_from s m.
Proof. rw /steps_from. intros ->. apply rtc_refl. Qed.
Lemma steps_ret {A} s (a : A) : steps_from s (mret a).
Proof. by apply steps_pure. Qed.
Lemma steps_lift {A} s (o : Result A) : steps_from s (lift o).
Proof. by apply steps_pure. Qed.
Lemma steps_fail {A} s e : steps_from s (fail e : Method A).
Proof. by apply steps_pure. Qed.
Lemma steps_bind {A B} s (m : Method A) (k : A → Method B) :
  steps_from s m → (∀ a s', m s = (Ok a, s') → steps_from s' (k a)) → steps_from s (m ≫= k).
Proof.
  rw /steps_from /mbind /M_bind. destruct (m s) as [[a|e|] s'] eqn:Hm; simpl; [|done..].
  intros Hs Hk. etrans; [done|]. by apply Hk.
Qed.
Lemma steps_get {B} s (k : State → Method B) : steps_from s (k s) → steps_from s (get ≫= k).
Proof. intros Hk. apply steps_bind; [by apply steps_pure|]. by intros a s' [= <- <-]. Qed.
Lemma steps_lift_bind {A B} s (o : Result A) (k : A → Method B) :
  (∀ a, o = Ok a → steps_from s (k a)) → steps_from s (lift o ≫= k).
Proof. intros Hk. apply steps_bind; [apply steps_lift|]. intros a s' [= -> <-]. by apply Hk. Qed.
Lemma steps_put_bind {B} s s' (k : () → Method B) :
  ksteps s s' → steps_from s' (k tt) → steps_from s (put s' ≫= k).
Proof. intros Hs Hk. apply steps_bind; [done|]. by intros [] ? [= <-]. Qed.
Lemma steps_modify_bind {B} s f (k : () → Method B) :
  ksteps s (f s) → steps_from (f s) (k tt) → steps_from s (modify f ≫= k).
Proof. intros Hs Hk. apply steps_bind; [done|]. by intros [] ? [= <-]. Qed.
Lemma steps_append_bind {B} s kind subject detail (k : LedgerEntry → Method B) :
  (∀ e s', st_runs s' = st_runs s → st_modules s' = st_modules s →
     st_idempotency s' = st_idempotency s → steps_from s' (k e)) →
  steps_from s (append_locked kind subject detail ≫= k).
Proof.
  intros Hk. apply steps_bind; [apply rtc_once, k_append|]. intros a s' [= <- <-]. by apply Hk.
Qed.
Lemma steps_weaken {A} s s' (m : Method A) :
  ksteps s s' → steps_from s' m → ksteps s (m s').2.
Proof. intros ? ?. by etrans. Qed.

(** ** Registry and store *)
Lemma ensure_contract_placeholder_steps s ref : ksteps s (ensure_contract_placeholder s ref).
Proof.
  rw /ensure_contract_placeholder. destruct (str_is_empty ref) eqn:Hr; [done|]. inv_oks.
  destruct (st_contracts s !! ref) eqn:Hc; [done|]. by apply rtc_once, k_placeholder.
Qed.
Lemma foldl_steps {A} (f : State → A → State) l s :
  (∀ s x, ksteps s (f s x)) → ksteps s (foldl f s l).
Proof.
  intros Hf. revert s. induction l as [|x l IH]; intros s; simpl; [done|].
  etrans; [apply Hf|apply IH].
Qed.
Lemma register_capability_steps s cap : ksteps s (register_capability s cap).
Proof.
  rw /register_capability. eapply rtc_l; [apply k_capability|].
  apply foldl_steps. intros s' p. apply foldl_steps, ensure_contract_placeholder_steps.
Qed.
Lemma register_ctx_steps s m ctx : steps_from s (register_ctx m ctx).
Proof.
  apply steps_modify_bind; [apply foldl_steps, register_capability_steps|].
  apply steps_modify_bind; [apply rtc_once, k_module|].
  apply steps_append_bind. intros. apply steps_ret.
Qed.
Lemma transition_req_steps s req ctx now : steps_from s (transition_req req ctx now).
Proof.
  apply steps_lift_bind. intros _ _. apply steps_get. apply steps_lift_bind.
  intros [i slot] Hfind. inv_oks. apply list_find_Some in Hfind as (Hi & _ & _).
  apply steps_bind.
  - destruct (_ =? _) eqn:Heq; [|apply steps_ret]. apply Z.eqb_eq in Heq.
    apply steps_put_bind; [by apply rtc_once, k_lifecycle|].
    apply steps_append_bind. intros. apply steps_ret.
  - intros [] s' _. apply steps_get. apply steps_lift_bind. intros [] _. apply steps_ret.
Qed.
Lemma put_contract_steps s c : steps_from s (put_contract c).
Proof.
  apply steps_lift_bind. intros [] Href. inv_oks. apply steps_lift_bind. intros [] _.
  apply steps_get. cbv zeta. set c' := mkContract _ _ _ _ _ _.
  assert (con_compatible_with c' = sort_strings (con_compatible_with c')) as Hsorted.
  { symmetry. apply sort_strings_idem. }
  assert (con_digest c' = contract_digest_of c') as Hdigest.
  { rw /contract_digest_of -Hsorted. done. }
  destruct (st_contracts s !! con_ref c) as [e|] eqn:He.
  - simpl. destruct (str_eqb _ _); [apply steps_ret|]. destruct (_ && _) eqn:Hp; [|apply steps_fail].
    inv_oks. apply steps_put_bind.
    { apply rtc_once, (k_contract _ c'); [done..|]. intros e'. rw /= He. by intros [= <-]. }
    apply steps_append_bind. intros. apply steps_ret.
  - apply steps_put_bind.
    { apply rtc_once, (k_contract _ c'); [done..|]. intros e'. by rw /= He. }
    apply steps_append_bind. intros. apply steps_ret.
Qed.

Lemma put_blob_steps s req : steps_from s (put_blob store_policy req).
Proof.
  apply steps_lift_bind. intros [] Hsize. apply steps_lift_bind. intros [] _.
  apply steps_get. cbv zeta. destruct (st_blobs s !! _) eqn:Hb; [apply steps_ret|].
  apply steps_put_bind; [by apply rtc_once, k_blob|].
  apply steps_append_bind. intros. apply steps_ret.
Qed.
Lemma idempotent_put_steps s op ctx v : idem_of op v → steps_from s (idempotent_put op ctx v).
Proof.
  intros Hop. rw /idempotent_put. destruct (idempotency_key op ctx) as [key|] eqn:Hkey; [|apply steps_ret].
  rw /steps_from /=. destruct (st_idempotency s !! key) eqn:Hk; [done|].
  by eapply rtc_once, k_idem.
Qed.
Lemma put_artifact_ctx_steps s a ctx now :
  steps_from s (put_artifact_ctx store_policy a ctx now).
Proof.
  apply steps_lift_bind. intros [] _. apply steps_lift_bind. intros [] Hvalid.
  apply steps_get.
  assert (steps_from s
    (lift (for_each (λ _ '(_, tr), verify_external_trait s tr) tt (btree_iter (art_traits a)));;
     (if has_key (artifact_id_of a) (st_artifacts s) then mret tt
      else
        put (set_artifacts
          (<[artifact_id_of a := art_with_id (artifact_id_of a) a]> (st_artifacts s)) s);;
        append_locked "artifact.put" (artifact_id_of a)
          (encode_Artifact (clear_external_bodies (art_with_id (artifact_id_of a) a)));;
        mret tt);;
     idempotent_put "put_artifact" ctx (IdemArtifactRef (mkArtifactRef (artifact_id_of a)));;
     mret (mkArtifactRef (artifact_id_of a)))) as Hput;
    [|by destruct (idempotent_get s _ ctx) as [[]|]; [apply steps_ret|..]].
  apply steps_lift_bind. intros [] Hext.
  rw (for_each_check (λ '(_, tr), verify_external_trait s tr)) Forall_forall in Hext.
  apply steps_bind.
  - rw /has_key. destruct (st_artifacts s !! _) eqn:Ha; [apply steps_ret|].
    apply steps_put_bind.
    + apply rtc_once, k_artifact; [done..|]. intros k tr Hk. apply elem_of_btree_iter in Hk.
      by apply Hext in Hk.
    + apply steps_append_bind. intros. apply steps_ret.
  - intros [] s' _. apply steps_bind; [by apply idempotent_put_steps|]. intros. apply steps_ret.
Qed.

(** ** Events *)
Lemma subscribe_steps s sub : steps_from s (subscribe sub).
Proof. apply steps_get, steps_put_bind; [apply rtc_once, k_subscribe|apply steps_ret]. Qed.
Lemma publish_steps s e : steps_from s (publish e).
Proof.
  rw /steps_from. pose proof (k_publish s e) as Hk.
  rw /publish /modify /get /put /mbind /M_bind /=.
  destruct (deliver _ _ _) as [subs chans] eqn:Hd. simpl in Hk. rw Hd in Hk.
  by apply rtc_once.
Qed.
Lemma receive_steps s rx : steps_from s (receive rx).
Proof.
  rw /steps_from /receive. destruct (st_chans s !! rx) as [[[|e q] c]|] eqn:Hc; [done| |done].
  eapply rtc_once, k_receive, Hc.
Qed.
Lemma drop_receiver_steps s rx : steps_from s (drop_receiver rx).
Proof.
  rw /steps_from /drop_receiver. destruct (st_chans s !! rx) as [c|] eqn:Hc; [|done].
  eapply rtc_once, k_drop, Hc.
Qed.
Lemma append_steps s kind subject detail : steps_from s (append_locked kind subject detail).
Proof. apply rtc_once, k_append. Qed.

(** ** Runs: several slot transitions behind one write *)
Lemma put_same_slot s id slot : st_runs s !! id = Some slot → put_run_slot id slot s = s.
Proof. intros Hs. rw /put_run_slot insert_id //. by destruct s. Qed.
Lemma put_put_slot s id slot slot' :
  put_run_slot id slot (put_run_slot id slot' s) = put_run_slot id slot s.
Proof. rw /put_run_slot /set_runs /=. by rw insert_insert_eq. Qed.

(** A transition of the slot just written is a transition of the kernel. *)
Lemma put_slot_step s id slot slot' :
  running slot → slot_step (put_run_slot id slot s) id slot slot' →
  ksteps (put_run_slot id slot s) (put_run_slot id slot' s).
Proof.
  intros Hr Hs. apply rtc_once. rw -(put_put_slot s id slot' slot).
  eapply k_slot; [|done|done]. by rw /= lookup_insert_eq.
Qed.

#[local] Arguments reap_slot : simpl never.
#[local] Arguments renew_slot : simpl never.
#[local] Arguments claim_slot : simpl never.
Lemma reap_slot_running slot kc : running slot → running (reap_slot slot kc).
Proof. destruct kc as [wid c]. rw /reap_slot. by destruct (_ >=? _). Qed.
Lemma reap_slot_lookup slot wid c wid' :
  wid' ≠ wid → rs_claimed (reap_slot slot (wid, c)) !! wid' = rs_claimed slot !! wid'.
Proof. intros Hne. rw /reap_slot. destruct (_ >=? _); by rw /= lookup_delete_ne. Qed.
Lemma reap_fold_steps s id now l slot :
  running slot → NoDup l.*1 →
  (∀ wid c, (wid, c) ∈ l → rs_claimed slot !! wid = Some c ∧ lease_expired now c = true) →
  ksteps (put_run_slot id slot s) (put_run_slot id (foldl reap_slot slot l) s).
Proof.
  revert slot. induction l as [|[wid c] l IH]; intros slot Hr; simpl; [done|].
  intros [Hwid Hnd]%NoDup_cons Hl. destruct (Hl wid c ltac:(left)) as [Hc Hexp].
  etrans; [eapply put_slot_step; [done|by eapply ss_reap]|].
  apply IH; [by apply reap_slot_running|done|]. intros wid' c' Hin.
  destruct (Hl wid' c' ltac:(by right)) as [Hc' He']. split; [|done].
  rw reap_slot_lookup //. intros ->. apply Hwid. apply list_elem_of_fmap. by exists (wid, c').
Qed.

Lemma renew_fold_steps s id until wids acc :
  running acc.1.1 →
  ksteps (put_run_slot id acc.1.1 s)
    (put_run_slot id (foldl (renew_slot until) acc wids).1.1 s) ∧
  running (foldl (renew_slot until) acc wids).1.1.
Proof.
  revert acc. induction wids as [|wid wids IH]; intros [[slot renewed] lost] Hr; simpl in *; [done|].
  assert (renew_slot until (slot, renewed, lost) wid =
    match rs_claimed slot !! wid with
    | Some c => (slot_with_claimed (<[wid := renew until c]> (rs_claimed slot)) slot,
                 renewed ++ [wid], lost)
    | None => (slot, renewed, lost ++ [wid])
    end) as -> by done.
  destruct (rs_claimed slot !! wid) as [c|] eqn:Hc;
    [|by apply (IH (slot, renewed, lost ++ [wid]))].
  destruct (IH (slot_with_claimed (<[wid:=renew until c]> (rs_claimed slot)) slot,
    renewed ++ [wid], lost)) as [Hs Hr']; [done|]. split; [|done].
  etrans; [|exact Hs]. apply put_slot_step; [done|]. by eapply ss_renew.
Qed.

(** Candidates of one claim call: ready, for different units, within the
    in-flight limit. *)
Definition claimable (s : State) (assembly : Assembly) (slot : RunSlot)
    (cands : list (AssemblyNode * list NamedArtifact * string)) : Prop :=
  run_assembly (rs_run slot) = Some assembly ∧
  NoDup cands.*2 ∧
  Forall (λ '(node, inputs, key), node ∈ as_nodes assembly ∧
            ready_unit s slot node = Some (inputs, key)) cands ∧
  (rs_max_in_flight slot ≠ 0 → Z.of_nat (size (rs_claimed slot)) + len cands ≤ rs_max_in_flight slot).
Lemma claimable_step s assembly slot node inputs key cands run now :
  claimable s assembly slot ((node, inputs, key) :: cands) →
  claimable s assembly (claim_slot run now (slot, []) (node, inputs, key)).1 cands.
Proof.
  intros (Ha & [Hk Hnd]%NoDup_cons & [_ Hc]%Forall_cons & Hmax). split_and!; [done|done| |].
  - rw !Forall_forall in Hc |- *. intros [[node' inputs'] key'] Hin.
    destruct (Hc _ Hin) as [Hn Hr]. split; [done|]. apply ready_unit_claim; [done|].
    intros <-. apply Hk. apply list_elem_of_fmap. by exists (node', inputs', key).
  - intros Hm. specialize (Hmax Hm). rw /len /= in Hmax |- *.
    etrans; [|exact Hmax]. etrans; [apply Z.add_le_mono_r, inj_le, size_insert_le|]. lia.
Qed.

Lemma claim_fold_steps s assembly id now cands acc :
  running acc.1 → claimable s assembly acc.1 cands →
  ksteps (put_run_slot id acc.1 s)
    (put_run_slot id (foldl (claim_slot id now) acc cands).1 s) ∧
  running (foldl (claim_slot id now) acc cands).1.
Proof.
  revert acc. induction cands as [|[[node inputs] key] cands IH]; intros [slot items] Hr Hc;
    simpl in *; [done|].
  pose proof (claimable_step _ _ _ _ _ _ _ id now Hc) as Hc'.
  destruct Hc as (Ha & _ & [[Hn Hready] _]%Forall_cons & Hmax).
  destruct (IH (claim_slot id now (slot, items) (node, inputs, key))) as [Hs Hr']; [done|done|].
  split; [|done]. etrans; [|exact Hs]. apply put_slot_step; [done|].
  eapply (ss_claim _ _ slot now assembly node inputs key); [done..|].
  intros Hm. specialize (Hmax Hm). rw /len /= in Hmax. lia.
Qed.

(** ** Runs: the operations *)
Lemma running_slot_ok s id slot s' :
  running_slot id s = (Ok slot, s') → s' = s ∧ st_runs s !! id = Some slot ∧ running slot.
Proof.
  rw /running_slot /mbind /M_bind /get /lift /=. destruct (st_runs s !! id) as [sl|]; simpl; [|done].
  case_bool_decide; simpl; [|done]. by intros [= <- <-].
Qed.
Lemma running_slot_run s id slot :
  st_runs s !! id = Some slot → running slot → running_slot id s = (Ok slot, s).
Proof.
  intros Hs Hr. apply run_get. eapply run_lift; [by rw Hs|].
  by eapply run_lift; [rw bool_decide_eq_true_2|].
Qed.
Lemma running_slot_state s id : (running_slot id s).2 = s.
Proof.
  rw /running_slot /mbind /M_bind /get /lift /=. destruct (st_runs s !! id) as [sl|]; simpl; [|done].
  by case_bool_decide.
Qed.
Lemma steps_running_bind {B} s id (k : RunSlot → Method B) :
  (∀ slot, st_runs s !! id = Some slot → running slot → steps_from s (k slot)) →
  steps_from s (running_slot id ≫= k).
Proof.
  intros Hk. apply steps_bind; [apply steps_pure, running_slot_state|].
  intros slot s' (-> & Hs & Hr)%running_slot_ok. by apply Hk.
Qed.

Lemma append_events_spec {A} (f : A → Method unit) l s :
  (∀ x s, ∃ s', f x s = (Ok tt, s') ∧ ksteps s s' ∧ st_runs s' = st_runs s ∧
     st_modules s' = st_modules s) →
  ∃ s', for_each_M f l s = (Ok tt, s') ∧ ksteps s s' ∧ st_runs s' = st_runs s ∧
    st_modules s' = st_modules s.
Proof.
  intros Hf. revert s. induction l as [|x l IH]; intros s; simpl; [by eexists|].
  destruct (Hf x s) as (s1 & Hx & Hs1 & Hr1 & Hm1). destruct (IH s1) as (s2 & Hl & Hs2 & Hr2 & Hm2).
  exists s2. rw /mbind /M_bind Hx. split_and!; [done|by etrans|congruence..].
Qed.
Lemma append_event_spec ev s :
  ∃ s', append_event ev s = (Ok tt, s') ∧ ksteps s s' ∧ st_runs s' = st_runs s ∧
    st_modules s' = st_modules s.
Proof.
  destruct ev as [[kind subject] detail]. eexists. split; [done|].
  split; [apply rtc_once, k_append|done].
Qed.
Lemma append_claimed_spec w s :
  ∃ s', append_claimed w s = (Ok tt, s') ∧ ksteps s s' ∧ st_runs s' = st_runs s ∧
    st_modules s' = st_modules s.
Proof. eexists. split; [done|]. split; [apply rtc_once, k_append|done]. Qed.

Section runs.
Context `{HashOrder}.

Lemma expired_claims_spec slot now :
  NoDup (expired_claims slot now).*1 ∧
  ∀ wid c, (wid, c) ∈ expired_claims slot now ↔
    rs_claimed slot !! wid = Some c ∧ lease_expired now c = true.
Proof.
  split; [apply nodup_fmap_filter, hm_iter_nodup|]. intros wid c.
  rw /expired_claims list_elem_of_filter elem_of_hm_iter. by rw and_comm.
Qed.
(** The slot the reaper leaves. *)
Definition reaped (slot : RunSlot) (now : Z) : RunSlot :=
  foldl reap_slot slot (expired_claims slot now).
Lemma reap_fold_run l slot : rs_run (foldl reap_slot slot l) = rs_run slot.
Proof.
  revert slot. induction l as [|[wid c] l IH]; intros slot; simpl; [done|].
  rw IH /reap_slot. by destruct (_ >=? _).
Qed.
Lemma reap_fold_limits l slot : rs_max_in_flight (foldl reap_slot slot l) = rs_max_in_flight slot.
Proof.
  revert slot. induction l as [|[wid c] l IH]; intros slot; simpl; [done|].
  rw IH /reap_slot. by destruct (_ >=? _).
Qed.
Lemma reaped_run slot now : rs_run (reaped slot now) = rs_run slot.
Proof. apply reap_fold_run. Qed.

Lemma reap_expired_spec s id now slot :
  st_runs s !! id = Some slot → running slot →
  ∃ s', reap_expired_locked id now s = (Ok tt, s') ∧ ksteps s s' ∧
    st_runs s' = <[id := reaped slot now]> (st_runs s) ∧ st_modules s' = st_modules s.
Proof.
  intros Hs Hr. rw /reap_expired_locked /get /put /mbind /M_bind /= Hs.
  destruct (expired_claims_spec slot now) as [Hnd Hexp].
  destruct (append_events_spec append_event
    (mjoin (reap_events id (rs_max_attempts slot) <$> expired_claims slot now))
    (put_run_slot id (foldl reap_slot slot (expired_claims slot now)) s))
    as (s' & He & Hs' & Hruns & Hmods); [intros; apply append_event_spec|].
  exists s'. split_and!; [done| |done|done].
  etrans; [|exact Hs']. rw -{1}(put_same_slot s id slot Hs).
  eapply reap_fold_steps; [done|done|]. intros wid c Hin. by apply Hexp.
Qed.
Lemma steps_reap_bind {B} s id now slot (k : () → Method B) :
  st_runs s !! id = Some slot → running slot →
  (∀ s', st_runs s' = <[id := reaped slot now]> (st_runs s) → st_modules s' = st_modules s →
     steps_from s' (k tt)) →
  steps_from s (reap_expired_locked id now ≫= k).
Proof.
  intros Hs Hr Hk. destruct (reap_expired_spec s id now slot Hs Hr) as (s' & Hreap & Hss & Hr' & Hm').
  apply steps_bind; [by rw /steps_from Hreap|]. rw Hreap. intros [] ? [= <-]. by apply Hk.
Qed.
Lemma reaped_running slot now : running slot → running (reaped slot now).
Proof. by rw /running reaped_run. Qed.

Lemma ready_candidates_spec s slot req assembly node inputs key :
  (node, inputs, key) ∈ ready_candidates s slot req assembly →
  node ∈ as_nodes assembly ∧ node_matches_claim_filter req node = true ∧
  ready_unit s slot node = Some (inputs, key).
Proof.
  rw /ready_candidates list_elem_of_omap. intros (node' & Hin & Hc). rw /ready_candidate in Hc.
  destruct (node_matches_claim_filter req node') eqn:Hf; simpl in Hc; [|done].
  destruct (ready_unit s slot node') as [[i k]|] eqn:Hr; simpl in Hc; [|done].
  by injection Hc as <- <- <-.
Qed.
(** Different nodes have different units. *)
Lemma ready_candidates_nodup s slot req assembly :
  NoDup (an_id <$> as_nodes assembly) → NoDup (ready_candidates s slot req assembly).*2.
Proof.
  rw /ready_candidates. generalize (as_nodes assembly). intros nodes.
  induction nodes as [|node nodes IH]; simpl; [constructor|]. intros [Hid Hnd]%NoDup_cons.
  destruct (ready_candidate s slot req node) as [[[n i] key]|] eqn:Hc; simpl; [|by apply IH].
  apply NoDup_cons. split; [|by apply IH]. rw list_elem_of_fmap.
  intros ([[n' i'] key'] & -> & Hin).
  apply (ready_candidates_spec s slot req (mkAssembly "" nodes [] None)) in Hin as (Hn & _ & Hr').
  assert ((n, i, key') ∈ ready_candidates s slot req (mkAssembly "" [node] [] None)) as Hin.
  { rw /ready_candidates /= Hc. by left. }
  apply ready_candidates_spec in Hin as (Hn1 & _ & Hr). apply list_elem_of_singleton in Hn1 as ->.
  apply Hid, list_elem_of_fmap. exists n'. split; [|done].
  eapply unit_key_shape_inj; eapply ready_unit_shape; done.
Qed.

Lemma close_stalled_steps s id slot :
  st_runs s !! id = Some slot → running slot → rs_claimed slot = ∅ →
  assembly_any_ready s slot = false → is_open_closure slot = false →
  steps_from s (close_stalled id).
Proof.
  intros Hs Hr Hc Ha Ho. apply steps_get, steps_lift_bind. intros slot' Hu. inv_oks.
  apply steps_put_bind.
  - apply rtc_once. eapply k_slot; [done|done|]. by apply ss_stall.
  - apply steps_append_bind. intros. apply steps_ret.
Qed.

(** A request within the wire format, for an assembly a list can hold. *)
Definition run_request_ok (req : RunRequest) : Prop :=
  (∀ l, rr_limits req = Some l → u64_ok (lim_max_steps l) ∧ u64_ok (lim_max_in_flight l) ∧
     u64_ok (lim_default_lease_ms l) ∧ u32_ok (lim_max_attempts l)) ∧
  (∀ a, rr_assembly req = Some a → u64_ok (len (as_nodes a))).
Lemma limit_or_ok (f : Limits → Z) l d (P : Z → Prop) :
  (∀ x, l = Some x → P (f x)) → P d → d ≠ 0 → P (limit_or f l d) ∧ limit_or f l d ≠ 0.
Proof.
  intros Hf Hd Hne. rw /limit_or. destruct l as [x|]; simpl; [|done].
  destruct (Z.eqb_spec (f x) 0); eauto.
Qed.
Lemma materialize_nodes a include a' :
  materialize_assembly a include = Ok a' → len (as_nodes a') ≤ len (as_nodes a).
Proof.
  rw /materialize_assembly. destruct (list_is_empty include); intros Hm; inv_oks; [done|].
  rw /len. apply inj_le. apply length_filter.
Qed.
Lemma start_run_ctx_steps s req ctx now :
  run_request_ok req → steps_from s (start_run_ctx req ctx now).
Proof.
  intros [Hlim Hasm]. apply steps_lift_bind. intros [] _. apply steps_get.
  rw /start_run_ctx. destruct (idempotent_get s _ ctx) as [[|]|]; try apply steps_ret.
  all: apply steps_lift_bind; intros [] Hid; apply steps_lift_bind; intros [] Hnew;
    apply steps_lift_bind; intros a0 Ha0; apply steps_lift_bind; intros a Ha;
    apply steps_lift_bind; intros [] Hvalid; apply steps_lift_bind; intros [] Hmax; inv_oks;
    apply Z.eqb_neq in Hmax.
  all: apply steps_put_bind; [|apply steps_append_bind; intros; apply steps_bind;
    [by apply idempotent_put_steps; left|intros; apply steps_ret]].
  all: apply rtc_once, k_start;
    [rw /has_key in Hnew; by destruct (st_runs s !! rr_id req)|].
  all: destruct (limit_or_ok lim_default_lease_ms (rr_limits req) DEFAULT_LEASE_MS u64_ok);
    [by intros; apply Hlim|by rw /u64_ok|done|].
  all: destruct (limit_or_ok lim_max_attempts (rr_limits req) DEFAULT_MAX_ATTEMPTS u32_ok);
    [by intros; apply Hlim|by rw /u32_ok|done|].
  all: eapply fresh_slot_intro; [exact Hvalid|done|exact Hmax|done|done|].
  all: assert (u64_ok (limit_or lim_max_steps (rr_limits req) (len (as_nodes a)))) as Hsteps.
  1, 3: rw /limit_or; destruct (rr_limits req) as [l|] eqn:Hl; simpl;
    [destruct (_ =? _); [|by apply Hlim]|].
  all: try (specialize (Hasm _ Ha0); apply materialize_nodes in Ha; rw /u64_ok in Hasm |- *;
            pose proof (Zle_0_nat (length (as_nodes a))); rw /len in Ha Hasm |- *; lia).
  all: split_and!; [apply Hsteps..| |done|done].
  all: destruct (rr_limits req) as [l|] eqn:Hl; [by apply Hlim|by rw /u64_ok].
Qed.

Lemma inject_input_ctx_steps s req ctx now : steps_from s (inject_input_ctx req ctx now).
Proof.
  apply steps_lift_bind. intros [] _. apply steps_get. apply steps_lift_bind. intros input Hin.
  apply steps_lift_bind. intros [] _. apply steps_lift_bind. intros r Hr.
  apply steps_lift_bind. intros [] Hart. apply steps_lift_bind. intros slot Hs.
  apply steps_lift_bind. intros [] Hrun. apply steps_lift_bind. intros [] _. inv_oks.
  apply bool_decide_eq_true in Hrun. apply steps_put_bind.
  - apply rtc_once. eapply k_slot; [done|done|]. eapply ss_inject; [done|].
    by apply elem_of_dom, has_key_true.
  - apply steps_append_bind. intros. apply steps_ret.
Qed.

(** Node ids of an assembly are distinct: an invariant of started runs. *)
Definition distinct_nodes (slot : RunSlot) : Prop :=
  ∀ a, run_assembly (rs_run slot) = Some a → NoDup (an_id <$> as_nodes a).

Lemma in_flight_capacity_spec slot :
  0 ≤ rs_max_in_flight slot → rs_max_in_flight slot ≠ 0 → 0 < in_flight_capacity slot →
  Z.of_nat (size (rs_claimed slot)) + in_flight_capacity slot ≤ rs_max_in_flight slot.
Proof.
  intros Hge Hne. rw /in_flight_capacity. destruct (Z.eqb_spec (rs_max_in_flight slot) 0); [done|].
  rw /u64_sat_sub. lia.
Qed.
Lemma claim_candidates_ok s slot req assembly :
  run_assembly (rs_run slot) = Some assembly → distinct_nodes slot → 0 ≤ rs_max_in_flight slot →
  0 < claim_want slot req →
  claimable s assembly slot
    (take (Z.to_nat (claim_want slot req)) (ready_candidates s slot req assembly)).
Proof.
  intros Ha Hd Hge Hw. split_and!; [done| | |].
  - rw fmap_take. eapply sublist_NoDup; [|apply sublist_take]. by apply ready_candidates_nodup, Hd.
  - apply Forall_forall. intros [[node inputs] key] Hin. apply subseteq_take in Hin.
    apply ready_candidates_spec in Hin as (? & _ & ?). done.
  - intros Hne. assert (claim_want slot req ≤ in_flight_capacity slot) as Hle.
    { rw /claim_want. lia. }
    pose proof (in_flight_capacity_spec slot Hge Hne ltac:(lia)).
    assert (len (take (Z.to_nat (claim_want slot req)) (ready_candidates s slot req assembly))
      ≤ claim_want slot req); [|lia].
    rw /len length_take. lia.
Qed.

(** What one claim call takes, and the slot it leaves. *)
Definition claim_result (s : State) (slot : RunSlot) (req : ClaimRequest) (assembly : Assembly)
    (now : Z) : RunSlot * list WorkItem :=
  if claim_want slot req >? 0 then
    foldl (claim_slot (cr_run_id req) now) (slot, [])
      (take (Z.to_nat (claim_want slot req)) (ready_candidates s slot req assembly))
  else (slot, []).
Definition is_stalled (s : State) (slot : RunSlot) : bool :=
  negb (assembly_any_ready s slot) && bool_decide (rs_claimed slot = ∅) &&
  negb (is_open_closure slot).
Definition stalled_if (b : bool) (slot : RunSlot) : RunSlot :=
  if b then slot_closed RsStalled stall_reason slot else slot.

Lemma claim_result_steps s slot req assembly now :
  st_runs s !! cr_run_id req = Some slot → running slot →
  run_assembly (rs_run slot) = Some assembly → distinct_nodes slot → 0 ≤ rs_max_in_flight slot →
  ksteps s (put_run_slot (cr_run_id req) (claim_result s slot req assembly now).1 s).
Proof.
  intros Hs Hr Ha Hd Hge. rw /claim_result. destruct (_ >? _) eqn:Hw.
  - apply Z.gtb_lt in Hw. rw -{1}(put_same_slot s (cr_run_id req) slot) //.
    apply (claim_fold_steps s assembly _ now _ (slot, [])); [done|].
    by apply claim_candidates_ok.
  - simpl. by rw put_same_slot.
Qed.
Lemma claim_fold_run run now cands acc :
  rs_run (foldl (claim_slot run now) acc cands).1 = rs_run acc.1.
Proof.
  revert acc. induction cands as [|[[n i] k] cands IH]; intros [slot items]; simpl; [done|].
  by rw IH.
Qed.
Lemma claim_result_run s slot req assembly now :
  rs_run (claim_result s slot req assembly now).1 = rs_run slot.
Proof. rw /claim_result. destruct (_ >? _); [apply claim_fold_run|done]. Qed.

Lemma claim_block_run s slot req assembly now :
  st_runs s !! cr_run_id req = Some slot →
  let r := claim_result s slot req assembly now in
  ∃ s', (if claim_want slot req >? 0 then
      let ready := ready_candidates s slot req assembly in
      let '(slot, claimed_now) :=
        foldl (claim_slot (cr_run_id req) now) (slot, [])
          (take (Z.to_nat (claim_want slot req)) ready) in
      put (put_run_slot (cr_run_id req) slot s);;
      for_each_M append_claimed claimed_now;;
      mret claimed_now
    else mret []) s = (Ok r.2, s') ∧
    st_runs s' = <[cr_run_id req := r.1]> (st_runs s) ∧ st_modules s' = st_modules s ∧
    (ksteps s (put_run_slot (cr_run_id req) r.1 s) → ksteps s s').
Proof.
  intros Hs. rw /claim_result. destruct (_ >? _); simpl; [|exists s; by rw insert_id].
  destruct (foldl _ _ _) as [slot' items]; simpl.
  destruct (append_events_spec append_claimed items (put_run_slot (cr_run_id req) slot' s))
    as (s2 & He2 & Hk2 & Hr2 & Hm2); [intros; apply append_claimed_spec|].
  exists s2. split_and!; [|done|done|intros; by etrans]. apply run_put. by eapply run_bind.
Qed.
Lemma close_stalled_run s id slot :
  st_runs s !! id = Some slot →
  ∃ s', close_stalled id s = (Ok (rs_run (slot_closed RsStalled stall_reason slot)), s') ∧
    st_runs s' = <[id := slot_closed RsStalled stall_reason slot]> (st_runs s) ∧
    st_modules s' = st_modules s.
Proof.
  intros Hs. eexists. split.
  - apply run_get. eapply run_lift; [by rw Hs|]. by apply run_put.
  - done.
Qed.

(** The whole of [claim_ready] on a running run: its reply, its effect on
    the runs, and that the effect is a sequence of transitions. *)
Lemma claim_ready_spec s req now slot assembly :
  st_runs s !! cr_run_id req = Some slot → running slot →
  run_assembly (rs_run slot) = Some assembly →
  let r := claim_result s (reaped slot now) req assembly now in
  ∃ s', claim_ready req now s = (Ok (mkClaimResponse r.2), s') ∧
    st_runs s' = <[cr_run_id req :=
      stalled_if (list_is_empty r.2 && is_stalled s r.1) r.1]> (st_runs s) ∧
    st_modules s' = st_modules s ∧
    (distinct_nodes slot → 0 ≤ rs_max_in_flight slot → ksteps s s').
Proof.
  intros Hs Hr Ha r. set id := cr_run_id req.
  destruct (reap_expired_spec s id now slot Hs Hr) as (s1 & He1 & Hk1 & Hr1 & Hm1).
  assert (st_runs s1 !! id = Some (reaped slot now)) as Hs1 by (by rw Hr1 lookup_insert_eq).
  assert (claim_result s1 (reaped slot now) req assembly now = r) as Hr_eq;
    [by rw /r /claim_result (ready_candidates_modules s s1)|clearbody r].
  destruct (claim_block_run s1 (reaped slot now) req assembly now Hs1) as (s2 & He2 & Hr2 & Hm2 & Hk2).
  rw Hr_eq Hr1 insert_insert_eq in Hr2. rw Hr_eq in He2 Hk2.
  assert (st_runs s2 !! id = Some r.1) as Hs2 by (by rw Hr2 lookup_insert_eq).
  assert (is_stalled s2 r.1 = is_stalled s r.1) as Hst.
  { by rw /is_stalled (assembly_any_ready_modules s s2) // Hm2. }
  set b := list_is_empty r.2 && is_stalled s r.1.
  assert (∃ s3, (if b then close_stalled id;; mret tt else mret tt) s2 = (Ok tt, s3) ∧
    st_runs s3 = <[id := stalled_if b r.1]> (st_runs s2) ∧ st_modules s3 = st_modules s2 ∧
    (running r.1 → ksteps s2 s3)) as (s3 & He3 & Hr3 & Hm3 & Hk3).
  { destruct b eqn:Hb; [|exists s2; by rw /= insert_id].
    destruct (close_stalled_run s2 id r.1 Hs2) as (s3 & He3 & Hr3 & Hm3).
    exists s3. split_and!; [by eapply run_bind|done|done|]. intros Hrun.
    rw /b -Hst /is_stalled in Hb. inv_oks.
    match goal with H : bool_decide _ = true |- _ => apply bool_decide_eq_true in H end.
    pose proof (close_stalled_steps s2 id _ Hs2) as Hk. rw /steps_from He3 in Hk. by apply Hk. }
  exists s3. split_and!.
  - rw /claim_ready. eapply run_bind; [apply (running_slot_run s id slot); done|].
    eapply run_bind; [exact He1|]. apply run_get. eapply run_lift; [by rw Hs1|].
    eapply run_lift; [by rw reaped_run Ha|]. eapply run_bind; [exact He2|].
    apply run_get. eapply run_lift; [by rw Hs2|]. apply (run_bind _ _ _ tt s3); [|done].
    rw -He3 /b -Hst /is_stalled !andb_assoc. done.
  - by rw Hr3 Hr2 insert_insert_eq.
  - congruence.
  - intros Hd Hge. assert (running r.1) as Hrun.
    { rw /running -Hr_eq claim_result_run. by apply reaped_running. }
    etrans; [exact Hk1|]. etrans; [|by apply Hk3]. apply Hk2. rw -Hr_eq.
    apply claim_result_steps; [done|by apply reaped_running|by rw reaped_run| |].
    + intros a. rw reaped_run. apply Hd.
    + by rw reap_fold_limits.
Qed.

Lemma claim_ready_closed s req now :
  (∀ slot, st_runs s !! cr_run_id req = Some slot → ¬ running slot) →
  (claim_ready req now s).2 = s.
Proof.
  intros Hno. rw /claim_ready {1}/mbind /M_bind.
  destruct (running_slot (cr_run_id req) s) as [[slot|e|] s'] eqn:Hrs.
  - apply running_slot_ok in Hrs as (_ & Hs & Hr). by destruct (Hno slot).
  - simpl. pose proof (running_slot_state s (cr_run_id req)) as Hp. by rw Hrs in Hp.
  - simpl. pose proof (running_slot_state s (cr_run_id req)) as Hp. by rw Hrs in Hp.
Qed.
Lemma claim_ready_steps s req now :
  (∀ slot, st_runs s !! cr_run_id req = Some slot →
     distinct_nodes slot ∧ 0 ≤ rs_max_in_flight slot ∧ is_Some (run_assembly (rs_run slot))) →
  steps_from s (claim_ready req now).
Proof.
  intros Hinv. rw /steps_from.
  assert ((∃ slot, st_runs s !! cr_run_id req = Some slot ∧ running slot) ∨
    (∀ slot, st_runs s !! cr_run_id req = Some slot → ¬ running slot)) as [(slot & Hs & Hr)|Hno].
  { destruct (st_runs s !! cr_run_id req) as [slot|]; [|by right].
    destruct (decide (run_state (rs_run slot) = RsRunning)); [left; eauto|].
    right. by intros ? [= <-]. }
  - destruct (Hinv _ Hs) as (Hd & Hge & [a Ha]).
    destruct (claim_ready_spec s req now slot a Hs Hr Ha) as (s' & -> & _ & _ & Hk). by apply Hk.
  - by rw claim_ready_closed.
Qed.

Lemma heartbeat_steps s req now : steps_from s (heartbeat req now).
Proof.
  apply steps_running_bind. intros slot Hs Hr. cbv zeta. set until := i64_sat_add _ _.
  destruct (renew_fold_steps s (hr_run_id req) until (hr_work_ids req) (slot, [], []) Hr) as [Hk Hr'].
  destruct (foldl _ _ _) as [[slot' renewed] lost]. simpl in *. rw put_same_slot // in Hk.
  apply steps_modify_bind; [done|].
  eapply steps_reap_bind; [by rw /= lookup_insert_eq|done|]. intros. apply steps_ret.
Qed.

Lemma fail_work_steps s req now : steps_from s (fail_work req now).
Proof.
  apply steps_running_bind. intros slot0 Hs0 Hr0.
  eapply steps_reap_bind; [done|done|]. intros s1 Hs1 Hm1. apply steps_get.
  apply steps_lift_bind. intros slot Hs. inv_oks. rw Hs1 lookup_insert_eq in Hs. injection Hs as <-.
  apply steps_lift_bind. intros c Hc. inv_oks. cbv zeta.
  set terminal := fw_terminal req || _.
  assert (running (fail_slot (fw_work_id req) c terminal (reaped slot0 now))) as Hr1.
  { rw /running /fail_slot. destruct terminal; simpl; rw reaped_run; done. }
  apply steps_put_bind.
  { apply rtc_once. eapply (k_slot _ _ _ (fail_slot (fw_work_id req) c terminal (reaped slot0 now)));
      [by rw Hs1 lookup_insert_eq|by apply reaped_running|].
    apply ss_fail; [done|]. rw /terminal. intros ->. apply orb_true_r. }
  apply steps_append_bind. intros _ s2 Hs2 Hm2 _. apply steps_get, steps_lift_bind.
  intros slot Hs. inv_oks. rw Hs2 /= lookup_insert_eq in Hs. injection Hs as <-.
  destruct (_ && _) eqn:Hst; [|apply steps_ret]. inv_oks.
  match goal with H : bool_decide _ = true |- _ => apply bool_decide_eq_true in H end.
  eapply close_stalled_steps; [by rw Hs2 /= lookup_insert_eq|exact Hr1|done..].
Qed.

Lemma commit_ctx_steps s submitted ctx t0 now : steps_from s (commit_ctx submitted ctx t0 now).
Proof.
  apply steps_lift_bind. intros [] _. apply steps_get.
  rw /commit_ctx. destruct (idempotent_get s _ ctx) as [[|]|]; try apply steps_ret.
  all: apply steps_running_bind; intros slot0 Hs0 Hr0;
    eapply steps_reap_bind; [done|done|]; intros s1 Hs1 Hm1; apply steps_get;
    apply steps_lift_bind; intros slot Hs; inv_oks; rw Hs1 lookup_insert_eq in Hs;
    injection Hs as <-; apply steps_lift_bind; intros c Hc; inv_oks; cbv zeta;
    apply steps_lift_bind; intros [] _; apply steps_lift_bind; intros [] Hmax; inv_oks;
    apply steps_lift_bind; intros cap Hcap; apply steps_lift_bind; intros [] Hout;
    apply steps_lift_bind; intros slot Hs; apply steps_lift_bind; intros assembly Ha;
    apply steps_lift_bind; intros terminal Ht; inv_oks.
  all: rw Z.geb_leb in Hmax; apply Z.leb_gt in Hmax.
  all: apply steps_put_bind;
    [by eapply rtc_once, (k_commit _ (d_run_id submitted)); [by rw Hs1 lookup_insert_eq|by apply reaped_running|done..]|].
  all: apply steps_append_bind; intros; apply steps_append_bind; intros;
    apply steps_bind; [by apply idempotent_put_steps; right|intros; apply steps_ret].
Qed.

Lemma cancel_run_steps s r : steps_from s (cancel_run r).
Proof.
  apply steps_running_bind. intros slot Hs Hr. cbv zeta. apply steps_modify_bind.
  - apply rtc_once. eapply k_slot; [done|done|apply ss_cancel].
  - apply steps_append_bind. intros. apply steps_ret.
Qed.
End runs.
End steps.
