(* ===== verification/Kernel.v ===== *)
(** * Kernel: the ABI and the reachable states

    [KernelApi] as implemented for [MemoryKernel]: one [Call] per RPC with its
    context, the inherent methods beside them, and what the holder of an
    event receiver does.  [exec] dispatches a call; [reachable] is what any
    sequence of calls can lead to from a fresh kernel, whatever the clock
    reads and whatever order the hash maps iterate in. *)
From S2P Require Import Prelude Wire Errors Hash Traits Policy State Registry Store Events Assembly Work Runs.
From S2P Require Import Units Steps.
Local Open Scope Z_scope.

Inductive Call :=
  | CRegister (m : ModuleManifest) (ctx : RequestContext)
  | CTransition (req : TransitionRequest) (ctx : RequestContext)
  | CPutArtifact (a : Artifact) (ctx : RequestContext)
  | CGetArtifact (r : ArtifactRef) (ctx : RequestContext)
  | CPutBlob (req : PutBlobRequest) (ctx : RequestContext)
  | CGetBlob (req : GetBlobRequest) (ctx : RequestContext)
  | CHasBlob (req : HasBlobRequest) (ctx : RequestContext)
  | CPutContract (c : Contract) (ctx : RequestContext)
  | CPublish (e : Event) (ctx : RequestContext)
  | CAppend (req : AppendRequest) (ctx : RequestContext)
  | CSnapshot (ctx : RequestContext)
  | CStartRun (req : RunRequest) (ctx : RequestContext)
  | CInjectInput (req : InjectInputRequest) (ctx : RequestContext)
  | CClaimReady (req : ClaimRequest) (ctx : RequestContext)
  | CHeartbeat (req : HeartbeatRequest) (ctx : RequestContext)
  | CFailWork (req : FailWorkRequest) (ctx : RequestContext)
  | CCommit (d : Derivation) (ctx : RequestContext)
  | CGetRun (r : RunRef) (ctx : RequestContext)
  | CCancelRun (r : RunRef) (ctx : RequestContext)
  | CListDerivations (r : RunRef) (ctx : RequestContext)
  (** inherent methods of [MemoryKernel] *)
  | CPutArtifactWithBlob (contract namespace : string) (data : bytes) (produced_by : string)
  | CLedger
  | CVerifyLedger
  | CDerivations
  | CSubscribe (sub : Subscription)
  (** the receiving end of a subscription *)
  | CReceive (rx : nat)
  | CDropReceiver (rx : nat).

Inductive Reply :=
  | RRegisterAck (a : RegisterAck)
  | RTransitionAck (a : TransitionAck)
  | RArtifactRef (r : ArtifactRef)
  | RArtifact (a : Artifact)
  | RBlobRef (r : BlobRef)
  | RBlobData (d : BlobData)
  | RHasBlob (r : HasBlobResponse)
  | RContract (c : Contract)
  | RPublishAck (a : PublishAck)
  | RLedgerEntry (e : LedgerEntry)
  | RSnapshot (s : RegistrySnapshot)
  | RRun (r : Run)
  | RClaim (r : ClaimResponse)
  | RHeartbeat (r : HeartbeatResponse)
  | RDerivations (l : DerivationList)
  | RArtifactAndBlob (r : ArtifactRef * BlobRef)
  | RLedger (l : list LedgerEntry)
  | RBool (b : bool)
  | RDerivationList (l : list Derivation)
  | RReceiver (rx : nat)
  | REvent (e : option Event)
  | RUnit.

(** A kernel: its state behind the lock and its frozen store law. *)
Record MemoryKernel := mkKernel { mk_state : State; mk_store_policy : ArtifactStorePolicy }.
Definition with_store_policy (policy : ArtifactStorePolicy) : Result MemoryKernel :=
  store_policy ← normalize_store_policy policy;
  mret (mkKernel empty_state store_policy).
(** [.expect("default ArtifactStorePolicy is valid")] *)
Definition new : Result MemoryKernel :=
  match with_store_policy zero_policy with Ok k => Ok k | _ => Panic end.

Section kernel.
Context `{Platform, HashOrder}.
Variable store_policy : ArtifactStorePolicy.

Definition ledger : Method (list LedgerEntry) := s ← get; mret (st_ledger s).
Definition verify_ledger : Method bool := s ← get; mret (verify_chain (st_ledger s)).
Definition append (req : AppendRequest) : Method LedgerEntry :=
  append_locked (ap_kind req) (ap_subject req) (ap_detail req).

Definition replying {A} (f : A → Reply) (m : Method A) : Method Reply := a ← m; mret (f a).
(** [check_deadline(ctx)?] in front of a method. *)
Definition before_deadline {A} (ctx : RequestContext) (t0 : Z) (m : Method A) : Method A :=
  lift (check_deadline ctx t0);; m.

(** [t0] is the clock as the deadline check reads it, [now] as the method
    reads it. *)
Definition exec (t0 now : Z) (c : Call) : Method Reply :=
  match c with
  | CRegister m ctx => replying RRegisterAck (register_ctx m ctx)
  | CTransition req ctx => replying RTransitionAck (transition_req req ctx t0)
  | CPutArtifact a ctx => replying RArtifactRef (put_artifact_ctx store_policy a ctx t0)
  | CGetArtifact r ctx => replying RArtifact (before_deadline ctx t0 (get_artifact r))
  | CPutBlob req _ => replying RBlobRef (put_blob store_policy req)
  | CGetBlob req ctx => replying RBlobData (before_deadline ctx t0 (get_blob req))
  | CHasBlob req _ => replying RHasBlob (has_blob req)
  | CPutContract c ctx => replying RContract (before_deadline ctx t0 (put_contract c))
  | CPublish e _ => replying RPublishAck (publish e)
  | CAppend req _ => replying RLedgerEntry (append req)
  | CSnapshot _ => replying RSnapshot (snapshot store_policy)
  | CStartRun req ctx => replying RRun (start_run_ctx req ctx t0)
  | CInjectInput req ctx => replying RRun (inject_input_ctx req ctx t0)
  | CClaimReady req ctx => replying RClaim (before_deadline ctx t0 (claim_ready req now))
  | CHeartbeat req ctx => replying RHeartbeat (before_deadline ctx t0 (heartbeat req now))
  | CFailWork req ctx => replying RRun (before_deadline ctx t0 (fail_work req now))
  | CCommit d ctx => replying RRun (commit_ctx d ctx t0 now)
  | CGetRun r ctx => replying RRun (before_deadline ctx t0 (get_run r))
  | CCancelRun r ctx => replying RRun (before_deadline ctx t0 (cancel_run r))
  | CListDerivations r ctx => replying RDerivations (before_deadline ctx t0 (list_derivations r))
  | CPutArtifactWithBlob contract namespace data produced_by =>
      replying RArtifactAndBlob
        (put_artifact_with_blob store_policy contract namespace data produced_by t0)
  | CLedger => replying RLedger ledger
  | CVerifyLedger => replying RBool verify_ledger
  | CDerivations => replying RDerivationList derivations
  | CSubscribe sub => replying RReceiver (subscribe sub)
  | CReceive rx => replying REvent (receive rx)
  | CDropReceiver rx => replying (λ _, RUnit) (drop_receiver rx)
  end.

(** A call within the wire format. *)
Definition call_ok (c : Call) : Prop :=
  match c with CStartRun req _ => run_request_ok req | _ => True end.
End kernel.

Section reachable.
Context `{Platform}.
Variable store_policy : ArtifactStorePolicy.

(** One call, at some time, under some iteration order, and its outcome. *)
Inductive call_step (s : State) : outcome KernelError Reply → State → Prop :=
  | call_step_intro order t0 now c :
      call_ok c →
      call_step s (@exec _ order store_policy t0 now c s).1
        (@exec _ order store_policy t0 now c s).2.
Definition call_rel (s s' : State) : Prop := ∃ o, call_step s o s'.
Definition reachable (s : State) : Prop := rtc call_rel empty_state s.

(** What [claim_ready] relies on in every slot it meets. *)
Definition slots_ready (s : State) : Prop :=
  map_Forall (λ _ slot, distinct_nodes slot ∧ 0 ≤ rs_max_in_flight slot ∧
    is_Some (run_assembly (rs_run slot))) (st_runs s).

Lemma steps_replying {A} s (f : A → Reply) (m : Method A) :
  steps_from store_policy s m → steps_from store_policy s (replying f m).
Proof. intros Hm. apply steps_bind; [done|]. intros. apply steps_ret. Qed.
Lemma steps_deadline {A} s ctx t0 (m : Method A) :
  steps_from store_policy s m → steps_from store_policy s (before_deadline ctx t0 m).
Proof. intros Hm. by apply steps_lift_bind. Qed.

(** Every call is a sequence of transitions. *)
Lemma exec_steps `{HashOrder} s t0 now c :
  call_ok c → slots_ready s → steps_from store_policy s (exec store_policy t0 now c).
Proof.
  intros Hok Hready. destruct c; apply steps_replying;
    try match goal with |- steps_from _ _ (before_deadline _ _ _) => apply steps_deadline end;
    try (apply steps_pure; done).
  - apply register_ctx_steps.
  - apply transition_req_steps.
  - apply put_artifact_ctx_steps.
  - apply put_blob_steps.
  - apply steps_get, steps_lift_bind. intros slot _. apply steps_lift_bind. intros. apply steps_ret.
  - apply steps_get. destruct (_ !! _); apply steps_ret.
  - apply put_contract_steps.
  - apply publish_steps.
  - apply append_steps.
  - by apply start_run_ctx_steps.
  - apply inject_input_ctx_steps.
  - apply claim_ready_steps. intros slot Hs. by apply (Hready _ _ Hs).
  - apply heartbeat_steps.
  - apply fail_work_steps.
  - apply commit_ctx_steps.
  - apply steps_get, steps_lift_bind. intros. apply steps_ret.
  - apply cancel_run_steps.
  - apply steps_get, steps_lift_bind. intros. apply steps_ret.
  - apply steps_bind; [apply put_blob_steps|]. intros blob s' _.
    apply steps_bind; [apply put_artifact_ctx_steps|]. intros. apply steps_ret.
  - apply subscribe_steps.
  - apply receive_steps.
  - apply drop_receiver_steps.
Qed.
End reachable.
