(* ===== verification/Invariant.v ===== *)
(** * Invariant: what every reachable kernel state satisfies about its runs

    [run_inv] is the invariant of one run against the derivations committed for it:
    frozen identity and limits, well-formed claims, status, attempts and
    history.  It is proved per transition of [Steps] and so holds of every
    reachable state. *)
From S2P Require Import Prelude Wire Errors Hash Traits Policy State Registry Store Events Assembly.
From S2P Require Import AssemblySpec Work Runs Units Steps Kernel.
Local Open Scope Z_scope.

(** ** The parts of the invariant *)
(** A claim is of a node of the assembly, under the id its unit determines,
    for a unit that is not done. *)
Record claim_ok (id : string) (nodes : list AssemblyNode) (done : gset string)
    (wid : string) (c : ClaimedSlot) : Prop := mkClaimOk {
  co_not_done : cs_unit_key c ∉ done;
  co_id : wi_id (cs_work c) = wid;
  co_run : wi_run_id (cs_work c) = id;
  co_key : wi_unit_key (cs_work c) = cs_unit_key c;
  co_attempt : wi_attempt (cs_work c) = cs_attempt c;
  co_lease : wi_lease_until_unix_ms (cs_work c) = cs_lease_until_ms c;
  co_node : ∃ node, node ∈ nodes ∧
    mkNode (wi_node_id (cs_work c)) (wi_module (cs_work c)) (wi_module_version (cs_work c))
      (wi_capability (cs_work c)) = node ∧
    unit_key_shape (an_id node) (cs_unit_key c) ∧
    wid = work_id_of id (an_id node) (cs_unit_key c);
}.

Record frozen_inv (id : string) (a : Assembly) (t : NodeOutput) (slot : RunSlot) : Prop := mkFrozen {
  fi_id : run_id (rs_run slot) = id;
  fi_assembly : run_assembly (rs_run slot) = Some a;
  fi_terminal : as_terminal a = Some t;
  fi_nodes : NoDup (an_id <$> as_nodes a);
  fi_max_steps : u64_ok (run_max_steps (rs_run slot));
  fi_max_in_flight : u64_ok (rs_max_in_flight slot);
  fi_max_attempts : u32_ok (rs_max_attempts slot) ∧ rs_max_attempts slot ≠ 0;
}.

Definition claims_inv (id : string) (a : Assembly) (slot : RunSlot) : Prop :=
  map_Forall (claim_ok id (as_nodes a) (rs_done_units slot)) (rs_claimed slot) ∧
  (rs_max_in_flight slot ≠ 0 → Z.of_nat (size (rs_claimed slot)) ≤ rs_max_in_flight slot).

Record status_inv (slot : RunSlot) : Prop := mkStatus {
  si_state : run_state (rs_run slot) ≠ RsUnspecified;
  si_steps : 0 ≤ run_steps (rs_run slot) ≤ run_max_steps (rs_run slot);
  si_running : running slot → run_steps (rs_run slot) < run_max_steps (rs_run slot);
  si_answer : is_Some (run_answer (rs_run slot)) →
    run_state (rs_run slot) = RsCompleted ∨ is_open_closure slot = true;
  si_completed : run_state (rs_run slot) = RsCompleted →
    is_Some (run_answer (rs_run slot)) ∧ is_open_closure slot = false;
  si_idle : run_state (rs_run slot) = RsStalled ∨ run_state (rs_run slot) = RsCancelled →
    rs_claimed slot = ∅;
}.

(** How often a unit was claimed: never beyond the limit, and a unit that
    can be claimed again is below it. *)
Definition attempts_of (slot : RunSlot) (key : string) : Z :=
  default 0 (rs_claim_attempts slot !! key).
Record attempts_inv (slot : RunSlot) : Prop := mkAttempts {
  ai_bound : ∀ key, 0 ≤ attempts_of slot key ≤ rs_max_attempts slot;
  ai_claimed : ∀ wid c, rs_claimed slot !! wid = Some c →
    cs_attempt c = attempts_of slot (cs_unit_key c);
  ai_ready : running slot → ∀ key, key ∉ rs_done_units slot → unit_is_claimed slot key = false →
    attempts_of slot key < rs_max_attempts slot;
}.

(** The committed history of the run: one derivation per step, each of a unit
    that is done, the newest one per node in [latest]. *)
Definition of_node (n : string) (ds : list Derivation) : list Derivation :=
  filter (λ d, d_node_id d = n) ds.
Record history_inv (id : string) (slot : RunSlot) (ds : list Derivation) : Prop := mkHistory {
  hi_steps : len ds = run_steps (rs_run slot);
  hi_latest : ∀ n, rs_latest slot !! n = last (of_node n ds);
  hi_commits : ∀ n, default 0 (rs_node_commits slot !! n) = len (of_node n ds);
  hi_done : Forall (λ d, ∃ key, key ∈ rs_done_units slot ∧ unit_key_shape (d_node_id d) key ∧
      d_work_id d = work_id_of id (d_node_id d) key) ds;
}.

Definition plain_assembly (a : Assembly) : Prop := Forall (λ n, plain_node_id (an_id n)) (as_nodes a).
#[export] Instance plain_assembly_dec a : Decision (plain_assembly a).
Proof. unfold plain_assembly. apply _. Defined.

Record run_inv (id : string) (slot : RunSlot) (ds : list Derivation) : Prop := mkRunInv {
  ri_assembly : ∃ a t, frozen_inv id a t slot ∧ claims_inv id a slot ∧
    (plain_assembly a → attempts_inv slot ∧ NoDup (d_work_id <$> ds) ∧
       Forall (λ d, plain_node_id (d_node_id d)) ds);
  ri_status : status_inv slot;
  ri_history : history_inv id slot ds;
}.

Definition run_derivations (s : State) (id : string) : list Derivation :=
  filter (λ d, d_run_id d = id) (st_derivations s).
Definition runs_inv (s : State) : Prop :=
  map_Forall (λ id slot, run_inv id slot (run_derivations s id)) (st_runs s) ∧
  Forall (λ d, is_Some (st_runs s !! d_run_id d)) (st_derivations s).

(** ** Claims *)
Section claims.
Context (id : string) (nodes : list AssemblyNode).

Lemma claim_ok_functional done wid1 wid2 c1 c2 :
  claim_ok id nodes done wid1 c1 → claim_ok id nodes done wid2 c2 →
  cs_unit_key c1 = cs_unit_key c2 → wid1 = wid2.
Proof.
  intros [] [] Heq. destruct co_node0 as (n1 & _ & _ & Hs1 & ->).
  destruct co_node1 as (n2 & _ & _ & Hs2 & ->). rw Heq in Hs1 |- *. by apply work_id_functional.
Qed.
Lemma claim_ok_done done done' wid c :
  cs_unit_key c ∉ done' → claim_ok id nodes done wid c → claim_ok id nodes done' wid c.
Proof. intros Hn []. by constructor. Qed.

(** Releasing a claim, with its unit done or ready again. *)
Lemma claims_release done (claimed : gmap string ClaimedSlot) wid c (b : bool) :
  map_Forall (claim_ok id nodes done) claimed → claimed !! wid = Some c →
  map_Forall (claim_ok id nodes (if b then {[cs_unit_key c]} ∪ done else done)) (delete wid claimed).
Proof.
  intros Hall Hc wid' c' [Hne Hc']%lookup_delete_Some. pose proof (Hall _ _ Hc) as H1.
  pose proof (Hall _ _ Hc') as H2. destruct b; [|done]. eapply claim_ok_done; [|done].
  rw elem_of_union elem_of_singleton. intros [Heq|Hin]; [|by apply (co_not_done _ _ _ _ _ H2)].
  apply Hne. by eapply claim_ok_functional.
Qed.
End claims.

(** ** What a transition leaves alone *)
Definition same_frame (slot slot' : RunSlot) : Prop :=
  run_id (rs_run slot') = run_id (rs_run slot) ∧
  run_assembly (rs_run slot') = run_assembly (rs_run slot) ∧
  run_max_steps (rs_run slot') = run_max_steps (rs_run slot) ∧
  run_policy (rs_run slot') = run_policy (rs_run slot) ∧
  rs_max_in_flight slot' = rs_max_in_flight slot ∧
  rs_default_lease_ms slot' = rs_default_lease_ms slot ∧
  rs_max_attempts slot' = rs_max_attempts slot.
#[export] Instance same_frame_preorder : PreOrder same_frame.
Proof.
  split; [by intros slot|]. intros s1 s2 s3 H12 H23. rw /same_frame in H12 H23 |- *.
  destruct H12 as (-> & -> & -> & -> & -> & -> & ->) in H23. done.
Qed.
Lemma frozen_same id a t slot slot' :
  same_frame slot slot' → frozen_inv id a t slot → frozen_inv id a t slot'.
Proof.
  intros (H1 & H2 & H3 & H4 & H5 & H6 & H7) []. constructor; congruence.
Qed.
Lemma same_frame_open slot slot' : same_frame slot slot' → is_open_closure slot' = is_open_closure slot.
Proof. intros (_ & _ & _ & Hp & _). by rw /is_open_closure Hp. Qed.

(** ** The outcome of a commit *)
(** The artifact a commit makes the run's answer, if it does. *)
Definition commit_answer (t : NodeOutput) (node_id : string) (d : Derivation) : option ArtifactRef :=
  if str_eqb (no_node t) node_id then terminal_answer t d else None.
Definition answered (ans : option ArtifactRef) (r : Run) : Run :=
  match ans with Some a => run_with_answer (Some a) r | None => r end.
Definition max_steps_reason : string := "max_steps exhausted before the terminal output".
(** The run after a commit: completed by its answer, else failed at the step
    limit, else stalled, else still running. *)
Definition commit_run `{Platform} (s : State) (slot1 : RunSlot) (ans : option ArtifactRef) : Run :=
  let r := answered ans (rs_run slot1) in
  if bool_decide (is_Some ans) && negb (is_open_closure slot1) then run_with_state RsCompleted r
  else if run_steps r >=? run_max_steps r
  then run_with_reason max_steps_reason (run_with_state RsFailed r)
  else if negb (is_open_closure slot1) && bool_decide (rs_claimed slot1 = ∅) &&
          negb (assembly_any_ready s slot1)
  then run_with_reason stall_reason (run_with_state RsStalled r)
  else r.

Section commit.
Context `{Platform}.

(** Readiness does not look at the answer. *)
Lemma any_ready_answered s slot ans :
  assembly_any_ready s (slot_with_run (answered ans (rs_run slot)) slot) = assembly_any_ready s slot.
Proof. by destruct ans. Qed.
Lemma slot_with_same_run slot : slot_with_run (rs_run slot) slot = slot.
Proof. by destruct slot. Qed.

Definition close_stall (s : State) (acc : RunSlot * bool) : RunSlot :=
  let '(slot, closed) := acc in
  if negb closed && negb (is_open_closure slot) && bool_decide (rs_claimed slot = ∅) &&
     negb (assembly_any_ready s slot)
  then slot_closed RsStalled stall_reason slot
  else slot.
Lemma close_stall_open s slot ans :
  close_stall s (slot_with_run (answered ans (rs_run slot)) slot, false) =
  slot_with_run (if negb (is_open_closure slot) && bool_decide (rs_claimed slot = ∅) &&
        negb (assembly_any_ready s slot)
      then run_with_reason stall_reason (run_with_state RsStalled (answered ans (rs_run slot)))
      else answered ans (rs_run slot)) slot.
Proof.
  rw /close_stall any_ready_answered.
  assert (is_open_closure (slot_with_run (answered ans (rs_run slot)) slot) = is_open_closure slot)
    as -> by by destruct ans.
  simpl. by destruct (_ && _).
Qed.
Lemma close_run s t node d slot :
  close_stall s (close_on_max_steps (close_on_terminal t node d slot)) =
  slot_with_run (commit_run s slot (commit_answer t node d)) slot.
Proof.
  rw /commit_run /close_on_terminal /commit_answer.
  destruct (str_eqb _ _); [destruct (terminal_answer t d) as [ans|]|].
  - rw (bool_decide_eq_true_2 (is_Some (Some ans))); [|done].
    pose proof (close_stall_open s slot (Some ans)) as Hst.
    destruct (is_open_closure slot); simpl; [|done]. destruct (_ >=? _); [done|exact Hst].
  - pose proof (close_stall_open s slot None) as Hst. simpl in Hst. rw slot_with_same_run in Hst.
    rw bool_decide_eq_false_2; [|by intros []]. simpl. destruct (_ >=? _); [done|exact Hst].
  - pose proof (close_stall_open s slot None) as Hst. simpl in Hst. rw slot_with_same_run in Hst.
    rw bool_decide_eq_false_2; [|by intros []]. simpl. destruct (_ >=? _); [done|exact Hst].
Qed.
Lemma commit_slot_run s c t d slot :
  commit_slot s c t d slot =
  let slot1 := record_commit c d slot in
  slot_with_run (commit_run s slot1 (commit_answer t (wi_node_id (cs_work c)) d)) slot1.
Proof. exact (close_run s t (wi_node_id (cs_work c)) d (record_commit c d slot)). Qed.
End commit.

(** ** Preservation: claims and attempts *)
Section preserve_claims.
Context `{Platform} (id : string) (a : Assembly).

Lemma fail_slot_run wid c b slot : rs_run (fail_slot wid c b slot) = rs_run slot.
Proof. by destruct b. Qed.
Lemma fail_slot_claimed wid c b slot : rs_claimed (fail_slot wid c b slot) = delete wid (rs_claimed slot).
Proof. by destruct b. Qed.
Lemma fail_slot_done wid c b slot : rs_done_units (fail_slot wid c b slot) =
  if b then {[cs_unit_key c]} ∪ rs_done_units slot else rs_done_units slot.
Proof. by destruct b. Qed.
Lemma fail_slot_frame wid c b slot : same_frame slot (fail_slot wid c b slot).
Proof. by destruct b. Qed.
Lemma reap_is_fail slot wid c :
  reap_slot slot (wid, c) = fail_slot wid c (cs_attempt c >=? rs_max_attempts slot) slot.
Proof. done. Qed.

Lemma fail_slot_claims slot wid c b :
  claims_inv id a slot → rs_claimed slot !! wid = Some c → claims_inv id a (fail_slot wid c b slot).
Proof.
  intros [Hall Hsize] Hc. rw /claims_inv fail_slot_claimed fail_slot_done.
  split; [by apply claims_release|].
  replace (rs_max_in_flight (fail_slot wid c b slot)) with (rs_max_in_flight slot) by by destruct b.
  intros Hne. specialize (Hsize Hne). rw map_size_delete_Some; [lia|by eexists].
Qed.
Lemma fail_slot_attempts slot wid c (b : bool) :
  running slot → attempts_inv slot → rs_claimed slot !! wid = Some c →
  ((cs_attempt c >=? rs_max_attempts slot) = true → b = true) →
  attempts_inv (fail_slot wid c b slot).
Proof.
  intros Hrun [Hb Hcl Hr] Hc Hex.
  assert (∀ key, attempts_of (fail_slot wid c b slot) key = attempts_of slot key) as Ha
    by by destruct b.
  assert (rs_max_attempts (fail_slot wid c b slot) = rs_max_attempts slot) as Hm by by destruct b.
  constructor.
  - intros key. by rw Ha Hm.
  - intros wid' c'. rw fail_slot_claimed Ha. intros [_ Hc']%lookup_delete_Some. by eapply Hcl.
  - intros _ key. rw fail_slot_done unit_is_claimed_false fail_slot_claimed Ha Hm. intros Hd Hn.
    destruct (decide (key = cs_unit_key c)) as [->|Hne].
    + rw -(Hcl _ _ Hc). destruct b; [set_solver|]. rw Z.geb_leb in Hex.
      destruct (Z.leb_spec (rs_max_attempts slot) (cs_attempt c)); [by discriminate Hex|done].
    + apply Hr; [done|destruct b; set_solver|]. apply unit_is_claimed_false. intros wid' c' Hc'.
      destruct (decide (wid' = wid)) as [->|Hw]; [by simplify_eq|].
      apply (Hn wid'). by rw lookup_delete_ne.
Qed.

Lemma claim_slot_claims s slot now node inputs key :
  run_id (rs_run slot) = id → claims_inv id a slot → node ∈ as_nodes a →
  ready_unit s slot node = Some (inputs, key) →
  (rs_max_in_flight slot ≠ 0 → Z.of_nat (size (rs_claimed slot)) < rs_max_in_flight slot) →
  claims_inv id a (claim_slot id now (slot, []) (node, inputs, key)).1.
Proof.
  intros Hid [Hall _] Hn Hr Hsize. pose proof (ready_unit_shape _ _ _ _ _ Hr) as Hshape.
  apply ready_unit_Some in Hr as (_ & _ & Hd & _). split.
  - apply map_Forall_insert_2; [|done].
    constructor; [done..|]. exists node. by destruct node.
  - simpl. intros Hne. specialize (Hsize Hne).
    etrans; [apply inj_le, size_insert_le|]. lia.
Qed.
Lemma claim_slot_attempts s slot now node inputs key :
  running slot → claims_inv id a slot → attempts_inv slot → plain_assembly a →
  u32_ok (rs_max_attempts slot) → node ∈ as_nodes a →
  ready_unit s slot node = Some (inputs, key) →
  attempts_inv (claim_slot id now (slot, []) (node, inputs, key)).1.
Proof.
  intros Hrun [Hall _] [Hb Hcl Hready] Hplain Hmax Hn Hr.
  pose proof (ready_unit_shape _ _ _ _ _ Hr) as Hshape.
  apply ready_unit_Some in Hr as (_ & _ & Hd & Hnc).
  pose proof (Hready Hrun key Hd Hnc) as Hlt. pose proof (Hb key) as Hb0.
  assert (u32 (attempts_of slot key + 1) = attempts_of slot key + 1) as Hu.
  { apply u32_id. rw /u32_ok in Hmax. lia. }
  set slot' := (claim_slot _ _ _ _).1.
  assert (∀ k, attempts_of slot' k = if decide (k = key) then attempts_of slot key + 1
    else attempts_of slot k) as Ha.
  { intros k. rw /attempts_of /=. case_decide as Hk; [subst k; rw lookup_insert_eq|by rw lookup_insert_ne].
    exact Hu. }
  constructor.
  - intros k. rw Ha /=. case_decide; [lia|apply Hb].
  - intros wid c. rw Ha /= lookup_insert_Some. intros [[<- <-]|[Hne Hc]]; simpl.
    + rw decide_True //.
    + rw unit_is_claimed_false in Hnc. rw decide_False; [|by eapply Hnc]. by eapply Hcl.
  - intros _ k Hk Hkc. rw Ha. rw unit_is_claimed_false in Hkc. case_decide as Heq; [subst k|].
    + exfalso. eapply Hkc; [apply lookup_insert_eq|]. done.
    + apply Hready; [done|done|]. apply unit_is_claimed_false. intros wid c Hc Hk'.
      destruct (decide (wid = work_id_of id (an_id node) key)) as [->|Hw].
      * destruct (Hall _ _ Hc). destruct co_node0 as (n & Hn' & Hn2 & Hs' & Hw).
        rw /plain_assembly Forall_forall in Hplain.
        apply work_id_inj in Hw; [|by apply Hplain..|done|done]. congruence.
      * eapply (Hkc wid c); [|done]. simpl. by rw lookup_insert_ne.
Qed.
End preserve_claims.

(** ** Preservation: one slot transition *)
Section preserve_slot.
Context `{Platform} (id : string).

Lemma slot_step_frame s slot slot' : slot_step s id slot slot' → same_frame slot slot'.
Proof. by destruct 1; rw ?reap_is_fail; try apply fail_slot_frame. Qed.

Lemma status_same slot slot' :
  rs_run slot' = rs_run slot → running slot → status_inv slot → status_inv slot'.
Proof.
  intros Heq Hrun []. rw /running in Hrun.
  constructor; rw /running /is_open_closure ?Heq //. rw Hrun. by intros [].
Qed.
Lemma status_inject slot input : running slot → status_inv slot → status_inv (inject_slot input slot).
Proof. intros Hrun []. rw /running in Hrun. constructor; simpl; [done..|]. rw /run_state /= in Hrun |- *. rw Hrun. by intros []. Qed.
Lemma status_stall slot :
  running slot → rs_claimed slot = ∅ → is_open_closure slot = false → status_inv slot →
  status_inv (slot_closed RsStalled stall_reason slot).
Proof.
  intros Hrun Hc Ho []. rw /running in Hrun. constructor; simpl; [done|done|done| |done|done].
  intros Ha. destruct (si_answer0 Ha); congruence.
Qed.
Lemma status_cancel slot : running slot → status_inv slot → status_inv (cancel_slot slot).
Proof.
  intros Hrun []. rw /running in Hrun. constructor; simpl; [done|done|done| |done|done].
  intros Ha. destruct (si_answer0 Ha) as [Hs|Ho]; [congruence|by right].
Qed.

(** Parts that do not read the run record. *)
Lemma claims_same a slot slot' :
  rs_claimed slot' = rs_claimed slot → rs_done_units slot' = rs_done_units slot →
  rs_max_in_flight slot' = rs_max_in_flight slot → claims_inv id a slot → claims_inv id a slot'.
Proof. rw /claims_inv. by intros -> -> ->. Qed.
Lemma attempts_same slot slot' :
  rs_claimed slot' = rs_claimed slot → rs_done_units slot' = rs_done_units slot →
  rs_claim_attempts slot' = rs_claim_attempts slot → rs_max_attempts slot' = rs_max_attempts slot →
  (running slot' → running slot) → attempts_inv slot → attempts_inv slot'.
Proof.
  intros Hc Hd Ha Hm Hr [Hb Hcl Hrd].
  constructor; rw /attempts_of ?Hc ?Ha ?Hm ?Hd //.
  intros Hrun key Hk. rw unit_is_claimed_false Hc -unit_is_claimed_false. by apply Hrd; [apply Hr|].
Qed.
Lemma claims_renew a slot wid c until :
  rs_claimed slot !! wid = Some c → claims_inv id a slot →
  claims_inv id a (slot_with_claimed (<[wid := renew until c]> (rs_claimed slot)) slot).
Proof.
  intros Hc [Hall Hsize]. split; simpl.
  - apply map_Forall_insert_2; [|done]. by destruct (Hall _ _ Hc); constructor.
  - intros Hne. rw map_size_insert_Some; [|by eexists]. by apply Hsize.
Qed.
Lemma attempts_renew slot wid c until :
  rs_claimed slot !! wid = Some c → attempts_inv slot →
  attempts_inv (slot_with_claimed (<[wid := renew until c]> (rs_claimed slot)) slot).
Proof.
  intros Hc [Hb Hcl Hr]. constructor; simpl; [done| |].
  - intros wid' c'. rw lookup_insert_Some. intros [[<- <-]|[_ Hc']];
    [exact (Hcl _ _ Hc)|exact (Hcl _ _ Hc')].
  - intros Hrun key Hk Hkc. apply Hr; [done|done|]. rw unit_is_claimed_false in Hkc.
    apply unit_is_claimed_false. intros wid' c' Hc'.
    destruct (decide (wid' = wid)) as [->|Hne].
    + rw Hc in Hc'. injection Hc' as <-. apply (Hkc wid (renew until c)). by rw /= lookup_insert_eq.
    + apply (Hkc wid'). by rw /= lookup_insert_ne.
Qed.

(** [done_units] only grows, and the counters of the history stay. *)
Lemma history_same slot slot' ds :
  run_steps (rs_run slot') = run_steps (rs_run slot) → rs_latest slot' = rs_latest slot →
  rs_node_commits slot' = rs_node_commits slot → rs_done_units slot ⊆ rs_done_units slot' →
  history_inv id slot ds → history_inv id slot' ds.
Proof.
  intros Hs Hl Hn Hd [H1 H2 H3 H4]. constructor; rw ?Hs ?Hl ?Hn //.
  eapply Forall_impl; [done|]. simpl. intros d (key & Hk & ?). eauto.
Qed.

Lemma slot_step_done s slot slot' : slot_step s id slot slot' → rs_done_units slot ⊆ rs_done_units slot'.
Proof.
  destruct 1; rw ?reap_is_fail ?fail_slot_done; simpl; [destruct (_ >=? _)|..]; try done; [set_solver|].
  destruct terminal; set_solver.
Qed.
Lemma slot_step_history s slot slot' ds :
  slot_step s id slot slot' → history_inv id slot ds → history_inv id slot' ds.
Proof.
  intros Hs. pose proof (slot_step_done _ _ _ Hs) as Hd. apply history_same; [..|done].
  all: destruct Hs; rw ?reap_is_fail; try done.
  all: rw /fail_slot; match goal with |- context [if ?b then _ else _] => by destruct b end.
Qed.
Lemma slot_step_status s slot slot' :
  slot_step s id slot slot' → running slot → status_inv slot → status_inv slot'.
Proof.
  destruct 1; intros Hrun Hst.
  - rw reap_is_fail. by apply (status_same slot); [apply fail_slot_run|..].
  - by apply (status_same slot).
  - by apply (status_same slot).
  - by apply (status_same slot); [apply fail_slot_run|..].
  - by apply status_inject.
  - by apply status_stall.
  - by apply status_cancel.
Qed.
Lemma slot_step_claims s a t slot slot' :
  slot_step s id slot slot' → frozen_inv id a t slot → claims_inv id a slot → claims_inv id a slot'.
Proof.
  intros Hs Hf Hc. destruct Hs.
  - rw reap_is_fail. by apply fail_slot_claims.
  - destruct Hf. simplify_eq. by eapply claim_slot_claims.
  - by apply claims_renew.
  - by apply fail_slot_claims.
  - by apply (claims_same _ slot).
  - by apply (claims_same _ slot).
  - split; [apply map_Forall_empty|]. intros _. rw map_size_empty. by destruct (fi_max_in_flight _ _ _ _ Hf).
Qed.
Lemma slot_step_attempts s a t slot slot' :
  slot_step s id slot slot' → running slot → frozen_inv id a t slot → claims_inv id a slot →
  plain_assembly a → attempts_inv slot → attempts_inv slot'.
Proof.
  intros Hs Hrun Hf Hc Hp Ha. destruct Hs.
  - rw reap_is_fail. by apply fail_slot_attempts.
  - destruct Hf. simplify_eq. by eapply claim_slot_attempts; [..|apply fi_max_attempts0| |].
  - by apply attempts_renew.
  - by apply fail_slot_attempts.
  - by apply (attempts_same slot).
  - by apply (attempts_same slot).
  - destruct Ha as [Hb _ _]. constructor; simpl; [done|by intros ??; rw lookup_empty|done].
Qed.
Lemma slot_step_run_inv s slot slot' ds :
  slot_step s id slot slot' → running slot → run_inv id slot ds → run_inv id slot' ds.
Proof.
  intros Hs Hrun [(a & t & Hf & Hc & Ha) Hst Hh]. constructor.
  - exists a, t. split_and!; [|by eapply slot_step_claims|].
    + eapply frozen_same; [|done]. by eapply slot_step_frame.
    + intros Hp. destruct (Ha Hp) as (Hat & Hnd & Hpl). split_and!; [|done|done].
      by eapply slot_step_attempts.
  - by eapply slot_step_status.
  - by eapply slot_step_history.
Qed.
End preserve_slot.

(** ** Preservation: a commit *)
Section commit_run.
Context `{Platform} (s : State) (slot : RunSlot) (ans : option ArtifactRef).

(** The four ways a commit can leave the run. *)
Lemma commit_run_cases : running slot →
  let r := answered ans (rs_run slot) in
  (∃ x, ans = Some x ∧ is_open_closure slot = false ∧
     commit_run s slot ans = run_with_state RsCompleted r) ∨
  (run_max_steps r ≤ run_steps r ∧ (is_open_closure slot = true ∨ ans = None) ∧
     commit_run s slot ans = run_with_reason max_steps_reason (run_with_state RsFailed r)) ∨
  (run_steps r < run_max_steps r ∧ is_open_closure slot = false ∧ ans = None ∧
     rs_claimed slot = ∅ ∧ assembly_any_ready s slot = false ∧
     commit_run s slot ans = run_with_reason stall_reason (run_with_state RsStalled r)) ∨
  (run_steps r < run_max_steps r ∧ (is_open_closure slot = true ∨ ans = None) ∧
     commit_run s slot ans = r).
Proof.
  intros Hrun r. rw /commit_run. fold r.
  destruct (bool_decide (is_Some ans) && negb (is_open_closure slot)) eqn:Hdone.
  { left. inv_oks. apply bool_decide_eq_true in H0 as [x Hx]. by exists x. }
  assert (is_open_closure slot = true ∨ ans = None) as Ho.
  { destruct ans; simpl in Hdone; [|by right]. left. by destruct (is_open_closure slot). }
  right. destruct (_ >=? _) eqn:Hmax; rw Z.geb_leb in Hmax;
    [left; apply Z.leb_le in Hmax; done|apply Z.leb_gt in Hmax; right].
  destruct (negb (is_open_closure slot) && bool_decide (rs_claimed slot = ∅) &&
    negb (assembly_any_ready s slot)) eqn:Hst; [left|by right].
  inv_oks. destruct Ho as [Ho| ->]; [congruence|].
  match goal with H : bool_decide _ = true |- _ => apply bool_decide_eq_true in H end. done.
Qed.
Lemma answered_fields : let r := answered ans (rs_run slot) in
  run_id r = run_id (rs_run slot) ∧ run_assembly r = run_assembly (rs_run slot) ∧
  run_max_steps r = run_max_steps (rs_run slot) ∧ run_policy r = run_policy (rs_run slot) ∧
  run_steps r = run_steps (rs_run slot) ∧ run_state r = run_state (rs_run slot) ∧
  run_inputs r = run_inputs (rs_run slot).
Proof. by destruct ans. Qed.
Lemma commit_run_fields : let r := commit_run s slot ans in
  run_id r = run_id (rs_run slot) ∧ run_assembly r = run_assembly (rs_run slot) ∧
  run_max_steps r = run_max_steps (rs_run slot) ∧ run_policy r = run_policy (rs_run slot) ∧
  run_steps r = run_steps (rs_run slot) ∧
  run_answer r = run_answer (answered ans (rs_run slot)).
Proof.
  rw /commit_run. destruct answered_fields as (H1 & H2 & H3 & H4 & H5 & _).
  repeat match goal with |- context [if ?b then _ else _] => destruct b end; done.
Qed.
Lemma commit_run_status :
  running slot → 0 ≤ run_steps (rs_run slot) ≤ run_max_steps (rs_run slot) →
  (is_Some (run_answer (rs_run slot)) → is_open_closure slot = true) →
  status_inv (slot_with_run (commit_run s slot ans) slot).
Proof.
  intros Hrun Hsteps Hans.
  destruct commit_run_fields as (_ & _ & Hmax & Hpol & Hst & Ha).
  assert (is_open_closure (slot_with_run (commit_run s slot ans) slot) = is_open_closure slot) as Ho.
  { by rw /is_open_closure /= Hpol. }
  assert (is_open_closure slot = true ∨ ans = None →
    is_Some (run_answer (answered ans (rs_run slot))) → is_open_closure slot = true) as Hans'.
  { intros [|Hn]; [done|]. rw Hn. apply Hans. }
  destruct (commit_run_cases Hrun) as
    [(x & Hx & Hcl & Hr)|[(Hle & Hcl & Hr)|[(Hlt & Hcl & Hn & Hc & _ & Hr)|(Hlt & Hcl & Hr)]]];
    constructor; rw /running /= ?Hmax ?Hst ?Ho ?Ha //; rw Hr;
    rw ?run_state_with_reason ?run_state_with_state //.
  all: try (intros [|]; done).
  - by left.
  - intros _. by rw Hx.
  - intros Hs. right. by apply Hans'.
  - intros Hs. right. apply Hans'; [by right|done].
  - destruct answered_fields as (_ & _ & _ & _ & _ & -> & _). by rw Hrun.
  - destruct answered_fields as (_ & _ & Hm' & _ & Hs' & _ & _). rw Hm' Hs' in Hlt. lia.
  - intros Hs. right. by apply Hans'.
  - destruct answered_fields as (_ & _ & _ & _ & _ & -> & _). by rw Hrun.
  - destruct answered_fields as (_ & _ & _ & _ & _ & -> & _). rw Hrun. by intros [].
Qed.
End commit_run.

Section preserve_commit.
Context `{Platform} (id : string) (s : State) (slot : RunSlot) (ds : list Derivation).
Context (wid : string) (c : ClaimedSlot) (outputs : list NamedArtifact).
Context (a : Assembly) (t : NodeOutput).
Hypothesis Hrun : running slot.
Hypothesis Hc : rs_claimed slot !! wid = Some c.
Hypothesis Hsteps : run_steps (rs_run slot) < run_max_steps (rs_run slot).
Hypothesis Hfrozen : frozen_inv id a t slot.
Hypothesis Hclaims : claims_inv id a slot.

Let d := derivation_of (cs_work c) outputs.
Let slot1 := record_commit c d slot.
Let slot' := commit_slot s c t d slot.

Lemma commit_work : wi_id (cs_work c) = wid.
Proof. destruct Hclaims as [Hall _]. apply (co_id _ _ _ _ _ (Hall _ _ Hc)). Qed.
Lemma commit_slot_frame : same_frame slot slot'.
Proof.
  rw /slot' commit_slot_run.
  destruct (commit_run_fields s slot1 (commit_answer t (wi_node_id (cs_work c)) d))
    as (H1 & H2 & H3 & H4 & _).
  split_and!; [exact H1|exact H2|exact H3|exact H4|done..].
Qed.
Lemma commit_slot_released :
  rs_claimed slot' = rs_claimed (fail_slot wid c true slot) ∧
  rs_done_units slot' = rs_done_units (fail_slot wid c true slot) ∧
  rs_claim_attempts slot' = rs_claim_attempts slot.
Proof. rw /slot' commit_slot_run /= commit_work. done. Qed.
Lemma commit_slot_claims : claims_inv id a slot'.
Proof.
  destruct commit_slot_released as (H1 & H2 & _).
  apply (claims_same _ _ (fail_slot wid c true slot)); [done|done| |by apply fail_slot_claims].
  by destruct commit_slot_frame as (_ & _ & _ & _ & -> & _).
Qed.
Lemma commit_slot_attempts : attempts_inv slot → attempts_inv slot'.
Proof.
  intros Ha. destruct commit_slot_released as (H1 & H2 & H3).
  apply (attempts_same (fail_slot wid c true slot)); [done|done|done| | |by apply fail_slot_attempts].
  - by destruct commit_slot_frame as (_ & _ & _ & _ & _ & _ & ->).
  - intros _. by rw /running fail_slot_run.
Qed.
Lemma steps_succ : 0 ≤ run_steps (rs_run slot) →
  u64 (run_steps (rs_run slot) + 1) = run_steps (rs_run slot) + 1.
Proof. intros H0. apply u64_id. destruct (fi_max_steps _ _ _ _ Hfrozen). lia. Qed.
Lemma commit_slot_status : status_inv slot → status_inv slot'.
Proof.
  intros [_ [H0 Hmax] _ Hans _ _]. pose proof Hrun as Hrun'. rw /running in Hrun'.
  rw /slot' commit_slot_run. apply commit_run_status; [done| |].
  - rw /= steps_succ //. lia.
  - intros Hs. destruct (Hans Hs) as [Hs'|]; [congruence|done].
Qed.
Lemma commit_slot_history : 0 ≤ run_steps (rs_run slot) → history_inv id slot ds →
  history_inv id slot' (ds ++ [d]).
Proof.
  intros H0 [H1 H2 H3 H4]. rw /slot' commit_slot_run.
  destruct (commit_run_fields s slot1 (commit_answer t (wi_node_id (cs_work c)) d))
    as (_ & _ & _ & _ & Hs & _).
  constructor; simpl.
  - rw Hs /= steps_succ // -H1 /len length_app /=. lia.
  - intros n. rw /of_node filter_app filter_cons filter_nil /=.
    case_decide as Hn; [subst n|].
    + by rw lookup_insert_eq last_snoc.
    + by rw lookup_insert_ne // app_nil_r H2.
  - intros n. rw /of_node filter_app filter_cons filter_nil /=.
    case_decide as Hn; [subst n|].
    + rw lookup_insert_eq /= H3 /len length_app /=. rw u64_id; [fold (of_node (wi_node_id (cs_work c)) ds); lia|].
      pose proof (length_filter (λ d0, d_node_id d0 = wi_node_id (cs_work c)) ds) as Hl.
      destruct (fi_max_steps _ _ _ _ Hfrozen). rw /len /of_node in H1 |- *. lia.
    + by rw lookup_insert_ne // app_nil_r H3.
  - apply Forall_app. split.
    + eapply Forall_impl; [done|]. simpl. intros d' (key & Hk & ?). exists key.
      split; [set_solver|done].
    + apply Forall_singleton. exists (cs_unit_key c). split; [set_solver|].
      destruct Hclaims as [Hall _]. destruct (Hall _ _ Hc).
      destruct co_node0 as (n & _ & <- & Hs' & Hw). split; [done|]. simpl in *. by rw co_id0.
Qed.
(** The unit was not done, so its work id is new to the history. *)
Lemma commit_slot_nodup :
  plain_assembly a → Forall (λ d, plain_node_id (d_node_id d)) ds → history_inv id slot ds →
  NoDup (d_work_id <$> ds) →
  NoDup (d_work_id <$> ds ++ [d]) ∧ Forall (λ d, plain_node_id (d_node_id d)) (ds ++ [d]).
Proof.
  intros Hp Hpl Hh Hnd. destruct Hclaims as [Hall _]. pose proof (Hall _ _ Hc) as Hok.
  destruct (co_node _ _ _ _ _ Hok) as (n & Hn & Hn' & Hs' & Hw).
  rw /plain_assembly Forall_forall in Hp. specialize (Hp _ Hn). subst n. simpl in *.
  split; [|apply Forall_app; split; [done|by apply Forall_singleton]].
  rw fmap_app. apply NoDup_app. split_and!; [done| |apply NoDup_singleton].
  intros w Hin ->%list_elem_of_singleton. apply list_elem_of_fmap in Hin as (d' & Hw' & Hd').
  rw !Forall_forall in Hpl. specialize (Hpl _ Hd').
  destruct Hh as [_ _ _ Hdone]. rw Forall_forall in Hdone.
  destruct (Hdone _ Hd') as (key & Hk & Hks & Hkw). simpl in Hw'. rw commit_work Hkw Hw in Hw'.
  apply work_id_inj in Hw'; [|done..]. subst key. by apply (co_not_done _ _ _ _ _ Hok).
Qed.
End preserve_commit.

(** ** The whole state *)
Section preserve.
Context `{Platform}.
Variable store_policy : ArtifactStorePolicy.

Lemma fresh_slot_inv s id slot : fresh_slot s id slot → run_inv id slot [].
Proof.
  destruct 1 as [order a inputs max_steps mif lease mat policy Hvalid _ Hms _ Hma (Hms' & Hmif & _ & Hmat)].
  apply validate_assembly_spec in Hvalid as [_ _ (t & Ht & _) Hnd _ _ _ _ _ _].
  constructor.
  - exists a, t. split_and!.
    + by constructor.
    + split; [apply map_Forall_empty|]. simpl. intros _. rw map_size_empty. by destruct Hmif.
    + intros _. split_and!; [|apply NoDup_nil_2|done]. destruct Hmat as [Hmat _].
      constructor; rw /attempts_of /=; intros; rw lookup_empty //=; lia.
  - constructor; simpl; [done|lia|intros _; lia|by intros []|done|done].
  - constructor; simpl; [done|intros; by rw lookup_empty..|done].
Qed.

Lemma run_derivations_snoc s d id slot r :
  run_derivations (set_derivations (st_derivations s ++ [d]) (put_run_slot r slot s)) id =
  if decide (d_run_id d = id) then run_derivations s id ++ [d] else run_derivations s id.
Proof.
  rw /run_derivations /= filter_app filter_cons filter_nil /=. case_decide; [done|by rw app_nil_r].
Qed.

Lemma commit_run_inv s id slot wid c outputs a t ds :
  run_assembly (rs_run slot) = Some a → as_terminal a = Some t →
  running slot → rs_claimed slot !! wid = Some c →
  run_steps (rs_run slot) < run_max_steps (rs_run slot) →
  run_inv id slot ds →
  run_inv id (commit_slot s c t (derivation_of (cs_work c) outputs) slot)
    (ds ++ [derivation_of (cs_work c) outputs]).
Proof.
  intros Ha Ht Hrun Hc Hsteps [(a' & t' & Hf & Hcl & Hat) Hst Hh].
  assert (a' = a) as ->.
  { pose proof (fi_assembly _ _ _ _ Hf). congruence. }
  assert (t' = t) as ->.
  { pose proof (fi_terminal _ _ _ _ Hf). congruence. }
  constructor.
  - exists a, t. split_and!.
    + eapply frozen_same; [|done]. by eapply commit_slot_frame.
    + by eapply commit_slot_claims.
    + intros Hp. destruct (Hat Hp) as (H1 & H2 & H3).
      split; [by eapply commit_slot_attempts|by eapply commit_slot_nodup].
  - by eapply commit_slot_status.
  - eapply commit_slot_history; try done. by destruct (si_steps _ Hst).
Qed.

Lemma kstep_runs_inv s s' : kstep store_policy s s' → runs_inv s → runs_inv s'.
Proof.
  intros Hs [Hruns Hder]. destruct Hs; try done.
  - split; simpl.
    + apply map_Forall_insert_2; [|done].
      assert (run_derivations s id = []) as Hnil.
      { rw /run_derivations. destruct (filter _ _) as [|d l] eqn:Hfil; [done|exfalso].
        assert (d ∈ filter (λ d, d_run_id d = id) (st_derivations s)) as Hin by (rw Hfil; by left).
        apply list_elem_of_filter in Hin as [<- Hin]. rw Forall_forall in Hder.
        destruct (Hder _ Hin). congruence. }
      pose proof (fresh_slot_inv s id slot H1) as Hfresh. by rw -Hnil in Hfresh.
    + eapply Forall_impl; [done|]. intros d Hd. by apply lookup_insert_is_Some', or_intror.
  - split; simpl.
    + apply map_Forall_insert_2; [|done]. eapply slot_step_run_inv; [done|done|]. by apply Hruns.
    + eapply Forall_impl; [done|]. intros d Hd. by apply lookup_insert_is_Some', or_intror.
  - pose proof (Hruns _ _ H0) as Hinv. simpl in Hinv.
    assert (wi_run_id (cs_work c) = rid) as Hrid.
    { destruct (ri_assembly _ _ _ Hinv) as (a' & t' & _ & [Hall _] & _).
      by apply (co_run _ _ _ _ _ (Hall _ _ H2)). }
    rw Hrid. rw Hrid in H6. rw H0 in H6. injection H6 as <-. split; simpl.
    + intros id slot. rw run_derivations_snoc /= Hrid. rw lookup_insert_Some.
      intros [[<- <-]|[Hne Hslot]]; [rw decide_True //|rw decide_False //; by apply Hruns].
      by eapply commit_run_inv.
    + apply Forall_app. split; [eapply Forall_impl; [done|]|apply Forall_singleton].
      * intros d Hd. by apply lookup_insert_is_Some', or_intror.
      * rw /= Hrid lookup_insert_eq. by eexists.
Qed.
Lemma runs_inv_slots_ready s : runs_inv s → slots_ready s.
Proof.
  intros [Hruns _] id slot Hs. destruct (ri_assembly _ _ _ (Hruns _ _ Hs)) as (a & t & Hf & _ & _).
  destruct Hf. split_and!; [|by destruct fi_max_in_flight0|by eexists].
  intros a' Ha'. congruence.
Qed.
Lemma runs_inv_empty : runs_inv empty_state.
Proof. split; [apply map_Forall_empty|done]. Qed.

Lemma call_ksteps s o s' : runs_inv s → call_step store_policy s o s' → ksteps store_policy s s'.
Proof. intros Hinv [order t0 now c Hok]. by apply exec_steps, runs_inv_slots_ready. Qed.
Lemma ksteps_runs_inv s s' : ksteps store_policy s s' → runs_inv s → runs_inv s'.
Proof. induction 1; [done|]. eauto using kstep_runs_inv. Qed.
(** Every reachable state is reached by transitions, and satisfies the
    invariant of runs. *)
Lemma reachable_ksteps s : reachable store_policy s → ksteps store_policy empty_state s ∧ runs_inv s.
Proof.
  revert s. apply (rtc_ind_r (λ s, ksteps store_policy empty_state s ∧ runs_inv s)).
  - split; [apply ksteps_refl|apply runs_inv_empty].
  - intros s1 s2 _ [o Hcall] [Hk Hinv]. pose proof (call_ksteps _ _ _ Hinv Hcall) as Hk2.
    split; [by etrans|by eapply ksteps_runs_inv].
Qed.
(** An invariant of the transitions is an invariant of the kernel. *)
Lemma reachable_inv (I : State → Prop) :
  I empty_state → (∀ s s', kstep store_policy s s' → I s → I s') →
  ∀ s, reachable store_policy s → I s.
Proof.
  intros H0 Hstep s [Hk _]%reachable_ksteps. revert s Hk.
  apply (rtc_ind_r I); [done|]. eauto.
Qed.
(** A call leads from a reachable state to a reachable state. *)
Lemma reachable_exec `{HashOrder} s t0 now c s' :
  reachable store_policy s → call_ok c → (exec store_policy t0 now c s).2 = s' →
  reachable store_policy s'.
Proof.
  intros Hr Hok <-. rw /reachable. eapply rtc_r; [exact Hr|]. eexists. by apply call_step_intro.
Qed.
End preserve.
