(* ===== verification/StoreInv.v ===== *)
(** * StoreInv: what every reachable kernel state satisfies about what it stores

    Content addressing of artifacts and blobs, self-consistent contracts, the
    verified ledger chain, typed idempotency entries and bounded, ordered
    event queues: one invariant per component, each proved per transition. *)
From S2P Require Import Prelude Wire Errors Hash Traits Policy State Registry Store Events Assembly.
From S2P Require Import AssemblySpec Work Runs Units Steps Kernel Invariant.
Local Open Scope Z_scope.

Section store_inv.
Context `{Platform}.
Variable store_policy : ArtifactStorePolicy.

(** ** Blobs and artifacts *)
Definition blob_ok (key : string * string) (slot : BlobSlot) : Prop :=
  key.2 = blob_id (bs_data slot) ∧
  bs_ref slot = mkBlobRef key.2 (u64 (len (bs_data slot))) key.1 ∧
  enforce_blob_size store_policy (len (bs_data slot)) = Ok tt.
Definition blobs_inv (s : State) : Prop := map_Forall blob_ok (st_blobs s).

(** An external value is held by the blob store. *)
Definition object_held (s : State) (o : ObjectRef) : Prop :=
  ∃ slot, st_blobs s !! (or_namespace o, or_digest o) = Some slot ∧
    blob_id (bs_data slot) = or_digest o ∧ u64 (len (bs_data slot)) = or_byte_count o.
Definition artifact_ok (s : State) (id : string) (a : Artifact) : Prop :=
  id = artifact_id_of a ∧ art_id a = id ∧
  validate_artifact_content a store_policy = Ok tt ∧
  ∀ k tr o, art_traits a !! k = Some tr → tr_object tr = Some o → or_digest o ≠ "" →
    object_held s o.
Definition artifacts_inv (s : State) : Prop := map_Forall (artifact_ok s) (st_artifacts s).

Lemma verify_object_held s o : verify_object_ref_locked s o = Ok tt → object_held s o.
Proof.
  rw /verify_object_ref_locked. intros Hv. inv_oks.
  match goal with H : (_ =? _) = true, H' : (u64 _ =? _) = true |- _ =>
    apply Z.eqb_eq in H, H' end.
  by eexists.
Qed.
Lemma verify_external_held s tr o :
  verify_external_trait s tr = Ok tt → tr_object tr = Some o → or_digest o ≠ "" → object_held s o.
Proof.
  rw /verify_external_trait /trait_has_external. intros Hv Ho Hd. rw Ho in Hv.
  apply str_is_empty_false in Hd. rw Hd /= in Hv. by apply verify_object_held.
Qed.

Lemma object_held_blobs s s' o : st_blobs s ⊆ st_blobs s' → object_held s o → object_held s' o.
Proof. intros Hsub (slot & Hs & ?). exists slot. split; [by eapply lookup_weaken|done]. Qed.
Lemma artifact_ok_blobs s s' id a : st_blobs s ⊆ st_blobs s' → artifact_ok s id a → artifact_ok s' id a.
Proof.
  intros Hsub (? & ? & ? & Hall). split_and!; [done..|]. intros. eapply object_held_blobs; eauto.
Qed.

Lemma kstep_blobs s s' : kstep store_policy s s' → st_blobs s ⊆ st_blobs s'.
Proof. destruct 1; try done. by apply insert_subseteq. Qed.
Lemma kstep_blobs_inv s s' : kstep store_policy s s' → blobs_inv s → blobs_inv s'.
Proof. intros [] Hinv; try done. by apply map_Forall_insert_2. Qed.
Lemma kstep_artifacts_inv s s' : kstep store_policy s s' → artifacts_inv s → artifacts_inv s'.
Proof.
  intros Hs Hinv. pose proof (kstep_blobs _ _ Hs) as Hb.
  assert (map_Forall (artifact_ok s') (st_artifacts s)) as Hold.
  { intros id a Ha. eapply artifact_ok_blobs; [done|]. by apply Hinv. }
  destruct Hs; try done. apply map_Forall_insert_2; [|done].
  split_and!; [done|done|done|]. intros k tr o Hk Ho Hd. by eapply verify_external_held; eauto.
Qed.

(** ** Contracts *)
Definition contract_ok (ref : string) (c : Contract) : Prop :=
  con_ref c = ref ∧ ref ≠ "" ∧ con_digest c = contract_digest_of c ∧
  con_compatible_with c = sort_strings (con_compatible_with c).
Definition contracts_inv (s : State) : Prop := map_Forall contract_ok (st_contracts s).
Lemma kstep_contracts_inv s s' : kstep store_policy s s' → contracts_inv s → contracts_inv s'.
Proof. intros [] Hinv; try done; by apply map_Forall_insert_2. Qed.

(** ** Ledger *)
Definition ledger_inv (s : State) : Prop := verify_chain (st_ledger s) = true.
Lemma kstep_ledger_inv s s' : kstep store_policy s s' → ledger_inv s → ledger_inv s'.
Proof. intros [] Hinv; try done; by apply verify_next_entry. Qed.

(** ** Idempotency: a cached result is of the operation its key names *)
Definition idem_inv (s : State) : Prop :=
  map_Forall (λ key v, ∃ op ctx, idempotency_key op ctx = Some key ∧ idem_of op v) (st_idempotency s).
Lemma kstep_idem_inv s s' : kstep store_policy s s' → idem_inv s → idem_inv s'.
Proof. intros [] Hinv; try done. apply map_Forall_insert_2; [|done]. by exists op, ctx. Qed.
Lemma idem_of_nul_free op v : idem_of op v → str_nul_free op.
Proof. destruct v; simpl; [intros ->|intros [->| ->]]; by apply (bool_decide_unpack _). Qed.
Lemma idempotency_key_op op1 op2 c1 c2 k :
  str_nul_free op1 → str_nul_free op2 →
  idempotency_key op1 c1 = Some k → idempotency_key op2 c2 = Some k → op1 = op2.
Proof.
  intros H1 H2. rw /idempotency_key.
  destruct (str_is_empty (ctx_request_key c1)), (str_is_empty (ctx_request_key c2)); try done.
  intros [= <-] [= Heq]. apply (f_equal as_bytes) in Heq.
  rw !as_bytes_app in Heq. change (as_bytes NUL) with [SEP] in Heq. simpl in Heq.
  apply frame_inj in Heq as [Ho _]; [|done..]. by apply as_bytes_inj.
Qed.
Lemma idem_inv_get s op ctx v v' :
  idem_inv s → idem_of op v → idempotent_get s op ctx = Some v' → idem_of op v'.
Proof.
  intros Hinv Hop. rw /idempotent_get. destruct (idempotency_key op ctx) as [key|] eqn:Hkey; simpl; [|done].
  intros Hv'. destruct (Hinv _ _ Hv') as (op' & ctx' & Hkey' & Hop').
  assert (op' = op) as ->; [|done].
  by eapply idempotency_key_op; [by eapply idem_of_nul_free..| |].
Qed.
End store_inv.
