(* ===== verification/EventSpec.v ===== *)
(** * EventSpec: what publishing does to every subscriber

    The one-pass delivery loop against a description per subscriber, and the
    invariant of the bus: bounded buffers, one channel per subscriber, sequence numbers in
    order. *)
From S2P Require Import Prelude Wire Errors Hash Policy State Registry Store Events Assembly AssemblySpec Work.
From S2P Require Import Runs Units Steps Kernel Invariant.
Local Open Scope Z_scope.

(** The channel a subscriber writes to has room and a receiver. *)
Definition accepts (chans : list Chan) (e : Event) (sub : Sub) : Prop :=
  is_Some (chans !! s_tx sub ≫= λ c, try_send c e).
#[export] Instance accepts_dec chans e sub : Decision (accepts chans e sub).
Proof. unfold accepts. apply _. Defined.
(** Who is still subscribed after the delivery of [e]. *)
Definition kept_subs (chans : list Chan) (e : Event) (subs : list Sub) : list Sub :=
  filter (λ sub, topic_matches sub e = false ∨ accepts chans e sub) subs.
(** Channel [i] is written to by a subscriber of the topic of [e]. *)
Definition addressed (subs : list Sub) (e : Event) (i : nat) : bool :=
  existsb (λ sub, Nat.eqb (s_tx sub) i && topic_matches sub e) subs.
Definition delivered (e : Event) (c : Chan) : Chan := default c (try_send c e).

Lemma addressed_false subs e i : i ∉ (s_tx <$> subs) → addressed subs e i = false.
Proof.
  intros Hi. apply not_true_iff_false. rw /addressed existsb_exists. intros (sub & Hin & Hb).
  apply andb_true_iff in Hb as [Hb _]. apply Nat.eqb_eq in Hb. subst i.
  apply Hi, list_elem_of_fmap. exists sub. split; [done|]. by apply list_elem_of_In.
Qed.

(** The loop delivers to exactly the addressed channels and sheds exactly the
    matching subscribers that cannot take the event. *)
Lemma deliver_spec e subs chans :
  NoDup (s_tx <$> subs) →
  (deliver e subs chans).1 = kept_subs chans e subs ∧
  length (deliver e subs chans).2 = length chans ∧
  ∀ i, (deliver e subs chans).2 !! i =
       if addressed subs e i then delivered e <$> (chans !! i) else chans !! i.
Proof.
  revert chans. induction subs as [|sub subs IH]; intros chans; simpl; [done|].
  intros [Hsub Hnd]%NoDup_cons. rw /kept_subs filter_cons.
  assert (addressed subs e (s_tx sub) = false) as Hself by by apply addressed_false.
  destruct (topic_matches sub e) eqn:Ht.
  - assert (∀ chans', length chans' = length chans → (∀ i, i ≠ s_tx sub → chans' !! i = chans !! i) →
      kept_subs chans' e subs = kept_subs chans e subs) as Hkept.
    { intros chans' _ Hother. rw /kept_subs. clear -Hsub Hother.
      induction subs as [|sub' subs IH]; [done|]. simpl in Hsub. rw not_elem_of_cons in Hsub.
      destruct Hsub as [Hne Hsub]. rw !filter_cons (IH Hsub).
      assert (accepts chans' e sub' ↔ accepts chans e sub') as Hacc.
      { rw /accepts Hother //. }
      destruct (decide (topic_matches sub' e = false ∨ accepts chans' e sub')),
        (decide (topic_matches sub' e = false ∨ accepts chans e sub')); naive_solver. }
    destruct (chans !! s_tx sub ≫= λ c, try_send c e) as [c'|] eqn:Hsend.
    + destruct (IH (<[s_tx sub := c']> chans) Hnd) as (Hk & Hl & Hi).
      destruct (deliver e subs _) as [kept chans'] eqn:Hd; simpl in *.
      rw decide_True; [|right; by rw /accepts Hsend]. rw length_insert in Hl.
      split_and!; [|done|].
      * rw Hk. f_equal. apply Hkept; [by rw length_insert|]. intros i Hi'. by rw list_lookup_insert_ne.
      * intros i. rw Hi. destruct (chans !! s_tx sub) as [c|] eqn:Hc; simplify_eq/=.
        destruct (Nat.eqb_spec (s_tx sub) i) as [<-|Hne]; simpl.
        -- rw Hself Hc /= list_lookup_insert_eq; [|by eapply lookup_lt_Some]. by rw /delivered Hsend.
        -- by rw list_lookup_insert_ne.
    + destruct (IH chans Hnd) as (Hk & Hl & Hi). rw decide_False.
      2: { intros [?|[c Hc]]; [done|]. by rw Hsend in Hc. }
      split_and!; [done|done|]. intros i. rw Hi.
      destruct (Nat.eqb_spec (s_tx sub) i) as [<-|Hne]; simpl; [|done]. rw Hself.
      destruct (chans !! s_tx sub) as [c|]; simplify_eq/=; [|done]. by rw /delivered Hsend.
  - destruct (IH chans Hnd) as (Hk & Hl & Hi).
    destruct (decide (false = false ∨ accepts chans e sub)) as [_|Hn]; [|destruct Hn; by left].
    destruct (deliver e subs chans) as [kept chans']; simpl in *.
    split_and!; [by rw Hk|done|]. intros i. rw Hi andb_false_r. done.
Qed.

(** ** The invariant of the bus *)
Definition seqs (c : Chan) : list Z := ev_seq <$> ch_queue c.
(** A queue in sequence order, all of it published by [n]. *)
Definition ordered_upto (n : Z) (c : Chan) : Prop :=
  StronglySorted Z.lt (seqs c) ∧ Forall (λ z, 0 < z ≤ n) (seqs c).
Record bus_inv (s : State) : Prop := mkBus {
  bi_nodup : NoDup (s_tx <$> st_subs s);
  bi_range : Forall (λ sub, (s_tx sub < length (st_chans s))%nat) (st_subs s);
  bi_bounded : Forall (λ c, len (ch_queue c) ≤ SUBSCRIBER_BUFFER) (st_chans s);
  (** the event counter cannot have wrapped while the ledger is shorter *)
  bi_ordered : len (st_ledger s) < 2^64 →
    0 ≤ st_event_seq s ≤ len (st_ledger s) ∧ Forall (ordered_upto (st_event_seq s)) (st_chans s);
}.

Lemma try_send_spec c e c' : try_send c e = Some c' →
  ch_connected c = true ∧ len (ch_queue c) < SUBSCRIBER_BUFFER ∧ c' = mkChan (ch_queue c ++ [e]) true.
Proof.
  rw /try_send. destruct (ch_connected c) eqn:Hc; simpl; [|done].
  destruct (Z.ltb_spec (len (ch_queue c)) SUBSCRIBER_BUFFER); [|done]. by intros [= <-].
Qed.
Lemma delivered_bounded e c :
  len (ch_queue c) ≤ SUBSCRIBER_BUFFER → len (ch_queue (delivered e c)) ≤ SUBSCRIBER_BUFFER.
Proof.
  intros Hc. rw /delivered. destruct (try_send c e) as [c'|] eqn:Hs; simpl; [|done].
  apply try_send_spec in Hs as (_ & Hl & ->). rw /len /= length_app /= in Hl |- *. lia.
Qed.
Lemma ordered_upto_mono n m c : n ≤ m → ordered_upto n c → ordered_upto m c.
Proof. intros Hle [Hs Hf]. split; [done|]. eapply Forall_impl; [done|]. simpl. lia. Qed.
Lemma StronglySorted_snoc (R : relation Z) l x :
  StronglySorted R l → Forall (λ y, R y x) l → StronglySorted R (l ++ [x]).
Proof.
  induction 1 as [|y l Hl IH Hy]; simpl; intros Hx; [by repeat constructor|].
  apply Forall_cons in Hx as [Hyx Hx]. constructor; [by apply IH|].
  apply Forall_app. split; [done|by apply Forall_singleton].
Qed.
Lemma delivered_ordered n e c :
  ordered_upto n c → 0 ≤ n → ev_seq e = n + 1 → ordered_upto (n + 1) (delivered e c).
Proof.
  intros Hc Hn He. rw /delivered. destruct (try_send c e) as [c'|] eqn:Hs; simpl.
  - apply try_send_spec in Hs as (_ & _ & ->). destruct Hc as [Hs Hf]. rw /ordered_upto /seqs /= fmap_app.
    split.
    + apply StronglySorted_snoc; [done|]. eapply Forall_impl; [done|]. simpl. lia.
    + apply Forall_app. split; [eapply Forall_impl; [done|]; simpl; lia|apply Forall_singleton; lia].
  - eapply ordered_upto_mono; [|done]. lia.
Qed.
(** Delivery treats every channel by itself. *)
Lemma deliver_Forall (P Q : Chan → Prop) e subs chans :
  NoDup (s_tx <$> subs) → (∀ c, P c → Q c) → (∀ c, P c → Q (delivered e c)) →
  Forall P chans → Forall Q (deliver e subs chans).2.
Proof.
  intros Hnd HPQ Hd Hall. destruct (deliver_spec e subs chans Hnd) as (_ & _ & Hi).
  apply Forall_lookup. intros i c. rw Hi. rw Forall_lookup in Hall.
  destruct (addressed subs e i); [|intros Hc; by eapply HPQ, Hall].
  rw fmap_Some. intros (c0 & Hc0 & ->). by eapply Hd, Hall.
Qed.

Lemma len_app {A} (l k : list A) : len (l ++ k) = len l + len k.
Proof. rw /len length_app. lia. Qed.

Lemma len_singleton {A} (x : A) : len [x] = 1.
Proof. done. Qed.

Section bus.
Context `{Platform}.
Variable store_policy : ArtifactStorePolicy.

Lemma bus_same s s' :
  st_subs s' = st_subs s → st_chans s' = st_chans s → st_event_seq s' = st_event_seq s →
  len (st_ledger s) ≤ len (st_ledger s') → bus_inv s → bus_inv s'.
Proof.
  intros Hs Hc He Hl [H1 H2 H3 H4]. constructor; rw ?Hs ?Hc ?He //.
  intros Hlt. destruct H4 as [? ?]; [lia|]. split; [lia|done].
Qed.
(** A receiver that takes from or drops its end. *)
Lemma bus_chan s rx c c' :
  st_chans s !! rx = Some c → len (ch_queue c') ≤ len (ch_queue c) →
  (∀ n, ordered_upto n c → ordered_upto n c') →
  bus_inv s → bus_inv (set_chans (<[rx := c']> (st_chans s)) s).
Proof.
  intros Hc Hl Ho [H1 H2 H3 H4]. constructor; simpl; [done|by rw length_insert| |].
  - apply Forall_insert; [done|]. etrans; [done|]. by eapply (Forall_lookup_1 _ _ _ _ H3).
  - intros Hlt. destruct H4 as [Hs Hall]; [done|]. split; [done|]. apply Forall_insert; [done|].
    apply Ho. by eapply (Forall_lookup_1 _ _ _ _ Hall).
Qed.
Lemma kstep_bus_inv s s' : kstep store_policy s s' → bus_inv s → bus_inv s'.
Proof.
  intros Hs Hinv. destruct Hs; try (by apply (bus_same s)).
  - apply (bus_same s); [done..| |done]. rw /= len_app len_singleton. lia.
  - destruct Hinv as [H1 H2 H3 H4]. constructor; simpl.
    + rw fmap_app. apply NoDup_app. split_and!; [done| |apply NoDup_singleton].
      intros i Hi ->%list_elem_of_singleton. apply list_elem_of_fmap in Hi as (sub & Heq & Hin).
      rw Forall_forall in H2. specialize (H2 _ Hin). simpl in Heq. lia.
    + apply Forall_app. rw length_app /=. split; [|apply Forall_singleton; simpl; lia].
      eapply Forall_impl; [done|]. simpl. lia.
    + apply Forall_app. split; [done|]. by apply Forall_singleton.
    + intros Hlt. destruct (H4 Hlt) as [? Hall]. split; [done|]. apply Forall_app. split; [done|].
      apply Forall_singleton. split; constructor.
  - destruct Hinv as [H1 H2 H3 H4].
    destruct (deliver_spec (event_with_seq seq e) (st_subs s) (st_chans s) H1) as (Hk & Hl & _).
    constructor; simpl; fold seq r.
    + rw /r Hk. by apply nodup_fmap_filter.
    + rw /r Hk Hl. apply Forall_forall. intros sub [_ Hin]%list_elem_of_filter.
      rw Forall_forall in H2. by apply H2.
    + eapply deliver_Forall; [done| |by intros c; apply delivered_bounded|done]. done.
    + rw len_app len_singleton. intros Hlt. destruct H4 as [Hs Hall]; [lia|].
      assert (seq = st_event_seq s + 1) as Heq by (apply u64_id; lia).
      split; [lia|]. eapply deliver_Forall; [done| | |exact Hall].
      * intros c. apply ordered_upto_mono. lia.
      * intros c Hc. rw Heq. apply delivered_ordered; [done|lia|done].
  - apply (bus_chan _ _ _ _ H0); [rw /len /=; lia| |done]. intros n [Hs Hf].
    apply StronglySorted_inv in Hs as [? _]. by apply Forall_cons in Hf as [_ ?].
  - apply (bus_chan _ _ _ _ H0); [rw /len /=; lia| |done]. intros n _; split; constructor.
Qed.
End bus.
