(* ===== verification/Evolve.v ===== *)
(** * Evolve: what a kernel state may become

    [evolves s s'] says what persists from one state to every later one: the
    ledger and the derivations only grow at the end, what is stored stays, a contract
    only changes by filling a placeholder, a module keeps its manifest and
    moves forward, a run keeps its frozen part and, once closed, everything. *)
From S2P Require Import Prelude Wire Errors Hash Traits Policy State Registry Store Events Assembly.
From S2P Require Import AssemblySpec Work Runs Units Steps Kernel Invariant.
Local Open Scope Z_scope.

Definition contract_evolves `{Platform} (c c' : Contract) : Prop :=
  c' = c ∨ is_contract_placeholder c = true.
Definition module_evolves (m m' : ModuleSlot) : Prop :=
  ms_manifest m' = ms_manifest m ∧ Lifecycle_i32 (ms_lifecycle m) ≤ Lifecycle_i32 (ms_lifecycle m').
Record slot_evolves (slot slot' : RunSlot) : Prop := mkSlotEvolves {
  se_frame : same_frame slot slot';
  se_done : rs_done_units slot ⊆ rs_done_units slot';
  se_closed : ¬ running slot → slot' = slot;
}.

Record evolves `{Platform} (s s' : State) : Prop := mkEvolves {
  ev_ledger : st_ledger s `prefix_of` st_ledger s';
  ev_derivations : st_derivations s `prefix_of` st_derivations s';
  ev_capabilities : st_capabilities s `prefix_of` st_capabilities s';
  ev_store : st_artifacts s ⊆ st_artifacts s';
  ev_blobs : st_blobs s ⊆ st_blobs s';
  ev_idempotency : st_idempotency s ⊆ st_idempotency s';
  ev_contracts : ∀ r c, st_contracts s !! r = Some c →
    ∃ c', st_contracts s' !! r = Some c' ∧ contract_evolves c c';
  ev_modules : ∀ i m, st_modules s !! i = Some m →
    ∃ m', st_modules s' !! i = Some m' ∧ module_evolves m m';
  ev_runs : ∀ id slot, st_runs s !! id = Some slot →
    ∃ slot', st_runs s' !! id = Some slot' ∧ slot_evolves slot slot';
}.

#[export] Instance slot_evolves_preorder : PreOrder slot_evolves.
Proof.
  split.
  - intros slot. by constructor.
  - intros s1 s2 s3 [F1 D1 C1] [F2 D2 C2]. constructor; [by etrans|by etrans|].
    intros Hr. pose proof (C1 Hr) as ->. by apply C2.
Qed.
#[export] Instance module_evolves_preorder : PreOrder module_evolves.
Proof. split; [by intros m|]. intros m1 m2 m3 [H1 ?] [H2 ?]. split; [congruence|lia]. Qed.

Section evolve.
Context `{Platform}.
Variable store_policy : ArtifactStorePolicy.

Lemma evolves_refl s : evolves s s.
Proof.
  constructor; try done.
  - intros r c Hc. exists c. split; [done|by left].
  - intros i m Hm. exists m. done.
  - intros id slot Hs. exists slot. done.
Qed.
Lemma evolves_trans s1 s2 s3 : evolves s1 s2 → evolves s2 s3 → evolves s1 s3.
Proof.
  intros [] []. constructor; try by etrans.
  - intros r c (c' & Hc' & H1)%ev_contracts0. apply ev_contracts1 in Hc' as (c'' & Hc'' & H2).
    exists c''. split; [done|]. destruct H1 as [->|]; [done|by right].
  - intros i m (m' & Hm' & H1)%ev_modules0. apply ev_modules1 in Hm' as (m'' & Hm'' & H2).
    exists m''. split; [done|by etrans].
  - intros id slot (x & Hx & H1)%ev_runs0. apply ev_runs1 in Hx as (y & Hy & H2).
    exists y. split; [done|by etrans].
Qed.

(** A transition touches one component; the others stay. *)
Lemma insert_run_evolves id slot slot' (m : gmap string RunSlot) :
  m !! id = Some slot → slot_evolves slot slot' →
  ∀ id' x, m !! id' = Some x → ∃ x', <[id := slot']> m !! id' = Some x' ∧ slot_evolves x x'.
Proof.
  intros Hs He id' x Hx. destruct (decide (id' = id)) as [->|Hne].
  - rw lookup_insert_eq. exists slot'. split; [done|]. congruence.
  - rw lookup_insert_ne //. exists x. done.
Qed.
Lemma slot_step_evolves s id slot slot' :
  slot_step s id slot slot' → running slot → slot_evolves slot slot'.
Proof.
  intros Hs Hr. constructor; [by eapply slot_step_frame|by eapply slot_step_done|done].
Qed.

Lemma kstep_evolves s s' : kstep store_policy s s' → runs_inv s → evolves s s'.
Proof.
  intros Hs Hinv. pose proof (evolves_refl s) as Hrefl. destruct Hrefl.
  destruct Hs; constructor; try done; simpl.
  all: try (by apply prefix_app_r).
  all: try (by apply insert_subseteq).
  - intros r c Hc. destruct (decide (r = ref)) as [->|Hne]; [congruence|].
    rw lookup_insert_ne //. exists c. split; [done|by left].
  - intros i m' Hm. exists m'. split; [by apply lookup_app_l_Some|done].
  - intros j m Hm. destruct (decide (i = j)) as [->|Hne].
    + rw list_lookup_insert_eq; [|by eapply lookup_lt_Some].
      eexists. split; [done|]. split; simpl; [congruence|]. rw Hm in H0. injection H0 as ->. lia.
    + rw list_lookup_insert_ne //. by exists m.
  - intros r c' Hc. destruct (decide (r = con_ref c)) as [->|Hne].
    + rw lookup_insert_eq. exists c. split; [done|]. right. by destruct (H3 _ Hc).
    + rw lookup_insert_ne //. exists c'. split; [done|by left].
  - intros id' x Hx. destruct (decide (id' = id)) as [->|Hne]; [congruence|].
    rw lookup_insert_ne //. by exists x.
  - eapply insert_run_evolves; [done|]. by eapply slot_step_evolves.
  - destruct Hinv as [Hruns _]. pose proof (Hruns _ _ H0) as Hinv. simpl in Hinv.
    destruct (ri_assembly _ _ _ Hinv) as (a & t & Hf & Hcl & _).
    assert (wi_run_id (cs_work c) = rid) as Hrid.
    { destruct Hcl as [Hall _]. by apply (co_run _ _ _ _ _ (Hall _ _ H2)). }
    rw Hrid. rw Hrid in H6. rw H0 in H6. injection H6 as <-.
    eapply insert_run_evolves; [done|].
    assert (a = assembly) as -> by (pose proof (fi_assembly _ _ _ _ Hf); congruence).
    assert (t = terminal) as -> by (pose proof (fi_terminal _ _ _ _ Hf); congruence).
    constructor; [by eapply commit_slot_frame| |done].
    destruct (commit_slot_released rid s slot0 wid c outputs assembly terminal) as (_ & Hd & _); [done..|].
    rw Hd /=. set_solver.
Qed.
Lemma ksteps_evolves s s' : ksteps store_policy s s' → runs_inv s → evolves s s'.
Proof.
  induction 1 as [|s1 s2 s3 Hs _ IH]; intros Hinv; [apply evolves_refl|].
  eapply evolves_trans; [by eapply kstep_evolves|]. by eapply IH, kstep_runs_inv.
Qed.
(** Later states, over any calls. *)
Definition later (s s' : State) : Prop := rtc (call_rel store_policy) s s'.
Lemma later_evolves s s' : reachable store_policy s → later s s' → evolves s s'.
Proof.
  intros [_ Hinv]%reachable_ksteps Hl. revert Hinv.
  induction Hl as [|s1 s2 s3 [o Hc] _ IH]; intros Hinv; [apply evolves_refl|].
  pose proof (call_ksteps _ _ _ _ Hinv Hc) as Hk.
  eapply evolves_trans; [by eapply ksteps_evolves|]. by eapply IH, ksteps_runs_inv.
Qed.
Lemma later_reachable s s' : reachable store_policy s → later s s' → reachable store_policy s'.
Proof. rw /reachable /later. intros ? ?. by etrans. Qed.
End evolve.
