(* ===== verification/UnitSpec.v ===== *)
(** * UnitSpec: the life cycle of a work unit

    The abstract machine of one unit of work: READY, CLAIMED under an attempt number, or
    DONE, while its run is open.  The kernel's run slots refine it: every
    call moves every unit along the machine. *)
From S2P Require Import Prelude Wire Errors Hash Traits Policy State Registry Store Events Assembly.
From S2P Require Import AssemblySpec Work Runs Units Steps Kernel Invariant Evolve.
Local Open Scope Z_scope.

(** ** The abstract machine *)
Inductive UnitPhase := UReady | UClaimed | UDone.
(** Whether the run is open, the phase, and how often the unit was claimed. *)
Record UnitState := mkUnit { u_open : bool; u_phase : UnitPhase; u_attempts : Z }.

Inductive unit_step (max : Z) : relation UnitState :=
  | us_claim n : n < max → unit_step max (mkUnit true UReady n) (mkUnit true UClaimed (n + 1))
  (** expired or failed with attempts left *)
  | us_release n : n < max → unit_step max (mkUnit true UClaimed n) (mkUnit true UReady n)
  (** committed, failed for good, or out of attempts; a commit may close the run *)
  | us_done n open : unit_step max (mkUnit true UClaimed n) (mkUnit open UDone n)
  | us_close phase n : unit_step max (mkUnit true phase n) (mkUnit false phase n)
  | us_cancel n : unit_step max (mkUnit true UClaimed n) (mkUnit false UReady n).

(** ** What a slot says of a unit *)
Definition is_running (slot : RunSlot) : bool := bool_decide (run_state (rs_run slot) = RsRunning).
Definition unit_phase (slot : RunSlot) (key : string) : UnitPhase :=
  if bool_decide (key ∈ rs_done_units slot) then UDone
  else if unit_is_claimed slot key then UClaimed else UReady.
Definition unit_state (slot : RunSlot) (key : string) : UnitState :=
  mkUnit (is_running slot) (unit_phase slot key) (attempts_of slot key).

Section refine.
Context `{Platform}.

Lemma unit_is_claimed_true slot key :
  unit_is_claimed slot key = true ↔ ∃ wid c, rs_claimed slot !! wid = Some c ∧ cs_unit_key c = key.
Proof. rw /unit_is_claimed map_any_true. by setoid_rewrite str_eqb_true. Qed.
(** The phase is a matter of the claims and the done units. *)
Lemma unit_phase_same slot slot' key :
  rs_done_units slot' = rs_done_units slot →
  (unit_is_claimed slot' key = unit_is_claimed slot key) → unit_phase slot' key = unit_phase slot key.
Proof. rw /unit_phase. by intros -> ->. Qed.
Lemma unit_phase_claimed id nodes slot wid c :
  map_Forall (claim_ok id nodes (rs_done_units slot)) (rs_claimed slot) →
  rs_claimed slot !! wid = Some c → unit_phase slot (cs_unit_key c) = UClaimed.
Proof.
  intros Hall Hc. rw /unit_phase bool_decide_eq_false_2; [|by apply (co_not_done _ _ _ _ _ (Hall _ _ Hc))].
  assert (unit_is_claimed slot (cs_unit_key c) = true) as ->; [|done].
  apply unit_is_claimed_true. eauto.
Qed.

(** Releasing a claim moves its own unit and no other. *)
Lemma fail_slot_phase id a slot wid c b key :
  claims_inv id a slot → rs_claimed slot !! wid = Some c →
  unit_phase (fail_slot wid c b slot) key =
  if decide (key = cs_unit_key c) then (if (b : bool) then UDone else UReady)
  else unit_phase slot key.
Proof.
  intros [Hall _] Hc. rw /unit_phase fail_slot_done.
  assert (∀ wid' c', rs_claimed slot !! wid' = Some c' → cs_unit_key c' = cs_unit_key c → wid' = wid) as Hu.
  { intros wid' c' Hc' Heq. by eapply claim_ok_functional; [apply Hall..|]. }
  case_decide as Hk; [subst key|].
  - destruct b; [rw bool_decide_eq_true_2 //; set_solver|].
    rw bool_decide_eq_false_2; [|by apply (co_not_done _ _ _ _ _ (Hall _ _ Hc))].
    assert (unit_is_claimed (fail_slot wid c false slot) (cs_unit_key c) = false) as ->; [|done].
    apply unit_is_claimed_false. intros wid' c'. rw fail_slot_claimed.
    intros [Hne Hc']%lookup_delete_Some Heq. apply Hne. symmetry. by eapply Hu.
  - assert (bool_decide (key ∈ if b then {[cs_unit_key c]} ∪ rs_done_units slot else rs_done_units slot)
      = bool_decide (key ∈ rs_done_units slot)) as ->.
    { apply bool_decide_ext. destruct b; set_solver. }
    assert (unit_is_claimed (fail_slot wid c b slot) key = unit_is_claimed slot key) as ->; [|done].
    apply eq_true_iff_eq. rw !unit_is_claimed_true fail_slot_claimed. split.
    + intros (wid' & c' & [_ Hc']%lookup_delete_Some & Heq). eauto.
    + intros (wid' & c' & Hc' & Heq). exists wid', c'. split; [|done].
      apply lookup_delete_Some. split; [|done]. intros <-. congruence.
Qed.

Lemma fail_slot_refines id a slot wid c b key :
  running slot → claims_inv id a slot → attempts_inv slot → rs_claimed slot !! wid = Some c →
  ((cs_attempt c >=? rs_max_attempts slot) = true → b = true) →
  rtc (unit_step (rs_max_attempts slot)) (unit_state slot key) (unit_state (fail_slot wid c b slot) key).
Proof.
  intros Hrun Hcl Hat Hc Hex. rw /unit_state (fail_slot_phase id a) //.
  assert (attempts_of (fail_slot wid c b slot) key = attempts_of slot key) as -> by by destruct b.
  assert (is_running (fail_slot wid c b slot) = true) as ->.
  { rw /is_running fail_slot_run. by apply bool_decide_eq_true_2. }
  assert (is_running slot = true) as -> by by apply bool_decide_eq_true_2.
  case_decide as Hk; [subst key|done]. destruct Hcl as [Hall _].
  rw (unit_phase_claimed id (as_nodes a) slot wid c) //. apply rtc_once.
  destruct b; [apply us_done|apply us_release].
  rw -(ai_claimed _ Hat _ _ Hc). rw Z.geb_leb in Hex.
  destruct (Z.leb_spec (rs_max_attempts slot) (cs_attempt c)); [by discriminate Hex|done].
Qed.

Lemma claim_slot_refines s id a slot now node inputs key k :
  running slot → claims_inv id a slot → attempts_inv slot → plain_assembly a →
  u32_ok (rs_max_attempts slot) → node ∈ as_nodes a →
  ready_unit s slot node = Some (inputs, key) →
  rtc (unit_step (rs_max_attempts slot)) (unit_state slot k)
    (unit_state (claim_slot id now (slot, []) (node, inputs, key)).1 k).
Proof.
  intros Hrun [Hall _] [Hb Hcl Hready] Hplain Hmax Hn Hr.
  pose proof (ready_unit_shape _ _ _ _ _ Hr) as Hshape.
  apply ready_unit_Some in Hr as (_ & _ & Hd & Hnc).
  pose proof (Hready Hrun key Hd Hnc) as Hlt. pose proof (Hb key) as Hb0.
  rw /unit_state. set slot' := (claim_slot _ _ _ _).1.
  assert (is_running slot' = is_running slot) as -> by done.
  assert (is_running slot = true) as -> by by apply bool_decide_eq_true_2.
  destruct (decide (k = key)) as [->|Hne].
  - apply rtc_once. rw /unit_phase (bool_decide_eq_false_2 (key ∈ rs_done_units slot)) // Hnc.
    assert (unit_is_claimed slot' key = true) as ->.
    { apply unit_is_claimed_true. eexists _, _. split; [apply lookup_insert_eq|done]. }
    assert (attempts_of slot' key = attempts_of slot key + 1) as ->; [|by apply us_claim].
    rw /attempts_of /= lookup_insert_eq /=. apply u32_id. rw /u32_ok /attempts_of in Hmax Hlt Hb0 |- *. lia.
  - assert (attempts_of slot' k = attempts_of slot k) as ->.
    { by rw /attempts_of /= lookup_insert_ne. }
    assert (unit_phase slot' k = unit_phase slot k) as ->; [|done].
    apply unit_phase_same; [done|]. apply eq_true_iff_eq. rw !unit_is_claimed_true /=. split.
    + intros (wid & c & [[<- <-]|[_ Hc]]%lookup_insert_Some & Heq); [done|eauto].
    + intros (wid & c & Hc & Heq). exists wid, c. split; [|done]. apply lookup_insert_Some. right.
      split; [|done]. intros Hw. destruct (co_node _ _ _ _ _ (Hall _ _ Hc)) as (n & Hn' & Hn2 & Hs' & Hw').
      rw -Hw in Hw'. rw /plain_assembly Forall_forall in Hplain.
      apply work_id_inj in Hw'; [|by apply Hplain..|done|done]. congruence.
Qed.

Lemma renew_refines slot wid c until key :
  rs_claimed slot !! wid = Some c →
  unit_state (slot_with_claimed (<[wid := renew until c]> (rs_claimed slot)) slot) key =
  unit_state slot key.
Proof.
  intros Hc. rw /unit_state. f_equal. apply unit_phase_same; [done|].
  apply eq_true_iff_eq. rw !unit_is_claimed_true /=. split.
  - intros (w & x & [[<- <-]|[_ Hx]]%lookup_insert_Some & Heq); eauto.
  - intros (w & x & Hx & Heq). destruct (decide (w = wid)) as [->|Hne].
    + exists wid, (renew until c). split; [apply lookup_insert_eq|].
      rw Hc in Hx. injection Hx as <-. done.
    + exists w, x. by rw lookup_insert_ne.
Qed.
Lemma cancel_refines max slot key :
  running slot → rtc (unit_step max) (unit_state slot key) (unit_state (cancel_slot slot) key).
Proof.
  intros Hrun. rw /unit_state.
  assert (is_running slot = true) as -> by by apply bool_decide_eq_true_2.
  assert (is_running (cancel_slot slot) = false) as -> by done.
  assert (attempts_of (cancel_slot slot) key = attempts_of slot key) as -> by done.
  rw /unit_phase. change (rs_done_units (cancel_slot slot)) with (rs_done_units slot).
  case_bool_decide; [apply rtc_once, us_close|].
  assert (unit_is_claimed (cancel_slot slot) key = false) as ->.
  { apply unit_is_claimed_false. intros wid c. by rw /= lookup_empty. }
  destruct (unit_is_claimed slot key); [apply rtc_once, us_cancel|apply rtc_once, us_close].
Qed.

(** Every slot transition refines the machine, for every unit. *)
Lemma slot_step_refines s id a t slot slot' ds key :
  slot_step s id slot slot' → running slot → run_inv id slot ds →
  run_assembly (rs_run slot) = Some a → as_terminal a = Some t → plain_assembly a →
  rtc (unit_step (rs_max_attempts slot)) (unit_state slot key) (unit_state slot' key).
Proof.
  intros Hs Hrun [(a' & t' & Hf & Hcl & Hat) _ _] Ha Ht Hp.
  assert (a' = a) as -> by (pose proof (fi_assembly _ _ _ _ Hf); congruence).
  destruct (Hat Hp) as (Hatt & _ & _). destruct Hs.
  - rw reap_is_fail. by eapply fail_slot_refines.
  - assert (assembly = a) as -> by congruence.
    pose proof (fi_id _ _ _ _ Hf) as <-.
    eapply claim_slot_refines; try done. by destruct (fi_max_attempts _ _ _ _ Hf).
  - by rw renew_refines.
  - by eapply fail_slot_refines.
  - done.
  - apply rtc_once. rw /unit_state.
    assert (is_running slot = true) as -> by by apply bool_decide_eq_true_2. apply us_close.
  - by apply cancel_refines.
Qed.
Lemma commit_refines s id slot ds wid c outputs a t key :
  running slot → rs_claimed slot !! wid = Some c →
  run_inv id slot ds → run_assembly (rs_run slot) = Some a → as_terminal a = Some t →
  rtc (unit_step (rs_max_attempts slot)) (unit_state slot key)
    (unit_state (commit_slot s c t (derivation_of (cs_work c) outputs) slot) key).
Proof.
  intros Hrun Hc [(a' & t' & Hf & Hcl & _) _ _] Ha Ht.
  assert (a' = a) as -> by (pose proof (fi_assembly _ _ _ _ Hf); congruence).
  assert (t' = t) as -> by (pose proof (fi_terminal _ _ _ _ Hf); congruence).
  set slot' := commit_slot _ _ _ _ _.
  destruct (commit_slot_released id s slot wid c outputs a t) as (H1 & H2 & H3); [done..|].
  assert (unit_phase slot' key = unit_phase (fail_slot wid c true slot) key) as Hph.
  { apply unit_phase_same; [done|]. apply eq_true_iff_eq. by rw !unit_is_claimed_true H1. }
  rw /unit_state Hph (fail_slot_phase id a) //.
  assert (attempts_of slot' key = attempts_of slot key) as -> by by rw /attempts_of H3.
  assert (is_running slot = true) as -> by by apply bool_decide_eq_true_2.
  case_decide as Hk; [subst key|].
  - destruct Hcl as [Hall _]. rw (unit_phase_claimed id (as_nodes a) slot wid c) //.
    apply rtc_once, us_done.
  - destruct (is_running slot'); [done|]. apply rtc_once, us_close.
Qed.
End refine.

(** ** The kernel refines the machine *)
Section kernel.
Context `{Platform}.
Variable store_policy : ArtifactStorePolicy.

Definition plain_slot (slot : RunSlot) : Prop :=
  ∀ a, run_assembly (rs_run slot) = Some a → plain_assembly a.

Lemma kstep_refines s s' id slot key :
  kstep store_policy s s' → runs_inv s → st_runs s !! id = Some slot → plain_slot slot →
  ∃ slot', st_runs s' !! id = Some slot' ∧
    rtc (unit_step (rs_max_attempts slot)) (unit_state slot key) (unit_state slot' key).
Proof.
  intros Hs [Hruns _] Hslot Hp. pose proof (Hruns _ _ Hslot) as Hinv. simpl in Hinv.
  destruct (ri_assembly _ _ _ Hinv) as (a & t & Hf & [Hall _] & _).
  pose proof (fi_assembly _ _ _ _ Hf) as Ha. pose proof (fi_terminal _ _ _ _ Hf) as Ht.
  destruct Hs; try (by exists slot); simpl.
  - exists slot. rw lookup_insert_ne; [done|]. intros ->. congruence.
  - destruct (decide (id0 = id)) as [->|Hne]; [|exists slot; by rw lookup_insert_ne].
    rw lookup_insert_eq. exists slot'. split; [done|]. assert (slot0 = slot) as -> by congruence.
    eapply slot_step_refines; [done..|]. by apply Hp.
  - pose proof (Hruns _ _ H0) as Hinv0. simpl in Hinv0.
    assert (wi_run_id (cs_work c) = rid) as Hrid.
    { destruct (ri_assembly _ _ _ Hinv0) as (a' & t' & _ & [Hall' _] & _).
      by apply (co_run _ _ _ _ _ (Hall' _ _ H2)). }
    rw Hrid. rw Hrid in H6. rw H0 in H6. injection H6 as <-.
    destruct (decide (rid = id)) as [->|Hne]; [|exists slot; by rw lookup_insert_ne].
    assert (slot0 = slot) as -> by congruence. rw lookup_insert_eq. eexists. split; [done|].
    eapply commit_refines; [exact H1|exact H2|exact Hinv|exact H7|exact H8].
Qed.
Lemma ksteps_refines s s' id slot key :
  ksteps store_policy s s' → runs_inv s → st_runs s !! id = Some slot → plain_slot slot →
  ∃ slot', st_runs s' !! id = Some slot' ∧
    rtc (unit_step (rs_max_attempts slot)) (unit_state slot key) (unit_state slot' key).
Proof.
  intros Hk. revert slot. induction Hk as [|s1 s2 s3 Hs _ IH]; intros slot Hinv Hslot Hp; [by exists slot|].
  destruct (kstep_refines _ _ _ _ key Hs Hinv Hslot Hp) as (slot2 & Hslot2 & Hu).
  pose proof (kstep_evolves _ _ _ Hs Hinv) as Hev.
  destruct (ev_runs _ _ Hev _ _ Hslot) as (x & Hx & [Hframe _ _]).
  assert (x = slot2) as -> by congruence. destruct Hframe as (_ & Ha & _ & _ & _ & _ & Hma).
  destruct (IH slot2) as (slot3 & Hslot3 & Hu'); [by eapply kstep_runs_inv|done| |].
  { intros a. rw Ha. apply Hp. }
  exists slot3. split; [done|]. rw Hma in Hu'. by etrans.
Qed.
End kernel.
