(* ===== verification/NoPanic.v ===== *)
(** * NoPanic: no call of the ABI panics

    Every [unwrap] of the kernel is on a value that is there, given the
    invariant of runs.  [safe_from s m]: running [m] from [s] does not panic. *)
From S2P Require Import Prelude Wire Errors Hash Traits Policy State Registry Store Events Assembly.
From S2P Require Import AssemblySpec Work Runs Units Steps Kernel Invariant.
Local Open Scope Z_scope.

Definition safe_from {A} (s : State) (m : Method A) : Prop := (m s).1 ≠ Panic.

Section rules.
Lemma safe_ret {A} s (a : A) : safe_from s (mret a).
Proof. done. Qed.
Lemma safe_fail {A} s e : safe_from s (fail e : Method A).
Proof. done. Qed.
Lemma safe_bind {A B} s (m : Method A) (k : A → Method B) :
  safe_from s m → (∀ a s', m s = (Ok a, s') → safe_from s' (k a)) → safe_from s (m ≫= k).
Proof.
  rw /safe_from /mbind /M_bind. destruct (m s) as [[a|e|] s'] eqn:Hm; simpl; [|done..].
  intros _ Hk. by apply Hk.
Qed.
Lemma safe_get {B} s (k : State → Method B) : safe_from s (k s) → safe_from s (get ≫= k).
Proof. done. Qed.
Lemma safe_lift {A} s (o : Result A) : o ≠ Panic → safe_from s (lift o).
Proof. done. Qed.
Lemma safe_lift_bind {A B} s (o : Result A) (k : A → Method B) :
  o ≠ Panic → (∀ a, o = Ok a → safe_from s (k a)) → safe_from s (lift o ≫= k).
Proof. intros Ho Hk. apply safe_bind; [done|]. intros a s' [= -> <-]. by apply Hk. Qed.
Lemma safe_put_bind {B} s s' (k : () → Method B) : safe_from s' (k tt) → safe_from s (put s' ≫= k).
Proof. done. Qed.
Lemma safe_modify_bind {B} s f (k : () → Method B) : safe_from (f s) (k tt) → safe_from s (modify f ≫= k).
Proof. done. Qed.
End rules.

Section ops.
Context `{Platform, HashOrder}.
Variable store_policy : ArtifactStorePolicy.

Lemma safe_append_bind {B} s kind subject detail (k : LedgerEntry → Method B) :
  (∀ e s', st_runs s' = st_runs s → st_modules s' = st_modules s → safe_from s' (k e)) →
  safe_from s (append_locked kind subject detail ≫= k).
Proof. intros Hk. apply safe_bind; [done|]. intros a s' [= <- <-]. by apply Hk. Qed.
Lemma safe_running_bind {B} s id (k : RunSlot → Method B) :
  (∀ slot, st_runs s !! id = Some slot → running slot → safe_from s (k slot)) →
  safe_from s (running_slot id ≫= k).
Proof.
  intros Hk. apply safe_bind; [|intros slot s' (-> & Hs & Hr)%running_slot_ok; by apply Hk].
  apply safe_get, safe_lift_bind; [auto with no_panic|]. intros slot _.
  apply safe_lift_bind; [auto with no_panic|done].
Qed.
Lemma safe_reap_bind {B} s id now slot (k : () → Method B) :
  st_runs s !! id = Some slot → running slot →
  (∀ s', st_runs s' = <[id := reaped slot now]> (st_runs s) → st_modules s' = st_modules s →
     safe_from s' (k tt)) →
  safe_from s (reap_expired_locked id now ≫= k).
Proof.
  intros Hs Hr Hk.
  destruct (reap_expired_spec store_policy s id now slot Hs Hr) as (s' & Hreap & _ & Hr' & Hm').
  apply safe_bind; [by rw /safe_from Hreap|]. rw Hreap. intros [] ? [= <-]. by apply Hk.
Qed.
Lemma safe_idempotent_put s op ctx v : safe_from s (idempotent_put op ctx v).
Proof. rw /idempotent_put. by destruct (idempotency_key op ctx). Qed.
Lemma check_deadline_no_panic ctx now : check_deadline ctx now ≠ Panic.
Proof. rw /check_deadline. destruct (_ <=? 0); [done|apply err_if_no_panic]. Qed.

(** ** Modules and contracts *)
Lemma find_module_insert modules name i slot to :
  find_module modules name = Some (i, slot) →
  find_module (<[i := mkModuleSlot (ms_manifest slot) to]> modules) name =
  Some (i, mkModuleSlot (ms_manifest slot) to).
Proof.
  rw /find_module. intros (Hi & Hn & Hfirst)%list_find_Some. apply list_find_Some. split_and!.
  - apply list_lookup_insert_eq. by eapply lookup_lt_Some.
  - done.
  - intros j y. destruct (decide (i = j)) as [->|Hne]; [lia|]. rw list_lookup_insert_ne //. apply Hfirst.
Qed.
Lemma transition_req_safe s req ctx now : safe_from s (transition_req req ctx now).
Proof.
  apply safe_lift_bind; [apply check_deadline_no_panic|]. intros [] _. apply safe_get.
  apply safe_lift_bind; [auto with no_panic|]. intros [i slot] Hfind. inv_oks.
  destruct (_ =? _) eqn:Hstep.
  - apply (safe_bind _ (put _ ≫= _)); [done|]. intros [] s' [= <-]. apply safe_get.
    apply safe_lift_bind; [|by intros []]. simpl. by rw (find_module_insert _ _ _ _ _ Hfind).
  - apply (safe_bind _ (mret tt)); [done|]. intros [] s' [= <-]. apply safe_get.
    apply safe_lift_bind; [by rw Hfind|by intros []].
Qed.
Lemma put_contract_safe s c : safe_from s (put_contract c).
Proof.
  apply safe_lift_bind; [auto with no_panic|]. intros [] _.
  apply safe_lift_bind; [auto with no_panic|]. intros [] _. apply safe_get. cbv zeta.
  destruct (st_contracts s !! _) as [e|]; [|done].
  destruct (str_eqb _ _); [done|]. by destruct (_ && _).
Qed.

(** ** Store *)
Lemma put_blob_safe s req : safe_from s (put_blob store_policy req).
Proof.
  apply safe_lift_bind; [apply err_if_no_panic|]. intros [] _.
  apply safe_lift_bind; [auto with no_panic|]. intros [] _. apply safe_get. cbv zeta.
  by destruct (st_blobs s !! _).
Qed.
Lemma get_blob_safe s req : safe_from s (get_blob req).
Proof.
  apply safe_get, safe_lift_bind; [auto with no_panic|]. intros slot _.
  apply safe_lift_bind; [auto with no_panic|]. done.
Qed.
Lemma validate_artifact_no_panic a : validate_artifact_content a store_policy ≠ Panic.
Proof.
  apply bind_no_panic; [auto with no_panic|]. intros [] _. apply for_each_no_panic.
  intros [] [k tr] _. apply bind_no_panic; [auto with no_panic|]. intros [] _. cbv zeta.
  apply bind_no_panic; [auto with no_panic|]. intros [] _.
  apply bind_no_panic; [auto with no_panic|]. intros [] _.
  destruct (tr_object tr); [|done]. apply bind_no_panic; auto with no_panic.
Qed.
Lemma verify_external_no_panic s tr : verify_external_trait s tr ≠ Panic.
Proof.
  rw /verify_external_trait /trait_has_external. destruct (tr_object tr) as [o|]; [|done].
  destruct (negb _); [|done]. simpl. rw /verify_object_ref_locked.
  apply bind_no_panic; [auto with no_panic|]. intros slot _. apply bind_no_panic; auto with no_panic.
Qed.
Lemma put_artifact_ctx_safe s a ctx now : safe_from s (put_artifact_ctx store_policy a ctx now).
Proof.
  apply safe_lift_bind; [apply check_deadline_no_panic|]. intros [] _.
  apply safe_lift_bind; [apply validate_artifact_no_panic|]. intros [] _. apply safe_get.
  assert (∀ m : Method ArtifactRef, safe_from s m → safe_from s (match idempotent_get s "put_artifact" ctx with
    | Some (IdemArtifactRef r) => mret r | _ => m end)) as Hcase.
  { intros m Hm. by destruct (idempotent_get s _ ctx) as [[]|]. }
  apply Hcase. apply safe_lift_bind.
  { apply for_each_no_panic. intros [] [k tr] _. apply verify_external_no_panic. }
  intros [] _. cbv zeta. apply safe_bind; [by destruct (has_key _ _)|]. intros [] s' _.
  apply safe_bind; [apply safe_idempotent_put|done].
Qed.

(** ** Runs *)
Lemma materialize_no_panic a include : materialize_assembly a include ≠ Panic.
Proof.
  rw /materialize_assembly. destruct (list_is_empty include); [done|]. cbv zeta.
  apply bind_no_panic; [auto with no_panic|]. intros [] _. apply bind_no_panic.
  { apply for_each_no_panic. intros. apply err_if_no_panic. }
  intros [] _. apply bind_no_panic; [auto with no_panic|]. intros t _.
  by apply bind_no_panic; [auto with no_panic|].
Qed.
Lemma start_run_ctx_safe s req ctx now : safe_from s (start_run_ctx req ctx now).
Proof.
  apply safe_lift_bind; [apply check_deadline_no_panic|]. intros [] _. apply safe_get.
  assert (∀ m : Method Run, safe_from s m → safe_from s (match idempotent_get s "start_run" ctx with
    | Some (IdemRun r) => mret r | _ => m end)) as Hcase.
  { intros m Hm. by destruct (idempotent_get s _ ctx) as [[]|]. }
  apply Hcase. apply safe_lift_bind; [auto with no_panic|]. intros [] _.
  apply safe_lift_bind; [auto with no_panic|]. intros [] _.
  apply safe_lift_bind; [auto with no_panic|]. intros a0 _.
  apply safe_lift_bind; [apply materialize_no_panic|]. intros a _.
  apply safe_lift_bind; [apply validate_assembly_no_panic|]. intros [] _. cbv zeta.
  apply safe_lift_bind; [auto with no_panic|]. intros [] _.
  apply safe_put_bind, safe_append_bind. intros _ s' _ _.
  apply safe_bind; [apply safe_idempotent_put|done].
Qed.
Lemma inject_input_ctx_safe s req ctx now : safe_from s (inject_input_ctx req ctx now).
Proof.
  apply safe_lift_bind; [apply check_deadline_no_panic|]. intros [] _. apply safe_get.
  do 6 (apply safe_lift_bind; [auto with no_panic|]; intros ? _). cbv zeta.
  by apply safe_lift_bind; [auto with no_panic|].
Qed.
Lemma claim_ready_safe s req now : runs_inv s → safe_from s (claim_ready req now).
Proof.
  intros [Hruns _]. rw /safe_from.
  destruct (running_slot (cr_run_id req) s) as [o s1] eqn:Hrs. destruct o as [slot|e|].
  - apply running_slot_ok in Hrs as (_ & Hs & Hr).
    destruct (ri_assembly _ _ _ (Hruns _ _ Hs)) as (a & t & Hf & _).
    destruct (claim_ready_spec store_policy s req now slot a Hs Hr (fi_assembly _ _ _ _ Hf))
      as (s' & -> & _). done.
  - by rw /claim_ready /mbind /M_bind Hrs.
  - exfalso. revert Hrs. rw /running_slot /mbind /M_bind /get /lift /=.
    destruct (st_runs s !! _); simpl; [|done]. by case_bool_decide.
Qed.
Lemma heartbeat_safe s req now : safe_from s (heartbeat req now).
Proof.
  apply safe_running_bind. intros slot Hs Hr. cbv zeta. set until := i64_sat_add _ _.
  destruct (renew_fold_steps store_policy s (hr_run_id req) until (hr_work_ids req) (slot, [], []) Hr)
    as [_ Hr']. destruct (foldl _ _ _) as [[slot' renewed] lost]. simpl in *.
  apply safe_modify_bind. eapply safe_reap_bind; [by rw /= lookup_insert_eq|done|done].
Qed.
Lemma close_stalled_safe s id slot : st_runs s !! id = Some slot → safe_from s (close_stalled id).
Proof.
  intros Hs. apply safe_get, safe_lift_bind; [by rw Hs|]. intros slot' _. cbv zeta.
  by apply safe_put_bind, safe_append_bind.
Qed.
Lemma fail_work_safe s req now : safe_from s (fail_work req now).
Proof.
  apply safe_running_bind. intros slot0 Hs0 Hr0.
  eapply safe_reap_bind; [done|done|]. intros s1 Hs1 Hm1. apply safe_get.
  apply safe_lift_bind; [by rw Hs1 lookup_insert_eq|]. intros slot _.
  apply safe_lift_bind; [auto with no_panic|]. intros c _. cbv zeta.
  apply safe_put_bind, safe_append_bind. intros _ s2 Hs2 _. apply safe_get.
  apply safe_lift_bind; [by rw Hs2 /= lookup_insert_eq|]. intros slot2 _.
  destruct (_ && _); [|done]. eapply close_stalled_safe. by rw Hs2 /= lookup_insert_eq.
Qed.
Lemma validate_outputs_no_panic s cap outputs : validate_outputs s cap outputs ≠ Panic.
Proof.
  apply bind_no_panic.
  - apply for_each_no_panic. intros [] p _. apply bind_no_panic; auto with no_panic.
  - intros [] _. apply for_each_no_panic. intros [] o _. rw /check_output.
    apply bind_no_panic; [auto with no_panic|]. intros p _.
    apply bind_no_panic; [auto with no_panic|]. intros r _.
    apply bind_no_panic; auto with no_panic.
Qed.
Lemma reaped_claims slot now wid c :
  rs_claimed (reaped slot now) !! wid = Some c → rs_claimed slot !! wid = Some c.
Proof.
  rw /reaped. generalize (expired_claims slot now). intros l.
  revert slot. induction l as [|[w x] l IH]; intros slot; cbn [foldl]; [done|].
  intros Hc%IH. rw reap_is_fail fail_slot_claimed in Hc. by apply lookup_delete_Some in Hc as [_ Hc].
Qed.
Lemma commit_ctx_safe s submitted ctx t0 now :
  runs_inv s → safe_from s (commit_ctx submitted ctx t0 now).
Proof.
  intros [Hruns _]. apply safe_lift_bind; [apply check_deadline_no_panic|]. intros [] _. apply safe_get.
  assert (∀ m : Method Run, safe_from s m → safe_from s (match idempotent_get s "commit" ctx with
    | Some (IdemRun r) => mret r | _ => m end)) as Hcase.
  { intros m Hm. by destruct (idempotent_get s _ ctx) as [[]|]. }
  apply Hcase. apply safe_running_bind. intros slot0 Hs0 Hr0.
  destruct (ri_assembly _ _ _ (Hruns _ _ Hs0)) as (a & t & Hf & [Hall _] & _).
  eapply safe_reap_bind; [done|done|]. intros s1 Hs1 Hm1. apply safe_get.
  apply safe_lift_bind; [by rw Hs1 lookup_insert_eq|]. intros slot Hslot. inv_oks.
  rw Hs1 lookup_insert_eq in Hslot. injection Hslot as <-.
  apply safe_lift_bind; [auto with no_panic|]. intros c Hc. inv_oks. cbv zeta.
  apply safe_lift_bind; [auto with no_panic|]. intros [] _.
  apply safe_lift_bind; [auto with no_panic|]. intros [] _.
  apply safe_lift_bind; [apply capability_no_panic|]. intros cap _.
  apply safe_lift_bind; [apply validate_outputs_no_panic|]. intros [] _.
  apply reaped_claims in Hc. pose proof (co_run _ _ _ _ _ (Hall _ _ Hc)) as Hid. rw Hid.
  apply safe_lift_bind; [by rw Hs1 lookup_insert_eq|]. intros slot Hslot. inv_oks.
  rw Hs1 lookup_insert_eq in Hslot. injection Hslot as <-.
  apply safe_lift_bind; [by rw reaped_run (fi_assembly _ _ _ _ Hf)|]. intros a' Ha'. inv_oks.
  rw reaped_run (fi_assembly _ _ _ _ Hf) in Ha'. injection Ha' as <-.
  apply safe_lift_bind; [by rw (fi_terminal _ _ _ _ Hf)|]. intros t' _.
  apply safe_put_bind, safe_append_bind. intros. apply safe_append_bind. intros.
  apply safe_bind; [apply safe_idempotent_put|done].
Qed.
Lemma cancel_run_safe s r : safe_from s (cancel_run r).
Proof. by apply safe_running_bind. Qed.

(** ** Every call *)
Lemma safe_replying {A} s (f : A → Reply) (m : Method A) : safe_from s m → safe_from s (replying f m).
Proof. intros Hm. by apply safe_bind. Qed.
Lemma safe_deadline {A} s ctx t0 (m : Method A) : safe_from s m → safe_from s (before_deadline ctx t0 m).
Proof. intros Hm. by apply safe_lift_bind; [apply check_deadline_no_panic|]. Qed.
Lemma exec_safe s t0 now c : runs_inv s → safe_from s (exec store_policy t0 now c).
Proof.
  intros Hinv. destruct c; apply safe_replying;
    try match goal with |- safe_from _ (before_deadline _ _ _) => apply safe_deadline end; try done.
  - apply transition_req_safe.
  - apply put_artifact_ctx_safe.
  - apply safe_get, safe_lift. auto with no_panic.
  - apply put_blob_safe.
  - apply get_blob_safe.
  - rw /has_blob. apply safe_get. by destruct (st_blobs s !! _).
  - apply put_contract_safe.
  - rw /publish. apply safe_modify_bind, safe_get. by destruct (deliver _ _ _).
  - apply start_run_ctx_safe.
  - apply inject_input_ctx_safe.
  - by apply claim_ready_safe.
  - apply heartbeat_safe.
  - apply fail_work_safe.
  - by apply commit_ctx_safe.
  - apply safe_get. by apply safe_lift_bind; [auto with no_panic|].
  - apply cancel_run_safe.
  - apply safe_get. by apply safe_lift_bind; [auto with no_panic|].
  - apply safe_bind; [apply put_blob_safe|]. intros blob s' _.
    by apply safe_bind; [apply put_artifact_ctx_safe|].
  - rw /receive /safe_from. by destruct (st_chans s !! rx) as [[[|e q] c]|].
  - rw /drop_receiver /safe_from. by destruct (st_chans s !! rx).
Qed.
End ops.
