(* ===== verification/RunTheorems.v ===== *)
(** * RunTheorems: the properties of runs and their work units

    The statements about reachable kernels: at-most-once commits, claims,
    attempts, closed runs, the unit life cycle, totality, and the functional
    behaviour of claiming, committing, renewing and starting. *)
From S2P Require Import Prelude Wire Errors Hash Traits Policy State Registry Store Events Assembly.
From S2P Require Import AssemblySpec Work Runs Units Steps Kernel Invariant Evolve UnitSpec NoPanic.
Local Open Scope Z_scope.

(** ** Lemmas on the operations *)
Section ops.
Context `{Platform, HashOrder}.

(** The item one candidate becomes. *)
Definition claim_item (run : string) (now : Z) (slot : RunSlot)
    (cand : AssemblyNode * list NamedArtifact * string) : WorkItem :=
  let '(node, inputs, key) := cand in
  mkWorkItem (work_id_of run (an_id node) key) run (an_id node) (an_module node)
    (an_module_version node) (an_capability node) inputs key
    (u32 (attempts_of slot key + 1)) (i64_sat_add now (as_i64 (rs_default_lease_ms slot))).

Lemma claim_fold_items run now cands slot items :
  NoDup cands.*2 →
  (foldl (claim_slot run now) (slot, items) cands).2 = items ++ (claim_item run now slot <$> cands).
Proof.
  revert slot items. induction cands as [|[[node inputs] key] cands IH]; intros slot items; simpl.
  { by rw app_nil_r. }
  intros [Hk Hnd]%NoDup_cons. rw IH // -(assoc_L (++)) /=. do 2 f_equal.
  apply list_fmap_ext. intros i [[node' inputs'] key'] Hi. rw /claim_item /attempts_of /=.
  rw lookup_insert_ne //. intros <-. apply Hk, list_elem_of_fmap. exists (node', inputs', key).
  split; [done|]. by eapply list_elem_of_lookup_2.
Qed.
Lemma claim_fold_claimed run now cands slot items :
  let acc := foldl (claim_slot run now) (slot, items) cands in
  dom (rs_claimed acc.1) = dom (rs_claimed slot) ∪ list_to_set ((λ c, work_id_of run (an_id c.1.1) c.2) <$> cands) ∧
  rs_done_units acc.1 = rs_done_units slot.
Proof.
  revert slot items. induction cands as [|[[node inputs] key] cands IH]; intros slot items; simpl.
  { split; [set_solver|done]. }
  edestruct IH as [-> ->]. split; [|done]. simpl. rw dom_insert_L. set_solver.
Qed.
Lemma elem_of_ready_candidates s slot req assembly node inputs key :
  (node, inputs, key) ∈ ready_candidates s slot req assembly ↔
  node ∈ as_nodes assembly ∧ node_matches_claim_filter req node = true ∧
  ready_unit s slot node = Some (inputs, key).
Proof.
  split; [apply ready_candidates_spec|]. intros (Hn & Hm & Hr).
  rw /ready_candidates list_elem_of_omap. exists node. split; [done|].
  by rw /ready_candidate Hm /= Hr.
Qed.
Lemma claim_result_claimed s slot req assembly now :
  let granted := take (Z.to_nat (claim_want slot req)) (ready_candidates s slot req assembly) in
  let r := claim_result s slot req assembly now in
  dom (rs_claimed r.1) = dom (rs_claimed slot) ∪
    list_to_set ((λ c, work_id_of (cr_run_id req) (an_id c.1.1) c.2) <$> granted) ∧
  rs_done_units r.1 = rs_done_units slot.
Proof.
  rw /claim_result. destruct (_ >? _) eqn:Hw; [apply claim_fold_claimed|].
  assert (Z.to_nat (claim_want slot req) = 0%nat) as ->; [|split; [set_solver|done]].
  rw Z.gtb_ltb in Hw. apply Z.ltb_ge in Hw. lia.
Qed.
(** The items of one claim call: the first [want] ready candidates. *)
Lemma claim_result_items s slot req assembly now :
  distinct_nodes slot → run_assembly (rs_run slot) = Some assembly →
  (claim_result s slot req assembly now).2 =
  claim_item (cr_run_id req) now slot <$>
    take (Z.to_nat (claim_want slot req)) (ready_candidates s slot req assembly).
Proof.
  intros Hd Ha. rw /claim_result. destruct (_ >? _) eqn:Hw.
  - rw claim_fold_items // fmap_take. eapply sublist_NoDup; [|apply sublist_take].
    by apply ready_candidates_nodup, Hd.
  - assert (Z.to_nat (claim_want slot req) = 0%nat) as ->; [|done].
    rw Z.gtb_ltb in Hw. apply Z.ltb_ge in Hw. lia.
Qed.

Lemma run_derivations_prefix s s' id :
  st_derivations s `prefix_of` st_derivations s' →
  run_derivations s id `prefix_of` run_derivations s' id.
Proof. intros [l Hl]. rw /run_derivations Hl filter_app. by apply prefix_app_r. Qed.
End ops.

(** ** The reaper in closed form *)
Section reap.
Context `{HashOrder}.
(** The units the reaper gives up: expired on their last attempt. *)
Definition exhausted_keys (slot : RunSlot) (l : list (string * ClaimedSlot)) : gset string :=
  list_to_set ((λ kc, cs_unit_key kc.2) <$>
    filter (λ kc, (cs_attempt kc.2 >=? rs_max_attempts slot) = true) l).
Lemma reap_fold_closed l slot :
  foldl reap_slot slot l =
  slot_with_done (exhausted_keys slot l ∪ rs_done_units slot)
    (slot_with_claimed (foldl (λ m kc, delete kc.1 m) (rs_claimed slot) l) slot).
Proof.
  revert slot. induction l as [|[wid c] l IH]; intros slot; cbn [foldl].
  { rw /exhausted_keys /= (left_id_L ∅ (∪)). by destruct slot. }
  rw IH reap_is_fail. rw /exhausted_keys filter_cons /=.
  destruct (cs_attempt c >=? rs_max_attempts slot) eqn:Hex; simpl.
  - destruct slot; simpl in *. rw /slot_with_done /slot_with_claimed /=. f_equal. set_solver.
  - by destruct slot.
Qed.
Lemma foldl_delete_lookup {A} (l : list (string * A)) (m : gmap string A) k :
  foldl (λ m kc, delete kc.1 m) m l !! k = if decide (k ∈ l.*1) then None else m !! k.
Proof.
  revert m. induction l as [|[k' x] l IH]; intros m; simpl; [done|]. rw IH.
  destruct (decide (k = k')) as [->|Hne].
  - rw lookup_delete_eq. case_decide; [by rw decide_True; [|by right]|by rw decide_True; [|by left]].
  - rw lookup_delete_ne //. case_decide; [rw decide_True; [|by right]; done|].
    rw decide_False; [done|]. by intros [?|?]%elem_of_cons.
Qed.
Lemma reaped_lookup slot now wid :
  rs_claimed (reaped slot now) !! wid =
  (c ← rs_claimed slot !! wid; if lease_expired now c then None else Some c).
Proof.
  rw /reaped reap_fold_closed /= foldl_delete_lookup.
  destruct (expired_claims_spec slot now) as [_ Hexp].
  destruct (decide (wid ∈ (expired_claims slot now).*1)) as [Hin|Hnin].
  - apply list_elem_of_fmap in Hin as ([w c] & -> & Hin). apply Hexp in Hin as [Hc He].
    by rw /= Hc /= He.
  - destruct (rs_claimed slot !! wid) as [c|] eqn:Hc; simpl; [|done].
    destruct (lease_expired now c) eqn:He; [|done]. exfalso. apply Hnin, list_elem_of_fmap.
    exists (wid, c). split; [done|]. by apply Hexp.
Qed.
Lemma reaped_claims_sub slot now wid c :
  rs_claimed (reaped slot now) !! wid = Some c → rs_claimed slot !! wid = Some c.
Proof.
  rw reaped_lookup. destruct (rs_claimed slot !! wid) as [c'|]; simpl; [|done].
  by destruct (lease_expired now c').
Qed.
Lemma elem_of_reaped_done slot now key :
  key ∈ rs_done_units (reaped slot now) ↔
  key ∈ rs_done_units slot ∨
  ∃ wid c, rs_claimed slot !! wid = Some c ∧ lease_expired now c = true ∧
    rs_max_attempts slot ≤ cs_attempt c ∧ cs_unit_key c = key.
Proof.
  rw /reaped reap_fold_closed /= elem_of_union /exhausted_keys elem_of_list_to_set list_elem_of_fmap.
  destruct (expired_claims_spec slot now) as [_ Hexp]. rw or_comm. f_equiv. split.
  - intros ([w c] & -> & [Hge Hin]%list_elem_of_filter). apply Hexp in Hin as [Hc He].
    exists w, c. split_and!; [done..| |done]. apply Z.geb_le in Hge. simpl in *. lia.
  - intros (w & c & Hc & He & Hge & <-). exists (w, c). split; [done|].
    apply list_elem_of_filter. split; [apply Z.geb_le; simpl; lia|]. by apply Hexp.
Qed.
Lemma reaped_rest slot now :
  rs_run (reaped slot now) = rs_run slot ∧ rs_latest (reaped slot now) = rs_latest slot ∧
  rs_claim_attempts (reaped slot now) = rs_claim_attempts slot ∧
  rs_input_epochs (reaped slot now) = rs_input_epochs slot ∧
  rs_node_commits (reaped slot now) = rs_node_commits slot ∧
  rs_max_in_flight (reaped slot now) = rs_max_in_flight slot ∧
  rs_default_lease_ms (reaped slot now) = rs_default_lease_ms slot ∧
  rs_max_attempts (reaped slot now) = rs_max_attempts slot.
Proof. by rw /reaped reap_fold_closed. Qed.
End reap.

(** ** Renewal in closed form *)
Lemma renew_renew until c : renew until (renew until c) = renew until c.
Proof. done. Qed.
Lemma renew_fold_spec until wids slot renewed lost :
  let '(slot', renewed', lost') := foldl (renew_slot until) (slot, renewed, lost) wids in
  renewed' = renewed ++ filter (λ id, id ∈ dom (rs_claimed slot)) wids ∧
  lost' = lost ++ filter (λ id, id ∉ dom (rs_claimed slot)) wids ∧
  (∀ wid, rs_claimed slot' !! wid =
     (c ← rs_claimed slot !! wid; Some (if decide (wid ∈ wids) then renew until c else c))) ∧
  rs_run slot' = rs_run slot.
Proof.
  revert slot renewed lost. induction wids as [|w wids IH]; intros slot renewed lost; simpl.
  { rw !app_nil_r. split_and!; [done|done| |done]. intros wid. by destruct (rs_claimed slot !! wid). }
  rw !filter_cons. destruct (rs_claimed slot !! w) as [c|] eqn:Hc.
  - assert (w ∈ dom (rs_claimed slot)) as Hin by (apply elem_of_dom; by eexists).
    assert (dom (<[w := renew until c]> (rs_claimed slot)) = dom (rs_claimed slot)) as Hd.
    { rw dom_insert_L. set_solver. }
    pose proof (IH (slot_with_claimed (<[w := renew until c]> (rs_claimed slot)) slot)
      (renewed ++ [w]) lost) as IH'.
    destruct (foldl _ _ wids) as [[slot' renewed'] lost']. simpl in IH'. rw Hd in IH'.
    destruct IH' as (-> & -> & Hcl & Hrun).
    rw decide_True // (decide_False (P := w ∉ _)); [|by intros Hn]. rw -(assoc_L (++)).
    split_and!; [done|done| |done]. intros wid. rw Hcl.
    destruct (decide (wid = w)) as [->|Hne].
    + rw lookup_insert_eq Hc /=. rw (decide_True (P := w ∈ w :: wids)); [|by left].
      by destruct (decide (w ∈ wids)).
    + rw lookup_insert_ne //. destruct (rs_claimed slot !! wid) as [x|]; simpl; [|done].
      destruct (decide (wid ∈ wids)) as [Hw|Hw].
      * rw decide_True; [done|by right].
      * rw decide_False; [done|]. by intros [?|?]%elem_of_cons.
  - assert (w ∉ dom (rs_claimed slot)) as Hnin by by apply not_elem_of_dom.
    pose proof (IH slot renewed (lost ++ [w])) as IH'.
    destruct (foldl _ _ wids) as [[slot' renewed'] lost']. destruct IH' as (-> & -> & Hcl & Hrun).
    rw (decide_False (P := w ∈ dom _)) // decide_True // -(assoc_L (++)).
    split_and!; [done|done| |done]. intros wid. rw Hcl.
    destruct (decide (wid = w)) as [->|Hne]; [by rw Hc|].
    destruct (rs_claimed slot !! wid) as [x|]; simpl; [|done].
    destruct (decide (wid ∈ wids)) as [Hw|Hw].
    + rw decide_True; [done|by right].
    + rw decide_False; [done|]. by intros [?|?]%elem_of_cons.
Qed.

(** Reaping touches the runs and the ledger only. *)
Section reap_frame.
Context `{Platform, HashOrder}.
Lemma append_events_frame {A} (f : A → Method unit) l s o s' :
  (∀ x s o s', f x s = (o, s') → ∃ es, s' = set_ledger (st_ledger s ++ es) s) →
  for_each_M f l s = (o, s') → ∃ es, s' = set_ledger (st_ledger s ++ es) s.
Proof.
  intros Hf. revert s. induction l as [|x l IH]; intros s; simpl.
  { intros [= <- <-]. exists []. rw app_nil_r. by destruct s. }
  rw /mbind /M_bind. destruct (f x s) as [ox s1] eqn:Hx. apply Hf in Hx as [es1 ->].
  destruct ox as [[]|e|]; [|intros [= <- <-]; by exists es1..].
  intros [es2 ->]%IH. exists (es1 ++ es2). by rw /= (assoc_L (++)).
Qed.
Lemma reap_expired_frame id now s o s' :
  reap_expired_locked id now s = (o, s') →
  st_artifacts s' = st_artifacts s ∧ st_derivations s' = st_derivations s ∧
  st_idempotency s' = st_idempotency s.
Proof.
  rw /reap_expired_locked /get /put /mbind /M_bind /=.
  destruct (st_runs s !! id) as [slot|]; [|by intros [= <- <-]].
  intros Hf. apply append_events_frame in Hf as [es ->]; [done|].
  intros [[kind subject] detail] s0 o0 s1 [= <- <-]. by eexists.
Qed.
Lemma idempotent_put_frame op ctx v s o s' :
  idempotent_put op ctx v s = (o, s') →
  o = Ok tt ∧ ∃ m, s' = set_idempotency m s.
Proof.
  rw /idempotent_put. destruct (idempotency_key op ctx) as [key|].
  - rw /modify. intros [= <- <-]. split; [done|]. destruct (st_idempotency s !! key); [|by eexists].
    exists (st_idempotency s). by destruct s.
  - intros [= <- <-]. split; [done|]. exists (st_idempotency s). by destruct s.
Qed.
(** A ledger with [events] appended, each chained to the one before. *)
Definition append_events (events : list (string * string * bytes)) (ledger : list LedgerEntry) : list LedgerEntry :=
  foldl (λ l '(kind, subject, detail), l ++ [next_entry l kind subject detail]) ledger events.
Lemma append_events_exact events s :
  for_each_M append_event events s = (Ok tt, set_ledger (append_events events (st_ledger s)) s).
Proof.
  revert s. induction events as [|[[kind subject] detail] events IH]; intros s; simpl; [by destruct s|].
  eapply run_bind; [done|]. rw IH. done.
Qed.
Lemma reap_expired_exact id now s slot : st_runs s !! id = Some slot →
  reap_expired_locked id now s = (Ok tt,
    set_ledger (append_events (mjoin (reap_events id (rs_max_attempts slot) <$> expired_claims slot now)) (st_ledger s))
      (put_run_slot id (reaped slot now) s)).
Proof. intros Hs. rw /reap_expired_locked /get /put /mbind /M_bind /= Hs append_events_exact. done. Qed.
(** What the cache remembers of a call that was not in it. *)
Definition remembered (op : string) (ctx : RequestContext) (v : IdempotentResult)
    (m : gmap string IdempotentResult) : gmap string IdempotentResult :=
  match idempotency_key op ctx with Some key => <[key := v]> m | None => m end.
Lemma idempotent_put_exact op ctx v s s0 o s' : idempotent_get s0 op ctx = None →
  st_idempotency s = st_idempotency s0 → idempotent_put op ctx v s = (o, s') →
  s' = set_idempotency (remembered op ctx v (st_idempotency s0)) s.
Proof.
  rw /idempotent_get /idempotent_put /remembered. intros Hg Hs. destruct (idempotency_key op ctx) as [key|].
  - simpl in Hg. rw /modify Hs Hg. by intros [= _ <-].
  - intros [= _ <-]. rw -Hs. by destruct s.
Qed.
(** The parts of the state that have nothing to do with runs. *)
Definition store_and_bus (s : State) :=
  (st_modules s, st_capabilities s, st_contracts s, st_artifacts s, st_blobs s, st_subs s, st_event_seq s, st_chans s).
End reap_frame.

(** ** The properties *)
Section theorems.
Context `{Platform}.
Variable store_policy : ArtifactStorePolicy.

(** C1: a work unit is committed at most once.  In every reachable
    state a run has taken as many steps as it has derivations, never more than
    [max_steps], and each derivation is of a unit recorded as done, under the work
    id that unit determines; and no two derivations have the same work id, provided
    that no node id of the run begins like a unit key, with "key:" or "always:".
    (A ONCE unit is claimed under its node id and the validator takes any id:
    [Findings.work_id_collision] is two derivations under one work id.) *)
Theorem commit_at_most_once s id slot :
  reachable store_policy s → st_runs s !! id = Some slot →
  len (run_derivations s id) = run_steps (rs_run slot) ∧
  run_steps (rs_run slot) ≤ run_max_steps (rs_run slot) ∧
  Forall (λ d, ∃ key, key ∈ rs_done_units slot ∧ unit_key_shape (d_node_id d) key ∧
     d_work_id d = work_id_of id (d_node_id d) key) (run_derivations s id) ∧
  (plain_slot slot → NoDup (d_work_id <$> run_derivations s id)).
Proof.
  intros [_ [Hruns _]]%reachable_ksteps Hs.
  destruct (Hruns _ _ Hs) as [(a & t & Hf & _ & Hat) Hst [Hsteps _ _ Hdone]].
  split_and!; [done|by apply (si_steps _ Hst)|done|].
  intros Hp. by destruct (Hat (Hp _ (fi_assembly _ _ _ _ Hf))) as (_ & Hnd & _).
Qed.

(** C3: the claims of a reachable run are sound.  Each is of a node of the
    frozen assembly, under the work id its unit determines, for a unit that
    is not done; no unit is claimed twice; and there are never more claims
    than [max_in_flight] when a limit is set. *)
Theorem claims_sound s id slot :
  reachable store_policy s → st_runs s !! id = Some slot →
  ∃ a, run_assembly (rs_run slot) = Some a ∧
    map_Forall (claim_ok id (as_nodes a) (rs_done_units slot)) (rs_claimed slot) ∧
    (∀ w1 w2 c1 c2, rs_claimed slot !! w1 = Some c1 → rs_claimed slot !! w2 = Some c2 →
       cs_unit_key c1 = cs_unit_key c2 → w1 = w2) ∧
    (rs_max_in_flight slot ≠ 0 → Z.of_nat (size (rs_claimed slot)) ≤ rs_max_in_flight slot).
Proof.
  intros [_ [Hruns _]]%reachable_ksteps Hs.
  destruct (ri_assembly _ _ _ (Hruns _ _ Hs)) as (a & t & Hf & [Hall Hsize] & _).
  exists a. split_and!; [apply (fi_assembly _ _ _ _ Hf)|done| |done].
  intros w1 w2 c1 c2 H1 H2. eapply claim_ok_functional; by apply Hall.
Qed.

(** C12: a closed run never changes again: whatever is called later, its
    slot and its derivations stay as they are. *)
Theorem closed_run_frozen s s' id slot :
  reachable store_policy s → later store_policy s s' → st_runs s !! id = Some slot →
  run_state (rs_run slot) ≠ RsRunning →
  st_runs s' !! id = Some slot ∧ run_derivations s' id = run_derivations s id.
Proof.
  intros Hr Hl Hs Hclosed. pose proof (later_evolves _ _ _ Hr Hl) as Hev.
  destruct (ev_runs _ _ Hev _ _ Hs) as (slot' & Hs' & Hse).
  assert (slot' = slot) as -> by by apply (se_closed _ _ Hse). split; [done|].
  pose proof (later_reachable _ _ _ Hr Hl) as Hr'.
  apply reachable_ksteps in Hr as [_ [Hruns _]], Hr' as [_ [Hruns' _]].
  pose proof (hi_steps _ _ _ (ri_history _ _ _ (Hruns _ _ Hs))) as H1.
  pose proof (hi_steps _ _ _ (ri_history _ _ _ (Hruns' _ _ Hs'))) as H2.
  destruct (run_derivations_prefix s s' id (ev_derivations _ _ Hev)) as [l Hl'].
  rw Hl' /len length_app in H2. rw /len in H1. destruct l as [|d l]; [by rw Hl' app_nil_r|].
  simpl in H2. lia.
Qed.

(** C11: no call panics.  In every reachable state every call of the ABI
    returns a value or a [KernelError], whatever its arguments, the clock
    and the iteration order of the hash maps: every [unwrap] of the code is
    on a value that is there, and the cycle check never runs out of depth. *)
Theorem kernel_never_panics `{HashOrder} s t0 now c :
  reachable store_policy s → (exec store_policy t0 now c s).1 ≠ Panic.
Proof. intros [_ Hinv]%reachable_ksteps. by apply exec_safe. Qed.

(** C2: the kernel refines the unit life cycle.  For a run in which no node id
    begins like a unit key ([plain_slot]), one call moves every unit
    along READY, CLAIMED, DONE, with at most [max_attempts]
    claims and nothing after DONE.  (With such an id a claim can be overwritten:
    [Findings.work_id_collision].) *)
Theorem unit_lifecycle s o s' id slot key :
  reachable store_policy s → call_step store_policy s o s' →
  st_runs s !! id = Some slot → plain_slot slot →
  ∃ slot', st_runs s' !! id = Some slot' ∧
    rtc (unit_step (rs_max_attempts slot)) (unit_state slot key) (unit_state slot' key).
Proof.
  intros [_ Hinv]%reachable_ksteps Hc Hs Hp.
  eapply ksteps_refines; [|done..]. by eapply call_ksteps.
Qed.

(** C22: the attempts of a unit are bounded.  For a run in which no node id begins
    like a unit key ([plain_slot]), the attempts of every unit are between none
    and the run's [max_attempts], which is a [u32], so that the counter
    never wraps; a claim carries the attempt it is; in an open run a unit
    that has used its attempts is in flight or done; and a claim whose lease
    expires on its last attempt is done once it is reaped. *)
Theorem attempts_bounded s id slot :
  reachable store_policy s → st_runs s !! id = Some slot → plain_slot slot →
  (∀ key, 0 ≤ attempts_of slot key ≤ rs_max_attempts slot) ∧ rs_max_attempts slot < 2^32 ∧
  (∀ wid c, rs_claimed slot !! wid = Some c → cs_attempt c = attempts_of slot (cs_unit_key c)) ∧
  (run_state (rs_run slot) = RsRunning → ∀ key, attempts_of slot key = rs_max_attempts slot →
     unit_phase slot key ≠ UReady) ∧
  (∀ `{HashOrder} now wid c, rs_claimed slot !! wid = Some c → lease_expired now c = true →
     attempts_of slot (cs_unit_key c) = rs_max_attempts slot →
     unit_phase (reaped slot now) (cs_unit_key c) = UDone).
Proof.
  intros [_ [Hruns _]]%reachable_ksteps Hs Hp. pose proof (Hruns _ _ Hs) as Hinv.
  destruct (ri_assembly _ _ _ Hinv) as (a & t & Hf & _ & Hat).
  destruct (Hat (Hp _ (fi_assembly _ _ _ _ Hf))) as ([Hb Hcl Hr] & _).
  split_and!; [done|apply (fi_max_attempts _ _ _ _ Hf)|done| |].
  - intros Hrun key Hk. rw /unit_phase. case_bool_decide as Hd; [done|].
    destruct (unit_is_claimed slot key) eqn:Hc; [done|]. specialize (Hr Hrun key Hd Hc). lia.
  - intros ? now wid c Hc Hexp Hmax. rw /unit_phase bool_decide_eq_true_2 //.
    apply elem_of_reaped_done. right. exists wid, c. split_and!; [done|done| |done].
    rw (Hcl _ _ Hc). lia.
Qed.
End theorems.

Section functional.
Context `{Platform, HashOrder}.
Variable store_policy : ArtifactStorePolicy.

(** C5: what [claim_ready] grants.  On a running run it answers the first
    [want] ready units in assembly order, where a unit is ready when its
    node matches the filter, its inputs resolve and it is neither done nor
    claimed once expired leases are reaped; their keys are pairwise different, their claims join
    the in-flight ones, and the run stalls exactly when nothing was
    granted, no unit is ready, nothing is in flight and closure is not open. *)
Theorem claim_ready_grants s req now slot a :
  reachable store_policy s → st_runs s !! cr_run_id req = Some slot →
  run_state (rs_run slot) = RsRunning → run_assembly (rs_run slot) = Some a →
  let slot0 := reaped slot now in
  let cands := ready_candidates s slot0 req a in
  let granted := take (Z.to_nat (claim_want slot0 req)) cands in
  (∀ node inputs key, (node, inputs, key) ∈ cands ↔
     node ∈ as_nodes a ∧ node_matches_claim_filter req node = true ∧
     ready_unit s slot0 node = Some (inputs, key)) ∧
  NoDup cands.*2 ∧
  ∃ s' slot', claim_ready req now s =
      (Ok (mkClaimResponse (claim_item (cr_run_id req) now slot0 <$> granted)), s') ∧
    st_runs s' = <[cr_run_id req := slot']> (st_runs s) ∧
    dom (rs_claimed slot') = dom (rs_claimed slot0) ∪
      list_to_set ((λ c, work_id_of (cr_run_id req) (an_id c.1.1) c.2) <$> granted) ∧
    rs_done_units slot' = rs_done_units slot0 ∧
    (run_state (rs_run slot') = RsStalled ↔
       granted = [] ∧ assembly_any_ready s slot0 = false ∧ rs_claimed slot0 = ∅ ∧
       is_open_closure slot = false).
Proof.
  intros [_ [Hruns _]]%reachable_ksteps Hs Hr Ha slot0 cands granted.
  destruct (ri_assembly _ _ _ (Hruns _ _ Hs)) as (a' & t & Hf & _).
  assert (a' = a) as -> by (pose proof (fi_assembly _ _ _ _ Hf); congruence).
  assert (distinct_nodes slot0) as Hd.
  { intros a'. rw reaped_run Ha. intros [= <-]. apply (fi_nodes _ _ _ _ Hf). }
  assert (run_assembly (rs_run slot0) = Some a) as Ha0 by by rw reaped_run.
  split; [intros; apply elem_of_ready_candidates|]. split.
  { apply ready_candidates_nodup, (fi_nodes _ _ _ _ Hf). }
  destruct (claim_ready_spec store_policy s req now slot a Hs Hr Ha) as (s' & He & Hr' & _ & _).
  fold slot0 in He, Hr'. set r := claim_result s slot0 req a now in He Hr'.
  assert (r.2 = claim_item (cr_run_id req) now slot0 <$> granted) as Hitems
    by by apply claim_result_items.
  assert (dom (rs_claimed r.1) = dom (rs_claimed slot0) ∪
      list_to_set ((λ c, work_id_of (cr_run_id req) (an_id c.1.1) c.2) <$> granted) ∧
    rs_done_units r.1 = rs_done_units slot0) as [Hdom Hdone] by by apply claim_result_claimed.
  assert (r.2 = [] → r.1 = slot0) as Hnone.
  { rw Hitems. intros Hnil%fmap_nil_inv. rw /r /claim_result. fold cands granted. rw Hnil.
    by destruct (_ >? _). }
  exists s'. eexists. split; [by rw He Hitems|]. split; [exact Hr'|].
  assert (run_state (rs_run r.1) = RsRunning) as Hrr.
  { rw /r claim_result_run reaped_run. done. }
  assert (granted = [] ↔ list_is_empty r.2 = true) as ->.
  { rw Hitems. by destruct granted. }
  rw /stalled_if /is_stalled.
  destruct (list_is_empty r.2) eqn:Hempty; simpl; [|split_and!; [done|done|]; rw Hrr; naive_solver].
  destruct r.2 eqn:Hr2; [|done]. rw (Hnone eq_refl) in Hdom Hdone Hrr |- *.
  assert (is_open_closure slot0 = is_open_closure slot) as ->.
  { by rw /is_open_closure reaped_run. }
  destruct (assembly_any_ready s slot0) eqn:Har; simpl; [rw Hrr; naive_solver|].
  case_bool_decide as Hcl; simpl; [|rw Hrr; naive_solver].
  destruct (is_open_closure slot); simpl; [rw Hrr; naive_solver|done].
Qed.

(** What a successful commit found and what it left. *)
Lemma commit_exact s sub ctx t0 now r s' :
  reachable store_policy s → idempotent_get s "commit" ctx = None →
  commit_ctx sub ctx t0 now s = (Ok r, s') →
  ∃ slot c cap a t,
    st_runs s !! d_run_id sub = Some slot ∧ run_state (rs_run slot) = RsRunning ∧
    run_assembly (rs_run slot) = Some a ∧ as_terminal a = Some t ∧
    rs_claimed (reaped slot now) !! d_work_id sub = Some c ∧
    (d_node_id sub = "" ∨ d_node_id sub = wi_node_id (cs_work c)) ∧
    run_steps (rs_run slot) < run_max_steps (rs_run slot) ∧
    capability_for_work s (cs_work c) = Ok cap ∧ validate_outputs s cap (d_outputs sub) = Ok tt ∧
    let d := derivation_of (cs_work c) (d_outputs sub) in
    let slot1 := record_commit c d (reaped slot now) in
    r = commit_run s slot1 (commit_answer t (wi_node_id (cs_work c)) d) ∧
    st_runs s' = <[d_run_id sub := slot_with_run r slot1]> (st_runs s) ∧
    st_derivations s' = st_derivations s ++ [d] ∧
    st_ledger s' = append_events
      (mjoin (reap_events (d_run_id sub) (rs_max_attempts slot) <$> expired_claims slot now) ++
       [("derivation.committed", d_id d, encode_Derivation d);
        (run_event_kind (run_state r), run_id r, encode_Run r)]) (st_ledger s) ∧
    st_idempotency s' = remembered "commit" ctx (IdemRun r) (st_idempotency s) ∧
    store_and_bus s' = store_and_bus s.
Proof.
  intros [_ [Hruns _]]%reachable_ksteps Hidem. rw /commit_ctx.
  intros ([] & _ & Hc)%lift_ok_inv. rw {1}/mbind /M_bind {1}/get Hidem in Hc.
  apply bind_ok_inv in Hc as (slot & s0 & (-> & Hs & Hr)%running_slot_ok & Hc).
  destruct (ri_assembly _ _ _ (Hruns _ _ Hs)) as (a & t & Hf & [Hall _] & _).
  apply bind_ok_inv in Hc as ([] & s1 & Hreap & Hc).
  destruct (reap_expired_spec store_policy s (d_run_id sub) now slot Hs Hr)
    as (s1' & Hreap' & _ & Hs1 & Hm1). rw Hreap in Hreap'. injection Hreap' as <-.
  pose proof (reap_expired_frame _ _ _ _ _ Hreap) as (Hart & Hder & _).
  pose proof (reap_expired_exact (d_run_id sub) now s slot Hs) as Hexact. rw Hreap in Hexact. injection Hexact as Hexact.
  apply bind_ok_inv in Hc as (? & ? & [= <- <-] & Hc).
  apply lift_ok_inv in Hc as (slot' & Hslot & Hc). apply unwrap_ok in Hslot.
  rw Hs1 lookup_insert_eq in Hslot. injection Hslot as <-.
  apply lift_ok_inv in Hc as (c & Hcl & Hc). apply ok_or_ok in Hcl. cbv zeta in Hc.
  apply lift_ok_inv in Hc as ([] & Hnode & Hc). apply lift_ok_inv in Hc as ([] & Hsteps & Hc).
  apply lift_ok_inv in Hc as (cap & Hcap & Hc). apply lift_ok_inv in Hc as ([] & Hout & Hc).
  pose proof (co_run _ _ _ _ _ (Hall _ _ (reaped_claims_sub _ _ _ _ Hcl))) as Hid.
  rw Hid in Hc.
  apply lift_ok_inv in Hc as (slot' & Hslot & Hc). apply unwrap_ok in Hslot.
  rw Hs1 lookup_insert_eq in Hslot. injection Hslot as <-.
  apply lift_ok_inv in Hc as (a' & Ha' & Hc). apply unwrap_ok in Ha'.
  rw reaped_run (fi_assembly _ _ _ _ Hf) in Ha'. injection Ha' as <-.
  apply lift_ok_inv in Hc as (t' & Ht' & Hc). apply unwrap_ok in Ht'.
  rw (fi_terminal _ _ _ _ Hf) in Ht'. injection Ht' as <-.
  apply err_if_ok in Hnode, Hsteps. rw reaped_run Z.geb_leb in Hsteps. apply Z.leb_gt in Hsteps.
  apply andb_false_iff in Hnode.
  rw !negb_false_iff str_is_empty_true str_eqb_true in Hnode.
  assert (commit_slot s1 c t (derivation_of (cs_work c) (d_outputs sub)) (reaped slot now) =
    commit_slot s c t (derivation_of (cs_work c) (d_outputs sub)) (reaped slot now)) as Hcs.
  { rw !commit_slot_run /commit_run. by rw (assembly_any_ready_modules s s1). }
  rw Hcs in Hc. clear Hcs.
  pose proof (commit_slot_run s c t (derivation_of (cs_work c) (d_outputs sub)) (reaped slot now)) as Hcs.
  cbv zeta in Hcs. rw Hcs in Hc. clear Hcs.
  apply bind_ok_inv in Hc as ([] & s2 & [= <-] & Hc).
  apply bind_ok_inv in Hc as (e1 & s3 & [= _ <-] & Hc).
  apply bind_ok_inv in Hc as (e2 & s4 & [= _ <-] & Hc).
  apply bind_ok_inv in Hc as ([] & s5 & Hput & Hc).
  apply (idempotent_put_exact _ _ _ _ s) in Hput as ->; [|done|by rw /= Hexact]. injection Hc as <- <-.
  exists slot, c, cap, a, t. split_and!; try done.
  - apply (fi_assembly _ _ _ _ Hf).
  - apply (fi_terminal _ _ _ _ Hf).
  - by rw -Hcap /capability_for_work /capability_for_node /node_providers Hm1.
  - by rw -Hout /validate_outputs /check_output Hart.
  - by rw /= Hs1 insert_insert_eq.
  - by rw /= Hder.
  - by rw /= Hexact /append_events foldl_app.
  - by rw /store_and_bus /= Hexact.
Qed.

Lemma commit_inv s sub ctx t0 now r s' :
  reachable store_policy s → idempotent_get s "commit" ctx = None →
  commit_ctx sub ctx t0 now s = (Ok r, s') →
  ∃ slot c cap a t,
    st_runs s !! d_run_id sub = Some slot ∧ run_state (rs_run slot) = RsRunning ∧
    run_assembly (rs_run slot) = Some a ∧ as_terminal a = Some t ∧
    rs_claimed (reaped slot now) !! d_work_id sub = Some c ∧
    (d_node_id sub = "" ∨ d_node_id sub = wi_node_id (cs_work c)) ∧
    run_steps (rs_run slot) < run_max_steps (rs_run slot) ∧
    capability_for_work s (cs_work c) = Ok cap ∧ validate_outputs s cap (d_outputs sub) = Ok tt ∧
    let d := derivation_of (cs_work c) (d_outputs sub) in
    let slot1 := record_commit c d (reaped slot now) in
    r = commit_run s slot1 (commit_answer t (wi_node_id (cs_work c)) d) ∧
    st_runs s' = <[d_run_id sub := slot_with_run r slot1]> (st_runs s) ∧
    st_derivations s' = st_derivations s ++ [d].
Proof.
  intros Hr Hidem Hc. destruct (commit_exact _ _ _ _ _ _ _ Hr Hidem Hc)
    as (slot & c & cap & a & t & G1 & G2 & G3 & G4 & G5 & G6 & G7 & G8 & G9 & G10 & G11 & G12 & _).
  exists slot, c, cap, a, t. by split_and!.
Qed.

(** C4: what a successful commit does.  Unless it replays an earlier
    result, it found the run open and the work claimed after expired leases
    were reaped, the run below its step limit, the capability of the node
    and valid outputs; it appends exactly one derivation, of the claimed
    work, and leaves the run as [commit_run] describes: answered and
    completed, failed at the limit, stalled, or running.  The ledger has one entry
    per reaped lease (two when the unit is given up), then the committed derivation and
    the run as it is now; the answer is remembered under the request key, if
    there is one; and no module, contract, artifact, blob, subscription or event
    has changed. *)
Theorem commit_outcome s sub ctx t0 now r s' :
  reachable store_policy s → idempotent_get s "commit" ctx = None →
  commit_ctx sub ctx t0 now s = (Ok r, s') →
  ∃ slot c cap a t,
    st_runs s !! d_run_id sub = Some slot ∧ run_state (rs_run slot) = RsRunning ∧
    run_assembly (rs_run slot) = Some a ∧ as_terminal a = Some t ∧
    rs_claimed (reaped slot now) !! d_work_id sub = Some c ∧
    (d_node_id sub = "" ∨ d_node_id sub = wi_node_id (cs_work c)) ∧
    run_steps (rs_run slot) < run_max_steps (rs_run slot) ∧
    capability_for_work s (cs_work c) = Ok cap ∧ validate_outputs s cap (d_outputs sub) = Ok tt ∧
    let d := derivation_of (cs_work c) (d_outputs sub) in
    let slot1 := record_commit c d (reaped slot now) in
    r = commit_run s slot1 (commit_answer t (wi_node_id (cs_work c)) d) ∧
    st_runs s' = <[d_run_id sub := slot_with_run r slot1]> (st_runs s) ∧
    st_derivations s' = st_derivations s ++ [d] ∧
    st_ledger s' = append_events
      (mjoin (reap_events (d_run_id sub) (rs_max_attempts slot) <$> expired_claims slot now) ++
       [("derivation.committed", d_id d, encode_Derivation d);
        (run_event_kind (run_state r), run_id r, encode_Run r)]) (st_ledger s) ∧
    st_idempotency s' = remembered "commit" ctx (IdemRun r) (st_idempotency s) ∧
    store_and_bus s' = store_and_bus s.
Proof. apply commit_exact. Qed.

(** C27: a refused commit commits nothing.  When [commit] answers an error,
    no derivation was added and no result cached; at most the expired
    leases of the run were reaped. *)
Theorem commit_refused s sub ctx t0 now e s' :
  commit_ctx sub ctx t0 now s = (Err e, s') →
  st_derivations s' = st_derivations s ∧ st_idempotency s' = st_idempotency s ∧
  st_artifacts s' = st_artifacts s ∧
  (st_runs s' = st_runs s ∨
   ∃ slot, st_runs s !! d_run_id sub = Some slot ∧
     st_runs s' = <[d_run_id sub := reaped slot now]> (st_runs s)).
Proof.
  rw /commit_ctx. intros [->|([] & _ & Hc)]%lift_err_inv; [by auto|].
  rw {1}/mbind /M_bind {1}/get in Hc.
  assert (∀ m : Method Run, (match idempotent_get s "commit" ctx with
    | Some (IdemRun r) => mret r | _ => m end) s = (Err e, s') → m s = (Err e, s')) as Hcase.
  { intros m. by destruct (idempotent_get s _ ctx) as [[]|]. }
  apply Hcase in Hc. clear Hcase.
  apply bind_err_inv in Hc as [Hc|(slot & s0 & (-> & Hs & Hr)%running_slot_ok & Hc)].
  { pose proof (running_slot_state s (d_run_id sub)) as Hst. rw Hc /= in Hst. rw Hst. by auto. }
  destruct (reap_expired_spec store_policy s (d_run_id sub) now slot Hs Hr)
    as (s1 & Hreap & _ & Hs1 & Hm1).
  pose proof (reap_expired_frame _ _ _ _ _ Hreap) as (Hart & Hder & Hidem).
  apply bind_err_inv in Hc as [Hc|([] & s1' & Hreap' & Hc)]; [congruence|].
  rw Hreap in Hreap'. injection Hreap' as <-.
  assert (s' = s1) as ->.
  { apply bind_err_inv in Hc as [Hc|(? & ? & [= <- <-] & Hc)]; [done|].
    apply lift_err_inv in Hc as [->|(? & _ & Hc)]; [done|].
    apply lift_err_inv in Hc as [->|(c & _ & Hc)]; [done|]. cbv zeta in Hc.
    do 4 (apply lift_err_inv in Hc as [->|(? & _ & Hc)]; [done|]).
    do 3 (apply lift_err_inv in Hc as [->|(? & _ & Hc)]; [done|]).
    apply bind_err_inv in Hc as [Hc|([] & ? & [= <-] & Hc)]; [done|].
    apply bind_err_inv in Hc as [Hc|(? & ? & [= _ <-] & Hc)]; [done|].
    apply bind_err_inv in Hc as [Hc|(? & ? & [= _ <-] & Hc)]; [done|].
    apply bind_err_inv in Hc as [Hput|([] & ? & _ & Hc)]; [|done].
    by apply idempotent_put_frame in Hput as [? _]. }
  split_and!; [done..|]. right. by exists slot.
Qed.

(** C30: a heartbeat renews exactly the ids that are still held, a lease that has
    expired and was not yet reaped included, and reports
    the others lost, each list in the order asked; afterwards a claim is
    there iff its lease, renewed or not, has not expired.  (The doc comment has expired
    ids lost: [Findings.heartbeat_renews_expired].) *)
Theorem heartbeat_partition s req now slot :
  st_runs s !! hr_run_id req = Some slot → run_state (rs_run slot) = RsRunning →
  let extend := if hr_extend_lease_ms req =? 0 then rs_default_lease_ms slot
                else hr_extend_lease_ms req in
  let until := i64_sat_add now (as_i64 extend) in
  ∃ s' slot', heartbeat req now s =
      (Ok (mkHeartbeatResponse
             (filter (λ id, id ∈ dom (rs_claimed slot)) (hr_work_ids req))
             (filter (λ id, id ∉ dom (rs_claimed slot)) (hr_work_ids req))), s') ∧
    st_runs s' = <[hr_run_id req := slot']> (st_runs s) ∧
    ∀ wid, rs_claimed slot' !! wid =
      (c ← rs_claimed slot !! wid;
       let c := if decide (wid ∈ hr_work_ids req) then renew until c else c in
       if lease_expired now c then None else Some c).
Proof.
  intros Hs Hr extend until. set id := hr_run_id req.
  pose proof (renew_fold_spec until (hr_work_ids req) slot [] []) as Hfold.
  destruct (renew_fold_steps store_policy s id until (hr_work_ids req) (slot, [], []) Hr) as [_ Hr'].
  destruct (foldl (renew_slot until) (slot, [], []) (hr_work_ids req)) as [[slot1 renewed] lost] eqn:Hf.
  destruct Hfold as (-> & -> & Hcl & _). simpl in Hr'.
  destruct (reap_expired_spec store_policy (put_run_slot id slot1 s) id now slot1)
    as (s' & He & _ & Hruns & _); [by rw /= lookup_insert_eq|done|].
  exists s', (reaped slot1 now). split_and!.
  - rw /heartbeat. eapply run_bind; [by apply running_slot_run|]. fold extend until id. rw Hf.
    eapply run_bind; [done|]. by eapply run_bind.
  - by rw Hruns /= insert_insert_eq.
  - intros wid. rw reaped_lookup Hcl. destruct (rs_claimed slot !! wid); done.
Qed.

(** The slot of a run just started from [req] on the assembly [a]. *)
Definition started_slot (req : RunRequest) (a : Assembly) : RunSlot :=
  mkRunSlot
    (mkRun (rr_id req) (Some a) (rr_inputs req) (RunState_i32 RsRunning) None 0
       (limit_or lim_max_steps (rr_limits req) (len (as_nodes a))) "" (rr_policy req))
    ∅ ∅ ∅ ∅ (inputs_at_epoch_zero (rr_inputs req)) ∅
    (match rr_limits req with Some l => lim_max_in_flight l | None => 0 end)
    (limit_or lim_default_lease_ms (rr_limits req) DEFAULT_LEASE_MS)
    (limit_or lim_max_attempts (rr_limits req) DEFAULT_MAX_ATTEMPTS).

(** What a request must satisfy: a new id, and an assembly [a], restricted
    to [include_nodes] when there are any, that is valid for the inputs. *)
Definition startable (s : State) (req : RunRequest) (a : Assembly) : Prop :=
  rr_id req ≠ "" ∧ st_runs s !! rr_id req = None ∧
  (∃ a0, rr_assembly req = Some a0 ∧
     ((rr_include_nodes req = [] ∧ a = a0) ∨
      (rr_include_nodes req ≠ [] ∧ include_ok a0 (rr_include_nodes req) ∧
       a = restricted a0 (rr_include_nodes req)))) ∧
  assembly_ok s a (rr_inputs req).

Lemma start_run_inv s req ctx now r s' :
  idempotent_get s "start_run" ctx = None → start_run_ctx req ctx now s = (Ok r, s') →
  ∃ a, startable s req a ∧ r = rs_run (started_slot req a) ∧
    st_runs s' = <[rr_id req := started_slot req a]> (st_runs s).
Proof.
  intros Hidem. rw /start_run_ctx.
  intros ([] & _ & Hc)%lift_ok_inv. rw {1}/mbind /M_bind {1}/get Hidem in Hc.
  apply lift_ok_inv in Hc as ([] & Hid & Hc). apply lift_ok_inv in Hc as ([] & Hnew & Hc).
  apply lift_ok_inv in Hc as (a0 & Ha0 & Hc). apply lift_ok_inv in Hc as (a & Ha & Hc).
  apply lift_ok_inv in Hc as ([] & Hvalid & Hc). cbv zeta in Hc.
  apply lift_ok_inv in Hc as ([] & _ & Hc).
  apply bind_ok_inv in Hc as ([] & s1 & [= <-] & Hc).
  apply bind_ok_inv in Hc as (e & s2 & [= _ <-] & Hc).
  apply bind_ok_inv in Hc as ([] & s3 & Hput & Hc).
  apply idempotent_put_frame in Hput as [_ [m ->]]. injection Hc as Hr <-.
  apply err_if_ok in Hid, Hnew. apply ok_or_ok in Ha0. apply materialize_spec in Ha.
  apply validate_assembly_spec in Hvalid. apply str_is_empty_false in Hid.
  exists a. split; [|done]. split_and!; [done| |by exists a0|done].
  rw /has_key in Hnew. by destruct (st_runs s !! rr_id req).
Qed.
Lemma startable_runs s req ctx now a :
  check_deadline ctx now = Ok tt → idempotent_get s "start_run" ctx = None → startable s req a →
  ∃ s', start_run_ctx req ctx now s = (Ok (rs_run (started_slot req a)), s').
Proof.
  intros Hd Hidem (Hid & Hnew & (a0 & Ha0 & Ha) & Hok). rw /start_run_ctx.
  assert (limit_or lim_max_steps (rr_limits req) (len (as_nodes a)) ≠ 0) as Hmax.
  { rw /limit_or. destruct (Z.eqb_spec (match rr_limits req with Some l => lim_max_steps l | None => 0 end) 0);
      [|done]. pose proof (ao_nonempty _ _ _ Hok). by destruct (as_nodes a). }
  destruct (idempotency_key "start_run" ctx) as [key|] eqn:Hkey; eexists;
    (eapply run_lift; [done|]); apply run_get; rw Hidem.
  all: eapply run_lift; [by rw (proj2 (str_is_empty_false _) Hid)|].
  all: eapply run_lift; [by rw /has_key Hnew|]; eapply run_lift; [by rw Ha0|].
  all: eapply run_lift; [by apply materialize_spec|].
  all: eapply run_lift; [by apply validate_assembly_spec|]; cbv zeta.
  all: eapply run_lift; [by rw (proj2 (Z.eqb_neq _ _) Hmax)|]; apply run_put.
  all: eapply run_bind; [done|]; eapply run_bind; [|done]; rw /idempotent_put Hkey; done.
Qed.

(** C26: when a run starts.  A request within its deadline that is no
    replay is accepted iff its id is new and not empty, [include_nodes]
    names distinct known nodes and keeps the terminal, and the resulting
    assembly is valid for the inputs; the run is then recorded RUNNING with
    no step taken and the limits of the request, defaults filled in. *)
Theorem start_run_spec s req ctx now r :
  check_deadline ctx now = Ok tt → idempotent_get s "start_run" ctx = None →
  ((∃ s', start_run_ctx req ctx now s = (Ok r, s')) ↔
   ∃ a, startable s req a ∧ r = rs_run (started_slot req a)) ∧
  ∀ s', start_run_ctx req ctx now s = (Ok r, s') →
    ∃ a, startable s req a ∧ st_runs s' = <[rr_id req := started_slot req a]> (st_runs s).
Proof.
  intros Hd Hidem. split; [split|].
  - intros (s' & Hc). apply start_run_inv in Hc as (a & ? & ? & _); [|done]. by exists a.
  - intros (a & Ha & ->). by apply startable_runs.
  - intros s' Hc. apply start_run_inv in Hc as (a & ? & _ & ?); [|done]. by exists a.
Qed.
End functional.
