(* ===== verification/FailTheorems.v ===== *)
(** * FailTheorems: giving work back

    What [fail_work] answers and leaves, on every branch. *)
From S2P Require Import Prelude Wire Errors Hash Traits Policy State Registry Store Events Assembly.
From S2P Require Import AssemblySpec Work Runs Units Steps Kernel Invariant Evolve RunTheorems.
Local Open Scope Z_scope.

Section fail.
Context `{Platform, HashOrder}.

(** A run that closes is stalled when nothing is claimed and nothing is ready. *)
Definition stalled_if_idle (s : State) (slot : RunSlot) : RunSlot :=
  if negb (is_open_closure slot) && bool_decide (rs_claimed slot = ∅) && negb (assembly_any_ready s slot)
  then slot_closed RsStalled stall_reason slot else slot.
(** The slot [fail_work] leaves of [slot], of which [c] was claimed: released,
    abandoned if that was asked or its attempts are used up. *)
Definition failed_slot (s : State) (req : FailWorkRequest) (c : ClaimedSlot) (slot : RunSlot) : RunSlot :=
  stalled_if_idle s
    (fail_slot (fw_work_id req) c (fw_terminal req || (cs_attempt c >=? rs_max_attempts slot)) slot).

(** Outcome, runs and derivations of a call. *)
Definition answers_with {A} (m : Method A) (s : State) (o : Result A) (runs : gmap string RunSlot) : Prop :=
  (m s).1 = o ∧ st_runs (m s).2 = runs ∧ st_derivations (m s).2 = st_derivations s.

Lemma running_slot_cases id s :
  running_slot id s = match st_runs s !! id with
    | None => (Err (NotFound id), s)
    | Some slot => if bool_decide (run_state (rs_run slot) = RsRunning) then (Ok slot, s)
                   else (Err (RunClosed (run_state (rs_run slot))), s)
    end.
Proof.
  rw /running_slot /get /mbind /M_bind /=. destruct (st_runs s !! id) as [slot|]; simpl; [|done].
  by destruct (bool_decide _).
Qed.

Lemma stall_if_idle s s0 id slot : st_runs s !! id = Some slot → st_modules s = st_modules s0 →
  let slot' := stalled_if_idle s0 slot in
  ∃ s', (s ← get; slot ← lift (unwrap (st_runs s !! id));
         if negb (is_open_closure slot) && bool_decide (rs_claimed slot = ∅) &&
            negb (assembly_any_ready s slot)
         then close_stalled id else mret (rs_run slot)) s = (Ok (rs_run slot'), s') ∧
    st_runs s' = <[id := slot']> (st_runs s) ∧ st_derivations s' = st_derivations s.
Proof.
  intros Hs Hm. cbv zeta. rw /stalled_if_idle -(assembly_any_ready_modules s0 s slot Hm).
  destruct (negb (is_open_closure slot) && bool_decide (rs_claimed slot = ∅) && negb (assembly_any_ready s slot)) eqn:Hst.
  - eexists. split_and!.
    + apply run_get. eapply run_lift; [by rw Hs|]. rw Hst. apply run_get.
      eapply run_lift; [by rw Hs|]. by apply run_put.
    + done.
    + done.
  - exists s. split_and!; [|by rw insert_id|done]. apply run_get. eapply run_lift; [by rw Hs|]. by rw Hst.
Qed.

Lemma fail_work_cases s req now :
  match st_runs s !! fw_run_id req with
  | None => answers_with (fail_work req now) s (Err (NotFound (fw_run_id req))) (st_runs s)
  | Some slot =>
      if bool_decide (run_state (rs_run slot) = RsRunning)
      then match rs_claimed (reaped slot now) !! fw_work_id req with
           | None => answers_with (fail_work req now) s (Err (Conflict "work was not claimed"))
                       (<[fw_run_id req := reaped slot now]> (st_runs s))
           | Some c => let slot' := failed_slot s req c (reaped slot now) in
                       answers_with (fail_work req now) s (Ok (rs_run slot'))
                         (<[fw_run_id req := slot']> (st_runs s))
           end
      else answers_with (fail_work req now) s (Err (RunClosed (run_state (rs_run slot)))) (st_runs s)
  end.
Proof.
  assert (∀ o runs, (∃ s', fail_work req now s = (o, s') ∧ st_runs s' = runs ∧
    st_derivations s' = st_derivations s) → answers_with (fail_work req now) s o runs) as Hintro.
  { intros o runs (s' & Heq & ? & ?). by rw /answers_with Heq. }
  pose proof (running_slot_cases (fw_run_id req) s) as Hrs.
  destruct (st_runs s !! fw_run_id req) as [slot|] eqn:Hs;
    [|apply Hintro; exists s; by rw /fail_work {1}/mbind /M_bind Hrs].
  case_bool_decide as Hrun; [|apply Hintro; exists s; by rw /fail_work {1}/mbind /M_bind Hrs].
  destruct (reap_expired_spec (mkStorePolicy 0 0 0 0) s (fw_run_id req) now slot Hs Hrun)
    as (s1 & Hreap & _ & Hs1 & Hm1).
  pose proof (reap_expired_frame _ _ _ _ _ Hreap) as (_ & Hder & _).
  set slot1 := reaped slot now in Hs1 |- *.
  destruct (rs_claimed slot1 !! fw_work_id req) as [c|] eqn:Hc; apply Hintro.
  - set slot2 := fail_slot (fw_work_id req) c (fw_terminal req || (cs_attempt c >=? rs_max_attempts slot1)) slot1.
    set s2 := (append_locked "work.failed" (fw_work_id req)
      (encode_WorkFailure (mkWorkFailure (fw_run_id req) (fw_work_id req) (cs_unit_key c)
        (if str_is_empty (fw_reason req) then "failed" else fw_reason req)
        (fw_terminal req || (cs_attempt c >=? rs_max_attempts slot1)) (cs_attempt c)))
      (put_run_slot (fw_run_id req) slot2 s1)).2.
    destruct (stall_if_idle s2 s (fw_run_id req) slot2) as (s3 & Hst & Hruns & Hd3);
      [by rw /= lookup_insert_eq|done|].
    exists s3. split_and!.
    + eapply run_bind; [exact Hrs|]. eapply run_bind; [exact Hreap|]. apply run_get.
      eapply run_lift; [by rw Hs1 lookup_insert_eq|]. eapply run_lift; [by rw Hc|]. apply run_put.
      eapply run_bind; [reflexivity|]. exact Hst.
    + by rw Hruns /= Hs1 !insert_insert_eq.
    + by rw Hd3 /= Hder.
  - exists s1. split_and!; [|done|done]. eapply run_bind; [exact Hrs|]. eapply run_bind; [exact Hreap|].
    apply run_get. eapply run_lift; [by rw Hs1 lookup_insert_eq|]. by rw Hc.
Qed.

(** C29: what failing a unit does, on every branch.  An unknown run, a closed
    one and a unit that is not claimed (any more: expired leases are reaped
    first) are refused.  Otherwise the claim is released; the unit is done if that
    was asked or its attempts are used up, and ready again if not; and a run
    that closes is STALLED exactly when nothing is claimed and nothing is
    ready.  Nothing is ever committed. *)
Theorem fail_work_spec s req now :
  match st_runs s !! fw_run_id req with
  | None => answers_with (fail_work req now) s (Err (NotFound (fw_run_id req))) (st_runs s)
  | Some slot =>
      if bool_decide (run_state (rs_run slot) = RsRunning)
      then match rs_claimed (reaped slot now) !! fw_work_id req with
           | None => answers_with (fail_work req now) s (Err (Conflict "work was not claimed"))
                       (<[fw_run_id req := reaped slot now]> (st_runs s))
           | Some c => let slot' := failed_slot s req c (reaped slot now) in
                       answers_with (fail_work req now) s (Ok (rs_run slot'))
                         (<[fw_run_id req := slot']> (st_runs s))
           end
      else answers_with (fail_work req now) s (Err (RunClosed (run_state (rs_run slot)))) (st_runs s)
  end.
Proof. apply fail_work_cases. Qed.
End fail.
