(* ===== verification/Typing.v ===== *)
(** * Typing: artifacts that flow between nodes carry the traits required

    Structural typing end to end: a binding is checked once, when the run
    starts, and an output once, when it is committed; together they give every
    claimed unit inputs with the traits its ports require, although modules may be
    registered in between. *)
From S2P Require Import Prelude Wire Errors Hash Traits Policy State Registry Store Events Assembly.
From S2P Require Import AssemblySpec Work Runs Units Steps Kernel Invariant Evolve.
Local Open Scope Z_scope.

(** The first provider of a node, which later registrations cannot change. *)
Definition first_provider (s : State) (node : AssemblyNode) : option Capability :=
  head (node_providers s node).

Lemma capability_first s node cap :
  capability_for_node s node = Ok cap → first_provider s node = Some cap.
Proof.
  rw /capability_for_node /first_provider.
  destruct (node_providers s node) as [|c [|]]; try done. by intros [= ->].
Qed.

Definition modules_extend (s s' : State) : Prop :=
  (ms_manifest <$> st_modules s) `prefix_of` (ms_manifest <$> st_modules s').
Lemma node_providers_manifests s node :
  node_providers s node =
  mjoin ((λ m, filter (λ c, cap_name c = an_capability node) (mm_provides m)) <$>
    filter (λ m, mm_name m = an_module node ∧ mm_version m = an_module_version node)
      (ms_manifest <$> st_modules s)).
Proof.
  rw /node_providers. f_equal.
  induction (st_modules s) as [|m l IH]; [done|]. rw fmap_cons !filter_cons.
  case_decide; [by rw !fmap_cons IH|done].
Qed.
Lemma first_provider_extend s s' node cap :
  modules_extend s s' → first_provider s node = Some cap → first_provider s' node = Some cap.
Proof.
  rw /modules_extend /first_provider !node_providers_manifests. intros [l ->].
  rw filter_app fmap_app join_app. by destruct (mjoin _).
Qed.

Section typing.
Context `{Platform}.
Variable store_policy : ArtifactStorePolicy.

Lemma kstep_modules_extend s s' : kstep store_policy s s' → modules_extend s s'.
Proof.
  rw /modules_extend. destruct 1; try done; simpl.
  - rw fmap_app. by apply prefix_app_r.
  - rw list_fmap_insert /= list_insert_id; [done|]. by rw list_lookup_fmap H0.
Qed.

(** An upstream binding whose source covers its target. *)
Definition binding_typed (s : State) (nodes : list AssemblyNode) (b : Binding) : Prop :=
  ∃ tn tc target sn sc source,
    (tn ∈ nodes ∧ an_id tn = b_to_node b ∧ first_provider s tn = Some tc ∧
     port (cap_inputs tc) (b_to_port b) = Some target) ∧
    (sn ∈ nodes ∧ an_id sn = b_from_node b ∧ first_provider s sn = Some sc ∧
     port (cap_outputs sc) (b_from_port b) = Some source) ∧
    trait_set_covers (port_traits source) (port_traits target) = true.
(** A committed output that carries the traits of its port. *)
Definition output_typed (s : State) (cap : Capability) (o : NamedArtifact) : Prop :=
  ∃ p r art, port (cap_outputs cap) (na_name o) = Some p ∧ na_artifact o = Some r ∧
    st_artifacts s !! ar_id r = Some art ∧ has_traits art (port_traits p) = true.
Definition slot_typed (s : State) (slot : RunSlot) : Prop :=
  ∀ a, run_assembly (rs_run slot) = Some a →
  Forall (λ b, b_input b = "" → binding_typed s (as_nodes a) b) (as_bindings a) ∧
  ∀ n d, rs_latest slot !! n = Some d →
    ∃ node cap, node ∈ as_nodes a ∧ an_id node = n ∧ first_provider s node = Some cap ∧
      Forall (output_typed s cap) (d_outputs d).
Definition typed_inv (s : State) : Prop := map_Forall (λ _, slot_typed s) (st_runs s).

Lemma slot_typed_extend s s' slot :
  modules_extend s s' → st_artifacts s ⊆ st_artifacts s' → slot_typed s slot → slot_typed s' slot.
Proof.
  intros Hm Ha Ht a Has. destruct (Ht a Has) as [Hb Hl]. split.
  - eapply Forall_impl; [done|]. intros b Hbt Hin.
    destruct (Hbt Hin) as (tn & tc & target & sn & sc & source & (? & ? & ? & ?) & (? & ? & ? & ?) & ?).
    exists tn, tc, target, sn, sc, source.
    split_and!; try done; by eapply first_provider_extend.
  - intros n d Hd. destruct (Hl n d Hd) as (node & cap & ? & ? & ? & Hout). exists node, cap.
    split_and!; try done; [by eapply first_provider_extend|]. eapply Forall_impl; [done|].
    intros o (p & r & art & ? & ? & ? & ?). exists p, r, art. split_and!; try done.
    by eapply lookup_weaken.
Qed.

Lemma fresh_slot_typed s id slot : fresh_slot s id slot → slot_typed s slot.
Proof.
  destruct 1 as [order a inputs ? ? ? ? ? Hvalid _ _ _ _ _].
  apply validate_assembly_spec in Hvalid. intros a' [= <-]. split; [|by intros n d; rw lookup_empty].
  eapply Forall_impl; [apply (ao_bindings _ _ _ Hvalid)|].
  intros b (target & (tn & tc & Htn & Hti & Htc & Ht) & [(Hne & _)|(_ & _ & source & Hs & Hcov)]) Hin;
    [done|]. destruct Hs as (sn & sc & Hsn & Hsi & Hsc & Hs).
  exists tn, tc, target, sn, sc, source. split_and!; try done; by apply capability_first.
Qed.
Lemma validate_outputs_typed s cap outputs :
  validate_outputs s cap outputs = Ok tt → Forall (output_typed s cap) outputs.
Proof.
  intros ([] & _ & Hout)%bind_ok. apply for_each_check in Hout.
  eapply Forall_impl; [done|]. simpl. intros o Ho. rw /check_output in Ho. inv_oks.
  eexists _, _, _. done.
Qed.
Lemma slot_step_latest s id slot slot' : slot_step s id slot slot' → rs_latest slot' = rs_latest slot.
Proof.
  destruct 1; rw ?reap_is_fail; try done; rw /fail_slot;
    match goal with |- context [if ?b then _ else _] => by destruct b end.
Qed.

Lemma kstep_typed_inv s s' : kstep store_policy s s' → runs_inv s ∧ typed_inv s → typed_inv s'.
Proof.
  intros Hs [Hruns Htyped]. pose proof (kstep_modules_extend _ _ Hs) as Hm.
  pose proof (ev_store _ _ (kstep_evolves _ _ _ Hs Hruns)) as Ha.
  assert (map_Forall (λ _, slot_typed s') (st_runs s)) as Hold.
  { intros id slot Hslot. eapply slot_typed_extend; [done..|]. by eapply Htyped. }
  destruct Hs; try done; simpl in *; apply map_Forall_insert_2; try done.
  - eapply slot_typed_extend; [exact Hm|exact Ha|]. by eapply fresh_slot_typed.
  - intros a Has. pose proof (Hold _ _ H0) as Hslot.
    destruct (slot_step_frame _ _ _ _ H2) as (_ & Heq & _). rw Heq in Has.
    rw (slot_step_latest _ _ _ _ H2). by apply Hslot.
  - destruct Hruns as [Hruns _]. pose proof (Hruns _ _ H0) as Hinv. simpl in Hinv.
    destruct (ri_assembly _ _ _ Hinv) as (a & t & Hf & Hcl & _).
    assert (wi_run_id (cs_work c) = rid) as Hrid.
    { destruct Hcl as [Hall _]. by apply (co_run _ _ _ _ _ (Hall _ _ H2)). }
    rw Hrid in H6. rw H0 in H6. injection H6 as <-. pose proof (Hold _ _ H0) as Hslot.
    assert (a = assembly) as -> by (pose proof (fi_assembly _ _ _ _ Hf); congruence).
    intros a Has. rw commit_slot_run /= in Has.
    destruct (commit_run_fields s (record_commit c derivation slot0)
      (commit_answer terminal (wi_node_id (cs_work c)) derivation)) as (_ & Heq & _).
    rw Heq /= H7 in Has. injection Has as <-. destruct (Hslot _ H7) as [Hb Hl].
    split; [done|]. rw commit_slot_run /=. intros n d. rw lookup_insert_Some.
    intros [[<- <-]|[_ Hd]]; [|by apply Hl].
    destruct Hcl as [Hall _]. destruct (co_node _ _ _ _ _ (Hall _ _ H2)) as (node & Hn & Heqn & _).
    exists node, cap. split_and!; [done|by rw -Heqn| |].
    + eapply first_provider_extend; [exact Hm|]. apply capability_first. by rw -Heqn.
    + apply validate_outputs_typed in H5. eapply Forall_impl; [done|].
      intros o (p & r & art & ? & ? & ? & ?). exists p, r, art. done.
Qed.
Lemma reachable_typed s : reachable store_policy s → runs_inv s ∧ typed_inv s.
Proof.
  apply (reachable_inv store_policy (λ s, runs_inv s ∧ typed_inv s)).
  - split; [apply runs_inv_empty|apply map_Forall_empty].
  - intros s1 s2 Hs Hinv. split; [eapply kstep_runs_inv; [done|apply Hinv]|by eapply kstep_typed_inv].
Qed.

(** C16: typed data flow.  In every reachable state, whatever was
    registered since the run started, the artifact an upstream binding
    delivers to a node is in the store and carries every trait the input
    port requires. *)
Theorem upstream_inputs_typed s id slot a node cap b r :
  reachable store_policy s → st_runs s !! id = Some slot → run_assembly (rs_run slot) = Some a →
  node ∈ as_nodes a → capability_for_node s node = Ok cap →
  b ∈ bindings_to a node → b_input b = "" → binding_artifact slot b = Some r →
  ∃ target art, port (cap_inputs cap) (b_to_port b) = Some target ∧
    st_artifacts s !! ar_id r = Some art ∧ has_traits art (port_traits target) = true.
Proof.
  intros [[Hruns _] Htyped]%reachable_typed Hs Ha Hn Hcap Hb Hin Hr.
  destruct (ri_assembly _ _ _ (Hruns _ _ Hs)) as (a' & t & Hf & _).
  assert (a' = a) as -> by (pose proof (fi_assembly _ _ _ _ Hf); congruence).
  pose proof (fi_nodes _ _ _ _ Hf) as Hnd. destruct (Htyped _ _ Hs a Ha) as [Hbt Hl].
  apply list_elem_of_filter in Hb as [Hto Hb]. rw Forall_forall in Hbt.
  destruct (Hbt _ Hb Hin) as (tn & tc & target & sn & sc & source & (Htn & Hti & Htp & Ht) &
    (Hsn & Hsi & Hsp & Hsrc) & Hcov).
  assert (∀ n1 n2, n1 ∈ as_nodes a → n2 ∈ as_nodes a → an_id n1 = an_id n2 → n1 = n2) as Huniq.
  { intros n1 n2 H1 H2. by apply (fmap_unique an_id (as_nodes a)). }
  assert (tn = node) as -> by (apply Huniq; congruence).
  apply capability_first in Hcap. assert (tc = cap) as -> by congruence.
  rw /binding_artifact (proj2 (str_is_empty_true _) Hin) /= in Hr.
  destruct (rs_latest slot !! b_from_node b) as [d|] eqn:Hd; simpl in Hr; [|done].
  destruct (list_find _ _) as [[i o]|] eqn:Ho; simpl in Hr; [|done].
  apply list_find_Some in Ho as (Hoi & Hon & _).
  destruct (Hl _ _ Hd) as (node' & cap' & Hn' & Hid' & Hcap' & Hout).
  assert (node' = sn) as -> by (apply Huniq; congruence).
  assert (cap' = sc) as -> by congruence. rw Forall_forall in Hout.
  destruct (Hout o) as (p & r' & art & Hp & Hr' & Hart & Htr); [by eapply list_elem_of_lookup_2|].
  assert (p = source) as -> by congruence. assert (r' = r) as -> by congruence.
  exists target, art. split_and!; [done|done|]. by eapply covers_has_traits.
Qed.
End typing.
