(* ===== verification/StoreTheorems.v ===== *)
(** * StoreTheorems: the properties of the store, the registry and the ledger

    Content addressing and round trips, immutability, the ledger chain and its tamper
    evidence, contracts, lifecycle and idempotent replay. *)
From S2P Require Import Prelude Wire Errors Hash Traits Policy State Registry Store Events Assembly.
From S2P Require Import AssemblySpec Work Runs Units Steps Kernel Invariant StoreInv Evolve NoPanic.
From S2P Require Import RunTheorems.
Local Open Scope Z_scope.

Section lemmas.
Context `{Platform}.
Variable store_policy : ArtifactStorePolicy.

Lemma reachable_store s : reachable store_policy s →
  blobs_inv store_policy s ∧ artifacts_inv store_policy s ∧ contracts_inv s ∧ ledger_inv s ∧ idem_inv s.
Proof.
  intros Hr. split_and!; revert s Hr; apply reachable_inv; try done; intros s s'.
  - apply kstep_blobs_inv.
  - apply kstep_artifacts_inv.
  - apply kstep_contracts_inv.
  - apply kstep_ledger_inv.
  - apply kstep_idem_inv.
Qed.

Lemma idempotent_put_get s op ctx v o s' :
  ctx_request_key ctx ≠ "" → idempotent_get s op ctx = None →
  idempotent_put op ctx v s = (o, s') → idempotent_get s' op ctx = Some v.
Proof.
  intros Hk. rw /idempotent_get /idempotent_put /idempotency_key.
  rw (proj2 (str_is_empty_false _) Hk) /=. intros Hn. rw /modify Hn. intros [= <- <-].
  by rw /= lookup_insert_eq.
Qed.
Lemma put_blob_stored s req ref s' :
  put_blob store_policy req s = (Ok ref, s') →
  ref = mkBlobRef (blob_id (pb_data req)) (u64 (len (pb_data req))) (pb_namespace req) ∧
  ∃ slot, st_blobs s' !! (pb_namespace req, blob_id (pb_data req)) = Some slot.
Proof.
  intros ([] & _ & Hc)%lift_ok_inv. apply lift_ok_inv in Hc as ([] & _ & Hc). cbv zeta in Hc.
  rw {1}/mbind /M_bind {1}/get in Hc. destruct (st_blobs s !! _) as [slot|] eqn:Hs.
  - injection Hc as <- <-. split; [done|]. by exists slot.
  - apply bind_ok_inv in Hc as ([] & s1 & [= <-] & [= <- <-]). split; [done|].
    eexists. apply lookup_insert_eq.
Qed.

(** ** Storing an artifact *)
Lemma put_artifact_inv s a ctx now r s' :
  idempotent_get s "put_artifact" ctx = None → put_artifact_ctx store_policy a ctx now s = (Ok r, s') →
  r = mkArtifactRef (artifact_id_of a) ∧
  st_artifacts s' = (if has_key (artifact_id_of a) (st_artifacts s) then st_artifacts s
    else <[artifact_id_of a := art_with_id (artifact_id_of a) a]> (st_artifacts s)) ∧
  (ctx_request_key ctx ≠ "" → idempotent_get s' "put_artifact" ctx = Some (IdemArtifactRef r)).
Proof.
  intros Hidem. rw /put_artifact_ctx.
  intros ([] & _ & Hc)%lift_ok_inv. apply lift_ok_inv in Hc as ([] & _ & Hc).
  rw {1}/mbind /M_bind {1}/get Hidem in Hc.
  apply lift_ok_inv in Hc as ([] & _ & Hc). cbv zeta in Hc.
  apply bind_ok_inv in Hc as ([] & s1 & Hput & Hc).
  apply bind_ok_inv in Hc as ([] & s2 & Hid & Hc). injection Hc as <- <-.
  assert (st_artifacts s1 = (if has_key (artifact_id_of a) (st_artifacts s) then st_artifacts s
      else <[artifact_id_of a := art_with_id (artifact_id_of a) a]> (st_artifacts s)) ∧
    st_idempotency s1 = st_idempotency s) as [Ha Hi].
  { destruct (has_key _ _); [by injection Hput as <-|].
    by apply bind_ok_inv in Hput as ([] & ? & [= <-] & [= <-]). }
  split; [done|]. split.
  - apply idempotent_put_frame in Hid as [_ [m ->]]. done.
  - intros Hk. eapply idempotent_put_get; [done| |exact Hid].
    revert Hidem. rw /idempotent_get. destruct (idempotency_key _ ctx); simpl; [|done]. by rw Hi.
Qed.
(** An artifact put is found later, whoever put it first. *)
Lemma put_artifact_stored s a ctx now r s' :
  idempotent_get s "put_artifact" ctx = None → put_artifact_ctx store_policy a ctx now s = (Ok r, s') →
  ar_id r = artifact_id_of a ∧ ar_id r ∈ dom (st_artifacts s').
Proof.
  intros Hi Hc. apply put_artifact_inv in Hc as (-> & Ha & _); [|done]. split; [done|]. rw Ha.
  destruct (has_key _ _) eqn:Hk; [by apply elem_of_dom, has_key_true|]. rw dom_insert /=. set_solver.
Qed.
End lemmas.

Section theorems.
Context `{Platform}.
Variable store_policy : ArtifactStorePolicy.

(** C18: content addressing.  In every reachable state a blob is stored under
    its namespace and the address of its bytes, with its true length, within
    the size limit; an artifact is stored under the address of its trait bag,
    carries that id, satisfies the store policy, and every external trait
    refers to a stored blob with matching address and length; a contract is
    stored under its ref with the digest of its content. *)
Theorem store_content_addressed s :
  reachable store_policy s →
  map_Forall (blob_ok store_policy) (st_blobs s) ∧
  map_Forall (artifact_ok store_policy s) (st_artifacts s) ∧
  map_Forall contract_ok (st_contracts s).
Proof. intros (? & ? & ? & _)%reachable_store. done. Qed.

(** C32: an artifact put can be read back for ever.  Unless [put_artifact]
    replayed an earlier answer, what it answered names, in every later state, an
    artifact with the address of what was put.  If nothing was stored at that
    address before, it is exactly the artifact that was put, with its id filled
    in; otherwise the first one put stays, whose canonical bytes are the same unless the
    digest collides, and whose trait contents are the same if moreover
    both bags are framed (inline, without the separator byte;
    [Findings.artifact_id_ambiguous] is two bags that are not).  Reading it changes
    nothing. *)
Theorem artifact_round_trip s a ctx now r s' s'' :
  reachable store_policy s → idempotent_get s "put_artifact" ctx = None →
  put_artifact_ctx store_policy a ctx now s = (Ok r, s') →
  later store_policy s' s'' →
  ∃ b, get_artifact r s'' = (Ok b, s'') ∧ art_id b = ar_id r ∧ artifact_id_of b = artifact_id_of a ∧
    (st_artifacts s !! artifact_id_of a = None → b = art_with_id (artifact_id_of a) a) ∧
    (∀ c, st_artifacts s !! artifact_id_of a = Some c → b = c) ∧
    (collision_free [artifact_canonical_bytes a; artifact_canonical_bytes b] →
     artifact_canonical_bytes b = artifact_canonical_bytes a ∧
     (bag_framed a → bag_framed b → bag_contents b = bag_contents a)).
Proof.
  intros Hr Hi Hc Hl.
  assert (reachable store_policy s') as Hr'.
  { eapply (reachable_exec (H0:=list_order) _ s now now (CPutArtifact a ctx)); [done|done|].
    by rw /exec /replying /mbind /M_bind Hc. }
  destruct (put_artifact_stored _ _ _ _ _ _ _ Hi Hc) as [Hid Hin].
  pose proof (ev_store _ _ (later_evolves _ _ _ Hr' Hl)) as Hsub.
  apply elem_of_dom in Hin as [b Hb]. apply (lookup_weaken _ _ _ _ Hb) in Hsub as Hb'.
  pose proof (later_reachable _ _ _ Hr' Hl) as Hr''.
  apply reachable_store in Hr'' as (_ & Hart & _). destruct (Hart _ _ Hb') as (Haddr & Haid & _ & _).
  apply put_artifact_inv in Hc as (_ & Harts & _); [|done]. rw Hid Harts /has_key in Hb.
  exists b. split_and!.
  - by rw /get_artifact /get /lift /mbind /M_bind Hb'.
  - done.
  - congruence.
  - intros Hn. rw Hn /= lookup_insert_eq in Hb. by injection Hb.
  - intros c Hs. rw Hs /= Hs in Hb. by injection Hb.
  - intros Hcf. assert (artifact_canonical_bytes b = artifact_canonical_bytes a) as Heq.
    { apply Hcf; [set_solver..|]. apply address_inj. rw -/(artifact_id_of a) -/(artifact_id_of b). congruence. }
    split; [done|]. intros Hfa Hfb. by apply artifact_canonical_bytes_inj.
Qed.

(** C33: a blob put can be read back for ever.  After [put_blob], in every
    later state [get_blob] of its address answers stored bytes with that
    address, the original ones unless the digest collides; and no [get_blob] of a
    reachable state ever reports corruption. *)
Theorem blob_round_trip s req ref s' s'' :
  reachable store_policy s → put_blob store_policy req s = (Ok ref, s') →
  later store_policy s' s'' →
  (∃ data, get_blob (mkGetBlob (br_digest ref) (br_namespace ref)) s'' =
      (Ok (mkBlobData (br_digest ref) (u64 (len data)) (br_namespace ref) data), s'') ∧
    blob_id data = blob_id (pb_data req) ∧
    (collision_free [data; pb_data req] → data = pb_data req)) ∧
  ∀ greq reason, (get_blob greq s'').1 ≠ Err (BlobIntegrity reason).
Proof.
  intros Hr Hc Hl.
  assert (reachable store_policy s') as Hr'.
  { eapply (reachable_exec (H0:=list_order) _ s 0 0 (CPutBlob req default_context)); [done|done|].
    by rw /exec /replying /mbind /M_bind Hc. }
  pose proof (later_reachable _ _ _ Hr' Hl) as Hr''.
  apply reachable_store in Hr'' as (Hblobs & _).
  assert (∀ greq slot, st_blobs s'' !! (gb_namespace greq, gb_digest greq) = Some slot →
    get_blob greq s'' = (Ok (mkBlobData (gb_digest greq) (u64 (len (bs_data slot))) (gb_namespace greq)
      (bs_data slot)), s'') ∧ gb_digest greq = blob_id (bs_data slot)) as Hget.
  { intros greq slot Hs. destruct (Hblobs _ _ Hs) as (Hd & Href & _). simpl in *. split; [|done].
    rw /get_blob /get /mbind /M_bind /lift Hs /= Href /= -Hd Z.eqb_refl.
    by rw (proj2 (str_eqb_true _ _) eq_refl). }
  split.
  - destruct (put_blob_stored _ _ _ _ _ Hc) as (-> & slot & Hs). simpl.
    apply (lookup_weaken _ (st_blobs s'')) in Hs; [|by apply (ev_blobs _ _ (later_evolves _ _ _ Hr' Hl))].
    destruct (Hget (mkGetBlob (blob_id (pb_data req)) (pb_namespace req)) slot Hs) as [Hg Hd].
    exists (bs_data slot). split_and!; [done|done|]. intros Hcf. apply Hcf; [set_solver..|].
    by apply address_inj.
  - intros greq reason. destruct (st_blobs s'' !! (gb_namespace greq, gb_digest greq)) as [slot|] eqn:Hs.
    + by destruct (Hget _ _ Hs) as [-> _].
    + by rw /get_blob /get /mbind /M_bind /lift Hs.
Qed.

(** C19: the ledger is a verified hash chain in every reachable state. *)
Theorem ledger_verifies s :
  reachable store_policy s → verify_ledger s = (Ok true, s).
Proof. intros (_ & _ & _ & Hl & _)%reachable_store. by rw /verify_ledger /get /mbind /M_bind Hl. Qed.

(** C20: nothing recorded is ever rewritten.  Between a reachable state and
    any later one the ledger and the derivations grow at the end, artifacts,
    blobs and cached results stay, a contract changes only when it was a
    placeholder, a module keeps its manifest and moves forward, and a run
    keeps its assembly, limits and done units. *)
Theorem history_append_only s s' :
  reachable store_policy s → later store_policy s s' →
  st_ledger s `prefix_of` st_ledger s' ∧ st_derivations s `prefix_of` st_derivations s' ∧
  st_artifacts s ⊆ st_artifacts s' ∧ st_blobs s ⊆ st_blobs s' ∧
  st_idempotency s ⊆ st_idempotency s' ∧
  (∀ r c, st_contracts s !! r = Some c → is_contract_placeholder c = false →
     st_contracts s' !! r = Some c) ∧
  (∀ i m, st_modules s !! i = Some m → ∃ m', st_modules s' !! i = Some m' ∧ module_evolves m m') ∧
  (∀ id slot, st_runs s !! id = Some slot →
     ∃ slot', st_runs s' !! id = Some slot' ∧ slot_evolves slot slot').
Proof.
  intros Hr Hl. destruct (later_evolves _ _ _ Hr Hl).
  split_and!; try done. intros r c Hc Hp. destruct (ev_contracts _ _ Hc) as (c' & Hc' & [->|Hp']); [done|].
  congruence.
Qed.

(** C31: tamper evidence of framed chains.  Two verified chains with the same last
    hash, in which no kind or subject contains the separator byte, are
    the same chain, entry by entry, unless the digest collides on their
    entries.  (The fields are separated, not delimited by length: with the byte in a
    subject, [Findings.ledger_hash_ambiguous], two entries have one hash.) *)
Theorem chain_tamper_evident es1 es2 :
  Forall entry_well_framed es1 → Forall entry_well_framed es2 →
  collision_free (ledger_message <$> es1 ++ es2) →
  verify_chain es1 = true → verify_chain es2 = true →
  last_hash "" es1 = last_hash "" es2 → es1 = es2.
Proof. apply chain_unique. Qed.

(** C37: the artifact id is faithful.  Two artifacts get the same id iff
    their trait bags have the same keys with the same contents, unless the
    digest collides (keys and contents must not contain the separator
    byte); metadata and an id already present play no part. *)
Theorem artifact_id_faithful a b :
  bag_framed a → bag_framed b →
  collision_free [artifact_canonical_bytes a; artifact_canonical_bytes b] →
  artifact_id_of a = artifact_id_of b ↔ bag_contents a = bag_contents b.
Proof.
  intros Ha Hb Hcf. split; [|apply artifact_id_of_contents]. intros Heq%address_inj.
  apply artifact_canonical_bytes_inj; [done..|]. apply Hcf; [set_solver..|done].
Qed.

(** The contract digest is faithful: it pins media type, schema,
    version and the set-like list of compatible refs, in any order. *)
Theorem contract_digest_faithful c d :
  let fields c := con_media_type c :: con_schema c :: con_version c :: sort_strings (con_compatible_with c) in
  Forall str_nul_free (fields c) → Forall str_nul_free (fields d) →
  collision_free [contract_bytes (con_media_type c) (con_schema c) (con_version c)
                    (sort_strings (con_compatible_with c));
                  contract_bytes (con_media_type d) (con_schema d) (con_version d)
                    (sort_strings (con_compatible_with d))] →
  contract_digest_of c = contract_digest_of d ↔ fields c = fields d.
Proof.
  intros fields Hc Hd Hcf. rw /contract_digest_of /contract_digest. split.
  - intros Heq%address_inj. apply Hcf in Heq; [|set_solver..].
    apply contract_bytes_inj in Heq as (H1 & H2 & H3 & H4); [|done..]. by rw /fields H1 H2 H3 H4.
  - by intros [= -> -> -> ->].
Qed.

(** *** Contracts *)
Definition normalized_contract (c : Contract) : Contract :=
  mkContract (con_ref c) (con_schema c) (con_media_type c) (con_version c) (contract_digest_of c)
    (sort_strings (con_compatible_with c)).

(** C38: [put_contract] on every branch.  A contract without a ref or with
    a wrong digest is invalid; an identical re-put answers what is stored;
    an unknown ref, or a placeholder against real content, is written with
    its digest and one ledger entry; anything else conflicts; only the
    writing branch changes the state. *)
Theorem put_contract_spec c s :
  put_contract c s =
  let n := normalized_contract c in
  let written := (Ok n,
    set_ledger (st_ledger s ++ [next_entry (st_ledger s) "contract.registered" (con_ref c)
                                  (encode_Contract n)])
      (set_contracts (<[con_ref c := n]> (st_contracts s)) s)) in
  if decide (con_ref c = "") then (Err (Invalid "contract ref is required"), s)
  else if decide (con_digest c ≠ "" ∧ con_digest c ≠ contract_digest_of c)
  then (Err (Invalid "contract digest mismatch"), s)
  else match st_contracts s !! con_ref c with
       | None => written
       | Some e =>
           if decide (con_digest e = contract_digest_of c) then (Ok e, s)
           else if is_contract_placeholder e && negb (is_contract_placeholder n) then written
           else (Err (Conflict ("contract " +:+ con_ref c +:+
                                " already registered with different content")), s)
       end.
Proof.
  rw /put_contract. cbv zeta.
  change (contract_digest (con_media_type c) (con_schema c) (con_version c)
    (sort_strings (con_compatible_with c))) with (contract_digest_of c).
  destruct (decide (con_ref c = "")) as [Href|Href].
  { by rw (proj2 (str_is_empty_true _) Href). }
  rw (proj2 (str_is_empty_false _) Href).
  destruct (decide (con_digest c ≠ "" ∧ con_digest c ≠ contract_digest_of c)) as [[Hd1 Hd2]|Hd].
  { by rw (proj2 (str_is_empty_false _) Hd1) (proj2 (str_eqb_false _ _) Hd2). }
  assert (negb (str_is_empty (con_digest c)) && negb (str_eqb (con_digest c) (contract_digest_of c)) = false)
    as Hguard.
  { apply andb_false_iff. rw !negb_false_iff str_is_empty_true str_eqb_true.
    destruct (decide (con_digest c = "")); [by left|right].
    destruct (decide (con_digest c = contract_digest_of c)); [done|]. by destruct Hd. }
  rw Hguard /mbind /M_bind /lift /get /=.
  destruct (st_contracts s !! con_ref c) as [e|]; [|done].
  destruct (decide (con_digest e = contract_digest_of c)) as [He|He].
  { by rw (proj2 (str_eqb_true _ _) He). }
  rw (proj2 (str_eqb_false _ _) He).
  change (mkContract _ _ _ _ _ _) with (normalized_contract c).
  by destruct (is_contract_placeholder e && negb (is_contract_placeholder (normalized_contract c))).
Qed.

(** C39: [transition] moves a registered module exactly one step forward or
    not at all, records a step in the ledger, and answers where the module
    is now; an unknown module is not found. *)
Theorem transition_spec req ctx now s :
  check_deadline ctx now = Ok tt →
  transition_req req ctx now s =
  match find_module (st_modules s) (treq_module req) with
  | None => (Err (NotFound (treq_module req)), s)
  | Some (i, m) =>
      let to := default LcUnspecified (Lifecycle_try_from (treq_to req)) in
      if decide (Lifecycle_i32 to = Lifecycle_i32 (ms_lifecycle m) + 1)
      then (Ok (mkTransitionAck (Lifecycle_i32 to)),
            set_ledger (st_ledger s ++
                [next_entry (st_ledger s) ("module." +:+ lifecycle_verb to) (treq_module req) []])
              (set_modules (<[i := mkModuleSlot (ms_manifest m) to]> (st_modules s)) s))
      else (Ok (mkTransitionAck (Lifecycle_i32 (ms_lifecycle m))), s)
  end.
Proof.
  intros Hd. rw /transition_req /mbind /M_bind /lift Hd /get /=.
  destruct (find_module (st_modules s) (treq_module req)) as [[i m]|] eqn:Hf; simpl; [|done].
  set to := default LcUnspecified _.
  destruct (decide (Lifecycle_i32 to = Lifecycle_i32 (ms_lifecycle m) + 1)) as [Hs|Hs].
  - rw (proj2 (Z.eqb_eq _ _) Hs) /=. by rw (find_module_insert _ _ _ _ _ Hf).
  - rw (proj2 (Z.eqb_neq _ _) Hs) /=. by rw Hf.
Qed.

(** *** Idempotent replay *)
Lemma replay_later s s' op ctx v :
  reachable store_policy s → later store_policy s s' →
  idempotent_get s op ctx = Some v → idempotent_get s' op ctx = Some v.
Proof.
  intros Hr Hl. pose proof (ev_idempotency _ _ (later_evolves _ _ _ Hr Hl)) as Hsub.
  rw /idempotent_get. destruct (idempotency_key op ctx) as [key|]; simpl; [|done].
  intros Hv. by eapply lookup_weaken.
Qed.

(** A fresh success of a run operation ends by caching its result. *)
Lemma cached_get s sx s' op ctx r :
  ctx_request_key ctx ≠ "" → idempotent_get s op ctx = None → st_idempotency sx = st_idempotency s →
  idempotent_put op ctx (IdemRun r) sx = (Ok tt, s') → idempotent_get s' op ctx = Some (IdemRun r).
Proof.
  intros Hk Hn Hi. eapply idempotent_put_get; [done|]. revert Hn. rw /idempotent_get.
  destruct (idempotency_key op ctx); simpl; [by rw Hi|done].
Qed.
Lemma start_run_caches `{HashOrder} s req ctx now r s' :
  idempotent_get s "start_run" ctx = None → ctx_request_key ctx ≠ "" →
  start_run_ctx req ctx now s = (Ok r, s') → idempotent_get s' "start_run" ctx = Some (IdemRun r).
Proof.
  intros Hn Hk. rw /start_run_ctx. intros ([] & _ & Hc)%lift_ok_inv.
  rw {1}/mbind /M_bind {1}/get Hn in Hc.
  do 6 (apply lift_ok_inv in Hc as (? & _ & Hc); cbv zeta in Hc).
  apply bind_ok_inv in Hc as ([] & s1 & [= <-] & Hc).
  apply bind_ok_inv in Hc as (e & s2 & [= _ <-] & Hc).
  apply bind_ok_inv in Hc as ([] & s3 & Hput & [= <- <-]).
  by eapply (cached_get s); [..|exact Hput].
Qed.
Lemma commit_caches `{HashOrder} s sub ctx t0 now r s' :
  idempotent_get s "commit" ctx = None → ctx_request_key ctx ≠ "" →
  commit_ctx sub ctx t0 now s = (Ok r, s') → idempotent_get s' "commit" ctx = Some (IdemRun r).
Proof.
  intros Hn Hk. rw /commit_ctx. intros ([] & _ & Hc)%lift_ok_inv.
  rw {1}/mbind /M_bind {1}/get Hn in Hc.
  apply bind_ok_inv in Hc as (slot & s0 & (-> & _ & _)%running_slot_ok & Hc).
  apply bind_ok_inv in Hc as ([] & s1 & Hreap & Hc).
  apply reap_expired_frame in Hreap as (_ & _ & Hi).
  apply bind_ok_inv in Hc as (? & ? & [= <- <-] & Hc).
  do 2 (apply lift_ok_inv in Hc as (? & _ & Hc); cbv zeta in Hc).
  do 7 (apply lift_ok_inv in Hc as (? & _ & Hc); cbv zeta in Hc).
  apply bind_ok_inv in Hc as ([] & s2 & [= <-] & Hc).
  apply bind_ok_inv in Hc as (e1 & s3 & [= _ <-] & Hc).
  apply bind_ok_inv in Hc as (e2 & s4 & [= _ <-] & Hc).
  apply bind_ok_inv in Hc as ([] & s5 & Hput & [= <- <-]).
  by eapply (cached_get s); [..|exact Hput].
Qed.
(** A result in the cache of an operation has the type of the operation. *)
Lemma idem_get_cases s op ctx :
  reachable store_policy s →
  (idempotent_get s "put_artifact" ctx = None ∨
   ∃ r, idempotent_get s "put_artifact" ctx = Some (IdemArtifactRef r)) ∧
  (op = "start_run" ∨ op = "commit" →
   idempotent_get s op ctx = None ∨ ∃ r, idempotent_get s op ctx = Some (IdemRun r)).
Proof.
  intros (_ & _ & _ & _ & Hinv)%reachable_store. split.
  - destruct (idempotent_get s "put_artifact" ctx) as [[r|r]|] eqn:Hv; [right; by eexists| |by left].
    pose proof (idem_inv_get s _ ctx (IdemArtifactRef (mkArtifactRef "")) _ Hinv eq_refl Hv) as Hop.
    by destruct Hop.
  - intros Hop. destruct (idempotent_get s op ctx) as [[r|r]|] eqn:Hv; [|right; by eexists|by left].
    pose proof (idem_inv_get s op ctx (IdemRun (rs_run (started_slot (mkRunRequest "" None [] None [] None)
      (mkAssembly "" [] [] None)))) _ Hinv Hop Hv) as Hop'. simpl in Hop'. subst op. by destruct Hop.
Qed.

(** C21: idempotent replay.  Once [put_artifact], [start_run] or [commit]
    succeeded under a request key, every later call of that operation by the same
    caller with that key and within its own deadline, whatever its correlation and
    whatever the new request says, gets the same
    answer for ever, and nothing changes: no second
    run, derivation or ledger entry.  Only an artifact that is not valid is refused
    first, as it would have been without the key. *)
Theorem idempotent_replay `{HashOrder} s s' s'' ctx ctx' t t' now now' :
  reachable store_policy s → later store_policy s' s'' → ctx_request_key ctx ≠ "" →
  ctx_request_key ctx' = ctx_request_key ctx → ctx_caller ctx' = ctx_caller ctx →
  check_deadline ctx' t' = Ok tt →
  (∀ a a' r, put_artifact_ctx store_policy a ctx t s = (Ok r, s') →
     put_artifact_ctx store_policy a' ctx' t' s'' =
       (match validate_artifact_content a' store_policy with
        | Ok _ => Ok r
        | Err e => Err e
        | Panic => Panic
        end, s'')) ∧
  (∀ req req' r, run_request_ok req → start_run_ctx req ctx t s = (Ok r, s') →
     start_run_ctx req' ctx' t' s'' = (Ok r, s'')) ∧
  (∀ d d' r, commit_ctx d ctx t now s = (Ok r, s') → commit_ctx d' ctx' t' now' s'' = (Ok r, s'')).
Proof.
  intros Hr Hl Hk Hk' Hcaller Hd. destruct (idem_get_cases s "commit" ctx Hr) as [Hart Hcom].
  destruct (idem_get_cases s "start_run" ctx Hr) as [_ Hsta].
  assert (∀ op v, reachable store_policy s' → idempotent_get s' op ctx = Some v →
    idempotent_get s'' op ctx' = Some v) as Hlater.
  { intros op v Hr' Hg. apply (replay_later _ _ _ _ _ Hr' Hl) in Hg.
    by rw /idempotent_get /idempotency_key Hk' Hcaller. }
  split_and!.
  - intros a a' r Hp.
    assert (reachable store_policy s') as Hr'.
    { eapply (reachable_exec _ s t t (CPutArtifact a ctx)); [done|done|]. by rw /exec /replying /mbind /M_bind Hp. }
    assert (idempotent_get s' "put_artifact" ctx = Some (IdemArtifactRef r)) as Hg.
    { destruct Hart as [Hn|[r0 Hs]].
      - by apply (put_artifact_inv store_policy) in Hp as (_ & _ & Hg); [apply Hg|].
      - rw /put_artifact_ctx in Hp. apply lift_ok_inv in Hp as ([] & _ & Hp).
        apply lift_ok_inv in Hp as ([] & _ & Hp). rw {1}/mbind /M_bind {1}/get Hs in Hp.
        by injection Hp as <- <-. }
    apply (Hlater _ _ Hr') in Hg.
    rw /put_artifact_ctx. eapply run_lift; [done|]. rw lift_bind.
    destruct (validate_artifact_content a' store_policy); [|done..]. apply run_get. by rw Hg.
  - intros req req' r Hok Hp.
    assert (reachable store_policy s') as Hr'.
    { eapply (reachable_exec _ s t t (CStartRun req ctx)); [done|done|]. by rw /exec /replying /mbind /M_bind Hp. }
    assert (idempotent_get s' "start_run" ctx = Some (IdemRun r)) as Hg.
    { destruct Hsta as [Hn|[r0 Hs]]; [by left|by eapply start_run_caches|].
      rw /start_run_ctx in Hp. apply lift_ok_inv in Hp as ([] & _ & Hp).
      rw {1}/mbind /M_bind {1}/get Hs in Hp. by injection Hp as <- <-. }
    apply (Hlater _ _ Hr') in Hg. rw /start_run_ctx. eapply run_lift; [done|]. apply run_get. by rw Hg.
  - intros d d' r Hp.
    assert (reachable store_policy s') as Hr'.
    { eapply (reachable_exec _ s t now (CCommit d ctx)); [done|done|]. by rw /exec /replying /mbind /M_bind Hp. }
    assert (idempotent_get s' "commit" ctx = Some (IdemRun r)) as Hg.
    { destruct Hcom as [Hn|[r0 Hs]]; [by right|by eapply commit_caches|].
      rw /commit_ctx in Hp. apply lift_ok_inv in Hp as ([] & _ & Hp).
      rw {1}/mbind /M_bind {1}/get Hs in Hp. by injection Hp as <- <-. }
    apply (Hlater _ _ Hr') in Hg. rw /commit_ctx. eapply run_lift; [done|]. apply run_get. by rw Hg.
Qed.
End theorems.
