(* ===== verification/DataTheorems.v ===== *)
(** * DataTheorems: the properties of assemblies, events, policy and trait bags *)
From S2P Require Import Prelude Wire Errors Hash Traits Policy State Registry Store Events Assembly.
From S2P Require Import AssemblySpec Work Runs Units Steps Kernel Invariant EventSpec RunTheorems.
Local Open Scope Z_scope.

(** Normalising twice changes nothing. *)
Lemma normalize_idem p q : normalize_store_policy p = Ok q → normalize_store_policy q = Ok q.
Proof.
  intros Hp. destruct (normalize_store_policy_spec p q Hp) as (Hi & Hb & Hm & Hd).
  assert (sp_max_inline_bytes q ≠ 0) as Hne.
  { rw Hi. by destruct (Z.eqb_spec (sp_max_inline_bytes p) 0). }
  rw /normalize_store_policy Hm (proj2 (Z.eqb_neq _ _) Hne) /=. destruct q as [i b m d]; simpl in *.
  subst m. by destruct Hd as [-> | ->].
Qed.

Section theorems.
Context `{Platform}.
Variable store_policy : ArtifactStorePolicy.

(** C34: publishing.  An event gets the next sequence number, goes to
    exactly the channels whose subscriber named its topic and that have room and a
    receiver, no other channel changes, exactly the matching subscribers that could
    not take it are shed, and the event is recorded in the ledger. *)
Theorem publish_delivers s e :
  reachable store_policy s →
  let seq := u64 (st_event_seq s + 1) in
  let event := event_with_seq seq e in
  ∃ s', publish e s = (Ok (mkPublishAck seq), s') ∧ st_event_seq s' = seq ∧
    st_subs s' = kept_subs (st_chans s) event (st_subs s) ∧
    (∀ i, st_chans s' !! i =
       if addressed (st_subs s) event i then delivered event <$> (st_chans s !! i)
       else st_chans s !! i) ∧
    st_ledger s' = st_ledger s ++
      [next_entry (st_ledger s) "event.published" (ev_topic e) (encode_Event event)].
Proof.
  intros Hr seq event.
  assert (bus_inv s) as Hbus.
  { revert s Hr seq event. intros s Hr _ _. revert s Hr.
    apply reachable_inv; [|apply kstep_bus_inv]. constructor; simpl; [constructor|done..|].
    intros _. split; [by rw /len /=|constructor]. }
  destruct (deliver_spec event (st_subs s) (st_chans s) (bi_nodup _ Hbus)) as (Hk & _ & Hi).
  destruct (deliver event (st_subs s) (st_chans s)) as [subs chans] eqn:Hd. simpl in *.
  eexists. rw /publish /modify /get /put /mbind /M_bind /=. fold seq event. rw Hd.
  split; [reflexivity|]. simpl. split_and!; [done|done|exact Hi|done].
Qed.

(** C35: event order.  While the ledger is shorter than 2^64 entries, every
    receiver's queue holds at most [SUBSCRIBER_BUFFER] events in strictly
    increasing sequence order, none beyond the kernel's counter, and no two
    live subscriptions share a channel. *)
Theorem event_order s :
  reachable store_policy s →
  NoDup (s_tx <$> st_subs s) ∧
  Forall (λ c, len (ch_queue c) ≤ SUBSCRIBER_BUFFER) (st_chans s) ∧
  (len (st_ledger s) < 2^64 → Forall (ordered_upto (st_event_seq s)) (st_chans s)).
Proof.
  intros Hr. assert (bus_inv s) as [H1 _ H3 H4].
  { revert s Hr. apply reachable_inv; [|apply kstep_bus_inv]. constructor; simpl; [constructor|done..|].
    intros _. split; [by rw /len /=|constructor]. }
  split_and!; [done|done|]. intros Hl. by apply H4.
Qed.

(** C13: assembly validation.  The validator accepts exactly the assemblies
    that are well formed for the registry and the inputs: distinct nodes
    with typed ports, a scalar terminal, every binding from one compatible
    source, required and single ports bound as declared, and no cycle.  It
    decides this in any iteration order and never panics. *)
Theorem validate_assembly_correct `{HashOrder} s a inputs :
  (validate_assembly s a inputs = Ok tt ↔ assembly_ok s a inputs) ∧
  validate_assembly s a inputs ≠ Panic.
Proof. split; [apply validate_assembly_spec|apply validate_assembly_no_panic]. Qed.

(** C36: the depth-first search decides acyclicity of any graph on the
    given nodes: with more fuel than nodes it accepts iff no root reaches a
    cycle of the edges, and otherwise reports one. *)
Theorem cycle_check_correct edges (nodes : gset string) fuel roots :
  (∀ x y, y ∈ successors edges x → y ∈ nodes) → Forall (λ x, x ∈ nodes) roots →
  (size nodes < fuel)%nat → (∀ x y, y ∈ successors edges x → x ∈ roots) →
  (check_acyclic fuel edges roots ∅ ∅ = Ok tt ↔ ∀ x, ¬ tc (λ x y, y ∈ successors edges x) x x) ∧
  check_acyclic fuel edges roots ∅ ∅ ≠ Panic.
Proof.
  intros Hcl Hroots Hf Hr.
  destruct (check_acyclic_spec edges nodes Hcl fuel roots ∅ Hroots Hf) as [[-> Hacc]|[-> [x Hx]]].
  - by intros x Hx%not_elem_of_empty.
  - split; [|done]. split; [intros _ x Hx|done].
    apply (acc_no_cycle edges x); [|done]. apply Hacc.
    eapply (tc_in_range _ (λ x, x ∈ roots)); [|done]. apply Hr.
  - split; [|done]. split; [done|]. intros Hac. by destruct (Hac x).
Qed.

(** restricting an assembly.  [include_nodes] must name distinct known
    nodes and keep the terminal; then exactly the named nodes stay, with
    the bindings into them from the run's inputs or from a kept node; an empty list keeps the whole. *)
Theorem materialize_restricts `{HashOrder} a include a' :
  materialize_assembly a include = Ok a' ↔
  (include = [] ∧ a' = a) ∨ (include ≠ [] ∧ include_ok a include ∧ a' = restricted a include).
Proof. apply materialize_spec. Qed.

(** C40: the store law on artifacts.  Under a normalised policy an artifact
    is accepted iff it has a trait and every trait is named, single-valued,
    within the inline limit, and refers to a well-formed digest when external. *)
Theorem artifact_law a policy :
  0 ≤ sp_max_inline_bytes policy →
  validate_artifact_content a policy = Ok tt ↔
  art_traits a ≠ ∅ ∧ map_Forall (trait_acceptable (sp_max_inline_bytes policy)) (art_traits a).
Proof. apply validate_artifact_content_ok. Qed.

(** policy normalisation is total and idempotent, fills the inline
    limit, keeps the blob limit, and always freezes COPY_VERIFY and a
    known durability. *)
Theorem normalize_policy_correct p :
  ∃ q, normalize_store_policy p = Ok q ∧ normalize_store_policy q = Ok q ∧
    sp_max_inline_bytes q = (if sp_max_inline_bytes p =? 0 then MAX_INLINE_ARTIFACT_BYTES
                             else sp_max_inline_bytes p) ∧
    sp_max_blob_bytes q = sp_max_blob_bytes p ∧
    sp_ingest_mode q = BlobIngestMode_i32 BimCopyVerify ∧
    (sp_durability q = StoreDurability_i32 SdEphemeral ∨
     sp_durability q = StoreDurability_i32 SdDurable).
Proof.
  destruct (normalize_store_policy_total p) as [q Hq]. exists q.
  split; [done|]. split; [by eapply normalize_idem|]. by apply normalize_store_policy_spec.
Qed.

(** projecting and merging trait bags.  A projection exists iff the
    artifact has every trait asked for, and holds exactly those, unchanged;
    merging takes the traits of [add] and the others of [base]; merging a
    projection of an artifact back into it leaves the content address. *)
Theorem project_merge base add contracts p :
  (is_ok (project_traits base contracts) = has_traits base contracts) ∧
  (project_traits base contracts = Ok p →
     (∀ k, get_trait p k = if decide (k ∈ contracts) then get_trait base k else None) ∧
     artifact_id_of (merge_traits base p) = artifact_id_of base) ∧
  (∀ k, get_trait (merge_traits base add) k =
     match get_trait add k with Some f => Some f | None => get_trait base k end).
Proof.
  assert (∀ b, ∀ k, get_trait (merge_traits base b) k =
    match get_trait b k with Some f => Some f | None => get_trait base k end) as Hm.
  { intros b k. rw /get_trait merge_traits_union lookup_union.
    by destruct (art_traits b !! k), (art_traits base !! k). }
  split_and!; [| |apply Hm].
  - destruct (has_traits base contracts) eqn:Ht; [by apply project_traits_total|].
    destruct (project_traits base contracts) eqn:Hp; [|done..].
    apply project_traits_ok in Hp as [? _]. congruence.
  - intros [_ Hp]%project_traits_ok. split; [done|].
    apply artifact_id_of_contents. rw /bag_contents. f_equal. apply map_eq. intros k.
    pose proof (Hm p k) as Hk. rw Hp in Hk. rw /get_trait in Hk. rw Hk.
    case_decide; by destruct (art_traits base !! k).
Qed.

(** Reaping does not depend on the hash map's order: the slot it
    leaves is the same, and the ledger gets the same entries in some order. *)
Theorem reap_order_independent (o1 o2 : HashOrder) slot run now :
  @reaped o1 slot now = @reaped o2 slot now ∧
  mjoin (reap_events run (rs_max_attempts slot) <$> @expired_claims o1 slot now) ≡ₚ
  mjoin (reap_events run (rs_max_attempts slot) <$> @expired_claims o2 slot now).
Proof.
  split.
  - destruct (@reaped_rest o1 slot now) as (A1 & A2 & A3 & A4 & A5 & A6 & A7 & A8).
    destruct (@reaped_rest o2 slot now) as (B1 & B2 & B3 & B4 & B5 & B6 & B7 & B8).
    assert (rs_claimed (@reaped o1 slot now) = rs_claimed (@reaped o2 slot now)) as Hc.
    { apply map_eq. intros wid. by rw !reaped_lookup. }
    assert (rs_done_units (@reaped o1 slot now) = rs_done_units (@reaped o2 slot now)) as Hd.
    { apply set_eq. intros key. by rw !elem_of_reaped_done. }
    destruct (@reaped o1 slot now), (@reaped o2 slot now). simpl in *. congruence.
  - apply join_Permutation, fmap_Permutation, filter_Permutation.
    etrans; [apply hm_iter_perm|symmetry; apply hm_iter_perm].
Qed.
End theorems.
