(* ===== verification/FwErrors.v ===== *)
(** * FwErrors: the failures of the framework

    [FrameworkError] of [src/framework/sdk/rust/src/lib.rs], its messages, and
    the conversion from kernel errors. *)
From S2P Require Import Prelude Wire Errors.
Local Open Scope Z_scope.

Inductive FrameworkError :=
  | FwKernel (e : KernelError)
  | NoPlugin (module : string)
  | FwInvalid (reason : string)
  | StepFailed (reason : string).

Abbreviation FResult := (outcome FrameworkError).

Definition FrameworkError_display (e : FrameworkError) : string :=
  match e with
  | FwKernel e => "kernel: " +:+ KernelError_display e
  | NoPlugin m => "no plugin registered for module " +:+ m
  | FwInvalid r => "invalid: " +:+ r
  | StepFailed r => "step failed: " +:+ r
  end.

(** The [?] of the framework on a kernel result. *)
Definition from_kernel {A} (r : outcome KernelError A) : FResult A :=
  match r with
  | Ok a => Ok a
  | Err e => Err (FwKernel e)
  | Panic => Panic
  end.
