(* ===== verification/Presentation.v ===== *)
(** * Presentation: what a step shows while it runs

    [src/framework/sdk/rust/src/presentation.rs]: the stages, the presentation
    record with its builders, and the legacy views mapped into it.  An [f64]
    is the 64 bits of its IEEE representation: the code stores and copies
    floats, and writes one constant. *)
From S2P Require Import Prelude Wire.
Local Open Scope Z_scope.

Definition f64 : Type := Z.
Definition f64_one : f64 := 0x3FF0000000000000.

Definition CONTRACT_STEP_INIT : string := "srcport.ui.v1.StepInit".
Definition CONTRACT_STEP_PROGRESS : string := "srcport.ui.v1.StepProgress".
Definition CONTRACT_STEP_FINAL : string := "srcport.ui.v1.StepFinal".
Definition CONTRACT_STEP_SKIPPED : string := "srcport.ui.v1.StepSkipped".
Definition CONTRACT_STEP_CACHED : string := "srcport.ui.v1.StepCached".
Definition CONTRACT_PROCESSING_VIEW : string := "srcport.ui.v1.ProcessingView".
Definition CONTRACT_RESULT_VIEW : string := "srcport.ui.v1.ResultView".

Inductive StepStage := StInit | StProgress | StFinal | StSkipped | StCached.
#[export] Instance StepStage_eq_dec : EqDecision StepStage.
Proof. solve_decision. Defined.

Definition contract_ref (stage : StepStage) : string :=
  match stage with
  | StInit => CONTRACT_STEP_INIT
  | StProgress => CONTRACT_STEP_PROGRESS
  | StFinal => CONTRACT_STEP_FINAL
  | StSkipped => CONTRACT_STEP_SKIPPED
  | StCached => CONTRACT_STEP_CACHED
  end.

Inductive PresentationStatus := PsPending | PsRunning | PsBlocked | PsOk | PsEmpty | PsFailed.
#[export] Instance PresentationStatus_eq_dec : EqDecision PresentationStatus.
Proof. solve_decision. Defined.

Record Presentation := mkPresentation {
  p_stage : StepStage; p_title : string; p_status : PresentationStatus;
  p_detail : option string; p_progress : option f64;
  p_run_id : string; p_work_id : string; p_node_id : string; p_module : string;
  p_capability : string; p_phase : option string;
  p_highlight_ports : list string; p_output_ports : list string;
  p_meta : gmap string string }.

(** [Presentation::default()] *)
Definition presentation_default : Presentation :=
  mkPresentation StProgress "" PsRunning None None "" "" "" "" "" None [] [] ∅.

(** The builders: [stage], [title], [status], [detail] and [progress] over the
    default. *)
Definition presentation_of (stage : StepStage) (title : string) (status : PresentationStatus)
    (detail : option string) (progress : option f64) : Presentation :=
  let d := presentation_default in
  mkPresentation stage title status detail progress (p_run_id d) (p_work_id d) (p_node_id d)
    (p_module d) (p_capability d) (p_phase d) (p_highlight_ports d) (p_output_ports d) (p_meta d).
Definition presentation_init (title : string) : Presentation :=
  presentation_of StInit title PsRunning None None.
Definition presentation_progress (title : string) (fraction : option f64) : Presentation :=
  presentation_of StProgress title PsRunning None fraction.
Definition presentation_final_ok (title : string) : Presentation :=
  presentation_of StFinal title PsOk None (Some f64_one).
Definition presentation_final_failed (title detail : string) : Presentation :=
  presentation_of StFinal title PsFailed (Some detail) None.
Definition presentation_skipped (title detail : string) : Presentation :=
  presentation_of StSkipped title PsEmpty (Some detail) (Some f64_one).
Definition presentation_cached (title detail : string) : Presentation :=
  presentation_of StCached title PsOk (Some detail) (Some f64_one).

(** Field updates. *)
Definition with_detail (detail : string) (p : Presentation) : Presentation :=
  mkPresentation (p_stage p) (p_title p) (p_status p) (Some detail) (p_progress p) (p_run_id p)
    (p_work_id p) (p_node_id p) (p_module p) (p_capability p) (p_phase p) (p_highlight_ports p)
    (p_output_ports p) (p_meta p).
Definition with_phase (phase : string) (p : Presentation) : Presentation :=
  mkPresentation (p_stage p) (p_title p) (p_status p) (p_detail p) (p_progress p) (p_run_id p)
    (p_work_id p) (p_node_id p) (p_module p) (p_capability p) (Some phase) (p_highlight_ports p)
    (p_output_ports p) (p_meta p).
Definition with_stage (stage : StepStage) (p : Presentation) : Presentation :=
  mkPresentation stage (p_title p) (p_status p) (p_detail p) (p_progress p) (p_run_id p)
    (p_work_id p) (p_node_id p) (p_module p) (p_capability p) (p_phase p) (p_highlight_ports p)
    (p_output_ports p) (p_meta p).
Definition with_status (status : PresentationStatus) (p : Presentation) : Presentation :=
  mkPresentation (p_stage p) (p_title p) status (p_detail p) (p_progress p) (p_run_id p)
    (p_work_id p) (p_node_id p) (p_module p) (p_capability p) (p_phase p) (p_highlight_ports p)
    (p_output_ports p) (p_meta p).
Definition with_identity (run_id work_id node_id module capability : string) (p : Presentation)
    : Presentation :=
  mkPresentation (p_stage p) (p_title p) (p_status p) (p_detail p) (p_progress p) run_id work_id
    node_id module capability (p_phase p) (p_highlight_ports p) (p_output_ports p) (p_meta p).
Definition with_output_ports (ports : list string) (p : Presentation) : Presentation :=
  mkPresentation (p_stage p) (p_title p) (p_status p) (p_detail p) (p_progress p) (p_run_id p)
    (p_work_id p) (p_node_id p) (p_module p) (p_capability p) (p_phase p) (p_highlight_ports p)
    ports (p_meta p).
Definition with_meta (meta : gmap string string) (p : Presentation) : Presentation :=
  mkPresentation (p_stage p) (p_title p) (p_status p) (p_detail p) (p_progress p) (p_run_id p)
    (p_work_id p) (p_node_id p) (p_module p) (p_capability p) (p_phase p) (p_highlight_ports p)
    (p_output_ports p) meta.

Definition or_fill (field filler : string) : string := if str_is_empty field then filler else field.
Definition fill_identity (run_id : string) (work : WorkItem) (p : Presentation) : Presentation :=
  with_identity (or_fill (p_run_id p) run_id) (or_fill (p_work_id p) (wi_id work))
    (or_fill (p_node_id p) (wi_node_id work)) (or_fill (p_module p) (wi_module work))
    (or_fill (p_capability p) (wi_capability work)) p.

Record StepResult := mkStepResult {
  sr_ok : bool; sr_outputs : list NamedArtifact; sr_error : option string }.
Record StepEvent := mkStepEvent {
  se_stage : StepStage; se_presentation : Presentation; se_artifact_id : string }.

(** ** Legacy views *)
Inductive ProcessingStatus := PrPending | PrRunning | PrBlocked | PrFailed.
Record ProcessingView := mkProcessingView {
  pv_title : string; pv_status : ProcessingStatus; pv_detail : option string;
  pv_progress : option f64; pv_run_id : string; pv_work_id : string; pv_node_id : string;
  pv_module : string }.
Definition processing_view_default : ProcessingView :=
  mkProcessingView "" PrRunning None None "" "" "" "".
Definition from_processing_view (v : ProcessingView) : Presentation :=
  let status := match pv_status v with
                | PrPending => PsPending | PrRunning => PsRunning
                | PrBlocked => PsBlocked | PrFailed => PsFailed
                end in
  let d := presentation_default in
  mkPresentation StInit (pv_title v) status (pv_detail v) (pv_progress v) (pv_run_id v)
    (pv_work_id v) (pv_node_id v) (pv_module v) (p_capability d) (p_phase d)
    (p_highlight_ports d) (p_output_ports d) (p_meta d).

Inductive ResultStatus := RvOk | RvEmpty | RvFailed.
Record ResultView := mkResultView {
  rv_title : string; rv_status : ResultStatus; rv_summary : option string; rv_run_id : string;
  rv_work_id : string; rv_node_id : string; rv_module : string; rv_output_ports : list string }.
Definition result_view_default : ResultView := mkResultView "" RvOk None "" "" "" "" [].
Definition from_result_view (v : ResultView) : Presentation :=
  let status := match rv_status v with RvOk => PsOk | RvEmpty => PsEmpty | RvFailed => PsFailed end in
  let progress := match rv_status v with RvOk | RvEmpty => Some f64_one | RvFailed => None end in
  let d := presentation_default in
  mkPresentation StFinal (rv_title v) status (rv_summary v) progress (rv_run_id v) (rv_work_id v)
    (rv_node_id v) (rv_module v) (p_capability d) (p_phase d) (rv_output_ports v)
    (rv_output_ports v) (p_meta d).

(** ** What filling in does *)
(** A field a plugin set is never overwritten, and filling twice from the same
    work changes nothing. *)
Lemma fill_identity_twice run_id work p :
  fill_identity run_id work (fill_identity run_id work p) = fill_identity run_id work p.
Proof.
  assert (∀ x y, or_fill (or_fill x y) y = or_fill x y) as Hf.
  { intros x y. rw /or_fill. by destruct (str_is_empty x) eqn:Hx, (str_is_empty y); rw ?Hx. }
  by rw /fill_identity /with_identity /= !Hf.
Qed.
