(* ===== verification/Storage.v ===== *)
(** * Storage: framework-managed tables

    [src/framework/sdk/rust/src/storage.rs]: plans, schemas, the physical names
    of tables, identity columns, and the in-memory backend.  The value type of
    [serde_json] is a parameter ([JsonValue]). *)
From S2P Require Import Prelude Wire Traits FwErrors Presentation.
Local Open Scope Z_scope.

Definition STEP_LOG_TABLE : string := "_srcport_step_log".

Inductive StorageMode := SmOff | SmPerRun | SmShared.
Inductive StorageRetention := DropOnEnd | Keep.
#[export] Instance StorageMode_eq_dec : EqDecision StorageMode.
Proof. solve_decision. Defined.
#[export] Instance StorageRetention_eq_dec : EqDecision StorageRetention.
Proof. solve_decision. Defined.

Record StoragePlan := mkStoragePlan {
  stp_mode : StorageMode; stp_step_log : bool; stp_retention : StorageRetention }.
Definition storage_off : StoragePlan := mkStoragePlan SmOff false DropOnEnd.
Definition per_run : StoragePlan := mkStoragePlan SmPerRun false DropOnEnd.
Definition per_run_keep : StoragePlan := mkStoragePlan SmPerRun false Keep.
Definition shared : StoragePlan := mkStoragePlan SmShared false Keep.
Definition step_log_only : StoragePlan := mkStoragePlan SmOff true Keep.
Definition per_run_with_step_log : StoragePlan := mkStoragePlan SmPerRun true DropOnEnd.
Definition with_step_log (p : StoragePlan) : StoragePlan :=
  mkStoragePlan (stp_mode p) true (stp_retention p).
Definition with_retention (r : StorageRetention) (p : StoragePlan) : StoragePlan :=
  mkStoragePlan (stp_mode p) (stp_step_log p) r.
Definition storage_enabled (p : StoragePlan) : bool :=
  negb (bool_decide (stp_mode p = SmOff)) || stp_step_log p.
Definition module_tables (p : StoragePlan) : bool :=
  match stp_mode p with SmPerRun | SmShared => true | SmOff => false end.

(** ** Schemas *)
Inductive ColumnType := CtText | CtInteger | CtReal | CtBoolean | CtJson | CtBytes.
#[export] Instance ColumnType_eq_dec : EqDecision ColumnType.
Proof. solve_decision. Defined.
Record ColumnDef := mkColumn { col_name : string; col_ty : ColumnType; col_nullable : bool }.
#[export] Instance ColumnDef_eq_dec : EqDecision ColumnDef.
Proof. solve_decision. Defined.
Definition required (name : string) (ty : ColumnType) : ColumnDef := mkColumn name ty false.
Definition optional (name : string) (ty : ColumnType) : ColumnDef := mkColumn name ty true.

Inductive WriteMode := WmAppend | WmUpsert | WmReplace.
Record TableSchema := mkSchema {
  ts_name : string; ts_columns : list ColumnDef; ts_primary_key : list string;
  ts_write_mode : WriteMode }.
Definition schema_new (name : string) : TableSchema := mkSchema name [] [] WmAppend.
Definition schema_column (c : ColumnDef) (s : TableSchema) : TableSchema :=
  mkSchema (ts_name s) (ts_columns s ++ [c]) (ts_primary_key s) (ts_write_mode s).
Definition schema_primary_key (keys : list string) (s : TableSchema) : TableSchema :=
  mkSchema (ts_name s) (ts_columns s) keys (ts_write_mode s).
Definition schema_write_mode (m : WriteMode) (s : TableSchema) : TableSchema :=
  mkSchema (ts_name s) (ts_columns s) (ts_primary_key s) m.

(** ** Values *)
(** crate [serde_json]: its values, their [PartialEq], and an array of strings. *)
Class JsonValue := {
  json : Type;
  json_eqb : json → json → bool;
  json_strings : list string → json;
}.

(** [PartialEq] of [f64] on representations: a NaN is not equal to anything, the
    two zeros are equal. *)
Definition f64_is_nan (x : f64) : bool :=
  (Z.land (Z.shiftr x 52) 0x7FF =? 0x7FF) && negb (Z.land x (2^52 - 1) =? 0).
Definition f64_is_zero (x : f64) : bool := Z.land x (2^63 - 1) =? 0.
Definition f64_eqb (x y : f64) : bool :=
  negb (f64_is_nan x) && negb (f64_is_nan y) && ((x =? y) || (f64_is_zero x && f64_is_zero y)).

Section values.
Context `{JsonValue}.

Inductive StoreValue :=
  | SvNull
  | SvBoolean (b : bool)
  | SvInteger (n : Z)
  | SvReal (x : f64)
  | SvText (s : string)
  | SvJson (v : json)
  | SvBytes (b : bytes).

Definition StoreValue_eqb (a b : StoreValue) : bool :=
  match a, b with
  | SvNull, SvNull => true
  | SvBoolean x, SvBoolean y => Bool.eqb x y
  | SvInteger x, SvInteger y => x =? y
  | SvReal x, SvReal y => f64_eqb x y
  | SvText x, SvText y => str_eqb x y
  | SvJson x, SvJson y => json_eqb x y
  | SvBytes x, SvBytes y => bool_decide (x = y)
  | _, _ => false
  end.

(** The conversions into a value. *)
Definition value_of_str (s : string) : StoreValue := SvText s.
Definition value_of_i64 (n : Z) : StoreValue := SvInteger n.
Definition value_of_bool (b : bool) : StoreValue := SvBoolean b.

Definition StoreRow : Type := gmap string StoreValue.
Record StoreWrite := mkStoreWrite { sw_mode : option WriteMode; sw_rows : list StoreRow }.
Definition write_append (rows : list StoreRow) : StoreWrite := mkStoreWrite (Some WmAppend) rows.
Definition write_upsert (rows : list StoreRow) : StoreWrite := mkStoreWrite (Some WmUpsert) rows.
Definition write_replace (rows : list StoreRow) : StoreWrite := mkStoreWrite (Some WmReplace) rows.
Definition write_row (mode : WriteMode) (row : StoreRow) : StoreWrite :=
  mkStoreWrite (Some mode) [row].
(** A later pair of the same name wins. *)
Definition store_row (pairs : list (string * StoreValue)) : StoreRow :=
  foldl (λ m '(k, v), <[k := v]> m) ∅ pairs.

(** ** Physical tables *)
Record QualifiedTable := mkQualified {
  qt_physical_name : string; qt_module : string; qt_logical_name : string;
  qt_schema : TableSchema; qt_mode : StorageMode }.

Definition identity_columns : list ColumnDef :=
  [required "_run_id" CtText; required "_work_id" CtText; required "_node_id" CtText;
   required "_module" CtText].
Definition push_column (columns : list ColumnDef) (c : ColumnDef) : list ColumnDef :=
  if existsb (λ x, str_eqb (col_name x) (col_name c)) columns then columns else columns ++ [c].
Definition with_identity_columns (schema : TableSchema) : TableSchema :=
  mkSchema (ts_name schema) (foldl push_column identity_columns (ts_columns schema))
    (ts_primary_key schema) (ts_write_mode schema).

Definition qualify_table (mode : StorageMode) (run_id module : string) (schema : TableSchema)
    : QualifiedTable :=
  let physical_name :=
    match mode with
    | SmOff => ts_name schema
    | SmPerRun => run_id +:+ "__" +:+ module +:+ "__" +:+ ts_name schema
    | SmShared => module +:+ "__" +:+ ts_name schema
    end in
  mkQualified physical_name module (ts_name schema) (with_identity_columns schema) mode.

Definition step_log_schema : TableSchema :=
  mkSchema STEP_LOG_TABLE
    [required "run_id" CtText; required "work_id" CtText; required "node_id" CtText;
     required "module" CtText; required "capability" CtText; required "ok" CtBoolean;
     optional "error" CtText; optional "output_ports" CtJson] [] WmAppend.
Definition step_log_qualified (mode : StorageMode) (run_id : string) : QualifiedTable :=
  let physical_name :=
    match mode with
    | SmOff | SmShared => STEP_LOG_TABLE
    | SmPerRun => run_id +:+ "__" +:+ STEP_LOG_TABLE
    end in
  mkQualified physical_name "" STEP_LOG_TABLE step_log_schema
    (if bool_decide (mode = SmOff) then SmShared else mode).

Definition entry_or (k : string) (v : StoreValue) (row : StoreRow) : StoreRow :=
  match row !! k with Some _ => row | None => <[k := v]> row end.
Definition inject_identity (run_id work_id node_id module : string) (row : StoreRow) : StoreRow :=
  entry_or "_module" (SvText module)
    (entry_or "_node_id" (SvText node_id)
      (entry_or "_work_id" (SvText work_id)
        (entry_or "_run_id" (SvText run_id) row))).

(** ** The in-memory backend *)
Record MemTable := mkMemTable {
  mt_schema : TableSchema; mt_mode : StorageMode; mt_rows : list StoreRow }.
Definition MemoryStorage : Type := gmap string MemTable.
Definition memory_storage_new : MemoryStorage := ∅.
Abbreviation StorageM := (M MemoryStorage FrameworkError).

Definition ensure_table (table : QualifiedTable) : StorageM unit :=
  tables ← get;
  match tables !! qt_physical_name table with
  | Some existing =>
      lift (err_if (negb (bool_decide (ts_columns (mt_schema existing) = ts_columns (qt_schema table))))
        (FwInvalid ("storage schema mismatch for table " +:+ qt_physical_name table)))
  | None =>
      put (<[qt_physical_name table := mkMemTable (qt_schema table) (qt_mode table) []]> tables)
  end.

Definition with_rows (rows : list StoreRow) (t : MemTable) : MemTable :=
  mkMemTable (mt_schema t) (mt_mode t) rows.

(** [r.get("_run_id").or_else(|| r.get("run_id"))] is the text [run_id]. *)
Definition row_of_run (run_id : string) (r : StoreRow) : bool :=
  match (match r !! "_run_id" with Some v => Some v | None => r !! "run_id" end) with
  | Some (SvText id) => str_eqb id run_id
  | _ => false
  end.
Definition opt_value_eqb (a b : option StoreValue) : bool :=
  match a, b with
  | Some x, Some y => StoreValue_eqb x y
  | None, None => true
  | _, _ => false
  end.
Definition same_key (primary_key : list string) (existing row : StoreRow) : bool :=
  forallb (λ k, opt_value_eqb (existing !! k) (row !! k)) primary_key.
(** Replace the first row with the key of [row], or append it. *)
Definition upsert_row (primary_key : list string) (rows : list StoreRow) (row : StoreRow)
    : list StoreRow :=
  match list_find (λ existing, same_key primary_key existing row = true) rows with
  | Some (idx, _) => <[idx := row]> rows
  | None => rows ++ [row]
  end.

Definition replaced_rows (run_id : string) (t : MemTable) : list StoreRow :=
  match mt_mode t with
  | SmPerRun | SmOff => []
  | SmShared => filter (λ r, negb (row_of_run run_id r) = true) (mt_rows t)
  end.
Definition write_rows (table : string) (mode : WriteMode) (rows : list StoreRow)
    (primary_key : list string) (run_id : string) : StorageM unit :=
  tables ← get;
  t ← lift (ok_or (FwInvalid ("storage table not ensured: " +:+ table)) (tables !! table));
  match mode with
  | WmAppend => put (<[table := with_rows (mt_rows t ++ rows) t]> tables)
  | WmReplace => put (<[table := with_rows (replaced_rows run_id t ++ rows) t]> tables)
  | WmUpsert =>
      lift (err_if (list_is_empty primary_key)
        (FwInvalid ("upsert on " +:+ table +:+ " requires primary_key on TableSchema")));;
      put (<[table := with_rows (foldl (upsert_row primary_key) (mt_rows t) rows) t]> tables)
  end.

Definition drop_table (table : string) : StorageM unit := modify (delete table).
Definition table_exists (tables : MemoryStorage) (table : string) : bool := has_key table tables.
Definition table_rows (tables : MemoryStorage) (table : string) : option (list StoreRow) :=
  mt_rows <$> tables !! table.
Definition table_names `{HashOrder} (tables : MemoryStorage) : list string :=
  sort_strings (hm_iter tables).*1.
End values.

(** ** The backend a host is given *)
(** [StorageBackend]: the trait a host stores through. *)
Class StorageBackend `{JsonValue} (B : Type) := {
  sb_ensure_table : QualifiedTable → M B FrameworkError unit;
  sb_write_rows : string → WriteMode → list StoreRow → list string → string → M B FrameworkError unit;
  sb_drop_table : string → M B FrameworkError unit;
  sb_table_exists : B → string → bool;
  sb_rows : B → string → option (list StoreRow);
  sb_table_names : B → list string;
}.
#[export] Instance memory_storage_backend `{JsonValue, HashOrder} : StorageBackend MemoryStorage := {|
  sb_ensure_table := ensure_table; sb_write_rows := write_rows; sb_drop_table := drop_table;
  sb_table_exists := table_exists; sb_rows := table_rows; sb_table_names := table_names |}.
