(* ===== verification/Memo.v ===== *)
(** * Memo: reusing the outputs of earlier runs

    [src/framework/sdk/rust/src/memo.rs]: memo plans, the key of a work unit,
    records, and the in-memory store behind the [MemoStore] trait.  The lock
    of the store guards single map operations, which cannot panic, so it is
    never poisoned. *)
From S2P Require Import Prelude Wire Hash FwErrors.
Local Open Scope Z_scope.

Record MemoRecord := mkMemoRecord {
  mr_key : string; mr_module : string; mr_module_version : string; mr_module_digest : string;
  mr_capability : string; mr_node_id : string; mr_inputs : gmap string string;
  mr_outputs : gmap string string; mr_source_run_id : string; mr_source_work_id : string }.

Inductive MemoNodes :=
  | MnAll
  | MnOnly (ids : list string)
  | MnExcept (ids : list string).
Definition allows (nodes : MemoNodes) (node_id : string) : bool :=
  match nodes with
  | MnAll => true
  | MnOnly ids => existsb (λ i, str_eqb i node_id) ids
  | MnExcept ids => negb (existsb (λ i, str_eqb i node_id) ids)
  end.

Record MemoPlan := mkMemoPlan {
  mp_enabled : bool; mp_require_digest : bool; mp_nodes : MemoNodes }.
Definition memo_off : MemoPlan := mkMemoPlan false false MnAll.
Definition memo_on : MemoPlan := mkMemoPlan true true MnAll.
Definition on_optional_digest : MemoPlan := mkMemoPlan true false MnAll.
Definition memo_with_nodes (nodes : MemoNodes) (p : MemoPlan) : MemoPlan :=
  mkMemoPlan (mp_enabled p) (mp_require_digest p) nodes.
Definition with_require_digest (require : bool) (p : MemoPlan) : MemoPlan :=
  mkMemoPlan (mp_enabled p) require (mp_nodes p).

(** ** The store *)
Class MemoStore (B : Type) := {
  memo_get : B → string → FResult (option MemoRecord);
  memo_put : MemoRecord → M B FrameworkError unit;
  memo_len : B → Z;
  memo_clear : B → B;
}.
Definition memo_is_empty `{MemoStore B} (store : B) : bool := memo_len store =? 0.

Definition MemoryMemo : Type := gmap string MemoRecord.
Definition memory_memo_new : MemoryMemo := ∅.
Definition memory_get (store : MemoryMemo) (key : string) : FResult (option MemoRecord) :=
  Ok (store !! key).
Definition memory_put (record : MemoRecord) : M MemoryMemo FrameworkError unit :=
  modify (<[mr_key record := record]>).
Definition memory_len (store : MemoryMemo) : Z := Z.of_nat (size store).
Definition memory_clear (_ : MemoryMemo) : MemoryMemo := ∅.
#[export] Instance memory_memo_store : MemoStore MemoryMemo := {|
  memo_get := memory_get; memo_put := memory_put; memo_len := memory_len;
  memo_clear := memory_clear |}.

(** ** Keys and records *)
(** The named, non-empty artifact ids of a list of ports: a later port of the same name
    wins. *)
Definition port_ids (ports : list NamedArtifact) : gmap string string :=
  foldl (λ m na, match na_artifact na with
                 | Some r => if negb (str_is_empty (na_name na)) && negb (str_is_empty (ar_id r))
                             then <[na_name na := ar_id r]> m else m
                 | None => m
                 end) ∅ ports.
Definition input_fingerprint_map (work : WorkItem) : gmap string string := port_ids (wi_inputs work).

Definition record_to_named_outputs (record : MemoRecord) : list NamedArtifact :=
  (λ '(port, id), mkNamed port (Some (mkArtifactRef id))) <$> btree_iter (mr_outputs record).

Definition build_record (key : string) (work : WorkItem) (module_digest : string)
    (outputs : list NamedArtifact) (run_id : string) : MemoRecord :=
  mkMemoRecord key (wi_module work) (wi_module_version work) module_digest (wi_capability work)
    (wi_node_id work) (input_fingerprint_map work) (port_ids outputs) run_id (wi_id work).

Section memo.
Context `{Platform}.

Definition memo_row (row : string * string) : bytes :=
  as_bytes row.1 ++ [SEP] ++ as_bytes row.2 ++ [SEP].
Definition memo_key_bytes (module module_version module_digest capability : string)
    (inputs : gmap string string) : bytes :=
  as_bytes module ++ [SEP] ++ as_bytes module_version ++ [SEP] ++ as_bytes module_digest ++ [SEP] ++
  as_bytes capability ++ [SEP] ++ concat (memo_row <$> btree_iter inputs).
Definition memo_key (module module_version module_digest capability : string)
    (inputs : gmap string string) : string :=
  "sha256:" +:+ hex (sha256 (memo_key_bytes module module_version module_digest capability inputs)).
End memo.
