(* ===== verification/FwPolicy.v ===== *)
(** * FwPolicy: run modes compiled to kernel requests

    [src/framework/sdk/rust/src/policy.rs]: the plans of a pipeline and what the
    kernel is asked for. *)
From S2P Require Import Prelude Wire Presentation Storage Memo.
Local Open Scope Z_scope.

Inductive RunMode := Converge | Stream | DedupeStream | Selective | Manual (closure : Closure).
Inductive FiringPlan :=
  | CapabilityDefaults
  | FpAll (f : Firing)
  | FpMap (default : Firing) (by_node : gmap string Firing).
Inductive NodePlan :=
  | NpAll
  | NpOnly (ids : list string)
  | NpAfter (node : string)
  | NpFrom (node : string).
Inductive DrivePlan := UntilIdle | OnePass | UntilIdleThenWait.
Inductive DriveAfter := DaNo | DaUntilIdle | DaOnePass.

Record FrameworkPolicy := mkFwPolicy {
  fp_mode : RunMode; fp_firing : FiringPlan; fp_nodes : NodePlan; fp_max_steps : option Z;
  fp_drive : DrivePlan; fp_claim_modules : option (list string); fp_storage : StoragePlan;
  fp_memo : MemoPlan; fp_concurrency : option Z; fp_claim_batch : option Z;
  fp_lease_ms : option Z; fp_max_attempts : option Z }.

Definition DEFAULT_CONCURRENCY : Z := 8.

Definition base (mode : RunMode) (firing : FiringPlan) (nodes : NodePlan) (drive : DrivePlan)
    : FrameworkPolicy :=
  mkFwPolicy mode firing nodes None drive None storage_off memo_off None None None None.

Definition with_firing (x : FiringPlan) (p : FrameworkPolicy) : FrameworkPolicy :=
  mkFwPolicy (fp_mode p) x (fp_nodes p) (fp_max_steps p) (fp_drive p) (fp_claim_modules p)
    (fp_storage p) (fp_memo p) (fp_concurrency p) (fp_claim_batch p) (fp_lease_ms p) (fp_max_attempts p).
Definition with_nodes (x : NodePlan) (p : FrameworkPolicy) : FrameworkPolicy :=
  mkFwPolicy (fp_mode p) (fp_firing p) x (fp_max_steps p) (fp_drive p) (fp_claim_modules p)
    (fp_storage p) (fp_memo p) (fp_concurrency p) (fp_claim_batch p) (fp_lease_ms p) (fp_max_attempts p).
Definition with_drive (x : DrivePlan) (p : FrameworkPolicy) : FrameworkPolicy :=
  mkFwPolicy (fp_mode p) (fp_firing p) (fp_nodes p) (fp_max_steps p) x (fp_claim_modules p)
    (fp_storage p) (fp_memo p) (fp_concurrency p) (fp_claim_batch p) (fp_lease_ms p) (fp_max_attempts p).
Definition with_max_steps (x : Z) (p : FrameworkPolicy) : FrameworkPolicy :=
  mkFwPolicy (fp_mode p) (fp_firing p) (fp_nodes p) (Some x) (fp_drive p) (fp_claim_modules p)
    (fp_storage p) (fp_memo p) (fp_concurrency p) (fp_claim_batch p) (fp_lease_ms p) (fp_max_attempts p).
Definition with_claim_modules (x : list string) (p : FrameworkPolicy) : FrameworkPolicy :=
  mkFwPolicy (fp_mode p) (fp_firing p) (fp_nodes p) (fp_max_steps p) (fp_drive p) (Some x)
    (fp_storage p) (fp_memo p) (fp_concurrency p) (fp_claim_batch p) (fp_lease_ms p) (fp_max_attempts p).
Definition with_storage (x : StoragePlan) (p : FrameworkPolicy) : FrameworkPolicy :=
  mkFwPolicy (fp_mode p) (fp_firing p) (fp_nodes p) (fp_max_steps p) (fp_drive p) (fp_claim_modules p)
    x (fp_memo p) (fp_concurrency p) (fp_claim_batch p) (fp_lease_ms p) (fp_max_attempts p).
Definition with_memo (x : MemoPlan) (p : FrameworkPolicy) : FrameworkPolicy :=
  mkFwPolicy (fp_mode p) (fp_firing p) (fp_nodes p) (fp_max_steps p) (fp_drive p) (fp_claim_modules p)
    (fp_storage p) x (fp_concurrency p) (fp_claim_batch p) (fp_lease_ms p) (fp_max_attempts p).
Definition with_concurrency (n : Z) (p : FrameworkPolicy) : FrameworkPolicy :=
  mkFwPolicy (fp_mode p) (fp_firing p) (fp_nodes p) (fp_max_steps p) (fp_drive p) (fp_claim_modules p)
    (fp_storage p) (fp_memo p) (Some (Z.max n 1)) (fp_claim_batch p) (fp_lease_ms p) (fp_max_attempts p).
Definition with_claim_batch (n : Z) (p : FrameworkPolicy) : FrameworkPolicy :=
  mkFwPolicy (fp_mode p) (fp_firing p) (fp_nodes p) (fp_max_steps p) (fp_drive p) (fp_claim_modules p)
    (fp_storage p) (fp_memo p) (fp_concurrency p) (Some (Z.max n 1)) (fp_lease_ms p) (fp_max_attempts p).
Definition with_lease_ms (ms : Z) (p : FrameworkPolicy) : FrameworkPolicy :=
  mkFwPolicy (fp_mode p) (fp_firing p) (fp_nodes p) (fp_max_steps p) (fp_drive p) (fp_claim_modules p)
    (fp_storage p) (fp_memo p) (fp_concurrency p) (fp_claim_batch p) (Some ms) (fp_max_attempts p).
Definition with_max_attempts (n : Z) (p : FrameworkPolicy) : FrameworkPolicy :=
  mkFwPolicy (fp_mode p) (fp_firing p) (fp_nodes p) (fp_max_steps p) (fp_drive p) (fp_claim_modules p)
    (fp_storage p) (fp_memo p) (fp_concurrency p) (fp_claim_batch p) (fp_lease_ms p) (Some (Z.max n 1)).

Definition converge : FrameworkPolicy := base Converge CapabilityDefaults NpAll UntilIdle.
Definition memoized : FrameworkPolicy := with_memo memo_on converge.
Definition stream : FrameworkPolicy := base Stream (FpAll FiAlways) NpAll UntilIdleThenWait.
Definition stream_dedupe : FrameworkPolicy :=
  base DedupeStream (FpAll FiOncePerKey) NpAll UntilIdleThenWait.
Definition selective (node_ids : list string) : FrameworkPolicy :=
  base Selective CapabilityDefaults (NpOnly node_ids) UntilIdle.
Definition start_after (node : string) : FrameworkPolicy :=
  base Selective CapabilityDefaults (NpAfter node) UntilIdle.
Definition from_node (node : string) : FrameworkPolicy :=
  base Selective CapabilityDefaults (NpFrom node) UntilIdle.
Definition manual (closure : Closure) : FrameworkPolicy :=
  base (Manual closure) CapabilityDefaults NpAll UntilIdle.

Definition effective_concurrency (p : FrameworkPolicy) : Z :=
  Z.max (default DEFAULT_CONCURRENCY (fp_concurrency p)) 1.
Definition effective_claim_batch (p : FrameworkPolicy) : Z :=
  Z.max (default (effective_concurrency p) (fp_claim_batch p)) 1.
Definition closure (p : FrameworkPolicy) : Closure :=
  match fp_mode p with
  | Converge | Selective => ClFirstTerminal
  | Stream | DedupeStream => ClOpen
  | Manual closure => closure
  end.

Definition execution_policy_for (assembly : option Assembly) (p : FrameworkPolicy) : ExecutionPolicy :=
  let '(dflt, by_node) :=
    match fp_firing p with
    | CapabilityDefaults => (Firing_i32 FiUnspecified, ∅)
    | FpAll f =>
        let by_node := match assembly with
                       | Some a => foldl (λ m n, <[an_id n := Firing_i32 f]> m) ∅ (as_nodes a)
                       | None => ∅
                       end in
        (Firing_i32 f, by_node)
    | FpMap dflt by_node => (Firing_i32 dflt, Firing_i32 <$> by_node)
    end in
  mkPolicy dflt by_node (Closure_i32 (closure p)).
Definition execution_policy (p : FrameworkPolicy) : ExecutionPolicy := execution_policy_for None p.

Definition include_nodes (p : FrameworkPolicy) : list string :=
  match fp_nodes p with
  | NpAll | NpAfter _ | NpFrom _ => []
  | NpOnly ids => ids
  end.
Definition needs_cut (p : FrameworkPolicy) : bool :=
  match fp_nodes p with NpAll => false | _ => true end.

Definition default_max_steps (node_count : Z) (p : FrameworkPolicy) : Z :=
  if bool_decide (closure p = ClOpen) then Z.max (Z.min u64_max (node_count * 10000)) 10000 else 0.
Definition resolve_max_steps (assembly : Assembly) (p : FrameworkPolicy) : Z :=
  match fp_max_steps p with
  | Some n => n
  | None => default_max_steps (len (as_nodes assembly)) p
  end.

Definition apply_to_run_request (req : RunRequest) (p : FrameworkPolicy) : RunRequest :=
  let node_count := match rr_assembly req with Some a => len (as_nodes a) | None => 0 end in
  let max_steps := match fp_max_steps p with Some n => n | None => default_max_steps node_count p end in
  let conc := effective_concurrency p in
  mkRunRequest (rr_id req) (rr_assembly req) (rr_inputs req)
    (Some (mkLimits max_steps conc (default 0 (fp_lease_ms p)) (default 0 (fp_max_attempts p))))
    (include_nodes p) (Some (execution_policy_for (rr_assembly req) p)).

Definition effective_drive (p : FrameworkPolicy) : DrivePlan :=
  match fp_drive p with UntilIdleThenWait => UntilIdle | other => other end.
