(* ===== verification/KernelApi.v ===== *)
(** * KernelApi: the kernel as its clients see it

    The trait [KernelApi] of [src/kernel/sdk/rust/src/lib.rs] as a class of
    operations on a kernel of some type, and [MemoryKernel] as an instance of
    it.  A client makes many calls, each at a time of its own and with hash maps
    iterating in an order of their own: a [LiveKernel] is a kernel with what
    its environment will answer at each call to come. *)
From S2P Require Import Prelude Wire Errors Hash Traits Policy State Registry Store Events.
From S2P Require Import Assembly Work Runs Units Steps Kernel.
Local Open Scope Z_scope.

Class KernelApi (K : Type) := {
  api_register : ModuleManifest → RequestContext → M K KernelError RegisterAck;
  api_transition : TransitionRequest → RequestContext → M K KernelError TransitionAck;
  api_put_artifact : Artifact → RequestContext → M K KernelError ArtifactRef;
  api_get_artifact : ArtifactRef → RequestContext → M K KernelError Artifact;
  api_put_blob : PutBlobRequest → RequestContext → M K KernelError BlobRef;
  api_get_blob : GetBlobRequest → RequestContext → M K KernelError BlobData;
  api_has_blob : HasBlobRequest → RequestContext → M K KernelError HasBlobResponse;
  api_put_contract : Contract → RequestContext → M K KernelError Contract;
  api_publish : Event → RequestContext → M K KernelError PublishAck;
  api_append : AppendRequest → RequestContext → M K KernelError LedgerEntry;
  api_snapshot : RequestContext → M K KernelError RegistrySnapshot;
  api_start_run : RunRequest → RequestContext → M K KernelError Run;
  api_inject_input : InjectInputRequest → RequestContext → M K KernelError Run;
  api_claim_ready : ClaimRequest → RequestContext → M K KernelError ClaimResponse;
  api_heartbeat : HeartbeatRequest → RequestContext → M K KernelError HeartbeatResponse;
  api_fail_work : FailWorkRequest → RequestContext → M K KernelError Run;
  api_commit : Derivation → RequestContext → M K KernelError Run;
  api_get_run : RunRef → RequestContext → M K KernelError Run;
  api_cancel_run : RunRef → RequestContext → M K KernelError Run;
  api_list_derivations : RunRef → RequestContext → M K KernelError DerivationList;
}.

(** ** [MemoryKernel] behind the trait *)
(** What the environment answers to one call: the clock at the deadline check,
    the clock in the method, and the iteration order of hash maps. *)
Record Env := mkEnv { env_t0 : Z; env_now : Z; env_order : HashOrder }.
Record LiveKernel := mkLive {
  lk_kernel : MemoryKernel; lk_env : nat → Env; lk_calls : nat }.

Section live.
Context `{Platform}.

Definition live_exec (c : Call) : M LiveKernel KernelError Reply := λ k,
  let e := lk_env k (lk_calls k) in
  let '(o, s) := @exec _ (env_order e) (mk_store_policy (lk_kernel k)) (env_t0 e) (env_now e) c
                   (mk_state (lk_kernel k)) in
  (o, mkLive (mkKernel s (mk_store_policy (lk_kernel k))) (lk_env k) (S (lk_calls k))).
(** The reply of a call, at the type the trait gives it. *)
Definition replied {A} (f : Reply → option A) (m : M LiveKernel KernelError Reply)
    : M LiveKernel KernelError A :=
  r ← m; lift (unwrap (f r)).

#[export] Instance live_kernel_api : KernelApi LiveKernel := {|
  api_register m ctx :=
    replied (λ r, match r with RRegisterAck a => Some a | _ => None end) (live_exec (CRegister m ctx));
  api_transition req ctx :=
    replied (λ r, match r with RTransitionAck a => Some a | _ => None end) (live_exec (CTransition req ctx));
  api_put_artifact a ctx :=
    replied (λ r, match r with RArtifactRef a => Some a | _ => None end) (live_exec (CPutArtifact a ctx));
  api_get_artifact r ctx :=
    replied (λ r, match r with RArtifact a => Some a | _ => None end) (live_exec (CGetArtifact r ctx));
  api_put_blob req ctx :=
    replied (λ r, match r with RBlobRef a => Some a | _ => None end) (live_exec (CPutBlob req ctx));
  api_get_blob req ctx :=
    replied (λ r, match r with RBlobData a => Some a | _ => None end) (live_exec (CGetBlob req ctx));
  api_has_blob req ctx :=
    replied (λ r, match r with RHasBlob a => Some a | _ => None end) (live_exec (CHasBlob req ctx));
  api_put_contract c ctx :=
    replied (λ r, match r with RContract a => Some a | _ => None end) (live_exec (CPutContract c ctx));
  api_publish e ctx :=
    replied (λ r, match r with RPublishAck a => Some a | _ => None end) (live_exec (CPublish e ctx));
  api_append req ctx :=
    replied (λ r, match r with RLedgerEntry a => Some a | _ => None end) (live_exec (CAppend req ctx));
  api_snapshot ctx :=
    replied (λ r, match r with RSnapshot a => Some a | _ => None end) (live_exec (CSnapshot ctx));
  api_start_run req ctx :=
    replied (λ r, match r with RRun a => Some a | _ => None end) (live_exec (CStartRun req ctx));
  api_inject_input req ctx :=
    replied (λ r, match r with RRun a => Some a | _ => None end) (live_exec (CInjectInput req ctx));
  api_claim_ready req ctx :=
    replied (λ r, match r with RClaim a => Some a | _ => None end) (live_exec (CClaimReady req ctx));
  api_heartbeat req ctx :=
    replied (λ r, match r with RHeartbeat a => Some a | _ => None end) (live_exec (CHeartbeat req ctx));
  api_fail_work req ctx :=
    replied (λ r, match r with RRun a => Some a | _ => None end) (live_exec (CFailWork req ctx));
  api_commit d ctx :=
    replied (λ r, match r with RRun a => Some a | _ => None end) (live_exec (CCommit d ctx));
  api_get_run r ctx :=
    replied (λ r, match r with RRun a => Some a | _ => None end) (live_exec (CGetRun r ctx));
  api_cancel_run r ctx :=
    replied (λ r, match r with RRun a => Some a | _ => None end) (live_exec (CCancelRun r ctx));
  api_list_derivations r ctx :=
    replied (λ r, match r with RDerivations a => Some a | _ => None end)
      (live_exec (CListDerivations r ctx)) |}.
End live.
