(* ===== verification/KernelLaws.v ===== *)
(** * KernelLaws: what a host may rely on

    A class of kernels with the laws the driving loop needs: the calls it makes
    never give a run more steps to take, and a commit that is answered takes
    one.  [MemoryKernel] satisfies them in every reachable state. *)
From S2P Require Import Prelude Wire Errors Hash Traits Policy State Registry Store Events Assembly.
From S2P Require Import AssemblySpec Work Runs Units Steps Kernel Invariant Evolve RunTheorems.
From S2P Require Import KernelApi.
Local Open Scope Z_scope.

(** [left_of id k] bounds the commits that run [id] can still take. *)
Class KernelProgress (K : Type) `{KernelApi K} := {
  (* a good kernel that has the run *)
  has_run : string → K → Prop;
  left_of : string → K → nat;
  (* a call that keeps the run and gives it no more steps to take *)
  calm {A} (m : M K KernelError A) : Prop := ∀ id k, has_run id k →
    has_run id (m k).2 ∧ (left_of id (m k).2 ≤ left_of id k)%nat;
  calm_put_artifact : ∀ a ctx, calm (api_put_artifact a ctx);
  calm_get_artifact : ∀ r ctx, calm (api_get_artifact r ctx);
  calm_claim_ready : ∀ req ctx, calm (api_claim_ready req ctx);
  calm_fail_work : ∀ req ctx, calm (api_fail_work req ctx);
  calm_get_run : ∀ r ctx, calm (api_get_run r ctx);
  calm_commit : ∀ d ctx, calm (api_commit d ctx);
  commit_takes_step : ∀ d ctx k, has_run (d_run_id d) k → ctx_request_key ctx = "" →
    is_ok (api_commit d ctx k).1 = true →
    (left_of (d_run_id d) (api_commit d ctx k).2 < left_of (d_run_id d) k)%nat;
}.
#[export] Hint Resolve calm_put_artifact calm_get_artifact calm_claim_ready calm_fail_work
  calm_get_run calm_commit : core.

(** ** [MemoryKernel] *)
Section live.
Context `{Platform}.

(** The steps a run may take less the derivations it has. *)
Definition steps_left (id : string) (s : State) : nat :=
  match st_runs s !! id with
  | Some slot => Z.to_nat (run_max_steps (rs_run slot) - len (run_derivations s id))
  | None => 0
  end.
Lemma steps_left_evolves s s' id : is_Some (st_runs s !! id) → evolves s s' →
  (steps_left id s' ≤ steps_left id s)%nat.
Proof.
  intros [slot Hs] He. destruct (ev_runs _ _ He _ _ Hs) as (slot' & Hs' & Hev).
  pose proof (prefix_length _ _ (run_derivations_prefix _ _ id (ev_derivations _ _ He))) as Hlen.
  rw /steps_left Hs Hs' /len. destruct (se_frame _ _ Hev) as (_ & _ & Hmax & _). rw Hmax. lia.
Qed.

Lemma live_exec_step c k : call_ok c →
  later (mk_store_policy (lk_kernel k)) (mk_state (lk_kernel k)) (mk_state (lk_kernel (live_exec c k).2)) ∧
  mk_store_policy (lk_kernel (live_exec c k).2) = mk_store_policy (lk_kernel k).
Proof.
  intros Hok. rw /live_exec. set e := lk_env k (lk_calls k).
  pose proof (call_step_intro (mk_store_policy (lk_kernel k)) (mk_state (lk_kernel k)) (env_order e)
    (env_t0 e) (env_now e) c Hok) as Hc.
  destruct (exec _ _ _ _ _) as [o s']. split; [|done]. apply rtc_once. by exists o.
Qed.
Lemma replied_state {A} (f : Reply → option A) m k : (replied f m k).2 = (m k).2.
Proof. rw /replied /mbind /M_bind. by destruct (m k) as [[r| |] k']. Qed.

Definition live_has_run (id : string) (k : LiveKernel) : Prop :=
  reachable (mk_store_policy (lk_kernel k)) (mk_state (lk_kernel k)) ∧
  is_Some (st_runs (mk_state (lk_kernel k)) !! id).
Definition live_left (id : string) (k : LiveKernel) : nat := steps_left id (mk_state (lk_kernel k)).

Lemma live_calm {A} (f : Reply → option A) c id k : call_ok c → live_has_run id k →
  live_has_run id (replied f (live_exec c) k).2 ∧
  (live_left id (replied f (live_exec c) k).2 ≤ live_left id k)%nat.
Proof.
  intros Hok [Hr [slot Hs]]. rw replied_state. destruct (live_exec_step c k Hok) as [Hl Hp].
  pose proof (later_evolves _ _ _ Hr Hl) as He.
  split; [|apply steps_left_evolves; [by exists slot|done]].
  rw /live_has_run Hp. split; [by eapply later_reachable|].
  destruct (ev_runs _ _ He _ _ Hs) as (slot' & ? & _). by exists slot'.
Qed.
Lemma no_key s op ctx : ctx_request_key ctx = "" → idempotent_get s op ctx = None.
Proof. intros Hk. by rw /idempotent_get /idempotency_key Hk. Qed.

Lemma live_commit_takes_step d ctx k :
  live_has_run (d_run_id d) k → ctx_request_key ctx = "" → is_ok (api_commit d ctx k).1 = true →
  (live_left (d_run_id d) (api_commit d ctx k).2 < live_left (d_run_id d) k)%nat.
Proof.
  intros [Hr [slot Hs]] Hkey. rw /live_left replied_state.
  destruct (live_exec (CCommit d ctx) k) as [[r|e|] k'] eqn:He;
    [|by rw /= /replied /mbind /M_bind He..].
  intros _. simpl. rw /live_exec in He. revert He. rw /exec /replying {1}/mbind /M_bind.
  destruct (commit_ctx _ _ _ _ _) as [[run|e|] s'] eqn:Hc; [|done..]. intros [= _ <-]. simpl.
  destruct (commit_inv _ _ _ _ _ _ _ _ Hr (no_key _ _ _ Hkey) Hc)
    as (slot' & c & cap & a & t & Hs' & _ & _ & _ & Hcl & _ & Hmax & _ & _ & _ & Hs2 & Hder).
  assert (later (mk_store_policy (lk_kernel k)) (mk_state (lk_kernel k)) s') as Hl.
  { apply rtc_once. exists (Ok (RRun run)).
    pose proof (call_step_intro (mk_store_policy (lk_kernel k)) (mk_state (lk_kernel k))
      (env_order (lk_env k (lk_calls k))) (env_t0 (lk_env k (lk_calls k)))
      (env_now (lk_env k (lk_calls k))) (CCommit d ctx) I) as Hstep.
    rw /exec /replying /mbind /M_bind Hc in Hstep. exact Hstep. }
  destruct (ev_runs _ _ (later_evolves _ _ _ Hr Hl) _ _ Hs') as (slot2 & Hs2' & Hev).
  destruct (se_frame _ _ Hev) as (_ & _ & Hmax2 & _).
  apply reachable_ksteps in Hr as [_ [Hruns _]]. pose proof (Hruns _ _ Hs') as Hinv. simpl in Hinv.
  pose proof (hi_steps _ _ _ (ri_history _ _ _ Hinv)) as Hlen.
  destruct (ri_assembly _ _ _ Hinv) as (a' & t' & _ & [Hall _] & _).
  pose proof (co_run _ _ _ _ _ (Hall _ _ (reaped_claims_sub _ _ _ _ Hcl))) as Hid.
  rw /steps_left Hs2' Hs' Hmax2 /run_derivations Hder filter_app filter_cons decide_True; [|exact Hid].
  rw filter_nil /len length_app /=. rw /run_derivations /len in Hlen. lia.
Qed.

#[export] Instance live_progress : KernelProgress LiveKernel := {|
  has_run := live_has_run; left_of := live_left;
  calm_put_artifact a ctx id k := live_calm _ (CPutArtifact a ctx) id k I;
  calm_get_artifact r ctx id k := live_calm _ (CGetArtifact r ctx) id k I;
  calm_claim_ready req ctx id k := live_calm _ (CClaimReady req ctx) id k I;
  calm_fail_work req ctx id k := live_calm _ (CFailWork req ctx) id k I;
  calm_get_run r ctx id k := live_calm _ (CGetRun r ctx) id k I;
  calm_commit d ctx id k := live_calm _ (CCommit d ctx) id k I;
  commit_takes_step := live_commit_takes_step |}.
End live.
