(* ===== verification/Cut.v ===== *)
(** * Cut: running a part of an assembly

    [src/framework/sdk/rust/src/cut.rs]: which nodes a plan keeps, the edges
    from dropped to kept nodes rewritten to synthetic run inputs, and the
    seeds for those inputs taken from an earlier run.  The fuel of the two
    searches is two more than the number of bindings: a node is queued once, and
    every node but the first is the end of a binding. *)
From S2P Require Import Prelude Wire Errors Traits Assembly FwErrors FwPolicy KernelApi.
Local Open Scope Z_scope.

Definition SEED_INPUT_PREFIX : string := "__seed/".
Definition seed_input_name (from_node from_port : string) : string :=
  SEED_INPUT_PREFIX +:+ from_node +:+ "/" +:+ from_port.
Definition is_seed_input_name (name : string) : bool := starts_with SEED_INPUT_PREFIX name.

Record SeedSpec := mkSeedSpec {
  ss_input_name : string; ss_from_node : string; ss_from_port : string; ss_to_node : string;
  ss_to_port : string }.
Record SkippedNode := mkSkipped {
  sk_node_id : string; sk_module : string; sk_capability : string; sk_module_version : string }.
Record AssemblyCut := mkCut {
  cut_assembly : Assembly; cut_skipped : list SkippedNode; cut_required_seeds : list SeedSpec;
  cut_kept_node_ids : list string }.

(** ** Reachability *)
(** The edges of an assembly as adjacency lists, [from] to [to] of each binding between
    nodes. *)
Definition adjacency (from to : Binding → string) (assembly : Assembly) : gmap string (list string) :=
  foldl (λ m b, if str_is_empty (b_from_node b) || str_is_empty (b_to_node b) then m
                else push_edge (from b) (to b) m) ∅ (as_bindings assembly).

(** [for p in preds { if out.insert(p) && visited.insert(p) { q.push_back(p) } }] *)
Definition see_pred (acc : gset string * gset string * list string) (p : string)
    : gset string * gset string * list string :=
  let '(out, visited, q) := acc in
  if bool_decide (p ∈ out) then (out, visited, q)
  else if bool_decide (p ∈ visited) then ({[p]} ∪ out, visited, q)
  else ({[p]} ∪ out, {[p]} ∪ visited, q ++ [p]).
Fixpoint pred_loop (fuel : nat) (incoming : gmap string (list string))
    (acc : gset string * gset string * list string) : option (gset string) :=
  match fuel with
  | O => None
  | S fuel =>
      let '(out, visited, q) := acc in
      match q with
      | [] => Some out
      | cur :: q => pred_loop fuel incoming (foldl see_pred (out, visited, q) (successors incoming cur))
      end
  end.
Definition search_fuel (assembly : Assembly) : nat := S (S (length (as_bindings assembly))).
Definition transitive_predecessors (assembly : Assembly) (node_id : string) : option (gset string) :=
  pred_loop (search_fuel assembly) (adjacency b_to_node b_from_node assembly)
    (∅, {[node_id]}, [node_id]).

Definition see_next (acc : gset string * list string) (n : string) : gset string * list string :=
  let '(out, q) := acc in
  if bool_decide (n ∈ out) then (out, q) else ({[n]} ∪ out, q ++ [n]).
Fixpoint reach_loop (fuel : nat) (outgoing : gmap string (list string))
    (acc : gset string * list string) : option (gset string) :=
  match fuel with
  | O => None
  | S fuel =>
      let '(out, q) := acc in
      match q with
      | [] => Some out
      | cur :: q => reach_loop fuel outgoing (foldl see_next (out, q) (successors outgoing cur))
      end
  end.
Definition reachable_from (assembly : Assembly) (node_id : string) : option (gset string) :=
  reach_loop (search_fuel assembly) (adjacency b_from_node b_to_node assembly)
    ({[node_id]}, [node_id]).

(** ** The nodes a plan keeps *)
Definition keep_only (known : gset string) (acc : gset string) (id : string) : FResult (gset string) :=
  err_if (bool_decide (id ∈ acc)) (FwInvalid ("NodePlan::Only contains duplicate node id " +:+ id));;
  err_if (negb (bool_decide (id ∈ known)))
    (FwInvalid ("NodePlan::Only references unknown node " +:+ id));;
  mret ({[id]} ∪ acc).
Definition resolve_kept_nodes (assembly : Assembly) (plan : NodePlan) : FResult (gset string) :=
  let known : gset string := list_to_set (an_id <$> as_nodes assembly) in
  err_if (list_is_empty (as_nodes assembly)) (FwInvalid "assembly has no nodes");;
  terminal ← ok_or (FwInvalid "assembly terminal is required") (as_terminal assembly);
  err_if (negb (bool_decide (no_node terminal ∈ known)))
    (FwInvalid ("terminal node " +:+ no_node terminal +:+ " is not in the assembly"));;
  match plan with
  | NpAll => mret known
  | NpOnly ids =>
      err_if (list_is_empty ids) (FwInvalid "NodePlan::Only requires at least one node id");;
      kept ← for_each (keep_only known) ∅ ids;
      err_if (negb (bool_decide (no_node terminal ∈ kept)))
        (FwInvalid "node plan must retain the terminal node");;
      mret kept
  | NpAfter node_id =>
      err_if (negb (bool_decide (node_id ∈ known)))
        (FwInvalid ("NodePlan::After references unknown node " +:+ node_id));;
      preds ← unwrap (transitive_predecessors assembly node_id);
      let dropped := {[node_id]} ∪ preds in
      err_if (bool_decide (no_node terminal ∈ dropped))
        (FwInvalid ("NodePlan::After(" +:+ node_id +:+ ") would drop the terminal node"));;
      let kept : gset string :=
        list_to_set (an_id <$> filter (λ n, an_id n ∉ dropped) (as_nodes assembly)) in
      err_if (bool_decide (kept = ∅)) (FwInvalid "NodePlan::After left no nodes to run");;
      mret kept
  | NpFrom node_id =>
      err_if (negb (bool_decide (node_id ∈ known)))
        (FwInvalid ("NodePlan::From references unknown node " +:+ node_id));;
      reachable ← unwrap (reachable_from assembly node_id);
      err_if (negb (bool_decide (no_node terminal ∈ reachable)))
        (FwInvalid ("NodePlan::From(" +:+ node_id +:+ "): terminal " +:+ no_node terminal +:+
                    " is not reachable from that node"));;
      mret reachable
  end.

(** ** The cut *)
Definition skipped_node (n : AssemblyNode) : SkippedNode :=
  mkSkipped (an_id n) (an_module n) (an_capability n) (an_module_version n).
Definition seed_spec_of (b : Binding) : SeedSpec :=
  mkSeedSpec (seed_input_name (b_from_node b) (b_from_port b)) (b_from_node b) (b_from_port b)
    (b_to_node b) (b_to_port b).
Definition seed_binding (b : Binding) : Binding :=
  mkBinding (b_to_node b) (b_to_port b) "" "" (seed_input_name (b_from_node b) (b_from_port b)).

(** [BTreeMap<(String, String), SeedSpec>]: [entry(key).or_insert_with(..)]; the map is
    put in the order of its keys when it is read out. *)
Definition seed_key (s : SeedSpec) : string * string := (ss_from_node s, ss_from_port s).
Definition or_insert_seed (b : Binding) (seeds : gmap (string * string) SeedSpec)
    : gmap (string * string) SeedSpec :=
  match seeds !! (b_from_node b, b_from_port b) with
  | Some _ => seeds
  | None => <[(b_from_node b, b_from_port b) := seed_spec_of b]> seeds
  end.

Definition cut_binding (kept : gset string)
    (acc : gmap (string * string) SeedSpec * list Binding) (b : Binding)
    : FResult (gmap (string * string) SeedSpec * list Binding) :=
  let '(seeds, bindings) := acc in
  if negb (bool_decide (b_to_node b ∈ kept)) then mret (seeds, bindings)
  else if negb (str_is_empty (b_input b)) then mret (seeds, bindings ++ [b])
  else if str_is_empty (b_from_node b) then
    Err (FwInvalid ("binding to " +:+ b_to_node b +:+ "." +:+ b_to_port b +:+
                    " has neither input nor from_node"))
  else if bool_decide (b_from_node b ∈ kept) then mret (seeds, bindings ++ [b])
  else mret (or_insert_seed b seeds, bindings ++ [seed_binding b]).
(** The values of the [BTreeMap] in the order of its keys. *)
Definition seeds_in_order (seeds : gmap (string * string) SeedSpec) : list SeedSpec :=
  sort_by (λ s, ss_from_node s) (sort_by (λ s, ss_from_port s) (map_to_list seeds).*2).

Definition materialize_cut (assembly : Assembly) (plan : NodePlan) : FResult AssemblyCut :=
  kept ← resolve_kept_nodes assembly plan;
  if match plan with NpAll => true | _ => false end ||
     bool_decide (size kept = length (as_nodes assembly))
  then mret (mkCut assembly [] [] (an_id <$> as_nodes assembly))
  else
    let skipped := skipped_node <$> filter (λ n, an_id n ∉ kept) (as_nodes assembly) in
    '(seeds, bindings) ← for_each (cut_binding kept) (∅, []) (as_bindings assembly);
    let nodes := filter (λ n, an_id n ∈ kept) (as_nodes assembly) in
    mret (mkCut (mkAssembly (as_id assembly) nodes bindings (as_terminal assembly)) skipped
            (seeds_in_order seeds) (an_id <$> nodes)).

(** ** Seeds *)
Definition latest_of (want : gset string) (ds : list Derivation) : gmap string Derivation :=
  foldl (λ m d, if bool_decide (d_node_id d ∈ want) then <[d_node_id d := d]> m else m) ∅ ds.
Definition seed_output (node_id : string) (acc : list NamedArtifact * gset string) (o : NamedArtifact)
    : FResult (list NamedArtifact * gset string) :=
  let '(out, seen) := acc in
  if str_is_empty (na_name o) then mret (out, seen)
  else
    let name := seed_input_name node_id (na_name o) in
    if bool_decide (name ∈ seen) then mret (out, seen)
    else
      art ← ok_or (FwInvalid ("seeds_from_run: output " +:+ node_id +:+ "." +:+ na_name o +:+
                              " has no artifact ref")) (na_artifact o);
      mret (out ++ [mkNamed name (Some art)], {[name]} ∪ seen).
Definition seed_node (run_id : string) (latest : gmap string Derivation)
    (acc : list NamedArtifact * gset string) (node_id : string)
    : FResult (list NamedArtifact * gset string) :=
  d ← ok_or (FwInvalid ("seeds_from_run: no derivation for node " +:+ node_id +:+ " on run " +:+ run_id))
        (latest !! node_id);
  for_each (seed_output node_id) acc (d_outputs d).
(** What is made of the derivations the kernel lists. *)
Definition seeds_of_derivations (run_id : string) (ds : list Derivation) (cut_nodes : list string)
    : FResult (list NamedArtifact) :=
  let want : gset string := list_to_set cut_nodes in
  if bool_decide (want = ∅) then mret []
  else
    '(out, _) ← for_each (seed_node run_id (latest_of want ds)) ([], ∅) (sort_strings (elements want));
    mret out.
Definition seeds_from_run `{KernelApi K} (run_id : string) (cut_nodes : list string)
    (ctx : RequestContext) : M K FrameworkError (list NamedArtifact) := λ k,
  let '(o, k) := api_list_derivations (mkRunRef run_id) ctx k in
  (l ← from_kernel o; seeds_of_derivations run_id (dl_derivations l) cut_nodes, k).

Definition insert_named (m : gmap string NamedArtifact) (na : NamedArtifact)
    : gmap string NamedArtifact := <[na_name na := na]> m.
Definition merge_inputs (base seeds : list NamedArtifact) : list NamedArtifact :=
  (btree_iter (foldl insert_named (foldl insert_named ∅ base) seeds)).*2.

Definition missing_seed (have : gmap string NamedArtifact) (s : SeedSpec) : list string :=
  match have !! ss_input_name s with
  | None => [ss_input_name s +:+ " (from " +:+ ss_from_node s +:+ "." +:+ ss_from_port s +:+ " → " +:+
             ss_to_node s +:+ "." +:+ ss_to_port s +:+ ")"]
  | Some na =>
      match na_artifact na with
      | None => [ss_input_name s +:+ " (present but artifact ref is empty)"]
      | Some _ => []
      end
  end.
Definition join_strings (sep : string) (l : list string) : string :=
  match l with
  | [] => ""
  | s :: l => foldl (λ acc s, acc +:+ sep +:+ s) s l
  end.
Definition validate_seeds_present (cut : AssemblyCut) (inputs : list NamedArtifact) : FResult unit :=
  if list_is_empty (cut_required_seeds cut) then mret tt
  else
    let have := foldl insert_named ∅ inputs in
    let missing := mjoin (missing_seed have <$> cut_required_seeds cut) in
    err_if (negb (list_is_empty missing))
      (FwInvalid ("cut requires seed inputs that were not provided: " +:+ join_strings "; " missing)).
