(* ===== verification/CutSpec.v ===== *)
(** * CutSpec: what a cut keeps, drops and asks for

    The searches of [Cut] compute reachability along the bindings, a plan keeps
    the nodes its documentation says, and the cut of an assembly the kernel
    accepts is again one the kernel accepts, once the seeds are there. *)
From S2P Require Import Prelude Wire Errors Traits State Assembly AssemblySpec FwErrors FwPolicy.
From S2P Require Import KernelApi Cut.
Local Open Scope Z_scope.

(** ** The searches *)
Section search.
Variable g : gmap string (list string).
Variable nodes : gset string.
Hypothesis Hnodes : ∀ x y, y ∈ successors g x → y ∈ nodes.
Variable start : string.
Let R : relation string := λ x y, y ∈ successors g x.

Definition left_to_see (seen : gset string) (q : list string) : nat := size (nodes ∖ seen) + length q.

Lemma left_to_see_push seen q x : x ∈ nodes → x ∉ seen →
  left_to_see ({[x]} ∪ seen) (q ++ [x]) = left_to_see seen q.
Proof.
  intros Hx Hs. rw /left_to_see length_app /=.
  assert (nodes ∖ seen = {[x]} ∪ (nodes ∖ ({[x]} ∪ seen))) as Heq.
  { apply set_eq. intros y. rw !elem_of_union !elem_of_difference !elem_of_union !elem_of_singleton.
    destruct (decide (y = x)) as [->|]; naive_solver. }
  rw Heq size_union ?size_singleton; [|set_solver]. lia.
Qed.

(** *** [reachable_from] *)
Lemma see_next_spec l out q out' q' :
  (∀ x, x ∈ l → x ∈ nodes) → foldl see_next (out, q) l = (out', q') →
  left_to_see out' q' = left_to_see out q ∧ (∀ x, x ∈ out' ↔ x ∈ out ∨ x ∈ l) ∧
  (∀ x, x ∈ q' ↔ x ∈ q ∨ (x ∈ l ∧ x ∉ out)).
Proof.
  revert out q. induction l as [|n l IH]; intros out q Hl; simpl.
  { intros [= <- <-]. split_and!; [done|set_solver..]. }
  intros Hf. assert (n ∈ nodes) as Hn by (apply Hl; set_solver).
  assert (∀ x, x ∈ l → x ∈ nodes) as Hl' by (intros x Hx; apply Hl; set_solver).
  case_bool_decide as Hin.
  - destruct (IH _ _ Hl' Hf) as (Hm & Ho & Hq). split_and!; [done|..].
    + intros x. rw Ho elem_of_cons. naive_solver.
    + intros x. rw Hq elem_of_cons. naive_solver.
  - destruct (IH _ _ Hl' Hf) as (Hm & Ho & Hq). split_and!.
    + by rw Hm left_to_see_push.
    + intros x. rw Ho elem_of_union elem_of_singleton elem_of_cons. tauto.
    + intros x. rw Hq elem_of_app list_elem_of_singleton elem_of_union elem_of_singleton elem_of_cons.
      destruct (decide (x = n)); naive_solver.
Qed.

Lemma reach_loop_spec fuel out q :
  (left_to_see out q < fuel)%nat → start ∈ out → (∀ x, x ∈ q → x ∈ out) →
  (∀ x, x ∈ out → rtc R start x) → (∀ x y, x ∈ out → x ∉ q → R x y → y ∈ out) →
  ∃ out', reach_loop fuel g (out, q) = Some out' ∧ ∀ x, x ∈ out' ↔ rtc R start x.
Proof.
  revert out q. induction fuel as [|fuel IH]; intros out q Hf Hstart Hq Hr Hcl; [lia|]. simpl.
  destruct q as [|cur q].
  - exists out. split; [done|]. intros x. split; [apply Hr|]. clear -Hstart Hcl. intros Hx.
    induction Hx as [x|x y z Hxy Hyz IHx]; [done|]. apply IHx.
    apply (Hcl x); [done|set_solver|done].
  - destruct (foldl see_next (out, q) (successors g cur)) as [out' q'] eqn:Hs.
    destruct (see_next_spec _ _ _ _ _ (Hnodes cur) Hs) as (Hm & Ho & Hq').
    assert (cur ∈ out) as Hcur by (apply Hq; set_solver).
    apply IH.
    + revert Hf. rw Hm /left_to_see /=. lia.
    + by apply Ho; left.
    + intros x. rw Hq' Ho. intros [Hx|[Hx _]]; [|by right]. left. apply Hq. set_solver.
    + intros x. rw Ho. intros [Hx|Hx]; [by apply Hr|]. eapply rtc_r; [by apply Hr|exact Hx].
    + intros x y. rw Ho Hq'. intros Hx Hnq Hxy. destruct (decide (x = cur)) as [->|Hne].
      * apply Ho. by right.
      * destruct (decide (x ∈ out)) as [Hin|Hin]; [|naive_solver].
        apply Ho. left. apply (Hcl x); [done| |done]. rw elem_of_cons. naive_solver.
Qed.

(** *** [transitive_predecessors] *)
Lemma see_pred_spec l out visited q out' visited' q' :
  (∀ x, x ∈ l → x ∈ nodes) → visited = {[start]} ∪ out →
  foldl see_pred (out, visited, q) l = (out', visited', q') →
  left_to_see visited' q' = left_to_see visited q ∧ visited' = {[start]} ∪ out' ∧
  (∀ x, x ∈ out' ↔ x ∈ out ∨ x ∈ l) ∧
  (∀ x, x ∈ q' ↔ x ∈ q ∨ (x ∈ l ∧ x ∉ visited)).
Proof.
  revert out visited q. induction l as [|n l IH]; intros out visited q Hl Hv; simpl.
  { intros [= <- <- <-]. split_and!; [done|done|set_solver..]. }
  intros Hf. assert (n ∈ nodes) as Hn by (apply Hl; set_solver).
  assert (∀ x, x ∈ l → x ∈ nodes) as Hl' by (intros x Hx; apply Hl; set_solver).
  case_bool_decide as Hin; [|case_bool_decide as Hvis].
  - destruct (IH _ _ _ Hl' Hv Hf) as (Hm & Hv' & Ho & Hq). split_and!; [done|done|..].
    + intros x. rw Ho elem_of_cons. naive_solver.
    + intros x. rw Hq elem_of_cons Hv elem_of_union. naive_solver.
  - assert (visited = {[start]} ∪ ({[n]} ∪ out)) as Hv1 by set_solver.
    destruct (IH _ _ _ Hl' Hv1 Hf) as (Hm & Hv' & Ho & Hq). split_and!; [done|done|..].
    + intros x. rw Ho elem_of_union elem_of_singleton elem_of_cons. tauto.
    + intros x. rw Hq elem_of_cons. naive_solver.
  - assert ({[n]} ∪ visited = {[start]} ∪ ({[n]} ∪ out)) as Hv1 by set_solver.
    destruct (IH _ _ _ Hl' Hv1 Hf) as (Hm & Hv' & Ho & Hq). split_and!; [|done|..].
    + by rw Hm left_to_see_push.
    + intros x. rw Ho elem_of_union elem_of_singleton elem_of_cons. tauto.
    + intros x. rw Hq elem_of_app list_elem_of_singleton elem_of_union elem_of_singleton elem_of_cons.
      destruct (decide (x = n)); naive_solver.
Qed.

Lemma pred_loop_spec fuel out visited q :
  (left_to_see visited q < fuel)%nat → visited = {[start]} ∪ out → (∀ x, x ∈ q → x ∈ visited) →
  (∀ x, x ∈ out → tc R start x) → (∀ x y, x ∈ visited → x ∉ q → R x y → y ∈ out) →
  ∃ out', pred_loop fuel g (out, visited, q) = Some out' ∧ ∀ x, x ∈ out' ↔ tc R start x.
Proof.
  revert out visited q. induction fuel as [|fuel IH]; intros out visited q Hf Hv Hq Hr Hcl; [lia|]. simpl.
  destruct q as [|cur q].
  - exists out. split; [done|]. intros x. split; [apply Hr|].
    assert (start ∈ visited) as Hs by (rw Hv; set_solver).
    assert (out ⊆ visited) as Hsub by (rw Hv; set_solver). clear -Hs Hcl Hsub.
    intros Hx. induction Hx as [x y Hxy|x y z Hxy Hyz IHx].
    + apply (Hcl x); [done|set_solver|done].
    + apply IHx. apply Hsub, (Hcl x); [done|set_solver|done].
  - destruct (foldl see_pred (out, visited, q) (successors g cur)) as [[out' visited'] q'] eqn:Hs.
    destruct (see_pred_spec _ _ _ _ _ _ _ (Hnodes cur) Hv Hs) as (Hm & Hv' & Ho & Hq').
    assert (cur ∈ visited) as Hcur by (apply Hq; set_solver).
    assert (rtc R start cur) as Hrcur.
    { rw Hv elem_of_union elem_of_singleton in Hcur. destruct Hcur as [->|?]; [done|by apply tc_rtc, Hr]. }
    apply IH.
    + revert Hf. rw Hm /left_to_see /=. lia.
    + done.
    + intros x. rw Hq' Hv' elem_of_union Ho. intros [Hx|[Hx _]]; [|by right; right].
      assert (x ∈ visited) as Hxv by (apply Hq; set_solver). rw Hv in Hxv. set_solver.
    + intros x. rw Ho. intros [Hx|Hx]; [by apply Hr|]. eapply tc_rtc_l; [exact Hrcur|]. by apply tc_once.
    + intros x y. rw Hv' elem_of_union Ho Hq'. intros Hx Hnq Hxy. rw Ho.
      destruct (decide (x = cur)) as [->|Hne]; [by right|]. left.
      destruct (decide (x ∈ visited)) as [Hin|Hin].
      * apply (Hcl x); [done| |done]. rw elem_of_cons. naive_solver.
      * exfalso. rw Hv in Hin. set_solver.
Qed.
End search.

(** ** The edges of an assembly *)
(** A binding from one node to another. *)
Definition dataflow (a : Assembly) : relation string := λ x y,
  ∃ b, b ∈ as_bindings a ∧ b_from_node b = x ∧ b_to_node b = y ∧ x ≠ "" ∧ y ≠ "".

Lemma adjacency_spec from to a x y :
  y ∈ successors (adjacency from to a) x ↔
  ∃ b, b ∈ as_bindings a ∧ from b = x ∧ to b = y ∧ b_from_node b ≠ "" ∧ b_to_node b ≠ "".
Proof.
  rw /adjacency. induction (as_bindings a) as [|b bs IH] using rev_ind.
  { rw /successors lookup_empty /=. split; [by intros ?%not_elem_of_nil|by intros (b & ?%not_elem_of_nil & _)]. }
  rw foldl_app /=. set m := foldl _ _ bs in IH *.
  assert (str_is_empty (b_from_node b) || str_is_empty (b_to_node b) = false ↔
    b_from_node b ≠ "" ∧ b_to_node b ≠ "") as Hg by (by rw orb_false_iff !str_is_empty_false).
  destruct (str_is_empty (b_from_node b) || str_is_empty (b_to_node b)) eqn:He.
  - rw IH. setoid_rewrite elem_of_app. setoid_rewrite list_elem_of_singleton.
    split; [intros (b' & ? & ?); exists b'; tauto|].
    intros (b' & [?| ->] & ? & ? & H1 & H2); [naive_solver|]. discriminate (proj2 Hg (conj H1 H2)).
  - destruct Hg as [Hg _]. specialize (Hg eq_refl).
    assert (y ∈ successors (push_edge (from b) (to b) m) x ↔
      y ∈ successors m x ∨ (from b = x ∧ to b = y)) as ->.
    { rw /push_edge /successors. destruct (decide (from b = x)) as [<-|Hne].
      - rw lookup_insert_eq /= elem_of_app list_elem_of_singleton.
        split; [intros [?| ->]; auto|intros [?|[_ <-]]; auto].
      - rw lookup_insert_ne //. split; [by left|by intros [?|[? _]]]. }
    rw IH. setoid_rewrite elem_of_app. setoid_rewrite list_elem_of_singleton. split.
    + intros [(b' & ? & ?)|[<- <-]]; [exists b'; tauto|by exists b; auto].
    + intros (b' & [?| ->] & ? & ? & ?); [left; by exists b'|by right].
Qed.

Lemma search_room (l : list Binding) (f : Binding → string) start (q : gset string) :
  (left_to_see (list_to_set (f <$> l)) q [start] < S (S (length l)))%nat.
Proof.
  rw /left_to_see /=. pose proof (size_list_to_set_le (f <$> l)) as Hs. rw length_fmap in Hs.
  pose proof (subseteq_size (list_to_set (f <$> l) ∖ q) (list_to_set (f <$> l) : gset string) ltac:(set_solver)).
  lia.
Qed.

Lemma reachable_from_spec a n :
  ∃ out, reachable_from a n = Some out ∧ ∀ x, x ∈ out ↔ rtc (dataflow a) n x.
Proof.
  destruct (reach_loop_spec (adjacency b_from_node b_to_node a) (list_to_set (b_to_node <$> as_bindings a))
    ltac:(intros x y (b & Hb & _ & <- & _)%adjacency_spec; apply elem_of_list_to_set, list_elem_of_fmap; by exists b)
    n (search_fuel a) {[n]} [n]) as (out & Hout & Hx).
  - apply search_room.
  - set_solver.
  - set_solver.
  - intros x ->%elem_of_singleton. done.
  - intros x y ->%elem_of_singleton. set_solver.
  - exists out. split; [exact Hout|]. intros x. rw Hx.
    split; apply rtc_subrel; intros u v; rw adjacency_spec; [intros (b & ? & <- & <- & ?)|intros (b & ? & <- & <- & ?)]; by exists b.
Qed.

Lemma tc_subrel {A} (R1 R2 : relation A) x y : (∀ x y, R1 x y → R2 x y) → tc R1 x y → tc R2 x y.
Proof. intros Hs Ht. by eapply (tc_congruence (R:=R1) id R2). Qed.
Lemma tc_flip {A} (R : relation A) x y : tc (flip R) x y → tc R y x.
Proof. induction 1 as [x y Hxy|x y z Hxy _ IH]; [by apply tc_once|]. by eapply tc_r. Qed.

Lemma transitive_predecessors_spec a n :
  ∃ out, transitive_predecessors a n = Some out ∧ ∀ x, x ∈ out ↔ tc (dataflow a) x n.
Proof.
  destruct (pred_loop_spec (adjacency b_to_node b_from_node a) (list_to_set (b_from_node <$> as_bindings a))
    ltac:(intros x y (b & Hb & _ & <- & _)%adjacency_spec; apply elem_of_list_to_set, list_elem_of_fmap; by exists b)
    n (search_fuel a) ∅ {[n]} [n]) as (out & Hout & Hx).
  - apply search_room.
  - set_solver.
  - set_solver.
  - set_solver.
  - intros x y ->%elem_of_singleton. set_solver.
  - exists out. split; [exact Hout|]. intros x. rw Hx. split; intros Ht.
    + apply tc_flip. revert Ht. apply tc_subrel. intros u v (b & ? & <- & <- & ?)%adjacency_spec. by exists b.
    + apply (tc_flip (flip _)). revert Ht. apply tc_subrel.
      intros u v (b & ? & <- & <- & ?). apply adjacency_spec. by exists b.
Qed.

(** ** The nodes a plan keeps *)
Definition node_ids (a : Assembly) : list string := an_id <$> as_nodes a.

(** What the documentation of [NodePlan] says of a node of the assembly. *)
Definition kept_by (a : Assembly) (plan : NodePlan) (x : string) : Prop :=
  match plan with
  | NpAll => x ∈ node_ids a
  | NpOnly ids => x ∈ ids
  | NpAfter n => x ∈ node_ids a ∧ x ≠ n ∧ ¬ tc (dataflow a) x n
  | NpFrom n => rtc (dataflow a) n x
  end.
(** The plans that are accepted: the nodes they name are there, once, and the
    terminal node stays. *)
Definition plan_ok (a : Assembly) (plan : NodePlan) : Prop :=
  as_nodes a ≠ [] ∧
  ∃ t, as_terminal a = Some t ∧ no_node t ∈ node_ids a ∧ kept_by a plan (no_node t) ∧
  match plan with
  | NpAll => True
  | NpOnly ids => NoDup ids ∧ Forall (λ id, id ∈ node_ids a) ids
  | NpAfter n | NpFrom n => n ∈ node_ids a
  end.

Lemma keep_only_ok known acc ids kept :
  for_each (keep_only known) acc ids = Ok kept ↔
  NoDup ids ∧ Forall (λ id, (id ∉ acc) ∧ id ∈ known) ids ∧ kept = list_to_set ids ∪ acc.
Proof.
  revert acc. induction ids as [|id ids IH]; intros acc; simpl.
  { rw left_id_L. split; [intros [= <-]; by repeat constructor|by intros (_ & _ & ->)]. }
  assert (∀ acc', keep_only known acc id = Ok acc' ↔ (id ∉ acc) ∧ id ∈ known ∧ acc' = {[id]} ∪ acc) as Hk.
  { intros acc'. rw /keep_only. repeat case_bool_decide; simpl; (split; [intros [=]; by subst|by intros (? & ? & ->)]). }
  rw bind_ok NoDup_cons Forall_cons. setoid_rewrite Hk. split.
  - intros (acc1 & (Hid & Hkn & ->) & (Hnd & Hall & ->)%IH). rw Forall_forall in Hall.
    split_and!; [|done|done|done|..].
    + intros Hin. destruct (Hall _ Hin) as [Hn _]. set_solver.
    + apply Forall_forall. intros x Hx. destruct (Hall _ Hx). set_solver.
    + set_solver.
  - intros ([Hid Hnd] & [[Hacc Hkn] Hall] & ->). eexists. split; [done|]. apply IH. split_and!; [done| |set_solver].
    rw Forall_forall in Hall. apply Forall_forall. intros x Hx. destruct (Hall _ Hx). set_solver.
Qed.

Lemma resolve_kept_spec a plan :
  (∀ kept, resolve_kept_nodes a plan = Ok kept → plan_ok a plan ∧ ∀ x, x ∈ kept ↔ kept_by a plan x) ∧
  (plan_ok a plan → ∃ kept, resolve_kept_nodes a plan = Ok kept) ∧
  resolve_kept_nodes a plan ≠ Panic.
Proof.
  rw /resolve_kept_nodes /plan_ok.
  destruct (as_nodes a) as [|n0 ns] eqn:Hns; [split_and!; [done|by intros [? _]|done]|]. rw -Hns. cbv zeta.
  assert (as_nodes a ≠ []) as Hne by (by rw Hns).
  assert (list_is_empty (as_nodes a) = false) as -> by (by apply list_is_empty_false).
  cbn [err_if mbind outcome_bind]. destruct (as_terminal a) as [t|]; simpl; [|split_and!; [done|naive_solver|done]].
  fold (node_ids a). set known : gset string := list_to_set (node_ids a).
  assert (∀ x, x ∈ known ↔ x ∈ node_ids a) as Hkn by (intros x; apply elem_of_list_to_set).
  case_bool_decide as Ht; simpl.
  2: { split_and!; [done| |done]. intros (_ & t' & [= <-] & Hin & _). by apply Hkn in Hin. }
  apply Hkn in Ht as Ht'. destruct plan as [|ids|n|n]; simpl.
  - split_and!; [|by eexists|done]. intros kept [= <-]. split; [|done]. split; [done|]. by exists t.
  - destruct (list_is_empty ids) eqn:Hids; cbn [err_if mbind outcome_bind].
    { assert (ids = []) as -> by by destruct ids.
      split_and!; [done| |done]. by intros (_ & t' & [= <-] & _ & ?%not_elem_of_nil & _). }
    assert (Forall (λ id, id ∈ node_ids a) ids ↔ Forall (λ id, (id ∉ (∅ : gset string)) ∧ id ∈ known) ids) as Hf.
    { rw !Forall_forall. setoid_rewrite Hkn. set_solver. }
    destruct (for_each (keep_only known) ∅ ids) as [kept| |] eqn:Hk; simpl.
    + apply keep_only_ok in Hk as (Hnd & Hall & ->). rw (right_id_L ∅ (∪)).
      case_bool_decide as Hin; simpl; rw elem_of_list_to_set in Hin.
      * split_and!; [|by eexists|done]. intros kept [= <-]. split; [|intros x; apply elem_of_list_to_set].
        split; [done|]. exists t. by rw Hf.
      * split_and!; [done| |done]. by intros (_ & t' & [= <-] & _ & ? & _).
    + split_and!; [done| |done]. intros (_ & t' & [= <-] & _ & _ & Hnd & Hall). exfalso.
      assert (for_each (keep_only known) ∅ ids = Ok (list_to_set ids ∪ ∅)) as Hok
        by (apply keep_only_ok; by rw -Hf). congruence.
    + exfalso. revert Hk. apply for_each_no_panic. intros acc id _. rw /keep_only.
      by repeat case_bool_decide.
  - case_bool_decide as Hn; simpl.
    2: { split_and!; [done| |done]. intros (_ & t' & _ & _ & _ & Hin). by apply Hkn in Hin. }
    destruct (transitive_predecessors_spec a n) as (preds & -> & Hpreds). simpl.
    assert (∀ x, x ∈ {[n]} ∪ preds ↔ x = n ∨ tc (dataflow a) x n) as Hdrop.
    { intros x. by rw elem_of_union elem_of_singleton Hpreds. }
    destruct (decide (no_node t ∈ {[n]} ∪ preds)) as [Hd|Hd];
      [rw (bool_decide_eq_true_2 _ Hd) /=|rw (bool_decide_eq_false_2 _ Hd) /=]; rw Hdrop in Hd.
    { split_and!; [done| |done]. intros (_ & t' & [= <-] & _ & (_ & ? & ?) & _). tauto. }
    set kept : gset string := list_to_set _.
    assert (∀ x, x ∈ kept ↔ x ∈ node_ids a ∧ x ≠ n ∧ ¬ tc (dataflow a) x n) as Hkept.
    { intros x. rw /kept elem_of_list_to_set !list_elem_of_fmap. setoid_rewrite list_elem_of_filter.
      setoid_rewrite Hdrop. split; [intros (m & -> & ? & ?)|intros ((m & -> & ?) & ?)];
        [split; [by exists m|tauto]|exists m; tauto]. }
    rw bool_decide_eq_false_2 /=; [|intros He; apply (not_elem_of_empty (C:=gset string) (no_node t)); rw -He Hkept; tauto].
    split_and!; [|by eexists|done]. intros kept' [= <-]. split; [|done]. split; [done|]. exists t. apply Hkn in Hn. tauto.
  - case_bool_decide as Hn; simpl.
    2: { split_and!; [done| |done]. intros (_ & t' & _ & _ & _ & Hin). by apply Hkn in Hin. }
    destruct (reachable_from_spec a n) as (out & -> & Hout). simpl.
    case_bool_decide as Hd; simpl; rw Hout in Hd.
    2: { split_and!; [done| |done]. by intros (_ & t' & [= <-] & _ & ? & _). }
    split_and!; [|by eexists|done]. intros kept' [= <-]. split; [|done]. split; [done|]. exists t. apply Hkn in Hn. tauto.
Qed.

(** ** The cut *)
(** The nodes are distinct and named, and every binding is between them. *)
Record closed_assembly (a : Assembly) : Prop := mkClosed {
  ca_ids : NoDup (node_ids a);
  ca_named : "" ∉ node_ids a;
  ca_bindings : Forall (λ b, b_to_node b ∈ node_ids a ∧ (b_input b = "" → b_from_node b ∈ node_ids a))
    (as_bindings a);
}.

Definition rewired (kept : gset string) (b : Binding) : Binding :=
  if negb (str_is_empty (b_input b)) then b
  else if bool_decide (b_from_node b ∈ kept) then b else seed_binding b.
(** A binding from a dropped node to a kept one. *)
Definition crossing (kept : gset string) (b : Binding) : Prop :=
  b_to_node b ∈ kept ∧ b_input b = "" ∧ b_from_node b ∉ kept.
#[export] Instance crossing_dec kept b : Decision (crossing kept b).
Proof. unfold crossing. apply _. Defined.
Definition first_seeds (bs : list Binding) (seeds : gmap (string * string) SeedSpec)
    : gmap (string * string) SeedSpec := foldl (λ m b, or_insert_seed b m) seeds bs.
Definition cut_with (a : Assembly) (kept : gset string) : AssemblyCut :=
  let nodes := filter (λ n, an_id n ∈ kept) (as_nodes a) in
  mkCut
    (mkAssembly (as_id a) nodes (rewired kept <$> filter (λ b, b_to_node b ∈ kept) (as_bindings a))
       (as_terminal a))
    (skipped_node <$> filter (λ n, an_id n ∉ kept) (as_nodes a))
    (seeds_in_order (first_seeds (filter (crossing kept) (as_bindings a)) ∅))
    (an_id <$> nodes).

Lemma cut_bindings_ok kept seeds out bs :
  Forall (λ b, b_input b = "" → b_from_node b ≠ "") bs →
  for_each (cut_binding kept) (seeds, out) bs =
  Ok (first_seeds (filter (crossing kept) bs) seeds,
      out ++ (rewired kept <$> filter (λ b, b_to_node b ∈ kept) bs)).
Proof.
  intros Hf. revert seeds out. induction Hf as [|b bs Hb Hf IH]; intros seeds out; simpl.
  { by rw app_nil_r. }
  rw !filter_cons {1}/cut_binding.
  destruct (decide (b_to_node b ∈ kept)) as [Ht|Ht].
  2: { rw (bool_decide_eq_false_2 _ Ht) /= IH decide_False; [done|]. by intros (? & _). }
  rw (bool_decide_eq_true_2 _ Ht) /= {1}/rewired.
  destruct (str_is_empty (b_input b)) eqn:Hi; simpl.
  2: { rw IH decide_False; [by rw -app_assoc|]. intros (_ & Hi' & _). by rw Hi' in Hi. }
  apply str_is_empty_true in Hi as Hi'. rw (proj2 (str_is_empty_false _) (Hb Hi')).
  destruct (decide (b_from_node b ∈ kept)) as [Hk|Hk].
  - rw (bool_decide_eq_true_2 _ Hk) /= IH decide_False; [by rw -app_assoc|]. by intros (_ & _ & ?).
  - rw (bool_decide_eq_false_2 _ Hk) /= IH decide_True; [by rw -app_assoc|done].
Qed.

Section closed.
Variables (a : Assembly) (Hclosed : closed_assembly a).

Lemma kept_by_known plan x : plan_ok a plan → kept_by a plan x → x ∈ node_ids a.
Proof.
  intros (_ & t & _ & _ & _ & Hp). destruct plan as [|ids|n|n]; simpl.
  - done.
  - destruct Hp as [_ Hall]. rw Forall_forall in Hall. apply Hall.
  - by intros [? _].
  - intros Hr. revert Hp. induction Hr as [|x y z (b & Hb & _ & <- & _) _ IH]; [done|].
    intros _. apply IH. pose proof (ca_bindings _ Hclosed) as Hall. rw Forall_forall in Hall. by apply Hall.
Qed.
Lemma binding_from_named : Forall (λ b, b_input b = "" → b_from_node b ≠ "") (as_bindings a).
Proof.
  eapply Forall_impl; [apply (ca_bindings _ Hclosed)|]. simpl. intros b [_ Hb] Hi Heq.
  apply (ca_named _ Hclosed). rw -Heq. by apply Hb.
Qed.

Lemma cut_with_all kept : (∀ x, x ∈ node_ids a → x ∈ kept) →
  cut_with a kept = mkCut a [] [] (node_ids a).
Proof.
  intros Hall. pose proof (ca_bindings _ Hclosed) as Hb. rw Forall_forall in Hb. rw /cut_with.
  assert (∀ n, n ∈ as_nodes a → an_id n ∈ kept) as Hn.
  { intros n Hn. apply Hall, list_elem_of_fmap. by exists n. }
  assert (filter (λ n, an_id n ∈ kept) (as_nodes a) = as_nodes a) as Hf1
    by (by apply filter_true, Forall_forall).
  assert (filter (λ n, an_id n ∉ kept) (as_nodes a) = []) as Hf2
    by (apply filter_false, Forall_forall; intros n Hx Hk; by apply Hk, Hn).
  assert (filter (crossing kept) (as_bindings a) = []) as Hf3.
  { apply filter_false, Forall_forall. intros b Hx (_ & Hi & Hk). by apply Hk, Hall, Hb. }
  assert (filter (λ b, b_to_node b ∈ kept) (as_bindings a) = as_bindings a) as Hf4.
  { apply filter_true, Forall_forall. intros b Hx. by apply Hall, Hb. }
  assert (rewired kept <$> as_bindings a = as_bindings a) as Hf5.
  { rw -{2}(list_fmap_id (as_bindings a)). apply list_fmap_ext. intros i b Hx%list_elem_of_lookup_2.
    rw /rewired. destruct (str_is_empty (b_input b)) eqn:Hi; simpl; [|done].
    rw bool_decide_eq_true_2; [done|]. apply Hall, Hb; [done|]. by apply str_is_empty_true. }
  rw Hf1 Hf2 Hf3 Hf4 Hf5. by destruct a.
Qed.

Lemma kept_all (kept : gset string) : (∀ x, x ∈ kept → x ∈ node_ids a) → size kept = length (as_nodes a) →
  ∀ x, x ∈ node_ids a → x ∈ kept.
Proof.
  intros Hsub Hsize x Hx.
  assert (kept = list_to_set (node_ids a)) as ->; [|by apply elem_of_list_to_set].
  apply set_subseteq_size_eq; [intros y Hy; by apply elem_of_list_to_set, Hsub|].
  rw size_list_to_set; [by rw Hsize /node_ids length_fmap|apply (ca_ids _ Hclosed)].
Qed.

(** [materialize_cut], for a closed assembly. *)
Lemma materialize_cut_spec plan cut :
  materialize_cut a plan = Ok cut ↔
  plan_ok a plan ∧ ∃ kept, (∀ x, x ∈ kept ↔ kept_by a plan x) ∧ cut = cut_with a kept.
Proof.
  destruct (resolve_kept_spec a plan) as (Hok & Htot & _). rw /materialize_cut bind_ok.
  assert (∀ kept, plan_ok a plan → (∀ x, x ∈ kept ↔ kept_by a plan x) →
    (if match plan with NpAll => true | _ => false end ||
        bool_decide (size kept = length (as_nodes a))
     then mret (mkCut a [] [] (an_id <$> as_nodes a))
     else
       '(seeds, bindings) ← for_each (cut_binding kept) (∅, []) (as_bindings a);
       let nodes := filter (λ n, an_id n ∈ kept) (as_nodes a) in
       mret (mkCut (mkAssembly (as_id a) nodes bindings (as_terminal a))
          (skipped_node <$> filter (λ n, an_id n ∉ kept) (as_nodes a)) (seeds_in_order seeds)
          (an_id <$> nodes))) = Ok (cut_with a kept)) as Hcut.
  { intros kept Hp Hk. destruct (_ || _) eqn:Hall.
    - rw cut_with_all //. apply orb_true_iff in Hall as [Hall|Hs%bool_decide_eq_true].
      + destruct plan; try done. intros x. by rw Hk.
      + apply kept_all; [|done]. intros x. rw Hk. by apply kept_by_known.
    - rw (cut_bindings_ok kept ∅ [] _ binding_from_named). done. }
  split.
  - intros (kept & Hr & Hc). apply Hok in Hr as [Hp Hk]. split; [done|]. exists kept. split; [done|].
    rw (Hcut kept Hp Hk) in Hc. by injection Hc.
  - intros (Hp & kept & Hk & ->). destruct (Htot Hp) as [kept' Hr]. exists kept'. split; [done|].
    apply Hok in Hr as [_ Hk']. assert (kept' = kept) as -> by (apply set_eq; intros x; by rw Hk Hk').
    by apply Hcut.
Qed.
End closed.
