(* ===== verification/Liveness.v ===== *)
(** * Liveness: a run does not get stuck

    A validated assembly has no cycle and feeds every port it needs, so a
    run that holds no claim always has a unit that can be claimed, unless a unit
    was given up: its lease expired too often, or it failed for good.  [flow_inv]
    keeps what the validator saw when the run started. *)
From S2P Require Import Prelude Wire Errors Hash Traits Policy State Registry Store Events Assembly.
From S2P Require Import AssemblySpec Work Runs Units Steps Kernel Invariant Evolve Typing.
From S2P Require Import FwErrors FwPolicy KernelApi Cut CutSpec.
Local Open Scope Z_scope.

(** ** The invariant *)
(** An output port that a commit cannot leave out. *)
Definition required_output (s : State) (nodes : list AssemblyNode) (n name : string) : Prop :=
  ∃ node cap p, node ∈ nodes ∧ an_id node = n ∧ first_provider s node = Some cap ∧
    port (cap_outputs cap) name = Some p ∧ port_optional p = false.
Definition has_output (d : Derivation) (name : string) : Prop :=
  ∃ i o, list_find (λ o, na_name o = name) (d_outputs d) = Some (i, o) ∧ is_Some (na_artifact o).

Section inv.
Context `{Platform}.
Variable store_policy : ArtifactStorePolicy.

Record flow_ok (s : State) (slot : RunSlot) (a : Assembly) (t : NodeOutput) : Prop := mkFlowOk {
  fo_providers : Forall (λ n, is_Some (first_provider s n)) (as_nodes a);
  fo_acyclic : acyclic (dataflow a);
  fo_upstream : Forall (λ b, b_input b = "" →
    b_from_node b ∈ node_ids a ∧ b_from_node b ≠ "" ∧ b_to_node b ≠ "") (as_bindings a);
  fo_terminal : no_node t ∈ node_ids a;
  fo_inputs : Forall (λ i, is_Some (na_artifact i)) (run_inputs (rs_run slot));
  fo_bound : Forall (λ b, b_input b ≠ "" → b_input b ∈ na_name <$> run_inputs (rs_run slot)) (as_bindings a);
  fo_outputs : ∀ n d name, rs_latest slot !! n = Some d → required_output s (as_nodes a) n name →
    has_output d name;
  fo_answer : ∀ d, rs_latest slot !! no_node t = Some d → is_Some (terminal_answer t d) →
    is_Some (run_answer (rs_run slot));
  fo_stalled : run_state (rs_run slot) = RsStalled →
    rs_claimed slot = ∅ ∧ Forall (λ n, is_ok (capability_for_node s n) → ready_unit s slot n = None) (as_nodes a);
}.
Definition flow_inv (s : State) (slot : RunSlot) : Prop :=
  ∀ a t, run_assembly (rs_run slot) = Some a → as_terminal a = Some t → flow_ok s slot a t.

(** Later registrations change neither the provider nor, if it is still the only
    one, the capability of a node. *)
Lemma capability_extend s s' node : modules_extend s s' → is_Some (first_provider s node) →
  is_ok (capability_for_node s' node) → capability_for_node s' node = capability_for_node s node.
Proof.
  rw /modules_extend /first_provider /capability_for_node !node_providers_manifests.
  intros [l ->]. rw filter_app fmap_app join_app.
  destruct (mjoin _) as [|c [|c2 cs]]; simpl; [by intros [? [=]]| |done].
  by destruct (mjoin _).
Qed.
Lemma required_extend s s' nodes n name :
  modules_extend s s' → Forall (λ n, is_Some (first_provider s n)) nodes →
  required_output s' nodes n name → required_output s nodes n name.
Proof.
  intros Hm Hp (node & cap & p & Hn & Hid & Hcap & Hpo & Hop). exists node, cap, p. split_and!; try done.
  rw Forall_forall in Hp. destruct (Hp _ Hn) as [cap' Hc].
  rw (first_provider_extend _ _ _ _ Hm Hc) in Hcap. by rw Hc -Hcap.
Qed.
Lemma flow_extend s s' slot : modules_extend s s' → flow_inv s slot → flow_inv s' slot.
Proof.
  intros Hm Hf a t Ha Ht. destruct (Hf a t Ha Ht) as [H1 H2 H3 H4 H5 H6 H7 H8 H9]. constructor; try done.
  - eapply Forall_impl; [exact H1|]. intros n [cap Hc]. exists cap. by eapply first_provider_extend.
  - intros n d name Hd Hreq. eapply H7; [done|]. by eapply required_extend.
  - intros Hst. destruct (H9 Hst) as [Hc Hall]. split; [done|]. rw !Forall_forall in H1 Hall |- *.
    intros n Hn Hok. pose proof (capability_extend _ _ _ Hm (H1 n Hn) Hok) as Heq.
    rw Heq in Hok. specialize (Hall n Hn Hok). by rw /ready_unit Heq.
Qed.

(** ** Its preservation *)
Lemma input_answer slot a t s b : flow_ok s slot a t → b ∈ as_bindings a → b_input b ≠ "" →
  is_Some (binding_artifact slot b).
Proof.
  intros Hf Hb Hin. rw /binding_artifact (proj2 (str_is_empty_false _) Hin) /=.
  pose proof (fo_bound _ _ _ _ Hf) as Hbd. rw Forall_forall in Hbd.
  specialize (Hbd b Hb Hin). apply list_elem_of_fmap in Hbd as (i & Hname & Hi).
  destruct (list_find (λ i, na_name i = b_input b) (run_inputs (rs_run slot))) as [[k x]|] eqn:Hl; simpl.
  - apply list_find_Some in Hl as (Hx & _). apply list_elem_of_lookup_2 in Hx.
    pose proof (fo_inputs _ _ _ _ Hf) as Hall. rw Forall_forall in Hall. by apply Hall.
  - apply list_find_None in Hl. rw Forall_forall in Hl. by destruct (Hl i Hi).
Qed.

Lemma none_ready s slot a : run_assembly (rs_run slot) = Some a → assembly_any_ready s slot = false →
  Forall (λ n, is_ok (capability_for_node s n) → ready_unit s slot n = None) (as_nodes a).
Proof.
  rw /assembly_any_ready. intros ->. induction (as_nodes a) as [|n l IH]; [by constructor|]. simpl.
  intros [Hn Hl]%orb_false_iff. constructor; [|by apply IH]. by destruct (ready_unit s slot n).
Qed.
Lemma replace_input_names input l n :
  n ∈ na_name <$> l → n ∈ na_name <$> replace_input input l.
Proof.
  rw /replace_input. destruct (list_find _ l) as [[k x]|] eqn:Hl; [|rw fmap_app; set_solver].
  apply list_find_Some in Hl as (Hx & Hname & _). rw list_fmap_insert list_insert_id; [done|].
  by rw list_lookup_fmap Hx /= Hname.
Qed.
Lemma flow_same s slot slot' :
  rs_run slot' = rs_run slot → rs_latest slot' = rs_latest slot → running slot →
  flow_inv s slot → flow_inv s slot'.
Proof.
  intros Hr Hl Hrun Hf a t Ha Ht. rw Hr in Ha. destruct (Hf a t Ha Ht).
  constructor; rw ?Hr ?Hl //. rw /running in Hrun. by rw Hrun.
Qed.

Lemma fresh_slot_flow s id slot : fresh_slot s id slot → flow_inv s slot.
Proof.
  destruct 1 as [order a inputs ? ? ? ? ? Hvalid _ _ _ _ _].
  apply validate_assembly_spec in Hvalid. intros a' t [= <-] Ht.
  destruct Hvalid as [_ _ (t' & Ht' & (p & (n & cap & Hn & Hid & _) & _)) Hnd Hnodes Hni Hin Hbs _ Hac].
  assert (Forall (λ b, b_input b = "" → b_from_node b ∈ node_ids a ∧ b_from_node b ≠ "" ∧ b_to_node b ≠ "")
    (as_bindings a)) as Hup.
  { eapply Forall_impl; [exact Hbs|]. rw Forall_forall in Hnodes.
    intros b (target & (tn & tc & Htn & Hti & _) & [(Hne & _)|(_ & _ & source & (sn & sc & Hsn & Hsi & _) & _)]) Hb; [done|].
    destruct (Hnodes _ Htn) as [Htne _], (Hnodes _ Hsn) as [Hsne _].
    rw -Hti -Hsi. split_and!; [|done|done]. by apply list_elem_of_fmap_2. }
  constructor; simpl.
  - eapply Forall_impl; [exact Hnodes|]. intros x (_ & c & Hc & _). exists c. by apply capability_first.
  - intros x Hx. apply (Hac x). revert Hx. apply tc_subrel. intros u v (b & Hb & <- & <- & Hu & Hv).
    exists b. split_and!; try done. rw Forall_forall in Hbs.
    destruct (Hbs b Hb) as (target & _ & [(_ & Hf & _)|(Hi & _)]); [congruence|done].
  - done.
  - assert (t = t') as -> by congruence. rw -Hid. by apply list_elem_of_fmap_2.
  - eapply Forall_impl; [exact Hin|]. by intros i (_ & r & -> & _).
  - eapply Forall_impl; [exact Hbs|].
    intros b (target & _ & [(_ & _ & _ & i & r & art & Hi & Hname & _)|(He & _)]) Hne; [|done].
    rw -Hname. by apply list_elem_of_fmap_2.
  - intros x d name. by rw lookup_empty.
  - intros d. by rw lookup_empty.
  - done.
Qed.

Lemma slot_step_flow s id slot slot' :
  slot_step s id slot slot' → running slot → flow_inv s slot → flow_inv s slot'.
Proof.
  intros Hstep Hrun Hf. pose proof (slot_step_latest _ _ _ _ Hstep) as Hl. destruct Hstep.
  - apply (flow_same s slot); rw ?reap_is_fail //. apply fail_slot_run.
  - by apply (flow_same s slot).
  - by apply (flow_same s slot).
  - apply (flow_same s slot); rw //. apply fail_slot_run.
  - intros a t Ha Ht. destruct (Hf a t Ha Ht) as [H1' H2' H3 H4 H5 H6 H7 H8 H9].
    constructor; try done; simpl.
    + rw /replace_input. destruct (list_find _ _) as [[k x]|].
      * apply Forall_insert; [done|]. by rw H0.
      * apply Forall_app. split; [done|]. constructor; [by rw H0|done].
    + eapply Forall_impl; [exact H6|]. intros b Hb Hne. by apply replace_input_names, Hb.
    + intros Hst. assert (run_state (rs_run slot) = RsStalled) by exact Hst. unfold running in Hrun. congruence.
  - intros a t Ha Ht. destruct (Hf a t Ha Ht) as [H1' H2' H3 H4 H5 H6 H7 H8 H9].
    constructor; try done. intros _. split; [done|].
    by eapply none_ready.
  - intros a t Ha Ht. destruct (Hf a t Ha Ht) as [H1' H2' H3 H4 H5 H6 H7 H8 H9]. constructor; try done.
Qed.

Lemma validated_has_output s cap outputs p name :
  validate_outputs s cap outputs = Ok tt → port (cap_outputs cap) name = Some p → port_optional p = false →
  ∃ i o, list_find (λ o, na_name o = name) outputs = Some (i, o) ∧ is_Some (na_artifact o).
Proof.
  rw /validate_outputs. intros ([] & He%for_each_check & Ho%for_each_check)%bind_ok Hp Hopt.
  rw /port in Hp. destruct (list_find _ (cap_outputs cap)) as [[k q]|] eqn:Hf; simpl in Hp; [|done].
  injection Hp as ->. apply list_find_Some in Hf as (Hq & Hn & _). apply list_elem_of_lookup_2 in Hq.
  rw !Forall_forall in He Ho. specialize (He p Hq). simpl in He. rw /check_expected_output Hopt in He. inv_oks.
  destruct (list_find (λ o, na_name o = port_name p) outputs) as [[i o]|] eqn:Hl.
  - exists i, o. split; [done|]. apply list_find_Some in Hl as (Hi & _). apply list_elem_of_lookup_2 in Hi.
    specialize (Ho o Hi). simpl in Ho. rw /check_output in Ho. inv_oks. done.
  - apply list_find_None, (filter_false (λ o, na_name o = port_name p)) in Hl. by rw Hl in H0.
Qed.

Section commit.
Context (s : State) (slot : RunSlot) (a : Assembly) (t : NodeOutput) (c : ClaimedSlot).
Context (cap : Capability) (outputs : list NamedArtifact) (node : AssemblyNode).
Hypothesis Hf : flow_inv s slot.
Hypothesis Hrun : running slot.
Hypothesis Ha : run_assembly (rs_run slot) = Some a.
Hypothesis Ht : as_terminal a = Some t.
Hypothesis Hnd : NoDup (an_id <$> as_nodes a).
Hypothesis Hnode : node ∈ as_nodes a.
Hypothesis Hid : an_id node = wi_node_id (cs_work c).
Hypothesis Hcap : capability_for_node s node = Ok cap.
Hypothesis Hout : validate_outputs s cap outputs = Ok tt.

Lemma commit_slot_flow : flow_inv s (commit_slot s c t (derivation_of (cs_work c) outputs) slot).
Proof.
  rw commit_slot_run /=. set slot1 := record_commit c _ slot. set ans := commit_answer _ _ _.
  destruct (commit_run_fields s slot1 ans) as (_ & Has & _ & _ & _ & Hans).
  intros a' t' Ha' Ht'. rw /= Has /= in Ha'. assert (a' = a) as -> by congruence. assert (t' = t) as -> by congruence.
  destruct (Hf a t Ha Ht) as [H1 H2 H3 H4 H5 H6 H7 H8 H9].
  assert (run_inputs (commit_run s slot1 ans) = run_inputs (rs_run slot)) as Hin.
  { rw /commit_run. destruct (answered_fields slot1 ans) as (_ & _ & _ & _ & _ & _ & Hi).
    repeat match goal with |- context [if ?b then _ else _] => destruct b end; exact Hi. }
  constructor; try done; rw /= ?Hin //.
  - intros n d name. rw lookup_insert_Some. intros [[Hn <-]|[_ Hd]]; [|by apply H7].
    intros (node' & cap' & p & Hn' & Hid' & Hcap' & Hp & Hopt).
    assert (node' = node) as ->.
    { apply (fmap_unique an_id (as_nodes a)); try done. congruence. }
    apply capability_first in Hcap. assert (cap' = cap) as -> by congruence.
    by eapply validated_has_output.
  - intros d. rw lookup_insert_Some. rw Hans. intros [[Hn <-]|[_ Hd]] Hta.
    + rw /ans /commit_answer Hn (proj2 (str_eqb_true _ _) eq_refl). destruct Hta as [x ->]. by exists x.
    + specialize (H8 d Hd Hta). by destruct ans.
  - intros Hst. destruct (commit_run_cases s slot1 ans Hrun)
      as [(x & _ & _ & Hr)|[(_ & _ & Hr)|[(_ & _ & Hn & Hc & Hany & Hr)|(_ & _ & Hr)]]].
    + exfalso. revert Hst. by rw Hr run_state_with_state.
    + exfalso. revert Hst. by rw Hr run_state_with_reason run_state_with_state.
    + split; [exact Hc|]. rw Hr Hn /=. by apply (none_ready s slot1 a).
    + exfalso. revert Hst. rw Hr. destruct (answered_fields slot1 ans) as (_ & _ & _ & _ & _ & -> & _).
      intros Hst. change (run_state (rs_run slot) = RsStalled) in Hst. unfold running in Hrun. congruence.
Qed.
End commit.

Definition all_flow (s : State) : Prop := map_Forall (λ _, flow_inv s) (st_runs s).
Lemma kstep_all_flow s s' : kstep store_policy s s' → runs_inv s ∧ all_flow s → all_flow s'.
Proof.
  intros Hs [[Hruns _] Hflow]. pose proof (kstep_modules_extend _ _ _ Hs) as Hm.
  assert (map_Forall (λ _, flow_inv s') (st_runs s)) as Hold.
  { intros id slot Hslot. eapply flow_extend; [exact Hm|]. by eapply Hflow. }
  destruct Hs; try done; simpl in *; apply map_Forall_insert_2; try done.
  - apply (flow_extend s); [done|]. by eapply fresh_slot_flow.
  - apply (flow_extend s); [done|]. eapply slot_step_flow; [done..|]. by eapply Hflow.
  - pose proof (Hruns _ _ H0) as Hinv. simpl in Hinv.
    destruct (ri_assembly _ _ _ Hinv) as (a & t & Hfr & [Hcl _] & _).
    assert (wi_run_id (cs_work c) = rid) as Hrid by apply (co_run _ _ _ _ _ (Hcl _ _ H2)).
    rw Hrid H0 in H6. injection H6 as <-.
    assert (a = assembly) as -> by (pose proof (fi_assembly _ _ _ _ Hfr); congruence).
    destruct (co_node _ _ _ _ _ (Hcl _ _ H2)) as (node & Hn & Heqn & _).
    apply (flow_extend s); [done|].
    apply (commit_slot_flow s slot0 assembly terminal c cap outputs node); try done.
    + by eapply Hflow.
    + apply (fi_nodes _ _ _ _ Hfr).
    + by rw -Heqn.
    + rw -Heqn. exact H4.
Qed.
Lemma reachable_flow s : reachable store_policy s → runs_inv s ∧ all_flow s.
Proof.
  apply (reachable_inv store_policy (λ s, runs_inv s ∧ all_flow s)).
  - split; [apply runs_inv_empty|apply map_Forall_empty].
  - intros s1 s2 Hs Hinv. split; [eapply kstep_runs_inv; [done|apply Hinv]|by eapply kstep_all_flow].
Qed.

(** ** No deadlock *)
(** A unit of node [n] that is done although nothing was committed for it. *)
Definition given_up (id : string) (slot : RunSlot) (ds : list Derivation) (n : string) : Prop :=
  ∃ key, unit_key_shape n key ∧ key ∈ rs_done_units slot ∧
    ¬ Exists (λ d, d_node_id d = n ∧ d_work_id d = work_id_of id n key) ds.
Definition outputs_required (s : State) (a : Assembly) (t : NodeOutput) : Prop :=
  required_output s (as_nodes a) (no_node t) (no_port t) ∧
  Forall (λ b, b_input b = "" → required_output s (as_nodes a) (b_from_node b) (b_from_port b)) (as_bindings a).

Lemma acyclic_wf a : acyclic (dataflow a) → ∀ n, Acc (dataflow a) n.
Proof.
  intros Hac n. destruct (transitive_predecessors_spec a n) as (out & _ & Hout).
  remember (size out) as k eqn:Hk. revert n out Hout Hk.
  induction (lt_wf k) as [k _ IH]. intros n out Hout ->. constructor. intros m Hm.
  destruct (transitive_predecessors_spec a m) as (out' & _ & Hout').
  apply (IH (size out')) with (out := out'); [|done..]. apply subset_size. split.
  - intros x Hx%Hout'. apply Hout. by eapply tc_r.
  - intros Hsub. apply (Hac m). apply Hout', Hsub, Hout. by apply tc_once.
Qed.

Lemma bound_fingerprint slot inputs bs :
  mapM (λ b, artifact ← binding_artifact slot b; mret (mkNamed (b_to_port b) (Some artifact))) bs =
    Some inputs → is_Some (mapM (fingerprint_row slot inputs) bs).
Proof.
  intros Hm%mapM_Some. apply mapM_is_Some, Forall_forall. intros b Hb.
  assert (Forall (λ i, is_Some (na_artifact i)) inputs) as Hall.
  { apply Forall_forall. intros i Hi. apply list_elem_of_lookup in Hi as [k Hk].
    destruct (Forall2_lookup_r _ _ _ _ _ Hm Hk) as (b' & _ & Hi).
    destruct (binding_artifact slot b'); [|done]. by injection Hi as <-. }
  apply list_elem_of_lookup in Hb as [k Hk].
  destruct (Forall2_lookup_l _ _ _ _ _ Hm Hk) as (i & Hi & Hib).
  rw /fingerprint_row /=.
  match goal with |- context [list_find ?P inputs] => destruct (list_find P inputs) as [[j x]|] eqn:Hl end; simpl.
  - apply list_find_Some in Hl as (Hj & _). rw Forall_lookup in Hall. by destruct (Hall _ _ Hj) as [r ->].
  - apply list_find_None in Hl. rw Forall_lookup in Hl. destruct (Hl _ _ Hi).
    destruct (binding_artifact slot b); [|done]. by injection Hib as <-.
Qed.
Lemma work_unit_key_total slot a node cap firing inputs : run_assembly (rs_run slot) = Some a →
  resolve_inputs slot node = Some inputs → is_Some (work_unit_key slot node cap firing inputs).
Proof.
  intros Ha Hr. rw /resolve_inputs Ha /= in Hr. destruct firing; try done. simpl.
  rw /delivery_fingerprint /delivery_rows Ha /=.
  by destruct (bound_fingerprint _ _ _ Hr) as [rows ->].
Qed.

Section stuck.
Context (s : State) (id : string) (slot : RunSlot) (a : Assembly) (t : NodeOutput) (ds : list Derivation).
Hypothesis Hflow : flow_ok s slot a t.
Hypothesis Hhist : history_inv id slot ds.
Hypothesis Ha : run_assembly (rs_run slot) = Some a.
Hypothesis Hcaps : Forall (λ n, is_ok (capability_for_node s n)) (as_nodes a).
Hypothesis Hreq : outputs_required s a t.
Hypothesis Hclaimed : rs_claimed slot = ∅.
Hypothesis Hnone : Forall (λ n, ready_unit s slot n = None) (as_nodes a).
Abbreviation stuck_at := (λ n, n ∈ node_ids a ∧ given_up id slot ds n).

(** A node with all its inputs has been committed or given up. *)
Lemma fed_node node inputs : node ∈ as_nodes a → resolve_inputs slot node = Some inputs →
  is_Some (rs_latest slot !! an_id node) ∨ stuck_at (an_id node).
Proof.
  intros Hn Hr. pose proof Hcaps as Hc. pose proof Hnone as Hnr. rw !Forall_forall in Hc Hnr.
  specialize (Hc _ Hn). specialize (Hnr _ Hn).
  destruct (capability_for_node s node) as [cap| |] eqn:Hcap; [|done..].
  destruct (work_unit_key_total slot a node cap (effective_firing slot node cap) inputs Ha Hr) as [key Hkey].
  assert (key ∈ rs_done_units slot) as Hdone.
  { destruct (decide (key ∈ rs_done_units slot)); [done|].
    assert (ready_unit s slot node = Some (inputs, key)) as Hready; [|congruence].
    apply ready_unit_Some. split_and!; [done|by exists cap|done|].
    apply unit_is_claimed_false. intros wid c. by rw Hclaimed lookup_empty. }
  destruct (decide (Exists (λ d, d_node_id d = an_id node ∧ d_work_id d = work_id_of id (an_id node) key) ds))
    as [Hex|Hno].
  - left. apply Exists_exists in Hex as (d & Hd & Hdn & _). rw (hi_latest _ _ _ Hhist).
    apply last_is_Some. intros Hnil. assert (d ∈ of_node (an_id node) ds) as Hin by (by apply list_elem_of_filter).
    rw Hnil in Hin. set_solver.
  - right. split; [by apply list_elem_of_fmap_2|]. exists key. split_and!; [|done|done].
    by eapply work_unit_key_shape.
Qed.
Lemma every_node n : n ∈ node_ids a → is_Some (rs_latest slot !! n) ∨ ∃ m, stuck_at m.
Proof.
  induction (acyclic_wf a (fo_acyclic _ _ _ _ Hflow) n) as [n _ IH]. intros Hn.
  apply list_elem_of_fmap in Hn as (node & -> & Hn).
  assert ((∃ m, stuck_at m) ∨ Forall (λ b, is_Some (binding_artifact slot b)) (bindings_to a node)) as [Hst|Hall].
  { assert (∀ b, b ∈ bindings_to a node → b_to_node b = an_id node ∧ b ∈ as_bindings a) as Hbs
      by (by intros b ?%list_elem_of_filter).
    induction (bindings_to a node) as [|b bs IHbs]; [by right|].
    destruct (IHbs ltac:(intros b' Hb'; apply Hbs; by right)) as [?|Hall]; [by left|].
    destruct (Hbs b ltac:(left)) as [Hto Hb].
    destruct (decide (b_input b = "")) as [Hi|Hi].
    - pose proof (fo_upstream _ _ _ _ Hflow) as Hup. rw Forall_forall in Hup.
      destruct (Hup b Hb Hi) as (Hfrom & Hf1 & Hf2).
      destruct (IH (b_from_node b)) as [[d Hd]|?]; [|done| |by left].
      { exists b. by rw -Hto. }
      right. constructor; [|done]. destruct Hreq as [_ Hrq]. rw Forall_forall in Hrq.
      destruct (fo_outputs _ _ _ _ Hflow _ _ _ Hd (Hrq b Hb Hi)) as (i & o & Ho & Hart).
      by rw /binding_artifact (proj2 (str_is_empty_true _) Hi) /= Hd /= Ho.
    - right. constructor; [|done]. by eapply input_answer. }
  { by right. }
  assert (is_Some (resolve_inputs slot node)) as [inputs Hr].
  { rw /resolve_inputs Ha /=. apply mapM_is_Some. eapply Forall_impl; [exact Hall|]. intros b [r Hbr]. by rw /= Hbr. }
  destruct (fed_node node inputs Hn Hr) as [?|?]; [by left|right]. by exists (an_id node).
Qed.
Lemma stuck_given_up : run_state (rs_run slot) ≠ RsCompleted → is_open_closure slot = false →
  status_inv slot → ∃ n, stuck_at n.
Proof.
  intros Hnc Hopen Hst. destruct (every_node (no_node t) (fo_terminal _ _ _ _ Hflow)) as [[d Hd]|?]; [|done].
  exfalso. destruct Hreq as [Hterm _].
  destruct (fo_outputs _ _ _ _ Hflow _ _ _ Hd Hterm) as (i & o & Ho & Hart).
  assert (is_Some (terminal_answer t d)) as Hta by (by rw /terminal_answer Ho).
  destruct (si_answer _ Hst (fo_answer _ _ _ _ Hflow d Hd Hta)) as [?|?]; congruence.
Qed.
End stuck.

End inv.
