(* ===== verification/CutValid.v ===== *)
(** * CutValid: a cut run is accepted by the kernel

    The cut of a valid assembly, with an artifact of the right type for each seed
    it asks for, is valid again; and the seeds taken from an earlier run of the
    assembly are of the right type, because the kernel checked the outputs
    when they were committed. *)
From S2P Require Import Prelude Wire Errors Hash Traits Policy State Registry Store Events Assembly.
From S2P Require Import AssemblySpec Work Runs Units Steps Kernel Invariant Evolve Typing.
From S2P Require Import FwErrors FwPolicy KernelApi Cut CutSpec.
Local Open Scope Z_scope.

(** ** Cutting a valid assembly *)
Section cut.
Context `{Platform}.
Variable s : State.

Lemma assembly_ok_closed a inputs : assembly_ok s a inputs → closed_assembly a.
Proof.
  intros Hok. constructor.
  - apply (ao_ids _ _ _ Hok).
  - intros (n & Hn & Hin)%list_elem_of_fmap. pose proof (ao_nodes _ _ _ Hok) as Hall.
    rw Forall_forall in Hall. by destruct (Hall n Hin) as [Hne _].
  - eapply Forall_impl; [apply (ao_bindings _ _ _ Hok)|]. simpl.
    intros b (target & (n & cap & Hn & Hid & _) & Hsrc). split; [apply list_elem_of_fmap; by exists n|].
    intros Hi. destruct Hsrc as [(Hne & _)|(_ & _ & source & (m & cap' & Hm & Hmid & _) & _)]; [done|].
    apply list_elem_of_fmap. by exists m.
Qed.

Lemma has_port_functional nodes ports id name p q :
  NoDup (an_id <$> nodes) → has_port s nodes ports id name p → has_port s nodes ports id name q → p = q.
Proof.
  intros Hnd (n & cap & Hn & Hid & Hcap & Hp) (m & cap' & Hm & Hid' & Hcap' & Hq).
  assert (n = m) as -> by (eapply fmap_unique; [exact Hnd|done..|congruence]). congruence.
Qed.
Lemma has_port_filter (P : AssemblyNode → Prop) `{∀ n, Decision (P n)} nodes ports id name p :
  (∀ n, an_id n = id → P n) → has_port s nodes ports id name p →
  has_port s (filter P nodes) ports id name p.
Proof.
  intros HP (n & cap & Hn & Hid & Hrest). exists n, cap. split; [|done].
  apply list_elem_of_filter. split; [by apply HP|done].
Qed.

(** A run input that holds an artifact of the type of a dropped output port. *)
Definition seed_typed (nodes : list AssemblyNode) (inputs : list NamedArtifact) (seed : SeedSpec) : Prop :=
  ∃ i r art p, i ∈ inputs ∧ na_name i = ss_input_name seed ∧ na_artifact i = Some r ∧
    st_artifacts s !! ar_id r = Some art ∧
    has_port s nodes cap_outputs (ss_from_node seed) (ss_from_port seed) p ∧
    has_traits art (port_traits p) = true.

Lemma or_insert_seed_lookup b seeds k x :
  or_insert_seed b seeds !! k = Some x ↔
  seeds !! k = Some x ∨ (seeds !! k = None ∧ k = (b_from_node b, b_from_port b) ∧ x = seed_spec_of b).
Proof.
  rw /or_insert_seed. destruct (seeds !! (b_from_node b, b_from_port b)) as [y|] eqn:Hy.
  - split; [by left|]. intros [?|(Hn & -> & _)]; [done|congruence].
  - rw lookup_insert_Some. split.
    + intros [[<- <-]|[Hne ?]]; [by right|by left].
    + intros [Hx|(Hn & -> & ->)]; [right; split; [intros <-; congruence|done]|by left].
Qed.
(** Every crossing binding leaves a seed for its source. *)
Lemma first_seeds_lookup bs seeds b :
  b ∈ bs ∨ is_Some (seeds !! (b_from_node b, b_from_port b)) →
  is_Some (first_seeds bs seeds !! (b_from_node b, b_from_port b)).
Proof.
  revert seeds. induction bs as [|c bs IH]; intros seeds; simpl; [set_solver|].
  intros Hb. apply IH. destruct Hb as [[->|?]%elem_of_cons|[x Hx]]; [right|by left|right].
  - destruct (seeds !! (b_from_node c, b_from_port c)) as [x|] eqn:Hx.
    + exists x. apply or_insert_seed_lookup. by left.
    + exists (seed_spec_of c). apply or_insert_seed_lookup. by right.
  - exists x. apply or_insert_seed_lookup. by left.
Qed.
Lemma first_seeds_sound bs seeds k x :
  first_seeds bs seeds !! k = Some x →
  seeds !! k = Some x ∨ ∃ b, b ∈ bs ∧ k = (b_from_node b, b_from_port b) ∧ x = seed_spec_of b.
Proof.
  revert seeds. induction bs as [|c bs IH]; intros seeds; simpl; [by left|].
  intros [Hx|(b & Hb & Hrest)]%IH; [|right; exists b; split; [by right|done]].
  apply or_insert_seed_lookup in Hx as [?|(_ & ? & ?)]; [by left|]. right. exists c. split; [by left|done].
Qed.
Lemma elem_of_seeds_in_order seeds x : x ∈ seeds_in_order seeds ↔ ∃ k, seeds !! k = Some x.
Proof.
  rw /seeds_in_order !sort_by_perm list_elem_of_fmap. split.
  - intros ([k y] & -> & Hin%elem_of_map_to_list). by exists k.
  - intros [k Hk]. exists (k, x). split; [done|]. by apply elem_of_map_to_list.
Qed.
Lemma crossing_seed a kept b : b ∈ as_bindings a → crossing kept b →
  ∃ seed, seed ∈ cut_required_seeds (cut_with a kept) ∧ ss_from_node seed = b_from_node b ∧
    ss_from_port seed = b_from_port b ∧ ss_input_name seed = seed_input_name (b_from_node b) (b_from_port b).
Proof.
  intros Hb Hc. destruct (first_seeds_lookup (filter (crossing kept) (as_bindings a)) ∅ b) as [x Hx].
  { left. by apply list_elem_of_filter. }
  exists x. split; [apply elem_of_seeds_in_order; by eexists|].
  apply first_seeds_sound in Hx as [?|(c & _ & [= Hn Hp] & ->)]; [done|]. simpl. by rw Hn Hp.
Qed.

Lemma seed_input_name_nonempty n p : seed_input_name n p ≠ "".
Proof. done. Qed.

(** What becomes of the bindings: as they were, or from a seed. *)
Lemma rewired_target kept b : b_to_node (rewired kept b) = b_to_node b ∧ b_to_port (rewired kept b) = b_to_port b.
Proof. rw /rewired. destruct (negb _); [done|]. by case_bool_decide. Qed.
Lemma rewired_edges kept bs x y : edge (rewired kept <$> bs) x y → edge bs x y.
Proof.
  intros (b & (c & -> & Hc)%list_elem_of_fmap & Hi & Hf & Ht). exists c.
  revert Hi Hf Ht. rw /rewired. destruct (str_is_empty (b_input c)) eqn:He; simpl.
  - case_bool_decide; [done|]. intros Hi. by destruct (seed_input_name_nonempty (b_from_node c) (b_from_port c)).
  - done.
Qed.
Lemma fan_in_rewired (kept : gset string) bs node p : node ∈ kept →
  fan_in (rewired kept <$> filter (λ b, b_to_node b ∈ kept) bs) node p = fan_in bs node p.
Proof.
  intros Hn. rw /fan_in. induction bs as [|b bs IH]; [done|]. rw !filter_cons.
  destruct (rewired_target kept b) as [Htn Htp].
  destruct (decide (b_to_node b ∈ kept)) as [Hk|Hk].
  - rw fmap_cons filter_cons Htn Htp. by destruct (decide _); rw /= IH.
  - rw (decide_False (P:=b_to_node b = node ∧ _)); [|intros [<- _]; done]. done.
Qed.

Lemma cut_assembly_ok a inputs inputs' plan (kept : gset string) :
  assembly_ok s a inputs → plan_ok a plan → (∀ x, x ∈ kept ↔ kept_by a plan x) →
  NoDup (na_name <$> inputs') → Forall (input_ok s) inputs' → (∀ i, i ∈ inputs → i ∈ inputs') →
  Forall (seed_typed (as_nodes a) inputs') (cut_required_seeds (cut_with a kept)) →
  assembly_ok s (cut_assembly (cut_with a kept)) inputs'.
Proof.
  intros Hok (Hne & t & Ht & Htn & Htk & _) Hk Hnd Hin Hsub Hseeds. simpl.
  destruct Hok as [Hid _ (t' & Ht' & p & Hterm & Hmul) Hids Hnodes Hnames Hi Hb Hfan Hac].
  assert (t' = t) as -> by congruence. apply Hk in Htk.
  assert (∀ id ports name q, id ∈ kept → has_port s (as_nodes a) ports id name q →
    has_port s (filter (λ n, an_id n ∈ kept) (as_nodes a)) ports id name q) as Hport.
  { intros id ports name q Hidk Hp. apply has_port_filter; [|done]. by intros n ->. }
  constructor; simpl.
  - done.
  - intros He. destruct (Hport _ _ _ _ Htk Hterm) as (n & cap & Hn & _). rw He in Hn. by apply elem_of_nil in Hn.
  - exists t. split; [done|]. exists p. split; [|done]. by apply Hport.
  - eapply sublist_NoDup; [exact Hids|]. apply fmap_sublist, sublist_filter.
  - apply Forall_forall. intros n [_ Hn]%list_elem_of_filter. rw Forall_forall in Hnodes. by apply Hnodes.
  - done.
  - done.
  - apply Forall_forall. intros b' (b & -> & [Htk' Hb']%list_elem_of_filter)%list_elem_of_fmap.
    rw Forall_forall in Hb. destruct (Hb b Hb') as (target & Htgt & Hsrc).
    destruct (rewired_target kept b) as [Hrn Hrp]. exists target. rw Hrn Hrp. split; [by apply Hport|].
    destruct Hsrc as [(Hne' & Hfn & Hfp & i & r & art & Hin' & Hrest)|(He & Hfrom & source & Hsrc & Hcov)].
    + left. rw /rewired (proj2 (str_is_empty_false _) Hne') /=. split_and!; [done..|].
      exists i, r, art. split; [by apply Hsub|done].
    + rw /rewired (proj2 (str_is_empty_true _) He) /=. destruct (decide (b_from_node b ∈ kept)) as [Hfk|Hfk].
      * rw (bool_decide_eq_true_2 _ Hfk). right. split_and!; [done..|]. exists source. split; [by apply Hport|done].
      * rw (bool_decide_eq_false_2 _ Hfk) /=. left. split_and!; [done..|].
        destruct (crossing_seed a kept b Hb') as (seed & Hs & Hsn & Hsp & Hname); [done|].
        rw Forall_forall in Hseeds.
        destruct (Hseeds _ Hs) as (i & r & art & q & Hi' & Hni & Hr & Hart & Hq & Htr).
        exists i, r, art. rw Hni Hname. split_and!; try done. eapply covers_has_traits; [exact Hcov|].
        rw Hsn Hsp in Hq. by rw (has_port_functional _ _ _ _ _ _ Hids Hsrc Hq).
  - apply Forall_forall. intros n [Hnk Hn]%list_elem_of_filter. rw Forall_forall in Hfan.
    destruct (Hfan n Hn) as (cap & Hcap & Hall). exists cap. split; [done|]. simpl.
    eapply Forall_impl; [exact Hall|]. intros q. simpl. by rw (fan_in_rewired kept _ _ _ Hnk).
  - intros x Hx. apply (Hac x). revert Hx. apply tc_subrel. intros u v Huv%rewired_edges.
    destruct Huv as (b & [_ Hb']%list_elem_of_filter & Hrest). by exists b.
Qed.
End cut.

(** ** Seeds from an earlier run *)
(** [h] does not occur in [s]. *)
Fixpoint char_free (h : Ascii.ascii) (s : string) : Prop :=
  match s with
  | EmptyString => True
  | String c s => c ≠ h ∧ char_free h s
  end.
#[export] Instance char_free_dec h s : Decision (char_free h s).
Proof. induction s; simpl; apply _. Defined.
(** What is before the first separator is pinned. *)
Lemma split_at_char h (a b c d : string) : char_free h a → char_free h c →
  a +:+ String h b = c +:+ String h d → a = c ∧ b = d.
Proof.
  revert c. induction a as [|x a IH]; intros [|y c]; simpl.
  - by intros _ _ [= ->].
  - by intros _ [Hy _] [= -> _].
  - by intros [Hx _] _ [= -> _].
  - intros [_ Ha] [_ Hc] [= -> Heq]. by destruct (IH c Ha Hc Heq) as [-> ->].
Qed.
Definition slash : Ascii.ascii := Ascii.ascii_of_nat 47.
Definition slash_free : string → Prop := char_free slash.
Lemma seed_input_name_inj n p n' p' : slash_free n → slash_free n' →
  seed_input_name n p = seed_input_name n' p' → n = n' ∧ p = p'.
Proof.
  intros Hn Hn' Heq. rw /seed_input_name in Heq. apply (inj (String.app SEED_INPUT_PREFIX)) in Heq.
  by apply (split_at_char slash).
Qed.
Lemma seed_input_name_is_seed n p : is_seed_input_name (seed_input_name n p) = true.
Proof. apply starts_with_app. Qed.

Lemma latest_of_lookup want ds n :
  latest_of want ds !! n = (if bool_decide (n ∈ want) then last (of_node n ds) else None).
Proof.
  rw /latest_of /of_node. induction ds as [|d ds IH] using rev_ind; simpl.
  { rw lookup_empty. by case_bool_decide. }
  rw foldl_app filter_app /= filter_cons filter_nil.
  destruct (decide (d_node_id d ∈ want)) as [Hd|Hd];
    [rw (bool_decide_eq_true_2 _ Hd)|rw (bool_decide_eq_false_2 _ Hd)].
  - destruct (decide (d_node_id d = n)) as [<-|Hne].
    + by rw lookup_insert_eq (bool_decide_eq_true_2 _ Hd) last_snoc.
    + by rw lookup_insert_ne // IH app_nil_r.
  - rw IH. case_bool_decide as Hn; [|done]. rw decide_False; [by rw app_nil_r|]. by intros <-.
Qed.

(** What the derivation of [n] contributes. *)
Definition seed_of (latest : gmap string Derivation) (n : string) (i : NamedArtifact) : Prop :=
  ∃ d o, latest !! n = Some d ∧ o ∈ d_outputs d ∧ na_name i = seed_input_name n (na_name o) ∧
    na_artifact i = na_artifact o ∧ is_Some (na_artifact o).
Lemma seed_outputs_sound n d outputs acc acc' :
  for_each (seed_output n) acc outputs = Ok acc' → (∀ o, o ∈ outputs → o ∈ d_outputs d) →
  ∀ i, i ∈ acc'.1 → i ∈ acc.1 ∨ ∃ o, o ∈ d_outputs d ∧ na_name i = seed_input_name n (na_name o) ∧
    na_artifact i = na_artifact o ∧ is_Some (na_artifact o).
Proof.
  revert acc. induction outputs as [|o l IH]; intros acc; simpl; [intros [= ->]; by left|].
  intros (acc1 & Ho & Hl)%bind_ok Hsub i Hi.
  destruct (IH _ Hl ltac:(set_solver) i Hi) as [Hi1|?]; [|by right].
  destruct acc as [out seen]. rw /seed_output in Ho. destruct (str_is_empty (na_name o)); [injection Ho as <-; by left|].
  case_bool_decide; [injection Ho as <-; by left|]. apply bind_ok in Ho as (r & Hr & [= <-]).
  destruct (na_artifact o) as [r'|] eqn:Ha; [|done]. injection Hr as ->. simpl in Hi1.
  apply elem_of_app in Hi1 as [?| ->%list_elem_of_singleton]; [by left|]. right. exists o.
  split_and!; [apply Hsub; by left|done|done|by rw Ha].
Qed.
Lemma seed_nodes_sound rid latest nodes acc acc' :
  for_each (seed_node rid latest) acc nodes = Ok acc' →
  ∀ i, i ∈ acc'.1 → i ∈ acc.1 ∨ ∃ n, n ∈ nodes ∧ seed_of latest n i.
Proof.
  revert acc. induction nodes as [|n l IH]; intros acc; simpl; [intros [= ->]; by left|].
  intros (acc1 & Hn & Hl)%bind_ok i Hi.
  destruct (IH _ Hl i Hi) as [Hi1|(m & ? & ?)]; [|right; exists m; split; [by right|done]].
  rw /seed_node in Hn. apply bind_ok in Hn as (d & Hd & Ho).
  destruct (latest !! n) as [d'|] eqn:Hlk; [|done]. injection Hd as ->.
  destruct (seed_outputs_sound _ d _ _ _ Ho ltac:(done) i Hi1) as [?|(o & Hrest)]; [by left|].
  right. exists n. split; [by left|]. by exists d, o.
Qed.
Lemma seeds_of_derivations_sound rid ds nodes seeds :
  seeds_of_derivations rid ds nodes = Ok seeds →
  ∀ i, i ∈ seeds → ∃ n, n ∈ nodes ∧ ∃ d o, last (of_node n ds) = Some d ∧ o ∈ d_outputs d ∧
    na_name i = seed_input_name n (na_name o) ∧ na_artifact i = na_artifact o ∧ is_Some (na_artifact o).
Proof.
  rw /seeds_of_derivations. case_bool_decide; [intros [= <-] i Hi; by apply elem_of_nil in Hi|].
  intros ([out seen] & Hs & [= <-])%bind_ok i Hi.
  destruct (seed_nodes_sound _ _ _ _ _ Hs i Hi) as [Hn|(n & Hn & d & o & Hd & Hrest)];
    [by apply elem_of_nil in Hn|].
  rw /sort_strings sort_by_perm in Hn. apply elem_of_elements, elem_of_list_to_set in Hn as Hn'.
  exists n. split; [done|]. exists d, o. split; [|done].
  rw latest_of_lookup in Hd. revert Hd. by case_bool_decide.
Qed.

(** ** Merging *)
Definition named_by (m : gmap string NamedArtifact) : Prop := map_Forall (λ k i, na_name i = k) m.
Lemma insert_all_named l m : named_by m → named_by (foldl insert_named m l).
Proof.
  revert m. induction l as [|i l IH]; intros m Hm; simpl; [done|]. apply IH.
  by apply map_Forall_insert_2.
Qed.
Lemma insert_all_lookup l m k i : foldl insert_named m l !! k = Some i →
  (i ∈ l ∧ na_name i = k) ∨ m !! k = Some i.
Proof.
  revert m. induction l as [|j l IH]; intros m; simpl; [by right|].
  intros [[Hi Hk]|Hm]%IH; [left; split; [by right|done]|].
  rw /insert_named lookup_insert_Some in Hm; destruct Hm as [[<- <-]|[_ ?]]; [left; split; [by left|done]|by right].
Qed.
Lemma insert_all_other l m k : k ∉ na_name <$> l → foldl insert_named m l !! k = m !! k.
Proof.
  revert m. induction l as [|j l IH]; intros m; simpl; [done|].
  intros [Hj Hl]%not_elem_of_cons. rw IH //. by apply lookup_insert_ne.
Qed.
Lemma insert_all_elem l m i : NoDup (na_name <$> l) → i ∈ l →
  foldl insert_named m l !! na_name i = Some i.
Proof.
  revert m. induction l as [|j l IH]; intros m Hnd Hi; simpl; [by apply elem_of_nil in Hi|].
  apply NoDup_cons in Hnd as [Hj Hnd]. apply elem_of_cons in Hi as [->|Hi]; [|by apply IH].
  rw insert_all_other //. apply lookup_insert_eq.
Qed.
Lemma elem_of_merge base seeds i :
  i ∈ merge_inputs base seeds → i ∈ seeds ∨ (i ∈ base ∧ (foldl insert_named ∅ base) !! na_name i = Some i).
Proof.
  rw /merge_inputs. intros ([k j] & -> & Hk%elem_of_btree_iter)%list_elem_of_fmap. simpl.
  apply insert_all_lookup in Hk as [[? _]|Hk]; [by left|]. right.
  pose proof Hk as Hk'. apply insert_all_lookup in Hk as [[? <-]|Hn]; [done|by rw lookup_empty in Hn].
Qed.
Lemma merge_keeps_base base seeds i : NoDup (na_name <$> base) → i ∈ base →
  na_name i ∉ na_name <$> seeds → i ∈ merge_inputs base seeds.
Proof.
  intros Hnd Hi Hs. apply list_elem_of_fmap. exists (na_name i, i). split; [done|].
  apply elem_of_btree_iter. rw insert_all_other //. by apply insert_all_elem.
Qed.
Lemma merge_names base seeds : NoDup (na_name <$> merge_inputs base seeds).
Proof.
  rw /merge_inputs. set m := foldl _ _ seeds.
  assert (named_by m) as Hm by (by apply insert_all_named, insert_all_named, map_Forall_empty).
  assert (na_name <$> (btree_iter m).*2 = (btree_iter m).*1) as ->; [|apply btree_iter_nodup].
  rw -list_fmap_compose. apply list_fmap_ext. intros i [k x] Hx%list_elem_of_lookup_2. simpl.
  by apply Hm, elem_of_btree_iter.
Qed.

Lemma validate_seeds_spec cut inputs :
  validate_seeds_present cut inputs = Ok tt ↔
  ∀ seed, seed ∈ cut_required_seeds cut →
    ∃ i, foldl insert_named ∅ inputs !! ss_input_name seed = Some i ∧ is_Some (na_artifact i).
Proof.
  rw /validate_seeds_present. destruct (cut_required_seeds cut) as [|s0 l] eqn:Hl; [split; [set_solver|done]|].
  rw -Hl. assert (list_is_empty (cut_required_seeds cut) = false) as -> by (by rw Hl). clear s0 l Hl.
  set have := foldl _ _ inputs.
  assert (∀ seed, missing_seed have seed = [] ↔
    ∃ i, have !! ss_input_name seed = Some i ∧ is_Some (na_artifact i)) as Hm.
  { intros seed. rw /missing_seed. destruct (have !! _) as [i|]; [|split; [done|by intros (? & ? & _)]].
    destruct (na_artifact i) as [r|] eqn:Hr; split; try done.
    - intros _. exists i. by rw Hr.
    - intros (j & [= <-] & [? Hs]). congruence. }
  setoid_rewrite <-Hm. induction (cut_required_seeds cut) as [|x l IH]; simpl; [split; [set_solver|done]|].
  destruct (missing_seed have x) as [|y ys] eqn:Hx; simpl.
  - rw IH. setoid_rewrite elem_of_cons. split; [by intros Hall z [->|?]; [|apply Hall]|intros Hall z ?; apply Hall; by right].
  - split; [done|]. intros Hall. specialize (Hall x ltac:(by left)). congruence.
Qed.
Lemma validate_seeds_no_panic cut inputs : validate_seeds_present cut inputs ≠ Panic.
Proof. rw /validate_seeds_present. destruct (list_is_empty _); [done|]. by destruct (negb _). Qed.

(** ** Resuming *)
Section resume.
Context `{Platform}.
Variable store_policy : ArtifactStorePolicy.
Context (s : State) (rid : string) (slot : RunSlot) (a : Assembly).
Hypothesis Hreach : reachable store_policy s.
Hypothesis Hslot : st_runs s !! rid = Some slot.
Hypothesis Hassembly : run_assembly (rs_run slot) = Some a.

(** A seed is an output the kernel checked when the node committed it. *)
Lemma seeds_typed cut_nodes seeds i :
  seeds_of_derivations rid (run_derivations s rid) cut_nodes = Ok seeds → i ∈ seeds →
  ∃ node cap o p r art, node ∈ as_nodes a ∧ first_provider s node = Some cap ∧
    na_name i = seed_input_name (an_id node) (na_name o) ∧
    port (cap_outputs cap) (na_name o) = Some p ∧ na_artifact i = Some r ∧
    st_artifacts s !! ar_id r = Some art ∧ has_traits art (port_traits p) = true.
Proof.
  intros Hs Hi. destruct (reachable_typed _ _ Hreach) as [[Hruns _] Htyped].
  destruct (seeds_of_derivations_sound _ _ _ _ Hs i Hi) as (n & _ & d & o & Hd & Ho & Hname & Hart & _).
  pose proof (Hruns _ _ Hslot) as Hinv. destruct (ri_history _ _ _ Hinv) as [_ Hlatest _ _].
  rw -Hlatest in Hd. destruct (Htyped _ _ Hslot a Hassembly) as [_ Hl].
  destruct (Hl n d Hd) as (node & cap & Hn & <- & Hcap & Hout). rw Forall_forall in Hout.
  destruct (Hout o Ho) as (p & r & art & Hp & Hr & Hst & Htr).
  exists node, cap, o, p, r, art. split_and!; try done. by rw Hart.
Qed.

Lemma seeds_input_ok cut_nodes seeds :
  seeds_of_derivations rid (run_derivations s rid) cut_nodes = Ok seeds → Forall (input_ok s) seeds.
Proof.
  intros Hs. apply Forall_forall. intros i Hi.
  destruct (seeds_typed _ _ _ Hs Hi) as (node & cap & o & p & r & art & _ & _ & Hname & _ & Hr & Hst & _).
  split; [by rw Hname|]. exists r. split; [done|]. by apply elem_of_dom_2 in Hst.
Qed.

Lemma seed_answers base cut_nodes seeds inputs b i r :
  Forall slash_free (node_ids a) → assembly_ok s a base →
  seeds_of_derivations rid (run_derivations s rid) cut_nodes = Ok seeds →
  b ∈ as_bindings a → b_input b = "" → i ∈ inputs → i ∈ seeds →
  na_name i = ss_input_name (seed_spec_of b) → na_artifact i = Some r →
  seed_typed s (as_nodes a) inputs (seed_spec_of b).
Proof.
  intros Hslash Hok Hseeds Hb Hbi Hin Hi Hname Hr.
  destruct (seeds_typed _ _ _ Hseeds Hi) as (node & cap & o & p & r' & art & Hn & Hcap & Hni & Hp & Hr' & Hst & Htr).
  assert (r' = r) as -> by congruence. pose proof (ao_bindings _ _ _ Hok) as Hall. rw Forall_forall in Hall.
  destruct (Hall b Hb) as (target & _ & [(? & _)|(_ & _ & source & Hsrc & _)]); [done|].
  pose proof Hsrc as (m & cap' & Hm & Hid & Hcap' & Hport). rw Forall_forall in Hslash.
  destruct (seed_input_name_inj (an_id node) (na_name o) (b_from_node b) (b_from_port b)) as [Hn1 Hn2].
  { apply Hslash, list_elem_of_fmap. by exists node. }
  { apply Hslash, list_elem_of_fmap. by exists m. }
  { by rw -Hni Hname. }
  assert (node = m) as -> by (eapply fmap_unique; [exact (ao_ids _ _ _ Hok)|done..|congruence]).
  apply capability_first in Hcap'. assert (cap' = cap) as -> by congruence.
  exists i, r, art, source. split_and!; [done..|]. assert (p = source) as -> by congruence. done.
Qed.

(** C15: a run is resumed on valid data.  Take the plan of any part of the
    assembly of an earlier run, in any reachable state in which the assembly
    still validates on inputs that are not seeds: if the seeds collected from the
    derivations of that run answer what the cut asks for, the kernel's
    validator accepts the cut with the merged inputs.  Node ids may
    not contain the slash that separates node and port in a seed's name. *)
Theorem resumed_assembly_valid `{HashOrder} base plan cut cut_nodes seeds :
  Forall slash_free (node_ids a) →
  validate_assembly s a base = Ok tt → Forall (λ i, is_seed_input_name (na_name i) = false) base →
  materialize_cut a plan = Ok cut →
  seeds_of_derivations rid (run_derivations s rid) cut_nodes = Ok seeds →
  validate_seeds_present cut (merge_inputs base seeds) = Ok tt →
  validate_assembly s (cut_assembly cut) (merge_inputs base seeds) = Ok tt.
Proof.
  intros Hslash Hv%validate_assembly_spec Hbase Hcut Hseeds Hpresent. apply validate_assembly_spec.
  pose proof (assembly_ok_closed _ _ _ Hv) as Hclosed.
  apply (materialize_cut_spec a Hclosed) in Hcut as (Hp & kept & Hk & ->).
  assert (∀ i, i ∈ seeds → is_seed_input_name (na_name i) = true) as Hsn.
  { intros i Hi. destruct (seeds_typed _ _ _ Hseeds Hi) as (? & ? & o & ? & ? & ? & _ & _ & -> & _).
    apply seed_input_name_is_seed. }
  assert (∀ i, i ∈ base → na_name i ∉ na_name <$> seeds) as Hdisj.
  { intros i Hi (j & Heq & Hj)%list_elem_of_fmap. rw Forall_forall in Hbase.
    pose proof (Hbase i Hi). pose proof (Hsn j Hj). simpl in *. congruence. }
  eapply cut_assembly_ok; [exact Hv|exact Hp|exact Hk|apply merge_names|..].
  - pose proof (seeds_input_ok _ _ Hseeds) as Hok. pose proof (ao_inputs _ _ _ Hv) as Hok'.
    rw !Forall_forall in Hok Hok' |- *. intros i [?|[? _]]%elem_of_merge; [by apply Hok|by apply Hok'].
  - intros i Hi. apply merge_keeps_base; [apply (ao_input_names _ _ _ Hv)|done|by apply Hdisj].
  - apply Forall_forall. intros seed Hseed. rw validate_seeds_spec in Hpresent.
    destruct (Hpresent seed Hseed) as (i & Hi & [r Hr]).
    apply insert_all_lookup in Hi as [[Hi Hname]|Hn]; [|by rw lookup_empty in Hn].
    apply elem_of_seeds_in_order in Hseed as (k & [?|(b & [(_ & Hbi & _) Hb]%list_elem_of_filter & _ & ->)]%first_seeds_sound);
      [done|].
    pose proof Hi as Hin. apply elem_of_merge in Hi as [Hi'|[Hi' _]].
    2: { rw Forall_forall in Hbase. specialize (Hbase i Hi'). simpl in Hbase, Hname.
         by rw Hname seed_input_name_is_seed in Hbase. }
    by apply (seed_answers base cut_nodes seeds _ b i r).
Qed.
End resume.
