(* ===== verification/FwPolicySpec.v ===== *)
(** * FwPolicySpec: a framework policy means the same to the kernel

    What the kernel makes of a run request that [apply_to_run_request] filled
    in: how its nodes fire, when it closes, and its limits. *)
From S2P Require Import Prelude Wire Errors Hash Traits State Assembly AssemblySpec Work Runs Units.
From S2P Require Import Steps RunTheorems Presentation Storage Memo FwPolicy.
Local Open Scope Z_scope.

(** A firing if it is one, otherwise the next choice. *)
Definition or_else_firing (f g : Firing) : Firing := if bool_decide (f = FiUnspecified) then g else f.
(** How a node with a capability that declares [declared] fires under a plan. *)
Definition planned_firing (plan : FiringPlan) (node : string) (declared : Firing) : Firing :=
  match plan with
  | CapabilityDefaults => or_else_firing declared FiOnce
  | FpAll f => or_else_firing f (or_else_firing declared FiOnce)
  | FpMap dflt by_node =>
      or_else_firing (default FiUnspecified (by_node !! node))
        (or_else_firing declared (or_else_firing dflt FiOnce))
  end.

Lemma Closure_try_from_i32 c : Closure_try_from (Closure_i32 c) = Some c.
Proof. by destruct c. Qed.
Lemma Firing_i32_unspecified f : (Firing_i32 f =? Firing_i32 FiUnspecified) = bool_decide (f = FiUnspecified).
Proof. by destruct f. Qed.
Lemma pinned_lookup f nodes (m : gmap string Z) id :
  foldl (λ m n, <[an_id n := Firing_i32 f]> m) m nodes !! id =
  if bool_decide (id ∈ an_id <$> nodes) then Some (Firing_i32 f) else m !! id.
Proof.
  revert m. induction nodes as [|n l IH]; intros m; simpl; [done|]. rw IH.
  destruct (decide (id ∈ an_id <$> l)) as [Hl|Hl].
  - rw (bool_decide_eq_true_2 _ Hl) bool_decide_eq_true_2; [done|by right].
  - rw (bool_decide_eq_false_2 _ Hl). destruct (decide (an_id n = id)) as [->|Hne].
    + rw lookup_insert_eq bool_decide_eq_true_2; [done|by left].
    + rw lookup_insert_ne // bool_decide_eq_false_2; [done|]. by intros [->|?]%elem_of_cons.
Qed.
(** An override in the wire format is the firing it was made from. *)
Lemma override_of p node f : ep_by_node p !! an_id node = Some (Firing_i32 f) →
  node_override (Some p) node = if bool_decide (f = FiUnspecified) then None else Some f.
Proof. intros Hf. rw /node_override /= Hf /= Firing_i32_unspecified Firing_try_from_i32. by case_bool_decide. Qed.
Lemma override_none p node : ep_by_node p !! an_id node = None → node_override (Some p) node = None.
Proof. intros Hf. by rw /node_override /= Hf. Qed.

Lemma policy_firing p a slot node cap :
  run_policy (rs_run slot) = Some (execution_policy_for (Some a) p) → an_id node ∈ an_id <$> as_nodes a →
  effective_firing slot node cap = planned_firing (fp_firing p) (an_id node) (cap_firing_enum cap).
Proof.
  intros Hp Hn. rw /effective_firing Hp /planned_firing /or_else_firing. set q := execution_policy_for _ _.
  destruct (fp_firing p) as [|f|dflt by_node] eqn:Hf.
  - rw override_none; [|by rw /q /execution_policy_for Hf].
    assert (ep_default_enum q = FiUnspecified) as -> by (by rw /q /execution_policy_for Hf).
    rw (bool_decide_eq_true_2 (FiUnspecified = _)) //. by case_bool_decide.
  - rw (override_of q node f); [|by rw /q /execution_policy_for Hf /= pinned_lookup (bool_decide_eq_true_2 _ Hn)].
    assert (ep_default_enum q = f) as -> by (by rw /q /execution_policy_for Hf /ep_default_enum /= Firing_try_from_i32).
    by repeat case_bool_decide.
  - assert (ep_by_node q !! an_id node = Firing_i32 <$> by_node !! an_id node) as Hl
      by (by rw /q /execution_policy_for Hf /= lookup_fmap).
    assert (ep_default_enum q = dflt) as -> by (by rw /q /execution_policy_for Hf /ep_default_enum /= Firing_try_from_i32).
    destruct (by_node !! an_id node) as [f|]; simpl in Hl; cbn [default from_option].
    + rw (override_of q node f) //. by repeat case_bool_decide.
    + rw override_none //. by repeat case_bool_decide.
Qed.

(** The fields of a policy that the code holds at a width. *)
Definition fw_policy_ok (p : FrameworkPolicy) : Prop :=
  (∀ n, fp_max_steps p = Some n → u64_ok n) ∧ (∀ n, fp_concurrency p = Some n → u32_ok n) ∧
  (∀ n, fp_lease_ms p = Some n → u64_ok n) ∧ (∀ n, fp_max_attempts p = Some n → u32_ok n).

Lemma effective_concurrency_range p : fw_policy_ok p → 1 ≤ effective_concurrency p ∧ u32_ok (effective_concurrency p).
Proof.
  intros (_ & Hc & _). rw /effective_concurrency. destruct (fp_concurrency p) as [n|]; simpl.
  - specialize (Hc n eq_refl). unfold u32_ok in *. split; lia.
  - rw /u32_ok /DEFAULT_CONCURRENCY. lia.
Qed.
Lemma default_max_steps_range n p : 0 ≤ n → u64_ok (default_max_steps n p).
Proof. intros Hn. rw /default_max_steps. case_bool_decide; rw /u64_ok /u64_max; lia. Qed.
Lemma applied_request_ok req p : fw_policy_ok p → (∀ a, rr_assembly req = Some a → u64_ok (len (as_nodes a))) →
  run_request_ok (apply_to_run_request req p).
Proof.
  intros Hok Ha. destruct (effective_concurrency_range p Hok) as [Hc1 Hc2].
  destruct Hok as (Hm & _ & Hl & Hat). split; [|done].
  assert (∀ n, 0 ≤ n → u64_ok (match fp_max_steps p with Some m => m | None => default_max_steps n p end)) as Hms.
  { intros n Hn. destruct (fp_max_steps p); [by apply Hm|by apply default_max_steps_range]. }
  intros l [= <-]. simpl. split_and!.
  - apply Hms. destruct (rr_assembly req); rw ?/len; lia.
  - unfold u64_ok, u32_ok in *. lia.
  - destruct (fp_lease_ms p); [by apply Hl|by rw /u64_ok].
  - destruct (fp_max_attempts p); [by apply Hat|by rw /u32_ok].
Qed.

(** C23: a policy means the same to the kernel.  Of a request for assembly
    [a0] that [apply_to_run_request] filled in, the run the kernel starts on the
    nodes the plan includes fires every node as [planned_firing] says (the
    plan's entry for the node, else the firing its capability declares, else the plan's
    default: a declared firing comes before the default of a firing map,
    [FwFindings.map_default_not_used]), stays
    open exactly when the mode asks for it, holds at most the effective
    concurrency of units in flight (at least one), and takes at most the
    resolved number of steps, or one per node where that is zero; and the request
    is within the wire format. *)
Theorem policy_compiled `{HashOrder} req p a0 a node cap :
  fw_policy_ok p → u64_ok (len (as_nodes a0)) → rr_assembly req = Some a0 →
  materialize_assembly a0 (include_nodes p) = Ok a → node ∈ as_nodes a →
  let req' := apply_to_run_request req p in
  let slot := started_slot req' a in
  run_request_ok req' ∧
  effective_firing slot node cap = planned_firing (fp_firing p) (an_id node) (cap_firing_enum cap) ∧
  is_open_closure slot = bool_decide (closure p = ClOpen) ∧
  rs_max_in_flight slot = effective_concurrency p ∧ 1 ≤ effective_concurrency p ∧
  run_max_steps (rs_run slot) =
    (if resolve_max_steps a0 p =? 0 then len (as_nodes a) else resolve_max_steps a0 p) ∧
  (fp_max_steps p = None → closure p = ClOpen → 10000 ≤ run_max_steps (rs_run slot)).
Proof.
  intros Hok Hlen Ha0 Ha Hn req' slot.
  assert (an_id node ∈ an_id <$> as_nodes a0) as Hin.
  { apply list_elem_of_fmap. exists node. split; [done|]. apply materialize_spec in Ha.
    destruct Ha as [[_ ->]|(_ & _ & ->)]; [done|]. by apply list_elem_of_filter in Hn as [_ ?]. }
  assert (run_policy (rs_run slot) = Some (execution_policy_for (Some a0) p)) as Hpol
    by (by rw /slot /req' /= Ha0).
  assert (run_max_steps (rs_run slot) =
    (if resolve_max_steps a0 p =? 0 then len (as_nodes a) else resolve_max_steps a0 p)) as Hmax.
  { by rw /slot /req' /= /limit_or /= Ha0. }
  split_and!.
  - apply applied_request_ok; [done|]. intros a1. rw Ha0. by intros [= <-].
  - by eapply policy_firing.
  - rw /is_open_closure Hpol. f_equal. rw /ep_closure_enum /execution_policy_for. destruct (fp_firing p); by rw /= Closure_try_from_i32.
  - done.
  - by apply effective_concurrency_range.
  - done.
  - intros Hms Hcl. rw Hmax /resolve_max_steps Hms /default_max_steps (bool_decide_eq_true_2 _ Hcl).
    match goal with |- context [?x =? 0] => destruct (Z.eqb_spec x 0) end; lia.
Qed.
