(* ===== verification/Host.v ===== *)
(** * Host: plugins driven over a kernel

    [src/framework/sdk/rust/src/lib.rs]: plugins, the context of a step, and
    the [Host] that claims work, executes it and commits what comes out.  The host is
    a state monad over a kernel ([KernelApi]), a table backend ([StorageBackend])
    and a memo store ([MemoStore]).

    A plugin is a record of functions.  It may keep state of its own and be called
    from several threads, so each call takes a ticket, a number no other call
    gets: a plugin that answers differently each time, and any interleaving of the
    threads, is some function of the ticket.  Only [execute] may panic.  The
    loop of [drive_until_idle] takes fuel; [HostSpec] shows how much is enough. *)
From S2P Require Import Prelude Wire Errors Traits FwErrors Presentation Storage Memo FwPolicy.
From S2P Require Import KernelApi Cut.
Local Open Scope Z_scope.

(** ** What a plugin works with *)
Record PortBody := mkPortBody {
  po_port : string; po_traits : gmap string bytes; po_entity_id : string }.
Definition po_with_trait (port contract : string) (body : bytes) : PortBody :=
  mkPortBody port {[contract := body]} "".
Definition po_with_traits (port : string) (pairs : list (string * bytes)) : PortBody :=
  mkPortBody port (foldl (λ m '(c, b), <[c := b]> m) ∅ pairs) "".
Definition po_with_entity_id (id : string) (p : PortBody) : PortBody :=
  mkPortBody (po_port p) (po_traits p) id.
Record StepOutput := mkStepOutput { so_outputs : list PortBody }.

Record StepContext := mkStep {
  sc_run_id : string; sc_work : WorkItem; sc_inputs : gmap string Artifact;
  sc_progress_buf : list Presentation }.
Definition step_with_progress (buf : list Presentation) (s : StepContext) : StepContext :=
  mkStep (sc_run_id s) (sc_work s) (sc_inputs s) buf.
Definition progress_presentation (s : StepContext) (p : Presentation) : Presentation :=
  let p := with_stage StProgress p in
  let p := if bool_decide (p_status p = PsPending) then with_status PsRunning p else p in
  fill_identity (sc_run_id s) (sc_work s) p.
Definition emit_progress (p : Presentation) : M StepContext FrameworkError unit :=
  modify (λ s, step_with_progress (sc_progress_buf s ++ [progress_presentation s p]) s).
Definition progress_count (s : StepContext) : Z := len (sc_progress_buf s).
Definition take_progress (s : StepContext) : list Presentation * StepContext :=
  (sc_progress_buf s, step_with_progress [] s).

Section plugin.
Context `{JsonValue}.

(** [ModulePlugin].  [execute] runs on the step it may change. *)
Record ModulePlugin := mkPlugin {
  pl_manifest : nat → ModuleManifest;
  pl_module_digest : nat → option string;
  pl_execute : nat → M StepContext FrameworkError StepOutput;
  pl_on_init : nat → StepContext → option Presentation;
  pl_on_final : nat → StepContext → StepResult → option Presentation;
  pl_storage_schema : nat → option TableSchema;
  pl_on_store : nat → StepContext → StepResult → option StoreWrite;
}.
(** The hooks a plugin gets when it does not write its own. *)
Definition default_module_digest : nat → option string := λ _, None.
Definition default_on_init (processing_ui : nat → WorkItem → option ProcessingView)
    : nat → StepContext → option Presentation := λ t step,
  from_processing_view <$> processing_ui t (sc_work step).
Definition default_on_final (result_ui : nat → WorkItem → list NamedArtifact → option ResultView)
    : nat → StepContext → StepResult → option Presentation := λ t step result,
  if sr_ok result then from_result_view <$> result_ui t (sc_work step) (sr_outputs result) else None.
Definition default_storage_schema : nat → option TableSchema := λ _, None.
Definition default_on_store : nat → StepContext → StepResult → option StoreWrite := λ _ _ _, None.
End plugin.

(** ** The host *)
Inductive UiPersist := LocalOnly | Artifacts.
#[export] Instance UiPersist_eq_dec : EqDecision UiPersist.
Proof. solve_decision. Defined.

(** [serde_json::to_vec] of a presentation: its bytes, or the message of the error. *)
Class PresentationJson := presentation_to_vec : Presentation → string + bytes.

Section host.
Context `{Platform, HashOrder, JsonValue, PresentationJson}.
Context {K B MS : Type} `{KernelApi K, !StorageBackend B, MemoStore MS}.

Record Host := mkHost {
  h_kernel : K;
  h_plugins : gmap string ModulePlugin;
  h_ctx : RequestContext;
  h_ui_persist : UiPersist;
  h_step_events : list StepEvent;
  h_run_policies : gmap string FrameworkPolicy;
  h_storage : option B;
  h_storage_schemas : gmap string TableSchema;
  h_run_tables : gmap string (list string);
  h_memo : option MS;
  h_execute_count : Z;
  h_memo_hit_count : Z;
  (* the next ticket *)
  h_ticket : nat;
}.
Abbreviation HostM := (M Host FrameworkError).

(** *** Its fields *)
Definition host_with_kernel (x : K) (h : Host) : Host :=
  mkHost x (h_plugins h) (h_ctx h) (h_ui_persist h) (h_step_events h) (h_run_policies h) (h_storage h)
    (h_storage_schemas h) (h_run_tables h) (h_memo h) (h_execute_count h) (h_memo_hit_count h) (h_ticket h).
Definition host_with_plugins (x : gmap string ModulePlugin) (h : Host) : Host :=
  mkHost (h_kernel h) x (h_ctx h) (h_ui_persist h) (h_step_events h) (h_run_policies h) (h_storage h)
    (h_storage_schemas h) (h_run_tables h) (h_memo h) (h_execute_count h) (h_memo_hit_count h) (h_ticket h).
Definition with_context (x : RequestContext) (h : Host) : Host :=
  mkHost (h_kernel h) (h_plugins h) x (h_ui_persist h) (h_step_events h) (h_run_policies h) (h_storage h)
    (h_storage_schemas h) (h_run_tables h) (h_memo h) (h_execute_count h) (h_memo_hit_count h) (h_ticket h).
Definition with_ui_persist (x : UiPersist) (h : Host) : Host :=
  mkHost (h_kernel h) (h_plugins h) (h_ctx h) x (h_step_events h) (h_run_policies h) (h_storage h)
    (h_storage_schemas h) (h_run_tables h) (h_memo h) (h_execute_count h) (h_memo_hit_count h) (h_ticket h).
Definition host_with_events (x : list StepEvent) (h : Host) : Host :=
  mkHost (h_kernel h) (h_plugins h) (h_ctx h) (h_ui_persist h) x (h_run_policies h) (h_storage h)
    (h_storage_schemas h) (h_run_tables h) (h_memo h) (h_execute_count h) (h_memo_hit_count h) (h_ticket h).
Definition host_with_policies (x : gmap string FrameworkPolicy) (h : Host) : Host :=
  mkHost (h_kernel h) (h_plugins h) (h_ctx h) (h_ui_persist h) (h_step_events h) x (h_storage h)
    (h_storage_schemas h) (h_run_tables h) (h_memo h) (h_execute_count h) (h_memo_hit_count h) (h_ticket h).
Definition host_with_backend (x : option B) (h : Host) : Host :=
  mkHost (h_kernel h) (h_plugins h) (h_ctx h) (h_ui_persist h) (h_step_events h) (h_run_policies h) x
    (h_storage_schemas h) (h_run_tables h) (h_memo h) (h_execute_count h) (h_memo_hit_count h) (h_ticket h).
Definition host_with_schemas (x : gmap string TableSchema) (h : Host) : Host :=
  mkHost (h_kernel h) (h_plugins h) (h_ctx h) (h_ui_persist h) (h_step_events h) (h_run_policies h) (h_storage h)
    x (h_run_tables h) (h_memo h) (h_execute_count h) (h_memo_hit_count h) (h_ticket h).
Definition host_with_tables (x : gmap string (list string)) (h : Host) : Host :=
  mkHost (h_kernel h) (h_plugins h) (h_ctx h) (h_ui_persist h) (h_step_events h) (h_run_policies h) (h_storage h)
    (h_storage_schemas h) x (h_memo h) (h_execute_count h) (h_memo_hit_count h) (h_ticket h).
Definition host_with_memo_store (x : option MS) (h : Host) : Host :=
  mkHost (h_kernel h) (h_plugins h) (h_ctx h) (h_ui_persist h) (h_step_events h) (h_run_policies h) (h_storage h)
    (h_storage_schemas h) (h_run_tables h) x (h_execute_count h) (h_memo_hit_count h) (h_ticket h).
Definition host_with_counts (executed hits : Z) (h : Host) : Host :=
  mkHost (h_kernel h) (h_plugins h) (h_ctx h) (h_ui_persist h) (h_step_events h) (h_run_policies h) (h_storage h)
    (h_storage_schemas h) (h_run_tables h) (h_memo h) executed hits (h_ticket h).
Definition host_with_ticket (x : nat) (h : Host) : Host :=
  mkHost (h_kernel h) (h_plugins h) (h_ctx h) (h_ui_persist h) (h_step_events h) (h_run_policies h) (h_storage h)
    (h_storage_schemas h) (h_run_tables h) (h_memo h) (h_execute_count h) (h_memo_hit_count h) x.

Definition host_new (kernel : K) : Host :=
  mkHost kernel ∅ (mkContext "srcport-framework" "" 0 "") LocalOnly [] ∅ None ∅ ∅ None 0 0 0%nat.
Definition host_with_storage (backend : B) : Host → Host := host_with_backend (Some backend).
Definition host_with_memo (store : MS) : Host → Host := host_with_memo_store (Some store).
Definition host_policy (run_id : string) (h : Host) : option FrameworkPolicy := h_run_policies h !! run_id.
Definition take_step_events (h : Host) : list StepEvent * Host := (h_step_events h, host_with_events [] h).

(** *** Calls out of the host *)
Definition call_kernel {A} (op : RequestContext → M K KernelError A) : HostM A := λ h,
  let '(o, k) := op (h_ctx h) (h_kernel h) in (from_kernel o, host_with_kernel k h).
(** [missing] is what is answered without a backend. *)
Definition call_backend {A} (missing : FResult A) (op : M B FrameworkError A) : HostM A := λ h,
  match h_storage h with
  | None => (missing, h)
  | Some b => let '(o, b) := op b in (o, host_with_backend (Some b) h)
  end.
Definition ticket : HostM nat := λ h, (Ok (h_ticket h), host_with_ticket (S (h_ticket h)) h).
(** [let _ = ..]: an error is dropped, a panic is not. *)
Definition ignore {A} (m : HostM A) : HostM unit := λ h,
  let '(o, h) := m h in (match o with Panic => Panic | _ => Ok tt end, h).
Definition find_plugin (module : string) : HostM ModulePlugin :=
  h ← get; lift (ok_or (NoPlugin module) (h_plugins h !! module)).

(** *** Presentation *)
Definition produced_by (module : string) (a : Artifact) : Artifact :=
  mkArtifact (art_id a) (art_meta a) module (art_traits a) (art_entity_id a) (art_supersedes a).
Definition maybe_put_ui (module contract : string) (view : Presentation) : HostM string :=
  h ← get;
  if negb (bool_decide (h_ui_persist h = Artifacts)) then mret ""
  else
    body ← lift (match presentation_to_vec view with
                 | inl e => Err (FwInvalid ("serialize presentation: " +:+ e))
                 | inr body => Ok body
                 end);
    r ← call_kernel (api_put_artifact (produced_by module (artifact_with_trait contract body)));
    mret (ar_id r).
Definition emit_presentation (module : string) (presentation : Presentation) : HostM unit :=
  let stage := p_stage presentation in
  artifact_id ← maybe_put_ui module (contract_ref stage) presentation;
  modify (λ h, host_with_events (h_step_events h ++ [mkStepEvent stage presentation artifact_id]) h).
Definition emit_optional (module : string) (p : option Presentation) : HostM unit :=
  match p with Some p => emit_presentation module p | None => mret tt end.

Definition skipped_presentation (run_id : string) (cut : AssemblyCut) (skipped : SkippedNode)
    : Presentation :=
  let seeds := filter (λ s, ss_from_node s = sk_node_id skipped) (cut_required_seeds cut) in
  let detail :=
    if list_is_empty seeds then "skipped (no outputs required by kept nodes)"
    else "skipped (seeded ports: " +:+ join_strings ", " (ss_from_port <$> seeds) +:+ "); cut from run" in
  let p := presentation_skipped ("Skip " +:+ sk_node_id skipped) detail in
  let p := with_identity run_id (p_work_id p) (sk_node_id skipped) (sk_module skipped)
             (sk_capability skipped) p in
  with_meta
    (foldl (λ m s, <["seed:" +:+ ss_from_port s := ss_input_name s]> m)
       (<["cut" := "true"]> (p_meta p)) seeds) p.
Definition emit_skip_events (run_id : string) (cut : AssemblyCut) : HostM unit :=
  for_each_M (λ skipped, emit_presentation (sk_module skipped) (skipped_presentation run_id cut skipped))
    (cut_skipped cut).

(** *** Storage *)
Definition tables_to_ensure (run_id : string) (policy : FrameworkPolicy)
    (schemas : gmap string TableSchema) : list QualifiedTable :=
  let plan := fp_storage policy in
  (if module_tables plan
   then (λ '(module, schema), qualify_table (stp_mode plan) run_id module schema) <$> hm_iter schemas
   else []) ++
  (if stp_step_log plan then [step_log_qualified (stp_mode plan) run_id] else []).
Definition ensure_run_storage (run_id : string) (policy : FrameworkPolicy) : HostM unit :=
  if negb (storage_enabled (fp_storage policy)) then mret tt
  else
    h ← get;
    lift (ok_or (FwInvalid "storage enabled without backend") (h_storage h));;
    let to_ensure := tables_to_ensure run_id policy (h_storage_schemas h) in
    for_each_M (λ q, call_backend Panic (sb_ensure_table q)) to_ensure;;
    if list_is_empty to_ensure then mret tt
    else modify (λ h, host_with_tables (<[run_id := qt_physical_name <$> to_ensure]> (h_run_tables h)) h).

Definition step_log_row (run_id module : string) (step : StepContext) (result : StepResult) : StoreRow :=
  let row : StoreRow :=
    <["ok" := SvBoolean (sr_ok result)]>
      (<["capability" := SvText (wi_capability (sc_work step))]>
        (<["module" := SvText module]>
          (<["node_id" := SvText (wi_node_id (sc_work step))]>
            (<["work_id" := SvText (wi_id (sc_work step))]>
              (<["run_id" := SvText run_id]> (∅ : StoreRow)))))) in
  let row := match sr_error result with Some err => <["error" := SvText err]> row | None => row end in
  <["output_ports" := SvJson (json_strings (na_name <$> sr_outputs result))]> row.
Definition store_step_rows (run_id module : string) (policy : FrameworkPolicy) (schema : TableSchema)
    (step : StepContext) (result : StepResult) : HostM unit :=
  plugin ← find_plugin module;
  t ← ticket;
  match pl_on_store plugin t step result with
  | None => mret tt
  | Some write =>
      if list_is_empty (sw_rows write) then mret tt
      else
        let mode := default (ts_write_mode schema) (sw_mode write) in
        let q := qualify_table (stp_mode (fp_storage policy)) run_id module schema in
        let rows := inject_identity run_id (wi_id (sc_work step)) (wi_node_id (sc_work step)) module <$>
                      sw_rows write in
        call_backend (Err (FwInvalid "storage missing at write"))
          (sb_write_rows (qt_physical_name q) mode rows (ts_primary_key schema) run_id)
  end.
Definition write_step_log (run_id module : string) (policy : FrameworkPolicy)
    (step : StepContext) (result : StepResult) : HostM unit :=
  let q := step_log_qualified (stp_mode (fp_storage policy)) run_id in
  call_backend (Err (FwInvalid "storage missing at step_log write"))
    (sb_ensure_table q;;
     sb_write_rows (qt_physical_name q) WmAppend [step_log_row run_id module step result] [] run_id).
Definition apply_step_storage (run_id module : string) (step : StepContext) (result : StepResult)
    : HostM unit :=
  h ← get;
  match h_run_policies h !! run_id with
  | None => mret tt
  | Some policy =>
      if negb (storage_enabled (fp_storage policy)) then mret tt
      else
        match (if module_tables (fp_storage policy) then h_storage_schemas h !! module else None) with
        | Some schema => store_step_rows run_id module policy schema step result
        | None => mret tt
        end;;
        if stp_step_log (fp_storage policy) then write_step_log run_id module policy step result
        else mret tt
  end.
(** [if let Some(backend)]: nothing is dropped without a backend. *)
Definition drop_run_tables (tables : list string) : HostM unit :=
  for_each_M (λ t, ignore (call_backend (Ok tt) (sb_drop_table t))) tables.
Definition finish_run_storage (run_id : string) : HostM unit :=
  h ← get;
  let policy := h_run_policies h !! run_id in
  let retention := default Keep ((λ p, stp_retention (fp_storage p)) <$> policy) in
  let mode := default SmOff ((λ p, stp_mode (fp_storage p)) <$> policy) in
  modify (λ h, host_with_tables (delete run_id (h_run_tables h)) h);;
  (if bool_decide (retention = DropOnEnd) && bool_decide (mode = SmPerRun)
   then drop_run_tables (default [] (h_run_tables h !! run_id)) else mret tt);;
  modify (λ h, host_with_policies (delete run_id (h_run_policies h)) h).

(** *** Registering plugins and starting runs *)
Definition register_plugin (plugin : ModulePlugin) : HostM unit :=
  t ← ticket;
  let manifest := pl_manifest plugin t in
  let name := mm_name manifest in
  lift (err_if (str_is_empty name) (FwInvalid "plugin manifest.name must be non-empty"));;
  h ← get;
  lift (err_if (has_key name (h_plugins h)) (FwInvalid ("plugin already registered: " +:+ name)));;
  t ← ticket;
  match pl_storage_schema plugin t with
  | None => mret tt
  | Some schema =>
      lift (err_if (str_is_empty (ts_name schema))
        (FwInvalid ("plugin " +:+ name +:+ " storage_schema.name must be non-empty")));;
      modify (λ h, host_with_schemas (<[name := schema]> (h_storage_schemas h)) h)
  end;;
  ignore (call_kernel (api_register manifest));;
  modify (λ h, host_with_plugins (<[name := plugin]> (h_plugins h)) h).

Definition is_selective (m : RunMode) : bool := match m with Selective => true | _ => false end.
Definition start_pipeline (run_id : string) (assembly : Assembly) (inputs : list NamedArtifact)
    (policy : FrameworkPolicy) : HostM Run :=
  lift (err_if (is_selective (fp_mode policy) && negb (needs_cut policy))
    (FwInvalid "RunMode::Selective requires NodePlan::Only, After, or From"));;
  lift (err_if (str_is_empty run_id) (FwInvalid "run_id must be non-empty"));;
  h ← get;
  lift (err_if (has_key run_id (h_run_policies h))
    (FwInvalid ("pipeline policy already registered for run_id " +:+ run_id)));;
  lift (err_if (storage_enabled (fp_storage policy) && bool_decide (h_storage h = None))
    (FwInvalid "StoragePlan enabled but host has no StorageBackend (use Host::with_storage)"));;
  lift (err_if (mp_enabled (fp_memo policy) && bool_decide (h_memo h = None))
    (FwInvalid "MemoPlan enabled but host has no MemoStore (use Host::with_memo)"));;
  cut ← lift (materialize_cut assembly (fp_nodes policy));
  lift (validate_seeds_present cut inputs);;
  emit_skip_events run_id cut;;
  let kernel_policy := with_nodes NpAll policy in
  let req := apply_to_run_request
               (mkRunRequest run_id (Some (cut_assembly cut)) inputs None [] None) kernel_policy in
  run ← call_kernel (api_start_run req);
  ensure_run_storage run_id policy;;
  modify (λ h, host_with_policies (<[run_id := policy]> (h_run_policies h)) h);;
  mret run.

Definition host_start_run (req : RunRequest) : HostM Run := call_kernel (api_start_run req).
Definition host_get_run (run_id : string) : HostM Run := call_kernel (api_get_run (mkRunRef run_id)).
Definition resume_seeds (prior_run_id : string) (cut_nodes : list string) : HostM (list NamedArtifact) :=
  λ h, let '(o, k) := seeds_from_run prior_run_id cut_nodes (h_ctx h) (h_kernel h) in
       (o, host_with_kernel k h).
Definition resume_after (new_run_id prior_run_id after_node : string) (policy : FrameworkPolicy)
    : HostM Run :=
  prior ← host_get_run prior_run_id;
  assembly ← lift (ok_or (FwInvalid "prior run has no assembly") (run_assembly prior));
  let policy := with_nodes (NpAfter after_node) policy in
  cut ← lift (materialize_cut assembly (fp_nodes policy));
  let skipped := sk_node_id <$> cut_skipped cut in
  let cut_nodes := if existsb (λ n, str_eqb n after_node) skipped then skipped
                   else skipped ++ [after_node] in
  seeds ← resume_seeds prior_run_id cut_nodes;
  let base_inputs := filter (λ i, negb (is_seed_input_name (na_name i)) = true) (run_inputs prior) in
  start_pipeline new_run_id assembly (merge_inputs base_inputs seeds) policy.

(** *** Memo *)
(** [m.is_ok()] *)
Definition succeeds {A} (m : HostM A) : HostM bool := λ h,
  let '(o, h) := m h in
  (match o with Ok _ => Ok true | Err _ => Ok false | Panic => Panic end, h).
(** The key a unit is remembered under, when its node is memoized. *)
Definition memo_key_of (run_id module : string) (work : WorkItem) : HostM (option (string * string)) :=
  h ← get;
  match h_run_policies h !! run_id with
  | None => mret None
  | Some policy =>
      if negb (mp_enabled (fp_memo policy)) then mret None
      else if negb (allows (mp_nodes (fp_memo policy)) (wi_node_id work)) then mret None
      else
        digest ← match h_plugins h !! module with
                 | None => mret None
                 | Some plugin => t ← ticket; mret (pl_module_digest plugin t)
                 end;
        match digest with
        | Some digest =>
            if str_is_empty digest then mret None
            else mret (Some (digest, memo_key module (wi_module_version work) digest
                                       (wi_capability work) (input_fingerprint_map work)))
        | None => mret None
        end
  end.
Fixpoint artifacts_exist (refs : list NamedArtifact) : HostM bool :=
  match refs with
  | [] => mret true
  | na :: refs =>
      match na_artifact na with
      | None => mret false
      | Some r =>
          found ← succeeds (call_kernel (api_get_artifact r));
          if (found : bool) then artifacts_exist refs else mret false
      end
  end.
Definition try_memo_hit (run_id module : string) (work : WorkItem)
    : HostM (option (string * list NamedArtifact * string)) :=
  keyed ← memo_key_of run_id module work;
  match keyed with
  | None => mret None
  | Some (_, key) =>
      h ← get;
      match h_memo h with
      | None => mret None
      | Some store =>
          found ← lift (memo_get store key);
          match found with
          | None => mret None
          | Some record =>
              let named := record_to_named_outputs record in
              exist ← artifacts_exist named;
              if negb (exist : bool) then mret None
              else if list_is_empty named && negb (bool_decide (mr_outputs record = ∅)) then mret None
              else mret (Some (key, named, mr_source_run_id record))
          end
      end
  end.
Definition memo_write (record : MemoRecord) : HostM unit := λ h,
  match h_memo h with
  | None => (Ok tt, h)
  | Some store => let '(o, store) := memo_put record store in (o, host_with_memo_store (Some store) h)
  end.
Definition store_memo_after_success (run_id module : string) (work : WorkItem)
    (named_outputs : list NamedArtifact) : HostM unit :=
  keyed ← memo_key_of run_id module work;
  match keyed with
  | None => mret tt
  | Some (digest, key) => memo_write (build_record key work digest named_outputs run_id)
  end.

(** *** One work unit *)
Definition load_input (m : gmap string Artifact) (na : NamedArtifact) : HostM (gmap string Artifact) :=
  match na_artifact na with
  | None => mret m
  | Some r => art ← call_kernel (api_get_artifact r); mret (<[na_name na := art]> m)
  end.
Fixpoint load_inputs (m : gmap string Artifact) (inputs : list NamedArtifact)
    : HostM (gmap string Artifact) :=
  match inputs with
  | [] => mret m
  | na :: inputs => m ← load_input m na; load_inputs m inputs
  end.
Definition load_step (run_id : string) (work : WorkItem) : HostM StepContext :=
  inputs ← load_inputs ∅ (wi_inputs work);
  mret (mkStep run_id work inputs []).

Definition submitted (run_id : string) (work : WorkItem) (outputs : list NamedArtifact) : Derivation :=
  mkDerivation "" run_id (wi_id work) (wi_node_id work) "" "" "" [] outputs.
Definition output_artifact (module : string) (out : PortBody) : Artifact :=
  mkArtifact "" ∅ module ((λ body, mkTrait body None) <$> po_traits out) (po_entity_id out) "".
Fixpoint put_outputs (module : string) (outs : list PortBody) : HostM (list NamedArtifact) :=
  match outs with
  | [] => mret []
  | out :: outs =>
      r ← call_kernel (api_put_artifact (output_artifact module out));
      rest ← put_outputs module outs;
      mret (mkNamed (po_port out) (Some r) :: rest)
  end.

Definition init_presentation (run_id : string) (work : WorkItem) (p : Presentation) : Presentation :=
  fill_identity run_id work (with_stage StInit p).
Definition final_presentation (run_id : string) (work : WorkItem) (outputs : list NamedArtifact)
    (p : Presentation) : Presentation :=
  let p := fill_identity run_id work (with_stage StFinal p) in
  if list_is_empty (p_output_ports p) then with_output_ports (na_name <$> outputs) p else p.
Definition failed_presentation (run_id : string) (work : WorkItem) (p : Presentation) : Presentation :=
  fill_identity run_id work (with_status PsFailed (with_stage StFinal p)).
Definition cached_presentation (run_id : string) (work : WorkItem) (key : string)
    (outputs : list NamedArtifact) (source_run : string) : Presentation :=
  let p := presentation_cached ("Cached " +:+ wi_node_id work)
             ("memo hit; outputs from run " +:+ source_run) in
  let p := with_output_ports (na_name <$> outputs) (fill_identity run_id work p) in
  with_meta (<["memo_source_run" := source_run]> (<["memo_key" := key]> (<["memo" := "hit"]> (p_meta p)))) p.

Definition commit_step_success (run_id module : string) (work : WorkItem) (step : StepContext)
    (output : StepOutput) : HostM unit :=
  named_outputs ← put_outputs module (so_outputs output);
  let step_result := mkStepResult true named_outputs None in
  plugin ← find_plugin module;
  t ← ticket;
  emit_optional module (final_presentation run_id work named_outputs <$> pl_on_final plugin t step step_result);;
  call_kernel (api_commit (submitted run_id work named_outputs));;
  store_memo_after_success run_id module work named_outputs;;
  apply_step_storage run_id module step step_result.

Definition fail_step {A} (run_id module : string) (work : WorkItem) (step : StepContext)
    (e : FrameworkError) : HostM A :=
  let msg := FrameworkError_display e in
  let step_result := mkStepResult false [] (Some msg) in
  plugin ← find_plugin module;
  t ← ticket;
  let p := default (presentation_final_failed "Step failed" msg) (pl_on_final plugin t step step_result) in
  ignore (emit_presentation module (failed_presentation run_id work p));;
  ignore (apply_step_storage run_id module step step_result);;
  ignore (call_kernel (api_fail_work (mkFailWork run_id (wi_id work) msg false)));;
  fail (StepFailed msg).

Definition commit_memo_hit (run_id module : string) (work : WorkItem) (step : StepContext)
    (key : string) (named_outputs : list NamedArtifact) (source_run : string) : HostM bool :=
  emit_presentation module (cached_presentation run_id work key named_outputs source_run);;
  call_kernel (api_commit (submitted run_id work named_outputs));;
  modify (λ h, host_with_counts (h_execute_count h) (u64_sat_add (h_memo_hit_count h) 1) h);;
  apply_step_storage run_id module step (mkStepResult true named_outputs None);;
  mret true.

Definition count_execution : HostM unit :=
  modify (λ h, host_with_counts (u64_sat_add (h_execute_count h) 1) (h_memo_hit_count h) h).
(** What a finished [execute] leads to. *)
Definition settle (run_id module : string) (work : WorkItem) (step : StepContext)
    (result : FResult StepOutput) : HostM unit :=
  match result with
  | Ok output => commit_step_success run_id module work step output
  | Err e => fail_step run_id module work step e
  | Panic => lift Panic
  end.

Definition finish_work_unit (run_id : string) (work : WorkItem) : HostM unit :=
  let module := wi_module work in
  step ← load_step run_id work;
  hit ← try_memo_hit run_id module work;
  match hit with
  | Some (key, named_outputs, source_run) =>
      commit_memo_hit run_id module work step key named_outputs source_run;; mret tt
  | None =>
      plugin ← find_plugin module;
      t ← ticket;
      emit_optional module (init_presentation run_id work <$> pl_on_init plugin t step);;
      t ← ticket;
      let '(result, step) := pl_execute plugin t step in
      lift (match result with Panic => Panic | _ => Ok tt end);;
      count_execution;;
      let '(progress, step) := take_progress step in
      for_each_M (emit_presentation module) progress;;
      settle run_id module work step result
  end.

(** *** Several units at once *)
(** A unit waiting to be executed on a thread, and one that was. *)
Record Deferred := mkDeferred {
  df_work : WorkItem; df_plugin : ModulePlugin; df_step : StepContext; df_init : option Presentation }.
Record Executed := mkExecuted {
  ex_work : WorkItem; ex_step : StepContext; ex_init : option Presentation;
  ex_progress : list Presentation; ex_result : FResult StepOutput }.

Definition defer_unit (run_id : string) (work : WorkItem) : HostM (option Deferred) :=
  let module := wi_module work in
  hit ← try_memo_hit run_id module work;
  match hit with
  | Some (key, named_outputs, source_run) =>
      step ← load_step run_id work;
      commit_memo_hit run_id module work step key named_outputs source_run;;
      mret None
  | None =>
      plugin ← find_plugin module;
      step ← load_step run_id work;
      t ← ticket;
      mret (Some (mkDeferred work plugin step (pl_on_init plugin t step)))
  end.
Fixpoint defer_units (run_id : string) (items : list WorkItem) : HostM (list Deferred) :=
  match items with
  | [] => mret []
  | work :: items =>
      d ← defer_unit run_id work;
      rest ← defer_units run_id items;
      mret (option_list d ++ rest)
  end.
(** The threads only share the plugins; joining one that panicked panics. *)
Fixpoint execute_deferred (ds : list Deferred) : HostM (list Executed) :=
  match ds with
  | [] => mret []
  | d :: ds =>
      t ← ticket;
      let '(result, step) := pl_execute (df_plugin d) t (df_step d) in
      lift (match result with Panic => Panic | _ => Ok tt end);;
      let '(progress, step) := take_progress step in
      rest ← execute_deferred ds;
      mret (mkExecuted (df_work d) step (df_init d) progress result :: rest)
  end.
Definition settle_executed (run_id : string) (x : Executed) : HostM unit :=
  let module := wi_module (ex_work x) in
  count_execution;;
  emit_optional module (init_presentation run_id (ex_work x) <$> ex_init x);;
  for_each_M (emit_presentation module) (ex_progress x);;
  settle run_id module (ex_work x) (ex_step x) (ex_result x).
Definition finish_work_units_parallel (run_id : string) (items : list WorkItem) : HostM unit :=
  deferred ← defer_units run_id items;
  outcomes ← execute_deferred deferred;
  for_each_M (settle_executed run_id) outcomes.

(** *** Driving *)
Definition claim_module_names (run_id : string) (h : Host) : list string :=
  let all := hs_iter (dom (h_plugins h)) in
  match p ← h_run_policies h !! run_id; fp_claim_modules p with
  | None => all
  | Some allow => filter (λ m, existsb (λ a, str_eqb a m) allow = true) all
  end.
(** One name goes into [module], several into [modules], none asks for any. *)
Definition claim_by_modules (run_id : string) (max_items : Z) (names : list string) : ClaimRequest :=
  match names with
  | [] => mkClaim run_id "" [] max_items []
  | [name] => mkClaim run_id name [] max_items []
  | _ => mkClaim run_id "" [] max_items names
  end.
Definition wave_request (run_id : string) (one_pass : bool) (h : Host) : ClaimRequest * Z :=
  let policy := h_run_policies h !! run_id in
  let conc := Z.max (default DEFAULT_CONCURRENCY (effective_concurrency <$> policy)) 1 in
  let claim_batch := Z.max (default conc (effective_claim_batch <$> policy)) 1 in
  let max_items := if one_pass then claim_batch else Z.min claim_batch conc in
  let names := match p ← policy; fp_claim_modules p with
               | Some mods => mods
               | None => claim_module_names run_id h
               end in
  (claim_by_modules run_id max_items names, conc).
Definition drive_claim_wave (run_id : string) (one_pass : bool) : HostM bool :=
  h ← get;
  let '(claim, conc) := wave_request run_id one_pass h in
  resp ← call_kernel (api_claim_ready claim);
  let items := cresp_items resp in
  if list_is_empty items then mret false
  else
    (if (conc <=? 1) || (len items <=? 1) then for_each_M (finish_work_unit run_id) items
     else finish_work_units_parallel run_id items);;
    mret true.
Definition try_step (run_id module : string) : HostM bool :=
  resp ← call_kernel (api_claim_ready (mkClaim run_id module [] 1 []));
  match cresp_items resp with
  | [] => mret false
  | work :: _ => finish_work_unit run_id work;; mret true
  end.

Definition run_is_running (run : Run) : bool := bool_decide (run_state run = RsRunning).
(** [None]: out of fuel. *)
Fixpoint drive_until_idle (fuel : nat) (run_id : string) (h : Host) : option (FResult Run * Host) :=
  match fuel with
  | O => None
  | Datatypes.S fuel =>
      match host_get_run run_id h with
      | (Ok run, h) =>
          if negb (run_is_running run) then Some (Ok run, h)
          else
            match drive_claim_wave run_id false h with
            | (Ok progressed, h) =>
                if negb progressed then Some (host_get_run run_id h) else drive_until_idle fuel run_id h
            | (Err e, h) => Some (Err e, h)
            | (Panic, h) => Some (Panic, h)
            end
      | (Err e, h) => Some (Err e, h)
      | (Panic, h) => Some (Panic, h)
      end
  end.
Definition drive_one_pass (run_id : string) : HostM Run :=
  run ← host_get_run run_id;
  if negb (run_is_running run) then mret run
  else drive_claim_wave run_id true;; host_get_run run_id.

(** What [drive_with] does once the run is known: the tables of a run that is
    over are dropped. *)
Definition finish_if_closed (run_id : string) (result : FResult Run * Host) : FResult Run * Host :=
  let '(o, h) := result in
  match o with
  | Ok run => if negb (run_is_running run) then (finish_run_storage run_id;; mret run) h else (Ok run, h)
  | Err e => (Err e, h)
  | Panic => (Panic, h)
  end.
Definition drive_with (fuel : nat) (run_id : string) (plan : DrivePlan) (h : Host)
    : option (FResult Run * Host) :=
  finish_if_closed run_id <$>
    match plan with
    | OnePass => Some (drive_one_pass run_id h)
    | UntilIdle | UntilIdleThenWait => drive_until_idle fuel run_id h
    end.
Definition drive (fuel : nat) (run_id : string) (h : Host) : option (FResult Run * Host) :=
  drive_with fuel run_id (default UntilIdle (effective_drive <$> h_run_policies h !! run_id)) h.

Definition inject (fuel : nat) (run_id : string) (input : NamedArtifact) (after : DriveAfter) (h : Host)
    : option (FResult Run * Host) :=
  match call_kernel (api_inject_input (mkInject run_id (Some input))) h with
  | (Ok run, h) =>
      match after with
      | DaNo => Some (Ok run, h)
      | DaUntilIdle => drive_with fuel run_id UntilIdle h
      | DaOnePass => drive_with fuel run_id OnePass h
      end
  | (o, h) => Some (o, h)
  end.
Definition cancel (run_id : string) : HostM Run :=
  run ← call_kernel (api_cancel_run (mkRunRef run_id));
  finish_run_storage run_id;;
  mret run.
End host.

Definition named_ref (name : string) (r : ArtifactRef) : NamedArtifact := mkNamed name (Some r).
