(* ===== verification/HostSpec.v ===== *)
(** * HostSpec: what every operation of a host respects

    A relation between hosts that the calls out of a host respect
    ([HostRel]) is respected by every operation the driving loop is made of: one lemma per
    operation, proved by following its code ([keeps_auto]). *)
From S2P Require Import Prelude Wire Errors Traits State FwErrors Presentation Storage Memo FwPolicy.
From S2P Require Import KernelApi Cut Host.
Local Open Scope Z_scope.

Create HintDb host.

(** ** Relations that every operation respects *)
(** A call of the kernel respects [R], whatever it answers. *)
Definition hr_calls `{JsonValue} {K B MS A : Type} (R : relation (@Host _ K B MS))
    (op : RequestContext → M K KernelError A) : Prop :=
  ∀ h, R h (host_with_kernel (op (h_ctx h) (h_kernel h)).2 h).

(** A preorder that the silent operations respect: those that store or read
    artifacts, write tables or memo records, and take tickets. *)
Class HostSilent `{Platform, JsonValue, KernelApi K} {B MS : Type} `{MemoStore MS}
    (R : relation (@Host _ K B MS)) := {
  hs_preorder :: PreOrder R;
  hs_ticket : ∀ h n, R h (host_with_ticket n h);
  hs_backend : ∀ h b, R h (host_with_backend b h);
  hs_put_artifact : ∀ a, hr_calls R (api_put_artifact a);
  hs_get_artifact : ∀ r, hr_calls R (api_get_artifact r);
  hs_memo : ∀ work digest outputs run_id h,
    R h (memo_write (build_record
      (memo_key (wi_module work) (wi_module_version work) digest (wi_capability work)
         (input_fingerprint_map work)) work digest outputs run_id) h).2;
}.
(** It only looks at the kernel, the context and the memo store. *)
Class HostQuiet `{Platform, JsonValue, KernelApi K} {B MS : Type} `{MemoStore MS}
    (R : relation (@Host _ K B MS)) := {
  hq_silent :: HostSilent R;
  hq_frame : ∀ h h', h_kernel h' = h_kernel h → h_ctx h' = h_ctx h → h_memo h' = h_memo h → R h h';
}.
(** And every call the driving loop makes of the kernel respects it. *)
Class HostRel `{Platform, JsonValue, KernelApi K} {B MS : Type} `{MemoStore MS}
    (R : relation (@Host _ K B MS)) := {
  hr_quiet :: HostQuiet R;
  hr_claim_ready : ∀ req, hr_calls R (api_claim_ready req);
  hr_fail_work : ∀ req, hr_calls R (api_fail_work req);
  hr_get_run : ∀ r, hr_calls R (api_get_run r);
  hr_commit : ∀ d, hr_calls R (api_commit d);
}.
Lemma host_quiet_intro `{Platform, JsonValue, KernelApi K} {B MS : Type} `{MemoStore MS}
    (R : relation (@Host _ K B MS)) :
  PreOrder R →
  (∀ h h', h_kernel h' = h_kernel h → h_ctx h' = h_ctx h → h_memo h' = h_memo h → R h h') →
  (∀ a, hr_calls R (api_put_artifact a)) → (∀ r, hr_calls R (api_get_artifact r)) →
  (∀ work digest outputs run_id h,
    R h (memo_write (build_record
      (memo_key (wi_module work) (wi_module_version work) digest (wi_capability work)
         (input_fingerprint_map work)) work digest outputs run_id) h).2) →
  HostQuiet R.
Proof. intros Hp Hf Hput Hget Hm. split; [|done]. split; try done; intros; by apply Hf. Qed.

Section keeps.
Context `{Platform, HashOrder, JsonValue, PresentationJson}.
Context {K B MS : Type} `{KernelApi K, !StorageBackend B, MemoStore MS}.
Abbreviation HostT := (@Host _ K B MS).
Abbreviation HostM := (M HostT FrameworkError).
Variable R : relation HostT.

Definition keeps {A} (m : HostM A) : Prop := ∀ h, R h (m h).2.

Section silent.
Context `{!HostSilent R}.
Lemma keeps_ret {A} (a : A) : keeps (mret a).
Proof. by intros h. Qed.
Lemma keeps_lift {A} (o : FResult A) : keeps (lift o).
Proof. by intros h. Qed.
Lemma keeps_fail {A} e : keeps (A:=A) (fail e).
Proof. by intros h. Qed.
Lemma keeps_get : keeps get.
Proof. by intros h. Qed.
Lemma keeps_bind {A C} (m : HostM A) (f : A → HostM C) :
  keeps m → (∀ a, keeps (f a)) → keeps (m ≫= f).
Proof.
  intros Hm Hf h. specialize (Hm h). rw /mbind /M_bind. destruct (m h) as [[a|e|] h']; [|done..].
  etrans; [exact Hm|apply Hf].
Qed.
Lemma keeps_ticket : keeps ticket.
Proof. intros h. by apply hs_ticket. Qed.
Lemma keeps_kernel {A} (op : RequestContext → M K KernelError A) : hr_calls R op → keeps (call_kernel op).
Proof. intros Hop h. rw /call_kernel. specialize (Hop h). by destruct (op _ _) as [o k]. Qed.
Lemma keeps_backend {A} (missing : FResult A) (op : M B FrameworkError A) : keeps (call_backend missing op).
Proof.
  intros h. rw /call_backend. destruct (h_storage h) as [b|]; [|done]. destruct (op b). by apply hs_backend.
Qed.
Lemma keeps_ignore {A} (m : HostM A) : keeps m → keeps (ignore m).
Proof. intros Hm h. specialize (Hm h). rw /ignore. by destruct (m h). Qed.
Lemma keeps_succeeds {A} (m : HostM A) : keeps m → keeps (succeeds m).
Proof. intros Hm h. specialize (Hm h). rw /succeeds. by destruct (m h). Qed.
Lemma keeps_for_each {A} (f : A → HostM unit) l : (∀ x, keeps (f x)) → keeps (for_each_M f l).
Proof. intros Hf. induction l as [|x l IH]; [apply keeps_ret|]. by apply keeps_bind. Qed.
End silent.
Lemma keeps_modify `{!HostQuiet R} f :
  (∀ h, h_kernel (f h) = h_kernel h ∧ h_ctx (f h) = h_ctx h ∧ h_memo (f h) = h_memo h) → keeps (modify f).
Proof. intros Hf h. destruct (Hf h) as (? & ? & ?). by apply hq_frame. Qed.
End keeps.

#[export] Hint Extern 0 (HostSilent _) => typeclasses eauto : host.
#[export] Hint Extern 0 (HostQuiet _) => typeclasses eauto : host.
#[export] Hint Extern 0 (HostRel _) => typeclasses eauto : host.
(** Follow the code: binds, branches, calls. *)
Ltac keeps_step :=
  match goal with
  | |- keeps ?R (_ ≫= _) => apply (keeps_bind R); [|intros ?]
  | |- keeps _ (if ?b then _ else _) => destruct b
  | |- keeps _ (match ?x with _ => _ end) => destruct x
  | |- keeps _ (let _ := _ in _) => cbv zeta
  | |- keeps ?R (modify _) => apply (keeps_modify R); by intros
  | |- keeps ?R (call_kernel _) => apply (keeps_kernel R);
      first [apply (hs_put_artifact (R:=R)) | apply (hs_get_artifact (R:=R)) | apply (hr_claim_ready (R:=R))
            |apply (hr_fail_work (R:=R)) | apply (hr_get_run (R:=R)) | apply (hr_commit (R:=R))]
  | |- keeps ?R (for_each_M _ _) => apply (keeps_for_each R); intros ?
  | |- keeps ?R (ignore _) => apply (keeps_ignore R)
  | |- keeps ?R (succeeds _) => apply (keeps_succeeds R)
  | |- keeps ?R _ => first [apply (keeps_ret R) | apply (keeps_lift R) | apply (keeps_fail R)
      |apply (keeps_get R) | apply (keeps_ticket R) | apply (keeps_backend R) | solve [eauto 3 with host]]
  end.
Ltac keeps_auto := repeat keeps_step.

Section operations.
Context `{Platform, HashOrder, JsonValue, PresentationJson}.
Context {K B MS : Type} `{KernelApi K, !StorageBackend B, MemoStore MS}.
Abbreviation HostT := (@Host _ K B MS).
Abbreviation HostM := (M HostT FrameworkError).
Variable R : relation HostT.
Abbreviation keeps := (keeps R).

Section silent_operations.
Context `{!HostSilent R}.
Lemma keeps_find_plugin module : keeps (find_plugin module).
Proof. rw /find_plugin. keeps_auto. Qed.
Lemma keeps_maybe_put_ui module contract view : keeps (maybe_put_ui module contract view).
Proof. rw /maybe_put_ui. keeps_auto. Qed.
#[local] Hint Resolve keeps_find_plugin : host.
Lemma keeps_apply_step_storage run_id module step result : keeps (apply_step_storage run_id module step result).
Proof. rw /apply_step_storage /store_step_rows /write_step_log. keeps_auto. Qed.
Lemma keeps_memo_key_of run_id module work : keeps (memo_key_of run_id module work).
Proof. rw /memo_key_of. keeps_auto. Qed.
#[local] Hint Resolve keeps_memo_key_of : host.
Lemma keeps_artifacts_exist refs : keeps (artifacts_exist refs).
Proof. induction refs as [|na refs IH]; simpl; keeps_auto. Qed.
#[local] Hint Resolve keeps_artifacts_exist : host.
Lemma keeps_try_memo_hit run_id module work : keeps (try_memo_hit run_id module work).
Proof. rw /try_memo_hit. keeps_auto. Qed.
(** The key that is remembered is the key of the unit. *)
Lemma memo_key_of_value run_id module work h digest key h' :
  memo_key_of (K:=K) (B:=B) (MS:=MS) run_id module work h = (Ok (Some (digest, key)), h') →
  digest ≠ "" ∧ key = memo_key module (wi_module_version work) digest (wi_capability work)
                        (input_fingerprint_map work) ∧
  ∃ policy plugin t, h_run_policies h !! run_id = Some policy ∧ mp_enabled (fp_memo policy) = true ∧
    allows (mp_nodes (fp_memo policy)) (wi_node_id work) = true ∧ h_plugins h !! module = Some plugin ∧
    pl_module_digest plugin t = Some digest.
Proof.
  rw /memo_key_of. intros Hm. apply bind_ok_inv in Hm as (h0 & h1 & [= <- <-] & Hm).
  destruct (h_run_policies h !! run_id) as [policy|]; [|done].
  destruct (mp_enabled _) eqn:Hen; [|done]. destruct (allows _ _) eqn:Hal; [|done]. simpl in Hm.
  apply bind_ok_inv in Hm as (d & h2 & Hd & Hm).
  destruct (h_plugins h !! module) as [plugin|] eqn:Hp; [|by injection Hd as <- <-].
  apply bind_ok_inv in Hd as (t & h3 & _ & [= <- _]).
  destruct (pl_module_digest plugin t) as [dg|] eqn:Hdg; [|done].
  destruct (str_is_empty dg) eqn:Hne; [done|]. injection Hm as <- <- _.
  split; [by apply str_is_empty_false|]. split; [done|]. by exists policy, plugin, t.
Qed.
Lemma keeps_store_memo run_id work outputs :
  keeps (store_memo_after_success run_id (wi_module work) work outputs).
Proof.
  intros h. rw /store_memo_after_success {1}/mbind /M_bind.
  pose proof (keeps_memo_key_of run_id (wi_module work) work h) as Hk.
  destruct (memo_key_of _ _ _ h) as [[[[d key]|]|e|] h'] eqn:Hm; simpl in *; [|done..].
  apply memo_key_of_value in Hm as (_ & -> & _). etrans; [exact Hk|apply hs_memo].
Qed.
Lemma keeps_load_step run_id work : keeps (load_step run_id work).
Proof.
  rw /load_step. apply (keeps_bind R); [|intros ?; keeps_auto]. generalize (∅ : gmap string Artifact).
  induction (wi_inputs work) as [|na l IH]; intros m; simpl; rw ?/load_input; keeps_auto.
Qed.
Lemma keeps_put_outputs module outs : keeps (put_outputs module outs).
Proof. induction outs as [|o outs IH]; simpl; keeps_auto. Qed.
End silent_operations.
#[local] Hint Resolve keeps_find_plugin keeps_maybe_put_ui keeps_apply_step_storage keeps_memo_key_of
  keeps_try_memo_hit keeps_store_memo keeps_load_step keeps_put_outputs : host.

Section quiet_operations.
Context `{!HostQuiet R}.
Lemma keeps_emit_presentation module p : keeps (emit_presentation module p).
Proof. rw /emit_presentation. keeps_auto. Qed.
#[local] Hint Resolve keeps_emit_presentation : host.
Lemma keeps_emit_optional module p : keeps (emit_optional module p).
Proof. rw /emit_optional. keeps_auto. Qed.
#[local] Hint Resolve keeps_emit_optional : host.
Lemma keeps_emit_skip_events run_id cut : keeps (emit_skip_events run_id cut).
Proof. rw /emit_skip_events. keeps_auto. Qed.
Lemma keeps_count : keeps count_execution.
Proof. rw /count_execution. keeps_auto. Qed.
End quiet_operations.
#[local] Hint Resolve keeps_emit_presentation keeps_emit_optional keeps_count : host.

Section all_operations.
Context `{!HostRel R}.
Lemma keeps_fail_step {A} run_id module work step e : keeps (fail_step (A:=A) run_id module work step e).
Proof. rw /fail_step. keeps_auto. Qed.
Lemma keeps_commit_memo_hit run_id module work step key outputs source :
  keeps (commit_memo_hit run_id module work step key outputs source).
Proof. rw /commit_memo_hit. keeps_auto. Qed.
Lemma keeps_commit_step_success run_id work step output :
  keeps (commit_step_success run_id (wi_module work) work step output).
Proof. rw /commit_step_success. keeps_auto. Qed.
#[local] Hint Resolve keeps_fail_step keeps_commit_memo_hit keeps_commit_step_success : host.
Lemma keeps_settle run_id work step result : keeps (settle run_id (wi_module work) work step result).
Proof. rw /settle. keeps_auto. Qed.
Lemma keeps_defer_unit run_id work : keeps (defer_unit run_id work).
Proof. rw /defer_unit. keeps_auto. Qed.
#[local] Hint Resolve keeps_count keeps_settle keeps_defer_unit : host.
Lemma keeps_execute_deferred ds : keeps (execute_deferred ds).
Proof. induction ds as [|d ds IH]; simpl; keeps_auto. Qed.
Lemma keeps_finish_work_unit run_id work : keeps (finish_work_unit run_id work).
Proof. rw /finish_work_unit. keeps_auto. Qed.
Lemma keeps_settle_executed run_id x : keeps (settle_executed run_id x).
Proof. rw /settle_executed. keeps_auto. Qed.
Lemma keeps_defer_units run_id items : keeps (defer_units run_id items).
Proof. induction items; simpl; keeps_auto. Qed.
Lemma keeps_get_run run_id : keeps (host_get_run run_id).
Proof. rw /host_get_run. keeps_auto. Qed.
#[local] Hint Resolve keeps_finish_work_unit keeps_settle_executed keeps_defer_units keeps_execute_deferred : host.
Lemma keeps_parallel run_id items : keeps (finish_work_units_parallel run_id items).
Proof. rw /finish_work_units_parallel. keeps_auto. Qed.
#[local] Hint Resolve keeps_parallel : host.
Lemma keeps_wave run_id one_pass : keeps (drive_claim_wave run_id one_pass).
Proof. rw /drive_claim_wave. keeps_auto. Qed.
#[local] Hint Resolve keeps_wave keeps_get_run : host.
Lemma keeps_try_step run_id module : keeps (try_step run_id module).
Proof. rw /try_step. keeps_auto. Qed.
Lemma keeps_drop_run_tables tables : keeps (drop_run_tables tables).
Proof. rw /drop_run_tables. keeps_auto. Qed.
#[local] Hint Resolve keeps_drop_run_tables : host.
Lemma keeps_finish_run_storage run_id : keeps (finish_run_storage run_id).
Proof. rw /finish_run_storage. keeps_auto. Qed.
#[local] Hint Resolve keeps_finish_run_storage : host.
Lemma keeps_drive_one_pass run_id : keeps (drive_one_pass run_id).
Proof. rw /drive_one_pass. keeps_auto. Qed.
Lemma keeps_drive_until_idle fuel run_id h o h' : drive_until_idle fuel run_id h = Some (o, h') → R h h'.
Proof.
  revert h. induction fuel as [|fuel IH]; intros h; [done|]. simpl.
  pose proof (keeps_get_run run_id h) as Hg. destruct (host_get_run run_id h) as [[run|e|] h1]; [|by intros [= _ <-]..].
  simpl in Hg. destruct (negb (run_is_running run)); [by intros [= _ <-]|].
  pose proof (keeps_wave run_id false h1) as Hw.
  destruct (drive_claim_wave run_id false h1) as [[progressed|e|] h2]; simpl in Hw; [|by intros [= _ <-]; etrans..].
  destruct progressed; simpl; [intros Hd%IH; by do 2 (etrans; [eassumption|])|].
  pose proof (keeps_get_run run_id h2) as Hg2. intros [= Heq]. rw Heq in Hg2. by do 2 (etrans; [eassumption|]).
Qed.
Lemma keeps_drive fuel run_id h o h' : drive fuel run_id h = Some (o, h') → R h h'.
Proof.
  rw /drive /drive_with. intros (res & Hd & Hfin)%fmap_Some.
  assert (R h res.2) as Hres.
  { destruct res as [o1 h1]. destruct (default _ _).
    - by eapply keeps_drive_until_idle.
    - injection Hd as Hd. pose proof (keeps_drive_one_pass run_id h) as Hk. by rw Hd in Hk.
    - by eapply keeps_drive_until_idle. }
  destruct res as [[run|e|] h1]; simpl in *; [|by injection Hfin as _ ->..].
  destruct (negb (run_is_running run)); [|by injection Hfin as _ ->].
  assert (keeps (finish_run_storage run_id;; mret run)) as Hk by keeps_auto.
  specialize (Hk h1). rw -Hfin in Hk. by etrans.
Qed.
End all_operations.
End operations.
#[export] Hint Resolve keeps_find_plugin keeps_maybe_put_ui keeps_emit_presentation keeps_emit_optional
  keeps_apply_step_storage keeps_memo_key_of keeps_artifacts_exist keeps_try_memo_hit keeps_store_memo
  keeps_load_step keeps_put_outputs keeps_fail_step keeps_commit_memo_hit keeps_commit_step_success
  keeps_count keeps_settle keeps_defer_unit keeps_execute_deferred
  keeps_finish_work_unit keeps_settle_executed keeps_defer_units keeps_get_run keeps_parallel keeps_wave : host.
