(* ===== verification/HostTermination.v ===== *)
(** * HostTermination: driving a run ends

    For any kernel with the laws of [KernelProgress]: no operation of the host
    gives the run more steps to take, and every unit a wave finishes takes
    one.  So the loop of [drive_until_idle] turns at most as often as the run has
    steps left. *)
From S2P Require Import Prelude Wire Errors Traits State FwErrors Presentation Storage Memo FwPolicy.
From S2P Require Import Assembly AssemblySpec Work Runs Units Steps Kernel Invariant Evolve KernelApi.
From S2P Require Import KernelLaws Cut Host HostSpec.
Local Open Scope Z_scope.

Section takes.
Context `{Platform, HashOrder, JsonValue, PresentationJson}.
Context {K B MS : Type} `{KernelProgress K, !StorageBackend B, MemoStore MS}.
Variable rid : string.
Abbreviation HostT := (@Host _ K B MS).
Abbreviation HostM := (M HostT FrameworkError).

(** ** Operations that leave the run no worse *)
Definition no_worse (h h' : HostT) : Prop :=
  h_ctx h' = h_ctx h ∧
  (has_run rid (h_kernel h) → has_run rid (h_kernel h') ∧
     (left_of rid (h_kernel h') ≤ left_of rid (h_kernel h))%nat).
#[export] Instance no_worse_preorder : PreOrder no_worse.
Proof.
  split; [by intros h; split|]. intros h1 h2 h3 [Hc1 Hn1] [Hc2 Hn2]. split; [congruence|].
  intros Hk. destruct (Hn1 Hk) as [Hk2 Hle1]. destruct (Hn2 Hk2) as [Hk3 Hle2]. split; [done|lia].
Qed.
Lemma no_worse_call {A} (op : RequestContext → M K KernelError A) (h : HostT) :
  calm (op (h_ctx h)) → no_worse h (host_with_kernel (op (h_ctx h) (h_kernel h)).2 h).
Proof. intros Hc. split; [done|]. intros Hr. by apply Hc. Qed.
Lemma no_worse_frame (h h' : HostT) : h_kernel h' = h_kernel h → h_ctx h' = h_ctx h → no_worse h h'.
Proof. intros Hk Hc. rw /no_worse Hk Hc. by split. Qed.
#[export] Instance no_worse_rel : HostRel no_worse.
Proof.
  split; [apply host_quiet_intro|..].
  - apply _.
  - intros h h' Hk Hc _. by apply no_worse_frame.
  - intros a h. apply no_worse_call, calm_put_artifact.
  - intros r h. apply no_worse_call, calm_get_artifact.
  - intros work digest outputs run_id h. rw /memo_write. destruct (h_memo h); [|done].
    destruct (memo_put _ _). by apply no_worse_frame.
  - intros req h. apply no_worse_call, calm_claim_ready.
  - intros req h. apply no_worse_call, calm_fail_work.
  - intros r h. apply no_worse_call, calm_get_run.
  - intros d h. apply no_worse_call, calm_commit.
Qed.
#[local] Hint Resolve no_worse_rel : host.
Abbreviation keeps := (keeps no_worse).

(** ** Operations that take steps *)
(** A successful [m] takes at least [n] of the steps the run has left. *)
Definition takes {A} (n : A → nat) (m : HostM A) : Prop := ∀ h a h',
  m h = (Ok a, h') → has_run rid (h_kernel h) → ctx_request_key (h_ctx h) = "" →
  (left_of rid (h_kernel h') + n a ≤ left_of rid (h_kernel h))%nat.

Lemma takes_keeps {A} (m : HostM A) : keeps m → takes (λ _, 0%nat) m.
Proof.
  intros Hm h a h' Heq Hr _. destruct (Hm h) as [_ Hn]. rw Heq in Hn. destruct (Hn Hr). simpl in *. lia.
Qed.
Lemma takes_bind {A C} (m : HostM A) (f : A → HostM C) n k :
  keeps m → takes n m → (∀ a, takes (λ c, k c - n a)%nat (f a)) → takes k (m ≫= f).
Proof.
  intros Hm Htm Htf h c h'' Heq Hr Hkey. apply bind_ok_inv in Heq as (a & h' & Ha & Hc).
  pose proof (Htm _ _ _ Ha Hr Hkey). destruct (Hm h) as [Hctx Hn]. rw Ha in Hctx, Hn. simpl in Hctx, Hn.
  destruct (Hn Hr) as [Hr' _]. rw -Hctx in Hkey. pose proof (Htf a _ _ _ Hc Hr' Hkey) as Hle. simpl in Hle. lia.
Qed.
(** The steps before and after the one that counts. *)
Lemma takes_after {A C} (m : HostM A) (f : A → HostM C) k :
  keeps m → (∀ a, takes k (f a)) → takes k (m ≫= f).
Proof.
  intros Hm Hf. eapply takes_bind; [done|by apply takes_keeps|]. intros a h c h' Heq Hr Hkey.
  pose proof (Hf a h c h' Heq Hr Hkey) as Hle. simpl in Hle |- *. lia.
Qed.
Lemma takes_before {A C} (m : HostM A) (f : A → HostM C) n :
  keeps m → takes (λ _, n) m → (∀ a, keeps (f a)) → takes (λ _, n) (m ≫= f).
Proof.
  intros Hm Ht Hf. eapply takes_bind; [done|exact Ht|]. intros a h c h' Heq Hr Hkey.
  pose proof (takes_keeps _ (Hf a) h c h' Heq Hr Hkey). simpl in *. lia.
Qed.
Lemma takes_commit work outputs : takes (λ _, 1%nat) (call_kernel (api_commit (submitted rid work outputs))).
Proof.
  intros h r h' Heq Hr Hkey. pose proof (commit_takes_step (submitted rid work outputs) (h_ctx h) _ Hr Hkey) as Hc.
  revert Heq. rw /call_kernel. destruct (api_commit _ _ _) as [[x|e|] k]; intros [= _ <-].
  simpl in *. specialize (Hc eq_refl). lia.
Qed.

Lemma takes_commit_memo_hit module work step key outputs source :
  takes (λ _, 1%nat) (commit_memo_hit rid module work step key outputs source).
Proof.
  rw /commit_memo_hit. apply takes_after; [keeps_auto|intros _].
  apply takes_before; [keeps_auto|apply takes_commit|]. intros ?. keeps_auto.
Qed.
Lemma takes_commit_step_success work step output :
  takes (λ _, 1%nat) (commit_step_success rid (wi_module work) work step output).
Proof.
  rw /commit_step_success. apply takes_after; [keeps_auto|intros outputs]. cbv zeta.
  do 3 (apply takes_after; [keeps_auto|intros ?]).
  apply takes_before; [keeps_auto|apply takes_commit|]. intros ?. keeps_auto.
Qed.
(** A step that failed is reported and never answered as finished. *)
Lemma fail_step_never_ok {A} run_id module work step e h a h' :
  fail_step (A:=A) (K:=K) (B:=B) (MS:=MS) run_id module work step e h ≠ (Ok a, h').
Proof.
  rw /fail_step. intros Hf. apply bind_ok_inv in Hf as (? & ? & _ & Hf).
  apply bind_ok_inv in Hf as (? & ? & _ & Hf). cbv zeta in Hf.
  do 3 (apply bind_ok_inv in Hf as (? & ? & _ & Hf)). done.
Qed.
Lemma takes_settle work step result : takes (λ _, 1%nat) (settle rid (wi_module work) work step result).
Proof.
  destruct result as [output|e|]; simpl.
  - apply takes_commit_step_success.
  - intros h a h' Hf. by apply fail_step_never_ok in Hf.
  - by intros h a h'.
Qed.
Lemma takes_finish_work_unit work : takes (λ _, 1%nat) (finish_work_unit rid work).
Proof.
  rw /finish_work_unit. do 2 (apply takes_after; [keeps_auto|intros ?]). destruct a0 as [[[key outputs] source]|].
  - apply takes_before; [keeps_auto|apply takes_commit_memo_hit|]. intros ?. keeps_auto.
  - do 4 (apply takes_after; [keeps_auto|intros ?]). destruct (pl_execute _ _ _) as [result step].
    do 2 (apply takes_after; [keeps_auto|intros ?]). cbv beta iota delta [take_progress].
    apply takes_after; [keeps_auto|intros ?]. apply takes_settle.
Qed.

Lemma takes_for_each {A} (f : A → HostM unit) l :
  (∀ x, keeps (f x)) → (∀ x, takes (λ _, 1%nat) (f x)) → takes (λ _, length l) (for_each_M f l).
Proof.
  intros Hk Hf. induction l as [|x l IH]; [apply takes_keeps, (keeps_ret no_worse)|]. simpl.
  eapply takes_bind; [done|apply Hf|]. intros ? h c h' Heq Hr Hkey.
  pose proof (IH h c h' Heq Hr Hkey). simpl in *. lia.
Qed.

(** A wave with several threads: the hits at once, the rest when they are settled. *)
Lemma takes_defer_units items :
  takes (λ ds, (length items - length ds)%nat) (defer_units rid items).
Proof.
  induction items as [|work items IH]; [apply takes_keeps, (keeps_ret no_worse)|]. simpl.
  eapply (takes_bind _ _ (λ d, (1 - length (option_list d))%nat)); [keeps_auto| |].
  - rw /defer_unit. cbv zeta. intros h d h' Heq Hr Hkey.
    apply bind_ok_inv in Heq as (hit & h1 & Hhit & Heq).
    destruct (keeps_try_memo_hit no_worse rid (wi_module work) work h) as [Hc Hn].
    rw Hhit in Hc, Hn. simpl in Hc, Hn. destruct (Hn Hr) as [Hr1 Hle]. rw -Hc in Hkey.
    destruct hit as [[[key outputs] source]|].
    + apply (takes_after (load_step rid work) _ (λ _, 1%nat)) in Heq; [|keeps_auto|].
      * specialize (Heq Hr1 Hkey). simpl in *. destruct d; simpl; lia.
      * intros step. apply takes_before; [keeps_auto|apply takes_commit_memo_hit|]. intros ?. keeps_auto.
    + assert (keeps (plugin ← find_plugin (wi_module work); step ← load_step rid work;
        t ← ticket; mret (Some (mkDeferred work plugin step (pl_on_init plugin t step))))) as Hk by keeps_auto.
      destruct (Hk h1) as [_ Hn2]. rw Heq in Hn2. destruct (Hn2 Hr1) as [_ Hle2]. simpl in Hle2.
      apply bind_ok_inv in Heq as (? & ? & _ & Heq). apply bind_ok_inv in Heq as (? & ? & _ & Heq).
      apply bind_ok_inv in Heq as (? & ? & _ & [= <- _]). simpl. lia.
  - intros d. eapply takes_bind.
    + clear IH. induction items; simpl; keeps_auto.
    + exact IH.
    + intros ds. intros h r h' [= <- <-] Hr Hkey. rw length_app. lia.
Qed.
Lemma execute_deferred_length ds h xs h' :
  execute_deferred (K:=K) (B:=B) (MS:=MS) ds h = (Ok xs, h') → length xs = length ds.
Proof.
  revert h xs h'. induction ds as [|d ds IH]; intros h xs h'; simpl; [by intros [= <-]|].
  intros (t & h1 & _ & Hx)%bind_ok_inv. destruct (pl_execute _ _ _) as [result step].
  apply bind_ok_inv in Hx as (? & h2 & _ & Hx). cbv beta iota delta [take_progress] in Hx.
  apply bind_ok_inv in Hx as (rest & h3 & Hrest & [= <- _]). simpl. f_equal. by eapply IH.
Qed.

Lemma takes_settle_executed x : takes (λ _, 1%nat) (settle_executed rid x).
Proof. rw /settle_executed. do 3 (apply takes_after; [keeps_auto|intros ?]). apply takes_settle. Qed.
Lemma takes_parallel items : takes (λ _, length items) (finish_work_units_parallel rid items).
Proof.
  rw /finish_work_units_parallel. eapply takes_bind; [keeps_auto|apply takes_defer_units|]. intros ds.
  intros h r h' Heq Hr Hkey. apply bind_ok_inv in Heq as (xs & h1 & Hx & Heq).
  apply execute_deferred_length in Hx as Hlen.
  destruct (keeps_execute_deferred no_worse ds h) as [Hc Hn]. rw Hx in Hc, Hn. destruct (Hn Hr) as [Hr1 Hle].
  simpl in Hc, Hle. rw -Hc in Hkey.
  pose proof (takes_for_each _ xs (keeps_settle_executed no_worse rid) takes_settle_executed _ _ _ Heq Hr1 Hkey).
  simpl in *. lia.
Qed.

(** A wave takes a step for every unit it was given; it reports that it got
    some exactly when it did. *)
Lemma takes_wave one_pass : takes (λ progressed : bool, if progressed then 1%nat else 0%nat) (drive_claim_wave rid one_pass).
Proof.
  rw /drive_claim_wave. apply takes_after; [keeps_auto|intros h0].
  destruct (wave_request rid one_pass h0) as [claim conc]. apply takes_after; [keeps_auto|intros resp]. cbv zeta.
  destruct (list_is_empty (cresp_items resp)) eqn:He.
  { intros h a h' [= <- <-] Hr _. lia. }
  assert (1 ≤ length (cresp_items resp))%nat as Hlen by (destruct (cresp_items resp); [done|simpl; lia]).
  eapply (takes_bind _ _ (λ _, length (cresp_items resp))).
  - keeps_auto.
  - destruct (_ || _); [|apply takes_parallel]. apply takes_for_each; [intros ?; keeps_auto|apply takes_finish_work_unit].
  - intros ? h a h' [= <- <-] Hr _. lia.
Qed.

Lemma drive_until_idle_enough fuel h :
  (left_of rid (h_kernel h) < fuel)%nat → has_run rid (h_kernel h) → ctx_request_key (h_ctx h) = "" →
  ∃ r, drive_until_idle fuel rid h = Some r.
Proof.
  revert h. induction fuel as [|fuel IH]; intros h Hf Hr Hkey; [lia|]. simpl.
  destruct (keeps_get_run no_worse rid h) as [Hc Hn].
  destruct (host_get_run rid h) as [[run|e|] h1]; [|by eexists..]. simpl in Hc, Hn.
  destruct (Hn Hr) as [Hr1 Hle1]. rw -Hc in Hkey. destruct (negb (run_is_running run)); [by eexists|].
  destruct (keeps_wave no_worse rid false h1) as [Hc2 Hn2]. pose proof (takes_wave false h1) as Ht.
  destruct (drive_claim_wave rid false h1) as [[progressed|e|] h2]; [|by eexists..]. simpl in Hc2, Hn2.
  destruct (Hn2 Hr1) as [Hr2 _]. pose proof (Ht _ _ eq_refl Hr1 Hkey) as Hle2. rw -Hc2 in Hkey.
  destruct progressed; simpl; [|by eexists]. apply IH; [|done|done]. simpl in Hle2. lia.
Qed.
(** More fuel changes nothing. *)
Lemma drive_until_idle_more fuel fuel' h r :
  drive_until_idle fuel rid h = Some r → (fuel ≤ fuel')%nat → drive_until_idle (K:=K) (B:=B) (MS:=MS) fuel' rid h = Some r.
Proof.
  revert fuel' h. induction fuel as [|fuel IH]; intros fuel' h; [done|]. destruct fuel' as [|fuel']; [lia|].
  simpl. intros Hd Hle. destruct (host_get_run rid h) as [[run|e|] h1]; [|done..].
  destruct (negb (run_is_running run)); [done|].
  destruct (drive_claim_wave rid false h1) as [[progressed|e|] h2]; [|done..].
  destruct (negb progressed); [done|]. apply IH; [done|lia].
Qed.
(** A drive that ends on a running run got no work in its last wave. *)
Lemma drive_until_idle_idle fuel h run h' :
  drive_until_idle fuel rid h = Some (Ok run, h') → run_is_running run = true →
  ∃ h1 h2, drive_claim_wave (K:=K) (B:=B) (MS:=MS) rid false h1 = (Ok false, h2) ∧ host_get_run rid h2 = (Ok run, h').
Proof.
  revert h. induction fuel as [|fuel IH]; intros h; [done|]. simpl. intros Hd Hrun.
  destruct (host_get_run rid h) as [[run1|e|] h1]; [|done..].
  destruct (run_is_running run1) eqn:Hrun1; simpl in Hd; [|injection Hd as -> ->; congruence].
  destruct (drive_claim_wave rid false h1) as [[progressed|e|] h2] eqn:Hw; [|done..].
  destruct progressed; simpl in Hd; [by eapply IH|]. injection Hd as Hd. by exists h1, h2.
Qed.
End takes.
