(* ===== verification/MemoSpec.v ===== *)
(** * MemoSpec: what a memo hit may reuse

    The key of a memo record pins the module, its version and digest, the
    capability and the named inputs of the unit; every record a host writes is
    stored under the key of what it says, and so a hit reuses the outputs of a
    unit of the same description. *)
From S2P Require Import Prelude Wire Errors Hash Traits State FwErrors Presentation Storage Memo.
From S2P Require Import FwPolicy KernelApi Cut Host HostSpec.
Local Open Scope Z_scope.

(** ** Keys *)
Section key.
Context `{Platform}.

(** The fields a key is made of, one string after the other. *)
Definition memo_fields (module version digest capability : string) (inputs : gmap string string)
    : list string :=
  [module; version; digest; capability] ++ mjoin ((λ kv, [kv.1; kv.2]) <$> btree_iter inputs).

Lemma memo_rows l :
  concat (memo_row <$> l) =
  concat ((λ c, as_bytes c ++ [SEP]) <$> mjoin ((λ kv, [kv.1; kv.2]) <$> l)).
Proof.
  induction l as [|[k v] l IH]; [done|].
  change (mjoin ((λ kv, [kv.1; kv.2]) <$> (k, v) :: l)) with ([k; v] ++ mjoin ((λ kv, [kv.1; kv.2]) <$> l)).
  rw fmap_app concat_app -IH /= /memo_row. rw /= app_nil_r -!(assoc_L (++)) /=. by rw -!(assoc_L (++)).
Qed.
Lemma memo_key_bytes_fields module version digest capability inputs :
  memo_key_bytes module version digest capability inputs =
  concat ((λ c, as_bytes c ++ [SEP]) <$> memo_fields module version digest capability inputs).
Proof.
  rw /memo_key_bytes /memo_fields memo_rows fmap_app concat_app /=. by rw -!(assoc_L (++)) app_nil_l.
Qed.
Lemma pairs_inj (l1 l2 : list (string * string)) :
  mjoin ((λ kv, [kv.1; kv.2]) <$> l1) = mjoin ((λ kv, [kv.1; kv.2]) <$> l2) → l1 = l2.
Proof.
  revert l2. induction l1 as [|[k v] l1 IH]; intros [|[k' v'] l2]; simpl; try done.
  intros [= -> -> Heq]. by rw (IH l2).
Qed.
Lemma memo_fields_inj m v d c i m' v' d' c' i' :
  memo_fields m v d c i = memo_fields m' v' d' c' i' → m = m' ∧ v = v' ∧ d = d' ∧ c = c' ∧ i = i'.
Proof. intros [= -> -> -> -> Heq%pairs_inj%btree_iter_inj]. done. Qed.
Lemma memo_key_inj m v d c i m' v' d' c' i' :
  Forall str_nul_free (memo_fields m v d c i) → Forall str_nul_free (memo_fields m' v' d' c' i') →
  collision_free [memo_key_bytes m v d c i; memo_key_bytes m' v' d' c' i'] →
  memo_key m v d c i = memo_key m' v' d' c' i' → m = m' ∧ v = v' ∧ d = d' ∧ c = c' ∧ i = i'.
Proof.
  intros H1 H2 Hcf Heq%address_inj. apply Hcf in Heq; [|set_solver..].
  rw !memo_key_bytes_fields in Heq. apply terminated_concat_inj in Heq; [|done..].
  by apply memo_fields_inj in Heq.
Qed.
End key.

(** ** Ports *)
Lemma port_ids_lookup ports n id : NoDup (na_name <$> ports) →
  port_ids ports !! n = Some id ↔
  n ≠ "" ∧ id ≠ "" ∧ mkNamed n (Some (mkArtifactRef id)) ∈ ports.
Proof.
  rw /port_ids. intros Hnd.
  assert (∀ m : gmap string string, (∀ na, na ∈ ports → m !! na_name na = None) →
    foldl (λ m na, match na_artifact na with
                   | Some r => if negb (str_is_empty (na_name na)) && negb (str_is_empty (ar_id r))
                               then <[na_name na := ar_id r]> m else m
                   | None => m
                   end) m ports !! n = Some id ↔
    m !! n = Some id ∨ (n ≠ "" ∧ id ≠ "" ∧ mkNamed n (Some (mkArtifactRef id)) ∈ ports)) as Hg.
  { induction ports as [|[x r] ports IH]; intros m Hm; simpl; [set_solver|].
    apply NoDup_cons in Hnd as [Hx Hnd]. pose proof (Hm (mkNamed x r) ltac:(left)) as Hmx. simpl in Hmx.
    rw IH; [|done|].
    - rw elem_of_cons. destruct r as [[r]|]; simpl; [|by split; [intros [?|(? & ? & ?)]; [left|right; auto]
        |intros [?|(? & ? & [?|?])]; [left|done|right]]].
      destruct (negb (str_is_empty x) && negb (str_is_empty r)) eqn:Hok.
      + rw lookup_insert_Some. apply andb_true_iff in Hok as [Hex Her].
        rw !negb_true_iff !str_is_empty_false in Hex Her. split.
        * intros [[[<- <-]|[_ ?]]|(? & ? & ?)]; [right; split_and!; [done..|by left]|by left|right; auto].
        * intros [?|(? & ? & [[= -> ->]|?])]; [left; right|by left; left|by right].
          split; [|done]. intros <-. congruence.
      + split; [intros [?|(? & ? & ?)]; [by left|right; auto]|].
        intros [?|(Hn & Hi & [[= -> ->]|?])]; [by left| |by right].
        by rw !(proj2 (str_is_empty_false _)) in Hok.
    - intros na Hna. assert (x ≠ na_name na) as Hne.
      { intros Heq. apply Hx. simpl. rw Heq. apply list_elem_of_fmap. by exists na. }
      specialize (Hm na ltac:(by right)). destruct r as [r|]; [|done]. simpl.
      destruct (_ && _); [|done]. by rw lookup_insert_ne. }
  rw Hg; [|intros; apply lookup_empty]. rw lookup_empty. naive_solver.
Qed.

(** ** The store of a host *)
Section trust.
Context `{Platform, HashOrder, JsonValue, PresentationJson}.
Context {K B : Type} `{KernelApi K, !StorageBackend B}.
Abbreviation HostT := (@Host _ K B MemoryMemo).

(** Every record is under the key of what it says it remembers. *)
Definition record_key (r : MemoRecord) : string :=
  memo_key (mr_module r) (mr_module_version r) (mr_module_digest r) (mr_capability r) (mr_inputs r).
Definition trusted_store (store : MemoryMemo) : Prop := map_Forall (λ key r, key = record_key r) store.
Definition memo_trusted (h : HostT) : Prop := ∀ store, h_memo h = Some store → trusted_store store.
Definition keeps_trust (h h' : HostT) : Prop := memo_trusted h → memo_trusted h'.

Lemma trust_frame h h' : h_memo h' = h_memo h → keeps_trust h h'.
Proof. rw /keeps_trust /memo_trusted. by intros ->. Qed.
#[export] Instance trust_rel : HostRel keeps_trust.
Proof.
  split; [apply host_quiet_intro|..]; try by (intros x h; apply trust_frame).
  - split; [by intros h Hh|]. intros h1 h2 h3 H12 H23 Hh. by apply H23, H12.
  - intros h h' _ _. apply trust_frame.
  - intros work digest outputs run_id h Hh. rw /memo_write. destruct (h_memo h) as [store|] eqn:Hs; [|done].
    simpl. intros store' [= <-]. simpl. apply map_Forall_insert_2; [done|by apply Hh].
Qed.

(** Asking for the key only takes a ticket. *)
Lemma memo_key_of_memo (h : HostT) rid module work : h_memo (memo_key_of rid module work h).2 = h_memo h.
Proof.
  rw /memo_key_of {1}/mbind /M_bind {1}/get. destruct (h_run_policies h !! rid) as [policy|]; [|done].
  destruct (negb (mp_enabled _)); [done|]. destruct (negb (allows _ _)); [done|].
  destruct (h_plugins h !! module) as [plugin|]; [|done]. rw /mbind /M_bind /=.
  destruct (pl_module_digest plugin _) as [dg|]; [|done]. by destruct (str_is_empty dg).
Qed.
(** What [try_memo_hit] looked at when it answers. *)
Lemma try_memo_hit_inv (h h' : HostT) rid module work key outputs source :
  try_memo_hit rid module work h = (Ok (Some (key, outputs, source)), h') →
  ∃ store r digest plugin t policy, h_memo h = Some store ∧ store !! key = Some r ∧
    h_plugins h !! module = Some plugin ∧ pl_module_digest plugin t = Some digest ∧ digest ≠ "" ∧
    h_run_policies h !! rid = Some policy ∧ mp_enabled (fp_memo policy) = true ∧
    allows (mp_nodes (fp_memo policy)) (wi_node_id work) = true ∧
    key = memo_key module (wi_module_version work) digest (wi_capability work) (input_fingerprint_map work) ∧
    outputs = record_to_named_outputs r ∧ source = mr_source_run_id r.
Proof.
  rw /try_memo_hit. intros (keyed & h1 & Hk & Hm)%bind_ok_inv.
  destruct keyed as [[digest key']|]; [|done].
  pose proof Hk as Hk'. apply memo_key_of_value in Hk as (Hd & -> & policy & plugin & t & Hp & Hen & Hal & Hpl & Hdg).
  apply bind_ok_inv in Hm as (h2 & h3 & [= <- <-] & Hm).
  pose proof (memo_key_of_memo h rid module work) as Hmemo. rw Hk' /= in Hmemo.
  destruct (h_memo h1) as [store|]; [|done]. apply lift_ok_inv in Hm as (found & [= <-] & Hm).
  destruct (store !! _) as [r|] eqn:Hr; [|done]. apply bind_ok_inv in Hm as (exist & h4 & _ & Hm).
  destruct (negb exist); [done|]. destruct (_ && _); [done|]. injection Hm as <- <- <- _.
  exists store, r, digest, plugin, t, policy. by split_and!.
Qed.
End trust.
