(* ===== verification/StorageSpec.v ===== *)
(** * StorageSpec: what the in-memory backend keeps

    Writing rows in each mode, seen through a table: an upsert is a keyed update,
    a replace in a shared table only touches the rows of its run, and tables are
    created once. *)
From S2P Require Import Prelude Wire Traits FwErrors Presentation Storage.
Local Open Scope Z_scope.

(** What [PartialEq] asks of the values of [serde_json]. *)
Class JsonLaws `{JsonValue} := {
  json_eqb_sym : ∀ x y, json_eqb x y = true → json_eqb y x = true;
  json_eqb_trans : ∀ x y z, json_eqb x y = true → json_eqb y z = true → json_eqb x z = true;
}.

(** ** The run of a row *)
Section of_run.
Context `{JsonValue}.
(** A row is of the run its [_run_id] names, or its [run_id] when it has no [_run_id];
    only a text names a run. *)
Definition of_run (rid : string) (r : StoreRow) : Prop :=
  r !! "_run_id" = Some (SvText rid) ∨ (r !! "_run_id" = None ∧ r !! "run_id" = Some (SvText rid)).
Lemma row_of_run_spec rid r : row_of_run rid r = true ↔ of_run rid r.
Proof.
  rw /row_of_run /of_run. destruct (r !! "_run_id") as [[]|]; simpl; try naive_solver.
  - rw str_eqb_true. naive_solver.
  - destruct (r !! "run_id") as [[]|]; try naive_solver. rw str_eqb_true. naive_solver.
Qed.
#[export] Instance of_run_dec rid r : Decision (of_run rid r).
Proof. refine (cast_if (decide (row_of_run rid r = true))); by rw -row_of_run_spec. Defined.
End of_run.

Section rows.
Context `{JsonLaws}.

(** ** Keys *)
Lemma f64_eqb_sym x y : f64_eqb x y = true → f64_eqb y x = true.
Proof.
  rw /f64_eqb (Z.eqb_sym y x) (andb_comm (f64_is_zero y)).
  by destruct (f64_is_nan x), (f64_is_nan y).
Qed.
Lemma f64_eqb_trans x y z : f64_eqb x y = true → f64_eqb y z = true → f64_eqb x z = true.
Proof.
  rw /f64_eqb !andb_true_iff !orb_true_iff !andb_true_iff !Z.eqb_eq.
  intros [[Hx _] [->|[Hzx Hzy]]] [[Hy Hz] [<-|[Hzy2 Hzz]]]; (split; [done|auto]).
Qed.
Lemma value_eqb_sym a b : StoreValue_eqb a b = true → StoreValue_eqb b a = true.
Proof.
  destruct a, b; simpl; try done; rw ?Z.eqb_eq ?str_eqb_true ?bool_decide_eq_true; try done.
  - by destruct b, b0.
  - apply f64_eqb_sym.
  - apply json_eqb_sym.
Qed.
Lemma value_eqb_trans a b c :
  StoreValue_eqb a b = true → StoreValue_eqb b c = true → StoreValue_eqb a c = true.
Proof.
  destruct a, b; simpl; try done; destruct c; simpl; try done;
    rw ?Z.eqb_eq ?str_eqb_true ?bool_decide_eq_true; try congruence.
  - by destruct b, b0, b1.
  - apply f64_eqb_trans.
  - apply json_eqb_trans.
Qed.

Variable primary_key : list string.
Abbreviation alike := (same_key primary_key).

Lemma opt_value_eqb_sym a b : opt_value_eqb a b = true → opt_value_eqb b a = true.
Proof. destruct a, b; simpl; try done. apply value_eqb_sym. Qed.
Lemma opt_value_eqb_trans a b c :
  opt_value_eqb a b = true → opt_value_eqb b c = true → opt_value_eqb a c = true.
Proof. destruct a, b; simpl; try done; destruct c; simpl; try done. apply value_eqb_trans. Qed.
Lemma same_key_sym x y : alike x y = true → alike y x = true.
Proof. rw /same_key !List.forallb_forall. intros Hk k Hin. by apply opt_value_eqb_sym, Hk. Qed.
Lemma same_key_trans x y z : alike x y = true → alike y z = true → alike x z = true.
Proof.
  rw /same_key !List.forallb_forall. intros H1 H2 k Hin.
  by eapply opt_value_eqb_trans; [apply H1|apply H2].
Qed.
Lemma same_key_right x y z : alike x z = true → alike y z = true → alike x y = true.
Proof. intros Hx Hy%same_key_sym. by eapply same_key_trans. Qed.

(** The first row with the key of [q]. *)
Definition row_for (rows : list StoreRow) (q : StoreRow) : option StoreRow :=
  head (filter (λ r, alike r q = true) rows).
(** No two rows have one key. *)
Definition one_row_per_key (rows : list StoreRow) : Prop :=
  ∀ i j x y, rows !! i = Some x → rows !! j = Some y → alike x y = true → i = j.

Lemma row_for_app rows1 rows2 q :
  row_for (rows1 ++ rows2) q = match row_for rows1 q with Some r => Some r | None => row_for rows2 q end.
Proof. rw /row_for filter_app. by destruct (filter _ rows1). Qed.
Lemma row_for_cons r rows q : row_for (r :: rows) q = if alike r q then Some r else row_for rows q.
Proof. rw /row_for filter_cons. by destruct (alike r q). Qed.
Lemma row_for_none rows q : Forall (λ r, alike r q ≠ true) rows → row_for rows q = None.
Proof. intros Hf. by rw /row_for (filter_false _ _ Hf). Qed.

(** A row to be upserted replaces the first one of its key, or comes last. *)
Lemma upsert_row_spec rows row :
  (∃ l1 old l2, rows = l1 ++ old :: l2 ∧ alike old row = true ∧
     Forall (λ r, alike r row ≠ true) l1 ∧ upsert_row primary_key rows row = l1 ++ row :: l2) ∨
  (Forall (λ r, alike r row ≠ true) rows ∧ upsert_row primary_key rows row = rows ++ [row]).
Proof.
  rw /upsert_row. destruct (list_find _ rows) as [[idx old]|] eqn:Hf.
  - left. apply list_find_Some in Hf as (Hi & Hs & Hfirst).
    exists (take idx rows), old, (drop (S idx) rows). split_and!.
    + by rw take_drop_middle.
    + done.
    + apply Forall_forall. intros x Hx. apply list_elem_of_lookup in Hx as [j Hj].
      apply lookup_take_Some in Hj as [Hj Hlt]. by apply (Hfirst j).
    + rw insert_take_drop; [done|by eapply lookup_lt_Some].
  - right. apply list_find_None in Hf. by split.
Qed.
Lemma upsert_row_lookup rows row q :
  row_for (upsert_row primary_key rows row) q = if alike row q then Some row else row_for rows q.
Proof.
  destruct (upsert_row_spec rows row) as [(l1 & old & l2 & -> & Hold & Hl1 & ->)|[Hnone ->]].
  - rw !row_for_app !row_for_cons. destruct (alike row q) eqn:Hq.
    + rw (row_for_none l1 q); [done|]. eapply Forall_impl; [exact Hl1|]. simpl. intros r Hr Hrq.
      apply Hr. by eapply same_key_right.
    + destruct (alike old q) eqn:Hoq; [|done].
      rw (same_key_trans row old q) in Hq; [done|by apply same_key_sym|done].
  - rw row_for_app row_for_cons. destruct (alike row q) eqn:Hq; [|by destruct (row_for rows q)].
    rw (row_for_none rows q); [done|]. eapply Forall_impl; [exact Hnone|]. simpl. intros r Hr Hrq.
    apply Hr. by eapply same_key_right.
Qed.
(** The last of the written rows with a key is the one a table has. *)
Lemma upsert_rows_lookup rows written q :
  row_for (foldl (upsert_row primary_key) rows written) q =
  match row_for (reverse written) q with Some r => Some r | None => row_for rows q end.
Proof.
  revert rows. induction written as [|w written IH]; intros rows; [done|]. simpl.
  rw IH reverse_cons row_for_app upsert_row_lookup row_for_cons.
  destruct (row_for (reverse written) q); [done|]. by destruct (alike w q).
Qed.

Lemma one_row_replace l1 old l2 row : alike old row = true →
  one_row_per_key (l1 ++ old :: l2) → one_row_per_key (l1 ++ row :: l2).
Proof.
  intros Hs Hone i j x y Hi Hj Hxy.
  assert (∀ k z, (l1 ++ row :: l2) !! k = Some z →
    ∃ z', (l1 ++ old :: l2) !! k = Some z' ∧ (z' = z ∨ (z' = old ∧ z = row))) as Hback.
  { intros k z. rw !lookup_app. destruct (l1 !! k) as [v|]; [intros [= <-]; exists v; auto|].
    destruct (k - length l1)%nat as [|m]; simpl; [intros [= <-]; exists old; auto|intros Hz; exists z; auto]. }
  destruct (Hback _ _ Hi) as (x' & Hx' & Hx), (Hback _ _ Hj) as (y' & Hy' & Hy).
  apply (Hone i j x' y' Hx' Hy').
  destruct Hx as [->|[-> ->]], Hy as [->|[-> ->]]; [done| | |].
  - by eapply same_key_right; [exact Hxy|exact Hs].
  - by eapply same_key_trans; [exact Hs|].
  - by eapply same_key_trans; [exact Hs|apply same_key_sym].
Qed.
Lemma one_row_snoc rows row : Forall (λ r, alike r row ≠ true) rows →
  one_row_per_key rows → one_row_per_key (rows ++ [row]).
Proof.
  rw Forall_lookup. intros Hnone Hone i j x y.
  rw !lookup_app_Some !list_lookup_singleton_Some. intros [Hi|(Hli & Hi & <-)] [Hj|(Hlj & Hj & <-)] Hxy.
  - by eapply Hone.
  - by destruct (Hnone _ _ Hi).
  - apply same_key_sym in Hxy. by destruct (Hnone _ _ Hj).
  - lia.
Qed.
Lemma upsert_rows_unique rows written : one_row_per_key rows →
  one_row_per_key (foldl (upsert_row primary_key) rows written).
Proof.
  revert rows. induction written as [|w written IH]; intros rows Hone; simpl; [done|]. apply IH.
  destruct (upsert_row_spec rows w) as [(l1 & old & l2 & -> & Hs & _ & ->)|[Hnone ->]];
    [by eapply one_row_replace|by apply one_row_snoc].
Qed.
End rows.
