(* ===== verification/HostPipeline.v ===== *)
(** * HostPipeline: starting a pipeline on [MemoryKernel]

    What the presentation and storage operations leave of a host, and what a
    successful [start_pipeline] has done. *)
From S2P Require Import Prelude Wire Errors Hash Traits Policy State Registry Store Events Assembly.
From S2P Require Import AssemblySpec Work Runs Units Steps Kernel Invariant Evolve RunTheorems.
From S2P Require Import FwErrors Presentation Storage Memo FwPolicy KernelApi KernelLaws Cut CutSpec Host.
From S2P Require Import HostSpec.
Local Open Scope Z_scope.

Section frames.
Context `{Platform, HashOrder, JsonValue, PresentationJson}.
Context {K B MS : Type} `{KernelApi K, !StorageBackend B, MemoStore MS}.
Abbreviation HostT := (@Host _ K B MS).
Abbreviation HostM := (M HostT FrameworkError).

(** Everything but the kernel, the events and the tables. *)
Definition same_setup (h h' : HostT) : Prop :=
  h_plugins h' = h_plugins h ∧ h_ctx h' = h_ctx h ∧ h_run_policies h' = h_run_policies h ∧
  h_storage_schemas h' = h_storage_schemas h ∧ h_memo h' = h_memo h ∧
  h_execute_count h' = h_execute_count h ∧ h_memo_hit_count h' = h_memo_hit_count h.
#[export] Instance same_setup_preorder : PreOrder same_setup.
Proof. split; [by intros h|]. intros h1 h2 h3 H12 H23. rw /same_setup in H12 H23 |- *. intuition congruence. Qed.

Lemma call_kernel_ok {A} (op : RequestContext → M K KernelError A) h a h' :
  call_kernel (B:=B) (MS:=MS) op h = (Ok a, h') →
  ∃ k, op (h_ctx h) (h_kernel h) = (Ok a, k) ∧ h' = host_with_kernel k h.
Proof. rw /call_kernel. destruct (op _ _) as [[x|e|] k]; [|done..]. intros [= -> <-]. by exists k. Qed.

Lemma maybe_put_ui_ok module contract view (h : HostT) id h' :
  maybe_put_ui module contract view h = (Ok id, h') → ∃ k, h' = host_with_kernel k h.
Proof.
  rw /maybe_put_ui. intros Hm. apply bind_ok_inv in Hm as (h0 & h1 & [= <- <-] & Hm).
  destruct (negb _); [injection Hm as _ <-; exists (h_kernel h); by destruct h|].
  apply lift_ok_inv in Hm as (body & _ & Hm). apply bind_ok_inv in Hm as (r & h2 & Hc & [= _ <-]).
  apply call_kernel_ok in Hc as (k & _ & ->). by exists k.
Qed.
(** Every presentation is recorded, in order. *)
Lemma emit_presentation_ok module p (h : HostT) u h' : emit_presentation module p h = (Ok u, h') →
  same_setup h h' ∧ h_storage h' = h_storage h ∧
  se_presentation <$> h_step_events h' = (se_presentation <$> h_step_events h) ++ [p] ∧
  Forall (λ e, se_stage e = p_stage (se_presentation e)) (drop (length (h_step_events h)) (h_step_events h')).
Proof.
  rw /emit_presentation. intros Hm. apply bind_ok_inv in Hm as (id & h1 & Hp & [= _ <-]).
  apply maybe_put_ui_ok in Hp as (k & ->). simpl. split_and!; try done.
  - by rw fmap_app.
  - rw drop_app_length. by repeat constructor.
Qed.
Lemma emit_skip_events_ok rid cut (h : HostT) u h' : emit_skip_events rid cut h = (Ok u, h') →
  same_setup h h' ∧ h_storage h' = h_storage h ∧
  se_presentation <$> h_step_events h' =
    (se_presentation <$> h_step_events h) ++ (skipped_presentation rid cut <$> cut_skipped cut).
Proof.
  rw /emit_skip_events. revert h. induction (cut_skipped cut) as [|sk l IH]; intros h; simpl.
  { intros [= _ <-]. by rw app_nil_r. }
  intros Hm. apply bind_ok_inv in Hm as ([] & h1 & He & Hm).
  apply emit_presentation_ok in He as (Hs1 & Hst1 & He1 & _).
  apply IH in Hm as (Hs2 & Hst2 & He2). split_and!; [by etrans|congruence|].
  by rw He2 He1 -(assoc_L (++)).
Qed.
(** Creating tables leaves the kernel and the events alone. *)
Lemma ensure_run_storage_ok rid policy (h : HostT) u h' : ensure_run_storage rid policy h = (Ok u, h') →
  same_setup h h' ∧ h_kernel h' = h_kernel h ∧ h_step_events h' = h_step_events h.
Proof.
  rw /ensure_run_storage. destruct (negb _); [by intros [= _ <-]|]. intros Hm.
  apply bind_ok_inv in Hm as (h0 & h1 & [= <- <-] & Hm). apply lift_ok_inv in Hm as (b & _ & Hm). cbv zeta in Hm.
  apply bind_ok_inv in Hm as ([] & h2 & Hf & Hm).
  assert (same_setup h h2 ∧ h_kernel h2 = h_kernel h ∧ h_step_events h2 = h_step_events h) as (Hs & Hk & He).
  { revert Hf. clear. generalize (tables_to_ensure rid policy (h_storage_schemas h)). intros l. revert h.
    induction l as [|q l IH]; intros h; simpl; [intros Heq; cbv [mret M_ret] in Heq; by simplify_eq|].
    intros Hm. apply bind_ok_inv in Hm as ([] & h3 & Hb & Hm). apply IH in Hm as (Hs & Hk & He).
    revert Hb. rw /call_backend. destruct (h_storage h) as [b|]; [|done].
    destruct (sb_ensure_table q b) as [[x|e|] b']; [|done..]. intros [= _ <-]. split_and!; [|by rw Hk|by rw He].
    by etrans; [|exact Hs]. }
  destruct (list_is_empty _); injection Hm as _ <-; [done|]. split_and!; [|done..]. by etrans; [exact Hs|].
Qed.
End frames.

(** ** On [MemoryKernel] *)
Section live.
Context `{Platform, HashOrder, JsonValue, PresentationJson}.
Context {B MS : Type} `{!StorageBackend B, MemoStore MS}.
Abbreviation HostT := (@Host _ LiveKernel B MS).
Definition host_state (h : HostT) : State := mk_state (lk_kernel (h_kernel h)).
Definition host_law (h : HostT) : ArtifactStorePolicy := mk_store_policy (lk_kernel (h_kernel h)).

(** The kernel of the one host is a later state of the kernel of the other. *)
Definition kernel_later (h h' : HostT) : Prop :=
  host_law h' = host_law h ∧ later (host_law h) (host_state h) (host_state h').
#[export] Instance kernel_later_preorder : PreOrder kernel_later.
Proof.
  split; [intros h; split; [done|apply rtc_refl]|].
  intros h1 h2 h3 [Hl12 H12] [Hl23 H23]. rw Hl12 in Hl23, H23.
  split; [done|]. rw /later in H12 H23 |- *. by etrans.
Qed.
Lemma live_call {A} (f : Reply → option A) c (h : HostT) : call_ok c →
  kernel_later h (host_with_kernel (replied f (live_exec c) (h_kernel h)).2 h).
Proof. intros Hok. rw replied_state. by destruct (live_exec_step c (h_kernel h) Hok). Qed.
#[export] Instance kernel_later_rel : HostRel kernel_later.
Proof.
  split; [apply host_quiet_intro|..].
  - apply _.
  - intros h h' Hk _ _. rw /kernel_later /host_law /host_state Hk. split; [done|apply rtc_refl].
  - intros a h. by apply (live_call _ (CPutArtifact a (h_ctx h))).
  - intros r h. by apply (live_call _ (CGetArtifact r (h_ctx h))).
  - intros work digest outputs run_id h. rw /memo_write. destruct (h_memo h); [|done].
    destruct (memo_put _ _). split; [done|apply rtc_refl].
  - intros req h. by apply (live_call _ (CClaimReady req (h_ctx h))).
  - intros req h. by apply (live_call _ (CFailWork req (h_ctx h))).
  - intros r h. by apply (live_call _ (CGetRun r (h_ctx h))).
  - intros d h. by apply (live_call _ (CCommit d (h_ctx h))).
Qed.

Lemma live_start_run_ok req ctx k run k' :
  ctx_request_key ctx = "" → api_start_run req ctx k = (Ok run, k') →
  let s := mk_state (lk_kernel k) in
  ∃ a, startable s req a ∧ run = rs_run (started_slot req a) ∧
    st_runs (mk_state (lk_kernel k')) = <[rr_id req := started_slot req a]> (st_runs s).
Proof.
  intros Hkey. rw /= /replied. intros Hc. apply bind_ok_inv in Hc as (r & k1 & Hc & Hrun).
  revert Hc. rw /live_exec /exec /replying {1}/mbind /M_bind.
  destruct (start_run_ctx _ _ _ _) as [[run0|er|] s'] eqn:Hs; intros Hc; simplify_eq/=.
  injection Hrun as <- <-. apply start_run_inv in Hs as (a & Ha & -> & Hruns);
    [|by rw /idempotent_get /idempotency_key Hkey]. by exists a.
Qed.
End live.
