(* ===== verification/HostUnit.v ===== *)
(** * HostUnit: one work unit, from claim to commit

    What [finish_work_unit] has done when it answers [Ok], on [MemoryKernel]:
    one derivation, the events in their order, the counters.  Two more relations
    of [HostSpec] carry the proof past the operations that matter to
    neither: [runs_same], for those that commit nothing, and [setup_same], for those
    that show nothing. *)
From S2P Require Import Prelude Wire Errors Hash Traits Policy State Registry Store Events Assembly.
From S2P Require Import AssemblySpec Work Runs Units Steps Kernel Invariant Evolve RunTheorems FailTheorems.
From S2P Require Import StoreTheorems.
From S2P Require Import FwErrors Presentation Storage Memo FwPolicy KernelApi KernelLaws Cut CutSpec Host.
From S2P Require Import HostSpec HostTermination MemoSpec HostPipeline.
Local Open Scope Z_scope.

(** ** Operations that show nothing *)
Section silent.
Context `{Platform, HashOrder, JsonValue, PresentationJson}.
Context {K B MS : Type} `{KernelApi K, !StorageBackend B, MemoStore MS}.
Abbreviation HostT := (@Host _ K B MS).

(** The events, the counters and everything that was set up. *)
Record setup_same (h h' : HostT) : Prop := mkSetupSame {
  sm_events : h_step_events h' = h_step_events h;
  sm_executed : h_execute_count h' = h_execute_count h;
  sm_hits : h_memo_hit_count h' = h_memo_hit_count h;
  sm_plugins : h_plugins h' = h_plugins h;
  sm_ctx : h_ctx h' = h_ctx h;
  sm_ui : h_ui_persist h' = h_ui_persist h;
  sm_policies : h_run_policies h' = h_run_policies h;
}.
#[export] Instance setup_same_preorder : PreOrder setup_same.
Proof. split; [by intros h|]. intros h1 h2 h3 [] []. split; congruence. Qed.
#[export] Instance setup_same_silent : HostSilent setup_same.
Proof.
  split; try done; [apply _|]. intros work digest outputs run_id h. rw /memo_write.
  destruct (h_memo h); [|done]. by destruct (memo_put _ _).
Qed.
End silent.

(** ** Operations that commit nothing *)
Section frames.
Context `{Platform}.
Definition runs_of (s : State) : gmap string RunSlot * list Derivation := (st_runs s, st_derivations s).
Lemma put_artifact_leaves store_policy a ctx now v :
  leaves runs_of v (put_artifact_ctx store_policy a ctx now).
Proof.
  do 2 (apply leaves_bind; [apply leaves_lift|intros _]). apply leaves_get. intros s Hs.
  assert (leaves (E:=KernelError) runs_of v
    (lift (for_each (λ _ '(_, tr), verify_external_trait s tr) tt (btree_iter (art_traits a)));;
     (if has_key (artifact_id_of a) (st_artifacts s) then mret tt
      else put (set_artifacts (<[artifact_id_of a := art_with_id (artifact_id_of a) a]> (st_artifacts s)) s);;
           append_locked "artifact.put" (artifact_id_of a)
             (encode_Artifact (clear_external_bodies (art_with_id (artifact_id_of a) a)));;
           mret tt);;
     idempotent_put "put_artifact" ctx (IdemArtifactRef (mkArtifactRef (artifact_id_of a)));;
     mret (mkArtifactRef (artifact_id_of a)))) as Hput.
  { apply leaves_bind; [apply leaves_lift|intros _]. apply leaves_bind.
    - destruct (has_key _ _); [apply leaves_ret|]. apply leaves_bind; [by apply leaves_put|intros _].
      apply leaves_bind; [by intros s' <-|intros _; apply leaves_ret].
    - intros _. apply leaves_bind; [|intros _; apply leaves_ret]. rw /idempotent_put.
      destruct (idempotency_key _ _); [|apply leaves_ret]. apply leaves_modify. intros s'.
      by destruct (st_idempotency s' !! _). }
  destruct (idempotent_get s "put_artifact" ctx) as [[r|r]|]; [apply leaves_ret|exact Hput..].
Qed.
Lemma get_artifact_same ctx t0 r s : (before_deadline ctx t0 (get_artifact r) s).2 = s.
Proof. rw /before_deadline /get_artifact. by destruct (check_deadline ctx t0). Qed.
End frames.

Section quiet.
Context `{Platform, HashOrder, JsonValue, PresentationJson}.
Context {B MS : Type} `{!StorageBackend B, MemoStore MS}.
Abbreviation HostT := (@Host _ LiveKernel B MS).

(** The runs and derivations of the kernel, and the context of the calls. *)
Definition runs_same (h h' : HostT) : Prop :=
  runs_of (host_state h') = runs_of (host_state h) ∧ h_ctx h' = h_ctx h.
#[export] Instance runs_same_preorder : PreOrder runs_same.
Proof. split; [by intros h|]. intros h1 h2 h3 [Hr1 Hc1] [Hr2 Hc2]. split; congruence. Qed.
Lemma replying_state {A} (g : A → Reply) (m : Method A) s : (replying g m s).2 = (m s).2.
Proof. rw /replying /mbind /M_bind. by destruct (m s) as [[a|e|] s']. Qed.
Lemma live_state c k : mk_state (lk_kernel (live_exec c k).2) =
  (@exec _ (env_order (lk_env k (lk_calls k))) (mk_store_policy (lk_kernel k))
     (env_t0 (lk_env k (lk_calls k))) (env_now (lk_env k (lk_calls k))) c (mk_state (lk_kernel k))).2.
Proof. rw /live_exec. by destruct (exec _ _ _ _ _). Qed.
#[export] Instance runs_same_quiet : HostQuiet runs_same.
Proof.
  apply host_quiet_intro.
  - apply _.
  - intros h h' Hk Hc _. by rw /runs_same /host_state Hk.
  - intros a h. split; [|done]. rw /host_state /= replied_state live_state /= replying_state.
    by apply put_artifact_leaves.
  - intros r h. split; [|done]. by rw /host_state /= replied_state live_state /= replying_state get_artifact_same.
  - intros work digest outputs run_id h. rw /memo_write. destruct (h_memo h); [|done].
    by destruct (memo_put _ _).
Qed.

(** ** The calls of the kernel, when they are answered *)
Lemma live_ok {A} (f : Reply → option A) c k a k' : replied f (live_exec c) k = (Ok a, k') →
  let e := lk_env k (lk_calls k) in
  ∃ r, @exec _ (env_order e) (mk_store_policy (lk_kernel k)) (env_t0 e) (env_now e) c (mk_state (lk_kernel k)) =
         (Ok r, mk_state (lk_kernel k')) ∧ f r = Some a.
Proof.
  rw /replied. intros Hm. apply bind_ok_inv in Hm as (r & k1 & Hm & [= Hf <-]).
  exists r. split; [|by destruct (f r); simplify_eq/=]. revert Hm. rw /live_exec.
  destruct (exec _ _ _ _ _) as [o s']. by intros [= -> <-].
Qed.
Lemma replying_ok {A} (g : A → Reply) (m : Method A) s r s' : replying g m s = (Ok r, s') →
  ∃ a, m s = (Ok a, s') ∧ r = g a.
Proof. intros (a & s1 & Hm & [= <- <-])%bind_ok_inv. by exists a. Qed.

Lemma live_put_ok a (h : HostT) r h' : ctx_request_key (h_ctx h) = "" →
  call_kernel (api_put_artifact a) h = (Ok r, h') → r = mkArtifactRef (artifact_id_of a).
Proof.
  intros Hkey (k & Hc & _)%call_kernel_ok. apply live_ok in Hc as (rep & Hc & Hf).
  apply replying_ok in Hc as (r' & Hc & ->). injection Hf as ->.
  by apply put_artifact_inv in Hc as (-> & _); [|apply no_key].
Qed.
Lemma live_get_ok r (h : HostT) art h' : call_kernel (api_get_artifact r) h = (Ok art, h') →
  st_artifacts (host_state h) !! ar_id r = Some art ∧ host_state h' = host_state h.
Proof.
  intros (k & Hc & ->)%call_kernel_ok. apply live_ok in Hc as (rep & Hc & Hf).
  apply replying_ok in Hc as (art' & Hc & ->). injection Hf as ->. rw /before_deadline in Hc.
  apply lift_ok_inv in Hc as (_ & _ & Hc). apply bind_ok_inv in Hc as (? & ? & [= <- <-] & Hc).
  injection Hc as Ha Hs. split; [|done]. by destruct (_ !! _); simplify_eq/=.
Qed.
Lemma live_commit_ok rid work outputs (h : HostT) run h' :
  reachable (host_law h) (host_state h) → ctx_request_key (h_ctx h) = "" →
  call_kernel (api_commit (submitted rid work outputs)) h = (Ok run, h') →
  ∃ d, st_derivations (host_state h') = st_derivations (host_state h) ++ [d] ∧
    d_run_id d = rid ∧ d_work_id d = wi_id work ∧ d_outputs d = outputs ∧
    (wi_node_id work = "" ∨ d_node_id d = wi_node_id work) ∧
    rs_run <$> st_runs (host_state h') !! rid = Some run.
Proof.
  intros Hr Hkey (k & Hc & ->)%call_kernel_ok. apply live_ok in Hc as (rep & Hc & Hf).
  apply replying_ok in Hc as (run' & Hc & ->). injection Hf as ->.
  destruct (commit_inv _ _ _ _ _ _ _ _ Hr (no_key _ _ _ Hkey) Hc)
    as (slot & c & cap & a & t & Hs & _ & _ & _ & Hcl & Hnode & _ & _ & _ & _ & Hruns & Hder).
  exists (derivation_of (cs_work c) outputs). apply reachable_ksteps in Hr as [_ [Hinv _]].
  pose proof (Hinv _ _ Hs) as Hi. simpl in Hi. destruct (ri_assembly _ _ _ Hi) as (a' & t' & _ & [Hall _] & _).
  pose proof (Hall _ _ (reaped_claims_sub _ _ _ _ Hcl)) as Hok.
  split_and!; [exact Hder| | |done| |].
  - apply (co_run _ _ _ _ _ Hok).
  - apply (co_id _ _ _ _ _ Hok).
  - simpl in Hnode. destruct Hnode as [?|Hn]; [by left|right]. by rw Hn.
  - rw /host_state /= Hruns /=. by rw lookup_insert_eq.
Qed.

(** What is committed for the outputs a plugin returned. *)
Definition committed_outputs (module : string) (output : StepOutput) : list NamedArtifact :=
  (λ out, mkNamed (po_port out) (Some (mkArtifactRef (artifact_id_of (output_artifact module out))))) <$>
    so_outputs output.
Lemma put_outputs_ok module output (h : HostT) named h' : ctx_request_key (h_ctx h) = "" →
  put_outputs module (so_outputs output) h = (Ok named, h') → named = committed_outputs module output.
Proof.
  rw /committed_outputs. revert h named h'. induction (so_outputs output) as [|o outs IH]; intros h named h' Hkey; simpl.
  - by intros [= <- _].
  - intros (r & h1 & Hput & Hm)%bind_ok_inv. apply bind_ok_inv in Hm as (rest & h2 & Hrest & [= <- _]).
    assert (h_ctx h1 = h_ctx h) as Hc by (by apply call_kernel_ok in Hput as (k & _ & ->)).
    apply live_put_ok in Hput as ->; [|done]. apply IH in Hrest as ->; [done|congruence].
Qed.
(** A step is given the artifacts of the store that its inputs name. *)
Lemma load_step_ok rid work (h : HostT) step h' : load_step rid work h = (Ok step, h') →
  sc_run_id step = rid ∧ sc_work step = work ∧ sc_progress_buf step = [] ∧
  map_Forall (λ n art, ∃ r, mkNamed n (Some r) ∈ wi_inputs work ∧
    st_artifacts (host_state h) !! ar_id r = Some art) (sc_inputs step).
Proof.
  rw /load_step. intros (inputs & h1 & Hl & [= <- _])%bind_ok_inv. split_and!; [done..|]. simpl.
  set P := λ n art, ∃ r, mkNamed n (Some r) ∈ wi_inputs work ∧ st_artifacts (host_state h) !! ar_id r = Some art.
  assert (∀ l m h0 inputs h1, (∀ i, i ∈ l → i ∈ wi_inputs work) → host_state h0 = host_state h → map_Forall P m →
    load_inputs (B:=B) (MS:=MS) m l h0 = (Ok inputs, h1) → map_Forall P inputs) as Hind.
  { intros l. induction l as [|[n ref] l IH]; intros m h0 inp h2 Hsub Hh Hm; simpl; [by intros [= <- _]|].
    intros (m' & h3 & Hi & Hrest)%bind_ok_inv.
    destruct ref as [r|]; [|injection Hi as <- <-; eapply (IH m h0); eauto; intros; apply Hsub; by right].
    rw /load_input /= in Hi. apply bind_ok_inv in Hi as (art & h4 & Hg & [= <- <-]).
    apply live_get_ok in Hg as [Hart Hst]. eapply (IH _ h4); [| | |exact Hrest].
    - intros i Hi. apply Hsub. by right.
    - congruence.
    - apply map_Forall_insert_2; [|done]. exists r. split; [apply Hsub; by left|]. by rw -Hh. }
  eapply (Hind (wi_inputs work) ∅ h); [done|done|apply map_Forall_empty|exact Hl].
Qed.

Lemma load_step_memo rid work (h : HostT) step h' : load_step rid work h = (Ok step, h') → h_memo h' = h_memo h.
Proof.
  rw /load_step. intros (inputs & h1 & Hl & [= _ <-])%bind_ok_inv. revert h Hl.
  generalize (∅ : gmap string Artifact).
  induction (wi_inputs work) as [|[n ref] l IH]; intros m h; simpl; [by intros [= _ <-]|].
  intros (m' & h2 & Hi & Hrest)%bind_ok_inv. rw (IH _ _ Hrest).
  destruct ref as [r|]; [|by injection Hi as _ <-]. rw /load_input /= in Hi.
  apply bind_ok_inv in Hi as (art & h3 & Hg & [= _ <-]). by apply call_kernel_ok in Hg as (k & _ & ->).
Qed.

(** ** The stages of a unit *)
(** [h'] is [h] after showing [ps], committing nothing and executing nothing. *)
Record shows (ps : list Presentation) (h h' : HostT) : Prop := mkShows {
  sh_events : se_presentation <$> h_step_events h' = (se_presentation <$> h_step_events h) ++ ps;
  sh_executed : h_execute_count h' = h_execute_count h;
  sh_hits : h_memo_hit_count h' = h_memo_hit_count h;
  sh_plugins : h_plugins h' = h_plugins h;
  sh_ctx : h_ctx h' = h_ctx h;
}.
Lemma shows_trans ps1 ps2 h1 h2 h3 : shows ps1 h1 h2 → shows ps2 h2 h3 → shows (ps1 ++ ps2) h1 h3.
Proof. intros [He1] [He2]. split; [|congruence..]. by rw He2 He1 -(assoc_L (++)). Qed.
Definition same_plugins (h h' : HostT) : Prop := h_plugins h' = h_plugins h ∧ h_ctx h' = h_ctx h.
#[export] Instance same_plugins_preorder : PreOrder same_plugins.
Proof. split; [by intros h|]. intros h1 h2 h3 [] []. split; congruence. Qed.
Lemma shows_plugins ps h h' : shows ps h h' → same_plugins h h'.
Proof. by intros []. Qed.
Lemma setup_shows h h' : setup_same h h' → shows [] h h'.
Proof. intros []. split; [|done..]. by rw sm_events0 app_nil_r. Qed.
Lemma silent_shows {A} (m : M HostT FrameworkError A) h a h' :
  keeps setup_same m → m h = (Ok a, h') → shows [] h h'.
Proof. intros Hk Hm. specialize (Hk h). rw Hm in Hk. by apply setup_shows. Qed.
Lemma emit_shows module p (h : HostT) u h' : emit_presentation module p h = (Ok u, h') → shows [p] h h'.
Proof. intros ((Hp & Hc & _ & _ & _ & Hx & Hh) & _ & He & _)%emit_presentation_ok. by split. Qed.
Lemma emit_optional_shows module p (h : HostT) u h' :
  emit_optional module p h = (Ok u, h') → shows (option_list p) h h'.
Proof. destruct p as [p|]; [apply emit_shows|]. intros [= _ <-]. by apply setup_shows. Qed.
Lemma emit_all_shows module ps (h : HostT) u h' :
  for_each_M (emit_presentation module) ps h = (Ok u, h') → shows ps h h'.
Proof.
  revert h. induction ps as [|p ps IH]; intros h; simpl; [intros [= _ <-]; by apply setup_shows|].
  intros ([] & h1 & Hp & Hm)%bind_ok_inv. apply emit_shows in Hp. apply IH in Hm.
  by apply (shows_trans [p] ps h h1).
Qed.
Lemma commit_shows d (h : HostT) run h' : call_kernel (api_commit d) h = (Ok run, h') → shows [] h h'.
Proof. intros (k & _ & ->)%call_kernel_ok. by apply setup_shows. Qed.

(** [shows], with the runs of the kernel as they were. *)
Definition calmly (ps : list Presentation) (h h' : HostT) : Prop :=
  shows ps h h' ∧ runs_same h h' ∧ kernel_later h h'.
Lemma calmly_trans ps1 ps2 h1 h2 h3 : calmly ps1 h1 h2 → calmly ps2 h2 h3 → calmly (ps1 ++ ps2) h1 h3.
Proof.
  intros (Hs1 & Hr1 & Hl1) (Hs2 & Hr2 & Hl2). split_and!; [by eapply shows_trans|by etrans|by etrans].
Qed.
Lemma calm_op {A} (m : M HostT FrameworkError A) h a h' :
  keeps setup_same m → keeps runs_same m → keeps kernel_later m → m h = (Ok a, h') → calmly [] h h'.
Proof.
  intros Hs Hr Hl Hm. split_and!; [by eapply silent_shows| |].
  - specialize (Hr h). by rw Hm in Hr.
  - specialize (Hl h). by rw Hm in Hl.
Qed.
Lemma calm_emit_optional module p (h : HostT) u h' :
  emit_optional module p h = (Ok u, h') → calmly (option_list p) h h'.
Proof.
  intros Hm. pose proof (keeps_emit_optional runs_same module p h) as Hr.
  pose proof (keeps_emit_optional kernel_later module p h) as Hl. rw Hm in Hr, Hl.
  split_and!; [by eapply emit_optional_shows|done|done].
Qed.
Lemma calm_emit_all module ps (h : HostT) u h' :
  for_each_M (emit_presentation module) ps h = (Ok u, h') → calmly ps h h'.
Proof.
  intros Hm.
  pose proof (keeps_for_each runs_same _ ps (keeps_emit_presentation runs_same module) h) as Hr.
  pose proof (keeps_for_each kernel_later _ ps (keeps_emit_presentation kernel_later module) h) as Hl.
  rw Hm in Hr, Hl. split_and!; [by eapply emit_all_shows|done|done].
Qed.

(** The kernel has one derivation more, of this unit and these outputs. *)
Definition committed (rid : string) (work : WorkItem) (outputs : list NamedArtifact) (h h' : HostT) : Prop :=
  ∃ d, st_derivations (host_state h') = st_derivations (host_state h) ++ [d] ∧
    d_run_id d = rid ∧ d_work_id d = wi_id work ∧ d_outputs d = outputs ∧
    (wi_node_id work = "" ∨ d_node_id d = wi_node_id work).
Lemma committed_between rid work outputs h1 h2 h3 h4 :
  runs_same h1 h2 → runs_same h3 h4 → committed rid work outputs h2 h3 → committed rid work outputs h1 h4.
Proof.
  intros [Hr1 _] [Hr2 _] (d & Hd & Hrest). exists d. split; [|done].
  injection Hr1 as _ Hr1. injection Hr2 as _ Hr2. by rw Hr2 Hd Hr1.
Qed.
(** A host to which calls can be made: the kernel is as the kernel leaves it,
    and no answer comes from the idempotency cache. *)
Definition sound_host (h : HostT) : Prop :=
  reachable (host_law h) (host_state h) ∧ ctx_request_key (h_ctx h) = "".
Lemma sound_later ps h h' : calmly ps h h' → sound_host h → sound_host h'.
Proof.
  intros (Hs & _ & [Hl1 Hl2]) [Hr Hkey]. split.
  - rw Hl1. by eapply later_reachable.
  - by rw (sh_ctx _ _ _ Hs).
Qed.
Lemma commit_committed rid work outputs (h : HostT) run h' : sound_host h →
  call_kernel (api_commit (submitted rid work outputs)) h = (Ok run, h') →
  committed rid work outputs h h' ∧ shows [] h h'.
Proof.
  intros [Hr Hkey] Hc. split; [|by eapply commit_shows].
  destruct (live_commit_ok _ _ _ _ _ _ Hr Hkey Hc) as (d & Hd & ? & ? & ? & ? & _). by exists d.
Qed.

Lemma commit_memo_hit_ok rid work step key outputs source (h : HostT) b h' : sound_host h →
  commit_memo_hit rid (wi_module work) work step key outputs source h = (Ok b, h') →
  committed rid work outputs h h' ∧
  se_presentation <$> h_step_events h' =
    (se_presentation <$> h_step_events h) ++ [cached_presentation rid work key outputs source] ∧
  h_execute_count h' = h_execute_count h ∧ h_memo_hit_count h' = u64_sat_add (h_memo_hit_count h) 1 ∧
  same_plugins h h'.
Proof.
  intros Hsound. rw /commit_memo_hit. intros ([] & h1 & He & Hm)%bind_ok_inv.
  apply (calm_emit_optional _ (Some _)) in He. apply bind_ok_inv in Hm as (run & h2 & Hc & Hm).
  apply commit_committed in Hc as [Hc Hs2]; [|by eapply sound_later].
  apply bind_ok_inv in Hm as ([] & h3 & Hcount & Hm). injection Hcount as <-.
  apply bind_ok_inv in Hm as ([] & h4 & Hst & [= _ <-]).
  eapply calm_op in Hst; [|keeps_auto..]. destruct He as (Hs1 & Hr1 & _), Hst as (Hs4 & Hr4 & _).
  split_and!.
  - eapply committed_between; [exact Hr1|exact Hr4|]. exact Hc.
  - rw (sh_events _ _ _ Hs4) /= (sh_events _ _ _ Hs2) (sh_events _ _ _ Hs1) !app_nil_r. done.
  - rw (sh_executed _ _ _ Hs4) /= (sh_executed _ _ _ Hs2). apply (sh_executed _ _ _ Hs1).
  - rw (sh_hits _ _ _ Hs4) /= (sh_hits _ _ _ Hs2). by rw (sh_hits _ _ _ Hs1).
  - etrans; [exact (shows_plugins _ _ _ Hs1)|]. etrans; [exact (shows_plugins _ _ _ Hs2)|].
    exact (shows_plugins _ _ _ Hs4).
Qed.
Lemma commit_step_success_ok rid work step output (h : HostT) u h' : sound_host h →
  commit_step_success rid (wi_module work) work step output h = (Ok u, h') →
  let outputs := committed_outputs (wi_module work) output in
  ∃ plugin t, h_plugins h !! wi_module work = Some plugin ∧ committed rid work outputs h h' ∧
    shows (option_list (final_presentation rid work outputs <$>
             pl_on_final plugin t step (mkStepResult true outputs None))) h h'.
Proof.
  intros Hsound. rw /commit_step_success. intros (named & h1 & Hput & Hm)%bind_ok_inv.
  pose proof (proj2 Hsound) as Hkey. pose proof Hput as Hnamed. apply put_outputs_ok in Hnamed as ->; [|done].
  eapply calm_op in Hput; [|keeps_auto..]. cbv zeta in Hm.
  apply bind_ok_inv in Hm as (plugin & h2 & Hpl & Hm).
  rw /find_plugin in Hpl. apply bind_ok_inv in Hpl as (? & ? & [= <- <-] & [= Hp <-]). apply ok_or_ok in Hp.
  apply bind_ok_inv in Hm as (t & h3 & Ht & Hm). eapply calm_op in Ht; [|keeps_auto..].
  apply bind_ok_inv in Hm as ([] & h4 & He & Hm). apply calm_emit_optional in He.
  apply bind_ok_inv in Hm as (run & h5 & Hc & Hm).
  pose proof (calmly_trans _ _ _ _ _ (calmly_trans _ _ _ _ _ Hput Ht) He) as (Hs4 & Hr4 & Hl4).
  apply commit_committed in Hc as [Hc Hs5]; [|by eapply sound_later; [split_and!|]].
  apply bind_ok_inv in Hm as ([] & h6 & Hmemo & Hst).
  eapply calm_op in Hmemo; [|keeps_auto..]. eapply calm_op in Hst; [|keeps_auto..].
  destruct (calmly_trans _ _ _ _ _ Hmemo Hst) as (Hs7 & Hr7 & _).
  exists plugin, t. split_and!.
  - destruct Hput as ([] & _). congruence.
  - by eapply committed_between.
  - eapply shows_trans in Hs7; [|exact Hs5]. eapply shows_trans in Hs7; [|exact Hs4].
    by rw /= app_nil_r in Hs7.
Qed.

(** A unit that was not in the memo store: everything from [on_init] on. *)
Lemma executed_ok rid work step (h : HostT) h' : sound_host h →
  (plugin ← find_plugin (wi_module work);
   t ← ticket;
   emit_optional (wi_module work) (init_presentation rid work <$> pl_on_init plugin t step);;
   t ← ticket;
   let '(result, step) := pl_execute plugin t step in
   lift (match result with Panic => Panic | _ => Ok tt end);;
   count_execution;;
   let '(progress, step) := take_progress step in
   for_each_M (emit_presentation (wi_module work)) progress;;
   settle rid (wi_module work) work step result) h = (Ok tt, h') →
  ∃ plugin t0 t1 t2 output step', let outputs := committed_outputs (wi_module work) output in
    h_plugins h !! wi_module work = Some plugin ∧ pl_execute plugin t1 step = (Ok output, step') ∧
    committed rid work outputs h h' ∧
    se_presentation <$> h_step_events h' = (se_presentation <$> h_step_events h) ++
      option_list (init_presentation rid work <$> pl_on_init plugin t0 step) ++
      sc_progress_buf step' ++
      option_list (final_presentation rid work outputs <$>
        pl_on_final plugin t2 (step_with_progress [] step') (mkStepResult true outputs None)) ∧
    h_execute_count h' = u64_sat_add (h_execute_count h) 1 ∧ h_memo_hit_count h' = h_memo_hit_count h ∧
    same_plugins h h'.
Proof.
  intros Hsound (plugin & h3 & Hpl & Hm)%bind_ok_inv.
  rw /find_plugin in Hpl. apply bind_ok_inv in Hpl as (? & ? & [= <- <-] & [= Hp <-]). apply ok_or_ok in Hp.
  apply bind_ok_inv in Hm as (t0 & h4 & Ht0 & Hm). eapply calm_op in Ht0; [|keeps_auto..].
  apply bind_ok_inv in Hm as ([] & h5 & Hinit & Hm). apply calm_emit_optional in Hinit.
  apply bind_ok_inv in Hm as (t1 & h6 & Ht1 & Hm). eapply calm_op in Ht1; [|keeps_auto..].
  destruct (pl_execute plugin t1 step) as [result step'] eqn:Hex.
  apply lift_ok_inv in Hm as ([] & _ & Hm). apply bind_ok_inv in Hm as ([] & h7 & Hcount & Hm).
  injection Hcount as <-. cbv beta iota delta [take_progress] in Hm.
  apply bind_ok_inv in Hm as ([] & h8 & Hprog & Hm). apply calm_emit_all in Hprog.
  destruct result as [output|e|]; simpl in Hm; [|by apply fail_step_never_ok in Hm|done].
  pose proof (calmly_trans _ _ _ _ _ (calmly_trans _ _ _ _ _ Ht0 Hinit) Ht1) as Hc6.
  destruct Hc6 as (Hs6 & Hr6 & Hl6). destruct Hprog as (Hs8 & Hr8 & Hl8).
  assert (sound_host h8) as Hsound8.
  { eapply sound_later; [exact (conj Hs8 (conj Hr8 Hl8))|]. rw /sound_host.
    eapply (sound_later _ h h6); [exact (conj Hs6 (conj Hr6 Hl6))|done]. }
  apply commit_step_success_ok in Hm as (plugin' & t2 & Hp' & Hcm & Hs9); [|done].
  assert (plugin' = plugin) as ->.
  { rw (sh_plugins _ _ _ Hs8) /= (sh_plugins _ _ _ Hs6) Hp in Hp'. by injection Hp'. }
  exists plugin, t0, t1, t2, output, step'. split_and!; [done|done| | | | |].
  - eapply committed_between; [|reflexivity|exact Hcm]. etrans; [exact Hr6|exact Hr8].
  - rw (sh_events _ _ _ Hs9) (sh_events _ _ _ Hs8) /= (sh_events _ _ _ Hs6) /=.
    by rw app_nil_r -!(assoc_L (++)).
  - by rw (sh_executed _ _ _ Hs9) (sh_executed _ _ _ Hs8) /= (sh_executed _ _ _ Hs6).
  - by rw (sh_hits _ _ _ Hs9) (sh_hits _ _ _ Hs8) /= (sh_hits _ _ _ Hs6).
  - etrans; [exact (shows_plugins _ _ _ Hs6)|]. etrans; [exact (shows_plugins _ _ _ Hs8)|].
    exact (shows_plugins _ _ _ Hs9).
Qed.

(** ** A step that failed *)
Lemma find_plugin_ok module plugin (h : HostT) :
  h_plugins h !! module = Some plugin → find_plugin module h = (Ok plugin, h).
Proof. intros Hp. by rw /find_plugin /get /mbind /M_bind /= Hp. Qed.
Lemma ignore_bind {A C} (m : M HostT FrameworkError A) (k : M HostT FrameworkError C) h :
  (ignore m;; k) h = match (m h).1 with Panic => (Panic, (m h).2) | _ => k (m h).2 end.
Proof. rw /ignore /mbind /M_bind. by destruct (m h) as [[a|e|] h']. Qed.
(** Whatever becomes of an [emit_presentation], at most its presentation is shown. *)
Lemma emit_result module p (h : HostT) : let h' := (emit_presentation module p h).2 in
  ∃ shown, (shown = [] ∨ shown = [p]) ∧ shows shown h h' ∧ runs_same h h'.
Proof.
  simpl. pose proof (keeps_emit_presentation runs_same module p h) as Hr.
  destruct (emit_presentation module p h) as [[u|e|] h'] eqn:He; simpl in *.
  - exists [p]. split_and!; [by right|by eapply emit_shows|done].
  - exists []. split_and!; [by left| |done].
    rw /emit_presentation in He. apply bind_err_inv in He as [He|(? & ? & _ & ?)]; [|done].
    pose proof (keeps_maybe_put_ui setup_same module (contract_ref (p_stage p)) p h) as Hs. rw He in Hs.
    by apply setup_shows.
  - exists []. split_and!; [by left| |done].
    pose proof (keeps_maybe_put_ui setup_same module (contract_ref (p_stage p)) p h) as Hs.
    rw /emit_presentation {1}/mbind /M_bind in He.
    destruct (maybe_put_ui _ _ _ h) as [[id|e|] h1]; simplify_eq/=. by apply setup_shows.
Qed.

(** The unit of [c] given back for another attempt: its claim is released, its
    unit is done if that attempt was the last and as it was otherwise, and the
    attempts it has used still count. *)
Definition given_back (wid : string) (c : ClaimedSlot) (slot slot' : RunSlot) : Prop :=
  rs_claimed slot' = delete wid (rs_claimed slot) ∧
  rs_done_units slot' = (if cs_attempt c >=? rs_max_attempts slot
                         then {[cs_unit_key c]} ∪ rs_done_units slot else rs_done_units slot) ∧
  rs_claim_attempts slot' = rs_claim_attempts slot ∧
  (run_state (rs_run slot') = run_state (rs_run slot) ∨ run_state (rs_run slot') = RsStalled).
Lemma failed_slot_given_back `{HashOrder} s rid wid msg c slot :
  given_back wid c slot (failed_slot s (mkFailWork rid wid msg false) c slot).
Proof.
  rw /given_back /failed_slot /stalled_if_idle /=. destruct (_ >=? _); destruct (_ && _); split_and!; try done; first [by left|by right].
Qed.

(** Giving the unit back commits nothing; unless the deadline of the host is over,
    a claim that is still held is given back, and no claim is left of the unit. *)
Lemma live_fail_work rid wid msg (h : HostT) :
  let h' := (call_kernel (api_fail_work (mkFailWork rid wid msg false)) h).2 in
  st_derivations (host_state h') = st_derivations (host_state h) ∧ shows [] h h' ∧
  (ctx_deadline_unix_ms (h_ctx h) ≤ 0 →
     (∀ slot, st_runs (host_state h') !! rid = Some slot →
        run_state (rs_run slot) = RsRunning → rs_claimed slot !! wid = None) ∧
     ∃ order now, ∀ slot c, st_runs (host_state h) !! rid = Some slot → run_state (rs_run slot) = RsRunning →
       rs_claimed (@reaped order slot now) !! wid = Some c →
       ∃ slot', st_runs (host_state h') = <[rid := slot']> (st_runs (host_state h)) ∧
         given_back wid c (@reaped order slot now) slot').
Proof.
  set req := mkFailWork rid wid msg false.
  assert (∃ k, (call_kernel (api_fail_work req) h).2 = host_with_kernel k h ∧
    k = (api_fail_work req (h_ctx h) (h_kernel h)).2) as (k & -> & ->).
  { rw /call_kernel. destruct (api_fail_work _ _ _) as [o k]. by exists k. }
  rw /host_state /= replied_state live_state /= replying_state.
  set e := lk_env _ _. set s := mk_state _. set now := env_now e.
  pose proof (@fail_work_cases _ (env_order e) s req now) as Hf.
  split_and!.
  - rw /before_deadline lift_bind. destruct (check_deadline _ _); [|done..].
    destruct (st_runs s !! fw_run_id req) as [slot|]; [|by destruct Hf as (_ & _ & ->)].
    case_bool_decide; [|by destruct Hf as (_ & _ & ->)].
    destruct (rs_claimed _ !! _); by destruct Hf as (_ & _ & ->).
  - by apply setup_shows.
  - intros Hd. rw /before_deadline lift_bind /check_deadline (proj2 (Z.leb_le _ _) Hd).
    change (fw_run_id req) with rid in Hf. split.
    + intros slot.
      destruct (st_runs s !! rid) as [slot0|] eqn:Hs; [|destruct Hf as (_ & -> & _); congruence].
      case_bool_decide as Hrun; [|destruct Hf as (_ & -> & _); rw Hs; by intros [= <-]].
      destruct (rs_claimed (reaped slot0 now) !! fw_work_id req) as [c|] eqn:Hc; destruct Hf as (_ & -> & _);
        rw lookup_insert_eq; intros [= <-] _; [|done].
      rw /failed_slot /stalled_if_idle. set b := fw_terminal req || _.
      by destruct b; destruct (_ && _); rw /= lookup_delete_eq.
    + exists (env_order e), now. intros slot c Hs Hrun Hc. rw Hs bool_decide_eq_true_2 // in Hf.
      change (fw_work_id req) with wid in Hf. rw Hc in Hf. destruct Hf as (_ & -> & _).
      eexists. split; [done|]. apply failed_slot_given_back.
Qed.
End quiet.
