(* ===== verification/HostWave.v ===== *)
(** * HostWave: all the units of a wave

    What a host did for a list of units, as one value per unit ([Finished]): the
    outputs that were committed, what was shown, and whether the plugin executed.
    [worked] says that a stretch of a host's life did exactly the units of a list; it
    composes, so that a unit, a wave of parallel units and a whole drive are
    instances of it. *)
From S2P Require Import Prelude Wire Errors Hash Traits Policy State Registry Store Events Assembly.
From S2P Require Import AssemblySpec Work Runs Units Steps Kernel Invariant Evolve RunTheorems FailTheorems.
From S2P Require Import FwErrors Presentation Storage Memo FwPolicy KernelApi KernelLaws Cut CutSpec Host.
From S2P Require Import HostSpec HostTermination MemoSpec HostPipeline HostUnit.
Local Open Scope Z_scope.

(** ** Calls that commit nothing *)
Section claims.
Context `{Platform, HashOrder}.
Implicit Types (s : State) (v : list Derivation).
Lemma run_slot_derivations id slot s : st_derivations (put_run_slot id slot s) = st_derivations s.
Proof. done. Qed.
Lemma leaves_events {A} (f : A → Method unit) l v :
  (∀ x, leaves st_derivations v (f x)) → leaves st_derivations v (for_each_M f l).
Proof. intros Hf. induction l as [|x l IH]; [apply leaves_ret|]. by apply leaves_bind. Qed.
Lemma leaves_append kind subject detail v :
  leaves (E:=KernelError) st_derivations v (append_locked kind subject detail;; mret tt).
Proof. apply leaves_bind; [by intros s|intros _; apply leaves_ret]. Qed.
Lemma leaves_running_slot id v : leaves st_derivations v (running_slot id).
Proof.
  apply leaves_get. intros s Hs. apply leaves_bind; [apply leaves_lift|intros slot].
  apply leaves_bind; [apply leaves_lift|intros _; apply leaves_ret].
Qed.
Lemma leaves_reap id now v : leaves st_derivations v (reap_expired_locked id now).
Proof.
  apply leaves_get. intros s Hs. destruct (st_runs s !! id) as [slot|]; [|apply leaves_ret].
  apply leaves_bind; [by apply leaves_put|intros _]. apply leaves_events. intros [[kind subject] detail].
  apply leaves_append.
Qed.
Lemma leaves_close_stalled id v : leaves st_derivations v (close_stalled id).
Proof.
  apply leaves_get. intros s Hs. apply leaves_bind; [apply leaves_lift|intros slot].
  apply leaves_bind; [by apply leaves_put|intros _].
  apply leaves_bind; [by intros s'|intros _; apply leaves_ret].
Qed.
Lemma claim_ready_leaves req now v : leaves st_derivations v (claim_ready req now).
Proof.
  apply leaves_bind; [apply leaves_running_slot|intros _]. apply leaves_bind; [apply leaves_reap|intros _].
  apply leaves_get. intros s Hs. apply leaves_bind; [apply leaves_lift|intros slot].
  apply leaves_bind; [apply leaves_lift|intros assembly]. apply leaves_bind.
  - destruct (_ >? 0); [|apply leaves_ret]. cbv zeta. destruct (foldl _ (slot, []) _) as [slot' claimed].
    apply leaves_bind; [by apply leaves_put|intros _]. apply leaves_bind; [|intros _; apply leaves_ret].
    apply leaves_events. intros work. apply leaves_append.
  - intros items. apply leaves_get. intros s' Hs'. apply leaves_bind; [apply leaves_lift|intros slot'].
    apply leaves_bind; [|intros _; apply leaves_ret]. destruct (_ && _); [|apply leaves_ret].
    apply leaves_bind; [apply leaves_close_stalled|intros _; apply leaves_ret].
Qed.
Lemma get_run_leaves r v : leaves st_derivations v (get_run r).
Proof. apply leaves_get. intros s Hs. apply leaves_bind; [apply leaves_lift|intros; apply leaves_ret]. Qed.
Lemma before_deadline_leaves {A} ctx t0 (m : Method A) v :
  leaves st_derivations v m → leaves st_derivations v (before_deadline ctx t0 m).
Proof. intros Hm. apply leaves_bind; [apply leaves_lift|by intros _]. Qed.
End claims.

Section wave.
Context `{Platform, HashOrder, JsonValue, PresentationJson}.
Context {B : Type} `{!StorageBackend B}.
Abbreviation HostT := (@Host _ LiveKernel B MemoryMemo).

(** ** What was done for a unit *)
Record Finished := mkFinished {
  fi_work : WorkItem; fi_outputs : list NamedArtifact; fi_shown : list Presentation; fi_executed : bool }.

(** The step of a unit: its inputs are artifacts of the store. *)
Record loaded (h : HostT) (rid : string) (work : WorkItem) (step : StepContext) : Prop := mkLoaded {
  ld_run : sc_run_id step = rid;
  ld_work : sc_work step = work;
  ld_progress : sc_progress_buf step = [];
  ld_inputs : map_Forall (λ n art, ∃ r, mkNamed n (Some r) ∈ wi_inputs work ∧
    st_artifacts (host_state h) !! ar_id r = Some art) (sc_inputs step);
}.
(** The two ways a unit is finished, by a host that was [h] when it began with
    the unit: from a record of the memo store, or by the plugin of its module. *)
Inductive finished_at (h : HostT) (rid : string) : Finished → Prop :=
  | finished_hit work store key r digest plugin t :
      h_memo h = Some store → store !! key = Some r →
      h_plugins h !! wi_module work = Some plugin → pl_module_digest plugin t = Some digest →
      key = memo_key (wi_module work) (wi_module_version work) digest (wi_capability work)
              (input_fingerprint_map work) →
      finished_at h rid (mkFinished work (record_to_named_outputs r)
        [cached_presentation rid work key (record_to_named_outputs r) (mr_source_run_id r)] false)
  | finished_run work plugin step t0 t1 t2 output step' :
      h_plugins h !! wi_module work = Some plugin → loaded h rid work step →
      pl_execute plugin t1 step = (Ok output, step') →
      let outputs := committed_outputs (wi_module work) output in
      finished_at h rid (mkFinished work outputs
        (option_list (init_presentation rid work <$> pl_on_init plugin t0 step) ++
         sc_progress_buf step' ++
         option_list (final_presentation rid work outputs <$>
           pl_on_final plugin t2 (step_with_progress [] step') (mkStepResult true outputs None))) true).

(** The derivation that was committed for a unit. *)
Definition derived (rid : string) (f : Finished) (d : Derivation) : Prop :=
  d_run_id d = rid ∧ d_work_id d = wi_id (fi_work f) ∧ d_outputs d = fi_outputs f ∧
  (wi_node_id (fi_work f) = "" ∨ d_node_id d = wi_node_id (fi_work f)).
Definition count_executed (c : Z) (f : Finished) : Z := if fi_executed f then u64_sat_add c 1 else c.
Definition count_hit (c : Z) (f : Finished) : Z := if fi_executed f then c else u64_sat_add c 1.

(** [h'] is [h] after the units [l], in this order: one derivation and one
    counter step each, and what was shown of one is not mixed with another. *)
Record worked (rid : string) (l : list Finished) (h h' : HostT) : Prop := mkWorked {
  wk_later : kernel_later h h';
  wk_trust : keeps_trust h h';
  wk_plugins : h_plugins h' = h_plugins h;
  wk_ctx : h_ctx h' = h_ctx h;
  wk_events : se_presentation <$> h_step_events h' =
    (se_presentation <$> h_step_events h) ++ mjoin (fi_shown <$> l);
  wk_executed : h_execute_count h' = foldl count_executed (h_execute_count h) l;
  wk_hits : h_memo_hit_count h' = foldl count_hit (h_memo_hit_count h) l;
  wk_derivations : ∃ ds, st_derivations (host_state h') = st_derivations (host_state h) ++ ds ∧
    Forall2 (derived rid) l ds;
}.
Lemma worked_trans rid l1 l2 h1 h2 h3 :
  worked rid l1 h1 h2 → worked rid l2 h2 h3 → worked rid (l1 ++ l2) h1 h3.
Proof.
  intros [L1 T1 P1 C1 E1 X1 N1 (ds1 & D1 & F1)] [L2 T2 P2 C2 E2 X2 N2 (ds2 & D2 & F2)]. split.
  - by etrans.
  - intros Ht. by apply T2, T1.
  - congruence.
  - congruence.
  - by rw E2 E1 fmap_app join_app (assoc_L (++)).
  - by rw X2 X1 foldl_app.
  - by rw N2 N1 foldl_app.
  - exists (ds1 ++ ds2). split; [by rw D2 D1 (assoc_L (++))|]. by apply Forall2_app.
Qed.
Lemma worked_sound rid l h h' : worked rid l h h' → sound_host h → sound_host h'.
Proof.
  intros Hw [Hr Hkey]. destruct (wk_later _ _ _ _ Hw) as [Hl1 Hl2]. split; [|by rw (wk_ctx _ _ _ _ Hw)].
  rw Hl1. by eapply later_reachable.
Qed.
(** What shows nothing and commits nothing does no unit. *)
Lemma worked_nothing rid (h h' : HostT) : shows [] h h' → kernel_later h h' → keeps_trust h h' →
  st_derivations (host_state h') = st_derivations (host_state h) → worked rid [] h h'.
Proof.
  intros [He Hx Hh Hp Hc] Hl Ht Hd. split; try done.
  exists []. split; [by rw app_nil_r|constructor].
Qed.
Lemma worked_refl rid (h : HostT) : worked rid [] h h.
Proof. apply worked_nothing; [by apply setup_shows| |by intros ?|]; done. Qed.
Lemma worked_calm {A} (m : M HostT FrameworkError A) rid h a h' :
  keeps setup_same m → keeps runs_same m → keeps kernel_later m → keeps keeps_trust m →
  m h = (Ok a, h') → worked rid [] h h'.
Proof.
  intros Hs Hr Hl Ht Hm. specialize (Ht h). rw Hm in Ht.
  destruct (calm_op _ _ _ _ Hs Hr Hl Hm) as (Hsh & [Hr' _] & Hl').
  apply worked_nothing; try done. by injection Hr' as _ ->.
Qed.
Lemma worked_one rid f (h h' : HostT) : kernel_later h h' → keeps_trust h h' →
  h_plugins h' = h_plugins h → h_ctx h' = h_ctx h →
  se_presentation <$> h_step_events h' = (se_presentation <$> h_step_events h) ++ fi_shown f →
  h_execute_count h' = count_executed (h_execute_count h) f →
  h_memo_hit_count h' = count_hit (h_memo_hit_count h) f →
  committed rid (fi_work f) (fi_outputs f) h h' → worked rid [f] h h'.
Proof.
  intros Hl Ht Hp Hc He Hx Hn (d & Hd & Hrest). split; try done.
  - by rw /= app_nil_r.
  - exists [d]. split; [done|]. by constructor.
Qed.

(** ** One unit after the other *)
Lemma commit_memo_hit_worked rid work step key r b (h h0 h' : HostT) : sound_host h →
  commit_memo_hit rid (wi_module work) work step key (record_to_named_outputs r) (mr_source_run_id r) h = (Ok b, h') →
  worked rid [mkFinished work (record_to_named_outputs r)
    [cached_presentation rid work key (record_to_named_outputs r) (mr_source_run_id r)] false] h h'.
Proof.
  intros Hs Hm. pose proof (keeps_commit_memo_hit kernel_later rid (wi_module work) work step key
    (record_to_named_outputs r) (mr_source_run_id r) h) as Hl.
  pose proof (keeps_commit_memo_hit keeps_trust rid (wi_module work) work step key
    (record_to_named_outputs r) (mr_source_run_id r) h) as Ht. rw Hm in Hl, Ht.
  apply commit_memo_hit_ok in Hm as (Hc & He & Hx & Hn & Hp & Hctx); [|done].
  by apply worked_one.
Qed.
Lemma load_step_loaded rid work (h : HostT) step h' :
  load_step rid work h = (Ok step, h') → loaded h rid work step ∧ h_memo h' = h_memo h.
Proof.
  intros Hl. pose proof (load_step_memo _ _ _ _ _ Hl) as Hm.
  apply load_step_ok in Hl as (? & ? & ? & ?). by split.
Qed.
Lemma finish_work_unit_ok rid work (h h' : HostT) : sound_host h →
  finish_work_unit rid work h = (Ok tt, h') →
  ∃ f, fi_work f = work ∧ finished_at h rid f ∧ worked rid [f] h h'.
Proof.
  intros Hsound Hfin. pose proof (keeps_finish_work_unit kernel_later rid work h) as Hlater.
  pose proof (keeps_finish_work_unit keeps_trust rid work h) as Htrust. rw Hfin in Hlater, Htrust.
  revert Hfin. rw /finish_work_unit. cbv zeta. intros (step & h1 & Hl & Hm)%bind_ok_inv.
  pose proof (load_step_loaded _ _ _ _ _ Hl) as [Hld Hmemo]. eapply (worked_calm _ rid) in Hl; [|keeps_auto..].
  apply bind_ok_inv in Hm as (hit & h2 & Hhit & Hm). pose proof Hhit as Hh2.
  eapply (worked_calm _ rid) in Hh2; [|keeps_auto..].
  pose proof (worked_trans _ _ _ _ _ _ Hl Hh2) as H12.
  assert (sound_host h2) as Hsound2 by (by eapply worked_sound).
  destruct hit as [[[key outputs] source]|].
  - apply bind_ok_inv in Hm as (b & h3 & Hc & [= <-]).
    apply try_memo_hit_inv in Hhit as (store & r & digest & plugin & t & _ & Hst & Hrec & Hp & Hdg & _ & _ & _ & _ & Hkey & -> & ->).
    eapply commit_memo_hit_worked in Hc; [|done..].
    eexists. split; [|split; [|exact (worked_trans _ _ _ _ _ _ H12 Hc)]]; [done|].
    rw Hmemo in Hst. rw (wk_plugins _ _ _ _ Hl) in Hp. by eapply finished_hit.
  - apply executed_ok in Hm as (plugin & t0 & t1 & t2 & output & step' & Hp & Hex & Hcm & He & Hx & Hh & Hpl & Hc); [|done].
    rw (wk_plugins _ _ _ _ H12) in Hp. pose proof (finished_run h rid work plugin step t0 t1 t2 output step' Hp Hld Hex) as Hf.
    eexists. split; [|split; [exact Hf|]]; [done|]. destruct H12 as [_ _ P1 C1 E1 X1 N1 (ds & D1 & F1)].
    apply Forall2_nil_inv_l in F1 as ->. rw !app_nil_r in E1, D1.
    apply worked_one; simpl; [done|done|congruence|congruence|by rw He E1|by rw Hx X1|by rw Hh N1|].
    destruct Hcm as (d & Hd & Hrest). exists d. by rw Hd D1.
Qed.

(** ** Many units *)
(** [h0] is a later moment of [h]; a unit was begun and finished after [h]. *)
Definition reached (h h0 : HostT) : Prop :=
  kernel_later h h0 ∧ keeps_trust h h0 ∧ h_plugins h0 = h_plugins h.
#[export] Instance reached_preorder : PreOrder reached.
Proof.
  split; [by intros h|]. intros h1 h2 h3 (L1 & T1 & P1) (L2 & T2 & P2). split_and!; [by etrans| |congruence].
  intros Ht. by apply T2, T1.
Qed.
Lemma worked_reached rid l h h' : worked rid l h h' → reached h h'.
Proof. by intros []. Qed.
Definition finished_after (h : HostT) (rid : string) (f : Finished) : Prop :=
  ∃ h0, reached h h0 ∧ finished_at h0 rid f.
Lemma finished_now h rid f : finished_at h rid f → finished_after h rid f.
Proof. by exists h. Qed.
Lemma finished_weaken h1 h2 rid l :
  reached h1 h2 → Forall (finished_after h2 rid) l → Forall (finished_after h1 rid) l.
Proof.
  intros Hr Hl. eapply Forall_impl; [exact Hl|]. intros f (h0 & Hr0 & Hf). exists h0. split; [by etrans|done].
Qed.
Lemma finish_units_ok rid items (h h' : HostT) : sound_host h →
  for_each_M (finish_work_unit rid) items h = (Ok tt, h') →
  ∃ l, fi_work <$> l = items ∧ Forall (finished_after h rid) l ∧ worked rid l h h'.
Proof.
  revert h. induction items as [|work items IH]; intros h Hs; simpl.
  - intros [= <-]. exists []. split_and!; [done|constructor|]. apply worked_refl.
  - intros ([] & h1 & Hf & Hm)%bind_ok_inv. apply finish_work_unit_ok in Hf as (f & <- & Hf & Hw); [|done].
    apply IH in Hm as (l & <- & Hl & Hw'); [|by eapply worked_sound].
    exists (f :: l). split_and!; [done| |exact (worked_trans _ [f] l _ _ _ Hw Hw')].
    constructor; [by apply finished_now|]. eapply finished_weaken; [by eapply worked_reached|done].
Qed.

(** *** Units that execute at once *)
Definition deferred_after (h : HostT) (rid : string) (d : Deferred) : Prop :=
  ∃ h0 t0, reached h h0 ∧ h_plugins h0 !! wi_module (df_work d) = Some (df_plugin d) ∧
    loaded h0 rid (df_work d) (df_step d) ∧ df_init d = pl_on_init (df_plugin d) t0 (df_step d).
Lemma deferred_weaken h1 h2 rid l :
  reached h1 h2 → Forall (deferred_after h2 rid) l → Forall (deferred_after h1 rid) l.
Proof.
  intros Hr Hl. eapply Forall_impl; [exact Hl|]. intros d (h0 & t0 & Hr0 & Hrest). exists h0, t0. split; [by etrans|done].
Qed.
(** A unit is a hit and done with, or deferred and nothing was done for it. *)
Lemma defer_unit_ok rid work (h : HostT) o h' : sound_host h → defer_unit rid work h = (Ok o, h') →
  match o with
  | None => ∃ f, fi_work f = work ∧ finished_after h rid f ∧ worked rid [f] h h'
  | Some d => df_work d = work ∧ deferred_after h rid d ∧ worked rid [] h h'
  end.
Proof.
  intros Hs. rw /defer_unit. cbv zeta. intros (hit & h1 & Hhit & Hm)%bind_ok_inv. pose proof Hhit as Hh1.
  eapply (worked_calm _ rid) in Hh1; [|keeps_auto..]. assert (sound_host h1) as Hs1 by (by eapply worked_sound).
  destruct hit as [[[key outputs] source]|].
  - apply bind_ok_inv in Hm as (step & h2 & Hl & Hm). eapply (worked_calm _ rid) in Hl; [|keeps_auto..].
    apply bind_ok_inv in Hm as (b & h3 & Hc & [= <- <-]).
    apply try_memo_hit_inv in Hhit as (store & r & digest & plugin & t & _ & Hst & Hrec & Hp & Hdg & _ & _ & _ & _ & Hkey & -> & ->).
    eapply commit_memo_hit_worked in Hc; [|done|by eapply worked_sound].
    eexists. split; [|split]; [| |exact (worked_trans _ [] _ _ _ _ Hh1 (worked_trans _ [] _ _ _ _ Hl Hc))]; [done|].
    apply finished_now. by eapply finished_hit.
  - apply bind_ok_inv in Hm as (plugin & h2 & Hpl & Hm).
    rw /find_plugin in Hpl. apply bind_ok_inv in Hpl as (? & ? & [= <- <-] & [= Hp <-]). apply ok_or_ok in Hp.
    apply bind_ok_inv in Hm as (step & h3 & Hl & Hm). pose proof (load_step_loaded _ _ _ _ _ Hl) as [Hld _].
    eapply (worked_calm _ rid) in Hl; [|keeps_auto..]. apply bind_ok_inv in Hm as (t0 & h4 & Ht & [= <- <-]).
    eapply (worked_calm _ rid) in Ht; [|keeps_auto..]. split_and!; [done| |].
    + exists h1, t0. split_and!; try done. by eapply worked_reached.
    + exact (worked_trans _ [] [] _ _ _ Hh1 (worked_trans _ [] [] _ _ _ Hl Ht)).
Qed.
Lemma defer_units_ok rid items (h : HostT) ds h' : sound_host h → defer_units rid items h = (Ok ds, h') →
  ∃ l, (fi_work <$> l) ++ (df_work <$> ds) ≡ₚ items ∧ Forall (finished_after h rid) l ∧
    Forall (deferred_after h rid) ds ∧ worked rid l h h'.
Proof.
  revert h ds. induction items as [|work items IH]; intros h ds Hs; simpl.
  - intros [= <- <-]. exists []. split_and!; [done|constructor..|]. apply worked_refl.
  - intros (o & h1 & Hd & Hm)%bind_ok_inv. apply bind_ok_inv in Hm as (rest & h2 & Hm & [= <- <-]).
    apply defer_unit_ok in Hd; [|done]. destruct o as [d|].
    + destruct Hd as (<- & Hd & Hw). apply IH in Hm as (l & Hperm & Hl & Hds & Hw'); [|by eapply worked_sound].
      pose proof (worked_reached _ _ _ _ Hw) as Hr. exists l. split_and!.
      * rw /= -Permutation_middle. by rw Hperm.
      * by eapply finished_weaken.
      * constructor; [done|]. by eapply deferred_weaken.
      * exact (worked_trans _ [] l _ _ _ Hw Hw').
    + destruct Hd as (f & <- & Hf & Hw). apply IH in Hm as (l & Hperm & Hl & Hds & Hw'); [|by eapply worked_sound].
      pose proof (worked_reached _ _ _ _ Hw) as Hr. exists (f :: l). split_and!.
      * rw /=. by rw Hperm.
      * constructor; [done|]. by eapply finished_weaken.
      * by eapply deferred_weaken.
      * exact (worked_trans _ [f] l _ _ _ Hw Hw').
Qed.

(** What a thread made of a deferred unit. *)
Definition executed_of (d : Deferred) (x : Executed) : Prop :=
  ex_work x = df_work d ∧ ex_init x = df_init d ∧ ∃ t step',
    pl_execute (df_plugin d) t (df_step d) = (ex_result x, step') ∧
    ex_progress x = sc_progress_buf step' ∧ ex_step x = step_with_progress [] step'.
Lemma execute_deferred_ok rid ds (h : HostT) xs h' : execute_deferred ds h = (Ok xs, h') →
  Forall2 executed_of ds xs ∧ worked rid [] h h'.
Proof.
  revert h xs. induction ds as [|d ds IH]; intros h xs; simpl.
  - intros [= <- <-]. split; [constructor|apply worked_refl].
  - intros (t & h1 & Ht & Hm)%bind_ok_inv. eapply (worked_calm _ rid) in Ht; [|keeps_auto..].
    destruct (pl_execute (df_plugin d) t (df_step d)) as [result step'] eqn:Hex.
    apply lift_ok_inv in Hm as ([] & _ & Hm). cbv beta iota delta [take_progress] in Hm.
    apply bind_ok_inv in Hm as (rest & h2 & Hm & [= <- <-]). apply IH in Hm as [Hall Hw].
    split; [|exact (worked_trans _ [] [] _ _ _ Ht Hw)]. constructor; [|done].
    split_and!; [done..|]. by exists t, step'.
Qed.
(** Settling a unit that executed: it is counted, shown and committed. *)
Lemma settle_executed_ok hb rid d x (h h' : HostT) : sound_host h → reached hb h →
  deferred_after hb rid d → executed_of d x → settle_executed rid x h = (Ok tt, h') →
  ∃ f, fi_work f = df_work d ∧ finished_after hb rid f ∧ worked rid [f] h h'.
Proof.
  intros Hs Hb (h0 & t0 & Hr0 & Hp0 & Hld & Hinit) (Hwork & Hxi & t1 & step' & Hex & Hpr & Hst) Hm.
  pose proof (keeps_settle_executed kernel_later rid x h) as Hlater.
  pose proof (keeps_settle_executed keeps_trust rid x h) as Htrust. rw Hm in Hlater, Htrust.
  revert Hm. rw /settle_executed. cbv zeta. intros ([] & h1 & Hcount & Hm)%bind_ok_inv. injection Hcount as <-.
  apply bind_ok_inv in Hm as ([] & h2 & Hi & Hm). apply calm_emit_optional in Hi.
  apply bind_ok_inv in Hm as ([] & h3 & Hprog & Hm). apply calm_emit_all in Hprog.
  destruct (calmly_trans _ _ _ _ _ Hi Hprog) as (Hs3 & Hr3 & Hl3).
  destruct (ex_result x) as [output|e|] eqn:Hres; simpl in Hm; [|by apply fail_step_never_ok in Hm|done].
  apply commit_step_success_ok in Hm as (plugin & t2 & Hp & Hcm & Hs4);
    [|by eapply sound_later; [exact (conj Hs3 (conj Hr3 Hl3))|]].
  rw Hwork Hst in Hp, Hcm, Hs4. rw (sh_plugins _ _ _ Hs3) /= in Hp.
  assert (plugin = df_plugin d) as ->.
  { destruct Hr0 as (_ & _ & Hpl0), Hb as (_ & _ & Hplb). rw Hpl0 in Hp0. congruence. }
  pose proof (finished_run h0 rid _ _ _ t0 t1 t2 output step' Hp0 Hld Hex) as Hf.
  eexists. split; [|split; [exists h0; split; [exact Hr0|exact Hf]|]]; [done|].
  pose proof (shows_trans _ _ _ _ _ Hs3 Hs4) as [He Hx Hh Hpl Hc]. simpl in Hx, Hh, Hpl, Hc.
  apply worked_one; [done..| |done|done|].
  - rw He Hxi Hinit Hwork Hpr -!(assoc_L (++)). done.
  - by eapply committed_between; [exact Hr3|reflexivity|].
Qed.
Lemma settle_all_ok hb rid ds xs (h h' : HostT) : sound_host h → reached hb h →
  Forall (deferred_after hb rid) ds → Forall2 executed_of ds xs →
  for_each_M (settle_executed rid) xs h = (Ok tt, h') →
  ∃ l, fi_work <$> l = df_work <$> ds ∧ Forall (finished_after hb rid) l ∧ worked rid l h h'.
Proof.
  intros Hs Hb Hds Hall. revert h Hs Hb Hds. induction Hall as [|d x ds xs Hx Hall IH]; intros h Hs Hb Hds; simpl.
  - intros [= <-]. exists []. split_and!; [done|constructor|apply worked_refl].
  - apply Forall_cons in Hds as [Hd Hds]. intros ([] & h1 & Hf & Hm)%bind_ok_inv.
    eapply settle_executed_ok in Hf as (f & Hfw & Hf & Hw); [|done..].
    apply IH in Hm as (l & Hl & Hfl & Hw'); [|by eapply worked_sound| |done].
    2: { etrans; [exact Hb|by eapply worked_reached]. }
    exists (f :: l). split_and!; [by rw !fmap_cons Hfw Hl|by constructor|exact (worked_trans _ [f] l _ _ _ Hw Hw')].
Qed.
Lemma finish_parallel_ok rid items (h h' : HostT) : sound_host h →
  finish_work_units_parallel rid items h = (Ok tt, h') →
  ∃ l, fi_work <$> l ≡ₚ items ∧ Forall (finished_after h rid) l ∧ worked rid l h h'.
Proof.
  intros Hs (ds & h1 & Hd & Hm)%bind_ok_inv. apply defer_units_ok in Hd as (hits & Hperm & Hhits & Hds & Hw1); [|done].
  apply bind_ok_inv in Hm as (xs & h2 & Hx & Hm). eapply (execute_deferred_ok rid) in Hx as [Hall Hw2].
  pose proof (worked_trans _ _ _ _ _ _ Hw1 Hw2) as H12. rw app_nil_r in H12.
  eapply (settle_all_ok h) in Hm as (l & Hl & Hfl & Hw3); [| |by eapply worked_reached|done..].
  2: { by eapply worked_sound. }
  exists (hits ++ l). split_and!; [by rw fmap_app Hl|by apply Forall_app|exact (worked_trans _ _ _ _ _ _ H12 Hw3)].
Qed.

(** ** Waves and drives *)
(** A call that commits nothing does no unit, whatever else it changes. *)
Lemma worked_call {A} (f : Reply → option A) c rid (op : RequestContext → M LiveKernel KernelError A) (h : HostT) a h' :
  op (h_ctx h) = replied f (live_exec c) → call_ok c →
  (∀ order s t0 now, st_derivations (@exec _ order (host_law h) t0 now c s).2 = st_derivations s) →
  call_kernel op h = (Ok a, h') → worked rid [] h h'.
Proof.
  intros Hop Hok Hd Hc. apply call_kernel_ok in Hc as (k & Hc & ->). rw Hop in Hc.
  pose proof (live_call f c h Hok) as Hl. rw Hc /= in Hl.
  apply worked_nothing; [by apply setup_shows|done|by apply trust_frame|].
  assert (k = (replied f (live_exec c) (h_kernel h)).2) as -> by (by rw Hc).
  by rw /host_state /= replied_state live_state Hd.
Qed.
Lemma claim_worked rid req (h : HostT) resp h' :
  call_kernel (api_claim_ready req) h = (Ok resp, h') → worked rid [] h h'.
Proof.
  eapply (worked_call _ (CClaimReady req (h_ctx h))); [done|done|]. intros order s t0 now.
  rw /= replying_state. by apply before_deadline_leaves, eq_refl; apply claim_ready_leaves.
Qed.
Lemma get_run_worked rid (h : HostT) run h' : host_get_run rid h = (Ok run, h') →
  worked rid [] h h' ∧ rs_run <$> st_runs (host_state h') !! rid = Some run.
Proof.
  rw /host_get_run. intros Hc. split.
  - revert Hc. eapply (worked_call _ (CGetRun (mkRunRef rid) (h_ctx h))); [done|done|]. intros order s t0 now.
    rw /= replying_state. by apply before_deadline_leaves, eq_refl; apply get_run_leaves.
  - apply call_kernel_ok in Hc as (k & Hc & ->). apply live_ok in Hc as (rep & Hc & Hf).
    apply replying_ok in Hc as (run' & Hc & ->). injection Hf as ->. rw /before_deadline in Hc.
    apply lift_ok_inv in Hc as (_ & _ & Hc). apply bind_ok_inv in Hc as (? & ? & [= <- <-] & Hc).
    apply lift_ok_inv in Hc as (slot & Hs & [= <- Hk]). apply ok_or_ok in Hs. by rw /host_state /= -Hk Hs.
Qed.
(** A wave does what it claimed.  When a wave answers, on a kernel in a
    reachable state and a host whose context carries no request key, it made one claim, and
    says whether it was given any work; every unit it was given was finished, from
    the memo store or by its plugin, each exactly once and no others, whether they
    were run one after the other or on threads at once; and what was committed, shown
    and counted is that of these units in some order, never mixed. *)
Lemma wave_ok rid one_pass (h : HostT) progressed h' : sound_host h →
  drive_claim_wave rid one_pass h = (Ok progressed, h') →
  ∃ resp h1 l, call_kernel (api_claim_ready (wave_request rid one_pass h).1) h = (Ok resp, h1) ∧
    progressed = negb (list_is_empty (cresp_items resp)) ∧ fi_work <$> l ≡ₚ cresp_items resp ∧
    Forall (finished_after h1 rid) l ∧ worked rid l h h'.
Proof.
  intros Hs. rw /drive_claim_wave. intros (h0 & h00 & [= <- <-] & Hm)%bind_ok_inv.
  destruct (wave_request rid one_pass h) as [claim conc] eqn:Hreq.
  apply bind_ok_inv in Hm as (resp & h1 & Hc & Hm). cbv zeta in Hm. exists resp, h1.
  pose proof (claim_worked rid _ _ _ _ Hc) as Hw. assert (sound_host h1) as Hs1 by (by eapply worked_sound).
  destruct (list_is_empty (cresp_items resp)) eqn:Hempty.
  - injection Hm as <- <-. exists []. split_and!; [done|done| |constructor|done].
    by destruct (cresp_items resp).
  - apply bind_ok_inv in Hm as ([] & h2 & Hm & [= <- <-]).
    destruct (_ || _).
    + apply finish_units_ok in Hm as (l & Hl & Hf & Hw'); [|done]. exists l.
      split_and!; [done|done|by rw Hl|done|exact (worked_trans _ [] l _ _ _ Hw Hw')].
    + apply finish_parallel_ok in Hm as (l & Hl & Hf & Hw'); [|done]. exists l.
      split_and!; [done|done|done|done|exact (worked_trans _ [] l _ _ _ Hw Hw')].
Qed.

(** What a stretch of work is for the one run and for the others. *)
Lemma worked_runs rid l h h' : worked rid l h h' →
  (∃ ds, run_derivations (host_state h') rid = run_derivations (host_state h) rid ++ ds ∧ Forall2 (derived rid) l ds) ∧
  (∀ other, other ≠ rid → run_derivations (host_state h') other = run_derivations (host_state h) other).
Proof.
  intros [_ _ _ _ _ _ _ (ds & Hds & Hall)].
  assert (Forall (λ d, d_run_id d = rid) ds) as Hrid.
  { clear Hds. induction Hall as [|f d l ds Hd]; constructor; [apply Hd|done]. }
  rw Forall_forall in Hrid. split.
  - exists ds. split; [|done]. rw /run_derivations Hds filter_app. f_equal.
    by apply filter_true, Forall_forall.
  - intros other Hne. rw /run_derivations Hds filter_app (filter_false _ ds) ?app_nil_r //.
    apply Forall_forall. intros d Hd Heq. apply Hne. by rw -Heq (Hrid d Hd).
Qed.

(** Dropping the tables of a run that is over. *)
Lemma finish_run_storage_ok rid (h : HostT) u h' : finish_run_storage rid h = (Ok u, h') →
  worked rid [] h h' ∧ host_state h' = host_state h.
Proof.
  rw /finish_run_storage. intros (h0 & h00 & [= <- <-] & Hm)%bind_ok_inv. cbv zeta in Hm.
  apply bind_ok_inv in Hm as ([] & h1 & [= <-] & Hm). apply bind_ok_inv in Hm as ([] & h2 & Hd & [= _ <-]).
  set h1 := host_with_tables _ h in Hd.
  assert (worked rid [] h1 h2 ∧ h_kernel h2 = h_kernel h1) as [[L T P C E X N D] Hk].
  { destruct (_ && _); [|injection Hd as <-; split; [apply worked_refl|done]]. split.
    - eapply (worked_calm _ rid) in Hd; [exact Hd|rw /drop_run_tables; keeps_auto..].
    - revert Hd. rw /drop_run_tables. generalize h1, (default [] (h_run_tables h !! rid)). clear. intros h tables.
      revert h. induction tables as [|x tables IH]; intros h; simpl; [by intros [= <-]|].
      rw ignore_bind /call_backend. destruct (h_storage h) as [b|]; simpl; [|apply IH].
      destruct (sb_drop_table x b) as [[v|e|] b']; simpl; [by intros ->%IH|by intros ->%IH|done]. }
  split; [|by rw /host_state /= Hk]. by split.
Qed.
Lemma finish_if_closed_ok rid run (h : HostT) r h' : finish_if_closed rid (Ok run, h) = (Ok r, h') →
  r = run ∧ worked rid [] h h' ∧ host_state h' = host_state h.
Proof.
  simpl. destruct (negb _).
  - intros (u & h1 & Hf & [= <- <-])%bind_ok_inv. by apply finish_run_storage_ok in Hf.
  - intros [= <- <-]. split_and!; [done|apply worked_refl|done].
Qed.

(** What a drive that answers has done. *)
Definition drove (rid : string) (l : list Finished) (run : Run) (h h' : HostT) : Prop :=
  Forall (finished_after h rid) l ∧ worked rid l h h' ∧ rs_run <$> st_runs (host_state h') !! rid = Some run.
Lemma drove_before rid l1 l2 run h1 h2 h3 : Forall (finished_after h1 rid) l1 → worked rid l1 h1 h2 →
  drove rid l2 run h2 h3 → drove rid (l1 ++ l2) run h1 h3.
Proof.
  intros Hf Hw (Hf2 & Hw2 & Hrun). split_and!; [|by eapply worked_trans|done].
  apply Forall_app. split; [done|]. eapply finished_weaken; [by eapply worked_reached|done].
Qed.
Lemma drove_get_run rid (h : HostT) run h' : host_get_run rid h = (Ok run, h') → drove rid [] run h h'.
Proof. intros [Hw Hr]%get_run_worked. by split_and!. Qed.
Lemma wave_drove rid one_pass (h : HostT) progressed h1 : sound_host h →
  drive_claim_wave rid one_pass h = (Ok progressed, h1) →
  ∃ l, Forall (finished_after h rid) l ∧ worked rid l h h1.
Proof.
  intros Hs Hm. destruct (wave_ok _ _ _ _ _ Hs Hm) as (resp & h0 & l & Hc & _ & _ & Hf & Hw).
  exists l. split; [|done]. apply claim_worked with (rid := rid) in Hc.
  exact (finished_weaken _ _ _ _ (worked_reached _ _ _ _ Hc) Hf).
Qed.
Lemma drive_until_idle_ok fuel rid (h : HostT) run h' : sound_host h →
  drive_until_idle fuel rid h = Some (Ok run, h') → ∃ l, drove rid l run h h'.
Proof.
  revert h. induction fuel as [|fuel IH]; intros h Hs; [done|]. simpl.
  destruct (host_get_run rid h) as [[run1|e|] h1] eqn:Hg; [|done..].
  pose proof (drove_get_run _ _ _ _ Hg) as Hd1. destruct (negb _); [intros [= <- <-]; by exists []|].
  destruct Hd1 as (Hf1 & Hw1 & _). assert (sound_host h1) as Hs1 by (by eapply worked_sound).
  destruct (drive_claim_wave rid false h1) as [[progressed|e|] h2] eqn:Hwv; [|done..].
  destruct (wave_drove _ _ _ _ _ Hs1 Hwv) as (l & Hf2 & Hw2). assert (sound_host h2) as Hs2 by (by eapply worked_sound).
  assert (∀ l', drove rid l' run h2 h' → ∃ l, drove rid l run h h') as Hgoal.
  { intros l' Hd. exists ([] ++ l ++ l'). eapply drove_before; [done..|]. by eapply drove_before. }
  destruct progressed; simpl.
  - intros Hd%IH; [|done]. destruct Hd as [l' Hd]. by eapply Hgoal.
  - intros [= Hg2]. eapply Hgoal. by apply drove_get_run.
Qed.
Lemma drive_one_pass_ok rid (h : HostT) run h' : sound_host h →
  drive_one_pass rid h = (Ok run, h') → ∃ l, drove rid l run h h'.
Proof.
  intros Hs (run1 & h1 & Hg & Hm)%bind_ok_inv. pose proof (drove_get_run _ _ _ _ Hg) as Hd1.
  destruct (negb _); [injection Hm as <- <-; by exists []|].
  destruct Hd1 as (Hf1 & Hw1 & _). assert (sound_host h1) as Hs1 by (by eapply worked_sound).
  apply bind_ok_inv in Hm as (progressed & h2 & Hwv & Hg2).
  destruct (wave_drove _ _ _ _ _ Hs1 Hwv) as (l & Hf2 & Hw2).
  exists ([] ++ l ++ []). eapply drove_before; [done..|]. eapply drove_before; [done..|]. by apply drove_get_run.
Qed.
Lemma drive_ok fuel rid (h : HostT) run h' : sound_host h →
  drive fuel rid h = Some (Ok run, h') → ∃ l, drove rid l run h h'.
Proof.
  intros Hs. rw /drive /drive_with. intros ([o h1] & Hd & Hfin)%fmap_Some.
  destruct o as [run1|e|]; [|done..]. symmetry in Hfin.
  apply finish_if_closed_ok in Hfin as (-> & Hw & Hst).
  assert (∃ l, drove rid l run1 h h1) as (l & Hf & Hw1 & Hrun).
  { destruct (default _ _); [by eapply drive_until_idle_ok| |by eapply drive_until_idle_ok].
    injection Hd as Hd. by apply drive_one_pass_ok. }
  exists l. split_and!; [done| |by rw Hst]. pose proof (worked_trans _ _ _ _ _ _ Hw1 Hw) as Hw'.
  by rw app_nil_r in Hw'.
Qed.
End wave.
