(* ===== verification/HostResume.v ===== *)
(** * HostResume: starting and resuming pipelines

    What a successful [start_pipeline] has done on [MemoryKernel], and what a
    successful [resume_after] took from the earlier run. *)
From S2P Require Import Prelude Wire Errors Hash Traits Policy State Registry Store Events Assembly.
From S2P Require Import AssemblySpec Work Runs Units Steps Kernel Invariant Evolve RunTheorems Typing.
From S2P Require Import FwErrors Presentation Storage Memo FwPolicy KernelApi KernelLaws Cut CutSpec.
From S2P Require Import CutValid Host HostSpec HostPipeline HostUnit.
Local Open Scope Z_scope.

Section live.
Context `{Platform, HashOrder, JsonValue, PresentationJson}.
Context {B MS : Type} `{!StorageBackend B, MemoStore MS}.
Abbreviation HostT := (@Host _ LiveKernel B MS).

(** ** Starting *)
Lemma start_pipeline_ok (h h' : HostT) rid a inputs policy run :
  ctx_request_key (h_ctx h) = "" →
  start_pipeline rid a inputs policy h = (Ok run, h') →
  ∃ cut s, materialize_cut a (fp_nodes policy) = Ok cut ∧ validate_seeds_present cut inputs = Ok tt ∧
    let req := apply_to_run_request (mkRunRequest rid (Some (cut_assembly cut)) inputs None [] None)
                 (with_nodes NpAll policy) in
    let slot := started_slot req (cut_assembly cut) in
    later (host_law h) (host_state h) s ∧
    validate_assembly s (cut_assembly cut) inputs = Ok tt ∧ st_runs s !! rid = None ∧
    runs_of s = runs_of (host_state h) ∧ run = rs_run slot ∧ st_runs (host_state h') = <[rid := slot]> (st_runs s) ∧
    se_presentation <$> h_step_events h' =
      (se_presentation <$> h_step_events h) ++ (skipped_presentation rid cut <$> cut_skipped cut) ∧
    h_run_policies h' = <[rid := policy]> (h_run_policies h) ∧ h_run_policies h !! rid = None.
Proof.
  intros Hkey. rw /start_pipeline. intros Hm.
  apply lift_ok_inv in Hm as ([] & _ & Hm). apply lift_ok_inv in Hm as ([] & Hrid & Hm).
  apply bind_ok_inv in Hm as (h0 & h1 & [= <- <-] & Hm). apply lift_ok_inv in Hm as ([] & Hnew & Hm).
  apply lift_ok_inv in Hm as ([] & _ & Hm). apply lift_ok_inv in Hm as ([] & _ & Hm).
  apply lift_ok_inv in Hm as (cut & Hcut & Hm). apply lift_ok_inv in Hm as ([] & Hseeds & Hm).
  apply bind_ok_inv in Hm as ([] & h1 & Hskip & Hm).
  destruct (keeps_emit_skip_events kernel_later rid cut h) as [_ Hlater]. rw Hskip /= in Hlater.
  destruct (keeps_emit_skip_events runs_same rid cut h) as [Hsame _]. rw Hskip /= in Hsame.
  apply emit_skip_events_ok in Hskip as (Hs1 & _ & He1).
  cbv zeta in Hm. apply bind_ok_inv in Hm as (r & h2 & Hstart & Hm).
  apply call_kernel_ok in Hstart as (k & Hstart & ->).
  apply bind_ok_inv in Hm as ([] & h3 & Hens & Hm).
  apply ensure_run_storage_ok in Hens as (Hs3 & Hk3 & He3).
  apply bind_ok_inv in Hm as ([] & h4 & [= <-] & [= -> <-]).
  destruct Hs1 as (_ & Hctx & Hpol1 & _), Hs3 as (_ & _ & Hpol3 & _). simpl in Hpol3, Hk3, He3.
  rw Hctx in Hstart. apply live_start_run_ok in Hstart as (a' & (_ & Hfree & (a0 & Ha0 & Hinc) & Hok) & Hrun & Hruns); [|done].
  simpl in Ha0. injection Ha0 as <-. destruct Hinc as [[_ ->]|[Hn _]]; [|done].
  exists cut, (host_state h1). split_and!; try done.
  - by apply validate_assembly_spec.
  - by rw /host_state /= Hk3.
  - by rw /= He3.
  - by rw /= Hpol3 Hpol1.
  - apply err_if_ok in Hnew. rw /has_key in Hnew. by destruct (h_run_policies h !! rid).
Qed.

(** ** Reading an earlier run *)
Lemma host_get_run_ok rid (h : HostT) run h' : host_get_run rid h = (Ok run, h') →
  host_state h' = host_state h ∧ rs_run <$> st_runs (host_state h) !! rid = Some run ∧
  (∃ k, h' = host_with_kernel k h) ∧ host_law h' = host_law h.
Proof.
  rw /host_get_run. intros Hc. pose proof (live_call (λ r, match r with RRun a => Some a | _ => None end)
    (CGetRun (mkRunRef rid) (h_ctx h)) h I) as [Hlaw _].
  apply call_kernel_ok in Hc as (k & Hc & ->). rw /= in Hc. rw Hc in Hlaw. apply live_ok in Hc as (rep & Hc & Hf).
  apply replying_ok in Hc as (run' & Hc & ->). injection Hf as ->. rw /before_deadline in Hc.
  apply lift_ok_inv in Hc as (_ & _ & Hc). apply bind_ok_inv in Hc as (? & ? & [= <- <-] & Hc).
  apply lift_ok_inv in Hc as (slot & Hs & [= <- Hk]). apply ok_or_ok in Hs. simpl in Hs.
  split_and!; [done| |by exists k|done]. by rw /host_state Hs.
Qed.
Lemma resume_seeds_ok rid nodes (h : HostT) seeds h' : resume_seeds rid nodes h = (Ok seeds, h') →
  host_state h' = host_state h ∧ (∃ k, h' = host_with_kernel k h) ∧ host_law h' = host_law h ∧
  seeds_of_derivations rid (run_derivations (host_state h) rid) nodes = Ok seeds.
Proof.
  rw /resume_seeds /seeds_from_run. pose proof (live_call (λ r, match r with RDerivations a => Some a | _ => None end)
    (CListDerivations (mkRunRef rid) (h_ctx h)) h I) as [Hlaw _]. simpl in Hlaw |- *.
  destruct (replied _ _ _) as [[l|e|] k] eqn:Hc; [|done..]. intros [= Hs <-].
  apply live_ok in Hc as (rep & Hc & Hf). apply replying_ok in Hc as (l' & Hc & ->). injection Hf as ->.
  rw /before_deadline in Hc. apply lift_ok_inv in Hc as (_ & _ & Hc).
  apply bind_ok_inv in Hc as (? & ? & [= <- <-] & Hc). apply lift_ok_inv in Hc as (? & _ & [= <- Hk]).
  split_and!; [done|by exists k|done|done].
Qed.

(** ** Resuming *)
(** What the inputs of the resumed run hold of the earlier one: a required seed is
    an output of the last derivation of the node it stands for. *)
Definition seed_answered (s : State) (prior : string) (inputs : list NamedArtifact) (seed : SeedSpec) : Prop :=
  ∃ d o r, last (of_node (ss_from_node seed) (run_derivations s prior)) = Some d ∧ o ∈ d_outputs d ∧
    na_name o = ss_from_port seed ∧ na_artifact o = Some r ∧
    mkNamed (ss_input_name seed) (Some r) ∈ inputs.
Lemma seeds_answered store_policy s prior slot a plan cut nodes seeds base :
  reachable store_policy s → st_runs s !! prior = Some slot → run_assembly (rs_run slot) = Some a →
  Forall slash_free (node_ids a) → materialize_cut a plan = Ok cut → closed_assembly a →
  seeds_of_derivations prior (run_derivations s prior) nodes = Ok seeds →
  Forall (λ i, is_seed_input_name (na_name i) = false) base →
  validate_seeds_present cut (merge_inputs base seeds) = Ok tt →
  Forall (seed_answered s prior (merge_inputs base seeds)) (cut_required_seeds cut).
Proof.
  intros Hr Hs Ha Hslash Hcut Hclosed Hseeds Hbase Hpresent. rw !Forall_forall in Hslash Hbase |- *.
  apply (materialize_cut_spec a Hclosed) in Hcut as (_ & kept & _ & ->).
  intros seed Hseed. rw validate_seeds_spec in Hpresent. destruct (Hpresent seed Hseed) as (i & Hi & [r Hri]).
  apply insert_all_lookup in Hi as [[Hi Hname]|Hn]; [|by rw lookup_empty in Hn].
  apply elem_of_seeds_in_order in Hseed as (k & [?|(b & [(_ & Hbi & _) Hb]%list_elem_of_filter & _ & ->)]%first_seeds_sound);
    [done|].
  pose proof Hi as Hin. apply elem_of_merge in Hi as [Hi|[Hi _]].
  2: { specialize (Hbase i Hi). simpl in Hbase, Hname. by rw Hname seed_input_name_is_seed in Hbase. }
  destruct (seeds_of_derivations_sound _ _ _ _ Hseeds i Hi) as (n & _ & d & o & Hd & Ho & Hni & Hai & _).
  assert (n ∈ node_ids a) as Hn.
  { destruct (reachable_typed _ _ Hr) as [[Hruns _] Htyped]. pose proof (Hruns _ _ Hs) as Hinv.
    destruct (ri_history _ _ _ Hinv) as [_ Hlatest _ _]. rw -Hlatest in Hd.
    destruct (Htyped _ _ Hs a Ha) as [_ Hl]. destruct (Hl n d Hd) as (node & cap & Hnode & <- & _).
    apply list_elem_of_fmap. by exists node. }
  assert (b_from_node b ∈ node_ids a) as Hfrom.
  { pose proof (ca_bindings _ Hclosed) as Hall. rw Forall_forall in Hall. by apply Hall. }
  destruct (seed_input_name_inj n (na_name o) (b_from_node b) (b_from_port b)) as [-> Hport];
    [by apply Hslash|by apply Hslash|by rw -Hni Hname|].
  exists d, o, r. split_and!; [done|done|done|congruence|]. destruct i as [iname iart]; simpl in *. by subst.
Qed.
(** A resumed run: the cut of the earlier run's assembly, fed the inputs of that run
    that are not seeds and, for each required seed, the output it stands
    for; the earlier run stays as it is. *)
Lemma resume_after_ok (h h' : HostT) rid prior after policy run :
  reachable (host_law h) (host_state h) → ctx_request_key (h_ctx h) = "" →
  resume_after rid prior after policy h = (Ok run, h') →
  ∃ slot a cut seeds, st_runs (host_state h) !! prior = Some slot ∧ run_assembly (rs_run slot) = Some a ∧
    materialize_cut a (NpAfter after) = Ok cut ∧
    let base := filter (λ i, negb (is_seed_input_name (na_name i)) = true) (run_inputs (rs_run slot)) in
    run_assembly run = Some (cut_assembly cut) ∧ run_inputs run = merge_inputs base seeds ∧
    run_state run = RsRunning ∧ run_steps run = 0 ∧
    st_runs (host_state h') !! prior = Some slot ∧
    (Forall slash_free (node_ids a) → closed_assembly a →
     Forall (seed_answered (host_state h) prior (run_inputs run)) (cut_required_seeds cut)).
Proof.
  intros Hr Hkey. rw /resume_after. intros (pr & h1 & Hg & Hm)%bind_ok_inv.
  apply host_get_run_ok in Hg as (Hst1 & Hrun & (k1 & ->) & Hlaw1).
  apply fmap_Some in Hrun as (slot & Hs & ->).
  apply lift_ok_inv in Hm as (a & Ha & Hm). apply ok_or_ok in Ha. cbv zeta in Hm.
  apply lift_ok_inv in Hm as (cut & Hcut & Hm). apply bind_ok_inv in Hm as (seeds & h2 & Hseeds & Hm).
  apply resume_seeds_ok in Hseeds as (Hst2 & (k2 & ->) & Hlaw2 & Hseeds). rw Hst1 in Hst2, Hseeds.
  apply start_pipeline_ok in Hm as (cut' & s & Hcut' & Hpresent & _ & _ & Hfree & Hsame & -> & Hruns & _); [|done].
  change (fp_nodes (with_nodes (NpAfter after) policy)) with (NpAfter after) in Hcut, Hcut'.
  rw Hcut in Hcut'. injection Hcut' as <-. injection Hsame as Hsame _. rw Hst2 in Hsame.
  exists slot, a, cut, seeds. split_and!; try done.
  - rw Hruns lookup_insert_ne; [by rw Hsame|]. intros ->. rw Hsame in Hfree. congruence.
  - intros Hslash Hclosed. eapply seeds_answered; try done. apply Forall_forall.
    intros i [Hi _]%list_elem_of_filter. by apply negb_true_iff.
Qed.
End live.
