(* ===== verification/FwTheorems.v ===== *)
(** * FwTheorems: the properties of the framework

    Cuts, storage, memo and the host, stated of the operations of [Cut],
    [Storage], [Memo] and [Host], with [MemoryKernel] behind the host where
    the kernel matters. *)
From S2P Require Import Prelude Wire Errors Hash Traits Policy State Registry Store Events Assembly.
From S2P Require Import AssemblySpec Work Runs Units Steps Kernel Invariant Evolve RunTheorems.
From S2P Require Import FwErrors Presentation Storage Memo FwPolicy KernelApi KernelLaws Cut CutSpec.
From S2P Require Import CutValid Host HostSpec HostTermination MemoSpec StorageSpec HostPipeline HostUnit HostWave HostResume.
Local Open Scope Z_scope.

(** ** Cuts *)
(** C14: cutting.  For an assembly whose nodes are distinct and named and
    whose bindings are between them, a plan is accepted iff the nodes it names
    are there, once, and the terminal stays, and the cut keeps exactly the
    nodes the plan is documented to keep, the bindings into them with those
    from dropped nodes rewired to seeds, and one seed per dropped output.
    The two graph searches never run out of fuel, so no plan panics on any
    assembly. *)
Theorem materialize_cut_correct a :
  (closed_assembly a → ∀ plan cut, materialize_cut a plan = Ok cut ↔
     plan_ok a plan ∧ ∃ kept, (∀ x, x ∈ kept ↔ kept_by a plan x) ∧ cut = cut_with a kept) ∧
  (∀ plan, materialize_cut a plan ≠ Panic) ∧
  (∀ n, (∃ out, transitive_predecessors a n = Some out ∧ ∀ x, x ∈ out ↔ tc (dataflow a) x n) ∧
        (∃ out, reachable_from a n = Some out ∧ ∀ x, x ∈ out ↔ rtc (dataflow a) n x)).
Proof.
  split; [intros; by apply materialize_cut_spec|]. split.
  - intros plan. rw /materialize_cut. destruct (resolve_kept_spec a plan) as (_ & _ & Hp).
    destruct (resolve_kept_nodes a plan) as [kept| |]; [|done..]. simpl.
    destruct (_ || _); [done|].
    destruct (for_each _ _ _) as [[seeds bs]| |] eqn:Hf; [done|done|]. exfalso. revert Hf.
    apply for_each_no_panic. intros [seeds bs] b _. rw /cut_binding.
    by repeat (case_match || done).
  - intros n. split; [apply transitive_predecessors_spec|apply reachable_from_spec].
Qed.

(** ** Storage *)
Section storage.
Context `{JsonLaws}.

(** C25: writing rows, on every branch.  A table that was not created, or an
    upsert without a key, is refused and changes nothing; otherwise only the
    rows of the one table change.  Appending adds at the end; replacing keeps, of a
    shared table, exactly the rows that are not of this run, those that name no run
    included, in their order and before the rows written, and of any other table
    nothing but the rows written; an upsert looks up as a keyed update in which the last row
    written with a key wins, and keeps keys unique. *)
Theorem write_rows_spec (tables : MemoryStorage) name mode rows primary_key run_id :
  match tables !! name with
  | None => write_rows name mode rows primary_key run_id tables =
              (Err (FwInvalid ("storage table not ensured: " +:+ name)), tables)
  | Some t =>
      if match mode, primary_key with WmUpsert, [] => true | _, _ => false end
      then write_rows name mode rows primary_key run_id tables =
             (Err (FwInvalid ("upsert on " +:+ name +:+ " requires primary_key on TableSchema")), tables)
      else ∃ rows', write_rows name mode rows primary_key run_id tables =
                      (Ok tt, <[name := with_rows rows' t]> tables) ∧
        match mode with
        | WmAppend => rows' = mt_rows t ++ rows
        | WmReplace =>
            if bool_decide (mt_mode t = SmShared)
            then rows' = filter (λ r, ¬ of_run run_id r) (mt_rows t) ++ rows
            else rows' = rows
        | WmUpsert =>
            (∀ q, row_for primary_key rows' q =
               match row_for primary_key (reverse rows) q with
               | Some r => Some r
               | None => row_for primary_key (mt_rows t) q
               end) ∧
            (one_row_per_key primary_key (mt_rows t) → one_row_per_key primary_key rows')
        end
  end.
Proof.
  rw /write_rows /mbind /M_bind /get /=. destruct (tables !! name) as [t|]; [|done]. simpl.
  destruct mode; simpl.
  - eexists. by split.
  - destruct primary_key as [|k ks]; [done|]. simpl.
    eexists. split; [done|]. split; [apply upsert_rows_lookup|apply upsert_rows_unique].
  - eexists. split; [done|]. rw /replaced_rows. destruct (mt_mode t); try done. simpl. f_equal.
    apply list_filter_iff. intros r. by rw -row_of_run_spec negb_true_iff not_true_iff_false.
Qed.
End storage.

(** ** The host *)
Section host.
Context `{Platform, HashOrder, JsonValue, PresentationJson}.
Context {B MS : Type} `{!StorageBackend B, MemoStore MS}.
Abbreviation HostT := (@Host _ LiveKernel B MS).
(** C9: driving ends.  On a kernel in a reachable state, a host whose context carries
    no request key returns from [drive], whatever its plugins do, after at most
    as many waves as the run has steps and one more: fuel beyond [max_steps] is
    enough, and more changes nothing.  When it was to drive until idle and
    answers a run that still runs, its last wave was given no work. *)
Theorem drive_terminates (h : HostT) rid slot :
  reachable (host_law h) (host_state h) → st_runs (host_state h) !! rid = Some slot →
  ctx_request_key (h_ctx h) = "" →
  ∃ r, (∀ fuel, (Z.to_nat (run_max_steps (rs_run slot)) < fuel)%nat → drive fuel rid h = Some r) ∧
    (∀ run h', r = (Ok run, h') → run_is_running run = true →
       default UntilIdle (effective_drive <$> h_run_policies h !! rid) ≠ OnePass →
       ∃ h1 h2, drive_claim_wave rid false h1 = (Ok false, h2) ∧ host_get_run rid h2 = (Ok run, h')).
Proof.
  intros Hr Hs Hkey. set n := Z.to_nat _.
  assert (∃ r, drive_until_idle (S n) rid h = Some r) as [r Hd].
  { apply drive_until_idle_enough; [|by split; [|exists slot]|done].
    rw /= /live_left /steps_left. fold (host_state h). rw Hs /n /len. lia. }
  rw /drive /drive_with. destruct (default _ _).
  - exists (finish_if_closed rid r). split.
    + intros fuel Hf. by rw (drive_until_idle_more rid (S n) fuel h r).
    + intros run h' Hfin Hrun _. destruct r as [[run'|e|] h3]; [|done..]. simpl in Hfin.
      destruct (run_is_running run') eqn:Hrun'; simpl in Hfin.
      * injection Hfin as -> ->. by eapply drive_until_idle_idle.
      * apply bind_ok_inv in Hfin as (? & ? & _ & [= -> _]). congruence.
  - eexists. split; [done|]. by intros run h' _ _ [].
  - exists (finish_if_closed rid r). split.
    + intros fuel Hf. by rw (drive_until_idle_more rid (S n) fuel h r).
    + intros run h' Hfin Hrun _. destruct r as [[run'|e|] h3]; [|done..]. simpl in Hfin.
      destruct (run_is_running run') eqn:Hrun'; simpl in Hfin.
      * injection Hfin as -> ->. by eapply drive_until_idle_idle.
      * apply bind_ok_inv in Hfin as (? & ? & _ & [= -> _]). congruence.
Qed.

(** C10: starting a pipeline.  When it succeeds, on a host whose context carries no
    request key, the plan was accepted and the seeds were there; the kernel validated the cut assembly on the inputs and
    recorded exactly the run that the policy compiles to, running and with no
    step taken, and no other run changed; every skipped node was presented, in the
    order of the cut; and the policy of the run is remembered.  (With a request key
    the kernel may answer an earlier run instead and record nothing.) *)
Theorem pipeline_started (h h' : HostT) rid a inputs policy run :
  ctx_request_key (h_ctx h) = "" →
  start_pipeline rid a inputs policy h = (Ok run, h') →
  ∃ cut s, materialize_cut a (fp_nodes policy) = Ok cut ∧ validate_seeds_present cut inputs = Ok tt ∧
    let req := apply_to_run_request (mkRunRequest rid (Some (cut_assembly cut)) inputs None [] None)
                 (with_nodes NpAll policy) in
    let slot := started_slot req (cut_assembly cut) in
    later (host_law h) (host_state h) s ∧
    validate_assembly s (cut_assembly cut) inputs = Ok tt ∧ st_runs s !! rid = None ∧
    run = rs_run slot ∧ st_runs (host_state h') = <[rid := slot]> (st_runs (host_state h)) ∧
    se_presentation <$> h_step_events h' =
      (se_presentation <$> h_step_events h) ++ (skipped_presentation rid cut <$> cut_skipped cut) ∧
    h_run_policies h' = <[rid := policy]> (h_run_policies h) ∧ h_run_policies h !! rid = None.
Proof.
  intros Hkey Hm. apply start_pipeline_ok in Hm as (cut & s & ? & ? & ? & ? & ? & Hs & ? & Hruns & ?); [|done].
  exists cut, s. split_and!; try done. injection Hs as <- _. done.
Qed.
End host.

(** ** Memo *)
Section memo.
Context `{Platform, HashOrder, JsonValue, PresentationJson}.
Context {K B : Type} `{KernelApi K, !StorageBackend B}.
Abbreviation HostT := (@Host _ K B MemoryMemo).

(** C24: the memo store can be trusted.  A host with an empty memo store, and
    any host that drives runs from such a store, whatever its kernel answers
    and its plugins do, keeps every record under the key of the module,
    version, digest, capability and inputs that the record names. *)
Theorem memo_store_trusted (h : HostT) :
  memo_trusted (host_with_memo memory_memo_new h) ∧
  (memo_trusted h → ∀ rid,
    (∀ work, memo_trusted (finish_work_unit rid work h).2) ∧
    (∀ module, memo_trusted (try_step rid module h).2) ∧
    (∀ one_pass, memo_trusted (drive_claim_wave rid one_pass h).2) ∧
    (∀ fuel o h', drive fuel rid h = Some (o, h') → memo_trusted h')).
Proof.
  split; [intros store [= <-]; apply map_Forall_empty|]. intros Hh rid. split_and!.
  - intros work. by apply (keeps_finish_work_unit keeps_trust rid work h).
  - intros module. by apply (keeps_try_step keeps_trust rid module h).
  - intros one_pass. by apply (keeps_wave keeps_trust rid one_pass h).
  - intros fuel o h' Hd. by apply (keeps_drive keeps_trust fuel rid h o h' Hd).
Qed.

(** C17: a memo hit reuses outputs of work with the same fingerprint.  From a
    trusted store, the outputs a hit answers are those of a record of the same
    module, version, digest, capability and input fingerprint as the claimed unit,
    for a node the policy allows and a plugin with that digest, unless the digest
    function collides or a field contains the separator.  For a unit with one
    input per port the fingerprint is its inputs, those that have a name and an
    artifact; with several inputs on one port it only has the last one
    ([FwFindings.memo_key_ignores_inputs]). *)
Theorem memo_hit_sound (h h' : HostT) rid work key outputs source :
  memo_trusted h → try_memo_hit rid (wi_module work) work h = (Ok (Some (key, outputs, source)), h') →
  ∃ store r digest plugin t, h_memo h = Some store ∧ store !! key = Some r ∧
    h_plugins h !! wi_module work = Some plugin ∧ pl_module_digest plugin t = Some digest ∧
    outputs = record_to_named_outputs r ∧ source = mr_source_run_id r ∧
    let asked := memo_fields (wi_module work) (wi_module_version work) digest (wi_capability work)
                   (input_fingerprint_map work) in
    let stored := memo_fields (mr_module r) (mr_module_version r) (mr_module_digest r)
                    (mr_capability r) (mr_inputs r) in
    (Forall str_nul_free asked → Forall str_nul_free stored →
     collision_free [memo_key_bytes (wi_module work) (wi_module_version work) digest
                       (wi_capability work) (input_fingerprint_map work);
                     memo_key_bytes (mr_module r) (mr_module_version r) (mr_module_digest r)
                       (mr_capability r) (mr_inputs r)] →
     wi_module work = mr_module r ∧ wi_module_version work = mr_module_version r ∧
     digest = mr_module_digest r ∧ wi_capability work = mr_capability r ∧
     input_fingerprint_map work = mr_inputs r) ∧
    (NoDup (na_name <$> wi_inputs work) → ∀ n id, input_fingerprint_map work !! n = Some id ↔
       n ≠ "" ∧ id ≠ "" ∧ mkNamed n (Some (mkArtifactRef id)) ∈ wi_inputs work).
Proof.
  intros Hh Hhit. apply try_memo_hit_inv in Hhit
    as (store & r & digest & plugin & t & policy & Hs & Hr & Hp & Hdg & _ & _ & _ & _ & Hkey & -> & ->).
  exists store, r, digest, plugin, t. split_and!; [done..|]. intros asked stored. split.
  - intros Ha Hst Hcf. apply memo_key_inj; [done..|]. rw -Hkey. by apply (Hh store Hs) in Hr.
  - intros Hnd n id. by apply port_ids_lookup.
Qed.

(** What a hit commits is what was committed.  For outputs with distinct
    names, each with a name and an artifact, the outputs a record gives back
    are the outputs it was built from, in the order of their names. *)
Theorem memo_record_round_trip key work digest outputs run_id :
  NoDup (na_name <$> outputs) →
  Forall (λ o, na_name o ≠ "" ∧ ∃ r, na_artifact o = Some r ∧ ar_id r ≠ "") outputs →
  record_to_named_outputs (build_record key work digest outputs run_id) = sort_by na_name outputs.
Proof.
  intros Hnd Hall. rw Forall_forall in Hall. rw /record_to_named_outputs /= /btree_iter.
  rw -(sort_by_fmap (λ '(port, id), mkNamed port (Some (mkArtifactRef id))) fst na_name); [|by intros []].
  symmetry. apply sort_by_canonical; [done|].
  assert (NoDup outputs) as Hnd' by (by eapply NoDup_fmap_1).
  assert (NoDup ((λ '(port, id), mkNamed port (Some (mkArtifactRef id))) <$> map_to_list (port_ids outputs))) as Hnd2.
  { apply (NoDup_fmap_1 na_name). rw -list_fmap_compose.
    rw (list_fmap_ext _ fst); [apply NoDup_fst_map_to_list|by intros ? []]. }
  apply NoDup_Permutation; [done..|]. intros o. rw list_elem_of_fmap. split.
  - intros Ho. destruct (Hall o Ho) as (Hn & [id] & Ha & Hid). exists (na_name o, id).
    split; [destruct o; simpl in *; by subst|]. apply elem_of_map_to_list, port_ids_lookup; [done|].
    split_and!; [done..|]. by destruct o; simpl in *; subst.
  - intros ([n id] & -> & Hin%elem_of_map_to_list). by apply port_ids_lookup in Hin as (_ & _ & ?).
Qed.
End memo.

(** ** Work units *)
Section units.
Context `{Platform, HashOrder, JsonValue, PresentationJson}.
Context {B : Type} `{!StorageBackend B}.
Abbreviation HostT := (@Host _ LiveKernel B MemoryMemo).

(** C7: a finished unit was committed once.  When [finish_work_unit] answers,
    on a kernel in a reachable state and a host whose context carries no request key, the
    kernel has exactly one derivation more, of this unit.  Either the
    memo store had a record and its outputs are committed, shown as Cached,
    without executing; or the plugin of the module executed once, on the
    artifacts that the inputs of the unit name, the derivation has exactly the
    outputs it returned, each under the address of its content, and what was
    shown is Init, then the progress in the order it was emitted, then Final.
    The counters say which of the two it was.  (With a request key on the host the
    kernel answers an earlier commit again: [FwFindings.host_request_key_replays].) *)
Theorem unit_finished (h h' : HostT) rid work :
  sound_host h → finish_work_unit rid work h = (Ok tt, h') →
  ∃ outputs shown, committed rid work outputs h h' ∧
    se_presentation <$> h_step_events h' = (se_presentation <$> h_step_events h) ++ shown ∧
    ((∃ store key r, h_memo h = Some store ∧ store !! key = Some r ∧
        outputs = record_to_named_outputs r ∧
        shown = [cached_presentation rid work key outputs (mr_source_run_id r)] ∧
        h_execute_count h' = h_execute_count h ∧
        h_memo_hit_count h' = u64_sat_add (h_memo_hit_count h) 1) ∨
     (∃ plugin step t0 t1 t2 output step', h_plugins h !! wi_module work = Some plugin ∧
        sc_run_id step = rid ∧ sc_work step = work ∧ sc_progress_buf step = [] ∧
        map_Forall (λ n art, ∃ r, mkNamed n (Some r) ∈ wi_inputs work ∧
          st_artifacts (host_state h) !! ar_id r = Some art) (sc_inputs step) ∧
        pl_execute plugin t1 step = (Ok output, step') ∧
        outputs = committed_outputs (wi_module work) output ∧
        shown = option_list (init_presentation rid work <$> pl_on_init plugin t0 step) ++
          sc_progress_buf step' ++
          option_list (final_presentation rid work outputs <$>
            pl_on_final plugin t2 (step_with_progress [] step') (mkStepResult true outputs None)) ∧
        h_execute_count h' = u64_sat_add (h_execute_count h) 1 ∧
        h_memo_hit_count h' = h_memo_hit_count h)).
Proof.
  intros Hsound Hm. destruct (finish_work_unit_ok _ _ _ _ Hsound Hm) as (f & <- & Hf & [_ _ _ _ He Hx Hn (ds & Hds & Hall)]).
  exists (fi_outputs f), (fi_shown f). apply Forall2_cons_inv_l in Hall as (d & ds' & Hd & Hnil & ->).
  apply Forall2_nil_inv_l in Hnil as ->. destruct Hd as (Hrid & Hwid & Hout & Hnode).
  split_and!; [by exists d|by rw /= app_nil_r in He|].
  destruct Hf as [work store key r digest plugin t|work plugin step t0 t1 t2 output step' Hp [] Hex].
  - left. by exists store, key, r.
  - right. by exists plugin, step, t0, t1, t2, output, step'.
Qed.

(** C8: a drive accounts for what it did.  When [drive] answers a run, on a kernel in a
    reachable state and a host whose context carries no request key, there
    is a list of units, each finished from the memo store or by its plugin after the
    drive began, such that: the run has exactly one derivation more per unit, with
    the outputs of that unit, in this order; it has taken one step per
    derivation; no other run gained any; and the events and counters of the host are those
    of the units, in this order.  The run it answers is the one the kernel has. *)
Theorem drive_accounts (h h' : HostT) fuel rid run :
  sound_host h → drive fuel rid h = Some (Ok run, h') →
  ∃ l ds, Forall (finished_after h rid) l ∧
    run_derivations (host_state h') rid = run_derivations (host_state h) rid ++ ds ∧
    Forall2 (derived rid) l ds ∧
    run_steps run = len (run_derivations (host_state h) rid) + len l ∧
    (∀ other, other ≠ rid → run_derivations (host_state h') other = run_derivations (host_state h) other) ∧
    se_presentation <$> h_step_events h' =
      (se_presentation <$> h_step_events h) ++ mjoin (fi_shown <$> l) ∧
    h_execute_count h' = foldl count_executed (h_execute_count h) l ∧
    h_memo_hit_count h' = foldl count_hit (h_memo_hit_count h) l ∧
    rs_run <$> st_runs (host_state h') !! rid = Some run.
Proof.
  intros Hs Hd. destruct (drive_ok _ _ _ _ _ Hs Hd) as (l & Hf & Hw & Hrun).
  destruct (worked_runs _ _ _ _ Hw) as [(ds & Hds & Hall) Hother].
  destruct (worked_sound _ _ _ _ Hw Hs) as [Hr _]. apply reachable_ksteps in Hr as [_ [Hruns _]].
  exists l, ds. split_and!; [done..| |done|apply Hw|apply Hw|apply Hw|done].
  apply fmap_Some in Hrun as (slot & Hslot & ->). pose proof (Hruns _ _ Hslot) as Hinv.
  rw -(hi_steps _ _ _ (ri_history _ _ _ Hinv)) Hds /len length_app (Forall2_length _ _ _ Hall). lia.
Qed.

End units.
