(* ===== verification/Example.v ===== *)
(** * Example: one concrete kernel, run from the start

    A module with two capabilities, an assembly of two nodes, and the calls
    that take a run from START to COMPLETED, evaluated on a concrete platform
    and iteration order.  The states [ex_state n] are the inputs at which the
    properties are exercised. *)
From S2P Require Import Prelude Wire Errors Hash Traits Policy State Registry Store Events Assembly.
From S2P Require Import AssemblySpec Work Runs Units Steps Kernel Invariant.
Local Open Scope Z_scope.

#[export] Existing Instance sum_platform.
#[export] Existing Instance list_order.

Definition ex_policy : ArtifactStorePolicy := mkStorePolicy 1048576 0 1 1.
Definition ex_ctx : RequestContext := mkContext "host" "" 0 "".
Definition ex_key_ctx : RequestContext := mkContext "host" "k1" 0 "".

Definition ex_port (name : string) (trait : string) : Port := mkPort name false false false [trait].
Definition ex_manifest : ModuleManifest :=
  mkManifest "m" "1"
    [mkCapability "src" [ex_port "in" "t"] [ex_port "out" "u"] 1;
     mkCapability "dst" [ex_port "x" "u"] [ex_port "y" "v"] 1] [].
Definition ex_artifact (trait : string) (body : string) : Artifact :=
  artifact_with_trait trait (as_bytes body).
Definition ex_t : Artifact := ex_artifact "t" "one".
Definition ex_u : Artifact := ex_artifact "u" "two".
Definition ex_v : Artifact := ex_artifact "v" "three".
Definition ex_ref (a : Artifact) : option ArtifactRef := Some (mkArtifactRef (artifact_id_of a)).

Definition ex_assembly : Assembly :=
  mkAssembly "asm" [mkNode "a" "m" "1" "src"; mkNode "b" "m" "1" "dst"]
    [mkBinding "a" "in" "" "" "seed"; mkBinding "b" "x" "a" "out" ""]
    (Some (mkNodeOutput "b" "y")).
Definition ex_inputs : list NamedArtifact := [mkNamed "seed" (ex_ref ex_t)].
Definition ex_request : RunRequest :=
  mkRunRequest "r1" (Some ex_assembly) ex_inputs (Some (mkLimits 0 2 1000 2)) [] None.
Definition ex_claim : ClaimRequest := mkClaim "r1" "" [] 0 [].
Definition ex_commit (work node port : string) (a : Artifact) : Derivation :=
  mkDerivation "" "r1" work node "" "" "" [] [mkNamed port (ex_ref a)].
Definition ex_event : Event := mkEvent "e1" "news" "note" "host" 0 "r1" [].

Definition ex_calls : list Call :=
  [CRegister ex_manifest ex_ctx;
   CPutArtifact ex_t ex_ctx; CPutArtifact ex_u ex_ctx; CPutArtifact ex_v ex_ctx;
   CPutBlob (mkPutBlob "ns" (as_bytes "blob")) ex_ctx;
   CSubscribe (mkSubscription "m" ["news"]); CPublish ex_event ex_ctx;
   CStartRun ex_request ex_ctx;
   CClaimReady ex_claim ex_ctx;
   CCommit (ex_commit "work:r1/a" "a" "out" ex_u) ex_key_ctx;
   CClaimReady ex_claim ex_ctx;
   CCommit (ex_commit "work:r1/b" "b" "y" ex_v) ex_ctx].

(** Run [calls] at time [100]. *)
Definition run_calls (calls : list Call) (s : State) : State :=
  foldl (λ s c, (exec ex_policy 100 100 c s).2) s calls.
(** The state after the first [n] calls. *)
Definition ex_state (n : nat) : State := run_calls (take n ex_calls) empty_state.
Definition no_slot : RunSlot := mkRunSlot (mkRun "" None [] 0 None 0 0 "" None) ∅ ∅ ∅ ∅ ∅ ∅ 0 0 0.
Definition ex_slot (n : nat) : RunSlot := default no_slot (st_runs (ex_state n) !! "r1").

Lemma run_calls_reachable calls s :
  Forall call_ok calls → rtc (call_rel ex_policy) s (run_calls calls s).
Proof.
  intros Hok. revert s. induction Hok as [|c calls Hc Hok IH]; intros s; simpl; [done|].
  eapply rtc_l; [|apply IH]. eexists. by apply call_step_intro.
Qed.
Lemma ex_calls_ok : Forall call_ok ex_calls.
Proof.
  assert (call_ok (CStartRun ex_request ex_ctx)) as Hstart.
  { split; [intros l [= <-]; by vm_compute|intros a [= <-]; by vm_compute]. }
  rw /ex_calls. repeat (apply Forall_cons; split; [done|]). done.
Qed.
Lemma ex_reachable n : reachable ex_policy (ex_state n).
Proof. apply run_calls_reachable, Forall_take, ex_calls_ok. Qed.
Lemma ex_later n m : (n ≤ m)%nat → rtc (call_rel ex_policy) (ex_state n) (ex_state m).
Proof.
  intros Hle. rw /ex_state.
  assert (take m ex_calls = take n ex_calls ++ drop n (take m ex_calls)) as ->.
  { rw -{1}(take_drop n (take m ex_calls)) take_take. by rw Nat.min_l. }
  rw {2}/run_calls foldl_app. apply run_calls_reachable, Forall_drop, Forall_take, ex_calls_ok.
Qed.

Lemma ex_state_S n c : ex_calls !! n = Some c →
  ex_state (S n) = (exec ex_policy 100 100 c (ex_state n)).2.
Proof. intros Hc. by rw /ex_state (take_S_r _ _ _ Hc) /run_calls foldl_app. Qed.
Lemma ex_call_step n c : ex_calls !! n = Some c →
  call_step ex_policy (ex_state n) (exec ex_policy 100 100 c (ex_state n)).1 (ex_state (S n)).
Proof.
  intros Hc. rw (ex_state_S n c Hc). apply call_step_intro.
  pose proof ex_calls_ok as Hok. rw Forall_lookup in Hok. by eapply Hok.
Qed.

(** To run a method it is enough to evaluate its outcome. *)
Lemma run_outcome {A} (m : Method A) s o : (m s).1 = o → m s = (o, (m s).2).
Proof. intros <-. by destruct (m s). Qed.
Lemma run_replying {A} (f : A → Reply) (m : Method A) s a :
  (m s).1 = Ok a → m s = (Ok a, (replying f m s).2).
Proof. rw /replying /mbind /M_bind. destruct (m s) as [o s']. simpl. by intros ->. Qed.

(** The run goes through as intended. *)
Lemma ex_completed :
  run_state (rs_run (ex_slot 12)) = RsCompleted ∧ run_answer (rs_run (ex_slot 12)) = ex_ref ex_v.
Proof. by vm_compute. Qed.
