(* ===== verification/FwExample.v ===== *)
(** * FwExample: one concrete host over the example kernel

    A plugin for the module of [Example], a host with an in-memory table
    backend and memo store, and pipelines that are executed, answered from the
    memo store and resumed, evaluated.  The hosts [fx_*] are the inputs at
    which the properties of the framework are exercised. *)
From S2P Require Import Prelude Wire Errors Hash Traits Policy State Registry Store Events Assembly.
From S2P Require Import AssemblySpec Work Runs Units Steps Kernel Invariant.
From S2P Require Import FwErrors Presentation Storage StorageSpec Memo FwPolicy KernelApi Cut Host.
From S2P Require Import Example.
Local Open Scope Z_scope.

(** A JSON value is a list of strings, and a presentation serializes to its title. *)
#[export] Instance fx_json : JsonValue := {|
  json := list string; json_eqb x y := bool_decide (x = y); json_strings l := l |}.
#[export] Instance fx_json_laws : JsonLaws.
Proof.
  split; simpl.
  - intros x y ->%bool_decide_eq_true. by apply bool_decide_eq_true.
  - intros x y z ->%bool_decide_eq_true ->%bool_decide_eq_true. by apply bool_decide_eq_true.
Qed.
#[export] Instance fx_presentation_json : PresentationJson := λ p, inr (as_bytes (p_title p)).

(** ** The plugin *)
Definition fx_body (step : StepContext) : PortBody :=
  if str_eqb (wi_capability (sc_work step)) "src"
  then po_with_trait "out" "u" (as_bytes "two") else po_with_trait "y" "v" (as_bytes "three").
Definition fx_execute : M StepContext FrameworkError StepOutput :=
  emit_progress (presentation_progress "half" None);;
  step ← get;
  mret (mkStepOutput [fx_body step]).
Definition fx_schema : TableSchema :=
  schema_write_mode WmUpsert (schema_primary_key ["node"] (schema_column (required "node" CtText)
    (schema_new "rows"))).
Definition fx_plugin : ModulePlugin := {|
  pl_manifest _ := ex_manifest;
  pl_module_digest _ := Some "digest-1";
  pl_execute _ := fx_execute;
  pl_on_init _ step := Some (presentation_init "start");
  pl_on_final _ step result := if sr_ok result then Some (presentation_final_ok "end") else None;
  pl_storage_schema _ := Some fx_schema;
  pl_on_store _ step result :=
    Some (write_upsert [store_row [("node", value_of_str (wi_node_id (sc_work step)))]]);
|}.
(** A plugin whose [execute] fails. *)
Definition fx_failing : ModulePlugin := {|
  pl_manifest _ := ex_manifest;
  pl_module_digest := default_module_digest;
  pl_execute _ := fail (FwInvalid "no");
  pl_on_init := default_on_init (λ _ _, None);
  pl_on_final := default_on_final (λ _ _ _, None);
  pl_storage_schema := default_storage_schema;
  pl_on_store := default_on_store;
|}.

(** ** The hosts *)
Abbreviation FxHost := (@Host _ LiveKernel MemoryStorage MemoryMemo).
Definition fx_env : nat → Env := λ _, mkEnv 100 100 list_order.
Definition fx_kernel (s : State) : LiveKernel := mkLive (mkKernel s ex_policy) fx_env 0.
Definition fx_over (s : State) : FxHost :=
  host_with_memo memory_memo_new (host_with_storage memory_storage_new (host_new (fx_kernel s))).
(** The artifacts of the example are in the kernel, and its module comes from the plugin. *)
Definition fx_artifacts : State := run_calls (take 3 (drop 1 ex_calls)) empty_state.
Definition fx_host (plugin : ModulePlugin) : FxHost := (register_plugin plugin (fx_over fx_artifacts)).2.
(** A host that takes over the example kernel after [n] of its calls. *)
Definition fx_takeover (n : nat) (plugin : ModulePlugin) : FxHost :=
  host_with_plugins {["m" := plugin]} (fx_over (ex_state n)).
(** Everything a policy can switch on: memo, module tables and the step log. *)
Definition fx_policy : FrameworkPolicy :=
  with_storage per_run_with_step_log (with_memo memo_on converge).
Definition fx_then {A} (m : FxHost → option (FResult A * FxHost)) (h : FxHost) : FxHost :=
  match m h with Some (_, h) => h | None => h end.
Definition fx_do {A} (m : M FxHost FrameworkError A) (h : FxHost) : FxHost := (m h).2.

Definition fx_started : FxHost :=
  fx_do (start_pipeline "p1" ex_assembly ex_inputs fx_policy) (fx_host fx_plugin).
Definition fx_driven : FxHost := fx_then (drive 3 "p1") fx_started.
(** The same pipeline again: both units are memo hits. *)
Definition fx_again : FxHost :=
  fx_do (start_pipeline "p2" ex_assembly ex_inputs fx_policy) fx_driven.
Definition fx_replayed : FxHost := fx_then (drive 3 "p2") fx_again.
(** And resumed after its first node. *)
Definition fx_resumed : FxHost := fx_do (resume_after "p3" "p1" "a" (start_after "a")) fx_driven.

Definition fx_run_state (rid : string) (h : FxHost) : option RunState :=
  (λ slot, run_state (rs_run slot)) <$> st_runs (mk_state (lk_kernel (h_kernel h))) !! rid.
Definition fx_stages (h : FxHost) : list StepStage := se_stage <$> h_step_events h.

Lemma fx_pipeline_runs :
  fx_run_state "p1" fx_started = Some RsRunning ∧ fx_run_state "p1" fx_driven = Some RsCompleted ∧
  h_execute_count fx_driven = 2 ∧ h_memo_hit_count fx_driven = 0 ∧
  fx_stages fx_driven = [StInit; StProgress; StFinal; StInit; StProgress; StFinal] ∧
  fx_run_state "p2" fx_replayed = Some RsCompleted ∧
  h_execute_count fx_replayed = 2 ∧ h_memo_hit_count fx_replayed = 2 ∧
  drop 6 (fx_stages fx_replayed) = [StCached; StCached] ∧
  fx_run_state "p3" fx_resumed = Some RsRunning ∧ drop 6 (fx_stages fx_resumed) = [StSkipped].
Proof. by vm_compute. Qed.
Lemma fx_takeover_runs : fx_run_state "r1" (fx_then (drive 3 "r1") (fx_takeover 8 fx_plugin)) = Some RsCompleted.
Proof. by vm_compute. Qed.
