(* ===== verification/Findings.v ===== *)
(** * Findings: where the code does less than its documents say

    Each theorem exhibits a concrete input, for every digest, at which the
    unframed encodings, the unchecked conversion of a lease length, or the
    missing check of an injected input shows. *)
From S2P Require Import Prelude Wire Errors Hash Traits Policy State Registry Store Events Assembly.
From S2P Require Import AssemblySpec Work Runs Units Steps Kernel Invariant UnitSpec RunTheorems Example.
Local Open Scope Z_scope.

(** ** Encodings that are separated but not framed *)
Definition bag_one : Artifact := artifact_with_trait "t" (as_bytes "x" ++ [SEP] ++ as_bytes "u" ++ [SEP] ++ as_bytes "y").
Definition bag_two : Artifact := merge_traits (artifact_with_trait "t" (as_bytes "x")) (artifact_with_trait "u" (as_bytes "y")).

(** Two artifacts the default store law accepts, with different trait bags
    and the same id, whatever the digest function: a body may contain the
    separator byte. *)
Theorem artifact_id_ambiguous `{Platform} :
  artifact_id_of bag_one = artifact_id_of bag_two ∧ bag_contents bag_one ≠ bag_contents bag_two ∧
  ∃ p, default_store_policy = Ok p ∧
    validate_artifact_content bag_one p = Ok tt ∧ validate_artifact_content bag_two p = Ok tt.
Proof.
  split; [|split].
  - rw /artifact_id_of. by do 2 f_equal.
  - intros Heq. apply (f_equal (λ m, m !! "u")) in Heq. revert Heq. vm_compute. discriminate.
  - eexists. split; [reflexivity|]. split; vm_compute; reflexivity.
Qed.

(** Two ledger entries that differ in subject and detail have one hash. *)
Theorem ledger_hash_ambiguous `{Platform} seq kind prev :
  ledger_hash seq kind ("s" +:+ NUL +:+ "d") (as_bytes "e") prev =
  ledger_hash seq kind "s" (as_bytes "d" ++ [SEP] ++ as_bytes "e") prev.
Proof. done. Qed.

(** Two callers share a slot of the idempotency cache. *)
Theorem idempotency_key_ambiguous op deadline token :
  idempotency_key op (mkContext ("a" +:+ NUL +:+ "b") "c" deadline token) =
  idempotency_key op (mkContext "a" ("b" +:+ NUL +:+ "c") deadline token).
Proof. rw /idempotency_key /=. done. Qed.

(** ** A lease length past [i64::MAX] *)
(** The cast to [i64] turns the longest lease into one that ended a
    millisecond ago. *)
Theorem longest_lease_expired now c : 1 < now < 2^63 →
  lease_expired now (renew (i64_sat_add now (as_i64 u64_max)) c) = true.
Proof.
  intros Hnow. assert (i64_sat_add now (as_i64 u64_max) = now - 1) as Hi.
  { rw /i64_sat_add. change (as_i64 u64_max) with (-1). rw /i64_max /i64_min. lia. }
  rw /lease_expired /= Hi. apply andb_true_iff. rw Z.gtb_ltb Z.ltb_lt Z.leb_le. lia.
Qed.

(** So a heartbeat asking for it answers that the work is renewed, and has
    reaped it. *)
Theorem longest_heartbeat_reaps :
  let '(o, s) := heartbeat (mkHeartbeat "r1" ["work:r1/a"] u64_max) 100 (ex_state 9) in
  o = Ok (mkHeartbeatResponse ["work:r1/a"] []) ∧
  (rs_claimed <$> st_runs s !! "r1") = Some ∅.
Proof. by vm_compute. Qed.

(** ** An injected input is not checked against the ports it feeds *)
(** START refuses [ex_v] for the input, INJECT accepts it, and the worker is
    handed it on a port that asks for the trait it lacks. *)
Definition ex_mistyped : NamedArtifact := mkNamed "seed" (ex_ref ex_v).
Definition ex_injected : State :=
  run_calls [CInjectInput (mkInject "r1" (Some ex_mistyped)) ex_ctx] (ex_state 8).
Definition handed_out (o : Result ClaimResponse) : list (list NamedArtifact) :=
  match o with Ok r => wi_inputs <$> cresp_items r | _ => [] end.
Theorem injected_input_untyped :
  validate_assembly (ex_state 8) ex_assembly [ex_mistyped] ≠ Ok tt ∧
  (inject_input_ctx (mkInject "r1" (Some ex_mistyped)) ex_ctx 100 (ex_state 8)).1 =
    Ok (run_with_inputs [ex_mistyped] (rs_run (ex_slot 8))) ∧
  handed_out (claim_ready ex_claim 100 ex_injected).1 = [[mkNamed "in" (ex_ref ex_v)]] ∧
  has_traits ex_v ["t"] = false.
Proof.
  split; [vm_compute; discriminate|]. split; [vm_compute; reflexivity|].
  split; vm_compute; reflexivity.
Qed.

(** ** A node id that looks like a unit key *)
(** [validate_assembly] takes any node id, and a ONCE unit is claimed under the id
    of its node.  Node [a] fires once per key here, and the other node is named
    like the key of its unit. *)
Definition ex_key_node : string :=
  "key:a:" +:+ input_key (mkCapability "src" [ex_port "in" "t"] [ex_port "out" "u"] 1) [mkNamed "in" (ex_ref ex_t)].
Definition ex_twin_work : string := "work:r1/" +:+ ex_key_node.
Definition ex_twins : Assembly :=
  mkAssembly "asm" [mkNode "a" "m" "1" "src"; mkNode ex_key_node "m" "1" "src"; mkNode "b" "m" "1" "dst"]
    [mkBinding "a" "in" "" "" "seed"; mkBinding ex_key_node "in" "" "" "seed";
     mkBinding "b" "x" ex_key_node "out" ""]
    (Some (mkNodeOutput "b" "y")).
Definition ex_twin_request : RunRequest :=
  mkRunRequest "r1" (Some ex_twins) ex_inputs (Some (mkLimits 0 2 1000 2)) []
    (Some (mkPolicy 0 {["a" := Firing_i32 FiOncePerKey]} 0)).
Definition ex_twins_claimed : State :=
  run_calls [CStartRun ex_twin_request ex_ctx; CClaimReady (mkClaim "r1" "" [] 2 []) ex_ctx] (ex_state 7).
Definition ex_twins_committed : State :=
  run_calls [CCommit (ex_commit ex_twin_work ex_key_node "out" ex_u) ex_ctx; CClaimReady (mkClaim "r1" "" [] 1 []) ex_ctx;
             CCommit (ex_commit ex_twin_work "a" "out" ex_u) ex_ctx] ex_twins_claimed.
(** The two units get one work id: the second claim overwrites the first, and
    both are committed under it. *)
Theorem work_id_collision :
  validate_assembly (ex_state 7) ex_twins ex_inputs = Ok tt ∧
  (λ slot, wi_node_id ∘ cs_work <$> rs_claimed slot) <$> st_runs ex_twins_claimed !! "r1" =
    Some {[ex_twin_work := ex_key_node]} ∧
  (λ slot, unit_phase slot <$> ["once:" +:+ ex_key_node; ex_key_node]) <$> st_runs ex_twins_claimed !! "r1" =
    Some [UClaimed; UReady] ∧
  d_work_id <$> run_derivations ex_twins_committed "r1" = [ex_twin_work; ex_twin_work].
Proof. split_and!; vm_compute; reflexivity. Qed.

(** ** A heartbeat renews what has expired *)
(** The lease is over, and the unit is still answered as renewed, not as lost. *)
Theorem heartbeat_renews_expired :
  lease_expired 5000 <$> rs_claimed (ex_slot 9) !! "work:r1/a" = Some true ∧
  let '(o, s) := heartbeat (mkHeartbeat "r1" ["work:r1/a"] 1000) 5000 (ex_state 9) in
  o = Ok (mkHeartbeatResponse ["work:r1/a"] []) ∧
  (λ slot, cs_lease_until_ms <$> rs_claimed slot) <$> st_runs s !! "r1" = Some {["work:r1/a" := 6000]}.
Proof. by vm_compute. Qed.
