(* ===== verification/FwFindings.v ===== *)
(** * FwFindings: where the framework does less than its documents say

    Concrete inputs at which the names that are joined without framing, the
    maps that keep one value per port, and the order of effects of the host
    show. *)
From S2P Require Import Prelude Wire Errors Hash Traits Policy State Registry Store Events Assembly.
From S2P Require Import AssemblySpec Work Runs Units Steps Kernel Invariant RunTheorems.
From S2P Require Import FwErrors Presentation Storage Memo FwPolicy KernelApi Cut Host Example FwExample.
Local Open Scope Z_scope.

(** ** One value per port, and joined names *)
Definition fx_unit (inputs : list NamedArtifact) : WorkItem :=
  mkWorkItem "w" "r" "n" "m" "1" "c" inputs "once:n" 1 0.
Definition fx_ref (id : string) : option ArtifactRef := Some (mkArtifactRef id).
(** Two units that differ in an artifact of a [multiple] port have one memo key. *)
Theorem memo_key_ignores_inputs `{Platform} id1 id2 last digest : last ≠ "" →
  let key ids := memo_key "m" "1" digest "c"
    (input_fingerprint_map (fx_unit ((λ id, mkNamed "p" (fx_ref id)) <$> ids))) in
  key [id1; last] = key [id2; last].
Proof.
  intros Hlast. simpl. f_equal. rw /input_fingerprint_map /port_ids /=.
  rw (proj2 (str_is_empty_false last)) //=.
  by destruct (str_is_empty id1), (str_is_empty id2); rw /= ?insert_insert_eq.
Qed.

(** Two outputs of two nodes share a seed input. *)
Theorem seed_name_ambiguous : seed_input_name "a" "b/c" = seed_input_name "a/b" "c".
Proof. done. Qed.

(** Tables of two runs, of different modules, share a physical table. *)
Theorem table_name_ambiguous `{JsonValue} schema :
  qt_physical_name (qualify_table SmPerRun "r__m" "n" schema) =
  qt_physical_name (qualify_table SmPerRun "r" "m__n" schema).
Proof. done. Qed.

(** ** Policies *)
(** The default of a firing map is not what an unlisted node fires by. *)
Theorem map_default_not_used :
  let policy := with_firing (FpMap FiAlways ∅) converge in
  effective_firing (started_slot (apply_to_run_request ex_request policy) ex_assembly)
    (mkNode "a" "m" "1" "src") (mkCapability "src" [] [] (Firing_i32 FiOnce)) = FiOnce.
Proof. by vm_compute. Qed.

(** A host that may claim no module drives the run to its end. *)
Theorem empty_allow_list_claims_any :
  let h := fx_do (start_pipeline "p1" ex_assembly ex_inputs (with_claim_modules [] converge))
             (fx_host fx_plugin) in
  claim_module_names "p1" h = [] ∧ fx_run_state "p1" (fx_then (drive 3 "p1") h) = Some RsCompleted.
Proof. by vm_compute. Qed.

(** ** The host *)
Definition fx_error {A} (o : FResult A) : string :=
  match o with Err e => FrameworkError_display e | _ => "" end.
(** A table that cannot be ensured: the run is started, has no policy, and
    cannot be started again. *)
Definition fx_clash : FxHost :=
  host_with_storage {["m__rows" := mkMemTable (schema_new "rows") SmShared []]} (fx_host fx_plugin).
Definition fx_start : M FxHost FrameworkError Run :=
  start_pipeline "p1" ex_assembly ex_inputs (with_storage shared converge).
Theorem failed_start_leaves_run :
  let '(o, h) := fx_start fx_clash in
  fx_error o = "invalid: storage schema mismatch for table m__rows" ∧
  fx_run_state "p1" h = Some RsRunning ∧ host_policy "p1" h = None ∧
  is_ok (fx_start h).1 = false.
Proof. by vm_compute. Qed.

(** Two units in one wave, the first of which fails: the second is executed,
    and stays claimed. *)
Definition fx_pair : Assembly :=
  mkAssembly "pair" [mkNode "a" "m" "1" "src"; mkNode "b" "m" "1" "src"]
    [mkBinding "a" "in" "" "" "seed"; mkBinding "b" "in" "" "" "seed"] (Some (mkNodeOutput "b" "out")).
Definition fx_claimed (rid : string) (h : FxHost) : list string :=
  match st_runs (mk_state (lk_kernel (h_kernel h))) !! rid with
  | Some slot => (map_to_list (rs_claimed slot)).*1
  | None => []
  end.
Theorem failed_unit_strands_wave :
  let h := fx_do (start_pipeline "p1" fx_pair ex_inputs converge) (fx_host fx_failing) in
  match drive 4 "p1" h with
  | Some (o, h) => fx_error o = "step failed: invalid: no" ∧ h_execute_count h = 1 ∧
                   fx_claimed "p1" h = ["work:p1/b"]
  | None => False
  end.
Proof. by vm_compute. Qed.

(** A chain of three nodes, the last of which also reads the output of the first. *)
Definition fx_chain_manifest : ModuleManifest :=
  mkManifest "m" "1"
    [mkCapability "src" [ex_port "in" "t"] [ex_port "out" "u"] 1;
     mkCapability "dst" [ex_port "x" "u"] [ex_port "y" "v"] 1;
     mkCapability "end" [ex_port "p" "u"; ex_port "q" "v"] [ex_port "y" "v"] 1] [].
Definition fx_chain_plugin : ModulePlugin :=
  mkPlugin (λ _, fx_chain_manifest) default_module_digest (λ _, fx_execute) (default_on_init (λ _ _, None))
    (default_on_final (λ _ _ _, None)) default_storage_schema default_on_store.
Definition fx_chain : Assembly :=
  mkAssembly "chain" [mkNode "a" "m" "1" "src"; mkNode "b" "m" "1" "dst"; mkNode "c" "m" "1" "end"]
    [mkBinding "a" "in" "" "" "seed"; mkBinding "b" "x" "a" "out" ""; mkBinding "c" "p" "a" "out" "";
     mkBinding "c" "q" "b" "y" ""] (Some (mkNodeOutput "c" "y")).
Definition fx_chain_driven : FxHost :=
  fx_then (drive 4 "p1") (fx_do (start_pipeline "p1" fx_chain ex_inputs converge) (fx_host fx_chain_plugin)).
Definition fx_chain_resumed : FxHost :=
  fx_then (drive 4 "p2") (fx_do (resume_after "p2" "p1" "a" (start_after "a")) fx_chain_driven).
(** Resuming the first run after [b] is accepted, resuming the resumed one is not. *)
Theorem resume_of_resumed_refused :
  fx_run_state "p1" fx_chain_resumed = Some RsCompleted ∧
  fx_run_state "p2" fx_chain_resumed = Some RsCompleted ∧
  is_ok (resume_after "p3" "p1" "b" (start_after "b") fx_chain_resumed).1 = true ∧
  is_ok (resume_after "p3" "p2" "b" (start_after "b") fx_chain_resumed).1 = false.
Proof. by vm_compute. Qed.

(** ** A request key on the host *)
(** The context of a host goes with every call it makes, and a cached answer
    is per operation, caller and key: with a key, the second unit is given the
    artifact and the answer of the first.  Both units execute and are shown, one is
    committed, and the other stays claimed. *)
Definition fx_keyed : FxHost := with_context (mkContext "host" "k" 0 "") (fx_takeover 8 fx_plugin).
Theorem host_request_key_replays :
  match drive 5 "r1" fx_keyed with
  | Some (o, h) => is_ok o = true ∧ fx_run_state "r1" h = Some RsRunning ∧ h_execute_count h = 2 ∧
      fx_stages h = [StInit; StProgress; StFinal; StInit; StProgress; StFinal] ∧
      d_work_id <$> run_derivations (mk_state (lk_kernel (h_kernel h))) "r1" = ["work:r1/a"] ∧
      fx_claimed "r1" h = ["work:r1/b"]
  | None => False
  end.
Proof. by vm_compute. Qed.
