(* ===== verification/Witnesses.v ===== *)
(** * Witnesses: the properties at work on the example kernel

    Each theorem with hypotheses is applied at concrete inputs where they
    hold, with the definitions evaluated. *)
From S2P Require Import Prelude Wire Errors Hash Traits Policy State Registry Store Events Assembly.
From S2P Require Import AssemblySpec Work Runs Units Steps Kernel Invariant StoreInv EventSpec Evolve UnitSpec.
From S2P Require Import NoPanic RunTheorems FailTheorems Liveness Typing StoreTheorems DataTheorems Example.
Local Open Scope Z_scope.

Lemma ex_slot_lookup n : bool_decide (is_Some (st_runs (ex_state n) !! "r1")) = true →
  st_runs (ex_state n) !! "r1" = Some (ex_slot n).
Proof. intros Hb%bool_decide_eq_true. rw /ex_slot. by destruct Hb as [x ->]. Qed.

(** ** Runs *)
Lemma commit_at_most_once_witness :
  plain_slot (ex_slot 12) ∧ NoDup (d_work_id <$> run_derivations (ex_state 12) "r1") ∧
  len (run_derivations (ex_state 12) "r1") = 2.
Proof.
  assert (plain_slot (ex_slot 12)) as Hp.
  { intros a Ha. assert (Some a = Some ex_assembly) as [= ->] by (rw -Ha; vm_compute; reflexivity).
    apply (bool_decide_unpack _). vm_compute; reflexivity. }
  destruct (commit_at_most_once ex_policy (ex_state 12) "r1" (ex_slot 12)) as (Hlen & _ & _ & Hnd).
  - apply ex_reachable.
  - apply ex_slot_lookup. vm_compute; reflexivity.
  - split; [exact Hp|]. split; [exact (Hnd Hp)|]. rw Hlen. vm_compute; reflexivity.
Defined.

Lemma claims_sound_witness :
  size (rs_claimed (ex_slot 9)) = 1%nat ∧
  ∃ a, run_assembly (rs_run (ex_slot 9)) = Some a ∧
    map_Forall (claim_ok "r1" (as_nodes a) (rs_done_units (ex_slot 9))) (rs_claimed (ex_slot 9)).
Proof.
  split; [vm_compute; reflexivity|].
  destruct (claims_sound ex_policy (ex_state 9) "r1" (ex_slot 9)) as (a & H1 & H2 & _).
  - apply ex_reachable.
  - apply ex_slot_lookup. vm_compute; reflexivity.
  - exists a. split; [exact H1|exact H2].
Defined.


Definition ex_after : State := run_calls [CPublish ex_event ex_ctx; CClaimReady ex_claim ex_ctx] (ex_state 12).
Lemma closed_run_frozen_witness :
  len (st_ledger (ex_state 12)) < len (st_ledger ex_after) ∧
  st_runs ex_after !! "r1" = Some (ex_slot 12).
Proof.
  split; [by vm_compute|].
  apply (closed_run_frozen ex_policy (ex_state 12) ex_after "r1" (ex_slot 12)).
  - apply ex_reachable.
  - apply run_calls_reachable. by repeat constructor.
  - apply ex_slot_lookup. vm_compute; reflexivity.
  - vm_compute; discriminate.
Defined.

Lemma kernel_never_panics_witness :
  (exec ex_policy 0 0 (CCommit (ex_commit "nowhere" "a" "out" ex_u) ex_ctx) (ex_state 9)).1 ≠ Panic.
Proof. apply (kernel_never_panics ex_policy). apply ex_reachable. Defined.

Lemma unit_lifecycle_witness :
  unit_state (ex_slot 8) "once:a" = mkUnit true UReady 0 ∧
  ∃ slot', st_runs (ex_state 9) !! "r1" = Some slot' ∧
    rtc (unit_step 2) (unit_state (ex_slot 8) "once:a") (unit_state slot' "once:a").
Proof.
  split; [vm_compute; reflexivity|].
  apply (unit_lifecycle ex_policy (ex_state 8)
    (exec ex_policy 100 100 (CClaimReady ex_claim ex_ctx) (ex_state 8)).1 (ex_state 9) "r1" (ex_slot 8) "once:a").
  - apply ex_reachable.
  - by apply (ex_call_step 8).
  - apply ex_slot_lookup. vm_compute; reflexivity.
  - intros a Ha. assert (Some a = Some ex_assembly) as [= ->] by (rw -Ha; vm_compute; reflexivity).
    apply (bool_decide_unpack _). vm_compute; reflexivity.
Defined.

Lemma attempts_bounded_witness :
  attempts_of (ex_slot 9) "once:a" = 1 ∧ 0 ≤ attempts_of (ex_slot 9) "once:a" ≤ 2.
Proof.
  split; [vm_compute; reflexivity|].
  destruct (attempts_bounded ex_policy (ex_state 9) "r1" (ex_slot 9)) as (H & _).
  - apply ex_reachable.
  - apply ex_slot_lookup. vm_compute; reflexivity.
  - intros a Ha. assert (Some a = Some ex_assembly) as [= ->] by (rw -Ha; vm_compute; reflexivity).
    apply (bool_decide_unpack _). vm_compute; reflexivity.
  - exact (H "once:a").
Defined.

Lemma claim_ready_grants_witness :
  length (ready_candidates (ex_state 8) (reaped (ex_slot 8) 100) ex_claim ex_assembly) = 1%nat ∧
  NoDup (ready_candidates (ex_state 8) (reaped (ex_slot 8) 100) ex_claim ex_assembly).*2.
Proof.
  split; [vm_compute; reflexivity|].
  apply (claim_ready_grants ex_policy (ex_state 8) ex_claim 100 (ex_slot 8) ex_assembly).
  - apply ex_reachable.
  - apply ex_slot_lookup. vm_compute; reflexivity.
  - vm_compute; reflexivity.
  - vm_compute; reflexivity.
Defined.

Definition ex_commit_a : Derivation := ex_commit "work:r1/a" "a" "out" ex_u.
Lemma commit_outcome_witness :
  ∃ slot c, st_runs (ex_state 9) !! "r1" = Some slot ∧
    rs_claimed (reaped slot 100) !! "work:r1/a" = Some c ∧
    st_derivations (ex_state 10) = st_derivations (ex_state 9) ++
      [derivation_of (cs_work c) [mkNamed "out" (ex_ref ex_u)]].
Proof.
  destruct (commit_outcome ex_policy (ex_state 9) ex_commit_a ex_key_ctx 100 100
    (rs_run (ex_slot 10)) (ex_state 10)) as (slot & c & cap & a & t & H1 & _ & _ & _ & H2 & H3).
  - apply ex_reachable.
  - vm_compute; reflexivity.
  - rw (ex_state_S 9 (CCommit ex_commit_a ex_key_ctx) eq_refl).
    apply (run_replying RRun). vm_compute; reflexivity.
  - exists slot, c. split; [exact H1|]. split; [exact H2|].
    destruct H3 as (_ & _ & _ & _ & _ & _ & H3 & _). exact H3.
Defined.

Definition ex_bad_commit := commit_ctx (ex_commit "nowhere" "" "out" ex_u) ex_ctx 100 100 (ex_state 9).
Lemma commit_refused_witness :
  ex_bad_commit.1 = Err (Conflict "work was not claimed") ∧
  st_derivations ex_bad_commit.2 = st_derivations (ex_state 9).
Proof.
  split; [vm_compute; reflexivity|].
  apply (commit_refused ex_policy (ex_state 9) (ex_commit "nowhere" "" "out" ex_u) ex_ctx 100 100
    (Conflict "work was not claimed") ex_bad_commit.2).
  apply run_outcome. vm_compute; reflexivity.
Defined.

Lemma heartbeat_partition_witness :
  ∃ s', heartbeat (mkHeartbeat "r1" ["work:r1/a"; "gone"] 0) 100 (ex_state 9) =
    (Ok (mkHeartbeatResponse ["work:r1/a"] ["gone"]), s').
Proof.
  destruct (heartbeat_partition ex_policy (ex_state 9)
    (mkHeartbeat "r1" ["work:r1/a"; "gone"] 0) 100 (ex_slot 9)) as (s' & slot' & H & _).
  - apply ex_slot_lookup. vm_compute; reflexivity.
  - vm_compute; reflexivity.
  - exists s'. rw H. vm_compute; reflexivity.
Defined.

Lemma start_run_spec_witness :
  ∃ a, startable (ex_state 7) ex_request a ∧ rs_run (ex_slot 8) = rs_run (started_slot ex_request a).
Proof.
  apply (start_run_spec (ex_state 7) ex_request ex_ctx 100 (rs_run (ex_slot 8))).
  - vm_compute; reflexivity.
  - vm_compute; reflexivity.
  - exists (ex_state 8). rw (ex_state_S 7 (CStartRun ex_request ex_ctx) eq_refl).
    apply (run_replying RRun). vm_compute; reflexivity.
Defined.

Lemma upstream_inputs_typed_witness :
  ∃ target art, port [ex_port "x" "u"] "x" = Some target ∧
    st_artifacts (ex_state 10) !! artifact_id_of ex_u = Some art ∧
    has_traits art (port_traits target) = true.
Proof.
  apply (upstream_inputs_typed ex_policy (ex_state 10) "r1" (ex_slot 10) ex_assembly
    (mkNode "b" "m" "1" "dst") (mkCapability "dst" [ex_port "x" "u"] [ex_port "y" "v"] 1)
    (mkBinding "b" "x" "a" "out" "") (mkArtifactRef (artifact_id_of ex_u))).
  - apply ex_reachable.
  - apply ex_slot_lookup. vm_compute; reflexivity.
  - vm_compute; reflexivity.
  - rw /= !elem_of_cons. right. by left.
  - vm_compute; reflexivity.
  - apply list_elem_of_filter. split; [done|]. rw /= !elem_of_cons. right. by left.
  - done.
  - vm_compute; reflexivity.
Defined.

(** ** The store and the ledger *)
Lemma collision_free_check (ms : list bytes) :
  forallb (λ x, forallb (λ y, implb (bool_decide (sha256 x = sha256 y)) (bool_decide (x = y))) ms) ms = true →
  collision_free ms.
Proof.
  rw forallb_forall. intros Hms x y Hx Hy Heq.
  rw list_elem_of_In in Hx. rw list_elem_of_In in Hy.
  specialize (Hms x Hx). rw forallb_forall in Hms. specialize (Hms y Hy).
  rw (bool_decide_eq_true_2 _ Heq) /= in Hms. by apply bool_decide_eq_true in Hms.
Qed.

Lemma store_content_addressed_witness :
  size (st_blobs (ex_state 12)) = 1%nat ∧ size (st_artifacts (ex_state 12)) = 3%nat ∧
  map_Forall (blob_ok ex_policy) (st_blobs (ex_state 12)) ∧
  map_Forall (artifact_ok ex_policy (ex_state 12)) (st_artifacts (ex_state 12)) ∧
  map_Forall contract_ok (st_contracts (ex_state 12)).
Proof.
  split; [vm_compute; reflexivity|]. split; [vm_compute; reflexivity|].
  apply (store_content_addressed ex_policy (ex_state 12)). apply ex_reachable.
Defined.

Lemma artifact_round_trip_witness :
  get_artifact (mkArtifactRef (artifact_id_of ex_t)) (ex_state 12) =
    (Ok (art_with_id (artifact_id_of ex_t) ex_t), ex_state 12).
Proof.
  destruct (artifact_round_trip ex_policy (ex_state 1) ex_t ex_ctx 100
    (mkArtifactRef (artifact_id_of ex_t)) (ex_state 2) (ex_state 12)) as (b & H1 & _ & _ & H2 & _).
  - apply ex_reachable.
  - vm_compute; reflexivity.
  - rw (ex_state_S 1 (CPutArtifact ex_t ex_ctx) eq_refl).
    apply (run_replying RArtifactRef). vm_compute; reflexivity.
  - apply ex_later. lia.
  - rw -H2; [exact H1|vm_compute; reflexivity].
Defined.

Definition ex_blob : PutBlobRequest := mkPutBlob "ns" (as_bytes "blob").
Lemma blob_round_trip_witness :
  ∃ data, get_blob (mkGetBlob (blob_id (pb_data ex_blob)) "ns") (ex_state 12) =
      (Ok (mkBlobData (blob_id (pb_data ex_blob)) (u64 (len data)) "ns" data), ex_state 12) ∧
    blob_id data = blob_id (pb_data ex_blob).
Proof.
  destruct (blob_round_trip ex_policy (ex_state 4) ex_blob
    (mkBlobRef (blob_id (pb_data ex_blob)) 4 "ns") (ex_state 5) (ex_state 12)) as ((data & H1 & H2 & _) & _).
  - apply ex_reachable.
  - rw (ex_state_S 4 (CPutBlob ex_blob ex_ctx) eq_refl).
    apply (run_replying RBlobRef). vm_compute; reflexivity.
  - apply ex_later. lia.
  - exists data. split; [exact H1|exact H2].
Defined.

Lemma ledger_verifies_witness :
  0 < len (st_ledger (ex_state 12)) ∧ (verify_ledger (ex_state 12)).1 = Ok true.
Proof.
  split; [vm_compute; reflexivity|].
  rw (ledger_verifies ex_policy (ex_state 12)); [reflexivity|apply ex_reachable].
Defined.

Lemma history_append_only_witness :
  st_ledger (ex_state 3) `prefix_of` st_ledger (ex_state 12) ∧
  st_artifacts (ex_state 3) ⊆ st_artifacts (ex_state 12).
Proof.
  destruct (history_append_only ex_policy (ex_state 3) (ex_state 12)) as (H1 & _ & H2 & _).
  - apply ex_reachable.
  - apply ex_later. lia.
  - split; [exact H1|exact H2].
Defined.

(** Two chains that share a past and a last hash. *)
Definition ex_chain : list LedgerEntry := st_ledger (ex_state 4).
Lemma chain_tamper_evident_witness : ex_chain = take 4 (st_ledger (ex_state 12)).
Proof.
  apply (chain_tamper_evident ex_chain (take 4 (st_ledger (ex_state 12)))).
  - apply (bool_decide_unpack _). vm_compute; reflexivity.
  - apply (bool_decide_unpack _). vm_compute; reflexivity.
  - apply collision_free_check. vm_compute; reflexivity.
  - vm_compute; reflexivity.
  - vm_compute; reflexivity.
  - vm_compute; reflexivity.
Defined.

Lemma artifact_id_faithful_witness : artifact_id_of ex_t ≠ artifact_id_of ex_u.
Proof.
  intros Heq. apply artifact_id_faithful in Heq.
  - revert Heq. vm_compute. discriminate.
  - apply (bool_decide_unpack _). vm_compute; reflexivity.
  - apply (bool_decide_unpack _). vm_compute; reflexivity.
  - apply collision_free_check. vm_compute; reflexivity.
Defined.

Definition ex_transition : TransitionRequest := mkTransition "m" 2.
Lemma transition_spec_witness :
  (transition_req ex_transition ex_ctx 100 (ex_state 1)).1 = Ok (mkTransitionAck 2).
Proof.
  rw (transition_spec ex_transition ex_ctx 100 (ex_state 1)); [|vm_compute; reflexivity].
  vm_compute; reflexivity.
Defined.

Definition ex_retry_ctx : RequestContext :=
  mkContext (ctx_caller ex_key_ctx) (ctx_request_key ex_key_ctx) 10000 "retry".
Lemma idempotent_replay_witness :
  ∃ r, commit_ctx (ex_commit "other" "" "y" ex_v) ex_retry_ctx 500 600 (ex_state 12) = (Ok r, ex_state 12).
Proof.
  destruct (idempotent_replay ex_policy (ex_state 9) (ex_state 10) (ex_state 12) ex_key_ctx ex_retry_ctx 100 500 100 600)
    as (_ & _ & H).
  - apply ex_reachable.
  - apply ex_later. lia.
  - done.
  - reflexivity.
  - reflexivity.
  - reflexivity.
  - exists (rs_run (ex_slot 10)).
    apply (H ex_commit_a).
    rw (ex_state_S 9 (CCommit ex_commit_a ex_key_ctx) eq_refl).
    apply (run_replying RRun). vm_compute; reflexivity.
Defined.

(** ** Events *)
Lemma publish_delivers_witness :
  ∃ s', publish ex_event (ex_state 6) = (Ok (mkPublishAck 1), s') ∧ st_event_seq s' = 1 ∧
    (ev_seq <$> (st_chans s' !! 0%nat ≫= λ c, head (ch_queue c))) = Some 1.
Proof.
  destruct (publish_delivers ex_policy (ex_state 6) ex_event) as (s' & H1 & H2 & _ & H3 & _).
  - apply ex_reachable.
  - exists s'. split; [exact H1|]. split; [exact H2|]. rw (H3 0%nat). vm_compute; reflexivity.
Defined.

Lemma event_order_witness :
  len (st_ledger (ex_state 7)) < 2^64 ∧
  Forall (ordered_upto (st_event_seq (ex_state 7))) (st_chans (ex_state 7)).
Proof.
  assert (len (st_ledger (ex_state 7)) < 2^64) as Hlen by (vm_compute; reflexivity).
  split; [exact Hlen|].
  destruct (event_order ex_policy (ex_state 7)) as (_ & _ & H); [apply ex_reachable|exact (H Hlen)].
Defined.

(** ** Assemblies, policy, trait bags *)
Definition ex_edges : gmap string (list string) := <["a" := ["b"]]> (<["b" := []]> ∅).
Lemma cycle_check_correct_witness :
  check_acyclic 3 ex_edges ["a"; "b"] ∅ ∅ = Ok tt ∧
  ∀ x, ¬ tc (λ x y, y ∈ successors ex_edges x) x x.
Proof.
  assert (check_acyclic 3 ex_edges ["a"; "b"] ∅ ∅ = Ok tt) as Hok by (vm_compute; reflexivity).
  split; [exact Hok|].
  assert (∀ x y, y ∈ successors ex_edges x → y = "b") as Hsucc.
  { intros x y. rw /successors /ex_edges.
    destruct (decide (x = "a")) as [->|Ha]; [|destruct (decide (x = "b")) as [->|Hb]].
    - rw lookup_insert_eq /=. set_solver.
    - rw lookup_insert_ne // lookup_insert_eq /=. set_solver.
    - rw !lookup_insert_ne // lookup_empty /=. set_solver. }
  destruct (cycle_check_correct ex_edges {["a"; "b"]} 3 ["a"; "b"]) as [H _].
  - intros x y ->%Hsucc. set_solver.
  - repeat constructor; set_solver.
  - vm_compute. lia.
  - intros x y Hy. destruct (decide (x ∈ ["a"; "b"])) as [?|Hx]; [done|].
    exfalso. revert Hy. rw /successors /ex_edges. rw !not_elem_of_cons in Hx.
    destruct Hx as (? & ? & _). rw !lookup_insert_ne // lookup_empty /=. set_solver.
  - by apply H.
Defined.

Lemma artifact_law_witness :
  validate_artifact_content ex_t ex_policy = Ok tt ∧
  map_Forall (trait_acceptable 1048576) (art_traits ex_t).
Proof.
  assert (validate_artifact_content ex_t ex_policy = Ok tt) as Hok by (vm_compute; reflexivity).
  split; [exact Hok|]. apply (artifact_law ex_t ex_policy); [done|exact Hok].
Defined.
