(* ===== verification/FwWitnesses.v ===== *)
(** * FwWitnesses: the properties of the framework at work

    Each theorem with hypotheses is applied to the hosts and runs of
    [FwExample]. *)
From S2P Require Import Prelude Wire Errors Hash Traits Policy State Registry Store Events Assembly.
From S2P Require Import AssemblySpec Work Runs Units Steps Kernel Invariant Evolve RunTheorems.
From S2P Require Import FwErrors Presentation Storage StorageSpec Memo FwPolicy KernelApi KernelLaws Cut.
From S2P Require Import CutSpec CutValid FwPolicySpec Host HostSpec HostTermination MemoSpec HostPipeline HostUnit HostWave.
From S2P Require Import FwTheorems Example FwExample Witnesses.
Local Open Scope Z_scope.

(** ** Cuts and policies *)
Definition fx_cut : AssemblyCut :=
  mkCut (mkAssembly "asm" [mkNode "b" "m" "1" "dst"] [mkBinding "b" "x" "" "" "__seed/a/out"]
           (Some (mkNodeOutput "b" "y")))
    [mkSkipped "a" "m" "src" "1"] [mkSeedSpec "__seed/a/out" "a" "out" "b" "x"] ["b"].
Definition fx_seeds : list NamedArtifact := [mkNamed "__seed/a/out" (ex_ref ex_u)].

Lemma materialize_cut_correct_witness : plan_ok ex_assembly (NpAfter "a") ∧
  (∃ kept : gset string, (∀ x, x ∈ kept ↔ kept_by ex_assembly (NpAfter "a") x) ∧ fx_cut = cut_with ex_assembly kept).
Proof.
  destruct (materialize_cut_correct ex_assembly) as [Hc _].
  assert (closed_assembly ex_assembly) as Hclosed
    by (split; apply (bool_decide_unpack _); vm_compute; reflexivity).
  apply (Hc Hclosed). vm_compute; reflexivity.
Defined.

Lemma resumed_assembly_valid_witness :
  validate_assembly (ex_state 12) (cut_assembly fx_cut) (merge_inputs ex_inputs fx_seeds) = Ok tt.
Proof.
  eapply (resumed_assembly_valid ex_policy (ex_state 12) "r1" (ex_slot 12) ex_assembly)
    with (plan := NpAfter "a") (cut_nodes := ["a"]).
  - apply ex_reachable.
  - apply ex_slot_lookup. vm_compute; reflexivity.
  - vm_compute; reflexivity.
  - repeat constructor; apply (bool_decide_unpack _); vm_compute; reflexivity.
  - vm_compute; reflexivity.
  - repeat constructor.
  - vm_compute; reflexivity.
  - vm_compute; reflexivity.
  - vm_compute; reflexivity.
Defined.

Lemma policy_compiled_witness :
  effective_firing (started_slot (apply_to_run_request ex_request stream) ex_assembly)
    (mkNode "a" "m" "1" "src") (mkCapability "src" [] [] 1) = FiAlways.
Proof.
  destruct (policy_compiled ex_request stream ex_assembly ex_assembly (mkNode "a" "m" "1" "src")
    (mkCapability "src" [] [] 1)) as (_ & -> & _).
  - split_and!; by intros ? [=].
  - by vm_compute.
  - reflexivity.
  - vm_compute; reflexivity.
  - left.
  - vm_compute; reflexivity.
Defined.

(** ** Storage *)
Lemma write_rows_spec_witness : ∃ rows',
  write_rows "t" WmAppend [store_row [("k", SvNull)]] [] "r"
    ({["t" := mkMemTable fx_schema SmShared []]} : MemoryStorage) =
    (Ok tt, <["t" := with_rows rows' (mkMemTable fx_schema SmShared [])]> {["t" := mkMemTable fx_schema SmShared []]}) ∧
  length rows' = 1%nat.
Proof.
  destruct (write_rows_spec ({["t" := mkMemTable fx_schema SmShared []]} : MemoryStorage) "t" WmAppend
    [store_row [("k", SvNull)]] [] "r") as (rows' & Hw & Hr).
  exists rows'. split; [exact Hw|]. rw Hr. reflexivity.
Defined.

(** ** The host *)
Lemma drive_terminates_witness :
  ∃ r, ∀ fuel, (2 < fuel)%nat → drive fuel "r1" (fx_takeover 8 fx_plugin) = Some r.
Proof.
  destruct (drive_terminates (fx_takeover 8 fx_plugin) "r1" (ex_slot 8)) as (r & Hr & _).
  - apply (ex_reachable 8).
  - apply ex_slot_lookup. vm_compute; reflexivity.
  - reflexivity.
  - exists r. intros fuel Hf. apply Hr. vm_compute. exact Hf.
Defined.

(** To run an operation it is enough to evaluate its outcome. *)
Lemma call_outcome {A} (m : M FxHost FrameworkError A) h o : (m h).1 = o → m h = (o, (m h).2).
Proof. intros <-. by destruct (m h). Qed.
Lemma pipeline_started_witness : ∃ run,
  (start_pipeline "p1" ex_assembly ex_inputs fx_policy (fx_host fx_plugin)).1 = Ok run ∧
  h_run_policies fx_started = <["p1" := fx_policy]> (h_run_policies (fx_host fx_plugin)).
Proof.
  eexists. split; [vm_compute; reflexivity|].
  destruct (pipeline_started (fx_host fx_plugin) fx_started "p1" ex_assembly ex_inputs fx_policy
    (rs_run (default no_slot (st_runs (mk_state (lk_kernel (h_kernel fx_started))) !! "p1"))))
    as (cut & s & _ & _ & _ & _ & _ & _ & _ & _ & Hp & _).
  - vm_compute; reflexivity.
  - rw /fx_started /fx_do. apply call_outcome. vm_compute; reflexivity.
  - exact Hp.
Defined.

(** The unit of node [a], claimed by the last of nine calls. *)
Definition fx_unit_a : WorkItem :=
  match rs_claimed (ex_slot 9) !! "work:r1/a" with
  | Some c => cs_work c
  | None => mkWorkItem "" "" "" "" "" "" [] "" 0 0
  end.
Lemma unit_finished_witness : ∃ outputs,
  committed "r1" fx_unit_a outputs (fx_takeover 9 fx_plugin)
    (finish_work_unit "r1" fx_unit_a (fx_takeover 9 fx_plugin)).2.
Proof.
  destruct (unit_finished (fx_takeover 9 fx_plugin) (finish_work_unit "r1" fx_unit_a (fx_takeover 9 fx_plugin)).2
    "r1" fx_unit_a) as (outputs & shown & Hc & _).
  - split; [apply (ex_reachable 9)|reflexivity].
  - apply call_outcome. vm_compute; reflexivity.
  - exists outputs. exact Hc.
Defined.
(** Both units of the example run, in one drive. *)
Lemma fx_takeover_sound n : sound_host (fx_takeover n fx_plugin).
Proof. split; [apply (ex_reachable n)|reflexivity]. Qed.
Lemma drive_accounts_witness : ∃ run l ds,
  run_derivations (host_state (fx_then (drive 3 "r1") (fx_takeover 8 fx_plugin))) "r1" = ds ∧
  Forall2 (derived "r1") l ds ∧ run_steps run = len l ∧ len ds = 2.
Proof.
  destruct (drive 3 "r1" (fx_takeover 8 fx_plugin)) as [[[run|e|] h']|] eqn:Hd; [|exfalso; revert Hd; vm_compute; discriminate..].
  destruct (drive_accounts (fx_takeover 8 fx_plugin) h' 3 "r1" run) as (l & ds & _ & Hds & Hall & Hsteps & _).
  - apply fx_takeover_sound.
  - exact Hd.
  - exists run, l, ds. assert (run_derivations (host_state (fx_takeover 8 fx_plugin)) "r1" = []) as Hnil by (vm_compute; reflexivity).
    rw Hnil in Hds, Hsteps. assert (fx_then (drive 3 "r1") (fx_takeover 8 fx_plugin) = h') as Hh by (rw /fx_then Hd; reflexivity).
    split; [rw Hh; exact Hds|]. split; [exact Hall|]. split; [exact Hsteps|].
    assert (len (run_derivations (host_state (fx_then (drive 3 "r1") (fx_takeover 8 fx_plugin))) "r1") = 2) as Hlen
      by (vm_compute; reflexivity).
    rw Hh Hds in Hlen. exact Hlen.
Defined.

(** ** Memo *)
Lemma fx_driven_trusted : memo_trusted fx_driven.
Proof.
  intros store Hs. assert (default ∅ (h_memo fx_driven) = store) as <- by (by rw Hs).
  apply (bool_decide_unpack _). vm_compute; reflexivity.
Qed.
Lemma memo_store_trusted_witness : memo_trusted (fx_then (drive 3 "p2") fx_again).
Proof.
  destruct (memo_store_trusted fx_again) as [_ Hk].
  assert (memo_trusted fx_again) as Ht.
  { intros store Hs. apply fx_driven_trusted. rw -Hs. vm_compute; reflexivity. }
  destruct (Hk Ht "p2") as (_ & _ & _ & Hd). rw /fx_then.
  destruct (drive 3 "p2" fx_again) as [[o h']|] eqn:Heq; [|exact Ht]. by apply (Hd 3%nat o).
Defined.

(** The unit of node [a] of [p2] is asked for in the memo store that [p1] filled. *)
Definition fx_work : WorkItem :=
  mkWorkItem "work:p2/a" "p2" "a" "m" "1" "src" [mkNamed "in" (ex_ref ex_t)] "once:a" 1 0.
Lemma memo_hit_sound_witness : ∃ key,
  (try_memo_hit "p2" "m" fx_work fx_again).1 = Ok (Some (key, [mkNamed "out" (ex_ref ex_u)], "p1")) ∧
  ∃ store r, h_memo fx_again = Some store ∧ store !! key = Some r ∧
    [mkNamed "out" (ex_ref ex_u)] = record_to_named_outputs r.
Proof.
  eexists. split; [vm_compute; reflexivity|].
  edestruct (memo_hit_sound fx_again (try_memo_hit "p2" "m" fx_work fx_again).2 "p2" fx_work)
    as (store & r & digest & plugin & t & Hs & Hr & _ & _ & Ho & _).
  - intros store Hs. apply fx_driven_trusted. rw -Hs. vm_compute; reflexivity.
  - apply call_outcome. vm_compute; reflexivity.
  - exists store, r. split; [exact Hs|]. split; [exact Hr|]. exact Ho.
Defined.
